(* ===== verification/_CoqProject ===== *)
-Q . S2P
Prelude.v
Text.v
DockerArgs.v
Microvm.v
Json.v
JsonSpec.v
Fs.v
Shutdown.v
ShutdownSpec.v
Paths.v
Config.v
ConfigSpec.v
Storage.v
StorageSpec.v
Value.v
VmTemplate.v
Startup.v
Runtime.v
RuntimeSpec.v
RuntimeOrder.v
Gateway.v
GatewaySpec.v
GatewayServe.v
Trees.v
GatewayCa.v
GatewayCaSpec.v
Process.v
Cli.v
Base64.v
Distribution.v
DistributionSpec.v
Release.v
ReleaseSpec.v
ReleaseResult.v
Build.v
Harness.v
HarnessSpec.v
GatewayLife.v
Cancel.v
Main.v
