(* ===== verification/Prelude.v ===== *)
(** * luhmen: a verification library

    luhmen runs a Docker Engine in a Lima VM on a Mac: a command line that creates, updates, starts
    and stops the VM, a guard around the Docker client, a client for Firecracker microVMs inside the
    VM, an HTTPS gateway for local names, a helper that runs in the guest when Docker stops, and
    tools that release and test all of it. The library models these programs function by function
    and proves what they promise. Paths below are under src/.

    ** How the parts fit together

    [Main.main] around [Cli.execute] (src/main.rs) is the program, with a thread that turns a signal
    into a cancellation ([Cancel], src/cancel.rs). Most commands go to [Runtime] (src/runtime.rs),
    which guards its state directory with [Config] (src/config.rs), records starts with [Startup]
    (src/startup.rs), renders templates with [VmTemplate] (src/vm_template.rs) and runs Lima and
    Docker through a command runner ([Process], src/process.rs). [luhmen docker] passes its arguments
    through [DockerArgs] (src/docker_args.rs); [luhmen microvm] builds a line and sends it with
    [Microvm] (src/microvm.rs); [luhmen storage] is [Storage] (src/storage.rs); [luhmen daemon] and
    [luhmen cert] are the gateway (src/gateway.rs). A graceful stop runs the guest helper (guest/docker-shutdown.rs,
    [Shutdown] with the scanner [Json]), which the build embeds as text ([Build] and [Base64], build.rs).
    The developer's tools ([Release.main], src/bin/luhmen-devtool.rs) make a release ([Release] and
    [Distribution], src/devtool/distribution.rs) and drive a VM ([Harness], src/devtool/vm.rs).

    ** Files

    - [Prelude], [Text], [Paths], [Value]: results with messages, Rust's string and path methods
      on bytes, and [serde_json]'s values. A string is its bytes; a machine integer is a [Z] within
      its range, and where the source checks for overflow so does the model.
    - [Fs]: programs over files. An [environment] gives every call a fate (it succeeds, fails, or the
      process dies there), says what other processes do before it and how much of an interrupted
      write is kept. A look at a path and the opening of a file go through a link at its end
      ([follow]), and renaming needs the target's directory and refuses another directory there
      ([renamed]). [triple P m Q X H] has a postcondition for the return, the error and the death;
      [keeps] is the case where nothing changes, with the hint database of that name.
    - [DockerArgs]: the guard, a declarative grammar of option lines, and their equivalence.
    - [Microvm], [Cli], [Main]: the protocol's client; the commands and the requests they build; what
      they print and the status they end with.
    - [Cancel]: the cancellation flag over tokio's watch channel, the class [Watch] with [WatchLaws].
    - [Json], [JsonSpec]: the scanner, the grammar it accepts, the edit of one boolean.
    - [Shutdown], [ShutdownSpec]: the guest helper; its configuration survives every interruption.
    - [Config], [ConfigSpec]: settings, mounts, the state directory, replacing a file.
    - [Storage], [StorageSpec]: accounting on a file system that may change meanwhile.
    - [VmTemplate], [Startup], [Runtime], [RuntimeSpec], [RuntimeOrder]: the VM's life cycle. A [machine]
      extends the environment with what commands print and the host reports.
    - [Gateway], [GatewaySpec]: one request; hyper's header map is the class [HeaderMap] with the laws
      [HeaderMapLaws]. [GatewayServe]: connections and exchanges as a step relation with the two
      semaphores. [GatewayLife]: the same connections in time, from the handshake to the closing, and
      the gateway from its start to the end of its drain. [GatewayCa], [GatewayCaSpec], over [Trees]
      (renaming and removing directories): the certificate authority and the gateway's start.
    - [Process]: reading a child's output and ending its process group; the Engine's ping.
    - [Base64], [Build]: the encoder with a decoder as its reference; compiling and embedding the helper.
    - [Distribution], [DistributionSpec]: what a release checks, which licenses it selects and how an
      archive is made, as functions of directory trees.
    - [Release], [ReleaseSpec], [ReleaseResult]: the developer's commands as programs over files, with
      Git, Cargo, rustc, uname and xcrun as oracles of what they print and change.
    - [Harness], [HarnessSpec]: the smoke and performance suites as programs over a session of
      commands, each with its directory and environment, and written files; which commands are
      [allowed] after which others.

    ** What the theorems show

    - Interruption: the guest helper never loses Docker's configuration and can always recover
      ([shutdown_recoverable], [recover_backup_succeeds]); an update of the templates can be
      interrupted and repeated ([update_safe]); a replaced file is the old or the new one
      ([atomic_write_atomic]); the authority is absent or complete ([init_publishes]); a release
      whose output is absent changes nothing else that was there, whatever fails
      ([release_preserves]).
    - Order: power-off only after Docker stopped ([stop_order], [shutdown_stops]), a start only of a stopped
      VM ([start_order]), a child reaped last ([run_reaps_last]), every command of the suites one that
      looks or that concerns what the run made, with removal and restart only after the ownership was
      seen ([suites_safe], with [fixture_contained] for what they make themselves).
    - Ends: no wake-up of a cancellation is lost ([cancellation_wakes]), every connection ends
      ([connection_ends]), a shutdown ends the gateway ([gateway_stops]), and the status tells how a
      command ended ([exit_status]).
    - Guards: an accepted Docker line has one reading and keeps its target
      ([accepted_options_keep_target], [validate_container_options_grammar],
      [docker_targets_vm]); mounts are apart ([mounts_isolated],
      [validate_spec]); settings are immutable while looks do not fail ([create_immutable]); a foreign
      directory is refused ([ensure_owned_refuses]) and luhmen's own or a new one accepted
      ([ensure_owned_owned]); commands that look change nothing ([read_only_commands]).
    - Isolation and bounds of the gateway: [forward_isolated], [gateway_bounded], [stream_bounded],
      [collect_body_spec], [connection_outlives_requests], [gateway_ready].
    - Parsers and encoders: [locate_accepts], [disabled_config_spec], [request_spec],
      [microvm_answer], [build_embeds].
    - Reports and releases: [scan_counts], [scan_bounded], [archive_reproducible], [release_publishes].

    The theorems named here have a number (C1 and so on) in their comments. The files prove more about
    the same definitions, for instance the guard's treatment of payloads ([payload_is_opaque]), the
    checks of a request line ([validate_request_spec]) and of the sources ([check_source_spec]), the
    settings a template is filled with ([template_settings]) and the round trip of the encoder
    ([base64_roundtrip]).

    ** Fuel and bounds

    Recursion is structural wherever the source's is. The scanner's loops take [document_fuel], twice
    the length of the document and 3, and [string] its length; JsonSpec proves both enough, so an error
    of the scanner is never the fuel's. [Storage.directory] recurses on the levels left of the source's
    own limit of 64. [Base64.chunks] takes the length of its input. [Release.tree_at] descends as many
    levels as the longest name has bytes, and a name below another is longer. [Harness.hex] prints the
    16 digits of a 64-bit integer. Waiting loops ([await_reload],
    [engine_wait], [capture_loop], [reap], [eventually_go]) recurse on what the environment lets
    them see before their deadline; that the deadline comes is the clock's. A capture that has not
    ended within the turns it is given says so with [None], and its theorem covers that case.

    ** Assumptions

    Code outside the repository is a parameter with its documented laws: the header map, reading and
    printing JSON (one theorem asks that a printed value reads back), TLS and certificates, Lima, Docker and
    the operating system's tools. A theorem about a file that others could change says what they must
    leave alone ([stable], [alone]), and one about errors that [exists()] swallows says [no_faults].
    The theorems about a release ask that its commands change files only in its temporary directory
    ([lawful]); [release_publishes] also asks that the executable of a successful build is not empty,
    among other things ([regular]). A timer fires once it is at most [late] after its deadline ([stream_bounded]).

    ** Not modelled

    - Power loss: [fsync] orders nothing in the model; death is that of the process.
    - Paths of one inode under two names, and links in the middle of a path. A link at the end of one
      has what it leads to ([target]: nothing, a file or a directory), which no operation of the model
      changes.
    - clap's parsing of the arguments, the text serde writes for a report, and what the suites of the
      harness print.
    - hyper's state of a connection and its connector's pool (upstream_client in src/gateway.rs), the
      bytes of TLS, and the hints a response body gives about its size.
    - The shell scripts under scripts/, and the tests, in the files and under tests/. *)

From stdpp Require Export base tactics option list strings gmap sets numbers pretty.
From Stdlib Require Export Ascii.
From Stdlib Require String.

(** ** Results

    [Result<T, E>] of the source. Every error type the program uses is a
    message ([anyhow::Error] or [String]), so the error component is a string,
    rendered the way [{:#}] renders it. *)

Inductive result (A : Type) : Type :=
| Ok (a : A)
| Err (e : string).
Arguments Ok {A} a.
Arguments Err {A} e.

#[export] Instance result_ret : MRet result := @Ok.
#[export] Instance result_bind : MBind result := λ A B f m,
  match m with Ok a => f a | Err e => Err e end.
#[export] Instance result_fmap : FMap result := λ A B f m,
  match m with Ok a => Ok (f a) | Err e => Err e end.
#[export] Instance result_eq_dec `{EqDecision A} : EqDecision (result A).
Proof. solve_decision. Defined.

Definition is_ok {A} (r : result A) : bool :=
  match r with Ok _ => true | Err _ => false end.

(** [anyhow::ensure!]. *)
Definition ensure (b : bool) (message : string) : result unit :=
  if b then Ok () else Err message.

(** [Option::context] / [ok_or]. *)
Definition ok_or {A} (o : option A) (message : string) : result A :=
  match o with Some a => Ok a | None => Err message end.

(** [Result::context]: the outer message comes first in the chain. *)
Definition with_context {A} (message : string) (r : result A) : result A :=
  match r with Ok a => Ok a | Err e => Err (message +:+ ": " +:+ e) end.

Lemma ensure_Ok b e : ensure b e = Ok () ↔ b = true.
Proof. destruct b; simpl; split; congruence. Qed.

Lemma bind_Ok {A B} (m : result A) (f : A → result B) b :
  m ≫= f = Ok b ↔ ∃ a, m = Ok a ∧ f a = Ok b.
Proof.
  destruct m; simpl; split; [eauto| |discriminate|].
  - intros (? & [= ->] & ?); done.
  - intros (? & ? & ?); discriminate.
Qed.

Lemma unit_bind_Ok {B} (m : result unit) (k : unit → result B) x :
  (m ≫= k) = Ok x ↔ m = Ok () ∧ k () = Ok x.
Proof. rewrite bind_Ok. split; [intros ([] & ?); done|eauto]. Qed.

Lemma ensure_bind_Ok {B} b e (k : unit → result B) x :
  ensure b e ≫= k = Ok x ↔ b = true ∧ k () = Ok x.
Proof. destruct b; simpl; naive_solver. Qed.

(** A [for] loop whose body can return early with an error. *)
Fixpoint for_each {A} (body : A → result unit) (l : list A) : result unit :=
  match l with
  | [] => Ok ()
  | x :: l => _ ← body x; for_each body l
  end.

Lemma for_each_Ok {A} (body : A → result unit) l :
  for_each body l = Ok () ↔ Forall (λ x, body x = Ok ()) l.
Proof.
  induction l as [|x l IH]; simpl; [split; [constructor|done]|].
  rewrite bind_Ok, Forall_cons. setoid_rewrite IH. split; [|intros [??]; by exists ()].
  intros ([] & ? & ?); done.
Qed.

Lemma forallb_Forall {A} (p : A → bool) l : forallb p l = true ↔ Forall (λ x, p x = true) l.
Proof. rewrite forallb_forall, Forall_forall. by setoid_rewrite list_elem_of_In. Qed.

Lemma is_ok_spec {A} (r : result A) : is_ok r = true ↔ ∃ a, r = Ok a.
Proof. destruct r; naive_solver. Qed.

(** ** Bytes and text

    [&[u8]], [&str] and [String] are lists of bytes; the bytes of a [str] are
    its UTF-8 encoding. Literals are written [str "..."]. *)

Abbreviation bytes := (list ascii).

Definition str (s : string) : bytes := String.list_ascii_of_string s.
Arguments str : simpl never.

(** Lengths are machine integers in the source, so [len] is in [Z]. *)
Definition len {A} (l : list A) : Z := Z.of_nat (length l).

Definition code (c : ascii) : Z := Z.of_N (N_of_ascii c).

(** ** Machine integers *)

Definition u8_max : Z := 255.
Definition u16_max : Z := 65535.
Definition u32_max : Z := 4294967295.
Definition u64_max : Z := 18446744073709551615.

(** [u64::checked_add] and [u64::checked_mul]. *)
Definition u64_checked_add (x y : Z) : option Z :=
  if (x + y <=? u64_max)%Z then Some (x + y)%Z else None.
Definition u64_checked_mul (x y : Z) : option Z :=
  if (x * y <=? u64_max)%Z then Some (x * y)%Z else None.

Lemma u64_checked_add_Some x y z :
  u64_checked_add x y = Some z ↔ z = (x + y)%Z ∧ (x + y <= u64_max)%Z.
Proof.
  unfold u64_checked_add. destruct (Z.leb_spec (x + y) u64_max);
    split; intros; destruct_and?; simplify_eq; auto; lia.
Qed.

Lemma u64_checked_mul_Some x y z :
  u64_checked_mul x y = Some z ↔ z = (x * y)%Z ∧ (x * y <= u64_max)%Z.
Proof.
  unfold u64_checked_mul. destruct (Z.leb_spec (x * y) u64_max);
    split; intros; destruct_and?; simplify_eq; auto; lia.
Qed.

(** ** Lengths *)

Lemma len_nil {A} : len (@nil A) = 0%Z.
Proof. done. Qed.
Lemma len_cons {A} (x : A) l : len (x :: l) = (1 + len l)%Z.
Proof. unfold len. simpl. lia. Qed.
Lemma len_app {A} (l k : list A) : len (l ++ k) = (len l + len k)%Z.
Proof. unfold len. rewrite length_app. lia. Qed.
Lemma len_nonneg {A} (l : list A) : (0 <= len l)%Z.
Proof. unfold len. lia. Qed.

Create Rewrite HintDb len.
#[export] Hint Rewrite @len_nil @len_cons @len_app : len.
#[export] Hint Resolve len_nonneg : core.

(** ** Automation

    [result_inv] decomposes hypotheses about successful computations: binds,
    [ensure] guards and injective equations. *)

Create HintDb luhmen.

Ltac result_inv :=
  repeat match goal with
  | H : Ok _ = Ok _ |- _ => injection H as H; try subst
  | H : Ok _ = Err _ |- _ => discriminate H
  | H : Err _ = Ok _ |- _ => discriminate H
  | H : Some _ = None |- _ => discriminate H
  | H : None = Some _ |- _ => discriminate H
  | H : ensure _ _ = Ok _ |- _ => apply ensure_Ok in H
  | H : (_ ≫= _) = Ok _ |- _ => apply bind_Ok in H
  | H : ∃ _, _ |- _ => destruct H
  | H : _ ∧ _ |- _ => destruct H
  | H : (_ && _)%bool = true |- _ => apply andb_true_iff in H
  | H : () = _ |- _ => clear H
  | x : unit |- _ => destruct x
  end.
