(* ===== verification/Text.v ===== *)
(** * The [str] methods of Rust's standard library

    Byte-level definitions of the string operations the program uses
    ([split_once], [strip_prefix], [split_whitespace], [trim], ...), on the
    UTF-8 bytes of a string, and the lemmas about them that the components
    share. *)

From Stdlib Require Import DecimalString DecimalN.
From S2P Require Import Prelude.

(** ** Character classes *)

Definition is_ascii_digit (c : ascii) : bool := ((48 <=? code c) && (code c <=? 57))%Z.
Definition is_ascii_lowercase (c : ascii) : bool := ((97 <=? code c) && (code c <=? 122))%Z.
Definition is_ascii_uppercase (c : ascii) : bool := ((65 <=? code c) && (code c <=? 90))%Z.
Definition is_ascii_alphanumeric (c : ascii) : bool :=
  is_ascii_digit c || is_ascii_lowercase c || is_ascii_uppercase c.
(** [u8::is_ascii_whitespace]: space, tab, line feed, form feed, carriage return. *)
Definition is_ascii_whitespace (c : ascii) : bool :=
  bool_decide (code c ∈ [32; 9; 10; 12; 13]%Z).

(** Membership in a literal set of characters: [matches!(byte, b'_' | b'.' ...)]. *)
Definition one_of (set : string) (c : ascii) : bool := bool_decide (c ∈ str set).

(** [matches!(name, "a" | "b" | ...)]. *)
Definition matches (name : bytes) (literals : list string) : bool :=
  existsb (λ s, bool_decide (name = str s)) literals.
Arguments matches : simpl never.

(** ** Prefixes, suffixes and substrings *)

Fixpoint strip_prefix (p s : bytes) : option bytes :=
  match p, s with
  | [], _ => Some s
  | a :: p, b :: s => if decide (a = b) then strip_prefix p s else None
  | _ :: _, [] => None
  end.
Definition starts_with (p s : bytes) : bool := bool_decide (is_Some (strip_prefix p s)).

Definition strip_suffix (p s : bytes) : option bytes :=
  @rev ascii <$> strip_prefix (rev p) (rev s).
Definition ends_with (p s : bytes) : bool := bool_decide (is_Some (strip_suffix p s)).

(** [str::contains] of a string pattern. *)
Fixpoint contains (p s : bytes) : bool :=
  starts_with p s || match s with [] => false | _ :: s => contains p s end.

(** [str::contains] of a set of characters. *)
Definition contains_any (set : bytes) (s : bytes) : bool := existsb (λ c, bool_decide (c ∈ set)) s.

Definition to_ascii_lowercase (s : bytes) : bytes :=
  map (λ c, if is_ascii_uppercase c then ascii_of_N (N_of_ascii c + 32) else c) s.

(** ** Splitting *)

Fixpoint split_once (c : ascii) (s : bytes) : option (bytes * bytes) :=
  match s with
  | [] => None
  | x :: s =>
      if decide (x = c) then Some ([], s)
      else match split_once c s with
           | Some (l, r) => Some (x :: l, r)
           | None => None
           end
  end.

(** [str::split] by one character: always at least one piece. *)
Fixpoint split (c : ascii) (s : bytes) : list bytes :=
  match s with
  | [] => [[]]
  | x :: s =>
      if decide (x = c) then [] :: split c s
      else match split c s with
           | p :: ps => (x :: p) :: ps
           | [] => [[x]]
           end
  end.

(** The number of bytes of the [char::is_whitespace] character at the front, 0 if there is
    none: the [White_Space] code points, as their UTF-8 sequences. *)
Definition whitespace_width (s : bytes) : nat :=
  match map code (take 3 s) with
  | x :: rest =>
      if bool_decide (x ∈ [9; 10; 11; 12; 13; 32]%Z) then 1
      else match rest with
      | y :: rest =>
          if bool_decide ((x, y) ∈ [(194, 133); (194, 160)]%Z) then 2
          else match rest with
          | z :: _ =>
              if bool_decide ((x, y) = (226, 128)%Z)
                 && ((128 <=? z) && (z <=? 138) || bool_decide (z ∈ [168; 169; 175]))%Z
                 || bool_decide ((x, y, z) ∈ [(225, 154, 128); (226, 129, 159); (227, 128, 128)]%Z)
              then 3 else 0
          | [] => 0
          end
      | [] => 0
      end
  | [] => 0
  end.

(** [str::lines]: the pieces between line feeds, without a final empty piece; a carriage return
    before the line feed goes with it, one at the end of an unterminated line stays. *)
Definition newline : ascii := "010"%char.
Definition lines (s : bytes) : list bytes :=
  match rev (split newline s) with
  | [] => []
  | last :: ended =>
      map (λ l, default l (strip_suffix ["013"%char] l)) (rev ended) ++ (if decide (last = []) then [] else [last])
  end.

(** ** Decimal numbers *)

(** [u16::from_str] and the like, with [max] the largest value of the type. *)
Fixpoint decimal_digits (max acc : Z) (s : bytes) : option Z :=
  match s with
  | [] => Some acc
  | c :: s =>
      if is_ascii_digit c then
        let acc := (acc * 10 + (code c - 48))%Z in
        if (acc <=? max)%Z then decimal_digits max acc s else None
      else None
  end.
Definition parse_uint (max : Z) (s : bytes) : option Z :=
  let digits := match s with c :: r => if decide (c = "+"%char) then r else s | [] => [] end in
  match digits with [] => None | _ => decimal_digits max 0 digits end.

(** [Display] of an unsigned integer. *)
Definition decimal (n : N) : bytes :=
  String.list_ascii_of_string (NilEmpty.string_of_uint (N.to_uint n)).

(** ** UTF-8 *)

(** The first scalar value of well-formed UTF-8 and the length of its encoding
    (Unicode, table 3-7). *)
Definition utf8_first (s : bytes) : option (Z * nat) :=
  let tail (c : Z) := ((128 <=? c) && (c <=? 191))%Z in
  match map code (take 4 s) with
  | [] => None
  | a :: r =>
      if (a <=? 127)%Z then Some (a, 1)
      else match r with
      | [] => None
      | b :: r =>
          if ((194 <=? a) && (a <=? 223) && tail b)%Z then
            Some (((a - 192) * 64 + (b - 128))%Z, 2)
          else match r with
          | [] => None
          | c :: r =>
              if (((a =? 224) && (160 <=? b) && (b <=? 191)
                   || (225 <=? a) && (a <=? 236) && tail b
                   || (a =? 237) && (128 <=? b) && (b <=? 159)
                   || (238 <=? a) && (a <=? 239) && tail b) && tail c)%Z then
                Some (((a - 224) * 4096 + (b - 128) * 64 + (c - 128))%Z, 3)
              else match r with
              | [] => None
              | d :: _ =>
                  if (((a =? 240) && (144 <=? b) && (b <=? 191)
                       || (241 <=? a) && (a <=? 243) && tail b
                       || (a =? 244) && (128 <=? b) && (b <=? 143)) && tail c && tail d)%Z then
                    Some (((a - 240) * 262144 + (b - 128) * 4096 + (c - 128) * 64 + (d - 128))%Z, 4)
                  else None
              end
          end
      end
  end.

(** [std::str::from_utf8(s).is_ok()]; [skip] counts the bytes left of the current character. *)
Fixpoint utf8_valid_go (skip : nat) (s : bytes) : bool :=
  match s with
  | [] => bool_decide (skip = 0)
  | _ :: rest =>
      match skip with
      | S skip => utf8_valid_go skip rest
      | O => match utf8_first s with
             | Some (_, n) => utf8_valid_go (n - 1) rest
             | None => false
             end
      end
  end.
Definition utf8_valid (s : bytes) : bool := utf8_valid_go 0 s.

(** ** White space *)

(** A run read so far, reversed, unless it is empty. *)
Definition flush (current : bytes) : list bytes :=
  match current with [] => [] | _ => [rev current] end.
(** [str::split_whitespace]: the maximal runs of non-whitespace characters. [current] is the
    run read so far, reversed; [skip] counts the bytes left of a whitespace character. *)
Fixpoint split_whitespace_go (skip : nat) (current : bytes) (s : bytes) : list bytes :=
  match s with
  | [] => flush current
  | x :: rest =>
      match skip with
      | S skip => split_whitespace_go skip [] rest
      | O => match whitespace_width s with
             | O => split_whitespace_go 0 (x :: current) rest
             | S n => flush current ++ split_whitespace_go n [] rest
             end
      end
  end.
Definition split_whitespace (s : bytes) : list bytes := split_whitespace_go 0 [] s.

(** [str::trim]. *)
Fixpoint trim_start_go (skip : nat) (s : bytes) : bytes :=
  match s with
  | [] => []
  | _ :: rest =>
      match skip with
      | S skip => trim_start_go skip rest
      | O => match whitespace_width s with O => s | S n => trim_start_go n rest end
      end
  end.
Definition trim_start (s : bytes) : bytes := trim_start_go 0 s.
Fixpoint trim_end (s : bytes) : bytes :=
  match s with
  | [] => []
  | x :: rest => match trim_start s with [] => [] | _ => x :: trim_end rest end
  end.
Definition trim (s : bytes) : bytes := trim_end (trim_start s).

(** ** Lemmas *)

Lemma strip_prefix_Some p s r : strip_prefix p s = Some r ↔ s = p ++ r.
Proof.
  revert s; induction p as [|a p IH]; intros [|b s]; simpl.
  - split; congruence.
  - split; congruence.
  - split; discriminate.
  - destruct (decide (a = b)) as [->|Hne].
    + rewrite IH. split; [intros ->|intros [= ->]]; done.
    + split; [discriminate|]. intros [= -> ?]; done.
Qed.

Lemma starts_with_spec p s : starts_with p s = true ↔ ∃ r, s = p ++ r.
Proof.
  unfold starts_with. rewrite bool_decide_eq_true. unfold is_Some.
  setoid_rewrite strip_prefix_Some. done.
Qed.

Lemma starts_with_app p s : starts_with p (p ++ s) = true.
Proof. apply starts_with_spec. eauto. Qed.

Lemma strip_suffix_Some p s r : strip_suffix p s = Some r ↔ s = r ++ p.
Proof.
  unfold strip_suffix. rewrite fmap_Some. split.
  - intros (t & Ht & ->). apply strip_prefix_Some in Ht.
    apply (f_equal (@rev _)) in Ht. rewrite rev_involutive, rev_app_distr, rev_involutive in Ht.
    done.
  - intros ->. exists (rev r). rewrite strip_prefix_Some, rev_app_distr, rev_involutive. done.
Qed.

Lemma split_once_Some c s l r :
  split_once c s = Some (l, r) ↔ s = l ++ c :: r ∧ c ∉ l.
Proof.
  revert l; induction s as [|x s IH]; intros l; simpl.
  - split; [discriminate|]. intros [H _]. destruct l; discriminate.
  - destruct (decide (x = c)) as [->|Hne].
    + split; [intros [= <- <-]; split; [done|set_solver]|].
      intros [H Hn]. destruct l as [|y l]; [by injection H as ->|].
      injection H as -> H. set_solver.
    + destruct (split_once c s) as [[l' r']|] eqn:E.
      * split.
        -- intros [= <- <-]. destruct (proj1 (IH l') eq_refl) as [-> ?]. set_solver.
        -- intros [H Hn]. destruct l as [|y l]; injection H as -> H; [done|].
           assert (Some (l', r') = Some (l, r)) as [= <- <-].
           { apply IH. split; [done|set_solver]. } done.
      * split; [discriminate|]. intros [H Hn]. destruct l as [|y l]; injection H as -> H; [done|].
        assert (None = Some (l, r)); [|discriminate]. apply IH. split; [done|set_solver].
Qed.

Lemma split_once_None c s : split_once c s = None ↔ c ∉ s.
Proof.
  induction s as [|x s IH]; simpl; [set_solver|].
  destruct (decide (x = c)) as [->|Hne]; [set_solver|].
  destruct (split_once c s) as [[l r]|]; [|set_solver].
  split; [discriminate|]. intros Hn. assert (Some (l, r) = None); [|done]. apply IH. set_solver.
Qed.

Lemma contains_any_spec set s : contains_any set s = true ↔ ∃ c, c ∈ set ∧ c ∈ s.
Proof.
  unfold contains_any. rewrite existsb_exists.
  setoid_rewrite bool_decide_eq_true. setoid_rewrite <-list_elem_of_In. naive_solver.
Qed.

Lemma one_of_spec set c : one_of set c = true ↔ c ∈ str set.
Proof. unfold one_of. apply bool_decide_eq_true. Qed.

(** ** Printable tokens

    Tokens made of graphic ASCII characters survive [split_whitespace] of their
    space-separated concatenation. *)

Definition is_graphic (c : ascii) : bool := ((33 <=? code c) && (code c <=? 126))%Z.

Fixpoint join (sep : bytes) (l : list bytes) : bytes :=
  match l with
  | [] => []
  | [x] => x
  | x :: rest => x ++ sep ++ join sep rest
  end.

Lemma whitespace_width_graphic c s : is_graphic c = true → whitespace_width (c :: s) = 0.
Proof.
  unfold is_graphic, whitespace_width. rewrite andb_true_iff, !Z.leb_le. intros H. simpl.
  rewrite bool_decide_eq_false_2 by (rewrite !elem_of_cons, elem_of_nil; lia).
  destruct s as [|y s]; [done|]. simpl.
  rewrite bool_decide_eq_false_2 by (rewrite !elem_of_cons, elem_of_nil; intros [[=]|[[=]|[]]]; lia).
  destruct s as [|z s]; [done|]. simpl.
  rewrite (bool_decide_eq_false_2 ((code c, code y) = (226, 128)%Z)) by (intros [=]; lia).
  rewrite andb_false_l, orb_false_l. rewrite bool_decide_eq_false_2; [done|].
  rewrite !elem_of_cons, elem_of_nil. intros [[=]|[[=]|[[=]|[]]]]; lia.
Qed.

Lemma split_whitespace_go_graphic current t s :
  Forall (λ c, is_graphic c = true) t →
  split_whitespace_go 0 current (t ++ s) = split_whitespace_go 0 (rev t ++ current) s.
Proof.
  intros H. revert current. induction H as [|c t Hc _ IH]; intros current; [done|].
  simpl. rewrite (whitespace_width_graphic c (t ++ s) Hc), IH. by rewrite <-app_assoc.
Qed.

Lemma split_whitespace_go_space current s :
  split_whitespace_go 0 current (" "%char :: s) =
  match current with [] => [] | _ => [rev current] end ++ split_whitespace_go 0 [] s.
Proof. reflexivity. Qed.

Lemma split_whitespace_join l :
  Forall (λ t, t ≠ [] ∧ Forall (λ c, is_graphic c = true) t) l →
  split_whitespace (join (str " ") l) = l.
Proof.
  assert (Hflush : ∀ t : bytes, t ≠ [] →
    match rev t ++ [] with [] => [] | _ => [rev (rev t ++ [])] end = [t]).
  { intros t Ht. rewrite app_nil_r. rewrite rev_involutive.
    destruct (rev t) eqn:E; [|done]. apply (f_equal (@rev _)) in E.
    rewrite rev_involutive in E. done. }
  unfold split_whitespace. induction 1 as [|t l [Ht Hg] Hl IH]; [done|].
  destruct l as [|t' l].
  - simpl. rewrite <-(app_nil_r t) at 1. rewrite split_whitespace_go_graphic by done.
    simpl. by apply Hflush.
  - change (join (str " ") (t :: t' :: l)) with (t ++ " "%char :: join (str " ") (t' :: l)).
    rewrite split_whitespace_go_graphic by done. rewrite split_whitespace_go_space.
    by rewrite Hflush, IH.
Qed.

Lemma matches_spec name literals : matches name literals = true ↔ name ∈ map str literals.
Proof.
  unfold matches. rewrite existsb_exists, list_elem_of_In, in_map_iff.
  setoid_rewrite bool_decide_eq_true. split; intros (x & ? & ?); eauto.
Qed.

(** Case analysis on membership in lists of literals; distinct literals are discriminated. *)
Ltac literal_cases :=
  repeat match goal with
  | H : matches _ _ = true |- _ => apply matches_spec in H; simpl in H
  | H : _ ∈ [] |- _ => apply elem_of_nil in H; destruct H
  | H : _ ∈ _ :: _ |- _ => apply elem_of_cons in H as [H|H]; try subst
  end; try discriminate.

Lemma str_inj s t : str s = str t → s = t.
Proof.
  intros H. rewrite <-(String.string_of_list_ascii_of_string s),
    <-(String.string_of_list_ascii_of_string t). unfold str in H. by rewrite H.
Qed.

Lemma decimal_inj m n : decimal m = decimal n → m = n.
Proof.
  unfold decimal. intros H%str_inj. apply (f_equal NilEmpty.uint_of_string) in H.
  rewrite !NilEmpty.usu in H. injection H as H. by apply DecimalN.Unsigned.to_uint_inj in H.
Qed.

(** ** The length of a number *)

Lemma little_double_digits d :
  Decimal.nb_digits (Decimal.Little.double d) <= S (Decimal.nb_digits d) ∧
  Decimal.nb_digits (Decimal.Little.succ_double d) <= S (Decimal.nb_digits d).
Proof. induction d; simpl; lia. Qed.

Lemma little_uint_digits p : Decimal.nb_digits (Pos.to_little_uint p) <= Pos.size_nat p.
Proof.
  induction p as [p IH|p IH|]; simpl; [| |lia];
    destruct (little_double_digits (Pos.to_little_uint p)); lia.
Qed.

Lemma revapp_digits d d' : Decimal.nb_digits (Decimal.revapp d d') = Decimal.nb_digits d + Decimal.nb_digits d'.
Proof. revert d'. induction d; intros d'; simpl; [done|..]; rewrite IHd; simpl; lia. Qed.

Lemma string_of_uint_digits d :
  length (str (NilEmpty.string_of_uint d)) = Decimal.nb_digits d ∧
  Forall (λ c, is_ascii_digit c = true) (str (NilEmpty.string_of_uint d)).
Proof. induction d; unfold str in *; simpl; [done|destruct IHd; split; [lia|by constructor]..]. Qed.

Lemma size_nat_bound p : (2 ^ Z.of_nat (Pos.size_nat p) <= 2 * Z.pos p)%Z.
Proof.
  induction p as [p IH|p IH|]; [| |simpl; lia];
    cbn [Pos.size_nat]; rewrite Nat2Z.inj_succ, Z.pow_succ_r by lia; lia.
Qed.

Lemma decimal_is_digits n : Forall (λ c, is_ascii_digit c = true) (decimal n).
Proof. apply string_of_uint_digits. Qed.

Lemma decimal_nonempty n : decimal n ≠ [].
Proof.
  intros E. pose proof (decimal_inj n 0) as Hn. rewrite E in Hn.
  destruct n as [|p]; [done|]. clear Hn. unfold decimal in E.
  pose proof (DecimalN.Unsigned.of_to (N.pos p)) as Ho.
  destruct (N.to_uint (N.pos p)) eqn:Eu; [by vm_compute in Ho|by vm_compute in E..].
Qed.

Lemma decimal_length k n : 1 <= k → (Z.of_N n * 2 < 2 ^ Z.of_nat (S k))%Z → (len (decimal n) <= Z.of_nat k)%Z.
Proof.
  intros Hk Hn. unfold len, decimal. rewrite (proj1 (string_of_uint_digits _)).
  destruct n as [|p]; [simpl; lia|]. simpl. unfold Pos.to_uint, Decimal.rev.
  rewrite revapp_digits. simpl. pose proof (little_uint_digits p). pose proof (size_nat_bound p).
  assert (Pos.size_nat p <= k); [|lia]. destruct (decide (Pos.size_nat p <= k)); [done|].
  assert (2 ^ Z.of_nat (S k) <= 2 ^ Z.of_nat (Pos.size_nat p))%Z by (apply Z.pow_le_mono_r; lia). lia.
Qed.
