(* ===== verification/DockerArgs.v ===== *)
(** * The argument guard of [luhmen docker] (src/src/docker_args.rs)

    [validate] decides which Docker command lines the wrapper forwards. The
    model follows the source function by function; an index into [args] is the
    suffix of [args] that starts there. The declarative grammar [options] says
    what the option section of [exec], [run] and [create] may contain; the
    loop accepts exactly that grammar. *)

From S2P Require Import Prelude Text.

Definition DIRECT_CLI : string :=
  "use `docker --context luhmen ...` directly for unsupported option syntax".

Inductive CommandKind := Exec | Create.
Inductive Arity := Boolean | Value.

#[export] Instance CommandKind_eq_dec : EqDecision CommandKind.
Proof. solve_decision. Defined.
#[export] Instance Arity_eq_dec : EqDecision Arity.
Proof. solve_decision. Defined.

Definition create_boolean_options : list string :=
  ["disable-content-trust"; "init"; "no-healthcheck"; "oom-kill-disable"; "publish-all";
   "quiet"; "read-only"; "rm"; "sig-proxy"; "use-api-socket"].

Definition create_value_options : list string :=
  ["add-host"; "annotation"; "attach"; "blkio-weight"; "blkio-weight-device"; "cap-add";
   "cap-drop"; "cgroup-parent"; "cgroupns"; "cidfile"; "cpu-count"; "cpu-percent"; "cpu-period";
   "cpu-quota"; "cpu-rt-period"; "cpu-rt-runtime"; "cpu-shares"; "cpus"; "cpuset-cpus";
   "cpuset-mems"; "device"; "device-cgroup-rule"; "device-read-bps"; "device-read-iops";
   "device-write-bps"; "device-write-iops"; "dns"; "dns-option"; "dns-search"; "domainname";
   "entrypoint"; "expose"; "gpus"; "group-add"; "health-cmd"; "health-interval";
   "health-retries"; "health-start-interval"; "health-start-period"; "health-timeout";
   "hostname"; "io-maxbandwidth"; "io-maxiops"; "ip"; "ip6"; "ipc"; "isolation"; "label";
   "label-file"; "link"; "link-local-ip"; "log-driver"; "log-opt"; "mac-address"; "memory";
   "memory-reservation"; "memory-swap"; "memory-swappiness"; "mount"; "name"; "network";
   "network-alias"; "oom-score-adj"; "pid"; "pids-limit"; "platform"; "publish"; "pull";
   "restart"; "runtime"; "security-opt"; "shm-size"; "stop-signal"; "stop-timeout";
   "storage-opt"; "sysctl"; "tmpfs"; "ulimit"; "userns"; "uts"; "volume"; "volume-driver";
   "volumes-from"].

Definition long_option (name : bytes) (command : CommandKind) : option Arity :=
  if matches name ["debug"; "help"; "version"] then Some Boolean
  else if matches name ["log-level"] then Some Value
  else if matches name ["detach"; "interactive"; "tty"; "privileged"] then Some Boolean
  else if matches name ["detach-keys"; "env"; "env-file"; "user"; "workdir"] then Some Value
  else match command with
  | Exec => None
  | Create =>
      if matches name create_boolean_options then Some Boolean
      else if matches name create_value_options then Some Value
      else None
  end.

(** The arity table of [short_options]; [None] is its [bail!] arm. *)
Definition short_arity (command : CommandKind) (name : ascii) : option Arity :=
  if one_of "ditD" name then Some Boolean
  else match command with
  | Exec => if one_of "hv" name then Some Boolean
            else if one_of "euwl" name then Some Value else None
  | Create => if one_of "Pq" name then Some Boolean
              else if one_of "acehlmpuvw" name then Some Value else None
  end.

(** [require_value(args, index, option)]: [following] is [args[index + 1..]]. *)
Definition require_value (following : list bytes) (option : bytes) : result nat :=
  _ ← ensure (bool_decide (is_Some (following !! 0)))
        ("Docker option " +:+ String.string_of_list_ascii option +:+ " requires a value; "
         +:+ DIRECT_CLI);
  Ok 2.

(** The [char_indices] loop of [short_options] over the cluster after the dash. A character
    outside ASCII starts with a byte no arm of the table lists, so the loop can go byte by byte. *)
Fixpoint short_options (short : bytes) (following : list bytes) (command : CommandKind)
    : result nat :=
  match short with
  | [] => Ok 1
  | name :: rest =>
      _ ← ensure (bool_decide (name ≠ "H"%char))
            "Docker host overrides are not allowed in the luhmen wrapper";
      _ ← ensure (bool_decide (name ≠ "c"%char) || bool_decide (command = Create))
            "Docker context overrides are not allowed in the luhmen wrapper";
      match short_arity command name with
      | None => Err ("unsupported Docker short option -" +:+ String.String name ""
                     +:+ "; " +:+ DIRECT_CLI)
      | Some Value =>
          if bool_decide (rest = []) then require_value following [name] else Ok 1
      | Some Boolean =>
          if starts_with (str "=") rest then Ok 1 else short_options rest following command
      end
  end.

(** The part of the loop body that consumes one option, [long] or short. *)
Definition consume_option (arg : bytes) (following : list bytes) (command : CommandKind)
    : result nat :=
  match strip_prefix (str "--") arg with
  | Some long =>
      let '(name, inline) :=
        match split_once "="%char long with
        | Some (name, _) => (name, true)
        | None => (long, false)
        end in
      match long_option name command with
      | None => Err ("unsupported Docker option --" +:+ String.string_of_list_ascii name
                     +:+ "; " +:+ DIRECT_CLI)
      | Some Boolean => Ok 1
      | Some Value => if inline then Ok 1 else require_value following name
      end
  | None => short_options (drop 1 arg) following command
  end.

(** The operand that ends the option section. *)
Definition is_operand (arg : bytes) : bool :=
  bool_decide (arg = str "--") || bool_decide (arg = str "-") || negb (starts_with (str "-") arg).

(** The [while let] loop: [args] is [args[index..]]; [consumed] is 1 or 2. *)
Fixpoint validate_container_options (args : list bytes) (command : CommandKind) : result unit :=
  match args with
  | [] => Ok ()
  | arg :: following =>
      if is_operand arg then Ok ()
      else consumed ← consume_option arg following command;
           match consumed, following with
           | 2, _ :: after => validate_container_options after command
           | _, _ => validate_container_options following command
           end
  end.

(** The endpoint check of one argument, wherever it stands. *)
Definition endpoint_override (arg : bytes) : bool :=
  let name := match split_once "="%char arg with Some (name, _) => name | None => arg end in
  matches name ["--context"; "--host"; "--config"].

(** One argument of a command whose option grammar the wrapper does not know. *)
Definition validate_other_argument (arg : bytes) : result unit :=
  _ ← ensure (negb (bool_decide (arg = str "--builder")) && negb (starts_with (str "--builder=") arg))
        ("Docker builder overrides are not allowed in the luhmen wrapper; " +:+ DIRECT_CLI);
  match strip_prefix (str "-") arg with
  | Some short =>
      if negb (starts_with (str "-") short) then
        ensure (negb (contains_any (str "cH") short))
          ("ambiguous Docker short target option; " +:+ DIRECT_CLI)
      else Ok ()
  | None => Ok ()
  end.

Definition validate_command (command : bytes) (options : list bytes) : result unit :=
  if matches command ["exec"] then validate_container_options options Exec
  else if matches command ["run"; "create"] then validate_container_options options Create
  else for_each validate_other_argument options.

Definition validate (args : list bytes) : result unit :=
  match args with
  | [] => Err "provide a Docker workload command"
  | command :: remaining =>
      _ ← ensure (negb (bool_decide (command = [])) && negb (starts_with (str "-") command)
                  && bool_decide (command ≠ str "context"))
            "provide a Docker workload command; manage Docker contexts directly with the Docker CLI";
      _ ← for_each (λ arg, ensure (negb (endpoint_override arg))
            "Docker endpoint or configuration overrides are not allowed in the luhmen wrapper") args;
      if bool_decide (command = str "container") then
        match remaining with
        | [] => Ok ()
        | subcommand :: options =>
            _ ← ensure (negb (starts_with (str "-") subcommand))
                  ("place the container subcommand before its options; " +:+ DIRECT_CLI);
            validate_command subcommand options
        end
      else validate_command command remaining
  end.

(** ** The declarative grammar

    What an option token means to Docker's parser: the flags it sets, and whether it takes the
    next argument as its value. [SetInterspersed(false)] ends the section at the first operand. *)

Inductive flag := ShortFlag (c : ascii) | LongFlag (name : bytes).

Inductive short_cluster (command : CommandKind) : bytes → list flag → bool → Prop :=
| cluster_end : short_cluster command [] [] false
| cluster_boolean c rest flags next :
    short_arity command c = Some Boolean → (∀ v, rest ≠ "="%char :: v) →
    short_cluster command rest flags next →
    short_cluster command (c :: rest) (ShortFlag c :: flags) next
| cluster_boolean_inline c v :
    short_arity command c = Some Boolean →
    short_cluster command (c :: "="%char :: v) [ShortFlag c] false
| cluster_value_inline c v :
    short_arity command c = Some Value → v ≠ [] →
    short_cluster command (c :: v) [ShortFlag c] false
| cluster_value_next c :
    short_arity command c = Some Value → short_cluster command [c] [ShortFlag c] true.

Inductive option_token (command : CommandKind) : bytes → list flag → bool → Prop :=
| token_long_plain name arity :
    "="%char ∉ name → long_option name command = Some arity →
    option_token command (str "--" ++ name) [LongFlag name] (bool_decide (arity = Value))
| token_long_inline name arity v :
    "="%char ∉ name → long_option name command = Some arity →
    option_token command (str "--" ++ name ++ "="%char :: v) [LongFlag name] false
| token_short s flags next :
    (∀ t, s ≠ "-"%char :: t) → short_cluster command s flags next →
    option_token command ("-"%char :: s) flags next.

Inductive options (command : CommandKind) : list bytes → list flag → list bytes → Prop :=
| options_end : options command [] [] []
| options_operand arg payload :
    is_operand arg = true → options command (arg :: payload) [] (arg :: payload)
| options_one arg rest flags flags' payload :
    is_operand arg = false → option_token command arg flags false →
    options command rest flags' payload →
    options command (arg :: rest) (flags ++ flags') payload
| options_two arg value rest flags flags' payload :
    is_operand arg = false → option_token command arg flags true →
    options command rest flags' payload →
    options command (arg :: value :: rest) (flags ++ flags') payload.

(** The flags that would move the command to another engine. *)
Definition redirects (command : CommandKind) (f : flag) : bool :=
  match f with
  | ShortFlag c => bool_decide (c = "H"%char)
                   || bool_decide (c = "c"%char) && bool_decide (command = Exec)
  | LongFlag name => matches name ["context"; "host"; "config"]
  end.

Definition args_of (l : list string) : list bytes := map str l.
Definition accepts (l : list string) : bool := is_ok (validate (args_of l)).

(** ** The source's own test vectors *)

Example target_overrides_are_rejected :
  existsb accepts
    [["--context"; "other"; "ps"]; ["ps"; "--context=other"]; ["context"; "use"; "other"];
     ["exec"; "-cother"; "app"; "true"]; ["exec"; "-itcother"; "app"; "true"];
     ["exec"; "-DHunix:///other.sock"; "app"; "true"];
     ["run"; "--name"; "fixture"; "-H"; "unix:///other.sock"; "image"];
     ["ps"; "-Dcother"]; ["buildx"; "--builder=other"; "build"; "."];
     ["exec"; "app"; "program"; "--context=other"]; ["exec"; "-u"; "1000"; "-cother"; "app"];
     ["exec"; "-itu"; "1000"; "-cother"; "app"; "true"]; ["exec"; "--user"]; ["exec"; "-e"];
     ["exec"; "--future-option"; "value"; "app"; "true"]] = false.
Proof. vm_compute. reflexivity. Qed.

Example shell_payloads_are_accepted :
  forallb accepts
    [["exec"; "app"; "sh"; "-c"; "echo hello"];
     ["exec"; "-itu1000"; "-eKEY=value"; "-w/tmp"; "app"; "sh"; "-c"; "echo hello"];
     ["exec"; "-it=false"; "-u=1000"; "-e=KEY=value"; "app"; "sh"; "-c"; "echo hello"];
     ["exec"; "--detach-keys=ctrl-c"; "--privileged=false"; "--"; "app"; "sh"; "-c"; "x"];
     ["exec"; "-e"; "-c"; "app"; "true"]; ["run"; "-c"; "128"; "image"; "sh"; "-c"; "x"];
     ["container"; "create"; "-c=128"; "image"; "sh"; "-c"; "echo hello"];
     ["run"; "image"; "program"; "--builder=fixture"]] = true.
Proof. vm_compute. reflexivity. Qed.

(** ** The grammar and the loop *)

Lemma starts_with_eq rest : starts_with (str "=") rest = true ↔ ∃ v, rest = "="%char :: v.
Proof. apply starts_with_spec. Qed.

Lemma short_arity_not_redirecting command c :
  is_Some (short_arity command c) → redirects command (ShortFlag c) = false.
Proof.
  intros [a Ha]. unfold redirects. apply orb_false_iff. split.
  - apply bool_decide_eq_false. intros ->. destruct command; discriminate.
  - apply andb_false_iff. destruct command; [left|right; done].
    apply bool_decide_eq_false. intros ->. discriminate.
Qed.

Lemma long_option_not_redirecting command name :
  is_Some (long_option name command) → redirects command (LongFlag name) = false.
Proof.
  intros [a Ha]. unfold redirects, matches. simpl.
  rewrite !orb_false_iff, !bool_decide_eq_false.
  repeat split; intros ->; vm_compute in Ha; destruct command; discriminate.
Qed.

Lemma require_value_Ok following o n :
  require_value following o = Ok n ↔ n = 2 ∧ following ≠ [].
Proof.
  unfold require_value. rewrite ensure_bind_Ok, bool_decide_eq_true.
  destruct following; simpl; unfold is_Some; naive_solver.
Qed.

(** How many arguments a token uses, given the arguments after it. *)
Definition uses (next : bool) (following : list bytes) (n : nat) : Prop :=
  if next then n = 2 ∧ following ≠ [] else n = 1.

Lemma short_options_sound s following command n :
  short_options s following command = Ok n →
  ∃ flags next, short_cluster command s flags next ∧ uses next following n.
Proof.
  induction s as [|c rest IH]; simpl; intros H.
  { injection H as <-. exists [], false. split; [constructor|done]. }
  result_inv. destruct (short_arity command c) as [[]|] eqn:Ha; [| |done].
  - destruct (starts_with (str "=") rest) eqn:He; result_inv.
    + apply starts_with_eq in He as [v ->]. eexists _, false. split; [by apply cluster_boolean_inline|done].
    + destruct (IH H1) as (flags & next & Hc & Hu). exists (ShortFlag c :: flags), next.
      split; [|done]. constructor; [done| |done].
      intros v ->. rewrite (proj2 (starts_with_eq _)) in He; naive_solver.
  - case_bool_decide as Hr.
    + subst. apply require_value_Ok in H1. eexists _, true. split; [by apply cluster_value_next|done].
    + result_inv. eexists _, false. split; [by apply cluster_value_inline|done].
Qed.

Lemma short_options_complete s following command flags next n :
  short_cluster command s flags next → uses next following n →
  short_options s following command = Ok n.
Proof.
  induction 1 as [|c rest flags next Ha He _ IH|c v Ha|c v Ha Hv|c Ha]; simpl; intros Hu.
  { by rewrite Hu. }
  all: assert (Hs := short_arity_not_redirecting command c (ex_intro _ _ Ha)).
  all: simpl in Hs; apply orb_false_iff in Hs as [HH Hc]; apply bool_decide_eq_false in HH.
  all: rewrite (bool_decide_eq_true_2 (c ≠ "H"%char)) by done; simpl.
  all: assert (bool_decide (c ≠ "c"%char) || bool_decide (command = Create) = true) as ->;
    [destruct command; [|by rewrite orb_true_r]; rewrite andb_true_r, bool_decide_eq_false in Hc;
     by rewrite bool_decide_eq_true_2|]; simpl; rewrite Ha.
  - destruct (starts_with (str "=") rest) eqn:E; [|auto].
    apply starts_with_eq in E as [v ->]. by destruct (He v).
  - by rewrite Hu.
  - rewrite bool_decide_eq_false_2 by done. by rewrite Hu.
  - by apply require_value_Ok.
Qed.

Lemma option_token_long name command arity v :
  "="%char ∉ name → long_option name command = Some arity →
  v = [] ∨ (∃ w, v = "="%char :: w) →
  option_token command (str "--" ++ name ++ v) [LongFlag name]
    (bool_decide (arity = Value) && bool_decide (v = [])).
Proof.
  intros Hn Ho [->|[w ->]].
  - rewrite app_nil_r, andb_true_r. by apply token_long_plain.
  - rewrite andb_false_r. by eapply token_long_inline.
Qed.

Lemma consume_option_sound arg following command n :
  is_operand arg = false → consume_option arg following command = Ok n →
  ∃ flags next, option_token command arg flags next ∧ uses next following n.
Proof.
  unfold consume_option. intros Hop H.
  destruct (strip_prefix (str "--") arg) as [long|] eqn:Hl.
  - apply strip_prefix_Some in Hl as ->.
    destruct (split_once "="%char long) as [[name v]|] eqn:Hs.
    + apply split_once_Some in Hs as [-> Hn].
      destruct (long_option name command) as [a|] eqn:Ho; [|done].
      eexists _, _. split; [eapply option_token_long; eauto|].
      rewrite andb_false_r. destruct a; by injection H as <-.
    + apply split_once_None in Hs.
      destruct (long_option long command) as [a|] eqn:Ho; [|done].
      eexists _, _. split; [by eapply token_long_plain|].
      destruct a; [by injection H as <-|by apply require_value_Ok in H].
  - unfold is_operand in Hop. rewrite !orb_false_iff, negb_false_iff in Hop.
    destruct Hop as [_ Hd]. apply starts_with_spec in Hd as [s ->]. change (str "-" ++ s) with ("-"%char :: s) in *.
    change (drop 1 ("-"%char :: s)) with s in H.
    apply short_options_sound in H as (flags & next & Hc & Hu).
    exists flags, next. split; [|done]. apply token_short; [|done].
    intros t ->. enough (None = Some t) by done. rewrite <-Hl. by apply strip_prefix_Some.
Qed.

Lemma consume_option_complete arg following command flags next n :
  option_token command arg flags next → uses next following n →
  consume_option arg following command = Ok n.
Proof.
  unfold consume_option. intros Ht Hu. destruct Ht as [name a Hn Ho|name a v Hn Ho|s flags next Hs Hc].
  - rewrite (proj2 (strip_prefix_Some (str "--") (str "--" ++ name) name)) by done.
    rewrite (proj2 (split_once_None _ name)) by done. rewrite Ho.
    destruct a; [by rewrite Hu|]. by apply require_value_Ok.
  - erewrite (proj2 (strip_prefix_Some (str "--") _ _)) by done.
    rewrite (proj2 (split_once_Some "="%char _ name v)) by done. rewrite Ho, Hu. by destruct a.
  - destruct (strip_prefix (str "--") ("-"%char :: s)) as [l|] eqn:E.
    { apply strip_prefix_Some in E. injection E as E. by destruct (Hs l). }
    eauto using short_options_complete.
Qed.

(** C20. The option loop of [exec], [run] and [create] accepts an argument list exactly when the
    list derives in the declarative option grammar: options of known arity, each with its value,
    up to the first operand. *)
Theorem validate_container_options_grammar args command :
  validate_container_options args command = Ok () ↔ ∃ flags payload, options command args flags payload.
Proof.
  split.
  - remember (length args) as k eqn:Hk. revert args Hk.
    induction k as [k IH] using lt_wf_ind. intros [|arg following] -> H.
    { eexists [], []. constructor. }
    simpl in H. destruct (is_operand arg) eqn:Hop.
    { eexists [], _. by constructor. }
    result_inv. apply consume_option_sound in H as (fl & next & Ht & Hu); [|done].
    destruct next; simpl in Hu; destruct_and?; subst.
    + destruct following as [|v after]; [done|].
      edestruct (IH (length after)) as (fs & p & ?); [simpl; lia|done|done|].
      eexists _, _. by eapply options_two.
    + edestruct (IH (length following)) as (fs & p & ?); [simpl; lia|done|done|].
      eexists _, _. by eapply options_one.
  - intros (flags & payload & H). induction H; simpl.
    + done.
    + by rewrite H.
    + by rewrite H, (consume_option_complete _ _ _ _ _ 1 H0 eq_refl).
    + by rewrite H, (consume_option_complete _ _ _ _ _ 2 H0 (conj eq_refl (not_eq_sym (@nil_cons _ _ _)))).
Qed.

Lemma short_cluster_deterministic command s f1 n1 f2 n2 :
  short_cluster command s f1 n1 → short_cluster command s f2 n2 → f1 = f2 ∧ n1 = n2.
Proof.
  intros H1. revert f2 n2. induction H1; intros f2 n2 H2; inversion H2; simplify_eq;
    try done; try (match goal with H : ∀ v, _ ≠ _ |- _ => by edestruct H end).
  edestruct IHshort_cluster; eauto. by subst.
Qed.

Lemma option_token_deterministic command arg f1 n1 f2 n2 :
  option_token command arg f1 n1 → option_token command arg f2 n2 → f1 = f2 ∧ n1 = n2.
Proof.
  assert (Hsplit : ∀ (a b v w : bytes), "="%char ∉ a → "="%char ∉ b →
    a ++ "="%char :: v = b ++ "="%char :: w → a = b).
  { intros a b v w Ha Hb E.
    assert (Some (a, v) = Some (b, w)) as [= -> ->]; [|done].
    rewrite <-(proj2 (split_once_Some "="%char (a ++ "="%char :: v) a v)) by done.
    apply split_once_Some. by rewrite E. }
  destruct 1 as [name a Hn Ho|name a v Hn Ho|s fl nx Hs Hc];
    inversion 1 as [name' a' Hn' Ho' E|name' a' v' Hn' Ho' E|s' fl' nx' Hs' Hc' E]; subst;
    repeat match goal with E : _ = _ |- _ => progress change (str "--") with ["-"; "-"]%char in E end;
    simplify_eq/=.
  all: try (by edestruct Hs); try (by edestruct Hs'); try set_solver.
  - by apply Hsplit in E as ->.
  - eauto using short_cluster_deterministic.
Qed.

Lemma options_deterministic command args f1 p1 f2 p2 :
  options command args f1 p1 → options command args f2 p2 → f1 = f2 ∧ p1 = p2.
Proof.
  intros H1. revert f2 p2. induction H1; intros f2 p2 H2; inversion H2; simplify_eq; try done; try congruence.
  all: match goal with
       | A : option_token _ ?a _ _, B : option_token _ ?a _ _ |- _ =>
           destruct (option_token_deterministic _ _ _ _ _ _ A B)
       end; simplify_eq.
  all: edestruct IHoptions; eauto; by subst.
Qed.

Lemma short_cluster_flags_known command s flags next :
  short_cluster command s flags next → Forall (λ f, redirects command f = false) flags.
Proof.
  induction 1; repeat constructor; eauto using short_arity_not_redirecting, mk_is_Some.
Qed.

Lemma option_token_flags_known command arg flags next :
  option_token command arg flags next → Forall (λ f, redirects command f = false) flags.
Proof.
  destruct 1; repeat constructor;
    eauto using long_option_not_redirecting, mk_is_Some, short_cluster_flags_known.
Qed.

(** C4. An accepted [exec], [run] or [create] line has exactly one reading under the option
    grammar, and no flag of that reading redirects the command: no [-H], no [--host], [--context]
    or [--config], and no [-c] for [exec]. *)
Theorem accepted_options_keep_target args command :
  validate_container_options args command = Ok () →
  ∃ flags payload,
    (∀ flags' payload', options command args flags' payload' ↔ flags' = flags ∧ payload' = payload) ∧
    Forall (λ f, redirects command f = false) flags.
Proof.
  intros (flags & payload & H)%validate_container_options_grammar.
  exists flags, payload. split.
  - intros. split; [intros; by eapply options_deterministic|by intros [-> ->]].
  - induction H; rewrite ?Forall_app; eauto using option_token_flags_known.
Qed.

Lemma options_payload command args flags payload :
  options command args flags payload →
  ∃ opts, args = opts ++ payload ∧
    (payload = [] ∨ ∃ operand rest, payload = operand :: rest ∧ is_operand operand = true) ∧
    ∀ operand rest, is_operand operand = true →
      options command (opts ++ operand :: rest) flags (operand :: rest).
Proof.
  induction 1 as [|operand payload H|arg rest ?? payload Hop Ht ? IH|arg v rest ?? payload Hop Ht ? IH].
  - exists []. split_and!; [done|by left|]. intros. by constructor.
  - exists []. split_and!; [done|right; eauto|]. intros. by constructor.
  - destruct IH as (opts & -> & ? & IH). exists (arg :: opts). split_and!; [done..|].
    intros. apply options_one; auto.
  - destruct IH as (opts & -> & ? & IH). exists (arg :: v :: opts). split_and!; [done..|].
    intros. apply options_two; auto.
Qed.

(** The program of [exec] and the command of [run] or [create] are opaque: an accepted line
    splits into its options and a payload, and the same options are accepted with every other
    operand and payload. *)
Theorem payload_is_opaque args command :
  validate_container_options args command = Ok () →
  ∃ opts payload,
    args = opts ++ payload ∧
    (payload = [] ∨ ∃ operand rest, payload = operand :: rest ∧ is_operand operand = true) ∧
    ∀ operand rest, is_operand operand = true →
      validate_container_options (opts ++ operand :: rest) command = Ok ().
Proof.
  intros (flags & payload & H)%validate_container_options_grammar.
  destruct (options_payload _ _ _ _ H) as (opts & ? & ? & Ho).
  exists opts, payload. split_and!; [done..|]. intros.
  apply validate_container_options_grammar. eauto.
Qed.

Lemma endpoint_override_spec arg :
  endpoint_override arg = true ↔
  ∃ name, (name = str "--context" ∨ name = str "--host" ∨ name = str "--config") ∧
          (arg = name ∨ ∃ v, arg = name ++ str "=" ++ v).
Proof.
  assert (Hm : ∀ name, matches name ["--context"; "--host"; "--config"] = true ↔
    name = str "--context" ∨ name = str "--host" ∨ name = str "--config").
  { intros name. unfold matches. simpl.
    rewrite !orb_true_iff, !bool_decide_eq_true. naive_solver. }
  unfold endpoint_override. destruct (split_once "="%char arg) as [[name v]|] eqn:E.
  - apply split_once_Some in E as [-> Hn]. rewrite Hm. split.
    + intros. exists name. split; [done|]. right. by exists v.
    + intros (name' & Hname & [H|[v' H]]).
      { exfalso. assert ("="%char ∈ name') as Hin by (rewrite <-H; set_solver).
        destruct Hname as [->|[->| ->]]; vm_compute in Hin; set_solver. }
      enough (name = name') as -> by done.
      assert ("="%char ∉ name') by (destruct Hname as [->|[->| ->]]; vm_compute; set_solver).
      assert (Some (name, v) = Some (name', v')) as [= -> ->]; [|done].
      rewrite <-(proj2 (split_once_Some "="%char (name ++ "="%char :: v) name v)) by done.
      by apply split_once_Some.
  - apply split_once_None in E. rewrite Hm. split; [intros; exists arg; auto|].
    intros (name & ? & [->|[v ->]]); [done|]. destruct E. set_solver.
Qed.

(** No accepted line, of any command, holds [--context], [--host] or [--config], alone or
    with an inline value, at any position. *)
Theorem endpoint_flags_rejected_everywhere args arg name v :
  arg ∈ args → name = str "--context" ∨ name = str "--host" ∨ name = str "--config" →
  arg = name ∨ arg = name ++ str "=" ++ v →
  is_ok (validate args) = false.
Proof.
  intros Hin Hname Harg. apply not_true_iff_false. rewrite is_ok_spec. intros [[] H].
  destruct args as [|command remaining]; [done|]. simpl in H. result_inv.
  assert (for_each (λ arg, ensure (negb (endpoint_override arg))
    "Docker endpoint or configuration overrides are not allowed in the luhmen wrapper")
    (command :: remaining) = Ok ()) as Hall.
  { simpl. by rewrite H0. }
  apply for_each_Ok in Hall. rewrite Forall_forall in Hall. specialize (Hall arg Hin).
  apply ensure_Ok in Hall. apply negb_true_iff in Hall.
  rewrite (proj2 (endpoint_override_spec arg)) in Hall; [done|]. exists name. naive_solver.
Qed.

Lemma endpoint_flags_rejected_everywhere_witness :
  is_ok (validate (args_of ["exec"; "app"; "program"; "--context=other"])) = false.
Proof.
  apply (endpoint_flags_rejected_everywhere _ (str "--context=other") (str "--context") (str "other")).
  - apply list_elem_of_In. vm_compute. auto.
  - by left.
  - by right.
Defined.

Lemma accepted_options_keep_target_witness :
  ∃ flags payload,
    (∀ flags' payload',
       options Exec (args_of ["-itu1000"; "--env"; "K=v"; "app"; "sh"; "-c"; "x"]) flags' payload'
       ↔ flags' = flags ∧ payload' = payload) ∧
    Forall (λ f, redirects Exec f = false) flags.
Proof. apply accepted_options_keep_target. vm_compute. reflexivity. Defined.

Lemma payload_is_opaque_witness :
  ∃ opts payload,
    args_of ["-it"; "app"; "sh"; "-c"; "x"] = opts ++ payload ∧
    (payload = [] ∨ ∃ operand rest, payload = operand :: rest ∧ is_operand operand = true) ∧
    ∀ operand rest, is_operand operand = true →
      validate_container_options (opts ++ operand :: rest) Exec = Ok ().
Proof. apply payload_is_opaque. vm_compute. reflexivity. Defined.

(** What the wrapper allows in the arguments of a command with an unknown grammar. *)
Definition plain_argument (arg : bytes) : Prop :=
  arg ≠ str "--builder" ∧ (∀ v, arg ≠ str "--builder=" ++ v) ∧
  ∀ c short, arg = str "-" ++ c :: short → c ≠ "-"%char →
    ("c"%char ∉ c :: short) ∧ ("H"%char ∉ c :: short).

Lemma starts_with_false p s : starts_with p s = false ↔ ∀ r, s ≠ p ++ r.
Proof.
  rewrite <-not_true_iff_false, starts_with_spec. naive_solver.
Qed.

Lemma validate_other_argument_Ok arg :
  validate_other_argument arg = Ok () ↔ plain_argument arg.
Proof.
  unfold validate_other_argument, plain_argument.
  rewrite ensure_bind_Ok, andb_true_iff, !negb_true_iff, bool_decide_eq_false, starts_with_false.
  enough (match strip_prefix (str "-") arg with
          | Some short => if negb (starts_with (str "-") short)
              then ensure (negb (contains_any (str "cH") short))
                     ("ambiguous Docker short target option; " +:+ DIRECT_CLI) else Ok ()
          | None => Ok () end = Ok ()
          ↔ ∀ c short, arg = str "-" ++ c :: short → c ≠ "-"%char →
              ("c"%char ∉ c :: short) ∧ ("H"%char ∉ c :: short)) as -> by tauto.
  destruct (strip_prefix (str "-") arg) as [short|] eqn:E.
  - apply strip_prefix_Some in E as ->. destruct short as [|c short]; [naive_solver|].
    destruct (starts_with (str "-") (c :: short)) eqn:Ed; cbn [negb].
    + apply starts_with_spec in Ed as [r [= -> ->]]. naive_solver.
    + rewrite starts_with_false in Ed.
      assert (c ≠ "-"%char) by (intros ->; by apply (Ed short)).
      change (str "-" ++ c :: short) with ("-"%char :: c :: short).
      rewrite ensure_Ok, negb_true_iff, <-(not_true_iff_false (contains_any _ _)), contains_any_spec.
      assert (Hset : ∀ x, x ∈ str "cH" ↔ x = "c"%char ∨ x = "H"%char).
      { intros x. vm_compute. set_solver. }
      setoid_rewrite Hset. split.
      * intros Hn c' short' [= <- <-] _. split; intros ?; apply Hn; eauto.
      * intros Hn (x & Hx & Hin). destruct (Hn c short eq_refl H). naive_solver.
  - split; [|done]. intros _ c short ->.
    enough (None = Some (c :: short)) by done. rewrite <-E. by apply strip_prefix_Some.
Qed.

(** For a command whose option grammar the wrapper does not know, [validate] accepts exactly
    the lines with a plain command word, no endpoint flag anywhere, no builder override, and no
    short option group that mentions [c] or [H]. *)
Theorem validate_other_commands command opts :
  matches command ["exec"; "run"; "create"; "container"] = false →
  validate (command :: opts) = Ok () ↔
  command ≠ [] ∧ (∀ r, command ≠ str "-" ++ r) ∧ command ≠ str "context" ∧
  Forall (λ arg, endpoint_override arg = false) (command :: opts) ∧
  Forall plain_argument opts.
Proof.
  unfold matches. simpl. rewrite !orb_false_iff, !bool_decide_eq_false.
  intros (He & Hr & Hc & Hk & _). unfold validate.
  rewrite ensure_bind_Ok, bind_Ok, !andb_true_iff, !negb_true_iff, bool_decide_eq_false,
    bool_decide_eq_true, starts_with_false.
  rewrite bool_decide_eq_false_2 by done.
  unfold validate_command, matches. simpl. rewrite !bool_decide_eq_false_2 by done. simpl.
  assert (Hend : for_each (λ arg, ensure (negb (endpoint_override arg))
    "Docker endpoint or configuration overrides are not allowed in the luhmen wrapper")
    (command :: opts) = Ok () ↔ Forall (λ arg, endpoint_override arg = false) (command :: opts)).
  { rewrite for_each_Ok. apply Forall_iff. intros arg. by rewrite ensure_Ok, negb_true_iff. }
  assert (Hopts : for_each validate_other_argument opts = Ok () ↔ Forall plain_argument opts).
  { rewrite for_each_Ok. apply Forall_iff. apply validate_other_argument_Ok. }
  rewrite <-Hend, <-Hopts. simpl.
  split; [intros ((? & ?) & [] & ? & ?); naive_solver|].
  intros (? & ? & ? & ? & ?). split_and!; eauto.
Qed.

Lemma validate_other_commands_witness :
  validate (args_of ["compose"; "-f"; "x.yml"; "up"]) = Ok ().
Proof.
  apply validate_other_commands; [by vm_compute|].
  split_and!; [done|done|done| |]; [by repeat constructor|].
  apply (Forall_impl (λ arg, validate_other_argument arg = Ok ())).
  - apply for_each_Ok. by vm_compute.
  - intros arg. apply validate_other_argument_Ok.
Defined.
