(* ===== verification/Microvm.v ===== *)
(** * The client of the guest microVM manager (src/src/microvm.rs)

    [validate_request] guards the line protocol the client speaks over the
    forwarded Unix socket, [request] is one exchange, [read_response] its
    byte-at-a-time read loop. The socket and the JSON decoder of the response
    envelope are the operating system's and serde's: they are parameters. *)

From S2P Require Import Prelude Text.

Definition PROTOCOL_VERSION : Z := 1.
Definition MAX_RESPONSE_BYTES : Z := 1048576.

(** ** Request validation *)

Definition validate_id (id : bytes) : result unit :=
  ensure (negb (bool_decide (id = [])) && (len id <=? 64)%Z
          && bool_decide (id ≠ str ".") && bool_decide (id ≠ str "..")
          && forallb (λ byte, is_ascii_alphanumeric byte || one_of "_.-" byte) id)
    "microVM id must contain 1 to 64 letters, digits, underscores, dots, or hyphens".

Definition request_byte (byte : ascii) : bool :=
  is_ascii_alphanumeric byte || one_of "_./=:-" byte.

Definition validate_guest_path (path : bytes) : result unit :=
  ensure (starts_with (str "/") path && negb (contains (str "..") path)
          && (len path <=? 1024)%Z && forallb request_byte path)
    "microVM guest path must be absolute and contain no whitespace, traversal, or unsupported characters".

(** The characters a request must not hold: newline, carriage return, NUL, the two quotes and
    the backslash. *)
Definition refused_characters : bytes := ["010"; "013"; "000"; "'"; "034"; "\"]%char.

Definition allowed_fields (action : bytes) : result (list string) :=
  if matches action ["capabilities"] then Ok []
  else if matches action ["inspect"; "start"] then Ok ["id"]
  else if matches action ["create"] then Ok ["id"; "kernel"; "rootfs"; "vcpus"; "memory_mib"]
  else if matches action ["stop"] then Ok ["id"; "force"]
  else Err "unsupported microVM manager action".

(** One iteration of the token loop, on the set of fields seen so far. *)
Definition validate_token (allowed : list string) (seen : gset bytes) (token : bytes)
    : result (gset bytes) :=
  _ ← ensure (len token <=? 1024)%Z "microVM manager argument is too large";
  '(key, value) ← ok_or (split_once "="%char token)
                    "microVM manager arguments must be key=value pairs";
  _ ← ensure (matches key allowed)
        ("unsupported microVM manager field: " +:+ String.string_of_list_ascii key);
  _ ← ensure (bool_decide (key ∉ seen))
        ("duplicate microVM manager field: " +:+ String.string_of_list_ascii key);
  _ ← ensure (negb (bool_decide (value = [])))
        ("microVM manager field cannot be empty: " +:+ String.string_of_list_ascii key);
  _ ← ensure (forallb request_byte token) "microVM manager request contains unsupported characters";
  _ ← (if matches key ["id"] then validate_id value
       else if matches key ["kernel"; "rootfs"] then validate_guest_path value
       else Ok ());
  Ok ({[key]} ∪ seen).

Fixpoint validate_tokens (allowed : list string) (seen : gset bytes) (tokens : list bytes)
    : result (gset bytes) :=
  match tokens with
  | [] => Ok seen
  | token :: tokens =>
      seen ← validate_token allowed seen token;
      validate_tokens allowed seen tokens
  end.

(** The part of [validate_request] that works on the words of the request. *)
Definition validate_words (words : list bytes) : result unit :=
  match words with
  | [] => Err "microVM manager action is missing"
  | action :: tokens =>
      allowed ← allowed_fields action;
      seen ← validate_tokens allowed ∅ tokens;
      _ ← (if matches action ["create"; "start"; "stop"] then
             ensure (bool_decide (str "id" ∈ seen)) "microVM manager id is required"
           else Ok ());
      (if matches action ["create"] then
         ensure (bool_decide (str "kernel" ∈ seen) && bool_decide (str "rootfs" ∈ seen))
           "microVM manager kernel and rootfs are required"
       else Ok ())
  end.

Definition validate_request (request : bytes) : result unit :=
  _ ← ensure (negb (bool_decide (request = []))) "microVM manager request cannot be empty";
  _ ← ensure (len request <=? 4096)%Z "microVM manager request is too large";
  _ ← ensure (negb (contains_any refused_characters request))
        "microVM manager request contains unsupported characters";
  validate_words (split_whitespace request).

(** ** One exchange *)

(** The result of reading one byte from the socket. *)
Inductive read_event := Byte (b : ascii) | Closed | ReadFailed (e : string).

(** The read loop; a finite list of reads stands for the stream, which is closed after it. *)
Fixpoint read_response (reads : list read_event) (response : bytes) : result bytes :=
  match reads with
  | ReadFailed e :: _ => with_context "read microVM manager response" (Err e)
  | [] | Closed :: _ => Err "microVM manager closed the connection without a response"
  | Byte b :: reads =>
      _ ← ensure (len response <? MAX_RESPONSE_BYTES)%Z "microVM manager response is too large";
      if bool_decide (b = "010"%char) then Ok response
      else read_response reads (response ++ [b])
  end.

Section client.
(** [Value] is serde_json's document type, [decode] its decoder for the envelope; [transport]
    connects, sets the read timeout (in seconds), writes and flushes the bytes, and yields the
    reads of the answer. *)
Context {Value : Type} (Null : Value).

Record Response := { version : Z; ok : bool; data : option Value; error : option string }.

Context (decode : bytes → result Response).
Context (transport : Z → bytes → result (list read_event)).

Definition response_timeout (request : bytes) : Z :=
    if bool_decide (head (split_whitespace request) = Some (str "start")) then 300 else 20.

Definition request (request : bytes) : result Value :=
  _ ← validate_request request;
  reads ← transport (response_timeout request) (request ++ ["010"%char]);
  response ← read_response reads [];
  envelope ← with_context "decode microVM manager response" (decode response);
  _ ← ensure (bool_decide (version envelope = PROTOCOL_VERSION))
        "unsupported microVM manager protocol version";
  if negb (ok envelope) then
    Err (default "microVM manager request failed" (error envelope))
  else Ok (default Null (data envelope)).
End client.

(** ** The source's test vectors *)

Example invalid_requests_are_rejected :
  existsb (λ r, is_ok (validate_request (str r)))
    ["create id=demo kernel=/tmp/kernel rootfs=/tmp/a b"; "create id=demo;rm"; "delete id=demo";
     "stop id=foo id=bar force=0"; "inspect id=bar stop"; "inspect id=bar kernel=/tmp/unexpected";
     "start id="; "start"] = false.
Proof. vm_compute. reflexivity. Qed.

Example valid_requests_are_accepted :
  forallb (λ r, is_ok (validate_request (str r)))
    ["inspect"; "capabilities"; "create id=demo kernel=/k rootfs=/r"; "stop id=demo";
     "inspect id=demo"; "stop id=a.b force=1"] = true.
Proof. vm_compute. reflexivity. Qed.

(** ** The accepted requests *)

Definition field_token (f : bytes * bytes) : bytes := f.1 ++ "="%char :: f.2.

(** One well-formed field of a request whose action allows the keys [allowed]. *)
Definition field_ok (allowed : list string) (f : bytes * bytes) : Prop :=
  ("="%char ∉ f.1) ∧ f.1 ∈ map str allowed ∧ f.2 ≠ [] ∧ (len (field_token f) <= 1024)%Z ∧
  Forall (λ b, request_byte b = true) (field_token f) ∧
  (f.1 = str "id" → validate_id f.2 = Ok ()) ∧
  (f.1 ∈ [str "kernel"; str "rootfs"] → validate_guest_path f.2 = Ok ()).

Lemma validate_token_Ok allowed seen token seen' :
  validate_token allowed seen token = Ok seen' ↔
  ∃ f, token = field_token f ∧ field_ok allowed f ∧ (f.1 ∉ seen) ∧ seen' = {[f.1]} ∪ seen.
Proof.
  unfold validate_token, field_ok.
  rewrite ensure_bind_Ok, bind_Ok, Z.leb_le. split.
  - intros (Hlen & [key value] & Hs & H). destruct (split_once _ token) eqn:E; [|done].
    simplify_eq/=. apply split_once_Some in E as [-> Hn]. exists (key, value). simpl.
    rewrite !ensure_bind_Ok, bind_Ok, matches_spec, negb_true_iff, bool_decide_eq_true,
      bool_decide_eq_false, forallb_Forall in H.
    destruct H as (Hk & Hseen & Hv & Hb & [] & Hval & [= <-]).
    split_and!; try done; intros Hkey; revert Hval; simpl in Hkey.
    + by subst.
    + destruct (matches key ["id"]) eqn:Ei.
      * literal_cases.
      * rewrite (proj2 (matches_spec key ["kernel"; "rootfs"])); done.
  - intros ([key value] & -> & (Hn & Hk & Hv & Hlen & Hb & Hi & Hp) & Hseen & ->). simpl in *.
    split; [done|]. exists (key, value).
    rewrite (proj2 (split_once_Some "="%char _ key value)) by done. split; [done|].
    rewrite !ensure_bind_Ok, bind_Ok, matches_spec, negb_true_iff, bool_decide_eq_true,
      bool_decide_eq_false, forallb_Forall.
    split_and!; try done. exists (). split; [|done].
    destruct (matches key ["id"]) eqn:Ei.
    + apply Hi. by literal_cases.
    + destruct (matches key ["kernel"; "rootfs"]) eqn:Ek; [|done].
      apply Hp. by apply matches_spec in Ek.
Qed.

Lemma validate_tokens_Ok allowed seen tokens seen' :
  validate_tokens allowed seen tokens = Ok seen' ↔
  ∃ fields, tokens = map field_token fields ∧ Forall (field_ok allowed) fields ∧
    NoDup (map fst fields) ∧ (∀ k, k ∈ map fst fields → k ∉ seen) ∧
    seen' = list_to_set (map fst fields) ∪ seen.
Proof.
  revert seen; induction tokens as [|token tokens IH]; intros seen; simpl.
  { split.
    - intros [= <-]. exists []. simpl. split_and!; [done|constructor|constructor|set_solver|set_solver].
    - intros (fields & Hf & _ & _ & _ & ->). destruct fields; [|done]. simpl. f_equal. set_solver. }
  rewrite bind_Ok. setoid_rewrite validate_token_Ok. setoid_rewrite IH. split.
  - intros (? & (f & -> & Hf & Hs & ->) & fields & -> & Hfs & Hnd & Hdis & ->).
    exists (f :: fields). simpl. split_and!; [done|by constructor| | |].
    + constructor; [|done]. set_solver.
    + set_solver.
    + set_solver.
  - intros (fields & Hf & Hok & Hnd & Hdis & ->). destruct fields as [|f fields]; [done|].
    simplify_eq/=. inversion Hok; inversion Hnd; subst.
    eexists. split; [exists f; split_and!; [done|done|set_solver|done]|].
    exists fields. split_and!; [done|done|done|set_solver|set_solver].
Qed.

(** The fields an action requires. *)
Definition required_fields (action : bytes) : list string :=
  if matches action ["create"] then ["id"; "kernel"; "rootfs"]
  else if matches action ["start"; "stop"] then ["id"]
  else [].

Lemma required_fields_Ok (action : bytes) (seen : gset bytes) :
  (_ ← (if matches action ["create"; "start"; "stop"] then
          ensure (bool_decide (str "id" ∈ seen)) "microVM manager id is required"
        else Ok ());
   (if matches action ["create"] then
      ensure (bool_decide (str "kernel" ∈ seen) && bool_decide (str "rootfs" ∈ seen))
        "microVM manager kernel and rootfs are required"
    else Ok ())) = Ok () ↔
  ∀ k, k ∈ required_fields action → str k ∈ seen.
Proof.
  unfold required_fields. destruct (matches action ["create"]) eqn:Ec.
  - literal_cases. change (matches _ _) with true. cbv iota.
    rewrite ensure_bind_Ok, ensure_Ok, andb_true_iff, !bool_decide_eq_true.
    split; [|set_solver]. intros ? k Hk. rewrite !elem_of_cons, elem_of_nil in Hk. naive_solver.
  - destruct (matches action ["start"; "stop"]) eqn:Es.
    + rewrite (proj2 (matches_spec action _)) by (literal_cases; set_solver).
      rewrite ensure_bind_Ok, bool_decide_eq_true.
      split; [intros [? _] k Hk; apply list_elem_of_singleton in Hk; by subst|].
      intros H. split; [apply H; set_solver|done].
    + assert (matches action ["create"; "start"; "stop"] = false) as ->; [|set_solver].
      apply not_true_iff_false. intros H. literal_cases; by vm_compute in Ec, Es.
Qed.

Lemma validate_words_Ok words :
  validate_words words = Ok () ↔
  ∃ action allowed fields,
    words = action :: map field_token fields ∧
    allowed_fields action = Ok allowed ∧
    Forall (field_ok allowed) fields ∧ NoDup (map fst fields) ∧
    (∀ k, k ∈ required_fields action → str k ∈ map fst fields).
Proof.
  destruct words as [|action tokens]; simpl; [naive_solver|].
  rewrite bind_Ok. setoid_rewrite bind_Ok. setoid_rewrite validate_tokens_Ok.
  setoid_rewrite required_fields_Ok. split.
  - intros (allowed & Ha & seen & (fields & -> & Hf & Hnd & _ & ->) & H).
    exists action, allowed, fields. split_and!; try done. set_solver.
  - intros (action' & allowed & fields & [= <- ->] & Ha & Hf & Hnd & Hr).
    exists allowed. split; [done|]. eexists. split.
    + exists fields. by split_and!.
    + set_solver.
Qed.

(** [validate_request] accepts exactly the requests of at most 4096 bytes, free of newlines,
    carriage returns, NULs, quotes and backslashes, whose words are a known action followed by
    [key=value] fields: allowed for that action, pairwise distinct, well-formed, and including
    every required one. *)
Theorem validate_request_spec r :
  validate_request r = Ok () ↔
  r ≠ [] ∧ (len r <= 4096)%Z ∧ (∀ c, c ∈ refused_characters → c ∉ r) ∧
  ∃ action allowed fields,
    split_whitespace r = action :: map field_token fields ∧
    allowed_fields action = Ok allowed ∧
    Forall (field_ok allowed) fields ∧ NoDup (map fst fields) ∧
    (∀ k, k ∈ required_fields action → str k ∈ map fst fields).
Proof.
  unfold validate_request.
  rewrite !ensure_bind_Ok, !negb_true_iff, bool_decide_eq_false, Z.leb_le,
    <-(not_true_iff_false (contains_any _ _)), contains_any_spec, validate_words_Ok.
  naive_solver.
Qed.

(** ** The read loop *)

Lemma read_response_app reads response r :
  read_response reads response = Ok r ↔
  ∃ tail rest, r = response ++ tail ∧ ("010"%char ∉ tail) ∧ (len r < MAX_RESPONSE_BYTES)%Z ∧
    reads = map Byte tail ++ Byte "010"%char :: rest.
Proof.
  revert response. induction reads as [|[b| |e] reads IH]; intros response; simpl.
  - split; [done|]. intros (tail & rest & _ & _ & _ & H). by destruct tail.
  - rewrite ensure_bind_Ok, Z.ltb_lt. case_bool_decide as Hb.
    + subst. split.
      * intros [? [= <-]]. exists [], reads. rewrite app_nil_r. split_and!; try done. set_solver.
      * intros (tail & rest & -> & Hn & Hl & H). destruct tail as [|c tail].
        -- rewrite app_nil_r in *. done.
        -- injection H as <- _. set_solver.
    + rewrite IH. split.
      * intros [? (tail & rest & -> & Hn & Hl & ->)]. exists (b :: tail), rest.
        rewrite <-app_assoc in *. split_and!; try done. set_solver.
      * intros (tail & rest & -> & Hn & Hl & H). destruct tail as [|c tail].
        { injection H as -> _. done. }
        injection H as -> ->. rewrite len_app in Hl. split; [pose proof (len_nonneg (c :: tail)); lia|].
        exists tail, rest. rewrite <-app_assoc. split_and!; [done|set_solver| |done].
        by rewrite len_app.
  - split; [done|]. intros (tail & rest & _ & _ & _ & H). by destruct tail.
  - split; [done|]. intros (tail & rest & _ & _ & _ & H). by destruct tail.
Qed.

(** The read loop returns [r] exactly when the manager sent the line [r] and its newline, and
    the line is shorter than 1 MiB: a response that does not end, and one of 1 MiB or more, is an
    error, so the buffer never exceeds the bound. *)
Theorem read_response_spec reads r :
  read_response reads [] = Ok r ↔
  ("010"%char ∉ r) ∧ (len r < MAX_RESPONSE_BYTES)%Z ∧
  ∃ rest, reads = map Byte r ++ Byte "010"%char :: rest.
Proof.
  rewrite read_response_app. split.
  - intros (tail & rest & -> & ? & ? & ->). eauto.
  - intros (? & ? & rest & ->). exists r, rest. done.
Qed.

Section client_theorems.
Context {Value : Type} (Null : Value).
Context (decode : bytes → result (Response (Value := Value))).
Context (transport : Z → bytes → result (list read_event)).

(** C36. [request] returns [v] exactly when the request is valid, the manager answered the one
    line that was sent (the request and a newline, with the timeout of its action) by a line
    that decodes to a version 1 envelope with [ok] set, and [v] is its data or null. An invalid
    request never reaches the socket. *)
Theorem request_spec r v :
  request Null decode transport r = Ok v ↔
  validate_request r = Ok () ∧
  ∃ line rest envelope,
    transport (response_timeout r) (r ++ ["010"%char])
      = Ok (map Byte line ++ Byte "010"%char :: rest) ∧
    ("010"%char ∉ line) ∧ (len line < MAX_RESPONSE_BYTES)%Z ∧
    decode line = Ok envelope ∧ version envelope = PROTOCOL_VERSION ∧ ok envelope = true ∧
    v = default Null (data envelope).
Proof.
  unfold request. rewrite bind_Ok. setoid_rewrite bind_Ok. setoid_rewrite bind_Ok.
  setoid_rewrite bind_Ok. setoid_rewrite ensure_bind_Ok. setoid_rewrite read_response_spec.
  setoid_rewrite bool_decide_eq_true. split.
  - intros ([] & Hv & reads & Ht & line & (Hn & Hl & rest & ->) & envelope & Hd & Hver & H).
    destruct (ok envelope) eqn:Eo; [|done]. injection H as <-.
    destruct (decode line) eqn:Ed; simplify_eq/=. split; [done|].
    exists line, rest, envelope. done.
  - intros (Hv & line & rest & envelope & Ht & Hn & Hl & Hd & Hver & Ho & ->).
    exists (). split; [done|]. eexists. split; [done|]. exists line. split; [eauto|].
    exists envelope. rewrite Hd, Ho. done.
Qed.
End client_theorems.
