(* ===== verification/Json.v ===== *)
(** * The JSON scanner of the guest helper (src/guest/docker-shutdown.rs)

    The helper edits one boolean of Docker's configuration in place, so it
    scans the document instead of building a tree. [value], [string], [number]
    and [locate] follow the source's methods on [Json { data, at }]: each takes
    the data and a position and returns the new position. A decoded [String] is
    the list of its scalar values. Recursion and loops take fuel; JsonSpec shows
    that the fuel given by [locate] and [string] is always enough. *)

From S2P Require Import Prelude Text.

Abbreviation scalars := (list Z).

(** ** Slices and positions *)

(** [bytes.get(a..b)]. *)
Definition slice (data : bytes) (a b : nat) : option bytes :=
  if decide (a ≤ b ≤ length data) then Some (take (b - a) (drop a data)) else None.

(** The length of the longest prefix whose bytes satisfy [p]: how far a
    [while self.data.get(self.at).is_some_and(p)] loop advances. *)
Fixpoint span (p : ascii → bool) (s : bytes) : nat :=
  match s with
  | [] => 0
  | c :: s => if p c then S (span p s) else 0
  end.

Definition out_of_fuel : string := "out of fuel".

(** ** Numbers, as the standard library reads them *)

(** [char::to_digit(16)]. *)
Definition hex_digit (c : ascii) : option Z :=
  if is_ascii_digit c then Some (code c - 48)%Z
  else if ((97 <=? code c) && (code c <=? 102))%Z then Some (code c - 87)%Z
  else if ((65 <=? code c) && (code c <=? 70))%Z then Some (code c - 55)%Z
  else None.

Fixpoint hex_digits (acc : Z) (s : bytes) : option Z :=
  match s with
  | [] => Some acc
  | c :: s => match hex_digit c with Some d => hex_digits (acc * 16 + d) s | None => None end
  end.

(** [u32::from_str_radix(s, 16)] on at most four bytes: a leading plus sign is accepted. *)
Definition from_str_radix_16 (s : bytes) : option Z :=
  let digits := match s with c :: r => if decide (c = "+"%char) then r else s | [] => [] end in
  match digits with [] => None | _ => hex_digits 0 digits end.

(** [char::from_u32]. *)
Definition char_from_u32 (v : Z) : option Z :=
  if ((v <? 55296) || ((57344 <=? v) && (v <=? 1114111)))%Z then Some v else None.

(** ** [decode_json_string] *)

(** The [b'u'] arm: [at] is the position of the [u]; returns the scalar and the new [at]. *)
Definition decode_unicode (data : bytes) (at_ : nat) : result (Z * nat) :=
  digits ← ok_or (slice data (at_ + 1) (at_ + 5)) "invalid Unicode escape";
  _ ← ensure (utf8_valid digits) "invalid Unicode escape";
  value ← ok_or (from_str_radix_16 digits) "invalid Unicode escape";
  if ((55296 <=? value) && (value <=? 56319))%Z then
    _ ← ensure (bool_decide (slice data (at_ + 5) (at_ + 7) = Some (str "\u")))
          "unpaired Unicode surrogate";
    low ← ok_or (slice data (at_ + 7) (at_ + 11)) "invalid Unicode escape";
    _ ← ensure (utf8_valid low) "invalid Unicode escape";
    low ← ok_or (from_str_radix_16 low) "invalid Unicode escape";
    _ ← ensure ((56320 <=? low) && (low <=? 57343))%Z "unpaired Unicode surrogate";
    scalar ← ok_or (char_from_u32 (65536 + (value - 55296) * 1024 + (low - 56320))%Z)
               "invalid Unicode scalar";
    Ok (scalar, at_ + 10)
  else
    _ ← ensure (negb ((56320 <=? value) && (value <=? 57343)))%Z "unpaired Unicode surrogate";
    scalar ← ok_or (char_from_u32 value) "invalid Unicode scalar";
    Ok (scalar, at_ + 4).

(** The other arms of the escape match: the scalar a single escape character stands for. *)
Definition simple_escape (c : ascii) : option Z :=
  if decide (c = "034"%char) then Some 34%Z
  else if decide (c = "\"%char) then Some 92%Z
  else if decide (c = "/"%char) then Some 47%Z
  else if decide (c = "b"%char) then Some 8%Z
  else if decide (c = "f"%char) then Some 12%Z
  else if decide (c = "n"%char) then Some 10%Z
  else if decide (c = "r"%char) then Some 13%Z
  else if decide (c = "t"%char) then Some 9%Z
  else None.

(** The [while at + 1 < bytes.len()] loop. *)
Fixpoint decode_loop (fuel : nat) (data : bytes) (at_ : nat) (output : scalars) : result scalars :=
  if negb (at_ + 1 <? length data)%nat then Ok output else
  match fuel, data !! at_ with
  | S fuel, Some c =>
      if decide (c ≠ "\"%char) then
        let remaining := drop at_ (take (length data - 1) data) in
        _ ← ensure (utf8_valid remaining) "invalid UTF-8 in JSON string";
        match utf8_first remaining with
        | Some (ch, width) => decode_loop fuel data (at_ + width) (output ++ [ch])
        | None => Err "invalid UTF-8 in JSON string"
        end
      else
        let at_ := at_ + 1 in
        match data !! at_ with
        | None => Err "invalid JSON escape"
        | Some c =>
            if decide (c = "u"%char) then
              '(scalar, at_) ← decode_unicode data at_;
              decode_loop fuel data (at_ + 1) (output ++ [scalar])
            else match simple_escape c with
                 | Some scalar => decode_loop fuel data (at_ + 1) (output ++ [scalar])
                 | None => Err "invalid JSON escape"
                 end
        end
  | _, _ => Err out_of_fuel
  end.

Definition decode_json_string (data : bytes) : result scalars :=
  decode_loop (length data) data 1 [].

(** ** The scanner: [impl Json] *)

Module Json.

Definition whitespace (data : bytes) (at_ : nat) : nat :=
  at_ + span is_ascii_whitespace (drop at_ data).

Definition byte (data : bytes) (at_ : nat) (expected : ascii) : result nat :=
  let at_ := whitespace data at_ in
  _ ← ensure (bool_decide (data !! at_ = Some expected)) "invalid JSON";
  Ok (at_ + 1).

(** The loop of [string]: the position after the closing quote. *)
Fixpoint string_end (fuel : nat) (data : bytes) (at_ : nat) : result nat :=
  match data !! at_ with
  | None => Err "unterminated JSON string"
  | Some b =>
      match fuel with
      | O => Err out_of_fuel
      | S fuel =>
          if decide (b = "034"%char) then Ok (at_ + 1)
          else if decide (b = "\"%char) then
            let at_ := at_ + 2 in
            let at_ := if decide (data !! (at_ - 1) = Some "u"%char) then at_ + 4 else at_ in
            if (length data <? at_)%nat then Err "unterminated JSON string"
            else string_end fuel data at_
          else if (code b <=? 31)%Z then Err "control byte in JSON string"
          else string_end fuel data (at_ + 1)
      end
  end.

Definition string (data : bytes) (at_ : nat) : result (scalars * nat) :=
  let start := whitespace data at_ in
  _ ← ensure (bool_decide (data !! start = Some "034"%char)) "invalid JSON string";
  end_ ← string_end (length data) data (start + 1);
  key ← decode_json_string (take (end_ - start) (drop start data));
  Ok (key, end_).

(** [while self.data.get(self.at).is_some_and(u8::is_ascii_digit)]. *)
Definition digits (data : bytes) (at_ : nat) : nat := at_ + span is_ascii_digit (drop at_ data).

(** The three sections of [number]. *)
Definition number_integer (data : bytes) (at_ : nat) : result nat :=
  let at_ := if decide (data !! at_ = Some "-"%char) then at_ + 1 else at_ in
  match data !! at_ with
  | Some c =>
      if decide (c = "0"%char) then
        match data !! (at_ + 1) with
        | Some d => if is_ascii_digit d then Err "invalid JSON number" else Ok (at_ + 1)
        | None => Ok (at_ + 1)
        end
      else if is_ascii_digit c then Ok (digits data (at_ + 1))
      else Err "invalid JSON number"
  | None => Err "invalid JSON number"
  end.

Definition number_fraction (data : bytes) (at_ : nat) : result nat :=
  if decide (data !! at_ = Some "."%char) then
    let end_ := digits data (at_ + 1) in
    _ ← ensure (bool_decide (end_ ≠ at_ + 1)) "invalid JSON number"; Ok end_
  else Ok at_.

Definition number_exponent (data : bytes) (at_ : nat) : result nat :=
  if decide (data !! at_ = Some "e"%char ∨ data !! at_ = Some "E"%char) then
    let at_ := at_ + 1 in
    let at_ := if decide (data !! at_ = Some "+"%char ∨ data !! at_ = Some "-"%char)
               then at_ + 1 else at_ in
    let end_ := digits data at_ in
    _ ← ensure (bool_decide (end_ ≠ at_)) "invalid JSON number"; Ok end_
  else Ok at_.

Definition number (data : bytes) (at_ : nat) : result nat :=
  at_ ← number_integer data at_;
  at_ ← number_fraction data at_;
  number_exponent data at_.

Definition duplicate_key : String.string := "duplicate Docker configuration key".

(** [value], its object loop and its array loop. The duplicate-key message of the source also
    names the key. *)
Fixpoint value (fuel : nat) (data : bytes) (depth : nat) (at_ : nat) {struct fuel}
    : result (option bool * nat) :=
  match fuel with
  | O => Err out_of_fuel
  | S fuel =>
      if (64 <? depth)%nat then Err "JSON nesting exceeds 64 levels" else
      let at_ := whitespace data at_ in
      match data !! at_ with
      | None => Err "invalid JSON value"
      | Some c =>
          if decide (c = "034"%char) then
            '(_, at_) ← string data at_; Ok (None, at_)
          else if decide (c = "{"%char) then
            let at_ := whitespace data (at_ + 1) in
            if decide (data !! at_ = Some "}"%char) then Ok (None, at_ + 1)
            else at_ ← members fuel data depth ∅ at_; Ok (None, at_)
          else if decide (c = "["%char) then
            let at_ := whitespace data (at_ + 1) in
            if decide (data !! at_ = Some "]"%char) then Ok (None, at_ + 1)
            else at_ ← elements fuel data depth at_; Ok (None, at_)
          else if decide (slice data at_ (at_ + 4) = Some (str "true")) then Ok (Some true, at_ + 4)
          else if decide (slice data at_ (at_ + 5) = Some (str "false")) then Ok (Some false, at_ + 5)
          else if decide (slice data at_ (at_ + 4) = Some (str "null")) then Ok (None, at_ + 4)
          else if bool_decide (c = "-"%char) || is_ascii_digit c then
            at_ ← number data at_; Ok (None, at_)
          else Err "invalid JSON value"
      end
  end
with members (fuel : nat) (data : bytes) (depth : nat) (keys : gset scalars) (at_ : nat)
    {struct fuel} : result nat :=
  match fuel with
  | O => Err out_of_fuel
  | S fuel =>
      '(key, at_) ← string data at_;
      _ ← ensure (bool_decide (key ∉ keys)) duplicate_key;
      at_ ← byte data at_ ":"%char;
      '(_, at_) ← value fuel data (depth + 1) at_;
      let at_ := whitespace data at_ in
      match data !! at_ with
      | Some c =>
          if decide (c = ","%char) then members fuel data depth ({[key]} ∪ keys) (at_ + 1)
          else if decide (c = "}"%char) then Ok (at_ + 1)
          else Err "invalid JSON object"
      | None => Err "invalid JSON object"
      end
  end
with elements (fuel : nat) (data : bytes) (depth : nat) (at_ : nat) {struct fuel} : result nat :=
  match fuel with
  | O => Err out_of_fuel
  | S fuel =>
      '(_, at_) ← value fuel data (depth + 1) at_;
      let at_ := whitespace data at_ in
      match data !! at_ with
      | Some c =>
          if decide (c = ","%char) then elements fuel data depth (at_ + 1)
          else if decide (c = "]"%char) then Ok (at_ + 1)
          else Err "invalid JSON array"
      | None => Err "invalid JSON array"
      end
  end.

End Json.

(** ** [locate] and the configuration edit *)

Record LocatedValue := { start : nat; end_ : nat; boolean : option bool }.

(** The fuel [locate] gives to every loop over [data]. *)
Definition document_fuel (data : bytes) : nat := 2 * length data + 3.

(** The member loop of [locate]; it stops at the closing brace. *)
Fixpoint locate_members (fuel : nat) (data : bytes) (wanted : scalars) (keys : gset scalars)
    (found : option LocatedValue) (at_ : nat) : result (option LocatedValue * nat) :=
  match fuel with
  | O => Err out_of_fuel
  | S fuel =>
      '(key, at_) ← Json.string data at_;
      _ ← ensure (bool_decide (key ∉ keys)) Json.duplicate_key;
      at_ ← Json.byte data at_ ":"%char;
      let start := Json.whitespace data at_ in
      '(b, at_) ← Json.value (document_fuel data) data 1 start;
      let found := if decide (key = wanted)
                   then Some {| start := start; end_ := at_; boolean := b |} else found in
      let at_ := Json.whitespace data at_ in
      match data !! at_ with
      | Some c =>
          if decide (c = ","%char) then locate_members fuel data wanted ({[key]} ∪ keys) found (at_ + 1)
          else if decide (c = "}"%char) then Ok (found, at_)
          else Err "invalid JSON object"
      | None => Err "invalid JSON object"
      end
  end.

Definition locate (data : bytes) (wanted : scalars) : result (option LocatedValue * nat * bool) :=
  at_ ← match Json.byte data 0 "{"%char with
        | Ok at_ => Ok at_
        | Err _ => Err "Docker configuration must be a JSON object"
        end;
  let at_ := Json.whitespace data at_ in
  '(found, any, at_) ←
    ((if decide (data !! at_ = Some "}"%char) then Ok (None, false, at_)
     else '(found, at_) ← locate_members (document_fuel data) data wanted ∅ None at_;
          Ok (found, true, at_)) : result (option LocatedValue * bool * nat));
  at_ ← Json.byte data at_ "}"%char;
  let close := at_ - 1 in
  let at_ := Json.whitespace data at_ in
  _ ← ensure (bool_decide (at_ = length data)) "trailing data after JSON object";
  Ok (found, close, any).

Definition boolean_field (data : bytes) (key : scalars) : result (option bool) :=
  '(located, _, _) ← locate data key;
  match located with
  | None => Ok None
  | Some v => b ← ok_or (boolean v) "Docker key must be a boolean"; Ok (Some b)
  end.

Definition LIMIT : Z := 1048576.

(** A key literal. *)
Definition key_of (s : String.string) : scalars := map code (str s).

Definition disabled_config (original : bytes) : result bytes :=
  '(located, close, any) ← locate original (key_of "live-restore");
  data ← match located with
    | Some v =>
        match boolean v with
        | None => Err "Docker live-restore must be a boolean"
        | Some _ => Ok (take (start v) original ++ str "false" ++ drop (end_ v) original)
        end
    | None =>
        Ok (take close original ++ (if any : bool then str "," else [])
            ++ ["034"%char] ++ str "live-restore" ++ ["034"%char] ++ str ":false"
            ++ drop close original)
    end;
  _ ← ensure (len data <=? LIMIT)%Z "Temporary Docker configuration exceeds 1 MiB";
  Ok data.
