(* ===== verification/JsonSpec.v ===== *)
(** * What the JSON scanner accepts

    A declarative grammar of the documents the scanner reads ([jvalue],
    [jmembers], [document]), the proof that [Json.value] and [locate] accept
    exactly that grammar and never run out of fuel, and the effect of
    [disabled_config]: the edited document holds the same members, in the same
    order and with the same text, except [live-restore]. *)

From S2P Require Import Prelude Text Json.

(** ** The grammar *)

Definition ws (s : bytes) : Prop := Forall (λ c, is_ascii_whitespace c = true) s.

(** What may stand between the quotes of a string. *)
Inductive string_body : bytes → Prop :=
| body_nil : string_body []
| body_plain c s :
    c ≠ "034"%char → c ≠ "\"%char → (32 <= code c)%Z → string_body s → string_body (c :: s)
| body_escape c s : c ≠ "u"%char → string_body s → string_body ("\"%char :: c :: s)
| body_unicode a b c d s :
    string_body s → string_body ("\"%char :: "u"%char :: a :: b :: c :: d :: s).

(** A string literal and the scalar values it denotes. *)
Definition string_lit (lit : bytes) (k : scalars) : Prop :=
  ∃ body, lit = "034"%char :: body ++ ["034"%char] ∧ string_body body ∧
          decode_json_string lit = Ok k.

Definition all_digits (s : bytes) : Prop := Forall (λ c, is_ascii_digit c = true) s.

Inductive integer_part : bytes → Prop :=
| integer_zero : integer_part (str "0")
| integer_digits c s :
    is_ascii_digit c = true → c ≠ "0"%char → all_digits s → integer_part (c :: s).

Inductive fraction_part : bytes → Prop :=
| fraction_none : fraction_part []
| fraction_some s : s ≠ [] → all_digits s → fraction_part ("."%char :: s).

Inductive exponent_part : bytes → Prop :=
| exponent_none : exponent_part []
| exponent_some e sign s :
    e ∈ str "eE" → sign ∈ [[]; str "+"; str "-"] → s ≠ [] → all_digits s →
    exponent_part (e :: sign ++ s).

Inductive number_lit : bytes → Prop :=
| number_parts sign i f e :
    sign ∈ [[]; str "-"] → integer_part i → fraction_part f → exponent_part e →
    number_lit (sign ++ i ++ f ++ e).

(** A member of an object: its key, the text of its value, and the value if it is a boolean. *)
Record member := Member { m_key : scalars; m_text : bytes; m_bool : option bool }.

(** Values at a nesting depth, the members of an object whose values are one level deeper, and
    the elements of an array. White space before a value belongs to its context. *)
Inductive jvalue : nat → bytes → option bool → Prop :=
| jv_string d lit k : d ≤ 64 → string_lit lit k → jvalue d lit None
| jv_true d : d ≤ 64 → jvalue d (str "true") (Some true)
| jv_false d : d ≤ 64 → jvalue d (str "false") (Some false)
| jv_null d : d ≤ 64 → jvalue d (str "null") None
| jv_number d s : d ≤ 64 → number_lit s → jvalue d s None
| jv_empty_object d w : d ≤ 64 → ws w → jvalue d ("{"%char :: w ++ ["}"%char]) None
| jv_object d w ms s :
    d ≤ 64 → ws w → jmembers d ms s → NoDup (map m_key ms) →
    jvalue d ("{"%char :: w ++ s ++ ["}"%char]) None
| jv_empty_array d w : d ≤ 64 → ws w → jvalue d ("["%char :: w ++ ["]"%char]) None
| jv_array d s : d ≤ 64 → jelements d s → jvalue d ("["%char :: s ++ ["]"%char]) None
with jmembers : nat → list member → bytes → Prop :=
| jm_last d m lit w1 w2 w3 :
    string_lit lit (m_key m) → ws w1 → ws w2 → ws w3 → jvalue (S d) (m_text m) (m_bool m) →
    jmembers d [m] (lit ++ w1 ++ ":"%char :: w2 ++ m_text m ++ w3)
| jm_cons d m lit w1 w2 w3 w4 ms s :
    string_lit lit (m_key m) → ws w1 → ws w2 → ws w3 → ws w4 →
    jvalue (S d) (m_text m) (m_bool m) → jmembers d ms s →
    jmembers d (m :: ms)
      (lit ++ w1 ++ ":"%char :: w2 ++ m_text m ++ w3 ++ ","%char :: w4 ++ s)
with jelements : nat → bytes → Prop :=
| je_last d w1 v b w2 : ws w1 → ws w2 → jvalue (S d) v b → jelements d (w1 ++ v ++ w2)
| je_cons d w1 v b w2 s :
    ws w1 → ws w2 → jvalue (S d) v b → jelements d s → jelements d (w1 ++ v ++ w2 ++ ","%char :: s).

Scheme jvalue_mut := Minimality for jvalue Sort Prop
  with jmembers_mut := Minimality for jmembers Sort Prop
  with jelements_mut := Minimality for jelements Sort Prop.
Combined Scheme json_mut from jvalue_mut, jmembers_mut, jelements_mut.

(** A document: white space, an object with distinct keys, white space. [pre] ends before the
    first member or the closing brace, which [post] follows. *)
Definition framed (data : bytes) (ms : list member) (pre body post : bytes) : Prop :=
  data = pre ++ body ++ "}"%char :: post ∧
  (∃ w0 w1, pre = w0 ++ "{"%char :: w1 ∧ ws w0 ∧ ws w1) ∧ ws post ∧
  NoDup (map m_key ms) ∧ (ms = [] ∧ body = [] ∨ jmembers 0 ms body).

Definition document (data : bytes) (ms : list member) : Prop :=
  ∃ pre body post, framed data ms pre body post.

(** ** Cursors

    The scanner works on positions; [drop at data] is the text still to read. *)

Lemma cursor_lookup (data : bytes) i c r : drop i data = c :: r → data !! i = Some c.
Proof. intros H. rewrite <-(Nat.add_0_r i), <-lookup_drop, H. done. Qed.

Lemma cursor_end (data : bytes) i : drop i data = [] → data !! i = None.
Proof. intros H. rewrite <-(Nat.add_0_r i), <-lookup_drop, H. done. Qed.

Lemma cursor_app (data : bytes) i a r : drop i data = a ++ r → drop (i + length a) data = r.
Proof. intros H. rewrite <-drop_drop, H. by rewrite drop_app_length. Qed.

Lemma cursor_next (data : bytes) i c r : drop i data = c :: r → drop (i + 1) data = r.
Proof. apply (cursor_app data i [c] r). Qed.

Lemma lookup_cursor (data : bytes) i c :
  data !! i = Some c → drop i data = c :: drop (i + 1) data.
Proof. intros H. rewrite Nat.add_1_r. by apply drop_S. Qed.

Lemma cursor_length (data : bytes) i s : drop i data = s → s ≠ [] → length data = i + length s.
Proof.
  intros <- H. rewrite length_drop. destruct (decide (i ≤ length data)); [lia|].
  destruct H. apply drop_ge. lia.
Qed.

Lemma cursor_slice (data : bytes) i a r :
  drop i data = a ++ r → a ≠ [] → slice data i (i + length a) = Some a.
Proof.
  intros H Ha. unfold slice. pose proof (cursor_length _ _ _ H) as Hl.
  rewrite length_app in Hl. rewrite decide_True.
  - rewrite H. replace (i + length a - i) with (length a) by lia. by rewrite take_app_length.
  - assert (a ++ r ≠ []) by (destruct a; done). specialize (Hl H0). lia.
Qed.

Lemma slice_cursor (data : bytes) i n a :
  slice data i (i + n) = Some a → length a = n ∧ drop i data = a ++ drop (i + n) data.
Proof.
  unfold slice. case_decide as H; [|done]. intros [= <-].
  replace (i + n - i) with n by lia. split.
  - rewrite length_take, length_drop. lia.
  - by rewrite <-drop_drop, take_drop.
Qed.

(** The text does not start with a byte of the class [p]. *)
Definition no_head (p : ascii → bool) (s : bytes) : Prop :=
  match s with [] => True | c :: _ => p c = false end.

Lemma span_app p a r : Forall (λ c, p c = true) a → no_head p r → span p (a ++ r) = length a.
Proof.
  induction 1 as [|c a Hc Ha IH]; intros Hr; simpl.
  - destruct r as [|c r]; simpl in *; [done|]. by rewrite Hr.
  - rewrite Hc. f_equal. auto.
Qed.

Lemma span_split p s :
  ∃ a r, s = a ++ r ∧ length a = span p s ∧ Forall (λ c, p c = true) a ∧ no_head p r.
Proof.
  induction s as [|c s (a & r & -> & Hl & Ha & Hr)].
  { exists [], []. by split_and!. }
  simpl. destruct (p c) eqn:E.
  - exists (c :: a), r. split_and!; [done|by simpl; rewrite Hl|by constructor|done].
  - exists [], (c :: a ++ r). by split_and!.
Qed.

Lemma whitespace_split data i :
  ∃ w, ws w ∧ Json.whitespace data i = i + length w ∧
    drop i data = w ++ drop (Json.whitespace data i) data ∧
    no_head is_ascii_whitespace (drop (Json.whitespace data i) data).
Proof.
  destruct (span_split is_ascii_whitespace (drop i data)) as (a & r & E & Hl & Ha & Hr).
  exists a. unfold Json.whitespace. rewrite <-Hl. rewrite (cursor_app _ _ _ _ E). done.
Qed.

Lemma whitespace_complete data i w r :
  drop i data = w ++ r → ws w → no_head is_ascii_whitespace r →
  Json.whitespace data i = i + length w.
Proof. intros E Hw Hr. unfold Json.whitespace. rewrite E. f_equal. by apply span_app. Qed.

Lemma digits_split data i :
  ∃ a, all_digits a ∧ Json.digits data i = i + length a ∧
    drop i data = a ++ drop (Json.digits data i) data.
Proof.
  destruct (span_split is_ascii_digit (drop i data)) as (a & r & E & Hl & Ha & Hr).
  exists a. unfold Json.digits. rewrite <-Hl. by rewrite (cursor_app _ _ _ _ E).
Qed.

Lemma digits_complete data i a r :
  drop i data = a ++ r → all_digits a → no_head is_ascii_digit r →
  Json.digits data i = i + length a.
Proof. intros E Ha Hr. unfold Json.digits. rewrite E. f_equal. by apply span_app. Qed.

(** ** Numbers *)

Definition is_sign_or_digit (c : ascii) : bool := bool_decide (c = "-"%char) || is_ascii_digit c.
(** The bytes that would extend a number. *)
Definition number_byte (c : ascii) : bool := is_ascii_digit c || one_of ".eE" c.

Lemma no_head_lookup p data i s c :
  drop i data = s → no_head p s → data !! i = Some c → p c = false.
Proof. intros H Hs Hl. apply lookup_cursor in Hl. rewrite H in Hl. by rewrite Hl in Hs. Qed.

Lemma number_byte_digit s : no_head number_byte s → no_head is_ascii_digit s.
Proof.
  destruct s as [|c s]; simpl; [done|]. unfold number_byte. by intros [? _]%orb_false_iff.
Qed.

Lemma number_integer_sound data i e :
  Json.number_integer data i = Ok e →
  ∃ sign s, sign ∈ [[]; str "-"] ∧ integer_part s ∧
    drop i data = sign ++ s ++ drop e data ∧ e = i + length sign + length s.
Proof.
  unfold Json.number_integer. set (j := if decide _ then _ else _). intros H.
  assert (∃ sign, sign ∈ [[]; str "-"] ∧ drop i data = sign ++ drop j data ∧ j = i + length sign)
    as (sign & Hs & Hd & Hj).
  { unfold j. case_decide as Hm.
    - exists (str "-"). split_and!; [set_solver|by apply lookup_cursor|done].
    - exists []. split_and!; [set_solver|done|simpl; lia]. }
  clearbody j. exists sign. destruct (data !! j) as [c|] eqn:Hc; [|done].
  pose proof (lookup_cursor _ _ _ Hc) as Hcur. case_decide as H0.
  - subst c. exists (str "0"). assert (e = j + 1) as ->.
    { destruct (data !! (j + 1)) as [d|]; [|by injection H].
      destruct (is_ascii_digit d); [done|by injection H]. }
    split_and!; [done|constructor| |simpl; lia]. by rewrite Hd, Hcur.
  - destruct (is_ascii_digit c) eqn:Hdig; [|done]. injection H as <-.
    destruct (digits_split data (j + 1)) as (a & Ha & Hl & He).
    exists (c :: a). split_and!; [done|by constructor| |simpl; lia].
    by rewrite Hd, Hcur, He at 1.
Qed.

Lemma number_fraction_sound data i e :
  Json.number_fraction data i = Ok e →
  ∃ s, fraction_part s ∧ drop i data = s ++ drop e data ∧ e = i + length s.
Proof.
  unfold Json.number_fraction. case_decide as H; intros He; result_inv.
  - apply bool_decide_eq_true in H0.
    destruct (digits_split data (i + 1)) as (a & Ha & Hl & Hd).
    exists ("."%char :: a). split_and!; [constructor; [|done]|simpl|simpl; lia].
    + intros ->. simpl in Hl. lia.
    + rewrite (lookup_cursor _ _ _ H). by rewrite Hd at 1.
  - exists []. split_and!; [constructor|done|simpl; lia].
Qed.

Lemma number_exponent_sound data i e :
  Json.number_exponent data i = Ok e →
  ∃ s, exponent_part s ∧ drop i data = s ++ drop e data ∧ e = i + length s.
Proof.
  unfold Json.number_exponent. case_decide as H; intros He; result_inv.
  - apply bool_decide_eq_true in H0. revert H0. set (j := if decide _ then _ else _). intros H0.
    assert (∃ sign, sign ∈ [[]; str "+"; str "-"] ∧ drop (i + 1) data = sign ++ drop j data
      ∧ j = i + 1 + length sign) as (sign & Hs & Hd & Hj).
    { unfold j. case_decide as Hm.
      - destruct Hm as [Hm|Hm]; [exists (str "+")|exists (str "-")];
          (split_and!; [set_solver|by apply lookup_cursor|done]).
      - exists []. split_and!; [set_solver|done|simpl; lia]. }
    clearbody j. destruct (digits_split data j) as (a & Ha & Hl & Hda).
    assert (∃ x, x ∈ str "eE" ∧ data !! i = Some x) as (x & Hx & Hi).
    { destruct H as [H|H]; eexists; (split; [|done]); vm_compute; set_solver. }
    exists (x :: sign ++ a). split_and!; [constructor; try done| |].
    + intros ->. simpl in Hl. lia.
    + rewrite (lookup_cursor _ _ _ Hi). simpl. by rewrite Hd, Hda, <-app_assoc at 1.
    + simpl. rewrite length_app. lia.
  - exists []. split_and!; [constructor|done|simpl; lia].
Qed.

Lemma number_sound data i e :
  Json.number data i = Ok e →
  ∃ s, number_lit s ∧ drop i data = s ++ drop e data ∧ e = i + length s.
Proof.
  unfold Json.number. intros H. result_inv.
  apply number_integer_sound in H as (sign & a & Hs & Ha & Hda & ->).
  apply number_fraction_sound in H0 as (b & Hb & Hdb & ->).
  apply number_exponent_sound in H1 as (c & Hc & Hdc & ->).
  exists (sign ++ a ++ b ++ c). split_and!; [by constructor| |].
  - by rewrite Hda, Hdb, Hdc, <-!app_assoc at 1.
  - rewrite !length_app. lia.
Qed.

Lemma integer_part_head s : integer_part s → ∃ c r, s = c :: r ∧ is_ascii_digit c = true.
Proof. destruct 1; [|by eauto]. by exists "0"%char, []. Qed.

Lemma digit_not_minus c : is_ascii_digit c = true → c ≠ "-"%char.
Proof. by intros H ->. Qed.

Lemma number_integer_complete data i sign s r :
  drop i data = sign ++ s ++ r → sign ∈ [[]; str "-"] → integer_part s →
  no_head is_ascii_digit r →
  Json.number_integer data i = Ok (i + length sign + length s).
Proof.
  intros Hd Hs Hi Hr. unfold Json.number_integer.
  assert ((if decide (data !! i = Some "-"%char) then i + 1 else i) = i + length sign) as ->.
  { literal_cases; simpl in Hd.
    - destruct (integer_part_head s Hi) as (c & t & -> & Hc). simpl in Hd.
      rewrite decide_False; [simpl; lia|]. rewrite (cursor_lookup _ _ _ _ Hd).
      intros [= ->]. done.
    - by rewrite decide_True by (eapply cursor_lookup; exact Hd). }
  apply cursor_app in Hd. destruct Hi as [|c s Hc H0 Hs'].
  - rewrite (cursor_lookup _ _ "0"%char r Hd). rewrite decide_True by done.
    apply cursor_next in Hd.
    destruct (data !! (i + length sign + 1)) as [d|] eqn:E; [|done].
    by rewrite (no_head_lookup _ _ _ _ _ Hd Hr E).
  - rewrite (cursor_lookup _ _ _ _ Hd), decide_False, Hc by done.
    apply cursor_next in Hd. rewrite (digits_complete _ _ _ _ Hd Hs' Hr). f_equal. simpl. lia.
Qed.

Lemma number_fraction_complete data i s r :
  drop i data = s ++ r → fraction_part s →
  (∀ t, r ≠ "."%char :: t) → no_head is_ascii_digit r →
  Json.number_fraction data i = Ok (i + length s).
Proof.
  intros Hd Hf Hdot Hr. unfold Json.number_fraction. destruct Hf as [|s Hne Hs].
  - simpl in Hd. rewrite decide_False; [f_equal; simpl; lia|].
    intros E%lookup_cursor. rewrite Hd in E. by eapply Hdot.
  - rewrite decide_True by (by eapply cursor_lookup). apply cursor_next in Hd.
    rewrite (digits_complete _ _ _ _ Hd Hs Hr), bool_decide_eq_true_2; [simpl; f_equal; lia|].
    destruct s; simpl; [done|lia].
Qed.

Lemma number_exponent_complete data i s r :
  drop i data = s ++ r → exponent_part s →
  (∀ t, r ≠ "e"%char :: t) → (∀ t, r ≠ "E"%char :: t) → no_head is_ascii_digit r →
  Json.number_exponent data i = Ok (i + length s).
Proof.
  intros Hd He He1 He2 Hr. unfold Json.number_exponent. destruct He as [|e sign s He Hsg Hne Hs].
  - simpl in Hd. rewrite decide_False; [f_equal; simpl; lia|].
    intros [E|E]; apply lookup_cursor in E; rewrite Hd in E; [by eapply He1|by eapply He2].
  - simpl in Hd. rewrite decide_True.
    2: { rewrite (cursor_lookup _ _ _ _ Hd). vm_compute in He. set_solver. }
    apply cursor_next in Hd. rewrite <-app_assoc in Hd.
    assert ((if decide (data !! (i + 1) = Some "+"%char ∨ data !! (i + 1) = Some "-"%char)
             then i + 1 + 1 else i + 1) = i + 1 + length sign) as ->.
    { literal_cases; simpl in Hd.
      - destruct s as [|c s]; [done|]. simpl in Hd. inversion Hs; subst.
        rewrite decide_False; [simpl; lia|]. rewrite (cursor_lookup _ _ _ _ Hd).
        by intros [[= ->]|[= ->]].
      - rewrite decide_True; [done|]. left. by eapply cursor_lookup.
      - rewrite decide_True; [done|]. right. by eapply cursor_lookup. }
    apply cursor_app in Hd. rewrite (digits_complete _ _ _ _ Hd Hs Hr), bool_decide_eq_true_2.
    + simpl. rewrite length_app. f_equal. lia.
    + destruct s; simpl; [done|lia].
Qed.

Lemma number_complete data i s r :
  drop i data = s ++ r → number_lit s → no_head number_byte r →
  Json.number data i = Ok (i + length s).
Proof.
  intros Hd Hn Hr. destruct Hn as [sign a b c Hs Ha Hb Hc]. unfold Json.number.
  rewrite <-!app_assoc in Hd.
  assert (Hrd := number_byte_digit r Hr).
  assert (Hnot : ∀ x t, x ∈ str ".eE" → r ≠ x :: t).
  { intros x t Hx ->. simpl in Hr. unfold number_byte in Hr.
    apply orb_false_iff in Hr as [_ Hr]. apply not_true_iff_false in Hr.
    apply Hr. by apply one_of_spec. }
  assert (Hcr : no_head is_ascii_digit (c ++ r) ∧ ∀ t, c ++ r ≠ "."%char :: t).
  { destruct Hc as [|e sg s He ?]; simpl.
    - split; [done|]. intros t. apply Hnot. vm_compute. set_solver.
    - vm_compute in He. apply elem_of_cons in He as [->|He%list_elem_of_singleton]; [|subst e];
        (split; [done|intros ? [=]]).
  }
  assert (Hbcr : no_head is_ascii_digit (b ++ c ++ r)).
  { destruct Hb; simpl; [apply Hcr|done]. }
  rewrite (number_integer_complete data i sign a (b ++ c ++ r)) by done. simpl.
  rewrite app_assoc in Hd. apply cursor_app in Hd. rewrite length_app, Nat.add_assoc in Hd.
  rewrite (number_fraction_complete data _ b (c ++ r)); [simpl|done|done|apply Hcr|apply Hcr].
  apply cursor_app in Hd. rewrite (number_exponent_complete data _ c r); try done.
  - f_equal. rewrite !length_app. lia.
  - intros t. apply Hnot. vm_compute. set_solver.
  - intros t. apply Hnot. vm_compute. set_solver.
Qed.

(** ** Strings *)

Lemma string_end_sound fuel data i e :
  Json.string_end fuel data i = Ok e →
  ∃ body, string_body body ∧ drop i data = body ++ "034"%char :: drop e data ∧
    e = i + length body + 1.
Proof.
  revert i. induction fuel as [|fuel IH]; intros i; simpl.
  { by destruct (data !! i). }
  destruct (data !! i) as [b|] eqn:Hb; [|done].
  pose proof (lookup_cursor _ _ _ Hb) as Hcur. case_decide as Hq; [|case_decide as Hbs].
  - subst. intros [= <-]. exists []. split_and!; [constructor|done|simpl; lia].
  - subst. replace (i + 2 - 1) with (i + 1) by lia.
    case_decide as Hu; case_match eqn:Hlen; try done;
      apply Nat.ltb_ge in Hlen; intros (body & Hb' & Hd & ->)%IH.
    + apply lookup_cursor in Hu. rewrite <-Nat.add_assoc in Hu.
      assert (∃ x y z w, drop (i + 2) data = x :: y :: z :: w :: drop (i + 2 + 4) data)
        as (x & y & z & w & Hd4).
      { assert (length (drop (i + 2) data) = length data - (i + 2)) as Hl by apply length_drop.
        rewrite <-(drop_drop _ 4 (i + 2)). destruct (drop (i + 2) data) as [|x [|y [|z [|w r]]]];
          simpl in Hl; try lia. by exists x, y, z, w. }
      exists ("\"%char :: "u"%char :: x :: y :: z :: w :: body).
      split_and!; [by constructor| |simpl; lia].
      rewrite Hcur, Hu. simpl. by rewrite Hd4, Hd.
    + assert (∃ c, data !! (i + 1) = Some c) as [c Hc] by (apply lookup_lt_is_Some; lia).
      pose proof (lookup_cursor _ _ _ Hc) as Hc'. rewrite <-Nat.add_assoc in Hc'.
      exists ("\"%char :: c :: body). split_and!; [constructor; [congruence|done]| |simpl; lia].
      rewrite Hcur, Hc'. simpl. by rewrite Hd.
  - case_match eqn:Hctl; [done|]. apply Z.leb_gt in Hctl.
    intros (body & Hb' & Hd & ->)%IH. exists (b :: body).
    split_and!; [constructor; [done|done|lia|done]| |simpl; lia].
    rewrite Hcur. simpl. by rewrite Hd.
Qed.

Lemma string_end_complete fuel data i body r :
  string_body body → drop i data = body ++ "034"%char :: r → length body < fuel →
  Json.string_end fuel data i = Ok (i + length body + 1).
Proof.
  intros Hb. revert fuel i. induction Hb as [|c s Hq Hbs Hctl _ IH|c s Hu _ IH|a b c d s _ IH];
    intros [|fuel] i Hd Hf; simpl in Hf; try lia; simpl;
    rewrite (cursor_lookup _ _ _ _ Hd); pose proof (cursor_length _ _ _ Hd ltac:(done)) as Hlen.
  - rewrite decide_True by done. f_equal. lia.
  - rewrite !decide_False by done. destruct (Z.leb_spec (code c) 31); [lia|].
    apply cursor_next in Hd. rewrite IH by (done || lia). f_equal. lia.
  - rewrite decide_False, decide_True by done. replace (i + 2 - 1) with (i + 1) by lia.
    pose proof (cursor_next _ _ _ _ Hd) as Hd1. rewrite (cursor_lookup _ _ _ _ Hd1).
    rewrite decide_False by congruence. simpl in Hlen. rewrite length_app in Hlen.
    simpl in Hlen. destruct (Nat.ltb_spec (length data) (i + 2)); [lia|].
    apply cursor_next in Hd1. rewrite <-Nat.add_assoc in Hd1.
    rewrite IH by (done || lia). f_equal. lia.
  - rewrite decide_False, decide_True by done. replace (i + 2 - 1) with (i + 1) by lia.
    pose proof (cursor_next _ _ _ _ Hd) as Hd1. rewrite (cursor_lookup _ _ _ _ Hd1).
    rewrite decide_True by done. simpl in Hlen. rewrite length_app in Hlen. simpl in Hlen.
    destruct (Nat.ltb_spec (length data) (i + 2 + 4)); [lia|].
    assert (drop (i + 6) data = s ++ "034"%char :: r) as Hd6.
    { apply (cursor_app data i ["\"; "u"; a; b; c; d]%char (s ++ "034"%char :: r)). done. }
    replace (i + 2 + 4) with (i + 6) by lia. rewrite IH by (done || lia). f_equal. lia.
Qed.

Lemma string_lit_head lit k : string_lit lit k → ∃ r, lit = "034"%char :: r.
Proof. intros (body & -> & _). eauto. Qed.

Lemma string_sound data i k e :
  Json.string data i = Ok (k, e) →
  ∃ w lit, ws w ∧ string_lit lit k ∧ drop i data = w ++ lit ++ drop e data ∧
    e = i + length w + length lit.
Proof.
  unfold Json.string. destruct (whitespace_split data i) as (w & Hw & Hi & Hd & _).
  intros H. result_inv. apply bool_decide_eq_true, lookup_cursor in H.
  apply string_end_sound in H0 as (body & Hb & Hdb & ->).
  set (lit := "034"%char :: body ++ ["034"%char]).
  assert (Hall : drop (Json.whitespace data i) data = lit ++ drop (Json.whitespace data i + 1 + length body + 1) data).
  { rewrite H, Hdb. unfold lit. simpl. by rewrite <-app_assoc. }
  assert (Hlen : length lit = length body + 2) by (unfold lit; simpl; rewrite length_app; simpl; lia).
  exists w, lit. replace (Json.whitespace data i + 1 + length body + 1 - Json.whitespace data i)
    with (length lit) in H1 by lia.
  rewrite Hall, take_app_length in H1. split_and!; [done|by exists body| |lia].
  rewrite Hd, Hall. done.
Qed.

Lemma string_complete data i w lit k r :
  drop i data = w ++ lit ++ r → ws w → string_lit lit k →
  Json.string data i = Ok (k, i + length w + length lit).
Proof.
  intros Hd Hw Hl. pose proof Hl as (body & Elit & Hb & Hk). unfold Json.string.
  rewrite (whitespace_complete data i w (lit ++ r)); [|done|done|by rewrite Elit].
  apply cursor_app in Hd. assert (Hd' := Hd). rewrite Elit in Hd'. simpl in Hd'.
  rewrite (cursor_lookup _ _ _ _ Hd'), bool_decide_eq_true_2 by done. simpl.
  pose proof (cursor_length _ _ _ Hd' ltac:(done)) as Hlen.
  apply cursor_next in Hd'. rewrite <-app_assoc in Hd'. simpl in Hd'. simpl in Hlen.
  rewrite !length_app in Hlen. simpl in Hlen.
  rewrite (string_end_complete _ _ _ body r) by (done || lia). simpl.
  replace (i + length w + 1 + length body + 1) with (i + length w + length lit)
    by (rewrite Elit; simpl; rewrite length_app; simpl; lia).
  replace (i + length w + length lit - (i + length w)) with (length lit) by lia.
  rewrite Hd, take_app_length, Hk. done.
Qed.

(** ** Readings

    [reads data i s e]: the scanner that goes from position [i] to [e] has read exactly [s]. *)
Definition reads (data : bytes) (i : nat) (s : bytes) (e : nat) : Prop :=
  drop i data = s ++ drop e data ∧ e = i + length s.

Lemma reads_app data i a j b e : reads data i a j → reads data j b e → reads data i (a ++ b) e.
Proof. intros [Ha ->] [Hb ->]. split; [by rewrite Ha, Hb, <-app_assoc at 1|rewrite length_app; lia]. Qed.

Lemma reads_nil data i : reads data i [] i.
Proof. split; [done|simpl; lia]. Qed.

Lemma reads_byte data i c : data !! i = Some c → reads data i [c] (i + 1).
Proof. intros H. split; [by apply lookup_cursor|done]. Qed.

Lemma reads_cursor data i s r : drop i data = s ++ r → reads data i s (i + length s).
Proof. intros H. split; [|done]. by rewrite (cursor_app _ _ _ _ H). Qed.

Lemma reads_slice data i n s : slice data i (i + n) = Some s → reads data i s (i + n).
Proof. intros [Hl H]%slice_cursor. split; [done|lia]. Qed.

Lemma reads_whitespace data i : ∃ w, ws w ∧ reads data i w (Json.whitespace data i).
Proof. destruct (whitespace_split data i) as (w & ? & ? & ? & _). by exists w. Qed.

Lemma reads_length data i s e : reads data i s e → e ≤ length data ∨ s = [].
Proof.
  intros [H ->]. destruct s as [|c s]; [by right|left].
  pose proof (cursor_length _ _ _ H ltac:(done)) as Hl. rewrite length_app in Hl. lia.
Qed.

(** [reads_by] closes a reading goal from readings of its parts. *)
Ltac reads_by H :=
  match type of H with reads ?d ?i ?s ?e =>
    let E := fresh in
    match goal with |- reads _ _ ?t _ =>
      assert (E : t = s) by (repeat (rewrite <-app_assoc || simpl); reflexivity)
    end;
    rewrite E; exact H
  end.

Lemma ws_nil : ws [].
Proof. constructor. Qed.
Lemma ws_app w v : ws w → ws v → ws (w ++ v).
Proof. intros. by apply Forall_app. Qed.
#[export] Hint Resolve ws_nil ws_app : luhmen.

Lemma byte_sound data i c e :
  Json.byte data i c = Ok e → ∃ w, ws w ∧ reads data i (w ++ [c]) e.
Proof.
  unfold Json.byte. destruct (reads_whitespace data i) as (w & Hw & Hr). intros H. result_inv.
  apply bool_decide_eq_true in H. exists w. split; [done|].
  eapply reads_app; [done|by apply reads_byte].
Qed.

Lemma byte_complete data i w c r :
  drop i data = w ++ c :: r → ws w → is_ascii_whitespace c = false →
  Json.byte data i c = Ok (i + length w + 1).
Proof.
  intros Hd Hw Hc. unfold Json.byte. rewrite (whitespace_complete _ _ _ _ Hd) by done.
  apply cursor_app in Hd. rewrite (cursor_lookup _ _ _ _ Hd).
  by rewrite bool_decide_eq_true_2.
Qed.

Lemma string_reads data i k e :
  Json.string data i = Ok (k, e) →
  ∃ w lit, ws w ∧ string_lit lit k ∧ reads data i (w ++ lit) e.
Proof.
  intros (w & lit & Hw & Hl & Hd & ->)%string_sound. exists w, lit. split_and!; [done..|].
  split; [by rewrite <-app_assoc|rewrite length_app; lia].
Qed.

Lemma jelements_ws d w s : ws w → jelements d s → jelements d (w ++ s).
Proof. intros Hw []; rewrite app_assoc; [eapply je_last|eapply je_cons]; eauto with luhmen. Qed.

(** ** Soundness: what the scanner accepts is in the grammar *)

Section sound.
Context (data : bytes).

Definition value_sound (fuel : nat) : Prop :=
  ∀ d i b e, Json.value fuel data d i = Ok (b, e) →
    ∃ w s, ws w ∧ jvalue d s b ∧ reads data i (w ++ s) e.
Definition members_sound (fuel : nat) : Prop :=
  ∀ d keys i e, Json.members fuel data d keys i = Ok e →
    ∃ w ms s, ws w ∧ jmembers d ms s ∧ NoDup (map m_key ms) ∧
      Forall (λ k, k ∉ keys) (map m_key ms) ∧ reads data i (w ++ s ++ ["}"%char]) e.
Definition elements_sound (fuel : nat) : Prop :=
  ∀ d i e, Json.elements fuel data d i = Ok e →
    ∃ s, jelements d s ∧ reads data i (s ++ ["]"%char]) e.

Lemma value_sound_step fuel :
  members_sound fuel → elements_sound fuel → value_sound (S fuel).
Proof.
  intros IHm IHe. intros d i b e. simpl. destruct (Nat.ltb_spec 64 d) as [|Hd]; [done|].
  destruct (reads_whitespace data i) as (w & Hw & Hr). revert Hr.
  generalize (Json.whitespace data i) as j. intros j Hr.
  destruct (data !! j) as [c|] eqn:Hc; [|done]. pose proof (reads_byte _ _ _ Hc) as Hrc.
  intros H. exists w.
  enough (∃ s, jvalue d s b ∧ reads data j s e) as (s & Hs & Hrs)
    by (exists s; split_and!; [done..|by eapply reads_app]).
  repeat case_decide; subst.
  - result_inv. destruct x as [k e']. result_inv.
    apply string_reads in H as (w' & lit & Hw' & Hl & Hrl).
    assert (w' = []) as ->.
    { destruct w' as [|x w']; [done|]. destruct Hrl as [Hrl _].
      rewrite (lookup_cursor _ _ _ Hc) in Hrl. injection Hrl as <- _. by inversion Hw'. }
    exists lit. split; [by econstructor|done].
  - destruct (reads_whitespace data (j + 1)) as (w' & Hw' & Hr'). result_inv.
    exists ("{"%char :: w' ++ ["}"%char]). split; [by constructor|].
    pose proof (reads_app _ _ _ _ _ _ Hrc (reads_app _ _ _ _ _ _ Hr' (reads_byte _ _ _ ltac:(eassumption)))) as HR.
    reads_by HR.
  - destruct (reads_whitespace data (j + 1)) as (w' & Hw' & Hr'). result_inv.
    apply IHm in H as (w2 & ms & s & Hw2 & Hms & Hnd & _ & Hrm).
    exists ("{"%char :: (w' ++ w2) ++ s ++ ["}"%char]).
    split; [apply jv_object with ms; auto with luhmen|].
    pose proof (reads_app _ _ _ _ _ _ Hrc (reads_app _ _ _ _ _ _ Hr' Hrm)) as HR. reads_by HR.
  - destruct (reads_whitespace data (j + 1)) as (w' & Hw' & Hr'). result_inv.
    exists ("["%char :: w' ++ ["]"%char]). split; [by constructor|].
    pose proof (reads_app _ _ _ _ _ _ Hrc (reads_app _ _ _ _ _ _ Hr' (reads_byte _ _ _ ltac:(eassumption)))) as HR.
    reads_by HR.
  - destruct (reads_whitespace data (j + 1)) as (w' & Hw' & Hr'). result_inv.
    apply IHe in H as (s & Hs & Hre).
    exists ("["%char :: (w' ++ s) ++ ["]"%char]).
    split; [constructor; [done|by apply jelements_ws]|].
    pose proof (reads_app _ _ _ _ _ _ Hrc (reads_app _ _ _ _ _ _ Hr' Hre)) as HR. reads_by HR.
  - result_inv. eexists. split; [by apply jv_true|by apply reads_slice].
  - result_inv. eexists. split; [by apply jv_false|by apply reads_slice].
  - result_inv. eexists. split; [by apply jv_null|by apply reads_slice].
  - simpl in H. result_inv. apply number_sound in H as (s & Hs & Hn & ->).
    exists s. by split; [apply jv_number|].
  - simpl in H. case_match; [|done]. result_inv. apply number_sound in H as (s & Hs & Hn & ->).
    exists s. by split; [apply jv_number|].
Qed.

Lemma members_sound_step fuel :
  value_sound fuel → members_sound fuel → members_sound (S fuel).
Proof.
  intros IHv IHm. intros d keys i e H. simpl in H. result_inv. destruct x as [k i1]. result_inv.
  destruct x1 as [b i3]. revert H3. destruct (reads_whitespace data i3) as (w3 & Hw3 & Hr3).
  revert Hr3. generalize (Json.whitespace data i3) as j. intros j Hr3 H3.
  apply string_reads in H as (w & lit & Hw & Hl & Hrl).
  apply bool_decide_eq_true in H0. apply byte_sound in H1 as (w1 & Hw1 & Hr1).
  rewrite Nat.add_1_r in H2. apply IHv in H2 as (w2 & v & Hw2 & Hv & Hr2).
  destruct (data !! j) as [c|] eqn:Hc; [|done]. apply reads_byte in Hc.
  set (m := Member k v b).
  pose proof (reads_app _ _ _ _ _ _ Hrl (reads_app _ _ _ _ _ _ Hr1
    (reads_app _ _ _ _ _ _ Hr2 (reads_app _ _ _ _ _ _ Hr3 Hc)))) as HR.
  exists w. case_decide; [subst c|].
  - apply IHm in H3 as (w4 & ms & s & Hw4 & Hms & Hnd & Hk & Hrm).
    exists (m :: ms), (lit ++ w1 ++ ":"%char :: w2 ++ v ++ w3 ++ ","%char :: w4 ++ s).
    split_and!; [done|by apply (jm_cons d m)| | |].
    + simpl. constructor; [|done]. intros Hin. rewrite Forall_forall in Hk.
      apply (Hk k); [done|set_solver].
    + simpl. constructor; [done|]. eapply Forall_impl; [done|]. simpl. set_solver.
    + pose proof (reads_app _ _ _ _ _ _ HR Hrm) as HR'. reads_by HR'.
  - case_decide; [subst c|done]. result_inv.
    exists [m], (lit ++ w1 ++ ":"%char :: w2 ++ v ++ w3).
    split_and!; [done|by apply (jm_last d m)|by apply NoDup_singleton|by constructor|].
    reads_by HR.
Qed.

Lemma elements_sound_step fuel :
  value_sound fuel → elements_sound fuel → elements_sound (S fuel).
Proof.
  intros IHv IHe. intros d i e H. simpl in H. result_inv. destruct x as [b i1].
  revert H0. destruct (reads_whitespace data i1) as (w2 & Hw2 & Hr2).
  revert Hr2. generalize (Json.whitespace data i1) as j. intros j Hr2 H0.
  rewrite Nat.add_1_r in H. apply IHv in H as (w1 & v & Hw1 & Hv & Hr1).
  destruct (data !! j) as [c|] eqn:Hc; [|done]. apply reads_byte in Hc.
  pose proof (reads_app _ _ _ _ _ _ Hr1 (reads_app _ _ _ _ _ _ Hr2 Hc)) as HR.
  case_decide; [subst c|].
  - apply IHe in H0 as (s & Hs & Hre).
    exists (w1 ++ v ++ w2 ++ ","%char :: s). split; [by econstructor|].
    pose proof (reads_app _ _ _ _ _ _ HR Hre) as HR'. reads_by HR'.
  - case_decide; [subst c|done]. result_inv. exists (w1 ++ v ++ w2).
    split; [by econstructor|]. reads_by HR.
Qed.

Lemma scan_sound fuel : value_sound fuel ∧ members_sound fuel ∧ elements_sound fuel.
Proof.
  induction fuel as [|fuel (IHv & IHm & IHe)]; [done|].
  auto using value_sound_step, members_sound_step, elements_sound_step.
Qed.

End sound.

(** ** Completeness: the scanner accepts every text of the grammar

    [length s] is enough fuel for a value [s], and one more for the loop of an object or array. *)

Lemma string_lit_length lit k : string_lit lit k → 2 ≤ length lit.
Proof. intros (body & -> & _). simpl. rewrite length_app. simpl. lia. Qed.

Lemma number_lit_head s :
  number_lit s → ∃ c r, s = c :: r ∧ bool_decide (c = "-"%char) || is_ascii_digit c = true.
Proof.
  intros [sign i f e Hs Hi _ _]. destruct (integer_part_head i Hi) as (c & r & -> & Hc).
  literal_cases; simpl; [|by eexists _, _].
  eexists c, _. split; [done|]. by rewrite Hc, orb_true_r.
Qed.

(** What [value] dispatches on: the first byte of a value is not white space, nor a byte that
    ends an object or an array. *)
Definition value_head (s : bytes) : Prop :=
  ∃ c r, s = c :: r ∧ is_ascii_whitespace c = false ∧ c ∉ str "]},:".

Lemma digit_or_minus_head c :
  bool_decide (c = "-"%char) || is_ascii_digit c = true →
  is_ascii_whitespace c = false ∧ (c ∉ str "]},:") ∧ (c ∉ str "{[tfn") ∧ c ≠ "034"%char.
Proof.
  intros H. destruct c as [[] [] [] [] [] [] [] []]; try discriminate H;
    (split_and!; [done|apply (bool_decide_unpack _); vm_compute; done..]).
Qed.

Lemma jvalue_head d s b : jvalue d s b → value_head s.
Proof.
  assert (∀ c r, is_ascii_whitespace c = false → bool_decide (c ∈ str "]},:") = false →
    value_head (c :: r)) as Hlit.
  { intros c r Hc Hn%bool_decide_eq_false. by exists c, r. }
  destruct 1 as [? ? ? ? Hl|?|?|?|? ? ? Hn|?|?|?|?]; try by apply Hlit.
  - destruct (string_lit_head _ _ Hl) as [r ->]. by apply Hlit.
  - destruct (number_lit_head _ Hn) as (c & r & -> & Hc%digit_or_minus_head).
    exists c, r. tauto.
Qed.

Lemma no_head_ws p w r :
  ws w → no_head p r → (∀ c, is_ascii_whitespace c = true → p c = false) → no_head p (w ++ r).
Proof. intros Hw Hr Hp. destruct Hw as [|c w Hc]; simpl; auto. Qed.

Lemma ws_number_byte c : is_ascii_whitespace c = true → number_byte c = false.
Proof. intros H. by destruct c as [[] [] [] [] [] [] [] []]; try discriminate H. Qed.

Lemma slice_other data i n c s : data !! i = Some c → (∀ r, s ≠ c :: r) → s ≠ [] → 
  slice data i (i + n) ≠ Some s.
Proof.
  intros Hc Hs Hne [_ H]%slice_cursor. rewrite (lookup_cursor _ _ _ Hc) in H.
  destruct s as [|x s]; [done|]. injection H as <- _. by eapply Hs.
Qed.

Section complete.
Context (data : bytes).

Definition value_complete (d : nat) (s : bytes) (b : option bool) : Prop :=
  ∀ fuel i w r, drop i data = w ++ s ++ r → ws w → no_head number_byte r → length s ≤ fuel →
    Json.value fuel data d i = Ok (b, i + length w + length s).
Definition members_complete (d : nat) (ms : list member) (s : bytes) : Prop :=
  (∃ r, s = "034"%char :: r) ∧
  ∀ fuel keys i w r, drop i data = w ++ s ++ "}"%char :: r → ws w → length s < fuel →
    NoDup (map m_key ms) → Forall (λ k, k ∉ keys) (map m_key ms) →
    Json.members fuel data d keys i = Ok (i + length w + length s + 1).
Definition elements_complete (d : nat) (s : bytes) : Prop :=
  ∃ w0 t, s = w0 ++ t ∧ ws w0 ∧ value_head t ∧
  ∀ fuel i w r, drop i data = w ++ t ++ "]"%char :: r → ws w → length t < fuel →
    Json.elements fuel data d i = Ok (i + length w + length t + 1).

(** The position of a value whose first byte is [c]. *)
Lemma value_position i w c r :
  drop i data = w ++ c :: r → ws w → is_ascii_whitespace c = false →
  Json.whitespace data i = i + length w ∧ drop (i + length w) data = c :: r ∧
  data !! (i + length w) = Some c.
Proof.
  intros Hdr Hw Hc. pose proof (whitespace_complete _ _ _ _ Hdr Hw Hc) as ->.
  apply cursor_app in Hdr. by pose proof (cursor_lookup _ _ _ _ Hdr).
Qed.

Lemma literal_complete d c s b :
  d ≤ 64 → (c, s, b) ∈ [("t"%char, str "rue", Some true); ("f"%char, str "alse", Some false);
                        ("n"%char, str "ull", None)] →
  value_complete d (c :: s) b.
Proof.
  intros Hd Hin [|fuel] i w r Hdr Hw _ Hf; [simpl in Hf; lia|].
  destruct (value_position i w c (s ++ r) Hdr Hw) as (Hws & Hcur & Hc).
  { literal_cases; by simplify_eq. }
  simpl. destruct (Nat.ltb_spec 64 d); [lia|]. rewrite Hws, Hc.
  assert (slice data (i + length w) (i + length w + length (c :: s)) = Some (c :: s)) as Hsl
    by (eapply cursor_slice; [exact Hcur|done]).
  literal_cases; simplify_eq;
    repeat (let Hx := fresh in case_decide as Hx; [try discriminate Hx;
      try (exfalso; apply (slice_other _ _ _ _ _ Hc) in Hx; [done|by intros ? [=]|done])|]);
    solve [done | congruence].
Qed.

Lemma string_value_complete d lit k : d ≤ 64 → string_lit lit k → value_complete d lit None.
Proof.
  intros Hd Hl [|fuel] i w r Hdr Hw _ Hf; [apply string_lit_length in Hl; lia|].
  destruct (string_lit_head _ _ Hl) as [t Et]. assert (Hdr' := Hdr). rewrite Et in Hdr'.
  destruct (value_position i w _ _ Hdr' Hw) as (Hws & Hcur & Hc); [done|].
  simpl. destruct (Nat.ltb_spec 64 d); [lia|]. rewrite Hws, Hc, decide_True by done.
  apply cursor_app in Hdr. rewrite (string_complete _ _ [] lit k r); [|done..|constructor|done].
  simpl. f_equal. f_equal. lia.
Qed.

Lemma number_value_complete d s : d ≤ 64 → number_lit s → value_complete d s None.
Proof.
  intros Hd Hn [|fuel] i w r Hdr Hw Hr Hf.
  { destruct (number_lit_head _ Hn) as (c & t & -> & _). simpl in Hf. lia. }
  destruct (number_lit_head _ Hn) as (c & t & Et & Hct). assert (Hdr' := Hdr). rewrite Et in Hdr'.
  destruct (digit_or_minus_head _ Hct) as (Hcw & _ & Hopen & Hq).
  destruct (value_position i w _ _ Hdr' Hw Hcw) as (Hws & Hcur & Hc).
  simpl. destruct (Nat.ltb_spec 64 d); [lia|]. rewrite Hws, Hc.
  apply cursor_app in Hdr. rewrite (number_complete _ _ s r) by done.
  assert (Hs : ∀ n x y, x ∈ str "{[tfn" → slice data (i + length w) (i + length w + n) ≠ Some (x :: y)).
  { intros n x y Hx. apply slice_other with c; [done| |done]. intros ? [= -> _]. done. }
  assert (∀ x, x ∈ str "{[tfn" → c ≠ x) by (intros x Hx ->; done).
  rewrite !decide_False, Hct; [done|..].
  all: first [done | apply Hs; vm_compute; set_solver | apply H0; vm_compute; set_solver].
Qed.

(** An object or array: the opening bracket, then either the closing one or the loop. *)
Lemma object_complete d w s :
  d ≤ 64 → ws w → (s = [] ∨ ∃ ms, members_complete d ms s ∧ NoDup (map m_key ms)) →
  value_complete d ("{"%char :: w ++ s ++ ["}"%char]) None.
Proof.
  intros Hd Hw Hs [|fuel] i w0 r Hdr Hw0 _ Hf; simpl in Hf; [lia|].
  rewrite !length_app in Hf. simpl in Hf, Hdr. rewrite <-!app_assoc in Hdr. simpl in Hdr.
  destruct (value_position i w0 _ _ Hdr Hw0) as (Hws & Hcur & Hc); [done|].
  simpl. destruct (Nat.ltb_spec 64 d); [lia|].
  rewrite Hws, Hc, decide_False, decide_True by done. apply cursor_next in Hcur.
  destruct Hs as [->|(ms & [[t Et] Hm] & Hnd)].
  - simpl in Hcur. destruct (value_position _ w _ _ Hcur Hw) as (-> & _ & ->); [done|].
    rewrite decide_True by done. simpl. rewrite length_app. simpl. f_equal. f_equal. lia.
  - pose proof Hcur as Hcur'. rewrite Et in Hcur'.
    destruct (value_position _ w _ _ Hcur' Hw) as (-> & _ & ->); [done|].
    rewrite decide_False by done. apply cursor_app in Hcur.
    rewrite (Hm fuel ∅ _ [] r); [|done|constructor|lia|done|].
    + simpl. rewrite !length_app. simpl. f_equal. f_equal. lia.
    + apply Forall_forall. set_solver.
Qed.

Lemma array_complete d w s :
  d ≤ 64 → ws w → (s = [] ∨ elements_complete d s) →
  value_complete d ("["%char :: w ++ s ++ ["]"%char]) None.
Proof.
  intros Hd Hw Hs [|fuel] i w0 r Hdr Hw0 _ Hf; simpl in Hf; [lia|].
  rewrite !length_app in Hf. simpl in Hf, Hdr. rewrite <-!app_assoc in Hdr. simpl in Hdr.
  destruct (value_position i w0 _ _ Hdr Hw0) as (Hws & Hcur & Hc); [done|].
  simpl. destruct (Nat.ltb_spec 64 d); [lia|].
  rewrite Hws, Hc, !decide_False, decide_True by done. apply cursor_next in Hcur.
  destruct Hs as [->|(w1 & t & -> & Hw1 & (c & t' & Et & Hcw & Hcn) & He)].
  - simpl in Hcur. destruct (value_position _ w _ _ Hcur Hw) as (-> & _ & ->); [done|].
    rewrite decide_True by done. simpl. rewrite length_app. simpl. f_equal. f_equal. lia.
  - rewrite length_app in Hf. rewrite <-app_assoc, app_assoc in Hcur.
    pose proof Hcur as Hcur'. rewrite Et in Hcur'.
    destruct (value_position _ (w ++ w1) _ _ Hcur') as (-> & _ & ->); auto with luhmen.
    rewrite decide_False by (intros [= ->]; apply Hcn; vm_compute; set_solver).
    apply cursor_app in Hcur. rewrite (He fuel _ [] r); [|done|constructor|lia].
    simpl. rewrite !length_app. simpl. f_equal. f_equal. lia.
Qed.

(** What follows a value inside an object or array: white space, then [c]. *)
Lemma after_value j w c r :
  drop j data = w ++ c :: r → ws w → c ∈ [","; "}"; "]"]%char →
  no_head number_byte (w ++ c :: r) ∧ Json.whitespace data j = j + length w ∧
  data !! (j + length w) = Some c ∧ drop (j + length w + 1) data = r.
Proof.
  intros Hd Hw Hc.
  assert (is_ascii_whitespace c = false ∧ number_byte c = false) as [Hcw Hcn].
  { by literal_cases. }
  destruct (value_position j w c r Hd Hw Hcw) as (? & Hcur & ?). split_and!; [|done..|].
  - by apply no_head_ws; auto using ws_number_byte.
  - by apply cursor_next in Hcur.
Qed.

(** One member, up to the byte after its value. *)
Lemma member_complete d fuel m lit keys i w w1 w2 r :
  value_complete (S d) (m_text m) (m_bool m) → string_lit lit (m_key m) →
  ws w → ws w1 → ws w2 → no_head number_byte r → value_head (m_text m) →
  drop i data = w ++ lit ++ w1 ++ ":"%char :: w2 ++ m_text m ++ r →
  length (m_text m) ≤ fuel → m_key m ∉ keys →
  Json.members (S fuel) data d keys i =
    let at_ := Json.whitespace data (i + length w + length lit + length w1 + 1 + length w2
                                     + length (m_text m)) in
    match data !! at_ with
    | Some c =>
        if decide (c = ","%char) then Json.members fuel data d ({[m_key m]} ∪ keys) (at_ + 1)
        else if decide (c = "}"%char) then Ok (at_ + 1)
        else Err "invalid JSON object"
    | None => Err "invalid JSON object"
    end.
Proof.
  intros Hv Hl Hw Hw1 Hw2 Hr (c & t & Et & Hcw & _) Hd Hf Hk.
  change (Json.members (S fuel) data d keys i) with
    ('(key, at_) ← Json.string data i;
      _ ← ensure (bool_decide (key ∉ keys)) Json.duplicate_key;
      at_ ← Json.byte data at_ ":"%char;
      '(_, at_) ← Json.value fuel data (d + 1) at_;
      let at_ := Json.whitespace data at_ in
      match data !! at_ with
      | Some c =>
          if decide (c = ","%char) then Json.members fuel data d ({[key]} ∪ keys) (at_ + 1)
          else if decide (c = "}"%char) then Ok (at_ + 1)
          else Err "invalid JSON object"
      | None => Err "invalid JSON object"
      end).
  rewrite (string_complete _ _ _ _ _ _ Hd Hw Hl). apply cursor_app, cursor_app in Hd. simpl.
  rewrite bool_decide_eq_true_2 by done. simpl.
  rewrite (byte_complete _ _ _ _ _ Hd Hw1) by done. apply cursor_app, cursor_next in Hd. simpl.
  rewrite Nat.add_1_r with (n := d), (Hv fuel _ w2 r) by done. done.
Qed.

Lemma jm_last_complete d m lit w1 w2 w3 :
  string_lit lit (m_key m) → ws w1 → ws w2 → ws w3 → value_head (m_text m) →
  value_complete (S d) (m_text m) (m_bool m) →
  members_complete d [m] (lit ++ w1 ++ ":"%char :: w2 ++ m_text m ++ w3).
Proof.
  intros Hl Hw1 Hw2 Hw3 Hh Hv. split.
  { destruct (string_lit_head _ _ Hl) as [t ->]. simpl. eauto. }
  intros [|fuel] keys i w r Hd Hw Hf Hnd Hk; [lia|]. inversion Hk; subst.
  rewrite !length_app in Hf. simpl in Hf. rewrite !length_app in Hf.
  rewrite <-!app_assoc in Hd. simpl in Hd. rewrite <-!app_assoc in Hd.
  assert (Hj := Hd). apply cursor_app, cursor_app, cursor_app, cursor_next, cursor_app, cursor_app in Hj.
  destruct (after_value _ _ _ _ Hj Hw3) as (Hn & Hws & Hc & _); [set_solver|].
  rewrite (member_complete d fuel m lit keys i w w1 w2 (w3 ++ "}"%char :: r)); [|done..|lia|done].
  cbv zeta. rewrite Hws, Hc. rewrite decide_False, decide_True by done.
  rewrite !length_app. simpl. rewrite !length_app. f_equal. lia.
Qed.

Lemma jm_cons_complete d m lit w1 w2 w3 w4 ms s :
  string_lit lit (m_key m) → ws w1 → ws w2 → ws w3 → ws w4 → value_head (m_text m) →
  value_complete (S d) (m_text m) (m_bool m) → members_complete d ms s →
  members_complete d (m :: ms)
    (lit ++ w1 ++ ":"%char :: w2 ++ m_text m ++ w3 ++ ","%char :: w4 ++ s).
Proof.
  intros Hl Hw1 Hw2 Hw3 Hw4 Hh Hv [_ Hms]. split.
  { destruct (string_lit_head _ _ Hl) as [t ->]. simpl. eauto. }
  intros [|fuel] keys i w r Hd Hw Hf Hnd Hk; [lia|]. simpl in Hk. inversion Hk; subst.
  simpl in Hnd. apply NoDup_cons in Hnd as [Hm Hnd].
  rewrite !length_app in Hf. simpl in Hf. rewrite !length_app in Hf. simpl in Hf.
  rewrite length_app in Hf.
  rewrite <-!app_assoc in Hd. simpl in Hd. rewrite <-!app_assoc in Hd. simpl in Hd.
  rewrite <-!app_assoc in Hd.
  assert (Hj := Hd). apply cursor_app, cursor_app, cursor_app, cursor_next, cursor_app, cursor_app in Hj.
  destruct (after_value _ _ _ _ Hj Hw3) as (Hn & Hws & Hc & Hnext); [set_solver|].
  rewrite (member_complete d fuel m lit keys i w w1 w2 (w3 ++ ","%char :: w4 ++ s ++ "}"%char :: r));
    [|done..|lia|done].
  cbv zeta. rewrite Hws, Hc. rewrite decide_True by done.
  rewrite (Hms fuel _ _ w4 r); [|done|done|lia|done|].
  - rewrite !length_app. simpl. rewrite !length_app. simpl. rewrite length_app. f_equal. lia.
  - apply Forall_forall. intros k Hin. rewrite Forall_forall in H2. specialize (H2 k Hin).
    set_solver.
Qed.

Lemma je_last_complete d w1 v b w2 :
  ws w1 → ws w2 → value_head v → value_complete (S d) v b →
  elements_complete d (w1 ++ v ++ w2).
Proof.
  intros Hw1 Hw2 Hh Hv. exists w1, (v ++ w2). destruct Hh as (c & t & -> & Hcw & Hcn).
  split_and!; [done..|by eexists _, _|].
  intros [|fuel] i w r Hd Hw Hf; [lia|]. rewrite length_app in Hf. rewrite <-app_assoc in Hd.
  assert (Hj := Hd). apply cursor_app, cursor_app in Hj.
  destruct (after_value _ _ _ _ Hj Hw2) as (Hn & Hws & Hc & _); [set_solver|].
  simpl. rewrite Nat.add_1_r with (n := d), (Hv fuel _ w _ Hd Hw Hn) by lia.
  simpl in Hws, Hc |- *. rewrite Hws, Hc, decide_False, decide_True by done.
  rewrite length_app. f_equal. lia.
Qed.

Lemma je_cons_complete d w1 v b w2 s :
  ws w1 → ws w2 → value_head v → value_complete (S d) v b → elements_complete d s →
  elements_complete d (w1 ++ v ++ w2 ++ ","%char :: s).
Proof.
  intros Hw1 Hw2 Hh Hv (w3 & u & -> & Hw3 & _ & Hu). exists w1, (v ++ w2 ++ ","%char :: w3 ++ u).
  destruct Hh as (c & t & -> & Hcw & Hcn). split_and!; [done..|by eexists _, _|].
  intros [|fuel] i w r Hd Hw Hf; [lia|].
  rewrite !length_app in Hf. simpl in Hf. rewrite length_app in Hf.
  rewrite <-!app_assoc in Hd. simpl in Hd. rewrite <-!app_assoc in Hd.
  assert (Hj := Hd). apply (cursor_app _ _ w), (cursor_app _ _ (c :: t)) in Hj.
  destruct (after_value _ _ _ _ Hj Hw2) as (Hn & Hws & Hc & Hnext); [set_solver|].
  simpl. rewrite Nat.add_1_r with (n := d), (Hv fuel _ w _ Hd Hw Hn) by (simpl; lia).
  simpl in Hws, Hc, Hnext |- *. rewrite Hws, Hc, decide_True by done.
  rewrite (Hu fuel _ w3 r) by (done || lia).
  rewrite !length_app. simpl. rewrite length_app. f_equal. lia.
Qed.

Lemma grammar_complete :
  (∀ d s b, jvalue d s b → value_complete d s b) ∧
  (∀ d ms s, jmembers d ms s → members_complete d ms s) ∧
  (∀ d s, jelements d s → elements_complete d s).
Proof.
  apply json_mut; intros.
  - by eapply string_value_complete.
  - by apply literal_complete; [|vm_compute; set_solver].
  - by apply literal_complete; [|vm_compute; set_solver].
  - by apply literal_complete; [|vm_compute; set_solver].
  - by apply number_value_complete.
  - apply (object_complete d w []); auto.
  - apply object_complete; eauto.
  - apply (array_complete d w []); auto.
  - apply (array_complete d []); auto with luhmen.
  - apply jm_last_complete; eauto using jvalue_head.
  - apply jm_cons_complete; eauto using jvalue_head.
  - eapply je_last_complete; eauto using jvalue_head.
  - eapply je_cons_complete; eauto using jvalue_head.
Qed.

End complete.

(** ** [locate] on documents *)

Lemma locate_members_sound data wanted fuel keys found i found' e :
  locate_members fuel data wanted keys found i = Ok (found', e) →
  ∃ w ms s, ws w ∧ jmembers 0 ms s ∧ NoDup (map m_key ms) ∧
    Forall (λ k, k ∉ keys) (map m_key ms) ∧ reads data i (w ++ s) e ∧ data !! e = Some "}"%char.
Proof.
  revert keys found i. induction fuel as [|fuel IH]; intros keys found i H; [done|].
  simpl in H. result_inv. destruct x as [k i1]. result_inv. destruct x1 as [b i3]. revert H3.
  destruct (reads_whitespace data x0) as (w2 & Hw2 & Hr2).
  destruct (reads_whitespace data i3) as (w3 & Hw3 & Hr3).
  revert Hr3. generalize (Json.whitespace data i3) as j. intros j Hr3 H3.
  apply string_reads in H as (w & lit & Hw & Hl & Hrl).
  apply bool_decide_eq_true in H0. apply byte_sound in H1 as (w1 & Hw1 & Hr1).
  apply scan_sound in H2 as (w2' & v & Hw2' & Hv & Hrv).
  destruct (data !! j) as [c|] eqn:Hc; [|done]. assert (Hrc := Hc). apply reads_byte in Hrc.
  set (m := Member k v b).
  pose proof (reads_app _ _ _ _ _ _ Hrl (reads_app _ _ _ _ _ _ Hr1 (reads_app _ _ _ _ _ _ Hr2
    (reads_app _ _ _ _ _ _ Hrv Hr3)))) as HR.
  exists w. case_decide; [subst c|].
  - apply IH in H3 as (w4 & ms & s & Hw4 & Hms & Hnd & Hk & Hrm & He).
    exists (m :: ms), (lit ++ w1 ++ ":"%char :: (w2 ++ w2') ++ v ++ w3 ++ ","%char :: w4 ++ s).
    split_and!; [done|by apply (jm_cons 0 m); auto with luhmen|..|done].
    + simpl. constructor; [|done]. intros Hin. rewrite Forall_forall in Hk.
      apply (Hk k); [done|set_solver].
    + simpl. constructor; [done|]. eapply Forall_impl; [done|]. simpl. set_solver.
    + pose proof (reads_app _ _ _ _ _ _ (reads_app _ _ _ _ _ _ HR Hrc) Hrm) as HR'. reads_by HR'.
  - case_decide; [subst c|done]. result_inv.
    exists [m], (lit ++ w1 ++ ":"%char :: (w2 ++ w2') ++ v ++ w3).
    split_and!; [done|by apply (jm_last 0 m); auto with luhmen|by apply NoDup_singleton
      |by constructor| |done]. reads_by HR.
Qed.

(** A member of [ms] in the text [s]: what stands before and after its value, and that any value
    may stand there. *)
Definition member_at (ms : list member) (s : bytes)
    (ms1 : list member) (m : member) (ms2 : list member) (s1 s2 : bytes) : Prop :=
  ms = ms1 ++ m :: ms2 ∧ s = s1 ++ m_text m ++ s2 ∧
  ∀ v b, jvalue 1 v b → jmembers 0 (ms1 ++ Member (m_key m) v b :: ms2) (s1 ++ v ++ s2).

(** The value of [wanted] that [locate] reports when the member loop starts at [i]. *)
Inductive located (wanted : scalars) (ms : list member) (s : bytes) (i : nat)
    (found : option LocatedValue) : option LocatedValue → Prop :=
| located_none : wanted ∉ map m_key ms → located wanted ms s i found found
| located_some ms1 m ms2 s1 s2 :
    member_at ms s ms1 m ms2 s1 s2 → m_key m = wanted →
    located wanted ms s i found
      (Some {| start := i + length s1; end_ := i + length s1 + length (m_text m);
               boolean := m_bool m |}).

(** The scan of one member by [locate]: its key, and the position and boolean of its value. *)
Lemma locate_member data m lit i w w1 w2 r :
  string_lit lit (m_key m) → ws w → ws w1 → ws w2 → jvalue 1 (m_text m) (m_bool m) →
  no_head number_byte r →
  drop i data = w ++ lit ++ w1 ++ ":"%char :: w2 ++ m_text m ++ r →
  let p := i + length w + length lit + length w1 + 1 + length w2 in
  Json.string data i = Ok (m_key m, i + length w + length lit) ∧
  Json.byte data (i + length w + length lit) ":"%char = Ok (i + length w + length lit + length w1 + 1) ∧
  Json.whitespace data (i + length w + length lit + length w1 + 1) = p ∧
  Json.value (document_fuel data) data 1 p = Ok (m_bool m, p + length (m_text m)) ∧
  drop (p + length (m_text m)) data = r.
Proof.
  intros Hl Hw Hw1 Hw2 Hv Hr Hd p. split; [by eapply string_complete|].
  apply cursor_app, cursor_app in Hd. split; [by eapply byte_complete|].
  apply cursor_app, cursor_next in Hd.
  destruct (jvalue_head _ _ _ Hv) as (c & t & Et & Hc & _).
  split; [rewrite (whitespace_complete _ _ _ _ Hd Hw2); [done|by rewrite Et]|].
  apply cursor_app in Hd. fold p in Hd. pose proof (cursor_length _ _ _ Hd) as Hlen.
  rewrite length_app in Hlen. split; [|by apply cursor_app in Hd].
  apply (grammar_complete data) in Hv. rewrite (Hv _ p [] r Hd ws_nil Hr); [simpl; do 2 f_equal; lia|].
  assert (m_text m ++ r ≠ []) as Hne by (by rewrite Et). specialize (Hlen Hne).
  unfold document_fuel. lia.
Qed.

(** One round of the member loop of [locate]. *)
Lemma locate_members_step data wanted fuel keys found i k i1 i2 p b e :
  Json.string data i = Ok (k, i1) → Json.byte data i1 ":"%char = Ok i2 →
  Json.whitespace data i2 = p → Json.value (document_fuel data) data 1 p = Ok (b, e) → k ∉ keys →
  locate_members (S fuel) data wanted keys found i =
    let found := if decide (k = wanted)
                 then Some {| start := p; end_ := e; boolean := b |} else found in
    let at_ := Json.whitespace data e in
    match data !! at_ with
    | Some c =>
        if decide (c = ","%char) then locate_members fuel data wanted ({[k]} ∪ keys) found (at_ + 1)
        else if decide (c = "}"%char) then Ok (found, at_)
        else Err "invalid JSON object"
    | None => Err "invalid JSON object"
    end.
Proof.
  intros Hs Hb Hw Hv Hk. cbn [locate_members]. rewrite Hs. cbn [mbind result_bind].
  rewrite bool_decide_eq_true_2 by done. cbn [mbind result_bind ensure]. rewrite Hb.
  cbn [mbind result_bind]. rewrite Hw, Hv. done.
Qed.

Lemma member_at_cons ms s ms1 m ms2 s1 s2 m0 lit w1 w2 w3 w4 :
  string_lit lit (m_key m0) → ws w1 → ws w2 → ws w3 → ws w4 →
  jvalue 1 (m_text m0) (m_bool m0) → member_at ms s ms1 m ms2 s1 s2 →
  member_at (m0 :: ms) (lit ++ w1 ++ ":"%char :: w2 ++ m_text m0 ++ w3 ++ ","%char :: w4 ++ s)
    (m0 :: ms1) m ms2 (lit ++ w1 ++ ":"%char :: w2 ++ m_text m0 ++ w3 ++ ","%char :: w4 ++ s1) s2.
Proof.
  intros ? ? ? ? ? ? (-> & -> & Hrep). split_and!; [done| |].
  - by repeat (rewrite <-app_assoc || simpl).
  - intros v b Hv. repeat (rewrite <-app_assoc || simpl). apply jm_cons; auto.
Qed.

(** The reports for the first member, with [p] the position of its value. *)
Lemma located_last wanted m lit w1 w2 w3 i p found :
  string_lit lit (m_key m) → ws w1 → ws w2 → ws w3 → p = i + length lit + length w1 + 1 + length w2 →
  located wanted [m] (lit ++ w1 ++ ":"%char :: w2 ++ m_text m ++ w3) i found
    (if decide (m_key m = wanted)
     then Some {| start := p; end_ := p + length (m_text m); boolean := m_bool m |} else found).
Proof.
  intros Hl Hw1 Hw2 Hw3 Hp. case_decide as Hwt; [|apply located_none; set_solver].
  set (s1 := lit ++ w1 ++ ":"%char :: w2).
  assert (p = i + length s1) as -> by (unfold s1; repeat (rewrite length_app || simpl); lia).
  apply (located_some _ _ _ _ _ [] m [] s1 w3); [|done]. split_and!; [done|unfold s1..].
  - by repeat (rewrite <-app_assoc || simpl).
  - intros v b Hv. repeat (rewrite <-app_assoc || simpl). by apply (jm_last 0 (Member _ v b)).
Qed.

Lemma located_cons wanted m lit w1 w2 w3 w4 ms s i p found found' :
  string_lit lit (m_key m) → ws w1 → ws w2 → ws w3 → ws w4 → jvalue 1 (m_text m) (m_bool m) →
  jmembers 0 ms s → m_key m ∉ map m_key ms →
  p = i + length lit + length w1 + 1 + length w2 →
  located wanted ms s (p + length (m_text m) + length w3 + 1 + length w4)
    (if decide (m_key m = wanted)
     then Some {| start := p; end_ := p + length (m_text m); boolean := m_bool m |} else found)
    found' →
  located wanted (m :: ms) (lit ++ w1 ++ ":"%char :: w2 ++ m_text m ++ w3 ++ ","%char :: w4 ++ s)
    i found found'.
Proof.
  intros Hl Hw1 Hw2 Hw3 Hw4 Hv Hms Hm Hp [Hnone|ms1 m' ms2 s1 s2 Hat Hkey].
  - case_decide as Hwt; [|apply located_none; set_solver].
    set (s1 := lit ++ w1 ++ ":"%char :: w2).
    assert (p = i + length s1) as -> by (unfold s1; repeat (rewrite length_app || simpl); lia).
    apply (located_some _ _ _ _ _ [] m ms s1 (w3 ++ ","%char :: w4 ++ s)); [|done].
    split_and!; [done|unfold s1..].
    + by repeat (rewrite <-app_assoc || simpl).
    + intros v b Hvb. repeat (rewrite <-app_assoc || simpl). by apply (jm_cons 0 (Member _ v b)).
  - set (s0 := lit ++ w1 ++ ":"%char :: w2 ++ m_text m ++ w3 ++ ","%char :: w4).
    assert (p + length (m_text m) + length w3 + 1 + length w4 + length s1 = i + length (s0 ++ s1))
      as -> by (unfold s0; repeat (rewrite length_app || simpl); lia).
    apply (located_some _ _ _ _ _ (m :: ms1) m' ms2 _ s2); [|done].
    unfold s0. repeat (rewrite <-app_assoc || simpl). by apply member_at_cons.
Qed.

(** One member and the white space after its value, as [locate] scans them. *)
Lemma locate_members_member data wanted fuel keys found i w lit w1 w2 m w3 c r :
  string_lit lit (m_key m) → ws w → ws w1 → ws w2 → ws w3 → jvalue 1 (m_text m) (m_bool m) →
  drop i data = w ++ lit ++ w1 ++ ":"%char :: w2 ++ m_text m ++ w3 ++ c :: r →
  m_key m ∉ keys → c ∈ [","; "}"; "]"]%char →
  let p := i + length w + length lit + length w1 + 1 + length w2 in
  let e := p + length (m_text m) + length w3 in
  let found1 := if decide (m_key m = wanted)
    then Some {| start := p; end_ := p + length (m_text m); boolean := m_bool m |} else found in
  drop (e + 1) data = r ∧
  locate_members (S fuel) data wanted keys found i =
    if decide (c = ","%char) then locate_members fuel data wanted ({[m_key m]} ∪ keys) found1 (e + 1)
    else if decide (c = "}"%char) then Ok (found1, e)
    else Err "invalid JSON object".
Proof.
  intros Hl Hw Hw1 Hw2 Hw3 Hv Hd Hk Hc p e found'.
  assert (drop (p + length (m_text m)) data = w3 ++ c :: r) as Hafter
    by (by apply cursor_app, cursor_app, cursor_app, cursor_next, cursor_app, cursor_app in Hd).
  destruct (after_value _ _ _ _ _ Hafter Hw3 Hc) as (Hn & Hws & Hl' & Hnext).
  destruct (locate_member _ _ _ _ _ _ _ _ Hl Hw Hw1 Hw2 Hv Hn Hd) as (E1 & E2 & E3 & E4 & _).
  split; [done|]. rewrite (locate_members_step _ _ _ _ found _ _ _ _ _ _ _ E1 E2 E3 E4) by done.
  cbv zeta. fold p. by rewrite Hws, Hl'.
Qed.

Lemma locate_members_complete data wanted ms s :
  jmembers 0 ms s → ∀ fuel keys found i w r,
  drop i data = w ++ s ++ "}"%char :: r → ws w → length s < fuel →
  NoDup (map m_key ms) → Forall (λ k, k ∉ keys) (map m_key ms) →
  ∃ found', located wanted ms s (i + length w) found found' ∧
    locate_members fuel data wanted keys found i = Ok (found', i + length w + length s).
Proof.
  remember 0 as d. induction 1 as [d m lit w1 w2 w3 Hl Hw1 Hw2 Hw3 Hv
    |d m lit w1 w2 w3 w4 ms s Hl Hw1 Hw2 Hw3 Hw4 Hv Hms IH]; subst d;
    intros [|fuel] keys found i w r Hd Hw Hf Hnd Hk; try lia; simpl in Hk; inversion Hk; subst;
    repeat (rewrite <-app_assoc in Hd || simpl in Hd).
  - destruct (locate_members_member data wanted fuel keys found i w lit w1 w2 m w3 "}" r)
      as [_ ->]; [done..|set_solver|]. rewrite decide_False, decide_True by done.
    eexists. split; [by apply located_last|].
    f_equal. f_equal. repeat (rewrite length_app || simpl). lia.
  - destruct (locate_members_member data wanted fuel keys found i w lit w1 w2 m w3 ","
      (w4 ++ s ++ "}"%char :: r)) as [Hnext ->]; [done..|set_solver|]. rewrite decide_True by done.
    simpl in Hnd. apply NoDup_cons in Hnd as [Hm Hnd].
    edestruct (IH eq_refl fuel ({[m_key m]} ∪ keys)) as (found' & Hloc & E);
      [exact Hnext|exact Hw4|..|done| |rewrite E].
    { repeat (rewrite length_app in Hf || simpl in Hf). lia. }
    { apply Forall_forall. intros k Hin. rewrite Forall_forall in H2. specialize (H2 k Hin).
      set_solver. }
    exists found'. split; [by eapply located_cons|].
    f_equal; f_equal; repeat (rewrite length_app || simpl); lia.
Qed.

Lemma jmembers_head d ms s : jmembers d ms s → ms ≠ [] ∧ ∃ r, s = "034"%char :: r.
Proof.
  destruct 1 as [? ? ? ? ? ? Hl|? ? ? ? ? ? ? ? ? Hl];
    destruct (string_lit_head _ _ Hl) as [r ->]; (split; [done|simpl; eauto]).
Qed.

Lemma bool_decide_nonempty {A} (l : list A) : l ≠ [] → bool_decide (l ≠ []) = true.
Proof. apply bool_decide_eq_true_2. Qed.

(** On a document [locate] returns the value of the wanted member, the position of the closing
    brace, and whether there are members. *)
Lemma locate_framed data ms pre body post wanted :
  framed data ms pre body post →
  ∃ found, located wanted ms body (length pre) None found ∧
    locate data wanted = Ok (found, length pre + length body, match ms with [] => false | _ => true end).
Proof.
  intros (Hdata & (w0 & w1 & -> & Hw0 & Hw1) & Hpost & Hnd & Hms). unfold locate.
  assert (Hd : drop 0 data = w0 ++ "{"%char :: w1 ++ body ++ "}"%char :: post)
    by (rewrite drop_0, Hdata, <-app_assoc; done).
  rewrite (byte_complete _ _ _ _ _ Hd Hw0) by done. simpl. apply cursor_app, cursor_next in Hd.
  change (0 + length w0 + 1) with (length w0 + 1) in Hd.
  assert (Hend : ∀ j, drop j data = "}"%char :: post →
    Json.byte data j "}"%char = Ok (j + 1) ∧ Json.whitespace data (j + 1) = length data).
  { intros j Hj. rewrite (byte_complete _ _ [] _ _ Hj) by (constructor || done).
    pose proof (cursor_length _ _ _ Hj ltac:(done)) as Hlen. apply cursor_next in Hj.
    rewrite (whitespace_complete _ _ post []); [|by rewrite app_nil_r|done|done].
    split; [f_equal|]; simpl in *; lia. }
  rewrite length_app. simpl. destruct Hms as [[-> ->]|Hms].
  - destruct (value_position data _ w1 "}" post Hd Hw1) as (Hws & Hcur & Hc); [done|].
    destruct (Hend _ Hcur) as [Hb Hl]. exists None. split; [by apply located_none, not_elem_of_nil|].
    rewrite Hws, decide_True by done. simpl. rewrite Hb. simpl.
    rewrite Hl, bool_decide_eq_true_2 by done. simpl. f_equal. f_equal. f_equal. lia.
  - destruct (jmembers_head _ _ _ Hms) as [Hne [r Er]].
    assert (Hd' := Hd). rewrite Er in Hd'.
    destruct (value_position data _ w1 _ _ Hd' Hw1) as (Hws & _ & Hc); [done|].
    rewrite Hws, Hc, decide_False by done. apply cursor_app in Hd.
    destruct (locate_members_complete data wanted ms body Hms (document_fuel data) ∅ None _ []
      post Hd ws_nil) as (found & Hloc & E); [|done| |].
    { pose proof (cursor_length _ _ _ Hd) as Hl. rewrite length_app in Hl. rewrite Er in *.
      specialize (Hl ltac:(done)). unfold document_fuel. lia. }
    { apply Forall_forall. set_solver. }
    rewrite E. simpl in *. rewrite Nat.add_0_r in *. exists found. split.
    { by replace (length w0 + S (length w1)) with (length w0 + 1 + length w1) by lia. }
    apply cursor_app in Hd. destruct (Hend _ Hd) as [Hb Hl]. rewrite Hb. simpl.
    rewrite Hl, bool_decide_eq_true_2 by done. simpl. destruct ms; [done|]. do 3 f_equal. lia.
Qed.

Lemma locate_sound data wanted r : locate data wanted = Ok r → ∃ ms, document data ms.
Proof.
  unfold locate. destruct (Json.byte data 0 "{") as [i|] eqn:Hb; [|done]. simpl.
  apply byte_sound in Hb as (w0 & Hw0 & Hr0).
  destruct (reads_whitespace data i) as (w1 & Hw1 & Hr1).
  intros H. apply bind_Ok in H as ([[found any] j] & Hbody & H). result_inv.
  apply byte_sound in H as (w2 & Hw2 & Hr2). apply bool_decide_eq_true in H0.
  destruct (reads_whitespace data x) as (w3 & Hw3 & Hr3). rewrite H0 in Hr3.
  assert (∃ ms w body, reads data (Json.whitespace data i) (w ++ body) j ∧ ws w ∧
    NoDup (map m_key ms) ∧ data !! j = Some "}"%char ∧ (ms = [] ∧ body = [] ∨ jmembers 0 ms body))
    as (ms & w & body & Hrb & Hw & Hnd & Hj & Hms).
  { case_decide as Hc.
    - injection Hbody as <- <- <-. exists [], [], []. split_and!; auto using reads_nil with luhmen.
      constructor.
    - apply bind_Ok in Hbody as ([f e] & Hl & [= <- <- <-]).
      apply locate_members_sound in Hl as (w & ms & s & ? & ? & ? & _ & ? & ?).
      exists ms, w, s. split_and!; auto. }
  assert (w2 = []) as ->.
  { destruct w2 as [|c w2]; [done|]. destruct Hr2 as [Hr2 _].
    rewrite (lookup_cursor _ _ _ Hj) in Hr2. injection Hr2 as <- _. by inversion Hw2. }
  pose proof (reads_app _ _ _ _ _ _ Hr0 (reads_app _ _ _ _ _ _ Hr1 (reads_app _ _ _ _ _ _ Hrb
    (reads_app _ _ _ _ _ _ Hr2 Hr3)))) as [HR _].
  rewrite drop_0, (drop_ge _ (length data)), app_nil_r in HR by done.
  exists ms, (w0 ++ "{"%char :: w1 ++ w), body, w3. split_and!; auto.
  - rewrite HR. by repeat (rewrite <-app_assoc || simpl).
  - exists w0, (w1 ++ w). auto with luhmen.
Qed.

(** C19. [locate] succeeds exactly on the documents of the grammar: one JSON object with distinct
    keys, white space around it, nothing after it, and nesting of at most 64 levels. *)
Theorem locate_accepts data wanted :
  (∃ r, locate data wanted = Ok r) ↔ ∃ ms, document data ms.
Proof.
  split; [intros [r H]; by eapply locate_sound|].
  intros (ms & pre & body & post & (found & _ & ->)%(locate_framed _ _ _ _ _ wanted)). eauto.
Qed.

(** The first member with a key; in a document it is the only one. *)
Definition member_of (key : scalars) (ms : list member) : option member :=
  find (λ m, bool_decide (m_key m = key)) ms.

Lemma member_of_None key ms : key ∉ map m_key ms → member_of key ms = None.
Proof.
  induction ms as [|m ms IH]; simpl; intros Hk; [done|].
  rewrite bool_decide_eq_false_2 by set_solver. apply IH. set_solver.
Qed.

Lemma member_of_app key ms1 m ms2 :
  NoDup (map m_key (ms1 ++ m :: ms2)) →
  member_of key (ms1 ++ m :: ms2) = if decide (m_key m = key) then Some m else member_of key (ms1 ++ ms2).
Proof.
  induction ms1 as [|m1 ms1 IH]; simpl; intros Hnd.
  - case_bool_decide; by case_decide.
  - apply NoDup_cons in Hnd as [Hm1 Hnd]. case_bool_decide as E; [|by rewrite IH].
    rewrite decide_False; [done|]. intros E'. apply Hm1. rewrite map_app, E, <-E'. simpl. set_solver.
Qed.

(** [boolean_field] reads the boolean of the member with the key, anywhere in the document,
    reports a missing member as [None] and a member of another type as an error. *)
Theorem boolean_field_spec data ms key :
  document data ms →
  boolean_field data key =
    match member_of key ms with
    | None => Ok None
    | Some m => match m_bool m with
                | Some b => Ok (Some b)
                | None => Err "Docker key must be a boolean"
                end
    end.
Proof.
  intros (pre & body & post & Hf). unfold boolean_field.
  destruct (locate_framed _ _ _ _ _ key Hf) as (found & Hloc & ->). simpl.
  destruct Hf as (_ & _ & _ & Hnd & _).
  destruct Hloc as [Hnone|ms1 m ms2 s1 s2 (-> & _) Hkey]; [by rewrite member_of_None|].
  rewrite member_of_app, decide_True by done. simpl. by destruct (m_bool m).
Qed.

(** ** The configuration edit *)

Definition live_restore_key : scalars := key_of "live-restore".

(** The members of the edited document: [live-restore] is false, at its place or at the end. *)
Fixpoint disable (ms : list member) : list member :=
  match ms with
  | [] => [Member live_restore_key (str "false") (Some false)]
  | m :: ms =>
      if decide (m_key m = live_restore_key)
      then Member live_restore_key (str "false") (Some false) :: ms
      else m :: disable ms
  end.

Lemma disable_absent ms :
  live_restore_key ∉ map m_key ms →
  disable ms = ms ++ [Member live_restore_key (str "false") (Some false)].
Proof.
  induction ms as [|m ms IH]; intros Hk; [done|]. simpl in Hk |- *.
  rewrite decide_False by set_solver. f_equal. apply IH. set_solver.
Qed.

Lemma disable_present ms1 m ms2 :
  NoDup (map m_key (ms1 ++ m :: ms2)) → m_key m = live_restore_key →
  disable (ms1 ++ m :: ms2) = ms1 ++ Member live_restore_key (str "false") (Some false) :: ms2.
Proof.
  intros Hnd Hk. induction ms1 as [|m1 ms1 IH]; simpl; [by rewrite decide_True|].
  simpl in Hnd. apply NoDup_cons in Hnd as [Hm1 Hnd]. rewrite IH, decide_False; [done| |done].
  intros E. apply Hm1. rewrite map_app, E, <-Hk. simpl. set_solver.
Qed.

Lemma member_of_cons key m ms :
  member_of key (m :: ms) = if decide (m_key m = key) then Some m else member_of key ms.
Proof. unfold member_of. simpl. case_bool_decide; by case_decide. Qed.

Lemma member_of_disable key ms :
  member_of key (disable ms) =
    if decide (key = live_restore_key) then Some (Member live_restore_key (str "false") (Some false))
    else member_of key ms.
Proof.
  induction ms as [|m ms IH]; [|cbn [disable]].
  - cbn [disable]. rewrite member_of_cons. simpl. repeat case_decide; congruence.
  - destruct (decide (m_key m = live_restore_key)) as [Hm|Hm]; rewrite !member_of_cons;
      [cbn [m_key]; rewrite Hm|rewrite IH]; repeat case_decide; congruence.
Qed.

Definition live_restore_lit : bytes := "034"%char :: str "live-restore" ++ ["034"%char].

Lemma live_restore_string : string_lit live_restore_lit live_restore_key.
Proof.
  exists (str "live-restore"). split_and!; [done| |done].
  repeat (apply body_plain; [done|done|by vm_compute|]). constructor.
Qed.

Lemma jmembers_snoc d ms s m lit :
  jmembers d ms s → string_lit lit (m_key m) → jvalue (S d) (m_text m) (m_bool m) →
  jmembers d (ms ++ [m]) (s ++ ","%char :: lit ++ ":"%char :: m_text m).
Proof.
  intros Hms Hl Hv.
  assert (jmembers d [m] (lit ++ ":"%char :: m_text m)) as Hlast.
  { pose proof (jm_last d m lit [] [] [] Hl ws_nil ws_nil ws_nil Hv) as H.
    by rewrite app_nil_r in H. }
  induction Hms as [d m0 lit0 w1 w2 w3|d m0 lit0 w1 w2 w3 w4 ms s];
    repeat (rewrite <-app_assoc || simpl).
  - by apply (jm_cons d m0 lit0 w1 w2 w3 []); auto with luhmen.
  - apply jm_cons; auto.
Qed.

Lemma jmembers_present ms s ms1 m ms2 s1 s2 v b :
  member_at ms s ms1 m ms2 s1 s2 → jvalue 1 v b →
  jmembers 0 (ms1 ++ Member (m_key m) v b :: ms2) (s1 ++ v ++ s2).
Proof. intros (_ & _ & H). apply H. Qed.

Lemma NoDup_replace (ms1 ms2 : list member) m v b :
  NoDup (map m_key (ms1 ++ m :: ms2)) →
  NoDup (map m_key (ms1 ++ Member (m_key m) v b :: ms2)).
Proof. by rewrite !map_app. Qed.

(** The document [disabled_config] builds around the old text. *)
Lemma disabled_config_replace data ms pre body post ms1 m ms2 s1 s2 :
  framed data ms pre body post → member_at ms body ms1 m ms2 s1 s2 →
  m_key m = live_restore_key →
  let p := length pre + length s1 in
  framed (take p data ++ str "false" ++ drop (p + length (m_text m)) data)
    (disable ms) pre (s1 ++ str "false" ++ s2) post.
Proof.
  intros (Hdata & Hpre & Hpost & Hnd & Hms) Hat Hk p. pose proof Hat as (Ems & Ebody & _).
  assert (data = (pre ++ s1) ++ m_text m ++ s2 ++ "}"%char :: post) as Ed
    by (rewrite Hdata, Ebody; by repeat (rewrite <-app_assoc || simpl)).
  assert (p = length (pre ++ s1)) as -> by (unfold p; by rewrite length_app).
  split_and!; [|done..| |right].
  - rewrite Ed, take_app_length, drop_app_add', drop_app_length by done.
    by repeat (rewrite <-app_assoc || simpl).
  - subst ms. rewrite disable_present, <-Hk by done. by eapply NoDup_replace.
  - subst ms. rewrite disable_present, <-Hk by done. eapply jmembers_present; [done|].
    by apply jv_false; lia.
Qed.

Lemma disabled_config_append data ms pre body post :
  framed data ms pre body post → live_restore_key ∉ map m_key ms →
  let close := length pre + length body in
  framed (take close data ++ (if match ms with [] => false | _ => true end then str "," else [])
            ++ live_restore_lit ++ str ":false" ++ drop close data)
    (disable ms) pre
    (body ++ (if match ms with [] => false | _ => true end then str "," else [])
       ++ live_restore_lit ++ str ":false") post.
Proof.
  intros (Hdata & Hpre & Hpost & Hnd & Hms) Hk close.
  assert (data = (pre ++ body) ++ "}"%char :: post) as Ed by (by rewrite Hdata, <-app_assoc).
  assert (close = length (pre ++ body)) as -> by (unfold close; by rewrite length_app).
  assert (jvalue 1 (str "false") (Some false)) as Hv by (apply jv_false; lia).
  pose proof live_restore_string as Hl.
  rewrite disable_absent by done. split_and!; [|done..| |right].
  - rewrite Ed, take_app_length, drop_app_length. by repeat (rewrite <-app_assoc || simpl).
  - rewrite map_app. apply NoDup_app. split_and!; [done| |apply NoDup_singleton].
    intros k Hin ->%list_elem_of_singleton. done.
  - destruct Hms as [[-> ->]|Hms].
    + pose proof (jm_last 0 (Member live_restore_key (str "false") (Some false)) live_restore_lit
        [] [] [] Hl ws_nil ws_nil ws_nil Hv) as H. by rewrite app_nil_r in H.
    + destruct (jmembers_head _ _ _ Hms) as [Hne _].
      pose proof (jmembers_snoc 0 ms body (Member live_restore_key (str "false") (Some false))
        live_restore_lit Hms Hl Hv) as H. by destruct ms.
Qed.

(** What [disabled_config] does with the result of [locate], before the size limit. *)
Lemma disabled_config_edit data ms :
  document data ms →
  (∃ m, member_of live_restore_key ms = Some m ∧ m_bool m = None ∧
     disabled_config data = Err "Docker live-restore must be a boolean") ∨
  (∃ data', document data' (disable ms) ∧ (len data' <= len data + 21)%Z ∧
     disabled_config data = (_ ← ensure (len data' <=? LIMIT)%Z
                                  "Temporary Docker configuration exceeds 1 MiB"; Ok data')).
Proof.
  intros (pre & body & post & Hf). unfold disabled_config.
  change (key_of "live-restore") with live_restore_key.
  destruct (locate_framed _ _ _ _ _ live_restore_key Hf) as (found & Hloc & ->). simpl.
  destruct Hloc as [Hnone|ms1 m ms2 s1 s2 Hat Hkey].
  - right. set (close := length pre + length body).
    exists (take close data ++ (if match ms with [] => false | _ => true end then str "," else [])
            ++ live_restore_lit ++ str ":false" ++ drop close data).
    split; [|split; [|reflexivity]].
    + eexists _, _, _. by apply (disabled_config_append data ms pre body post).
    + unfold len. rewrite !length_app, length_take, length_drop.
      change (length live_restore_lit) with 14. change (length (str ":false")) with 6.
      change (length (str ",")) with 1. destruct ms; simpl; lia.
  - simpl. pose proof Hf as (_ & _ & _ & Hnd & _). pose proof Hat as (Ems & Ebody & _).
    destruct (m_bool m) as [b|] eqn:Hb; simpl.
    + right. set (p := length pre + length s1).
      exists (take p data ++ str "false" ++ drop (p + length (m_text m)) data).
      split; [|split; [|reflexivity]].
      * eexists _, _, _. by apply (disabled_config_replace data ms pre body post ms1 m ms2 s1 s2).
      * unfold len. rewrite !length_app, length_take, length_drop.
        change (length (str "false")) with 5. lia.
    + left. exists m. split_and!; [|done..]. subst ms. by rewrite member_of_app, decide_True.
Qed.

(** C18. The edit of a valid document (an object with distinct keys) fails only if [live-restore] is
    not a boolean or the document is within 21 bytes of 1 MiB. Otherwise the result has the same
    members, in the same order and with the same text, except that [live-restore] is false. *)
Theorem disabled_config_spec data ms :
  document data ms →
  match disabled_config data with
  | Ok data' => document data' (disable ms) ∧ (len data' <= LIMIT)%Z
  | Err _ => (∃ m, member_of live_restore_key ms = Some m ∧ m_bool m = None) ∨
             (LIMIT < len data + 21)%Z
  end.
Proof.
  intros [(m & Hm & Hb & ->)|(data' & Hd & Hl & ->)]%disabled_config_edit; [left; eauto|].
  destruct (Z.leb_spec (len data') LIMIT); simpl; [done|right; lia].
Qed.

Lemma disabled_config_document data data' :
  disabled_config data = Ok data' → ∃ ms, document data ms ∧ document data' (disable ms).
Proof.
  intros H. pose proof H as H'. unfold disabled_config in H'. result_inv.
  apply locate_sound in H0 as [ms Hd]. exists ms. split; [done|].
  destruct (disabled_config_edit _ _ Hd) as [(? & _ & _ & E)|(d & Hd' & _ & E)];
    rewrite E in H; [done|]. by result_inv.
Qed.

(** After a successful edit [live-restore] reads as false, and every other key reads as
    before. *)
Theorem disabled_config_fields data data' key :
  disabled_config data = Ok data' →
  boolean_field data' key =
    if decide (key = live_restore_key) then Ok (Some false) else boolean_field data key.
Proof.
  intros (ms & Hd & Hd')%disabled_config_document.
  rewrite (boolean_field_spec _ _ _ Hd'), (boolean_field_spec _ _ _ Hd), member_of_disable.
  by case_decide.
Qed.

(** Concrete documents for the witnesses. *)
Definition sample_config : bytes :=
  str "{ " ++ "034"%char :: str "debug" ++ "034"%char :: str ": true, "
  ++ live_restore_lit ++ str " : true }".

Lemma boolean_field_spec_witness :
  ∃ ms, document sample_config ms ∧ boolean_field sample_config live_restore_key = Ok (Some true) ∧
  boolean_field sample_config live_restore_key =
    match member_of live_restore_key ms with
    | None => Ok None
    | Some m => match m_bool m with
                | Some b => Ok (Some b)
                | None => Err "Docker key must be a boolean"
                end
    end.
Proof.
  assert (∃ ms, document sample_config ms) as [ms Hms]
    by (apply (locate_sound _ live_restore_key (default (None, 0, false)
          (match locate sample_config live_restore_key with Ok r => Some r | Err _ => None end)));
        vm_compute; reflexivity).
  exists ms. split; [exact Hms|]. split; [vm_compute; reflexivity|].
  exact (boolean_field_spec _ _ live_restore_key Hms).
Defined.

Lemma disabled_config_spec_witness :
  ∃ ms, document (str "{}") ms ∧
  match disabled_config (str "{}") with
  | Ok data' => document data' (disable ms) ∧ (len data' <= LIMIT)%Z
  | Err _ => (∃ m, member_of live_restore_key ms = Some m ∧ m_bool m = None) ∨
             (LIMIT < len (str "{}") + 21)%Z
  end.
Proof.
  exists []. assert (document (str "{}") []) as Hd.
  { exists (str "{"), [], []. split; [reflexivity|]. split; [exists [], []; auto with luhmen|].
    split; [constructor|]. split; [constructor|auto]. }
  split; [exact Hd|]. exact (disabled_config_spec _ _ Hd).
Defined.

Lemma disabled_config_fields_witness :
  let data' := match disabled_config sample_config with Ok d => d | Err _ => [] end in
  disabled_config sample_config = Ok data' ∧
  boolean_field data' live_restore_key = Ok (Some false) ∧
  boolean_field data' (key_of "debug") = Ok (Some true).
Proof.
  intros data'. assert (disabled_config sample_config = Ok data') as E by (vm_compute; reflexivity).
  split; [exact E|].
  split; [exact (disabled_config_fields _ _ live_restore_key E)|].
  transitivity (boolean_field sample_config (key_of "debug")); [|vm_compute; reflexivity].
  exact (disabled_config_fields _ _ (key_of "debug") E).
Defined.
