(* ===== verification/Fs.v ===== *)
(** * File-system effects

    The modules that edit files (the guest helper, the configuration and the
    runtime state) are run against an environment that decides the fate of every
    call: it succeeds, fails with an error, or the process dies there. Other
    processes may change files before each call. A program is a function from a
    world to an outcome and a world; [Halt] is the death of the process, and no
    cleanup code runs after it.

    A name maps to its contents, so two names of one inode are two copies. The
    code never writes through a name it has linked elsewhere. What survives a
    power failure without [fsync] is not modelled: death is that of the process. *)

From S2P Require Import Prelude Text.

Abbreviation path := bytes.

(** ** Files *)

Record meta := Meta { uid : Z; gid : Z; perm : Z }.

#[export] Instance meta_eq_dec : EqDecision meta.
Proof. solve_decision. Defined.

(** What a symbolic link leads to, in the end. *)
Inductive target := Nowhere | ToFile (data : bytes) (m : meta) | ToDirectory (m : meta) | ToSpecial.
#[export] Instance target_eq_dec : EqDecision target.
Proof. solve_decision. Defined.

Inductive node :=
| File (data : bytes) (m : meta)
| Directory (m : meta)
| Symlink (to : target)
| Special.

#[export] Instance node_eq_dec : EqDecision node.
Proof. solve_decision. Defined.

#[local] Instance path_eq_dec : EqDecision path := _.
#[local] Instance path_countable : Countable path := _.
Abbreviation files := (@gmap path path_eq_dec path_countable node).

(** What a call that follows links finds: [path.exists()], [path.is_dir()], [fs::read] do. *)
Definition follow (n : node) : option node :=
  match n with
  | Symlink Nowhere => None
  | Symlink (ToFile d m) => Some (File d m)
  | Symlink (ToDirectory m) => Some (Directory m)
  | Symlink ToSpecial => Some Special
  | n => Some n
  end.
Definition present (n : node) : bool := match follow n with Some _ => true | None => false end.
Definition is_directory (n : node) : bool := match follow n with Some (Directory _) => true | _ => false end.
Definition data_at (s : files) (p : path) : option bytes :=
  match s !! p ≫= follow with Some (File d _) => Some d | _ => None end.

(** ** Names *)

(** What precedes the last slash. *)
Fixpoint parent_go (current : bytes) (found : option bytes) (s : bytes) : option bytes :=
  match s with
  | [] => found
  | c :: s => parent_go (current ++ [c]) (if decide (c = "/"%char) then Some current else found) s
  end.
Definition parent (p : path) : option path := parent_go [] None p.

Lemma parent_go_name current dir name : ("/"%char ∈ name → False) →
  parent_go current (Some dir) name = Some dir.
Proof.
  revert current. induction name as [|c name IH]; intros current Hn; simpl; [done|].
  rewrite decide_False by (intros ->; apply Hn; left). apply IH. intros ?. apply Hn. by right.
Qed.

Lemma parent_go_app current found dir name : ("/"%char ∈ name → False) →
  parent_go current found (dir ++ "/"%char :: name) = Some (current ++ dir).
Proof.
  intros Hn. revert current found. induction dir as [|c dir IH]; intros current found.
  - simpl. rewrite app_nil_r. by apply parent_go_name.
  - simpl. rewrite IH. by rewrite <-app_assoc.
Qed.

Lemma parent_app dir name : ("/"%char ∈ name → False) → parent (dir ++ "/"%char :: name) = Some dir.
Proof. intros Hn. by apply parent_go_app. Qed.

(** There is a directory to make the name [p] in; the root and the working directory are there. *)
Definition in_directory (s : files) (p : path) : bool :=
  match parent p with
  | Some (c :: d) => match s !! (c :: d) with Some n => is_directory n | None => false end
  | _ => true
  end.

(** A new name takes no directory away. *)
Lemma in_directory_insert s p q n : s !! q = None → in_directory s p = true → in_directory (<[q := n]> s) p = true.
Proof.
  intros Hq. unfold in_directory. destruct (parent p) as [[|c d]|]; [done| |done].
  destruct (decide (q = c :: d)) as [->|Hne]; [by rewrite Hq|by rewrite lookup_insert_ne].
Qed.

(** ** Programs *)

Inductive fate := Go | Fault (e : string) | Kill.

Record environment := Environment {
  (** The fate of the call made at each tick. *)
  fate_at : nat → fate;
  (** What other processes do to the files before the call at each tick. *)
  interfere : nat → files → files;
  (** How much of a failing or interrupted write reaches the file. *)
  written : nat → nat
}.

(** [ran] lists the commands started so far, the oldest first. *)
Record world := World { tick : nat; fs : files; ran : list (list bytes) }.

Inductive outcome (A : Type) :=
| Ret (a : A)
| Throw (e : string)
| Halt.
Arguments Ret {A} a.
Arguments Throw {A} e.
Arguments Halt {A}.

Definition M (A : Type) : Type := world → outcome A * world.

#[export] Instance M_ret : MRet M := λ A a w, (Ret a, w).
#[export] Instance M_bind : MBind M := λ A B f m w,
  match m w with
  | (Ret a, w) => f a w
  | (Throw e, w) => (Throw e, w)
  | (Halt, w) => (Halt, w)
  end.

Definition throw {A} (e : string) : M A := λ w, (Throw e, w).
Definition lift {A} (r : result A) : M A :=
  match r with Ok a => mret a | Err e => throw e end.
Definition guard (b : bool) (e : string) : M unit := if b then mret () else throw e.

(** [let result = (|| ...)();]: the error becomes a value; the death of the process does not. *)
Definition attempt {A} (m : M A) : M (result A) := λ w,
  match m w with
  | (Ret a, w) => (Ret (Ok a), w)
  | (Throw e, w) => (Ret (Err e), w)
  | (Halt, w) => (Halt, w)
  end.

Section calls.
Context (E : environment).

(** One call: other processes move, then the environment decides. [partial] is the effect of a
    call that fails or is interrupted. *)
Definition call {A : Type} (partial : nat → files → files) (f : files → result A * files) : M A := λ w,
  let t := tick w in
  let s := interfere E t (fs w) in
  match fate_at E t with
  | Go => match f s with
          | (Ok a, s) => (Ret a, World (S t) s (ran w))
          | (Err e, s) => (Throw e, World (S t) s (ran w))
          end
  | Fault e => (Throw e, World (S t) (partial (written E t) s) (ran w))
  | Kill => (Halt, World (S t) (partial (written E t) s) (ran w))
  end.

Definition no_effect : nat → files → files := λ _ s, s.

(** A call that only looks. *)
Definition query {A : Type} (f : files → result A) : M A := call no_effect (λ s, (f s, s)).

(** [OpenOptions::new().write(true).create_new(true)]: whether the file was created; [false] is
    the error kind [AlreadyExists]. *)
Definition create_new (p : path) (m : meta) : M bool :=
  call no_effect (λ s, match s !! p with
                       | Some _ => (Ok false, s)
                       | None => if in_directory s p then (Ok true, <[p := File [] m]> s) else (Err "no such file", s)
                       end).

Definition on_file {A : Type} (p : path) (f : bytes → meta → A * node) (s : files) : result A * files :=
  match s !! p with
  | Some (File d m) => let '(a, n) := f d m in (Ok a, <[p := n]> s)
  | _ => (Err "no such file", s)
  end.

Definition chown (p : path) (u g : Z) : M unit :=
  call no_effect (on_file p (λ d m, ((), File d (Meta u g (perm m))))).
Definition set_permissions (p : path) (mode : Z) : M unit :=
  call no_effect (λ s, match s !! p with
                       | Some (Directory m) => (Ok (), <[p := Directory (Meta (uid m) (gid m) mode)]> s)
                       | _ => on_file p (λ d m, ((), File d (Meta (uid m) (gid m) mode))) s
                       end).

(** [write_all] to a file just created: a failing write leaves a prefix. *)
Definition write_all (p : path) (data : bytes) : M unit :=
  call (λ n s, (on_file p (λ d m, ((), File (d ++ take n data) m)) s).2)
       (on_file p (λ d m, ((), File (d ++ data) m))).

Definition sync_all (p : path) : M unit := query (λ _, Ok ()).
Definition sync_directory (p : path) : M unit := query (λ _, Ok ()).

(** [fs::rename] of a file, to a name in a directory that is there and is not a directory itself.
    Renaming a directory is [rename_directory] of Trees.v; the callers of this one made a file under
    the first name, and a directory that others put in its place is refused. *)
Definition renamed (from to : path) (s : files) : result unit * files :=
  match s !! from, s !! to with
  | None, _ => (Err "no such file", s)
  | Some (Directory _), _ => (Err "not a file", s)
  | Some _, Some (Directory _) => (Err "is a directory", s)
  | Some n, _ => if in_directory s to then (Ok (), <[to := n]> (delete from s)) else (Err "no such file", s)
  end.
Lemma renamed_other from to q s : q ≠ from → q ≠ to → (renamed from to s).2 !! q = s !! q.
Proof.
  intros H1 H2. unfold renamed. destruct (s !! from) as [[]|], (s !! to) as [[]|]; try done;
    destruct (in_directory _ _); simpl; rewrite ?lookup_insert_ne, ?lookup_delete_ne by done; done.
Qed.
Definition rename (from to : path) : M unit := call no_effect (renamed from to).
Definition hard_link (from to : path) : M unit :=
  call no_effect (λ s, match s !! from, s !! to with
                       | None, _ => (Err "no such file", s)
                       | Some (Directory _), _ => (Err "operation not permitted", s)
                       | _, Some _ => (Err "file exists", s)
                       | Some n, None => if in_directory s to then (Ok (), <[to := n]> s) else (Err "no such file", s)
                       end).
Definition remove_file (p : path) : M unit :=
  call no_effect (λ s, match s !! p with
                       | Some (Directory _) => (Err "is a directory", s)
                       | Some _ => (Ok (), delete p s)
                       | None => (Err "no such file", s)
                       end).

Definition lookup_node (p : path) : M (option node) := query (λ s, Ok (s !! p)).
(** [path.exists()] is false when the call fails. *)
Definition exists_ (p : path) : M bool :=
  found ← attempt (lookup_node p);
  mret match found with Ok (Some n) => present n | _ => false end.

End calls.

(** ** Triples

    [triple P m Q X H]: from files satisfying [P], a return satisfies [Q], an error [X], and the
    files are in [H] if the process dies. *)

Definition triple {A : Type} (P : files → Prop) (m : M A) (Q : A → files → Prop)
    (X : files → Prop) (H : files → Prop) : Prop :=
  ∀ w, P (fs w) →
    match m w with
    | (Ret a, w') => Q a (fs w')
    | (Throw _, w') => X (fs w')
    | (Halt, w') => H (fs w')
    end.

Section rules.
Context {A B : Type}.
Implicit Types (P X H : files → Prop).

Lemma triple_ret P (a : A) (Q : A → files → Prop) X H :
  (∀ s, P s → Q a s) → triple P (mret a) Q X H.
Proof. intros HQ w Hw. by apply HQ. Qed.

Lemma triple_throw P e (Q : A → files → Prop) X H :
  (∀ s, P s → X s) → triple P (throw e) Q X H.
Proof. intros HX w Hw. by apply HX. Qed.

Lemma triple_bind P (m : M A) (f : A → M B) R Q X H :
  triple P m R X H → (∀ a, triple (R a) (f a) Q X H) → triple P (m ≫= f) Q X H.
Proof.
  intros Hm Hf w Hw. specialize (Hm w Hw). unfold mbind, M_bind.
  destruct (m w) as [[a|e|] w']; [by apply Hf|done|done].
Qed.

Lemma triple_attempt P (m : M A) (Q : result A → files → Prop) H X :
  triple P m (λ a s, Q (Ok a) s) (λ s, ∀ e, Q (Err e) s) H →
  triple P (attempt m) Q X H.
Proof.
  intros Hm w Hw. specialize (Hm w Hw). unfold attempt.
  by destruct (m w) as [[a|e|] w'].
Qed.

Lemma triple_weaken P P' (m : M A) (Q Q' : A → files → Prop) X X' H H' :
  triple P m Q X H → (∀ s, P' s → P s) → (∀ a s, Q a s → Q' a s) →
  (∀ s, X s → X' s) → (∀ s, H s → H' s) → triple P' m Q' X' H'.
Proof.
  intros Hm HP HQ HX HH w Hw. specialize (Hm w (HP _ Hw)).
  destruct (m w) as [[a|e|] w']; eauto.
Qed.

Lemma triple_pre P P' (m : M A) Q X H :
  triple P m Q X H → (∀ s, P' s → P s) → triple P' m Q X H.
Proof. intros Hm HP. by eapply triple_weaken. Qed.

Lemma triple_post P (m : M A) (Q Q' : A → files → Prop) X X' H H' :
  triple P m Q X H → (∀ a s, Q a s → Q' a s) → (∀ s, X s → X' s) → (∀ s, H s → H' s) →
  triple P m Q' X' H'.
Proof. intros Hm ? ? ?. by eapply triple_weaken. Qed.

Lemma triple_and P P' (m : M A) (Q Q' : A → files → Prop) X X' H H' :
  triple P m Q X H → triple P' m Q' X' H' →
  triple (λ s, P s ∧ P' s) m (λ a s, Q a s ∧ Q' a s) (λ s, X s ∧ X' s) (λ s, H s ∧ H' s).
Proof.
  intros H1 H2 w [Hw Hw']. specialize (H1 w Hw). specialize (H2 w Hw').
  by destruct (m w) as [[] w'].
Qed.

Lemma triple_pure (φ : Prop) P (m : M A) Q X H :
  (φ → triple P m Q X H) → triple (λ s, φ ∧ P s) m Q X H.
Proof. intros Hm w [Hφ Hw]. by apply Hm. Qed.

Lemma triple_exists {T : Type} (P : T → files → Prop) (m : M A) Q X H :
  (∀ x, triple (P x) m Q X H) → triple (λ s, ∃ x, P x s) m Q X H.
Proof. intros Hm w [x Hw]. by apply (Hm x). Qed.

Lemma triple_lift P (r : result A) (Q : A → files → Prop) X H :
  (∀ a s, r = Ok a → P s → Q a s) → (∀ s, P s → X s) → triple P (lift r) Q X H.
Proof. unfold lift. destruct r; intros HQ HX; [apply triple_ret|apply triple_throw]; eauto. Qed.
End rules.

Lemma triple_guard (P : files → Prop) b e (Q : unit → files → Prop) (X H : files → Prop) :
  (∀ s, b = true → P s → Q () s) → (∀ s, P s → X s) → triple P (guard b e) Q X H.
Proof. unfold guard. destruct b; intros HQ HX; [apply triple_ret|apply triple_throw]; eauto. Qed.

Section call_rules.
Context (E : environment).

(** An assertion other processes preserve. *)
Definition stable (P : files → Prop) : Prop := ∀ t s, P s → P (interfere E t s).

Lemma triple_call {A : Type} P partial (f : files → result A * files) (Q : A → files → Prop)
    (X H : files → Prop) :
  stable P →
  (∀ s, P s → match f s with (Ok a, s') => Q a s' | (Err _, s') => X s' end) →
  (∀ n s, P s → X (partial n s)) → (∀ n s, P s → H (partial n s)) →
  triple P (call E partial f) Q X H.
Proof.
  intros HP Hf HX HH w Hw. unfold call. apply (HP (tick w)) in Hw. specialize (Hf _ Hw).
  destruct (fate_at E (tick w)); simpl; [|by apply HX|by apply HH].
  by destruct (f _) as [[a|e] s'].
Qed.

(** A query keeps every stable assertion. *)
Lemma triple_query {A : Type} P (f : files → result A) (Q : A → files → Prop) X H :
  stable P → (∀ a s, f s = Ok a → P s → Q a s) → (∀ s, P s → X s) → (∀ s, P s → H s) →
  triple P (query E f) Q X H.
Proof.
  intros HP HQ HX HH. apply triple_call; [done| |auto..].
  intros s Hs. destruct (f s) eqn:Ef; eauto.
Qed.
End call_rules.

(** ** Programs that touch no file *)

Definition keeps {A : Type} (P : files → Prop) (m : M A) : Prop := triple P m (λ _, P) P P.

Section keeps.
Context (G : environment).

Lemma keeps_query {A : Type} P (f : files → result A) : stable G P → keeps P (query G f).
Proof. intros HP. by apply triple_query. Qed.

Lemma keeps_bind {A B : Type} P (m : M A) (f : A → M B) :
  keeps P m → (∀ a, keeps P (f a)) → keeps P (m ≫= f).
Proof. intros Hm Hf. by eapply triple_bind. Qed.

Lemma keeps_attempt {A : Type} P (m : M A) : keeps P m → keeps P (attempt m).
Proof. intros Hm. apply triple_attempt. eapply triple_weaken; eauto. Qed.

Lemma keeps_ret {A : Type} P (a : A) : keeps P (mret a).
Proof. by apply triple_ret. Qed.
Lemma keeps_throw {A : Type} P e : keeps P (@throw A e).
Proof. by apply triple_throw. Qed.
Lemma keeps_lift {A : Type} P (r : result A) : keeps P (lift r).
Proof. by apply triple_lift. Qed.
Lemma keeps_guard P b e : keeps P (guard b e).
Proof. by apply triple_guard. Qed.

(** A step that touches no file, inside a larger triple. *)
Lemma keeps_step {A : Type} (P X H : files → Prop) (m : M A) :
  keeps P m → (∀ s, P s → X s) → (∀ s, P s → H s) → triple P m (λ _, P) X H.
Proof. intros Hm HX HH. eapply triple_weaken; eauto. Qed.
End keeps.

Create HintDb keeps.
#[export] Hint Resolve keeps_query keeps_attempt keeps_ret keeps_throw keeps_lift keeps_guard : keeps.
Ltac keeps := repeat first
  [ match goal with |- keeps _ (_ ≫= _) => apply keeps_bind; [|intros ?] end
  | match goal with |- keeps _ (attempt _) => apply keeps_attempt end
  | match goal with |- keeps _ (match ?x with _ => _ end) => destruct x end
  | solve [auto with keeps] ].

(** ** The clock *)

(** The calls of a program come one after the other. *)
Definition moves_on {A : Type} (m : M A) : Prop := ∀ w, tick w <= tick (m w).2.

Section clock.
Context (G : environment).

Lemma moves_call {A : Type} partial (f : files → result A * files) : moves_on (call G partial f).
Proof.
  intros w. unfold call. destruct (fate_at G (tick w)); simpl; try lia.
  destruct (f _) as [[] ?]; simpl; lia.
Qed.
Lemma moves_bind {A B : Type} (m : M A) (f : A → M B) :
  moves_on m → (∀ a, moves_on (f a)) → moves_on (m ≫= f).
Proof.
  intros Hm Hf w. specialize (Hm w). unfold mbind, M_bind. destruct (m w) as [[a|e|] w1]; [|done..].
  etrans; [done|apply Hf].
Qed.
Lemma moves_attempt {A : Type} (m : M A) : moves_on m → moves_on (attempt m).
Proof. intros Hm w. specialize (Hm w). unfold attempt. by destruct (m w) as [[] w1]. Qed.
Lemma moves_ret {A : Type} (a : A) : moves_on (mret a).
Proof. by intros w. Qed.
Lemma moves_throw {A : Type} e : moves_on (@throw A e).
Proof. by intros w. Qed.
Lemma moves_lift {A : Type} (r : result A) : moves_on (lift r).
Proof. destruct r; intros w; simpl; lia. Qed.
Lemma moves_guard b e : moves_on (guard b e).
Proof. destruct b; intros w; simpl; lia. Qed.
Lemma moves_query {A : Type} (f : files → result A) : moves_on (query G f).
Proof. apply moves_call. Qed.
End clock.

Create HintDb moves.
#[export] Hint Resolve moves_call moves_query moves_attempt moves_ret moves_throw moves_lift moves_guard : moves.
Ltac moves := repeat first
  [ match goal with |- moves_on (_ ≫= _) => apply moves_bind; [|intros ?] end
  | match goal with |- moves_on (attempt _) => apply moves_attempt end
  | match goal with |- moves_on (match ?x with _ => _ end) => destruct x end
  | solve [auto with moves | apply moves_call] ].

Lemma moves_exists E p : moves_on (exists_ E p).
Proof. unfold exists_. moves. Qed.
#[export] Hint Resolve moves_exists : moves.

(** ** Runs without faults *)

(** No call fails; the process may still die. *)
Definition no_faults (E : environment) : Prop := ∀ t e, fate_at E t ≠ Fault e.

(** No other process moves. *)
Definition alone (E : environment) : Prop := ∀ t s, interfere E t s = s.

Definition calm (E : environment) : Prop :=
  ∀ t, fate_at E t = Go ∧ ∀ s, interfere E t s = s.

(** From the files [s], [m] returns [a] and leaves the files [s']. *)
Definition returns {A : Type} (s : files) (m : M A) (a : A) (s' : files) : Prop :=
  ∀ w, fs w = s → ∃ w', m w = (Ret a, w') ∧ fs w' = s'.

(** Without faults and interference a call is its effect, or the process dies. *)
Lemma triple_call_exact {A : Type} E (P : files → Prop) partial (f : files → result A * files)
    (Q : A → files → Prop) (X H : files → Prop) :
  no_faults E → alone E →
  (∀ s, P s → match f s with (Ok a, s') => Q a s' | (Err _, s') => X s' end) →
  (∀ n s, P s → H (partial n s)) →
  triple P (call E partial f) Q X H.
Proof.
  intros Hn Ha Hf HH w Hw. unfold call. rewrite Ha. specialize (Hf _ Hw). specialize (Hn (tick w)).
  destruct (fate_at E (tick w)); simpl; [|by destruct (Hn e)|by apply HH].
  by destruct (f _) as [[a|e] s'].
Qed.

(** A look at one name, its error caught: it never fails. *)
Lemma triple_look E (P : files → Prop) p (Q : result (option node) → files → Prop) (X H : files → Prop) :
  no_faults E → alone E → (∀ s, P s → Q (Ok (s !! p)) s) → (∀ s, P s → H s) →
  triple P (attempt (lookup_node E p)) Q X H.
Proof.
  intros Hn Ha HQ HH. apply triple_attempt, triple_call_exact; auto.
Qed.

Section returns.
Context (G : environment) (Hcalm : calm G).

Lemma returns_ret {A : Type} s (a : A) : returns s (mret a) a s.
Proof. intros w Hw. by exists w. Qed.

Lemma returns_bind {A B : Type} s m (a : A) s' (f : A → M B) b s'' :
  returns s m a s' → returns s' (f a) b s'' → returns s (m ≫= f) b s''.
Proof.
  intros Hm Hf w Hw. destruct (Hm w Hw) as (w' & E & Hw'). unfold mbind, M_bind. rewrite E. auto.
Qed.

Lemma returns_attempt {A : Type} s m (a : A) s' : returns s m a s' → returns s (attempt m) (Ok a) s'.
Proof. intros Hm w Hw. destruct (Hm w Hw) as (w' & E & Hw'). unfold attempt. rewrite E. eauto. Qed.

Lemma returns_call {A : Type} s partial (f : files → result A * files) a s' :
  f s = (Ok a, s') → returns s (call G partial f) a s'.
Proof.
  intros Hf w Hw. unfold call. destruct (Hcalm (tick w)) as [-> ->]. rewrite Hw, Hf. eauto.
Qed.

Lemma returns_query {A : Type} s (f : files → result A) a : f s = Ok a → returns s (query G f) a s.
Proof. intros Hf. apply returns_call. by rewrite Hf. Qed.

Lemma returns_guard s b e : b = true → returns s (guard b e) () s.
Proof. intros ->. apply returns_ret. Qed.

Lemma returns_lift {A : Type} s (r : result A) a : r = Ok a → returns s (lift r) a s.
Proof. intros ->. apply returns_ret. Qed.
End returns.

(** ** Successful runs *)

Lemma bind_Ret {A B : Type} (m : M A) (f : A → M B) w b w' :
  (m ≫= f) w = (Ret b, w') → ∃ a w1, m w = (Ret a, w1) ∧ f a w1 = (Ret b, w').
Proof. unfold mbind, M_bind. destruct (m w) as [[a|e|] w1]; naive_solver. Qed.

Lemma guard_Ret b e w u w' : guard b e w = (Ret u, w') → b = true ∧ w' = w.
Proof. destruct b; unfold guard; intros H; by inversion H. Qed.

Lemma lift_Ret {A : Type} (r : result A) w a w' : lift r w = (Ret a, w') → r = Ok a ∧ w' = w.
Proof. destruct r; unfold lift; intros H; by inversion H. Qed.

Lemma attempt_Ok {A : Type} (m : M A) w a w' :
  attempt m w = (Ret (Ok a), w') → m w = (Ret a, w').
Proof. unfold attempt. destruct (m w) as [[]]; naive_solver. Qed.
