(* ===== verification/Shutdown.v ===== *)
(** * The guest helper that stops Docker (src/guest/docker-shutdown.rs)

    [shutdown] turns Docker's live-restore off for the time of a stop. It saves
    the configuration under a backup name, replaces it by the edited one, asks
    Docker to reload, puts the original back and removes the backup. The
    operating system is the environment of Fs.v; what commands print, what
    Docker answers on its socket and which processes exist are oracles of the
    tick at which they are asked. *)

From S2P Require Import Prelude Text Json Fs.

Definition CONFIG : path := str "/etc/docker/daemon.json".
Definition BACKUP : path := str "/etc/docker/.luhmen-shutdown-daemon.json".

(** What [Child::try_wait] reports at one poll of [run]. *)
Inductive poll :=
| Running
| PollFailed (e : string)
| Exited (success : bool) (stdout : result bytes).

(** A spawned command: the polls that happen before its deadline. *)
Record child := Child { spawned : result unit; polls : list poll }.

Record guest := Guest {
  os :> environment;
  process_id : N;
  (** The child that a command started at a tick becomes. *)
  command : nat → string → list bytes → child;
  (** The bytes Docker sends for [GET /info], or the error of the exchange. *)
  docker_info : nat → result bytes;
  (** The polls of [reload_config] that happen before its deadline. *)
  reload_polls : nat → nat;
  (** [/proc]: the names and command lines of the processes, [None] if it cannot be read. *)
  processes : nat → option (list (bytes * option bytes));
  (** Whether others who changed a file that is open here wrote to it, and did not replace it. *)
  in_place : nat → bool
}.

Section shutdown.
Context (G : guest).

(** A look at something other than files. *)
Definition observe {A : Type} (o : nat → result A) : M A := λ w, query G (λ _, o (tick w)) w.

(** What the open file [n] has become under the name [p]: others may have written to it, or they
    may have put another file in its place, which leaves it as it was. *)
Definition now_at (t : nat) (p : path) (n : node) : M node :=
  query G (λ s, Ok match n, s !! p with
                   | File _ _, Some (File d m) => if in_place G t then File d m else n
                   | _, _ => n
                   end).
Definition now (p : path) (n : node) : M node := λ w, now_at (tick w) p n w.

(** The file is opened without following a link, inspected and read. *)
Definition read_file (p : path) : M (bytes * meta) :=
  opened ← query G (λ s, match s !! p with
                         | Some (Symlink _) => Err "too many levels of symbolic links"
                         | Some n => Ok n
                         | None => Err "no such file"
                         end);
  inspected ← now p opened;
  match inspected with
  | File d m =>
      _ ← guard (len d <=? LIMIT)%Z "must be a regular file of at most 1 MiB";
      held ← now p inspected;
      let data := match held with File d _ => d | _ => [] end in
      _ ← guard (len data <=? LIMIT)%Z "exceeds 1 MiB";
      mret (data, m)
  | _ => throw "must be a regular file of at most 1 MiB"
  end.

(** The [find_map] over candidate names. *)
Definition candidate (dir : path) (number : N) : path :=
  dir ++ str "/.luhmen-shutdown-" ++ decimal (process_id G) ++ str "-" ++ decimal number.
Fixpoint create_candidate (dir : path) (numbers : list N) : M (option path) :=
  match numbers with
  | [] => mret None
  | number :: numbers =>
      created ← create_new G (candidate dir number) (Meta 0 0 384);
      if created : bool then mret (Some (candidate dir number)) else create_candidate dir numbers
  end.

Definition write_temporary (p : path) (data : bytes) (m : meta) : M path :=
  dir ← lift (ok_or (parent p) "configuration has no parent");
  found ← create_candidate dir (map N.of_nat (seq 0 100));
  temporary ← lift (ok_or found "too many abandoned Docker shutdown temporary files");
  result ← attempt
    (_ ← chown G temporary (uid m) (gid m);
     _ ← set_permissions G temporary (Z.land (perm m) 4095);
     _ ← write_all G temporary data;
     sync_all G temporary);
  match result with
  | Err e => _ ← attempt (remove_file G temporary); throw e
  | Ok _ => mret temporary
  end.

Definition replace_file (p : path) (data : bytes) (m : meta) (expected : bytes) : M unit :=
  temporary ← write_temporary p data m;
  result ← attempt
    ('(current, _) ← read_file p;
     _ ← guard (bool_decide (current = expected))
           "changed during shutdown; preserving the external edit";
     _ ← rename G temporary p;
     sync_directory G (default [] (parent p)));
  leftover ← exists_ G temporary;
  _ ← (if leftover : bool then attempt (remove_file G temporary) else mret (Ok ()));
  lift result.

Definition save_backup (p : path) (original : bytes) (m : meta) : M unit :=
  temporary ← write_temporary p original m;
  result ← attempt
    (_ ← hard_link G temporary p;
     sync_directory G (default [] (parent p)));
  _ ← attempt (remove_file G temporary);
  lift result.

(** The polling loop of [run]; a child that is still running at the deadline is killed. *)
Fixpoint wait (polls : list poll) : result bytes :=
  match polls with
  | [] => Err "timed out"
  | Running :: polls => wait polls
  | PollFailed e :: _ => Err e
  | Exited success stdout :: _ =>
      stdout ← stdout; _ ← ensure success "failed"; Ok stdout
  end.
Definition run (name : string) (arguments : list bytes) : M bytes :=
  observe (λ t, let c := command G t name arguments in _ ← spawned c; wait (polls c)).

Definition systemctl (arguments : list string) : M bytes :=
  stdout ← run "systemctl" (map str arguments);
  _ ← guard (utf8_valid stdout) "invalid utf-8 sequence";
  mret stdout.

(** The map of the [key=value] lines; a later line replaces an earlier one. *)
Definition parse_state (text : bytes) : gmap bytes bytes :=
  foldl (λ state line, match split_once "="%char line with
                       | Some (key, value) => <[key := value]> state
                       | None => state
                       end) ∅ (lines text).
Definition service_state : M (gmap bytes bytes) :=
  text ← systemctl ["show"; "docker.service"; "-p"; "ActiveState"; "-p"; "MainPID"; "-p"; "Result"];
  mret (parse_state text).

(** [response.windows(4).position(|bytes| bytes == b"\r\n\r\n")]. *)
Definition crlf2 : bytes := ["013"; "010"; "013"; "010"]%char.
Fixpoint find_bytes (p s : bytes) : option nat :=
  if starts_with p s then Some 0
  else match s with [] => None | _ :: s => S <$> find_bytes p s end.

Definition parse_info (response : bytes) : result bool :=
  split ← ok_or (find_bytes crlf2 response) "Docker /info returned an invalid HTTP response";
  let headers := take split response in
  _ ← ensure (utf8_valid headers) "invalid utf-8 sequence";
  _ ← ensure (match lines headers with line :: _ => contains (str " 200 ") line | [] => false end)
        "Docker /info did not return a successful response";
  let body := drop (split + 4) response in
  _ ← ensure (len body <=? LIMIT)%Z "Docker /info exceeded 1 MiB";
  field ← boolean_field body (key_of "LiveRestoreEnabled");
  ok_or field "Docker /info did not report LiveRestoreEnabled".
Definition live_restore : M bool :=
  response ← observe (docker_info G);
  lift (parse_info (take (Z.to_nat (LIMIT + 4097)) response)).

(** The loop of [reload_config], with the polls left before its deadline. *)
Fixpoint await_reload (remaining : nat) (expected : bool) : M unit :=
  status ← attempt live_restore;
  if decide (status = Ok expected) then mret ()
  else match remaining with
       | O => throw "Docker did not confirm the live-restore configuration reload within 8 seconds"
       | S remaining => await_reload remaining expected
       end.

Definition field (state : gmap bytes bytes) (key : string) : option bytes := state !! str key.
Definition is_field (state : gmap bytes bytes) (key value : string) : bool :=
  bool_decide (field state key = Some (str value)).

Definition reload_config (expected : bool) : M unit :=
  state ← service_state;
  let pid := default 0%Z (field state "MainPID" ≫= parse_uint u32_max) in
  _ ← guard (is_field state "ActiveState" "active" && negb (pid <=? 1)%Z)
        "Docker is not active enough to reload its configuration";
  _ ← run "kill" [str "-HUP"; decimal (Z.to_N pid)];
  remaining ← observe (λ t, Ok (reload_polls G t));
  await_reload remaining expected.

Definition is_shim (arguments : bytes) : bool :=
  let fields := split "000"%char arguments in
  match fields with
  | value :: _ => contains (str "containerd-shim") value
  | [] => false
  end &&
  existsb (λ pair, bool_decide (pair = (str "-namespace", str "moby"))) (zip fields (tail fields)).
Definition docker_shims_remain : M bool :=
  observe (λ t, Ok match processes G t with
                   | None => false
                   | Some l =>
                       existsb (λ '(name, arguments),
                         forallb is_ascii_digit name &&
                         match arguments with Some a => is_shim a | None => false end) l
                   end).

Definition restore_file (config : path) (original : bytes) (m : meta) (temporary : bytes) : M unit :=
  '(current, _) ← read_file config;
  if decide (current = temporary) then replace_file config original m temporary
  else if decide (current ≠ original) then
    throw "Docker configuration changed during shutdown; preserving the external edit and backup"
  else mret ().

Definition restore_runtime (original : bytes) : M unit :=
  state ← service_state;
  if is_field state "ActiveState" "active" then
    value ← lift (boolean_field original (key_of "live-restore"));
    reload_config (default false value)
  else if (is_field state "ActiveState" "inactive" || is_field state "ActiveState" "failed")
          && is_field state "MainPID" "0" then mret ()
  else throw "Docker is still transitioning; original configuration restored and recovery backup retained; wait and retry".

Definition recover_backup (config backup : path) : M unit :=
  entry ← (present ← exists_ G backup;
           if present : bool then mret true
           else found ← attempt (lookup_node G backup);
                mret match found with Ok (Some _) => true | _ => false end);
  if negb entry then mret () else
  '(original, m) ← read_file backup;
  temporary ← lift (disabled_config original);
  _ ← restore_file config original m temporary;
  _ ← restore_runtime original;
  _ ← remove_file G backup;
  sync_directory G (default [] (parent backup)).

(** ** [shutdown] *)

(** What [restoration] holds: the original text, its metadata, and the edited text. *)
Abbreviation restoration := (option (bytes * meta * bytes)).

(** The closure up to [restoration = Some(...)]. *)
Definition prepare (active : bool) : M restoration :=
  if active then
    '(original, m) ← read_file CONFIG;
    temporary ← lift (disabled_config original);
    enabled ← live_restore;
    if enabled : bool then
      _ ← save_backup BACKUP original m;
      _ ← replace_file CONFIG temporary m original;
      mret (Some (original, m, temporary))
    else mret None
  else mret None.

(** The closure from there to the end of its [if active] block. *)
Definition disable_and_restore (active : bool) (state : gmap bytes bytes) (r : restoration) : M unit :=
  _ ← match r with
      | Some (original, m, temporary) =>
          _ ← reload_config false;
          restore_file CONFIG original m temporary
      | None => mret ()
      end;
  if active then
    now ← service_state;
    changed ← (if decide (field now "MainPID" ≠ field state "MainPID") then mret true else live_restore);
    guard (negb changed) "Docker changed during shutdown preparation; retry after it settles"
  else mret ().

(** The rest of the closure. *)
Definition stop_docker (active : bool) : M unit :=
  _ ← systemctl ["stop"; "docker.service"; "docker.socket"];
  stopped ← service_state;
  socket ← systemctl ["show"; "docker.socket"; "-p"; "ActiveState"; "--value"];
  _ ← guard (is_field stopped "ActiveState" "inactive" && bool_decide (trim socket = str "inactive"))
        "Docker service and socket did not both stop cleanly";
  _ ← guard (negb (active && negb (is_field stopped "Result" "success")))
        "Docker service shutdown failed";
  remain ← docker_shims_remain;
  guard (negb remain)
    "Docker container processes remain without an active daemon; recover Docker before graceful VM shutdown".

Definition shutdown : M unit :=
  _ ← recover_backup CONFIG BACKUP;
  state ← service_state;
  let active := is_field state "ActiveState" "active" in
  _ ← guard (active || is_field state "ActiveState" "inactive" || is_field state "ActiveState" "failed")
        "Docker is not settled; wait for its current operation and retry";
  prepared ← attempt (prepare active);
  let r := match prepared with Ok r => r | Err _ => None end in
  outcome ← match prepared with
            | Err e => mret (Err e)
            | Ok r => attempt (_ ← disable_and_restore active state r; stop_docker active)
            end;
  _ ← match r with
      | Some (original, m, temporary) =>
          restored ← attempt
            (_ ← restore_file CONFIG original m temporary;
             if decide (is_ok outcome = false) then restore_runtime original else mret ());
          _ ← lift restored;
          _ ← remove_file G BACKUP;
          sync_directory G (default [] (parent BACKUP))
      | None => mret ()
      end;
  lift outcome.

End shutdown.
