(* ===== verification/ShutdownSpec.v ===== *)
(** * The guest helper never loses Docker's configuration

    Whatever call fails and wherever the process dies, Docker's configuration is
    the original one, or the edited one with the original under the backup
    name; and [recover_backup] brings the original back from every such state. *)

From S2P Require Import Prelude Text Json JsonSpec Fs Shutdown.

(** ** Assertions about the two files *)

(** [on K]: [K] holds of the nodes at [CONFIG] and [BACKUP]. *)
Definition on (K : option node → option node → Prop) (s : files) : Prop :=
  K (s !! CONFIG) (s !! BACKUP).

Abbreviation entries := (option node → option node → Prop).

(** The original is in place, alone or with its backup, or the edited text is in place and the
    original is in the backup. *)
Definition recoverable (original : bytes) (m : meta) : entries := λ c b,
  c = Some (File original m) ∧ (b = None ∨ b = Some (File original m)) ∨
  ∃ temporary, disabled_config original = Ok temporary ∧
    c = Some (File temporary m) ∧ b = Some (File original m).

Definition restored (original : bytes) (m : meta) : entries := λ c b,
  c = Some (File original m) ∧ b = None.

(** The states in which the backup holds the original. *)
Definition backed_up (original : bytes) (m : meta) : entries := λ c b,
  recoverable original m c b ∧ b = Some (File original m).

Definition etc : path := str "/etc/docker".

(** Other processes leave the configuration, the backup and the helper's temporary files alone. *)
Definition undisturbed (G : guest) : Prop :=
  ∀ t s p, p = CONFIG ∨ p = BACKUP ∨ (∃ n, p = candidate G etc n) →
    interfere G t s !! p = s !! p.

Definition valid_mode (m : meta) : Prop := Z.land (perm m) 4095 = perm m.

(** ** Temporary names *)

Lemma decimal_head n r : ∃ c t, decimal n ++ "-"%char :: r = c :: t ∧ c ≠ "d"%char.
Proof.
  unfold decimal. destruct (N.to_uint n); simpl; eexists _, _; (split; [reflexivity|discriminate]).
Qed.

Lemma candidate_names G n : candidate G etc n ≠ CONFIG ∧ candidate G etc n ≠ BACKUP.
Proof.
  unfold candidate. split; [discriminate|]. intros H.
  change BACKUP with (etc ++ str "/.luhmen-shutdown-" ++ str "daemon.json") in H.
  apply app_inv_head, app_inv_head in H.
  destruct (decimal_head (process_id G) (decimal n)) as (c & t & Ht & Hc).
  change (str "-" ++ decimal n) with ("-"%char :: decimal n) in H. rewrite Ht in H.
  by injection H as ->.
Qed.

Section helper.
Context (G : guest) (quiet : undisturbed G).

Lemma stable_on K : stable G (on K).
Proof. intros t s. unfold on. rewrite !quiet; auto. Qed.

Lemma on_temporary K n (f : files → files) s :
  (∀ p, p ≠ candidate G etc n → f s !! p = s !! p) → on K (f s) ↔ on K s.
Proof.
  intros Hf. destruct (candidate_names G n) as [? ?]. unfold on. by rewrite !Hf.
Qed.

Lemma keeps_observe {A : Type} P (o : nat → result A) : stable G P → keeps P (observe G o).
Proof. intros HP w Hw. by apply (keeps_query G P (λ _, o (tick w)) HP). Qed.

End helper.

#[export] Hint Resolve keeps_observe : keeps.

Section untouched.
Context (G : guest) (P : files → Prop) (HP : stable G P).

Lemma keeps_systemctl arguments : keeps P (systemctl G arguments).
Proof. unfold systemctl, run. keeps. Qed.
Lemma keeps_service_state : keeps P (service_state G).
Proof. unfold service_state. keeps. apply keeps_systemctl. Qed.
Lemma keeps_live_restore : keeps P (live_restore G).
Proof. unfold live_restore. keeps. Qed.
Lemma keeps_await_reload n b : keeps P (await_reload G n b).
Proof. induction n; simpl; keeps; auto using keeps_live_restore. Qed.
Lemma keeps_reload_config b : keeps P (reload_config G b).
Proof.
  unfold reload_config, run. keeps; auto using keeps_service_state, keeps_await_reload.
Qed.
Lemma keeps_restore_runtime o : keeps P (restore_runtime G o).
Proof.
  unfold restore_runtime. keeps; auto using keeps_service_state, keeps_reload_config.
Qed.
Lemma keeps_stop_docker a : keeps P (stop_docker G a).
Proof.
  unfold stop_docker, docker_shims_remain. keeps; auto using keeps_systemctl, keeps_service_state.
Qed.
Lemma keeps_exists p : keeps P (exists_ G p).
Proof. unfold exists_, lookup_node. keeps. Qed.
End untouched.

(** ** Programs that touch files *)

Section files.
Context (G : guest) (quiet : undisturbed G).
Implicit Types (K : entries).

(** A file with contents [n] under a temporary name, and [K] of the two files. *)
Definition temporary_holds K (t : path) (n : node) (s : files) : Prop :=
  (∃ k, t = candidate G etc k) ∧ on K s ∧ s !! t = Some n.

Lemma stable_temporary K t n : stable G (temporary_holds K t n).
Proof.
  intros i s ([k ->] & HK & Hn). split_and!; [eauto|by apply stable_on|].
  rewrite quiet; eauto.
Qed.
Hint Resolve stable_on stable_temporary : keeps.

Lemma temporary_on K t n s : temporary_holds K t n s → on K s.
Proof. intros (_ & ? & _). done. Qed.
Hint Resolve temporary_on : keeps.

(** What replaces the node of a temporary file changes nothing else. *)
Lemma temporary_insert K t n n' s :
  temporary_holds K t n s → temporary_holds K t n' (<[t := n']> s).
Proof.
  intros ([k ->] & HK & _). split_and!; [eauto| |by rewrite lookup_insert_eq].
  rewrite (on_temporary G K k (insert _ n')); [done|]. intros p Hp. by apply lookup_insert_ne.
Qed.

Lemma on_temporary_delete K k s : on K s → on K (delete (candidate G etc k) s).
Proof. intros HK. rewrite (on_temporary G K k); [done|]. intros p Hp. by apply lookup_delete_ne. Qed.

Lemma triple_on_file K t d m (f : bytes → meta → unit * node) :
  triple (temporary_holds K t (File d m)) (call G no_effect (on_file t f))
    (λ _, temporary_holds K t (f d m).2) (on K) (on K).
Proof.
  apply triple_call; eauto with keeps.
  intros s Hs. pose proof Hs as (_ & _ & Hn). unfold on_file. rewrite Hn.
  destruct (f d m) as [a n]. simpl. by eapply temporary_insert.
Qed.

Lemma triple_set_permissions K t d m mode :
  triple (temporary_holds K t (File d m)) (set_permissions G t mode)
    (λ _, temporary_holds K t (File d (Meta (uid m) (gid m) mode))) (on K) (on K).
Proof.
  apply triple_call; eauto with keeps.
  intros s Hs. pose proof Hs as (_ & _ & Hn). unfold on_file. rewrite Hn.
  by eapply temporary_insert.
Qed.

Lemma triple_write_all K t d m data :
  triple (temporary_holds K t (File d m)) (write_all G t data)
    (λ _, temporary_holds K t (File (d ++ data) m)) (on K) (on K).
Proof.
  assert (∀ n s, temporary_holds K t (File d m) s →
    on K (on_file t (λ d m, ((), File (d ++ take n data) m)) s).2) as Hpart.
  { intros n s Hs. pose proof Hs as (_ & _ & Hn). unfold on_file. rewrite Hn. simpl.
    eapply temporary_on, temporary_insert; eauto. }
  apply triple_call; eauto with keeps.
  intros s Hs. pose proof Hs as (_ & _ & Hn). unfold on_file. rewrite Hn. simpl.
  by eapply temporary_insert.
Qed.

Lemma triple_create_candidate K numbers :
  triple (on K) (create_candidate G etc numbers)
    (λ r s, match r with
            | Some t => temporary_holds K t (File [] (Meta 0 0 384)) s
            | None => on K s
            end) (on K) (on K).
Proof.
  induction numbers as [|n numbers IH]; simpl; [by apply triple_ret|].
  eapply triple_bind with (R := λ created s,
    if created : bool then temporary_holds K (candidate G etc n) (File [] (Meta 0 0 384)) s
    else on K s).
  - apply triple_call; eauto with keeps. intros s Hs.
    destruct (s !! candidate G etc n) eqn:E; [done|].
    destruct (in_directory _ _); [|done]. split_and!; [eauto| |by rewrite lookup_insert_eq].
    rewrite (on_temporary G K n (insert _ _)); [done|]. intros p Hp. by apply lookup_insert_ne.
  - intros []; [by apply triple_ret|done].
Qed.

Definition written_node (data : bytes) (m : meta) : node :=
  File data (Meta (uid m) (gid m) (Z.land (perm m) 4095)).

Lemma triple_fill_temporary K t data m :
  triple (temporary_holds K t (File [] (Meta 0 0 384)))
    (_ ← chown G t (uid m) (gid m);
     _ ← set_permissions G t (Z.land (perm m) 4095);
     _ ← write_all G t data;
     sync_all G t)
    (λ _, temporary_holds K t (written_node data m)) (on K) (on K).
Proof.
  eapply triple_bind; [apply triple_on_file|intros ?; simpl].
  eapply triple_bind; [apply triple_set_permissions|intros ?; simpl].
  eapply triple_bind; [apply triple_write_all|intros ?; simpl].
  apply triple_query; eauto with keeps.
Qed.

Lemma triple_remove_temporary K t :
  triple (λ s, (∃ k, t = candidate G etc k) ∧ on K s) (attempt (remove_file G t))
    (λ _, on K) (on K) (on K).
Proof.
  apply triple_pure. intros [k ->]. apply triple_attempt.
  apply (triple_weaken (on K) _ _ (λ _, on K) _ (on K) _ (on K) _); auto.
  apply triple_call; eauto with keeps.
  intros s Hs. destruct (s !! candidate G etc k) as [[]|]; eauto using on_temporary_delete.
Qed.

Lemma triple_write_temporary K p data m :
  parent p = Some etc →
  triple (on K) (write_temporary G p data m)
    (λ t, temporary_holds K t (written_node data m)) (on K) (on K).
Proof.
  intros Hp. unfold write_temporary. rewrite Hp.
  eapply triple_bind with (R := λ dir s, dir = etc ∧ on K s);
    [apply triple_lift; [intros ? ? [= <-]|]; auto|].
  intros dir. apply triple_pure. intros ->.
  eapply triple_bind; [apply triple_create_candidate|intros found; simpl].
  eapply triple_bind with (R := λ t, temporary_holds K t (File [] (Meta 0 0 384))).
  { apply triple_lift; destruct found; simpl; try done; [by intros ? ? [= <-]|].
    intros s. apply temporary_on. }
  intros t. eapply triple_bind with (R := λ r s,
    match r with
    | Ok _ => temporary_holds K t (written_node data m) s
    | Err _ => (∃ k, t = candidate G etc k) ∧ on K s
    end).
  - apply triple_attempt.
    apply (triple_weaken (λ s, (∃ k, t = candidate G etc k) ∧
      temporary_holds K t (File [] (Meta 0 0 384)) s) _ _
      (λ _, temporary_holds K t (written_node data m)) _
      (λ s, (∃ k, t = candidate G etc k) ∧ on K s) _ (on K) _); try done.
    2: { intros s Hs. by pose proof Hs as (? & _). }
    apply triple_pure. intros Hk. eapply triple_weaken; [apply triple_fill_temporary|done..| |done].
    simpl. auto.
  - intros [u|e]; [by apply triple_ret|].
    eapply triple_bind; [apply triple_remove_temporary|].
    intros ?. by apply triple_throw.
Qed.

Definition contents (p : path) (d : bytes) (m : meta) (s : files) : Prop := s !! p = Some (File d m).

(** Nobody else touches the file, so what is open is what is there. *)
Lemma triple_now (P : files → Prop) p n :
  p = CONFIG ∨ p = BACKUP → stable G P →
  triple (λ s, P s ∧ s !! p = Some n) (now G p n) (λ n' s, (P s ∧ s !! p = Some n) ∧ n' = n) P P.
Proof.
  intros Hp HP.
  enough (∀ t, triple (λ s, P s ∧ s !! p = Some n) (now_at G t p n) (λ n' s, (P s ∧ s !! p = Some n) ∧ n' = n) P P)
    as Ht by (intros w; apply (Ht (tick w))).
  intros t. apply triple_query; [|intros n' s Hn Hs|by intros ? []..].
  - intros i s [Hs Hn]. split; [by apply HP|]. rewrite quiet; tauto.
  - split; [done|]. destruct Hs as [_ E]. rewrite E in Hn. destruct n; try by simplify_eq.
    by destruct (in_place _ _); simplify_eq.
Qed.

Lemma triple_read_file (P : files → Prop) p :
  p = CONFIG ∨ p = BACKUP → stable G P →
  triple P (read_file G p) (λ '(d, m) s, P s ∧ contents p d m s) P P.
Proof.
  intros Hp HP. unfold read_file.
  eapply triple_bind with (R := λ n s, P s ∧ s !! p = Some n).
  - apply triple_query; [done| |done..]. intros n s Hr Hs. split; [done|].
    destruct (s !! p) as [[]|] eqn:E; by simplify_eq.
  - intros n. eapply triple_bind; [by apply triple_now|intros inspected].
    destruct inspected as [d m| | |]; try (by apply triple_throw; intros ? [[] _]).
    eapply triple_pre with (P := λ s, P s ∧ s !! p = Some (File d m)); [|by intros s [? ->]].
    eapply triple_bind; [apply keeps_step; [apply keeps_guard|by intros ? []..]|intros ?].
    eapply triple_bind; [by apply triple_now|intros held].
    eapply triple_bind with (R := λ _ s, P s ∧ s !! p = Some (File d m) ∧ held = File d m).
    { apply triple_guard; [by intros s _ [[Hs Hn] ->]|by intros ? [[] ?]]. }
    intros ?. apply triple_ret. intros s (Hs & Hn & ->). by split.
Qed.

(** The temporary file, or whatever is left of it, is removed; errors of that do not matter. *)
Lemma triple_discard {A : Type} K t (k : M A) (Q : A → files → Prop) (X H : files → Prop) :
  triple (on K) k Q X H → (∀ s, on K s → X s) → (∀ s, on K s → H s) →
  triple (λ s, (∃ k, t = candidate G etc k) ∧ on K s)
    (leftover ← exists_ G t;
     _ ← (if leftover : bool then attempt (remove_file G t) else mret (Ok ()));
     k) Q X H.
Proof.
  intros Hk HX HH. apply triple_pure. intros Ht.
  eapply triple_bind; [apply keeps_step; [by apply keeps_exists, stable_on|done..]|intros leftover].
  eapply triple_bind with (R := λ _, on K); [|done].
  destruct leftover; [|by apply triple_ret].
  eapply triple_post; [eapply triple_pre; [apply (triple_remove_temporary K t)|by split]|done..].
Qed.

(** [replace_file] moves [K] to [K'], or fails in one of them. *)
Lemma triple_replace_file K K' data m expected :
  (∀ c b mm, K c b → c = Some (File expected mm) → K' (Some (written_node data m)) b) →
  triple (on K) (replace_file G CONFIG data m expected) (λ _, on K')
    (on (λ c b, K c b ∨ K' c b)) (on (λ c b, K c b ∨ K' c b)).
Proof.
  intros Hmove. unfold replace_file. set (KX := λ c b, K c b ∨ K' c b).
  assert (∀ s, on K s → on KX s) as HKX by (intros s; unfold on, KX; auto).
  assert (∀ s, on K' s → on KX s) as HKX' by (intros s; unfold on, KX; auto).
  eapply triple_bind; [eapply triple_post; [by apply triple_write_temporary|done..]|].
  intros t. eapply triple_bind with (R := λ r s, (∃ k, t = candidate G etc k) ∧
    on (match r with Ok _ => K' | Err _ => KX end) s).
  - apply triple_attempt.
    eapply triple_pre with (P := λ s, (∃ k, t = candidate G etc k) ∧
      temporary_holds K t (written_node data m) s); [|intros s Hs; by pose proof Hs as [? _]].
    apply triple_pure. intros Hk.
    eapply triple_post with (Q := λ _ s, on K' s) (X := on KX) (H := on KX); [|auto..].
    eapply triple_bind.
    { eapply triple_post; [apply (triple_read_file (temporary_holds K t (written_node data m)));
        eauto with keeps|done|eauto using temporary_on..]. }
    intros [current mm].
    eapply triple_bind with (R := λ _ s, temporary_holds K t (written_node data m) s ∧
      contents CONFIG expected mm s).
    { apply triple_guard; [intros s ->%bool_decide_eq_true|]; naive_solver eauto using temporary_on. }
    intros ?. eapply triple_bind with (R := λ _, on K').
    2: { intros ?. apply keeps_step; [by apply keeps_query, stable_on|done..]. }
    apply triple_call; [|intros s [Ht Hc]|intros ? s [Ht _]; eauto using temporary_on..].
    { intros i s [Ht Hc]. split; [by apply stable_temporary|]. unfold contents. rewrite quiet; auto. }
    pose proof Ht as (_ & HK & Hn). unfold renamed. rewrite Hn, Hc. unfold written_node. destruct Hk as [k ->].
    destruct (in_directory _ _); [|eauto using temporary_on].
    destruct (candidate_names G k) as [? ?]. unfold on.
    rewrite lookup_insert_eq, lookup_insert_ne, lookup_delete_ne by done.
    by eapply Hmove.
  - intros r. apply (triple_discard (match r with Ok _ => K' | Err _ => KX end)).
    + destruct r; [by apply triple_ret|by apply triple_throw].
    + by destruct r.
    + by destruct r.
Qed.

(** [save_backup] creates the backup, or fails before or after that. *)
Lemma triple_save_backup K K' original m :
  (∀ c, K c None → K' c (Some (written_node original m))) →
  triple (on K) (save_backup G BACKUP original m) (λ _, on K')
    (on (λ c b, K c b ∨ K' c b)) (on (λ c b, K c b ∨ K' c b)).
Proof.
  intros Hmove. unfold save_backup. set (KX := λ c b, K c b ∨ K' c b).
  assert (∀ s, on K s → on KX s) as HKX by (intros s; unfold on, KX; auto).
  assert (∀ s, on K' s → on KX s) as HKX' by (intros s; unfold on, KX; auto).
  eapply triple_bind; [eapply triple_post; [by apply triple_write_temporary|done..]|].
  intros t. eapply triple_bind with (R := λ r s, (∃ k, t = candidate G etc k) ∧
    on (match r with Ok _ => K' | Err _ => KX end) s).
  - apply triple_attempt.
    eapply triple_pre with (P := λ s, (∃ k, t = candidate G etc k) ∧
      temporary_holds K t (written_node original m) s); [|intros s Hs; by pose proof Hs as [? _]].
    apply triple_pure. intros Hk.
    eapply triple_post with (Q := λ _ s, on K' s) (X := on KX) (H := on KX); [|auto..].
    eapply triple_bind with (R := λ _, on K').
    2: { intros ?. apply keeps_step; [by apply keeps_query, stable_on|done..]. }
    apply triple_call; [by apply stable_temporary|intros s Ht|eauto using temporary_on..].
    pose proof Ht as (_ & HK & Hn). rewrite Hn. destruct (s !! BACKUP) eqn:Hb; [by apply HKX|].
    unfold written_node. destruct (in_directory _ _); [|by apply HKX].
    unfold on in *. rewrite lookup_insert_eq, lookup_insert_ne by done.
    apply Hmove. by rewrite <-Hb.
  - intros r. eapply triple_bind with (R := λ _, on (match r with Ok _ => K' | Err _ => KX end)).
    + eapply triple_post; [apply triple_remove_temporary|done|by destruct r..].
    + intros ?. destruct r; [by apply triple_ret|by apply triple_throw].
Qed.

(** ** The recovery protocol *)

Context (original : bytes) (m : meta) (mode : valid_mode m).

Lemma written_valid data : written_node data m = File data m.
Proof using mode. unfold written_node. rewrite mode. by destruct m. Qed.

Definition restored_with_backup : entries := λ c b,
  c = Some (File original m) ∧ b = Some (File original m).

Lemma backed_up_recoverable c b : backed_up original m c b → recoverable original m c b.
Proof. by intros []. Qed.
Lemma restored_backed_up c b : restored_with_backup c b → backed_up original m c b.
Proof. intros [-> ->]. split; [left|]; auto. Qed.
Lemma restored_recoverable c b : restored original m c b → recoverable original m c b.
Proof. intros [-> ->]. left. auto. Qed.

Lemma on_mono (K K' : entries) s : (∀ c b, K c b → K' c b) → on K s → on K' s.
Proof. unfold on. auto. Qed.

Lemma contents_on (K : entries) p d mm s :
  p = CONFIG ∨ p = BACKUP → on K s → contents p d mm s →
  on (λ c b, K c b ∧ (if decide (p = CONFIG) then c else b) = Some (File d mm)) s.
Proof. intros Hp HK Hc. split; [done|]. case_decide; [by subst|]. by destruct Hp as [| ->]. Qed.

Lemma triple_restore_file temporary :
  disabled_config original = Ok temporary →
  triple (on (backed_up original m)) (restore_file G CONFIG original m temporary)
    (λ _, on restored_with_backup) (on (backed_up original m)) (on (backed_up original m)).
Proof using mode quiet.
  intros Htmp. unfold restore_file.
  eapply triple_bind; [apply triple_read_file; eauto with keeps|intros [current mm]].
  case_decide as Hcur; [|case_decide as Hne].
  - eapply triple_pre with (P := on (backed_up original m)); [|by intros s []].
    eapply triple_post; [apply (triple_replace_file _ restored_with_backup)|done|..].
    { intros c b mm' [_ ->] _. split; [by rewrite written_valid|done]. }
    all: intros s; apply on_mono; intros c b [|]; auto using restored_backed_up.
  - by apply triple_throw; intros s [].
  - subst current. apply triple_ret.
    intros s [[Hr Hb] Hcont]. unfold contents in Hcont.
    destruct Hr as [[Hc _]|(t & Ht & Hc & _)]; [by split|congruence].
Qed.

(** What [recover_backup] and [shutdown] leave behind when they return. *)
Definition settled (s : files) : Prop :=
  on (recoverable original m) s ∧ (no_faults G → on (restored original m) s).

Lemma stable_settled : stable G settled.
Proof using quiet. intros t s [H1 H2]. split; [|intros Hn]; apply stable_on; auto. Qed.

Lemma recoverable_backup s n :
  on (recoverable original m) s → s !! BACKUP = Some n →
  n = File original m ∧ on (backed_up original m) s.
Proof.
  unfold on. intros Hr Hn. rewrite Hn in *.
  assert (n = File original m) as -> by (destruct Hr as [(_ & [?|?])|(? & _ & _ & ?)]; congruence).
  by repeat split.
Qed.

Lemma recoverable_restored s :
  on (recoverable original m) s → s !! BACKUP = None → on (restored original m) s.
Proof.
  unfold on. intros Hr Hn. rewrite Hn in *. destruct Hr as [(-> & _)|(? & _ & _ & ?)]; [done|congruence].
Qed.

Abbreviation R := (on (recoverable original m)).

Lemma triple_lookup_backup :
  triple R (attempt (lookup_node G BACKUP))
    (λ r s, R s ∧ match r with Ok n => s !! BACKUP = n | Err _ => ¬ no_faults G end) R R.
Proof using quiet.
  intros w Hw. unfold attempt, lookup_node, query, call.
  destruct (fate_at G (tick w)) eqn:E; simpl; try (by apply stable_on); split;
    try (by apply stable_on); [done|]. intros Hn. by eapply Hn.
Qed.

(** The first two lines of [recover_backup]. *)
Lemma triple_find_backup :
  triple R
    (present ← exists_ G BACKUP;
     if present : bool then mret true
     else found ← attempt (lookup_node G BACKUP);
          mret match found with Ok (Some _) => true | _ => false end)
    (λ entry s, if entry : bool then on (backed_up original m) s else settled s) R R.
Proof using quiet.
  eapply triple_bind with (R := λ present s, R s ∧ (present = true → is_Some (s !! BACKUP))).
  - unfold exists_. eapply triple_bind; [apply triple_lookup_backup|intros r].
    apply triple_ret. intros s [Hr Hl]. split; [done|]. destruct r as [[[]|]|]; try done; by rewrite Hl.
  - intros present. destruct present.
    + apply triple_ret. intros s [Hr [n Hn]]; [done|]. by eapply recoverable_backup.
    + eapply triple_bind; [eapply triple_pre; [apply triple_lookup_backup|by intros ? []]|intros r].
      apply triple_ret. intros s [Hr Hl]. destruct r as [[n|]|].
      * by eapply recoverable_backup.
      * split; [done|]. intros _. by apply recoverable_restored.
      * split; [done|]. by intros Hn%Hl.
Qed.

(** Removing the backup once the original is back. *)
Lemma triple_drop_backup :
  triple (on restored_with_backup)
    (_ ← remove_file G BACKUP; sync_directory G (default [] (parent BACKUP)))
    (λ _, settled) R R.
Proof using quiet.
  eapply triple_bind with (R := λ _, on (restored original m)).
  - assert (∀ s, on restored_with_backup s → R s) as Hr.
    { intros s. apply on_mono. auto using backed_up_recoverable, restored_backed_up. }
    apply triple_call; eauto with keeps. intros s [Hc Hb]. rewrite Hb. unfold on.
    by rewrite lookup_delete_ne, lookup_delete_eq.
  - intros ?. apply triple_query; [by apply stable_on|..].
    + intros _ s _ Hs. split; [|done]. eapply on_mono, Hs. apply restored_recoverable.
    + intros s. apply on_mono, restored_recoverable.
    + intros s. apply on_mono, restored_recoverable.
Qed.

Lemma triple_recover_backup : triple R (recover_backup G CONFIG BACKUP) (λ _, settled) R R.
Proof using mode quiet.
  unfold recover_backup.
  assert (∀ s, on (backed_up original m) s → R s) as HB
    by (intros s; apply on_mono, backed_up_recoverable).
  assert (∀ s, on restored_with_backup s → R s) as HRB
    by (intros s Hs; eapply HB, on_mono, Hs; apply restored_backed_up).
  eapply triple_bind; [apply triple_find_backup|intros entry].
  destruct entry; simpl; [|by apply triple_ret].
  eapply triple_bind; [eapply triple_post; [apply (triple_read_file (on (backed_up original m)));
    eauto with keeps|done|done|done]|intros [o mm]].
  eapply triple_pre with (P := λ s, (o = original ∧ mm = m) ∧ on (backed_up original m) s).
  2: { intros s [Hs Hc]. split; [|done]. destruct Hs as [_ Hs].
       unfold contents in Hc. rewrite Hs in Hc. by simplify_eq. }
  apply triple_pure. intros [-> ->].
  eapply triple_bind with (R := λ t s, disabled_config original = Ok t ∧ on (backed_up original m) s).
  { apply triple_lift; auto. }
  intros t. apply triple_pure. intros Ht.
  eapply triple_bind; [eapply triple_post; [by apply triple_restore_file|done..]|intros ?].
  eapply triple_bind; [apply keeps_step; [by apply keeps_restore_runtime, stable_on|done..]|intros ?].
  apply triple_drop_backup.
Qed.

Lemma triple_prepare active :
  triple settled (prepare G active)
    (λ r s, match r with
            | None => settled s
            | Some (o, mm, t) =>
                o = original ∧ mm = m ∧ disabled_config original = Ok t ∧ on (backed_up original m) s
            end) R R.
Proof using mode quiet.
  assert (∀ s, settled s → R s) as HS by (by intros s []).
  destruct active; [|by apply triple_ret]. unfold prepare.
  eapply triple_bind; [eapply triple_post; [apply (triple_read_file settled);
    eauto using stable_settled|done|done|done]|intros [o mm]].
  eapply triple_bind with (R := λ t s, disabled_config o = Ok t ∧ settled s ∧ contents CONFIG o mm s).
  { apply triple_lift; naive_solver. }
  intros t. apply triple_pure. intros Ht.
  assert (stable G (λ s, settled s ∧ contents CONFIG o mm s)) as Hst.
  { intros i s [H1 H2]. split; [by apply stable_settled|]. unfold contents. rewrite quiet; auto. }
  eapply triple_bind; [apply keeps_step; [by apply keeps_live_restore|by intros s [[]]..]|intros enabled].
  destruct enabled; [|apply triple_ret; by intros s []].
  set (K := λ c b, recoverable original m c b ∧ c = Some (File o mm)).
  set (K' := λ c b, (o = original ∧ mm = m) ∧ restored_with_backup c b).
  eapply triple_bind with (R := λ _, on K').
  { eapply triple_pre with (P := on K); [|by intros s [[? _] ?]].
    eapply triple_post; [apply (triple_save_backup K K')|done|..].
    { intros c [[[-> _]|(? & _ & _ & ?)] Hc]; [|done]. injection Hc as <- <-.
      repeat split. by rewrite written_valid. }
    all: intros s; apply on_mono; intros c b [[? _]|[_ ?]];
      auto using backed_up_recoverable, restored_backed_up. }
  intros ?. unfold on, K'. apply triple_pure. intros [-> ->].
  eapply triple_bind with (R := λ _, on (backed_up original m)).
  { eapply triple_post;
      [apply (triple_replace_file restored_with_backup (λ c b, c = Some (File t m) ∧ b = Some (File original m)))|..].
    { intros c b mm' [_ ->] _. by rewrite written_valid. }
    all: [> intros ? s|intros s|intros s]; apply on_mono; intros c b.
    - intros [-> ->]. split; [right|]; eauto.
    - intros [?|[-> ->]]; [auto using backed_up_recoverable, restored_backed_up|right; eauto].
    - intros [?|[-> ->]]; [auto using backed_up_recoverable, restored_backed_up|right; eauto]. }
  intros ?. by apply triple_ret.
Qed.

(** The closure after [prepare], and the restoration at the end of [shutdown]. *)
Lemma triple_disable_and_stop active state (P : files → Prop) r :
  stable G P →
  match r with
  | None => True
  | Some (o, mm, t) => triple P (restore_file G CONFIG o mm t) (λ _, P) P P
  end →
  triple P (attempt (_ ← disable_and_restore G active state r; stop_docker G active))
    (λ _, P) P P.
Proof using quiet.
  intros HP Hr. apply keeps_attempt, keeps_bind; [|intros ?; by apply keeps_stop_docker].
  unfold disable_and_restore. apply keeps_bind.
  - destruct r as [[[o mm] t]|]; [|by apply keeps_ret].
    apply keeps_bind; [by apply keeps_reload_config|done].
  - intros ?. keeps; auto using keeps_service_state, keeps_live_restore.
Qed.

Lemma triple_finish {A : Type} t failed (k : M A) (Q : A → files → Prop) :
  disabled_config original = Ok t → triple settled k Q R R →
  triple (on (backed_up original m))
    (_ ← (restored ← attempt
            (_ ← restore_file G CONFIG original m t;
             if decide (failed = false) then restore_runtime G original else mret ());
          _ ← lift restored;
          _ ← remove_file G BACKUP;
          sync_directory G (default [] (parent BACKUP)));
     k) Q R R.
Proof using mode quiet.
  intros Ht Hk.
  assert (∀ s, on (backed_up original m) s → R s) as HB
    by (intros s; apply on_mono, backed_up_recoverable).
  eapply triple_bind; [|intros ?; exact Hk].
  eapply triple_bind with (R := λ r, on (match r with
    | Ok _ => restored_with_backup | Err _ => backed_up original m end)).
  - apply triple_attempt. eapply triple_post with (Q := λ _, on restored_with_backup)
      (X := on (backed_up original m)) (H := on (backed_up original m)); [|done..].
    eapply triple_bind; [by apply triple_restore_file|intros ?].
    apply keeps_step; [|intros s; apply on_mono, restored_backed_up..].
    case_decide; [by apply keeps_restore_runtime, stable_on|by apply keeps_ret].
  - intros r. eapply triple_bind with (R := λ _, on restored_with_backup).
    + apply triple_lift; [by intros ? s ->|]. intros s Hs. destruct r; [|by apply HB].
      eapply on_mono, Hs. auto using backed_up_recoverable, restored_backed_up.
    + intros ?. apply triple_drop_backup.
Qed.

(** C1. Docker's configuration survives [shutdown]: whichever call fails and wherever the process
    dies, the original file is in place, or the edited one is and the backup is the original.
    When [shutdown] succeeds and no call failed, the original is in place and the backup is
    gone. *)
Theorem shutdown_recoverable :
  triple (on (recoverable original m)) (shutdown G) (λ _, settled)
    (on (recoverable original m)) (on (recoverable original m)).
Proof using mode quiet.
  assert (∀ s, settled s → R s) as HS by (by intros s []).
  assert (∀ s, on (backed_up original m) s → R s) as HB
    by (intros s; apply on_mono, backed_up_recoverable).
  unfold shutdown. eapply triple_bind; [apply triple_recover_backup|intros ?].
  eapply triple_bind; [apply keeps_step; [by apply keeps_service_state, stable_settled|done..]|].
  intros state. cbv zeta.
  eapply triple_bind; [apply keeps_step; [apply keeps_guard|done..]|intros ?].
  eapply triple_bind with (R := λ p s, match p with
    | Ok None => settled s
    | Ok (Some (o, mm, t)) =>
        o = original ∧ mm = m ∧ disabled_config original = Ok t ∧ on (backed_up original m) s
    | Err _ => R s
    end).
  { apply triple_attempt. eapply triple_post; [apply triple_prepare|done..]. }
  intros [[[[o mm] t]|]|e].
  - apply triple_pure. intros ->. apply triple_pure. intros ->. apply triple_pure. intros Ht.
    eapply triple_bind with (R := λ _, on (backed_up original m)).
    + eapply triple_post; [apply triple_disable_and_stop; [by apply stable_on|]|done..].
      eapply triple_post; [by apply triple_restore_file| |done..].
      intros ? s. apply on_mono, restored_backed_up.
    + intros outcome. apply triple_finish; [done|]. by apply triple_lift.
  - eapply triple_bind with (R := λ _, settled).
    + eapply triple_post; [by apply triple_disable_and_stop, I; apply stable_settled|done..].
    + intros outcome. eapply triple_bind with (R := λ _, settled); [by apply triple_ret|intros ?].
      by apply triple_lift.
  - eapply triple_bind with (R := λ r s, r = Err e ∧ R s); [by apply triple_ret|].
    intros outcome. apply triple_pure. intros ->.
    eapply triple_bind with (R := λ _, R); [by apply triple_ret|intros ?]. by apply triple_lift.
Qed.
End files.

(** ** Runs without faults *)

Lemma disabled_config_limit d t : disabled_config d = Ok t → (len t <= LIMIT)%Z.
Proof.
  unfold disabled_config. intros H. apply bind_Ok in H as ([[f c] a] & _ & H).
  apply bind_Ok in H as (x & _ & H). apply ensure_bind_Ok in H as [H [= <-]]. by apply Z.leb_le.
Qed.

Section calm.
Context (G : guest) (Hcalm : calm G).

Hint Resolve returns_ret returns_attempt returns_guard returns_lift : core.

Lemma read_file_returns s p d m :
  contents p d m s → (len d <= LIMIT)%Z → returns s (read_file G p) (d, m) s.
Proof.
  intros Hc Hl. unfold contents in Hc.
  eapply returns_bind; [apply (returns_query G Hcalm); by rewrite Hc|]. simpl.
  assert (returns s (now G p (File d m)) (File d m) s) as Hnow.
  { intros w Hw. apply (returns_query G Hcalm s _ (File d m)); [|done]. rewrite Hc. by destruct (in_place _ _). }
  repeat (eapply returns_bind; [first [apply Hnow | by apply returns_guard, Z.leb_le]|]).
  apply returns_ret.
Qed.

Lemma on_file_returns s p d m (f : bytes → meta → unit * node) partial :
  contents p d m s → returns s (call G partial (on_file p f)) () (<[p := (f d m).2]> s).
Proof.
  intros Hc. apply (returns_call G Hcalm). unfold on_file. rewrite Hc. by destruct (f d m) as [[] n].
Qed.

(** Temporary files can be made: the directory is there, and one of the hundred names is free. *)
Definition room (s : files) : Prop :=
  (∃ dm, s !! etc = Some (Directory dm)) ∧ ∃ k, k < 100 ∧ s !! candidate G etc (N.of_nat k) = None.

Lemma candidate_directory s k : (∃ dm, s !! etc = Some (Directory dm)) → in_directory s (candidate G etc k) = true.
Proof.
  intros [dm Hd]. unfold in_directory.
  change (candidate G etc k)
    with (etc ++ "/"%char :: str ".luhmen-shutdown-" ++ decimal (process_id G) ++ str "-" ++ decimal k).
  assert (∀ n, "/"%char ∈ decimal n → False) as Hdec.
  { intros n Hin. pose proof (decimal_is_digits n) as Hall. rewrite Forall_forall in Hall.
    by specialize (Hall _ Hin). }
  rewrite parent_app; [change (match s !! etc with Some n => is_directory n | None => false end = true); by rewrite Hd|].
  rewrite !elem_of_app. intros [H|[H|[H|H]]]; [|by eapply Hdec| |by eapply Hdec].
  all: by apply list_elem_of_In in H; vm_compute in H; intuition discriminate.
Qed.

Lemma etc_candidate k : candidate G etc k ≠ etc.
Proof. unfold candidate. intros H. apply (f_equal length) in H. rewrite length_app in H. simpl in H. lia. Qed.

Lemma create_candidate_returns s numbers :
  (∃ dm, s !! etc = Some (Directory dm)) → Exists (λ n, s !! candidate G etc n = None) numbers →
  ∃ k, s !! candidate G etc k = None ∧
    returns s (create_candidate G etc numbers) (Some (candidate G etc k))
      (<[candidate G etc k := File [] (Meta 0 0 384)]> s).
Proof.
  intros Hd. induction numbers as [|n numbers IH]; [by intros ?%Exists_nil|].
  intros Hex. simpl. destruct (s !! candidate G etc n) as [node|] eqn:E.
  - apply Exists_cons in Hex as [Hn|Hex]; [congruence|]. destruct (IH Hex) as (k & Hk & Hr).
    exists k. split; [done|]. eapply returns_bind; [apply (returns_call G Hcalm); by rewrite E|]. done.
  - exists n. split; [done|]. eapply returns_bind with (a := true); [|apply returns_ret].
    apply (returns_call G Hcalm). by rewrite E, candidate_directory.
Qed.

Lemma write_temporary_returns s p data m :
  parent p = Some etc → room s →
  ∃ k, s !! candidate G etc k = None ∧
    returns s (write_temporary G p data m) (candidate G etc k) (<[candidate G etc k := written_node data m]> s).
Proof.
  intros Hp (Hd & i & Hi & Hfree). unfold write_temporary. rewrite Hp.
  destruct (create_candidate_returns s (map N.of_nat (seq 0 100)) Hd) as (k & Hk & Hr).
  { apply Exists_exists. exists (N.of_nat i). split; [|done]. apply list_elem_of_fmap. exists i.
    split; [done|]. apply elem_of_seq. lia. }
  exists k. split; [done|].
  eapply returns_bind; [by apply returns_lift|].
  eapply returns_bind; [exact Hr|].
  eapply returns_bind; [by apply returns_lift|].
  eapply returns_bind with (a := Ok ()); [|by apply returns_ret]. apply returns_attempt.
  eapply returns_bind; [eapply on_file_returns; unfold contents; by rewrite lookup_insert_eq|].
  eapply returns_bind.
  { apply (returns_call G Hcalm). simpl. unfold on_file. rewrite lookup_insert_eq. reflexivity. }
  eapply returns_bind; [eapply on_file_returns; unfold contents; by rewrite lookup_insert_eq|].
  simpl. rewrite !insert_insert_eq. by apply (returns_query G Hcalm).
Qed.

Lemma replace_file_returns s data m expected mm :
  room s → contents CONFIG expected mm s → (len expected <= LIMIT)%Z →
  returns s (replace_file G CONFIG data m expected) () (<[CONFIG := written_node data m]> s).
Proof.
  intros Hroom Hc Hl. unfold replace_file.
  destruct (write_temporary_returns s CONFIG data m eq_refl Hroom) as (k & Hfree & Hw).
  destruct (candidate_names G k) as [HnC _].
  eapply returns_bind; [exact Hw|].
  set (s1 := <[candidate G etc k := written_node data m]> s).
  set (s2 := <[CONFIG := written_node data m]> s).
  assert (delete (candidate G etc k) s1 = s) as Hdel by (unfold s1; by apply delete_insert_id).
  eapply returns_bind with (s' := s2).
  { apply returns_attempt. eapply returns_bind.
    { apply (read_file_returns _ _ expected mm); [|done]. unfold contents, s1.
      by rewrite lookup_insert_ne. }
    eapply returns_bind; [by apply returns_guard, bool_decide_eq_true_2|].
    eapply returns_bind; [|by apply (returns_query G Hcalm)].
    apply (returns_call G Hcalm). unfold renamed. rewrite Hdel. unfold s1.
    rewrite lookup_insert_eq, lookup_insert_ne, Hc by done. unfold written_node at 1.
    destruct Hroom as [[dm Hd] _].
    assert (in_directory (<[candidate G etc k := written_node data m]> s) CONFIG = true) as Hin; [|by rewrite Hin].
    change (match <[candidate G etc k := written_node data m]> s !! etc with
            | Some n => is_directory n | None => false end = true).
    rewrite lookup_insert_ne, Hd by (apply etc_candidate). done. }
  assert (s2 !! candidate G etc k = None) as Hgone by (unfold s2; by rewrite lookup_insert_ne).
  eapply returns_bind.
  { unfold exists_, lookup_node. eapply returns_bind; [apply returns_attempt; by apply (returns_query G Hcalm)|].
    rewrite Hgone. apply returns_ret. }
  eapply returns_bind; apply returns_ret.
Qed.

(** What [systemctl show] prints for a stopped Docker. *)
Definition idle : Prop :=
  ∀ t, ∃ out,
    let c := command G t "systemctl"
      (map str ["show"; "docker.service"; "-p"; "ActiveState"; "-p"; "MainPID"; "-p"; "Result"]) in
    spawned c = Ok () ∧ wait (polls c) = Ok out ∧ utf8_valid out = true ∧
    is_field (parse_state out) "ActiveState" "inactive" = true ∧
    is_field (parse_state out) "MainPID" "0" = true.

Lemma service_state_idle w :
  idle → ∃ state w', service_state G w = (Ret state, w') ∧ fs w' = fs w ∧
    is_field state "ActiveState" "inactive" = true ∧ is_field state "MainPID" "0" = true.
Proof.
  intros Hidle. destruct (Hidle (tick w)) as (out & Hsp & Hwt & Hu & Ha & Hm).
  assert (∃ w', run G "systemctl" (map str ["show"; "docker.service"; "-p"; "ActiveState"; "-p";
      "MainPID"; "-p"; "Result"]) w = (Ret out, w') ∧ fs w' = fs w) as (w' & E & Hw').
  { unfold run, observe, query, call. destruct (Hcalm (tick w)) as [-> ->].
    rewrite Hsp. unfold mbind, result_bind. rewrite Hwt. by eexists. }
  exists (parse_state out), w'. split; [|done].
  unfold service_state, systemctl. unfold mbind, M_bind. rewrite E, Hu. done.
Qed.

Lemma restore_runtime_returns s original : idle → returns s (restore_runtime G original) () s.
Proof.
  intros Hidle w Hw. destruct (service_state_idle w Hidle) as (state & w' & E & Hw' & Ha & Hm).
  assert (is_field state "ActiveState" "active" = false) as Hna.
  { apply bool_decide_eq_true in Ha. unfold is_field. by rewrite Ha. }
  unfold restore_runtime, mbind, M_bind. rewrite E, Hna, Ha, Hm. exists w'. by rewrite Hw'.
Qed.

Lemma restore_file_returns s original m temporary current :
  valid_mode m → room s → contents CONFIG current m s →
  current = original ∨ current = temporary → (len current <= LIMIT)%Z →
  returns s (restore_file G CONFIG original m temporary) () (<[CONFIG := File original m]> s).
Proof.
  intros Hm Hfree Hc Hcur Hl. unfold restore_file.
  eapply returns_bind; [by eapply read_file_returns|].
  assert (File original m = written_node original m) as ->
    by (unfold written_node; rewrite Hm; by destruct m).
  case_decide as Ht; [subst; by eapply replace_file_returns|].
  destruct Hcur as [->|]; [|done]. rewrite decide_False by tauto.
  rewrite insert_id; [apply returns_ret|]. rewrite Hc. unfold written_node. rewrite Hm. by destruct m.
Qed.

(** C17. From every recoverable state [recover_backup] succeeds when no call fails, Docker is
    stopped, and one of the hundred names for its temporary file is free in [/etc/docker], whichever
    killed shutdowns have left the others taken: the original configuration is in place, the backup
    is gone and no other file has changed. *)
Theorem recover_backup_succeeds s original m temporary :
  idle → valid_mode m → disabled_config original = Ok temporary → (len original <= LIMIT)%Z →
  on (recoverable original m) s → room s →
  returns s (recover_backup G CONFIG BACKUP) () (<[CONFIG := File original m]> (delete BACKUP s)).
Proof.
  intros Hidle Hm Ht Hl Hrec Hfree. unfold recover_backup.
  assert ((len temporary <= LIMIT)%Z) as Hlt.
  { by eapply disabled_config_limit. }
  assert (∀ n, s !! BACKUP = n → (∀ l, n ≠ Some (Symlink l)) →
    returns s (exists_ G BACKUP) (match n with Some _ => true | None => false end) s) as Hex.
  { intros n Hn Hsym. unfold exists_, lookup_node.
    eapply returns_bind; [apply returns_attempt; by apply (returns_query G Hcalm)|]. rewrite Hn.
    destruct n as [[]|]; [..|by apply returns_ret]; try by apply returns_ret. by destruct (Hsym to). }
  destruct (s !! BACKUP) as [n|] eqn:Hb.
  - assert (n = File original m ∧ ∃ current, contents CONFIG current m s ∧
      (current = original ∨ current = temporary)) as (-> & current & Hc & Hcur).
    { unfold on in Hrec. rewrite Hb in Hrec.
      destruct Hrec as [(Hc & [?|?])|(t & Ht' & Hc & ?)]; [done|..]; split; try congruence.
      - exists original. auto.
      - exists t. split; [done|right; congruence]. }
    eapply returns_bind; [eapply returns_bind; [by apply (Hex (Some (File original m)))|simpl; apply returns_ret]|]. simpl.
    eapply returns_bind; [by apply (read_file_returns _ _ original m)|].
    eapply returns_bind; [by apply returns_lift|].
    eapply returns_bind.
    { eapply restore_file_returns; try done. by destruct Hcur as [->| ->]. }
    eapply returns_bind; [by apply restore_runtime_returns|].
    eapply returns_bind; [|by apply (returns_query G Hcalm)].
    apply (returns_call G Hcalm). rewrite lookup_insert_ne, Hb by done. by rewrite delete_insert_ne.
  - assert (s !! CONFIG = Some (File original m)) as Hc.
    { unfold on in Hrec. rewrite Hb in Hrec. destruct Hrec as [[? _]|(? & _ & _ & ?)]; done. }
    rewrite delete_id, insert_id by done.
    eapply returns_bind with (a := false); [|simpl; apply returns_ret].
    eapply returns_bind; [by apply (Hex None)|]. simpl. unfold lookup_node.
    eapply returns_bind; [apply returns_attempt; by apply (returns_query G Hcalm)|]. rewrite Hb. apply returns_ret.
Qed.
End calm.

(** ** What a successful stop has seen *)

Section stopped.
Context (G : guest).

Lemma observe_Ret {A : Type} (o : nat → result A) w a w' :
  observe G o w = (Ret a, w') → o (tick w) = Ok a ∧ tick w' = S (tick w).
Proof.
  unfold observe, query, call. destruct (fate_at G (tick w)); [|done..].
  destruct (o (tick w)); intros [= <- <-]; done.
Qed.

(** [systemctl] ran with these arguments at tick [t], succeeded, and printed [out]. *)
Definition prints (t : nat) (arguments : list string) (out : bytes) : Prop :=
  let c := command G t "systemctl" (map str arguments) in
  spawned c = Ok () ∧ wait (polls c) = Ok out ∧ utf8_valid out = true.

Definition show_service : list string :=
  ["show"; "docker.service"; "-p"; "ActiveState"; "-p"; "MainPID"; "-p"; "Result"].
Definition show_socket : list string := ["show"; "docker.socket"; "-p"; "ActiveState"; "--value"].
Definition stop_units : list string := ["stop"; "docker.service"; "docker.socket"].

Lemma systemctl_Ret arguments w out w' :
  systemctl G arguments w = (Ret out, w') →
  prints (tick w) arguments out ∧ tick w' = S (tick w).
Proof.
  intros (o & w1 & [Ho Ht]%observe_Ret & H)%bind_Ret.
  apply bind_Ret in H as ([] & w2 & [Hu ->]%guard_Ret & H). injection H as -> <-.
  apply bind_Ok in Ho as ([] & Hs & Hw). by repeat split.
Qed.

Lemma service_state_Ret w state w' :
  service_state G w = (Ret state, w') →
  ∃ out, prints (tick w) show_service out ∧ state = parse_state out ∧ tick w' = S (tick w).
Proof. intros (o & w1 & [Hp Ht]%systemctl_Ret & H)%bind_Ret. injection H as <- <-. eauto. Qed.

(** Docker was stopped at tick [t], and then seen stopped. The processes are looked at through
    [/proc]; when that cannot be read the code takes it that no shim is left. *)
Definition saw_stopped (active : bool) (t : nat) : Prop :=
  ∃ out service socket,
    prints t stop_units out ∧
    prints (t + 1) show_service service ∧
    field (parse_state service) "ActiveState" = Some (str "inactive") ∧
    (active = true → field (parse_state service) "Result" = Some (str "success")) ∧
    prints (t + 2) show_socket socket ∧ trim socket = str "inactive" ∧
    match processes G (t + 3) with
    | Some l => Forall (λ '(name, arguments), forallb is_ascii_digit name = true →
                  match arguments with Some a => is_shim a = false | None => True end) l
    | None => True
    end.

Lemma stop_docker_Ret active w w' :
  stop_docker G active w = (Ret (), w') → saw_stopped active (tick w).
Proof.
  intros (out & w1 & [Hstop T1]%systemctl_Ret & H)%bind_Ret.
  apply bind_Ret in H as (state & w2 & (service & Hserv & -> & T2)%service_state_Ret & H).
  apply bind_Ret in H as (socket & w3 & [Hsock T3]%systemctl_Ret & H).
  apply bind_Ret in H as (u & w4 & [[Hi Hs]%andb_true_iff ->]%guard_Ret & H).
  apply bind_Ret in H as (u' & w5 & [Hr ->]%guard_Ret & H).
  apply bind_Ret in H as (remain & w6 & [Hp _]%observe_Ret & [Hn _]%guard_Ret).
  exists out, service, socket. rewrite T3, T2, T1 in Hp. rewrite T2, T1 in Hsock. rewrite T1 in Hserv.
  unfold is_field in *. rewrite !bool_decide_eq_true in *.
  replace (tick w + 1) with (S (tick w)) by lia. replace (tick w + 2) with (S (S (tick w))) by lia.
  replace (tick w + 3) with (S (S (S (tick w)))) by lia. split_and!; [done..| |done|done|].
  - intros ->. simpl in Hr. rewrite negb_involutive in Hr. by apply bool_decide_eq_true in Hr.
  - injection Hp as <-. destruct (processes G _) as [l|]; [|done].
    apply negb_true_iff in Hn. apply Forall_forall. intros [name arguments] Hin Hd.
    destruct arguments as [a|]; [|done]. apply not_true_iff_false. intros Ha.
    apply not_true_iff_false in Hn. apply Hn, existsb_exists.
    exists (name, Some a). split; [by apply list_elem_of_In|]. by rewrite Hd, Ha.
Qed.

(** The steps before the stop take their time. *)
Lemma moves_observe {A : Type} (o : nat → result A) : moves_on (observe G o).
Proof. intros w. apply moves_query. Qed.
Hint Resolve moves_observe : moves.
Lemma moves_service_state : moves_on (service_state G).
Proof. unfold service_state, systemctl, run. moves. Qed.
Lemma moves_live_restore : moves_on (live_restore G).
Proof. unfold live_restore. moves. Qed.
Lemma moves_reload_config b : moves_on (reload_config G b).
Proof.
  unfold reload_config, run. moves; auto using moves_service_state.
  match goal with |- moves_on (await_reload _ ?n _) => induction n end;
    simpl; moves; auto using moves_live_restore.
Qed.
Lemma moves_read_file p : moves_on (read_file G p).
Proof. unfold read_file. moves; intros w; apply moves_query. Qed.
Lemma moves_create_candidate dir numbers : moves_on (create_candidate G dir numbers).
Proof. induction numbers; simpl; moves. Qed.
Lemma moves_write_temporary p data m : moves_on (write_temporary G p data m).
Proof. unfold write_temporary. moves; auto using moves_create_candidate. Qed.
Lemma moves_replace_file p data m expected : moves_on (replace_file G p data m expected).
Proof. unfold replace_file. moves; auto using moves_write_temporary, moves_read_file. Qed.
Lemma moves_save_backup p data m : moves_on (save_backup G p data m).
Proof. unfold save_backup. moves; auto using moves_write_temporary. Qed.
Lemma moves_prepare active : moves_on (prepare G active).
Proof.
  unfold prepare. moves; auto using moves_read_file, moves_live_restore, moves_save_backup, moves_replace_file.
Qed.
Lemma moves_disable_and_restore active state r : moves_on (disable_and_restore G active state r).
Proof.
  unfold disable_and_restore, restore_file.
  moves; auto using moves_read_file, moves_replace_file, moves_reload_config, moves_service_state, moves_live_restore.
Qed.

(** C16. [shutdown] succeeds only after it has stopped Docker. Once the backup of an earlier shutdown
    was dealt with, the helper asked for the state of the service; later [systemctl stop] succeeded,
    after that the service and its socket were inactive, the service had stopped cleanly if it was
    active when that state was asked for, and no container shim was among the processes, if those
    could be looked at. *)
Theorem shutdown_stops w w' :
  shutdown G w = (Ret (), w') →
  ∃ w1 out t, recover_backup G CONFIG BACKUP w = (Ret (), w1) ∧
    prints (tick w1) show_service out ∧ tick w1 < t ∧
    saw_stopped (is_field (parse_state out) "ActiveState" "active") t.
Proof.
  intros ([] & w1 & Hrec & H)%bind_Ret.
  apply bind_Ret in H as (state & w2 & (out & Hout & -> & T2)%service_state_Ret & H).
  cbv zeta in H. apply bind_Ret in H as (u' & w3 & [_ ->]%guard_Ret & H).
  apply bind_Ret in H as (prepared & w4 & Hprep & H).
  apply bind_Ret in H as (outcome & w5 & Hout' & H).
  apply bind_Ret in H as (u'' & w6 & _ & [-> _]%lift_Ret).
  exists w1, out. destruct prepared as [r|e]; [|by inversion Hout'].
  apply attempt_Ok, bind_Ret in Hout' as (u3 & w7 & Hdis & Hs).
  exists (tick w7). split_and!; [done..| |by eapply stop_docker_Ret].
  pose proof (moves_attempt _ (moves_prepare (is_field (parse_state out) "ActiveState" "active")) w2) as T4.
  rewrite Hprep in T4. pose proof (moves_disable_and_restore
    (is_field (parse_state out) "ActiveState" "active") (parse_state out) r w4) as T7.
  rewrite Hdis in T7. simpl in *. lia.
Qed.
End stopped.

(** ** A run *)

Definition lf : bytes := [newline].
Definition service (active pid : string) : bytes :=
  str "ActiveState=" ++ str active ++ lf ++ str "MainPID=" ++ str pid ++ lf
  ++ str "Result=success" ++ lf.
Definition exits (out : bytes) : child := Child (Ok ()) [Running; Exited true (Ok out)].
Definition info (b : string) : bytes :=
  str "HTTP/1.1 200 OK" ++ crlf2 ++ str "{" ++ "034"%char :: str "LiveRestoreEnabled"
  ++ "034"%char :: str ":" ++ str b ++ str "}".

(** Docker with live-restore on, which reloads at tick [reload] and is stopped at tick [stop]. *)
Definition sample_guest (reload stop : nat) : guest := {|
  os := {| fate_at := λ _, Go; interfere := λ _ s, s; written := λ _, 0 |};
  process_id := 7;
  command := λ t name arguments,
    if decide (arguments = map str show_service) then
      exits (if decide (t < stop) then service "active" "41" else service "inactive" "0")
    else if decide (arguments = map str show_socket) then exits (str "inactive" ++ lf)
    else exits [];
  docker_info := λ t, Ok (info (if decide (t < reload) then "true" else "false"));
  reload_polls := λ _, 3;
  processes := λ _, Some [(str "12", Some (str "sh"))];
  in_place := λ _, false
|}.

Definition sample_meta : meta := Meta 0 0 420.
Definition sample_directory : files := <[etc := Directory (Meta 0 0 493)]> ∅.
Definition sample_files : files := <[CONFIG := File sample_config sample_meta]> sample_directory.

Lemma sample_undisturbed reload stop : undisturbed (sample_guest reload stop).
Proof. by intros t s p _. Qed.

Lemma shutdown_recoverable_witness :
  on (restored sample_config sample_meta) (shutdown (sample_guest 12 46) (World 0 sample_files [])).2.(fs).
Proof.
  pose proof (shutdown_recoverable (sample_guest 12 46) (sample_undisturbed 12 46) sample_config
    sample_meta eq_refl (World 0 sample_files [])) as H.
  destruct (shutdown (sample_guest 12 46) (World 0 sample_files [])) as [o w'] eqn:E.
  assert (o = Ret ()) as -> by (apply (f_equal fst) in E; vm_compute in E; symmetry; exact E).
  apply H; [left; split; [reflexivity|left; reflexivity]|].
  intros t e. discriminate.
Defined.

Lemma shutdown_stops_witness :
  ∃ w1 out t, recover_backup (sample_guest 12 46) CONFIG BACKUP (World 0 sample_files []) = (Ret (), w1) ∧
    prints (sample_guest 12 46) (tick w1) show_service out ∧ tick w1 < t ∧
    saw_stopped (sample_guest 12 46) (is_field (parse_state out) "ActiveState" "active") t.
Proof.
  apply (shutdown_stops (sample_guest 12 46) (World 0 sample_files [])
    (shutdown (sample_guest 12 46) (World 0 sample_files [])).2).
  vm_compute. reflexivity.
Defined.

Definition interrupted_files (temporary : bytes) : files :=
  <[CONFIG := File temporary sample_meta]> (<[BACKUP := File sample_config sample_meta]>
    (<[candidate (sample_guest 0 0) etc 0 := File [] sample_meta]> sample_directory)).

Lemma recover_backup_succeeds_witness :
  ∃ temporary, disabled_config sample_config = Ok temporary ∧ temporary ≠ sample_config ∧
  returns (interrupted_files temporary) (recover_backup (sample_guest 0 0) CONFIG BACKUP) ()
    (<[CONFIG := File sample_config sample_meta]> (delete BACKUP (interrupted_files temporary))).
Proof.
  destruct (disabled_config sample_config) as [temporary|] eqn:E; [|vm_compute in E; discriminate E].
  exists temporary. split; [reflexivity|].
  assert (temporary ≠ sample_config) as Hne
    by (vm_compute in E; injection E as <-; vm_compute; discriminate).
  split; [exact Hne|].
  apply (recover_backup_succeeds (sample_guest 0 0)) with (temporary := temporary).
  - intros t. split; reflexivity.
  - intros t. exists (service "inactive" "0"). vm_compute. repeat split; reflexivity.
  - reflexivity.
  - exact E.
  - vm_compute. discriminate.
  - right. exists temporary. split; [exact E|]. split; reflexivity.
  - split; [eexists; reflexivity|]. exists 1. split; [lia|reflexivity].
Defined.
