(* ===== verification/Paths.v ===== *)
(** * Paths

    [std::path::Path] on Unix, as far as the program uses it. A path is its
    bytes; [Path] compares and splits by components. *)

From S2P Require Import Prelude Text Fs.

Definition is_absolute (p : path) : bool := starts_with (str "/") p.

(** [Path::components]: whether there is a root, and the names after it. Empty names and [.]
    are dropped, except a leading [.] of a relative path. *)
Definition names (p : path) : list bytes :=
  let pieces := filter (λ n, n ≠ []) (split "/"%char p) in
  match is_absolute p, pieces with
  | false, n :: rest => n :: filter (λ n, n ≠ str ".") rest
  | _, _ => filter (λ n, n ≠ str ".") pieces
  end.
Definition components (p : path) : bool * list bytes := (is_absolute p, names p).

(** [==] on paths. *)
Definition same_path (p q : path) : bool := bool_decide (components p = components q).

Fixpoint is_prefix (a b : list bytes) : bool :=
  match a, b with
  | [], _ => true
  | x :: a, y :: b => bool_decide (x = y) && is_prefix a b
  | _ :: _, [] => false
  end.
(** [p.starts_with(q)]. *)
Definition path_starts_with (p q : path) : bool :=
  bool_decide (is_absolute p = is_absolute q) && is_prefix (names q) (names p).

Definition path_of (absolute : bool) (l : list bytes) : path :=
  (if absolute then str "/" else []) ++ join (str "/") l.

(** [p.join(q)]. *)
Definition path_join (p q : path) : path :=
  if is_absolute q then q
  else if bool_decide (p = []) || ends_with (str "/") p then p ++ q
  else p ++ str "/" ++ q.

(** [p.ancestors()]: the path without its last component, and so on. *)
Fixpoint ancestors_go (absolute : bool) (reversed : list bytes) : list path :=
  path_of absolute (rev reversed) ::
  match reversed with [] => [] | _ :: r => ancestors_go absolute r end.
Definition ancestors (p : path) : list path := ancestors_go (is_absolute p) (rev (names p)).

Definition parent_of (p : path) : option path :=
  match rev (names p) with
  | [] => None
  | _ :: r => Some (path_of (is_absolute p) (rev r))
  end.

(** [p.strip_prefix(q)]. *)
Definition path_strip_prefix (p q : path) : option path :=
  if path_starts_with p q then Some (path_of false (drop (length (names q)) (names p))) else None.

(** [file_stem] of a name: what precedes the last dot, unless that is its first byte. *)
Fixpoint last_dot (before : bytes) (found : option bytes) (s : bytes) : option bytes :=
  match s with
  | [] => found
  | c :: s => last_dot (before ++ [c]) (if decide (c = "."%char) then Some before else found) s
  end.
Definition file_stem (name : bytes) : bytes :=
  match last_dot [] None name with
  | Some (c :: stem) => c :: stem
  | _ => name
  end.

(** [p.with_extension(e)] of a path that ends in a name. *)
Definition with_extension (p : path) (e : bytes) : path :=
  match rev (names p) with
  | [] => p
  | n :: r => path_of (is_absolute p) (rev r ++ [file_stem n ++ str "." ++ e])
  end.

(** ** Lemmas *)

Lemma is_prefix_spec a b : is_prefix a b = true ↔ ∃ r, b = a ++ r.
Proof.
  revert b. induction a as [|x a IH]; intros b; simpl; [split; eauto|].
  destruct b as [|y b]; [split; [done|intros (r & [=])]|].
  rewrite andb_true_iff, bool_decide_eq_true, IH. split.
  - intros [-> (r & ->)]. eauto.
  - intros (r & [= -> ->]). eauto.
Qed.

(** Two prefixes of one list are comparable. *)
Lemma is_prefix_chain a b c :
  is_prefix a c = true → is_prefix b c = true → is_prefix a b = true ∨ is_prefix b a = true.
Proof.
  revert b c. induction a as [|x a IH]; intros b c; simpl; [by left|].
  destruct c as [|z c]; [done|]. destruct b as [|y b]; [by right|]. simpl.
  rewrite !andb_true_iff, !bool_decide_eq_true. intros [-> Ha] [-> Hb].
  destruct (IH b c Ha Hb); auto.
Qed.

Lemma path_starts_with_chain p q r :
  path_starts_with r p = true → path_starts_with r q = true →
  path_starts_with p q = true ∨ path_starts_with q p = true.
Proof.
  unfold path_starts_with. rewrite !andb_true_iff, !bool_decide_eq_true.
  intros [-> Hp] [-> Hq]. destruct (is_prefix_chain _ _ _ Hp Hq); auto.
Qed.

Lemma path_starts_with_refl p : path_starts_with p p = true.
Proof.
  unfold path_starts_with. rewrite andb_true_iff, bool_decide_eq_true. split; [done|].
  apply is_prefix_spec. exists []. by rewrite app_nil_r.
Qed.

(** *** Joining names *)

(** A name of one component. *)
Definition plain (n : bytes) : Prop := n ≠ [] ∧ "/"%char ∉ n.
(** A directory whose name is joined with a slash. *)
Definition open_end (p : path) : Prop := p ≠ [] ∧ ends_with (str "/") p = false.

Lemma is_absolute_cons c r : is_absolute (c :: r) = bool_decide (c = "/"%char).
Proof.
  unfold is_absolute, starts_with. change (str "/") with ["/"%char]. simpl.
  destruct (decide (c = "/"%char)) as [->|Hne].
  - rewrite decide_True by done. rewrite !bool_decide_true; eauto.
  - rewrite decide_False by done. rewrite !bool_decide_false; [done|done|]. intros [? [=]].
Qed.

Lemma plain_relative n : plain n → is_absolute n = false.
Proof.
  intros [Hne Hs]. destruct n as [|c r]; [done|]. rewrite is_absolute_cons. apply bool_decide_false.
  intros ->. apply Hs. left.
Qed.

Lemma join_relative p q : open_end p → is_absolute q = false → path_join p q = p ++ str "/" ++ q.
Proof. intros [Hp He] Hq. unfold path_join. rewrite Hq, He, bool_decide_false by done. done. Qed.

Lemma ends_with_slash p q : q ≠ [] → ends_with (str "/") (p ++ q) = ends_with (str "/") q.
Proof.
  intros Hq. unfold ends_with. apply bool_decide_ext. unfold is_Some. change (str "/") with ["/"%char].
  split; intros [r Hr%strip_suffix_Some].
  - destruct q as [|c q _] using rev_ind; [done|]. rewrite app_assoc in Hr. apply app_inj_2 in Hr as [_ Hr]; [|done].
    exists q. apply strip_suffix_Some. by rewrite Hr.
  - subst q. exists (p ++ r). apply strip_suffix_Some. by rewrite app_assoc.
Qed.

(** A path that a relative one was joined to. *)
Lemma path_join_suffix p q : is_absolute q = false → ∃ r, path_join p q = r ++ q.
Proof.
  intros Hq. unfold path_join. rewrite Hq. destruct (_ || _); [by exists p|]. exists (p ++ str "/"). by rewrite <-app_assoc.
Qed.
Lemma open_end_join p q : is_absolute q = false → q ≠ [] → ends_with (str "/") q = false → open_end (path_join p q).
Proof.
  intros Hq Hne He. destruct (path_join_suffix p q Hq) as [r ->]. split.
  - intros E%app_eq_nil. tauto.
  - by rewrite ends_with_slash.
Qed.
Lemma path_join_join p q x :
  is_absolute q = false → q ≠ [] → ends_with (str "/") q = false → is_absolute x = false →
  path_join (path_join p q) x = path_join p (q ++ str "/" ++ x).
Proof.
  intros Hq Hne He Hx. rewrite (join_relative (path_join p q)) by auto using open_end_join.
  assert (is_absolute (q ++ str "/" ++ x) = false) as Hqx.
  { destruct q as [|c q]; [done|]. simpl. rewrite is_absolute_cons in *. done. }
  unfold path_join. rewrite Hq, Hqx. destruct (_ || _); by rewrite <-!app_assoc.
Qed.

Lemma plain_open n : plain n → ends_with (str "/") n = false.
Proof.
  intros [Hne Hs]. unfold ends_with. apply bool_decide_false. intros [r ->%strip_suffix_Some].
  apply Hs. apply elem_of_app. right. left.
Qed.
