(* ===== verification/Config.v ===== *)
(** * Settings and the state directory (src/src/config.rs)

    [Mount.parse], [Config.validate], [state_path] read the host's file system
    through the oracles of [host]; [ensure_owned] and [atomic_write] change
    files, against the environment of Fs.v. *)

From S2P Require Import Prelude Text Fs Paths.

Definition LIMA_VERSION : string := "2.2.0".
Definition NAME : string := "luhmen".
Definition OWNER : bytes := str "luhmen-state-v1" ++ [newline].

Record Mount := { mount_path : path; writable : bool }.

Record Config := {
  schema_version : Z;
  cpus : Z;
  memory_gib : Z;
  disk_gib : Z;
  mounts : list Mount;
  nested_virtualization : bool
}.

#[export] Instance Mount_eq_dec : EqDecision Mount.
Proof. solve_decision. Defined.
#[export] Instance Config_eq_dec : EqDecision Config.
Proof. solve_decision. Defined.

(** What the operating system answers about paths, links followed. *)
Record host := {
  canonicalize : path → result path;
  exists_at : path → bool;
  is_dir : path → bool;
  is_link : path → bool
}.

Section paths.
Context (H : host).

(** [to_str] succeeds and the text has none of the refused characters. *)
Definition mount_text (p : path) : result unit :=
  _ ← ensure (utf8_valid p) "mount path must be UTF-8";
  ensure (negb (contains_any ["010"; "013"; "000"]%char p) && negb (contains (str "{{") p))
    "unsupported mount path".

Definition Mount_parse (value : bytes) : result Mount :=
  let '(p, w) := match strip_suffix (str ":rw") value with
                 | Some p => (p, true)
                 | None => (default value (strip_suffix (str ":ro") value), false)
                 end in
  p ← with_context "mount directory" (canonicalize H p);
  _ ← ensure (is_dir H p) "mount must be a directory";
  _ ← mount_text p;
  _ ← ensure (negb (same_path p (str "/"))) "sharing the filesystem root is not supported";
  Ok {| mount_path := p; writable := w |}.

Definition validate_schema (c : Config) : result unit :=
  _ ← ensure (bool_decide (schema_version c = 1%Z)) "unsupported configuration schema";
  _ ← ensure ((1 <=? cpus c) && (cpus c <=? 64))%Z "cpus must be between 1 and 64";
  _ ← ensure ((2 <=? memory_gib c) && (memory_gib c <=? 256))%Z
        "memory must be between 2 and 256 GiB";
  _ ← ensure ((10 <=? disk_gib c) && (disk_gib c <=? 2048))%Z
        "disk must be between 10 and 2048 GiB";
  _ ← ensure (len (mounts c) <=? 32)%Z "at most 32 mounts are supported";
  for_each (λ m, ensure (is_absolute (mount_path m)) "mount path must be absolute") (mounts c).

Definition canonical_destination (p : path) : result path :=
  ancestor ← ok_or (find (exists_at H) (ancestors p)) "path has no existing ancestor";
  root ← canonicalize H ancestor;
  rest ← ok_or (path_strip_prefix p ancestor) "prefix not found";
  Ok (path_join root rest).

Definition overlap (p q : path) : bool := path_starts_with p q || path_starts_with q p.

(** The body of the mount loop; [previous] is [self.mounts[..index]]. *)
Definition validate_mount (state : path) (previous : list Mount) (m : Mount) : result unit :=
  let p := mount_path m in
  _ ← ensure (is_dir H p) "mount directory is missing or not absolute";
  actual ← canonicalize H p;
  _ ← ensure (same_path actual p)
        "mount path changed or contains a symlink; restore the original directory";
  _ ← ensure (negb (path_starts_with state p) && negb (path_starts_with p state))
        "mounts must not overlap luhmen's state directory";
  _ ← mount_text p;
  for_each (λ other, ensure (negb (path_starts_with p (mount_path other))
                             && negb (path_starts_with (mount_path other) p))
                       "mount directories must not overlap") previous.

Fixpoint validate_mounts (state : path) (previous rest : list Mount) : result unit :=
  match rest with
  | [] => Ok ()
  | m :: rest => _ ← validate_mount state previous m; validate_mounts state (previous ++ [m]) rest
  end.

Definition validate (c : Config) (state : path) : result unit :=
  _ ← validate_schema c;
  state ← canonical_destination state;
  validate_mounts state [] (mounts c).

(** [state_path], given the variables [LUHMEN_HOME] and [HOME]. *)
Definition state_path (luhmen_home home : option path) : result path :=
  p ← match luhmen_home with
      | Some p => Ok p
      | None => home ← ok_or home "HOME is not set"; Ok (path_join home (str ".local/share/luhmen"))
      end;
  _ ← ensure (is_absolute p) "LUHMEN_HOME must be absolute";
  _ ← ensure (negb (existsb (λ n, bool_decide (n = str "..")) (names p)))
        "state path cannot contain '..'";
  _ ← ensure (utf8_valid p) "state path must be UTF-8";
  _ ← ensure (negb (is_link H p)) "state directory cannot be a symlink";
  p ← canonical_destination p;
  _ ← ensure (len (path_join p (str "lima/luhmen/sock/docker.sock")) <? 104)%Z
        "state path is too long for a Unix socket; set a shorter LUHMEN_HOME";
  Ok p.

End paths.

(** ** Writing files *)

(** The process: its identifier, and the user and group of the files it creates. *)
Record process := Process { pid : N; user : Z; group : Z }.

Section files.
Context (E : environment) (P : process).

Definition temporary_of (p : path) : path :=
  with_extension p (str "tmp-" ++ decimal (pid P)).

Definition atomic_write (p : path) (data : bytes) : M unit :=
  let temporary := temporary_of p in
  result ← attempt
    (created ← create_new E temporary (Meta (user P) (group P) 384);
     _ ← guard created "file exists";
     _ ← write_all E temporary data;
     _ ← sync_all E temporary;
     _ ← rename E temporary p;
     dir ← lift (ok_or (parent_of p) "file has no parent");
     sync_directory E dir);
  _ ← match result with
      | Err _ => attempt (remove_file E temporary)
      | Ok _ => mret (Ok ())
      end;
  lift result.

(** [fs::read_dir(path)?.next().is_none()]. *)
Definition is_empty_dir (p : path) (s : files) : bool :=
  negb (existsb (λ '(q, _), bool_decide (parent_of q = Some p)) (map_to_list s)).

(** [fs::create_dir_all]: the directories that do not exist yet, outermost first. One that fails may
    have made some of them. *)
Definition create_dirs (l : list path) (s : files) : files :=
  foldr (λ q s, match s !! q with
                | Some _ => s
                | None => <[q := Directory (Meta (user P) (group P) 493)]> s
                end) s l.
Definition no_obstacle (s : files) (q : path) : bool :=
  match s !! q with Some n => is_directory n | None => true end.
Definition create_dir_all (p : path) : M unit :=
  call E (λ n s, create_dirs (drop n (ancestors p)) s)
    (λ s, if forallb (no_obstacle s) (ancestors p) then (Ok (), create_dirs (ancestors p) s) else (Err "not a directory", s)).

Definition ensure_owned (p : path) (create : bool) : M unit :=
  let owner := path_join p (str "owner") in
  found ← attempt (lookup_node E p);
  let write_owner :=
    (_ ← set_permissions E p 448;
     atomic_write owner OWNER) in
  match found with
  | Ok (Some entry) =>
      match entry with
      | Directory m =>
          marked ← exists_ E owner;
          if marked : bool then
            text ← query E (λ s, ok_or (data_at s owner) "cannot read the ownership marker");
            _ ← guard (bool_decide (text = OWNER)) "state ownership marker does not match";
            guard (bool_decide (Z.land (perm m) 63 = 0%Z)) "state directory must have mode 0700"
          else
            empty ← (if create then query E (λ s, Ok (is_empty_dir p s)) else mret false);
            _ ← guard (create && empty) "refusing an unowned state directory";
            write_owner
      | _ => throw "state path must be a real directory"
      end
  | _ =>
      if create then _ ← create_dir_all p; write_owner
      else throw "luhmen has not been created; run `luhmen create`"
  end.

End files.
