(* ===== verification/ConfigSpec.v ===== *)
(** * What valid settings guarantee, and what file updates can leave behind

    Accepted mounts are separate trees, apart from the state directory; a file
    replaced by [atomic_write] has its old or its new contents whatever happens;
    [ensure_owned] never touches a directory that is not luhmen's. *)

From S2P Require Import Prelude Text Fs Paths Config.

(** ** Mounts *)

(** Schema limits: the ranges of the three sizes and the number of mounts. *)
Definition schema_ok (c : Config) : Prop :=
  schema_version c = 1%Z ∧ (1 <= cpus c <= 64)%Z ∧ (2 <= memory_gib c <= 256)%Z ∧
  (10 <= disk_gib c <= 2048)%Z ∧ (len (mounts c) <= 32)%Z ∧
  ∀ m, m ∈ mounts c → is_absolute (mount_path m) = true.

Lemma validate_schema_spec c : validate_schema c = Ok () ↔ schema_ok c.
Proof.
  unfold validate_schema, schema_ok. rewrite !ensure_bind_Ok, for_each_Ok, Forall_forall.
  rewrite bool_decide_eq_true, !andb_true_iff, !Z.leb_le. setoid_rewrite ensure_Ok. tauto.
Qed.

(** One mount on its own: a real directory, spelled canonically, outside the state directory. *)
Definition mount_ok (H : host) (root : path) (m : Mount) : Prop :=
  let p := mount_path m in
  is_dir H p = true ∧ (∃ q, canonicalize H p = Ok q ∧ same_path q p = true) ∧
  overlap root p = false ∧ mount_text p = Ok ().

Lemma overlap_false p q :
  overlap p q = false ↔ negb (path_starts_with p q) && negb (path_starts_with q p) = true.
Proof. unfold overlap. destruct (path_starts_with p q), (path_starts_with q p); done. Qed.

Lemma overlap_comm p q : overlap p q = overlap q p.
Proof. apply orb_comm. Qed.

#[local] Opaque mount_text validate_schema canonical_destination.

Lemma validate_mount_spec H root previous m :
  validate_mount H root previous m = Ok () ↔
  mount_ok H root m ∧ ∀ o, o ∈ previous → overlap (mount_path m) (mount_path o) = false.
Proof.
  unfold validate_mount, mount_ok. rewrite ensure_bind_Ok, bind_Ok.
  setoid_rewrite ensure_bind_Ok. setoid_rewrite ensure_bind_Ok. setoid_rewrite bind_Ok.
  setoid_rewrite for_each_Ok. setoid_rewrite Forall_forall. setoid_rewrite ensure_Ok.
  setoid_rewrite <-overlap_false. split.
  - intros (Hd & q & Hq & Hs & Ho & [] & Ht & Hp). split_and!; eauto.
  - intros ((Hd & (q & Hq & Hs) & Ho & Ht) & Hp). split; [done|]. exists q. split_and!; eauto.
Qed.

Lemma validate_mounts_spec H root previous rest :
  validate_mounts H root previous rest = Ok () ↔
  (∀ m, m ∈ rest → mount_ok H root m) ∧
  (∀ i m, rest !! i = Some m → ∀ o, o ∈ previous ++ take i rest →
     overlap (mount_path m) (mount_path o) = false).
Proof.
  revert previous. induction rest as [|m rest IH]; intros previous; simpl.
  { split; [|done]. split; [intros m []%not_elem_of_nil|done]. }
  rewrite bind_Ok. split.
  - intros ([] & [Hm Hp]%validate_mount_spec & [Hr Ho]%IH). split.
    + intros m' [->|Hin]%elem_of_cons; auto.
    + intros [|i] m'; simpl; [intros [= <-] o; rewrite app_nil_r; auto|].
      intros Hi o Hin. apply (Ho i m' Hi). rewrite <-app_assoc. done.
  - intros [Hm Ho]. exists (). split.
    + apply validate_mount_spec. split; [apply Hm; set_solver|].
      intros o Hin. apply (Ho 0 m eq_refl). simpl. set_solver.
    + apply IH. split; [intros m' Hin; apply Hm; set_solver|].
      intros i m' Hi o Hin. rewrite <-app_assoc in Hin. by apply (Ho (S i) m' Hi).
Qed.

(** C37. [validate] accepts exactly the settings within the schema limits, when the path of the state
    directory can be resolved, whose mounts are real directories under their canonical names, outside
    the state directory and pairwise without overlap, and whose names can stand in a template: they
    are UTF-8 without a newline, a carriage return, a NUL or two opening braces ([mount_text]). *)
Theorem validate_spec H c state :
  validate H c state = Ok () ↔
  schema_ok c ∧ ∃ root, canonical_destination H state = Ok root ∧
    (∀ m, m ∈ mounts c → mount_ok H root m) ∧
    (∀ i j m o, mounts c !! i = Some m → mounts c !! j = Some o → i ≠ j →
       overlap (mount_path m) (mount_path o) = false).
Proof.
  unfold validate. rewrite bind_Ok. setoid_rewrite bind_Ok. setoid_rewrite validate_mounts_spec.
  assert ((∃ u, validate_schema c = Ok u) ↔ schema_ok c) as <-.
  { rewrite <-validate_schema_spec. split; [intros [[] ?]|]; eauto. }
  assert (∀ l, (∀ i m, l !! i = Some m → ∀ o, o ∈ [] ++ take i l →
      overlap (mount_path m) (mount_path o) = false) ↔
    (∀ i j m o, l !! i = Some m → l !! j = Some o → i ≠ j →
       overlap (mount_path m) (mount_path o) = false)) as Hpairs.
  { intros l. split.
    - intros Ho i j m o Hi Hj Hne. destruct (decide (j < i)).
      + apply (Ho i m Hi). simpl. apply list_elem_of_lookup. exists j.
        by rewrite lookup_take_lt.
      + rewrite overlap_comm. apply (Ho j o Hj). simpl. apply list_elem_of_lookup. exists i.
        rewrite lookup_take_lt; [done|lia].
    - intros Ho i m Hi o [j Hj]%list_elem_of_lookup. simpl in Hj.
      apply lookup_take_Some in Hj as [Hj Hlt]. apply (Ho i j m o Hi Hj). lia. }
  setoid_rewrite Hpairs. split; [intros (u & ? & ?)|intros ((u & ?) & ?)]; eauto.
Qed.

(** C21. The trees of accepted mounts are disjoint, and none of them meets the state directory:
    no path lies in two of them. *)
Theorem mounts_isolated H c state root :
  validate H c state = Ok () → canonical_destination H state = Ok root →
  ∀ x i m, mounts c !! i = Some m → path_starts_with x (mount_path m) = true →
    path_starts_with x root = false ∧
    ∀ j o, mounts c !! j = Some o → path_starts_with x (mount_path o) = true → i = j.
Proof.
  intros (_ & root' & Hroot & Hm & Ho)%validate_spec Hroot' x i m Hi Hx.
  assert (root' = root) as -> by congruence. split.
  - apply not_true_iff_false. intros Hs.
    destruct (Hm m) as (_ & _ & Hov & _); [by eapply list_elem_of_lookup_2|].
    unfold overlap in Hov. apply orb_false_iff in Hov as [H1 H2].
    destruct (path_starts_with_chain _ _ _ Hs Hx); congruence.
  - intros j o Hj Hxo. destruct (decide (i = j)) as [|Hne]; [done|].
    specialize (Ho i j m o Hi Hj Hne). unfold overlap in Ho. apply orb_false_iff in Ho as [H1 H2].
    destruct (path_starts_with_chain _ _ _ Hx Hxo); congruence.
Qed.

(** A mount that [Mount_parse] accepts passes the checks of [validate] as long as the file
    system does not change, unless it overlaps the state directory or an earlier mount. *)
Theorem Mount_parse_valid H value m root previous :
  (∀ p q, canonicalize H p = Ok q → canonicalize H q = Ok q) →
  Mount_parse H value = Ok m →
  overlap root (mount_path m) = false →
  (∀ o, o ∈ previous → overlap (mount_path m) (mount_path o) = false) →
  validate_mount H root previous m = Ok () ∧ same_path (mount_path m) (str "/") = false.
Proof.
  intros Hidem Hparse Hroot Hprev. unfold Mount_parse in Hparse.
  destruct (match strip_suffix _ _ with Some _ => _ | None => _ end) as [p w].
  apply bind_Ok in Hparse as (q & Hq & Hparse).
  apply ensure_bind_Ok in Hparse as [Hd Hparse]. apply bind_Ok in Hparse as ([] & Ht & Hparse).
  apply ensure_bind_Ok in Hparse as [Hne [= <-]]. simpl in *.
  split; [|by apply negb_true_iff in Hne]. apply validate_mount_spec. split; [|done].
  split_and!; [done| |done|done]. exists q. split; [|by apply bool_decide_eq_true].
  destruct (canonicalize H p) as [q'|] eqn:Ec; [|done]. injection Hq as ->. by eapply Hidem.
Qed.

(** ** Atomic replacement *)

Section files.
Context (E : environment) (P : process).
Context (target : path) (named : ∃ dir, parent_of target = Some dir)
  (other : temporary_of P target ≠ target).

(** Other processes leave the target and its temporary name alone. *)
Definition left_alone : Prop :=
  ∀ t s q, q = target ∨ q = temporary_of P target → interfere E t s !! q = s !! q.

Definition private (data : bytes) : node := File data (Meta (user P) (group P) 384).

(** The target holds [old]; the temporary name holds [t]. *)
Definition holds (old t : option node) (s : files) : Prop :=
  s !! target = old ∧ s !! temporary_of P target = t.

Definition target_in (l : list (option node)) (s : files) : Prop := s !! target ∈ l.

Context (alone : left_alone).

Lemma stable_target l : stable E (target_in l).
Proof using alone. intros t s Hs. unfold target_in. rewrite alone; auto. Qed.

Lemma stable_holds old t : stable E (holds old t).
Proof using alone. intros i s [H1 H2]. split; rewrite alone; auto. Qed.

Lemma holds_target old t s l : old ∈ l → holds old t s → target_in l s.
Proof. intros Hl [H1 _]. unfold target_in. by rewrite H1. Qed.

Lemma holds_write old d m d' m' s :
  holds old (Some (File d m)) s → holds old (Some (File d' m')) (<[temporary_of P target := File d' m']> s).
Proof using other. intros [H1 H2]. split; [by rewrite lookup_insert_ne|by rewrite lookup_insert_eq]. Qed.

Lemma triple_stage_and_rename (A : files → Prop) old data :
  (∀ s, s !! target = old → A s) → (∀ s, s !! target = Some (private data) → A s) →
  triple (λ s, s !! target = old)
    (created ← create_new E (temporary_of P target) (Meta (user P) (group P) 384);
     _ ← guard created "file exists";
     _ ← write_all E (temporary_of P target) data;
     _ ← sync_all E (temporary_of P target);
     _ ← rename E (temporary_of P target) target;
     dir ← lift (ok_or (parent_of target) "file has no parent");
     sync_directory E dir)
    (λ _ s, s !! target = Some (private data)) A A.
Proof using alone named other.
  intros Hold Hnew.
  assert (stable E (λ s, s !! target = old)) as Hso by (intros i s Hs; by rewrite alone; auto).
  assert (stable E (λ s, s !! target = Some (private data))) as Hsn
    by (intros i s Hs; by rewrite alone; auto).
  assert (∀ c s, holds old c s → A s) as Hholds by (intros c s [Hs _]; by apply Hold).
  eapply triple_bind with (R := λ created s, s !! target = old ∧
    (created = true → s !! temporary_of P target = Some (private []))).
  { apply triple_call; [done| |auto..]. intros s Hs. destruct (s !! temporary_of P target) eqn:Et; [done|].
    destruct (in_directory _ _); [|by apply Hold]. split; [by rewrite lookup_insert_ne|]. by rewrite lookup_insert_eq. }
  intros created. eapply triple_bind with (R := λ _, holds old (Some (private []))).
  { apply triple_guard; [intros s -> []; by split; auto|intros s []; auto]. }
  intros ?. eapply triple_bind with (R := λ _, holds old (Some (private data))).
  { apply triple_call; [apply stable_holds|..]; [intros s Hs|intros n s Hs..];
      unfold on_file; rewrite (proj2 Hs); simpl; [|eapply Hholds..]; by eapply holds_write. }
  intros ?. eapply triple_bind with (R := λ _, holds old (Some (private data))).
  { apply keeps_step; [by apply keeps_query, stable_holds|eauto..]. }
  intros ?. eapply triple_bind with (R := λ _ s, s !! target = Some (private data)).
  { apply triple_call; eauto using stable_holds. intros s Hs. assert (A s) as HA by eauto.
    unfold renamed. rewrite (proj2 Hs). unfold private.
    destruct (s !! target) as [[]|]; try done; (destruct (in_directory _ _); [|done]); by rewrite lookup_insert_eq. }
  intros ?. eapply triple_bind with (R := λ _ s, s !! target = Some (private data)); [by apply triple_lift|].
  intros ?. apply keeps_step; [by apply keeps_query|done..].
Qed.

(** C6. [atomic_write] replaces the target in one step: whichever call fails and wherever the
    process dies, the target is unchanged or has exactly the new contents with mode 0600, and
    after success it has the new contents. *)
Theorem atomic_write_atomic old data :
  let l := [old; Some (private data)] in
  triple (λ s, s !! target = old) (atomic_write E P target data)
    (λ _ s, s !! target = Some (private data)) (target_in l) (target_in l).
Proof using alone named other.
  intros l. unfold atomic_write. cbv zeta.
  assert (old ∈ l ∧ Some (private data) ∈ l) as [Hold Hnew] by (unfold l; set_solver).
  assert (∀ o s, o ∈ l → s !! target = o → target_in l s) as Hin
    by (intros o s Ho Hs; unfold target_in; by rewrite Hs).
  set (R r s := match r : result unit with Ok _ => s !! target = Some (private data) | Err _ => target_in l s end).
  eapply triple_bind with (R := R).
  - apply triple_attempt. eapply triple_post; [apply (triple_stage_and_rename (target_in l))|done..]; eauto.
  - intros r. eapply triple_bind with (R := λ _, R r).
    + destruct r; [apply triple_ret; intros s Hs; exact Hs|]. apply triple_attempt.
      eapply triple_weaken with (P := target_in l) (Q := λ _, target_in l) (X := target_in l) (H := target_in l); [|done..].
      apply triple_call; auto using stable_target. intros s Hs.
      destruct (s !! temporary_of P target) as [[]|]; try done; unfold target_in; by rewrite lookup_delete_ne.
    + intros ?. destruct r as [[]|e]; [by apply triple_ret|by apply triple_throw].
Qed.

End files.

(** Without faults it creates or replaces the target and leaves no temporary file. *)
Lemma atomic_write_returns E P target data s dir :
  calm E → parent_of target = Some dir → temporary_of P target ≠ target →
  s !! temporary_of P target = None → in_directory s (temporary_of P target) = true →
  in_directory s target = true → (∀ m, s !! target ≠ Some (Directory m)) →
  returns s (atomic_write E P target data) () (<[target := private P data]> s).
Proof.
  intros Hcalm Hdir Hne Hfree Hin Hin' Hfile. unfold atomic_write. cbv zeta.
  eapply returns_bind with (a := Ok ()) (s' := <[target := private P data]> s);
    [|eapply returns_bind; apply returns_ret].
  apply returns_attempt.
  eapply returns_bind; [apply returns_call; [done|by rewrite Hfree, Hin]|].
  eapply returns_bind; [by apply returns_guard|].
  eapply returns_bind.
  { apply returns_call; [done|]. unfold on_file. rewrite lookup_insert_eq. reflexivity. }
  eapply returns_bind; [by apply returns_query|].
  rewrite insert_insert_eq. simpl.
  eapply returns_bind with (s' := <[target := private P data]> s).
  { apply returns_call; [done|]. unfold renamed. rewrite delete_insert_id by done.
    rewrite lookup_insert_eq, lookup_insert_ne by done. rewrite in_directory_insert by done.
    destruct (s !! target) as [[]|] eqn:Et; try done. by destruct (Hfile m). }
  eapply returns_bind; [by apply returns_lift; rewrite Hdir|]. by apply returns_query.
Qed.

(** ** The ownership marker *)

(** ** What file updates leave alone *)

Section frame.
Context (E : environment) (P : process).
(** One entry, which other processes leave alone. *)
Context (q : path) (n : node) (kept : stable E (λ s, s !! q = Some n)).

Abbreviation entry := (λ s : files, s !! q = Some n).

(** A call whose effect is confined to other names than [q]. *)
Lemma keeps_entry {A : Type} partial (f : files → result A * files) :
  (∀ s, s !! q = Some n → (f s).2 !! q = Some n) →
  (∀ k s, s !! q = Some n → partial k s !! q = Some n) →
  keeps entry (call E partial f).
Proof using kept.
  intros Hf Hp. apply triple_call; [done| |done..].
  intros s Hs. specialize (Hf s Hs). by destruct (f s) as [[] ?].
Qed.

Lemma on_file_entry {A : Type} p (f : bytes → meta → A * node) (s : files) :
  q ≠ p → s !! q = Some n → (on_file p f s).2 !! q = Some n.
Proof.
  intros Hne Hs. unfold on_file. destruct (s !! p) as [[]|]; try done.
  destruct (f _ _). simpl. by rewrite lookup_insert_ne.
Qed.

(** [atomic_write] touches its target and its temporary name only. *)
Lemma atomic_write_frame target data :
  q ≠ target → q ≠ temporary_of P target → keeps entry (atomic_write E P target data).
Proof using kept.
  intros Hq Hq'. unfold atomic_write. cbv zeta. unfold sync_all, sync_directory.
  keeps; try (by apply keeps_query).
  - apply keeps_entry; [|done]. intros s Hs.
    case_match; [done|case_match]; simpl; [by rewrite lookup_insert_ne|done].
  - apply keeps_entry; intros; by apply on_file_entry.
  - apply keeps_entry; [|done]. intros s Hs. by rewrite renamed_other.
  - apply keeps_entry; [|done]. intros s Hs. case_match; [case_match|]; simpl; try done;
      by rewrite lookup_delete_ne.
Qed.

(** [create_dir_all] creates what is missing. *)
Lemma create_dirs_kept l (s : files) : s !! q = Some n → create_dirs P l s !! q = Some n.
Proof.
  intros Hs. unfold create_dirs. induction l as [|x l IH]; [done|]. simpl.
  destruct (foldr _ s l !! x) eqn:Ex; [done|]. rewrite lookup_insert_ne; [done|]. congruence.
Qed.

Lemma create_dir_all_frame p : keeps entry (create_dir_all E P p).
Proof using kept.
  unfold create_dir_all. apply keeps_entry; intros; [|by apply create_dirs_kept].
  destruct (forallb _ _); [by apply create_dirs_kept|done].
Qed.

Lemma set_permissions_frame p mode : q ≠ p → keeps entry (set_permissions E p mode).
Proof using kept.
  intros Hne. apply keeps_entry; [|done]. intros s Hs.
  assert ((on_file p (λ d m, ((), File d (Meta (uid m) (gid m) mode))) s).2 !! q = Some n) as Hf
    by (by apply on_file_entry).
  destruct (s !! p) as [[]|]; try done. simpl. by rewrite lookup_insert_ne.
Qed.

(** [ensure_owned] touches the directory and its marker only. *)
Lemma ensure_owned_frame p create :
  let owner := path_join p (str "owner") in
  q ≠ p → q ≠ owner → q ≠ temporary_of P owner → keeps entry (ensure_owned E P p create).
Proof using kept.
  intros owner H1 H2 H3.
  assert (keeps entry (_ ← set_permissions E p 448; atomic_write E P owner OWNER)) as Hw.
  { apply keeps_bind; [by apply set_permissions_frame|intros ?; by apply atomic_write_frame]. }
  unfold ensure_owned. cbv zeta. unfold exists_, lookup_node.
  assert (∀ {A : Type} (f : files → result A), keeps entry (query E f)) as Hquery
    by (intros; by apply keeps_query).
  apply keeps_bind; [by apply keeps_attempt, Hquery|intros found].
  assert (keeps entry (if create then _ ← create_dir_all E P p;
    _ ← set_permissions E p 448; atomic_write E P owner OWNER
    else throw "luhmen has not been created; run `luhmen create`")) as Hnew.
  { destruct create; [|apply keeps_throw]. apply keeps_bind; [|done].
    apply create_dir_all_frame. }
  destruct found as [[[]|]|]; try apply keeps_throw; try exact Hnew.
  apply keeps_bind; [apply keeps_bind; [by apply keeps_attempt, Hquery|intros ?; apply keeps_ret]|intros marked].
  destruct marked.
  - apply keeps_bind; [apply Hquery|intros ?]. apply keeps_bind; [apply keeps_guard|].
    intros ?. apply keeps_guard.
  - apply keeps_bind; [destruct create; [apply Hquery|apply keeps_ret]|intros ?].
    apply keeps_bind; [apply keeps_guard|done].
Qed.
End frame.

Section owned.
Context (E : environment) (P : process).
Context (faultless : no_faults E) (undisturbed : alone E).

Lemma stable_any (Q : files → Prop) : stable E Q.
Proof using undisturbed. intros t s. by rewrite undisturbed. Qed.

Abbreviation owner p := (path_join p (str "owner")).


Lemma triple_exists_ (Q : files → Prop) p :
  triple Q (exists_ E p) (λ b s, b = bool_decide (is_Some (s !! p ≫= follow)) ∧ Q s) Q Q.
Proof using faultless undisturbed.
  unfold exists_. eapply triple_bind with (R := λ r s, r = Ok (s !! p) ∧ Q s).
  { by apply triple_look. }
  intros r. apply triple_ret. intros s [-> Hs]. split; [|done].
  unfold present. destruct (s !! p) as [n|]; simpl; [|done]. by destruct (follow n).
Qed.


(** What [ensure_owned] establishes: a private directory with luhmen's marker. *)
Definition private_directory (p : path) (s : files) : Prop :=
  ∃ m, s !! p = Some (Directory m) ∧ Z.land (perm m) 63 = 0%Z.
Definition owned (p : path) (s : files) : Prop := private_directory p s ∧ data_at s (owner p) = Some OWNER.

(** A path under its usual spelling, whose marker and temporary name are other names. *)
Definition usual (p : path) : Prop :=
  p ∈ ancestors p ∧ (owner p ∉ ancestors p) ∧ (∃ dir, parent_of (owner p) = Some dir) ∧
  temporary_of P (owner p) ≠ p ∧ temporary_of P (owner p) ≠ owner p.

Lemma create_dirs_Directory (l : list path) (p : path) (s : files) :
  p ∈ l → s !! p = None → ∃ m, create_dirs P l s !! p = Some (Directory m).
Proof.
  intros Hin Hp. unfold create_dirs. induction l as [|q l IH]; [by apply not_elem_of_nil in Hin|]. simpl.
  destruct (decide (p = q)) as [->|Hne].
  - set (s' := foldr _ s l). destruct (s' !! q) eqn:Eq; [|by rewrite lookup_insert_eq; eauto].
    destruct (decide (q ∈ l)) as [Hl|Hl]; [by apply IH|].
    assert (s' !! q = s !! q) as Es.
    { unfold s'. clear -Hl. induction l as [|x l IH]; [done|]. simpl.
      apply not_elem_of_cons in Hl as [H1 H2]. destruct (foldr _ s l !! x); [by apply IH|].
      rewrite lookup_insert_ne by done. by apply IH. }
    congruence.
  - apply elem_of_cons in Hin as [|Hin]; [done|]. destruct (IH Hin) as [m Hm].
    destruct (foldr _ s l !! q); [eauto|]. rewrite lookup_insert_ne by done. eauto.
Qed.


(** The last two lines of [ensure_owned], on a directory. *)
Lemma write_owner_owned p :
  usual p →
  triple (λ s, ∃ m, s !! p = Some (Directory m))
    (_ ← set_permissions E p 448; atomic_write E P (owner p) OWNER)
    (λ _, owned p) (λ _, True) (λ _, True).
Proof using undisturbed.
  intros (Hin & Hout & Hdir & Htmp & Hother).
  assert (owner p ≠ p) as Hne by congruence.
  eapply triple_bind with (R := λ _, private_directory p).
  { apply triple_call; [apply stable_any| |done..]. intros s [m Hm]. rewrite Hm.
    eexists. by rewrite lookup_insert_eq. }
  intros ? w (m & Hm & Hperm).
  pose proof (atomic_write_atomic E P (owner p) Hdir Hother (λ t s q _, f_equal (λ s, s !! q) (undisturbed t s))
    (fs w !! owner p) OWNER w eq_refl) as H1.
  pose proof (atomic_write_frame E P p (Directory m) (stable_any _) (owner p) OWNER (not_eq_sym Hne) (not_eq_sym Htmp) w Hm) as H2.
  destruct (atomic_write E P (owner p) OWNER w) as [[] w']; try done.
  split; [by exists m|]. unfold data_at. by rewrite H1.
Qed.

Lemma create_dirs_entry (l : list path) (q : path) (s : files) :
  q ∉ l → create_dirs P l s !! q = s !! q.
Proof.
  unfold create_dirs. induction l as [|x l IH]; [done|]. intros [H1 H2]%not_elem_of_cons. simpl.
  destruct (foldr _ s l !! x); [by apply IH|]. rewrite lookup_insert_ne by done. by apply IH.
Qed.

(** C23. When [ensure_owned] succeeds without faults, the path is a directory no other user can
    enter and holds luhmen's marker, whether it was owned before or has just been created. *)
Theorem ensure_owned_owned p create :
  usual p →
  triple (λ _, True) (ensure_owned E P p create) (λ _, owned p) (λ _, True) (λ _, True).
Proof using faultless undisturbed.
  intros Hu. pose proof Hu as (Hin & Hout & _). unfold ensure_owned. cbv zeta.
  eapply triple_bind with (R := λ r s, r = Ok (s !! p)).
  { by apply triple_look. }
  intros [[[d m|m|to|]|]|e]; try (by apply triple_throw).
  - eapply triple_bind with (R := λ _ s, s !! p = Some (Directory m)).
    { eapply triple_weaken; [apply (triple_exists_ (λ s, s !! p = Some (Directory m)))|by intros s [=]|by intros ? s []|done..]. }
    intros marked. eapply triple_pre with (P := λ s, s !! p = Some (Directory m)); [|done].
    destruct marked.
    + eapply triple_bind with (R := λ text s, data_at s (owner p) = Some text ∧ s !! p = Some (Directory m)).
      { apply triple_query; [apply stable_any| |done..]. intros text s Ht Hp. split; [|done].
        by destruct (data_at s (owner p)); simplify_eq/=. }
      intros text. eapply triple_bind with (R := λ _ s, data_at s (owner p) = Some OWNER ∧ s !! p = Some (Directory m)).
      { apply triple_guard; [|done]. by intros s ->%bool_decide_eq_true. }
      intros ?. apply triple_guard; [|done]. intros s Hp%bool_decide_eq_true [Ho Hd]. split; [by exists m|done].
    + eapply triple_bind with (R := λ _ s, s !! p = Some (Directory m)).
      { destruct create; [|by apply triple_ret]. by apply triple_query; [apply stable_any| |done..]. }
      intros empty. eapply triple_bind with (R := λ _ s, s !! p = Some (Directory m)); [by apply triple_guard|].
      intros ?. eapply triple_pre; [by apply write_owner_owned|]. intros s ?. by exists m.
  - destruct create; [|by apply triple_throw].
    eapply triple_bind with (R := λ _ s, ∃ m, s !! p = Some (Directory m)).
    { apply triple_call; [apply stable_any| |done..]. intros s [= Hp]. destruct (forallb _ _); [|done].
      by apply create_dirs_Directory. }
    intros ?. by apply write_owner_owned.
  - by intros w ?.
Qed.
End owned.

(** ** Concrete inputs *)

(** A host on which every path is a directory under its own name. *)
Definition plain_host : host :=
  {| canonicalize := Ok; exists_at := λ _, true; is_dir := λ _, true; is_link := λ _, false |}.
Definition quiet_environment : environment :=
  {| fate_at := λ _, Go; interfere := λ _ s, s; written := λ _, 0 |}.
Definition sample_process : process := Process 7 501 20.
(** Some directories that are there. *)
Definition roots : files :=
  <[str "/s" := Directory (Meta 501 20 448)]> (<[str "/home" := Directory (Meta 0 0 493)]> ∅).
Definition home : path := str "/home/u/.luhmen".
Definition sample_settings : Config := {|
  schema_version := 1; cpus := 4; memory_gib := 4; disk_gib := 30;
  mounts := [{| mount_path := str "/src"; writable := true |};
             {| mount_path := str "/srv/data"; writable := false |}];
  nested_virtualization := false |}.

Lemma mounts_isolated_witness :
  validate plain_host sample_settings home = Ok () ∧
  path_starts_with (str "/src/lib") (home ++ str "/") = false.
Proof.
  assert (validate plain_host sample_settings home = Ok ()) as Hv by (vm_compute; reflexivity).
  split; [exact Hv|].
  apply (mounts_isolated plain_host sample_settings home (home ++ str "/") Hv) with
    (i := 0) (m := {| mount_path := str "/src"; writable := true |}); vm_compute; reflexivity.
Defined.

Lemma Mount_parse_valid_witness :
  ∃ m, Mount_parse plain_host (str "/src:rw") = Ok m ∧ writable m = true ∧
    validate_mount plain_host home [{| mount_path := str "/srv/data"; writable := false |}] m = Ok ().
Proof.
  exists {| mount_path := str "/src"; writable := true |}.
  split; [vm_compute; reflexivity|]. split; [reflexivity|].
  apply (Mount_parse_valid plain_host (str "/src:rw")).
  - intros p q [= ->]. reflexivity.
  - vm_compute; reflexivity.
  - vm_compute; reflexivity.
  - intros o ->%list_elem_of_singleton. vm_compute; reflexivity.
Defined.

Lemma atomic_write_atomic_witness :
  match atomic_write quiet_environment sample_process (str "/s/config.json") (str "{}")
          (World 0 roots []) with
  | (Ret _, w) => fs w !! str "/s/config.json" = Some (private sample_process (str "{}"))
  | _ => False
  end.
Proof.
  pose proof (atomic_write_atomic quiet_environment sample_process (str "/s/config.json")
    (ex_intro _ (str "/s") eq_refl) ltac:(vm_compute; discriminate) (λ t s q _, eq_refl)
    None (str "{}") (World 0 roots []) eq_refl) as H.
  destruct (atomic_write _ _ _ _ _) as [o w] eqn:E.
  assert (o = Ret ()) as -> by (apply (f_equal fst) in E; vm_compute in E; symmetry; exact E).
  exact H.
Defined.

Lemma quiet_faultless : no_faults quiet_environment ∧ alone quiet_environment.
Proof. split; [intros t e; discriminate|intros t s; reflexivity]. Defined.


Lemma ensure_owned_owned_witness :
  match ensure_owned quiet_environment sample_process home true (World 0 roots []) with
  | (Ret _, w) => owned home (fs w)
  | _ => False
  end.
Proof.
  assert (usual sample_process home) as Hu.
  { split; [apply (bool_decide_unpack _); vm_compute; reflexivity|].
    split; [apply (bool_decide_unpack _); vm_compute; reflexivity|].
    split; [exists home; vm_compute; reflexivity|]. split; vm_compute; discriminate. }
  pose proof (ensure_owned_owned quiet_environment sample_process (proj1 quiet_faultless)
    (proj2 quiet_faultless) home true Hu (World 0 roots []) I) as H.
  destruct (ensure_owned _ _ _ _ _) as [o w] eqn:E.
  assert (o = Ret ()) as -> by (apply (f_equal fst) in E; vm_compute in E; symmetry; exact E).
  exact H.
Defined.
