(* ===== verification/Storage.v ===== *)
(** * Storage accounting (src/src/storage.rs)

    [scan] walks a directory tree and adds up the sizes of its regular files,
    within limits on entries, depth and time. The file system may change during
    the walk: every question to it is an oracle of the number of questions asked
    before ([tick]). Recursion is on the levels left before [DEPTH_LIMIT]. *)

From S2P Require Import Prelude Text Fs Paths.

Definition ENTRY_LIMIT : Z := 10000.
Definition TIME_LIMIT : Z := 2000.
Definition DEPTH_LIMIT : nat := 64.
Definition ERROR_LIMIT : nat := 32.

(** ** What the file system answers *)

Inductive io_error := NotFound | Other (message : bytes).

Inductive kind := RegularFile | Folder | Link | OtherKind.
#[export] Instance kind_eq_dec : EqDecision kind.
Proof. solve_decision. Defined.

Record stat := Stat {
  s_kind : kind; s_dev : Z; s_ino : Z; s_len : Z; s_blocks : Z; s_nlink : Z; s_uid : Z; s_gid : Z
}.

Abbreviation io A := (A + io_error)%type.

Record view := View {
  lstat : nat → path → io stat;
  read_dir : nat → path → io (list (io bytes));
  expired : nat → bool;
  free_space : nat → path → io Z
}.

Definition describe (e : io_error) : bytes :=
  match e with NotFound => str "No such file or directory" | Other m => m end.

(** ** The report *)

Record DirectoryUsage := {
  path_ : path;
  exists_ : option bool;
  root_uid : option Z;
  root_gid : option Z;
  complete : bool;
  file_logical_bytes : Z;
  file_allocated_bytes : Z;
  files_ : Z;
  entries_seen : Z;
  hardlinks_skipped : Z;
  symlinks_skipped : Z;
  other_entries_skipped : Z;
  entry_limit : Z;
  time_limit_ms : Z;
  errors : list bytes;
  additional_errors : Z
}.

Record ImageUsage := {
  image_path : path;
  image_exists : option bool;
  logical_bytes : option Z;
  allocated_bytes : option Z;
  hard_link_count : option Z;
  image_error : option bytes
}.

Record Report := {
  host_available_bytes : option Z;
  vm_directory : DirectoryUsage;
  backing_images : list ImageUsage;
  shared_lima_cache : option DirectoryUsage;
  report_errors : list bytes
}.

Section walk.
Context (V : view).

(** The component loop of [checked_metadata]. *)
Fixpoint check_names (t : nat) (current : path) (last : stat) (l : list bytes) : io stat * nat :=
  match l with
  | [] => (inl last, t)
  | n :: l =>
      if decide (n = str "..") then (inr (Other (str "storage path cannot contain '..'")), t)
      else
        let current := path_join current n in
        match lstat V t current with
        | inr e => (inr e, S t)
        | inl s =>
            if decide (s_kind s = Link) then
              (inr (Other (str "refusing symlink in storage path: " ++ current)), S t)
            else check_names (S t) current s l
        end
  end.

Definition checked_metadata (t : nat) (p : path) : io stat * nat :=
  if negb (is_absolute p) then (inr (Other (str "storage path must be absolute")), t)
  else match lstat V t (str "/") with
       | inr e => (inr e, S t)
       | inl s =>
           if decide (s_kind s = Link) then
             (inr (Other (str "refusing symlink in storage path: " ++ str "/")), S t)
           else check_names (S t) (str "/") s (names p)
       end.

Definition image_of (p : path) (found : option bool) (e : option bytes) : ImageUsage :=
  {| image_path := p; image_exists := found; logical_bytes := None; allocated_bytes := None;
     hard_link_count := None; image_error := e |}.

Definition inspect_image (t : nat) (p : path) : ImageUsage * nat :=
  let '(r, t) := checked_metadata t p in
  (match r with
   | inl s =>
       if decide (s_kind s = RegularFile) then
         let allocated := u64_checked_mul (s_blocks s) 512 in
         {| image_path := p; image_exists := Some true; logical_bytes := Some (s_len s);
            allocated_bytes := allocated; hard_link_count := Some (s_nlink s);
            image_error := match allocated with
                           | None => Some (str "allocated byte count exceeds u64")
                           | Some _ => None
                           end |}
       else image_of p (Some true) (Some (str "backing image is not a regular file"))
   | inr NotFound => image_of p (Some false) None
   | inr e => image_of p None (Some (describe e))
   end, t).

Fixpoint first_ancestor (t : nat) (l : list path) : io Z * nat :=
  match l with
  | [] => (inr (Other (str "no existing state directory ancestor")), t)
  | a :: l =>
      let '(r, t) := checked_metadata t a in
      match r with
      | inl s =>
          if decide (s_kind s = Folder) then (free_space V t a, S t)
          else (inr (Other (str "state ancestor is not a directory")), t)
      | inr NotFound => first_ancestor t l
      | inr e => (inr e, t)
      end
  end.
Definition available_space (t : nat) (p : path) : io Z * nat := first_ancestor t (ancestors p).

(** ** The walk *)

Record Walk := {
  result_ : DirectoryUsage;
  seen : gset (Z * Z);
  stopped : bool;
  ticks : nat
}.

Definition on_result (f : DirectoryUsage → DirectoryUsage) (w : Walk) : Walk :=
  {| result_ := f (result_ w); seen := seen w; stopped := stopped w; ticks := ticks w |}.
Definition at_tick (t : nat) (w : Walk) : Walk :=
  {| result_ := result_ w; seen := seen w; stopped := stopped w; ticks := t |}.
Definition stop (w : Walk) : Walk :=
  {| result_ := result_ w; seen := seen w; stopped := true; ticks := ticks w |}.
Definition see (i : Z * Z) (w : Walk) : Walk :=
  {| result_ := result_ w; seen := {[i]} ∪ seen w; stopped := stopped w; ticks := ticks w |}.

Definition error (p : path) (message : bytes) : Walk → Walk :=
  on_result (λ r,
    let fits := (length (errors r) <? ERROR_LIMIT)%nat in
    {| path_ := path_ r; exists_ := exists_ r; root_uid := root_uid r; root_gid := root_gid r;
       complete := false;
       file_logical_bytes := file_logical_bytes r; file_allocated_bytes := file_allocated_bytes r;
       files_ := files_ r; entries_seen := entries_seen r;
       hardlinks_skipped := hardlinks_skipped r; symlinks_skipped := symlinks_skipped r;
       other_entries_skipped := other_entries_skipped r;
       entry_limit := entry_limit r; time_limit_ms := time_limit_ms r;
       errors := if fits then errors r ++ [p ++ str ": " ++ message] else errors r;
       additional_errors := if fits then additional_errors r else (additional_errors r + 1)%Z |}).

(** The counters: entries, hard links, links and other entries, files and their bytes. *)
Definition count (entries hard soft other files logical allocated : Z) : Walk → Walk :=
  on_result (λ r,
    {| path_ := path_ r; exists_ := exists_ r; root_uid := root_uid r; root_gid := root_gid r;
       complete := complete r;
       file_logical_bytes := (file_logical_bytes r + logical)%Z;
       file_allocated_bytes := (file_allocated_bytes r + allocated)%Z;
       files_ := (files_ r + files)%Z; entries_seen := (entries_seen r + entries)%Z;
       hardlinks_skipped := (hardlinks_skipped r + hard)%Z;
       symlinks_skipped := (symlinks_skipped r + soft)%Z;
       other_entries_skipped := (other_entries_skipped r + other)%Z;
       entry_limit := entry_limit r; time_limit_ms := time_limit_ms r;
       errors := errors r; additional_errors := additional_errors r |}).

Definition within_budget (p : path) (w : Walk) : bool * Walk :=
  if stopped w then (false, w)
  else if (entry_limit (result_ w) <=? entries_seen (result_ w))%Z then
    (false, stop (error p (str "entry limit reached; totals are partial") w))
  else if expired V (ticks w) then
    (false, stop (error p (str "scan time limit reached; totals are partial") (at_tick (S (ticks w)) w)))
  else (true, at_tick (S (ticks w)) w).

(** The [is_file] arm of the entry loop. *)
Definition add_file (p : path) (s : stat) (w : Walk) : Walk :=
  if decide ((s_dev s, s_ino s) ∈ seen w) then count 0 1 0 0 0 0 0 w
  else
    let w := see (s_dev s, s_ino s) w in
    let r := result_ w in
    match u64_checked_add (file_logical_bytes r) (s_len s),
          u64_checked_mul (s_blocks s) 512 ≫= u64_checked_add (file_allocated_bytes r) with
    | Some _, Some _ => count 0 0 0 0 1 (s_len s) (s_blocks s * 512) w
    | _, _ => error p (str "byte count exceeds u64; totals are partial") w
    end.

(** The body of the entry loop, with [descend] for the recursive call. *)
Definition visit (descend : path → Z → Walk → Walk) (p : path) (device : Z) (entry : io bytes)
    (w : Walk) : Walk :=
  let w := count 1 0 0 0 0 0 0 w in
  match entry with
  | inr e => error p (describe e) w
  | inl name =>
      let q := path_join p name in
      let m := lstat V (ticks w) q in
      let w := at_tick (S (ticks w)) w in
      match m with
      | inr e => error q (describe e) w
      | inl s =>
          if decide (s_kind s = Link) then count 0 0 1 0 0 0 0 w
          else if decide (s_dev s ≠ device) then
            error q (str "different filesystem skipped; totals are partial") w
          else if decide (s_kind s = Folder) then descend q device w
          else if decide (s_kind s = RegularFile) then add_file q s w
          else count 0 0 0 1 0 0 0 w
      end
  end.

Fixpoint visit_all (descend : path → Z → Walk → Walk) (p : path) (device : Z)
    (entries : list (io bytes)) (w : Walk) : Walk :=
  match entries with
  | [] => w
  | entry :: entries =>
      let '(continue, w) := within_budget p w in
      if continue then visit_all descend p device entries (visit descend p device entry w) else w
  end.

(** The checks of [directory] before it reads the entries: whether to go on. *)
Definition enter (p : path) (device : Z) (w : Walk) : bool * Walk :=
  let '(r, t) := checked_metadata (ticks w) p in
  let w := at_tick t w in
  match r with
  | inl s =>
      if decide (s_kind s = Folder ∧ s_dev s = device) then
        if decide ((s_dev s, s_ino s) ∈ seen w) then
          (false, error p (str "directory already visited; totals are partial") w)
        else (true, see (s_dev s, s_ino s) w)
      else (false, error p (str "directory changed or crosses a filesystem; totals are partial") w)
  | inr e => (false, error p (describe e) w)
  end.

(** [directory], with [levels = DEPTH_LIMIT + 1 - depth]. *)
Fixpoint directory (levels : nat) (p : path) (device : Z) (w : Walk) : Walk :=
  let '(continue, w) := within_budget p w in
  if negb continue then w else
  match levels with
  | O => error p (str "directory depth limit reached; totals are partial") w
  | S levels =>
      let '(continue, w) := enter p device w in
      if negb continue then w else
      let r := read_dir V (ticks w) p in
      let w := at_tick (S (ticks w)) w in
      match r with
      | inr e => error p (describe e) w
      | inl entries => visit_all (directory levels) p device entries w
      end
  end.

Definition start_walk (p : path) (found : option bool) (uid gid : option Z) (limit time : Z)
    (t : nat) : Walk :=
  {| result_ :=
       {| path_ := p; exists_ := found; root_uid := uid; root_gid := gid; complete := true;
          file_logical_bytes := 0; file_allocated_bytes := 0; files_ := 0; entries_seen := 0;
          hardlinks_skipped := 0; symlinks_skipped := 0; other_entries_skipped := 0;
          entry_limit := limit; time_limit_ms := time; errors := []; additional_errors := 0 |};
     seen := ∅; stopped := false; ticks := t |}.

Definition scan (t : nat) (p : path) (limit time : Z) : DirectoryUsage * nat :=
  let '(r, t) := checked_metadata t p in
  let w := match r with
    | inl s =>
        let w := start_walk p (Some true) (Some (s_uid s)) (Some (s_gid s)) limit time t in
        if decide (s_kind s = Folder) then directory (S DEPTH_LIMIT) p (s_dev s) w
        else error p (str "storage root is not a directory") w
    | inr NotFound => start_walk p (Some false) None None limit time t
    | inr e => error p (describe e) (start_walk p None None None limit time t)
    end in
  (result_ w, ticks w).

Fixpoint inspect_images (t : nat) (l : list path) : list ImageUsage * nat :=
  match l with
  | [] => ([], t)
  | p :: l =>
      let '(i, t) := inspect_image t p in
      let '(r, t) := inspect_images t l in (i :: r, t)
  end.

Definition inspect_paths (state : path) (cache : option path) : Report :=
  let vm := path_join state (str "lima/luhmen") in
  let '(available, t) := available_space 0 state in
  let errors := match available with
                | inr e => [str "host available space: " ++ describe e]
                | inl _ => []
                end in
  let '(shared, t) := match cache with
                      | Some p => let '(r, t) := scan t p ENTRY_LIMIT TIME_LIMIT in (Some r, t)
                      | None => (None, t)
                      end in
  let errors := match cache with
                | None => errors ++ [str "HOME is not set; shared Lima cache location is unknown"]
                | Some _ => errors
                end in
  let '(directory, t) := scan t vm ENTRY_LIMIT TIME_LIMIT in
  let '(images, _) := inspect_images t
    (map (λ n, path_join vm (str n)) ["disk"; "image"; "basedisk"; "diffdisk"]) in
  {| host_available_bytes := match available with inl n => Some n | inr _ => None end;
     vm_directory := directory;
     backing_images := images;
     shared_lima_cache := shared;
     report_errors := errors |}.

(** [inspect], given the variable [HOME]. *)
Definition inspect (state : path) (home : option path) : Report :=
  inspect_paths state ((λ h, path_join h (str "Library/Caches/lima")) <$> home).

End walk.
