(* ===== verification/StorageSpec.v ===== *)
(** * What a storage report says

    However the file system changes, a report stays within its limits and its
    totals never overflow, and it is complete exactly if nothing went wrong. On a
    file system that does not change, a complete report counts each regular file
    of the tree once, by inode, and nothing else. *)

From S2P Require Import Prelude Text Fs Paths Storage.

(** ** Bounds *)

Record bounded (limit : Z) (w : Walk) : Prop := {
  b_limit : entry_limit (result_ w) = limit;
  b_entries : (entries_seen (result_ w) <= limit)%Z;
  b_logical : (0 <= file_logical_bytes (result_ w) <= u64_max)%Z;
  b_allocated : (0 <= file_allocated_bytes (result_ w) <= u64_max)%Z;
  b_counts : (files_ (result_ w) + hardlinks_skipped (result_ w) + symlinks_skipped (result_ w)
              + other_entries_skipped (result_ w) <= entries_seen (result_ w))%Z;
  b_errors : length (errors (result_ w)) ≤ ERROR_LIMIT;
  b_additional : (0 <= additional_errors (result_ w))%Z ∧
    ((0 < additional_errors (result_ w))%Z → length (errors (result_ w)) = ERROR_LIMIT);
  b_complete : complete (result_ w) = bool_decide (errors (result_ w) = [])
}.

(** The numbers of a file's status are not negative. *)
Definition valid_stats (V : view) : Prop :=
  ∀ t p s, lstat V t p = inl s → (0 <= s_len s)%Z ∧ (0 <= s_blocks s)%Z.

Section bounds.
Context (V : view) (valid : valid_stats V) (limit : Z).

Abbreviation bounded := (bounded limit).

Lemma bounded_error p m w : bounded w → bounded (error p m w).
Proof.
  intros []. unfold error, on_result. cbv zeta. destruct (Nat.ltb_spec (length (errors (result_ w))) ERROR_LIMIT);
    split; simpl; auto; try lia.
  - rewrite length_app. simpl. lia.
  - by destruct (errors (result_ w)).
  - symmetry. apply bool_decide_eq_false_2. intros E. rewrite E in H. simpl in H.
    unfold ERROR_LIMIT in H. lia.
Qed.

Lemma bounded_tick t w : bounded w → bounded (at_tick t w).
Proof. by intros []. Qed.
Lemma bounded_see i w : bounded w → bounded (see i w).
Proof. by intros []. Qed.
Lemma bounded_stop w : bounded w → bounded (stop w).
Proof. by intros []. Qed.

(** Room for one more skipped or added entry. *)
Definition slack (w : Walk) : Prop :=
  (files_ (result_ w) + hardlinks_skipped (result_ w) + symlinks_skipped (result_ w)
   + other_entries_skipped (result_ w) < entries_seen (result_ w))%Z.

Lemma bounded_entry w :
  bounded w → (entries_seen (result_ w) < limit)%Z →
  bounded (count 1 0 0 0 0 0 0 w) ∧ slack (count 1 0 0 0 0 0 0 w).
Proof.
  intros [] Hlt. unfold count, on_result, slack. split; [split|]; simpl; rewrite ?Z.add_0_r; auto; lia.
Qed.

Lemma bounded_count h s o f l a w :
  bounded w → slack w → (h + s + o + f <= 1)%Z →
  (0 <= file_logical_bytes (result_ w) + l <= u64_max)%Z →
  (0 <= file_allocated_bytes (result_ w) + a <= u64_max)%Z →
  bounded (count 0 h s o f l a w).
Proof.
  intros [] Hs. unfold slack in Hs. intros. unfold count, on_result.
  split; simpl; rewrite ?Z.add_0_r; auto; lia.
Qed.

Lemma bounded_skip h s o w :
  bounded w → slack w → (h + s + o <= 1)%Z → bounded (count 0 h s o 0 0 0 w).
Proof. intros Hb Hs Hle. pose proof Hb as []. apply bounded_count; auto; lia. Qed.

Lemma bounded_add_file p s w :
  bounded w → slack w → (0 <= s_len s)%Z → (0 <= s_blocks s)%Z → bounded (add_file p s w).
Proof.
  intros Hb Hs Hl Hk. unfold add_file. case_decide; [by apply bounded_skip|].
  pose proof Hb as [].
  destruct (u64_checked_add _ _) as [l|] eqn:El; [|by apply bounded_error, bounded_see].
  apply u64_checked_add_Some in El as [-> Hle]. simpl in Hle.
  destruct (u64_checked_mul _ _) as [a|] eqn:Ea; simpl; [|by apply bounded_error, bounded_see].
  apply u64_checked_mul_Some in Ea as [-> _].
  destruct (u64_checked_add _ _) as [b|] eqn:Eb; [|by apply bounded_error, bounded_see].
  apply u64_checked_add_Some in Eb as [-> Hle']. simpl in Hle'.
  apply bounded_count; [by apply bounded_see|done|done|simpl; lia|simpl; lia].
Qed.

Lemma bounded_within_budget p w continue w' :
  within_budget V p w = (continue, w') → bounded w →
  bounded w' ∧ (continue = true → (entries_seen (result_ w') < limit)%Z).
Proof.
  unfold within_budget. intros Hb Hw. pose proof (b_limit _ _ Hw) as Hlim.
  destruct (stopped w); [by injection Hb as <- <-|].
  destruct (Z.leb_spec (entry_limit (result_ w)) (entries_seen (result_ w))).
  { injection Hb as <- <-. split; [by apply bounded_stop, bounded_error|done]. }
  destruct (expired V (ticks w)); injection Hb as <- <-; split; try done.
  - by apply bounded_stop, bounded_error, bounded_tick.
  - by apply bounded_tick.
  - intros _. simpl. lia.
Qed.

Lemma bounded_visit descend p device entry w :
  (∀ q w, bounded w → bounded (descend q device w)) →
  bounded w → (entries_seen (result_ w) < limit)%Z → bounded (visit V descend p device entry w).
Proof.
  intros Hd Hw Hlt. destruct (bounded_entry w Hw Hlt) as [Hb Hs]. unfold visit.
  destruct entry as [name|e]; [|by apply bounded_error]. cbv zeta.
  destruct (lstat V _ _) as [s|e] eqn:Es; [|by apply bounded_error, bounded_tick].
  apply valid in Es as [Hl Hk].
  apply (bounded_tick (S (ticks (count 1 0 0 0 0 0 0 w)))) in Hb.
  repeat case_decide; auto using bounded_error, bounded_add_file; by apply bounded_skip.
Qed.

Lemma bounded_visit_all descend p device entries w :
  (∀ q w, bounded w → bounded (descend q device w)) →
  bounded w → bounded (visit_all V descend p device entries w).
Proof.
  intros Hd. revert w. induction entries as [|entry entries IH]; intros w Hw; simpl; [done|].
  destruct (within_budget V p w) as [continue w'] eqn:E.
  destruct (bounded_within_budget _ _ _ _ E Hw) as [Hw' Hlt].
  destruct continue; [|done]. apply IH, bounded_visit; auto.
Qed.

Lemma bounded_enter p device w continue w' :
  enter V p device w = (continue, w') → bounded w → bounded w'.
Proof.
  unfold enter. intros He Hw. destruct (checked_metadata V (ticks w) p) as [[s|e] t];
    repeat case_decide; injection He as <- <-; auto using bounded_error, bounded_see, bounded_tick.
Qed.

Lemma bounded_directory levels p device w :
  bounded w → bounded (directory V levels p device w).
Proof.
  revert p w. induction levels as [|levels IH]; intros p w Hw; simpl;
    destruct (within_budget V p w) as [continue w1] eqn:E1;
    destruct (bounded_within_budget _ _ _ _ E1 Hw) as [Hw1 _];
    (destruct continue; simpl; [|done]).
  - by apply bounded_error.
  - destruct (enter V p device w1) as [go w2] eqn:E2. apply bounded_enter in E2; [|done].
    destruct go; simpl; [|done].
    destruct (read_dir V (ticks w2) p); [|by apply bounded_error, bounded_tick].
    apply bounded_visit_all; [auto|by apply bounded_tick].
Qed.

Lemma bounded_start p found u g time t : (0 <= limit)%Z → bounded (start_walk p found u g limit time t).
Proof. intros Hl. split; simpl; try done; unfold u64_max, ERROR_LIMIT; lia. Qed.

End bounds.

(** C33. Whatever the file system answers, and even if it changes during the walk, a scan sees at
    most [limit] entries, keeps at most 32 errors and counts the rest, its totals stay within 64
    bits, every entry is counted in at most one class, and [complete] is set exactly if there was
    no error. *)
Theorem scan_bounded V t p limit time :
  valid_stats V → (0 <= limit)%Z →
  let r := (scan V t p limit time).1 in
  (entries_seen r <= limit)%Z ∧ length (errors r) ≤ ERROR_LIMIT ∧
  (0 <= file_logical_bytes r <= u64_max)%Z ∧ (0 <= file_allocated_bytes r <= u64_max)%Z ∧
  (files_ r + hardlinks_skipped r + symlinks_skipped r + other_entries_skipped r
     <= entries_seen r)%Z ∧
  (complete r = true ↔ errors r = []) ∧
  ((0 < additional_errors r)%Z → length (errors r) = ERROR_LIMIT).
Proof.
  intros Hv Hl. unfold scan. destruct (checked_metadata V t p) as [m t'].
  set (w := match m with inl _ => _ | inr _ => _ end).
  assert (bounded limit w) as [? ? ? ? ? ? [? ?] Hc].
  { unfold w. destruct m as [s|[]]; [case_decide|..];
      auto using bounded_directory, bounded_error, bounded_start. }
  simpl. rewrite Hc, bool_decide_eq_true. tauto.
Qed.

(** ** Completeness *)

(** The file system does not change during the walk. *)
Definition static (V : view) : Prop :=
  ∀ t p, lstat V t p = lstat V 0 p ∧ read_dir V t p = read_dir V 0 p.

Definition inode (s : stat) : Z * Z := (s_dev s, s_ino s).

(** An inode has one kind, whatever its names. *)
Definition one_kind (V : view) : Prop :=
  ∀ p q s s', lstat V 0 p = inl s → lstat V 0 q = inl s' → inode s = inode s' → s_kind s = s_kind s'.

(** The names in a directory. *)
Definition has_entry (V : view) (d : path) (n : bytes) : Prop :=
  ∃ es, read_dir V 0 d = inl es ∧ inl n ∈ es.

(** The directories of the tree under [root], by real directories of one file system. *)
Inductive folder (V : view) (root : path) (dev : Z) : path → Prop :=
| folder_root : folder V root dev root
| folder_in d n s :
    folder V root dev d → has_entry V d n → lstat V 0 (path_join d n) = inl s →
    s_kind s = Folder → s_dev s = dev → folder V root dev (path_join d n).

(** A regular file of the tree. *)
Definition file_in (V : view) (root : path) (dev : Z) (p : path) (s : stat) : Prop :=
  ∃ d n, folder V root dev d ∧ has_entry V d n ∧ p = path_join d n ∧
    lstat V 0 p = inl s ∧ s_kind s = RegularFile ∧ s_dev s = dev.

Definition total (f : stat → Z) (counted : list (path * stat)) : Z :=
  foldr (λ x n, f x.2 + n)%Z 0%Z counted.
Definition inodes (counted : list (path * stat)) : list (Z * Z) := map (λ x, inode x.2) counted.

Section complete.
Context (V : view) (unchanging : static V) (kinds : one_kind V) (root : path) (dev : Z).

(** [counted] are the files in the totals, [visited] the directories whose entries were read. *)
Record walked (w : Walk) (counted : list (path * stat)) (visited : list path) : Prop := {
  w_seen : ∀ i, i ∈ seen w → i ∈ inodes counted ∨
    ∃ q s, lstat V 0 q = inl s ∧ s_kind s = Folder ∧ inode s = i;
  w_counted : ∀ i, i ∈ inodes counted → i ∈ seen w;
  w_once : NoDup (inodes counted);
  w_files : ∀ x, x ∈ counted → file_in V root dev x.1 x.2;
  w_logical : file_logical_bytes (result_ w) = total s_len counted;
  w_allocated : file_allocated_bytes (result_ w) = total (λ s, s_blocks s * 512)%Z counted;
  w_number : files_ (result_ w) = Z.of_nat (length counted)
}.

(** Everything in [d] has been accounted for. *)
Definition closed (d : path) (counted : list (path * stat)) (visited : list path) : Prop :=
  ∀ n s, has_entry V d n → lstat V 0 (path_join d n) = inl s → s_dev s = dev →
    (s_kind s = RegularFile → inode s ∈ inodes counted) ∧
    (s_kind s = Folder → path_join d n ∈ visited).

Lemma closed_mono d c v c' v' : closed d c v → inodes c ⊆ inodes c' → v ⊆ v' → closed d c' v'.
Proof. intros Hc H1 H2 n s Hn Hs Hd. destruct (Hc n s Hn Hs Hd). split; auto. Qed.

Abbreviation complete_ w := (complete (result_ w) = true).

Lemma walked_result w w' c v :
  walked w c v → seen w' = seen w →
  file_logical_bytes (result_ w') = file_logical_bytes (result_ w) →
  file_allocated_bytes (result_ w') = file_allocated_bytes (result_ w) →
  files_ (result_ w') = files_ (result_ w) → walked w' c v.
Proof. intros [] E1 E2 E3 E4. split; rewrite ?E1, ?E2, ?E3, ?E4; auto. Qed.

Lemma walked_skip e h s o w c v : walked w c v → walked (count e h s o 0 0 0 w) c v.
Proof. intros Hw. eapply walked_result; [done|simpl; lia || done..]. Qed.

(** An error makes the report incomplete for good. *)
Lemma error_incomplete p m w : ¬ complete_ (error p m w).
Proof. done. Qed.

Lemma within_budget_complete p w continue w' :
  within_budget V p w = (continue, w') → complete_ w' →
  complete_ w ∧ (stopped w = false → continue = true) ∧ stopped w' = stopped w ∧
  ∀ c v, walked w c v → walked w' c v.
Proof.
  unfold within_budget. destruct (stopped w) eqn:Es; [intros [= <- <-]; done|].
  destruct (Z.leb _ _); [by intros [= <- <-]|]. destruct (expired _ _); intros [= <- <-]; [done|].
  intros Hc. split_and!; auto. intros c v Hw. by eapply walked_result.
Qed.

(** A walk that is still complete has not been stopped. *)
Definition live (w : Walk) : Prop := complete_ w → stopped w = false.

Lemma live_error p m w : live (error p m w).
Proof. done. Qed.

(** From [w] to [w'] the walk has accounted for more: it only adds, the directories it adds are
    closed, and [P] holds of what it has accounted for. *)
Definition advances (w w' : Walk) (P : list (path * stat) → list path → Prop) : Prop :=
  live w' ∧ (complete_ w' → complete_ w ∧ ∀ c v, walked w c v →
    ∃ c' v', walked w' c' v' ∧ inodes c ⊆ inodes c' ∧ v ⊆ v' ∧
      (∀ d, d ∈ v' → d ∈ v ∨ closed d c' v') ∧ P c' v').

Definition grows (P : list (path * stat) → list path → Prop) : Prop :=
  ∀ c v c' v', P c v → inodes c ⊆ inodes c' → v ⊆ v' → P c' v'.

Lemma advances_incomplete w w' P : ¬ complete_ w' → advances w w' P.
Proof. intros Hn. split; [by intros ?%Hn|by intros ?%Hn]. Qed.

Lemma advances_trans w1 w2 w3 P Q :
  advances w1 w2 P → advances w2 w3 Q → grows P → advances w1 w3 (λ c v, P c v ∧ Q c v).
Proof.
  intros [L1 H1] [L2 H2] HP. split; [done|]. intros C3.
  destruct (H2 C3) as [C2 H2']. destruct (H1 C2) as [C1 H1']. split; [done|].
  intros c v Hw. destruct (H1' c v Hw) as (c1 & v1 & W1 & Ic1 & Iv1 & D1 & P1).
  destruct (H2' c1 v1 W1) as (c2 & v2 & W2 & Ic2 & Iv2 & D2 & P2).
  exists c2, v2. split_and!; eauto; [set_solver|set_solver|].
  intros d [Hd|Hd]%D2; [|by right]. apply D1 in Hd as [Hd|Hd]; [by left|right].
  by eapply closed_mono.
Qed.

Lemma advances_weaken w w' P Q : advances w w' P → (∀ c v, P c v → Q c v) → advances w w' Q.
Proof.
  intros [L H] HPQ. split; [done|]. intros C. destruct (H C) as [C' H']. split; [done|].
  intros c v Hw. destruct (H' c v Hw) as (c' & v' & ? & ? & ? & ? & ?). exists c', v'.
  split_and!; auto.
Qed.

(** A step that adds nothing. *)
Lemma advances_same w w' :
  live w → complete (result_ w') = complete (result_ w) → stopped w' = stopped w →
  (∀ c v, walked w c v → walked w' c v) → advances w w' (λ _ _, True).
Proof.
  intros Hl Hc Hs Hw. unfold advances, live. rewrite Hc, Hs. split; [done|]. intros C.
  split; [done|]. intros c v Hwc. exists c, v. split_and!; auto.
Qed.

Lemma advances_budget p w continue w' :
  live w → within_budget V p w = (continue, w') →
  advances w w' (λ _ _, True) ∧ (complete_ w' → continue = true).
Proof.
  intros Hl E. split.
  - destruct (complete (result_ w')) eqn:C; [|apply advances_incomplete; by rewrite C].
    destruct (within_budget_complete _ _ _ _ E C) as (Cw & _ & Hs & Hw).
    apply advances_same; auto. congruence.
  - intros C. destruct (within_budget_complete _ _ _ _ E C) as (Cw & Hs & _). auto.
Qed.

Lemma advances_add_file q s w :
  live w → file_in V root dev q s → lstat V 0 q = inl s →
  advances w (add_file q s w) (λ c _, inode s ∈ inodes c).
Proof using unchanging kinds.
  intros Hl Hq Hs. unfold add_file. fold (inode s). case_decide as Hin.
  - split; [done|]. intros C. split; [done|]. intros c v Hw. exists c, v.
    split_and!; auto using walked_skip.
    destruct (w_seen _ _ _ Hw _ Hin) as [|(p & s' & Hp & Hk & He)]; [done|].
    destruct Hq as (_ & _ & _ & _ & _ & _ & Hk' & _).
    pose proof (kinds _ _ _ _ Hp Hs He). congruence.
  - destruct (u64_checked_add _ _) as [l|]; [|by apply advances_incomplete].
    destruct (_ ≫= _) as [a|]; [|by apply advances_incomplete].
    split; [done|]. intros C. split; [done|]. intros c v Hw. pose proof Hw as [].
    exists ((q, s) :: c), v. split_and!; [|set_solver|done|auto|set_solver].
    split; simpl; try lia.
    + intros i [->%elem_of_singleton|[Hi|Hi]%w_seen0]%elem_of_union; [left|left|by right]; set_solver.
    + intros i [->|Hi%w_counted0]%elem_of_cons; set_solver.
    + constructor; [|done]. intros Hc%w_counted0. done.
    + intros x [->|Hx]%elem_of_cons; auto.
Qed.

(** What [visit] owes for the entry [n] of [p]. *)
Definition accounted (p : path) (n : bytes) (c : list (path * stat)) (v : list path) : Prop :=
  ∀ s, lstat V 0 (path_join p n) = inl s → s_dev s = dev →
    (s_kind s = RegularFile → inode s ∈ inodes c) ∧ (s_kind s = Folder → path_join p n ∈ v).

Lemma accounted_grows p n : grows (accounted p n).
Proof. intros c v c' v' H Hc Hv s Hs Hd. destruct (H s Hs Hd). split; auto. Qed.

Definition descends (descend : path → Z → Walk → Walk) : Prop :=
  ∀ q w, folder V root dev q → live w → advances w (descend q dev w) (λ _ v, q ∈ v).

Lemma advances_visit descend p n w :
  descends descend → folder V root dev p → has_entry V p n → live w →
  advances w (visit V descend p dev (inl n) w) (accounted p n).
Proof using unchanging kinds.
  intros Hdesc Hp Hn Hl. unfold visit. cbv zeta.
  set (w1 := at_tick _ _).
  assert (advances w w1 (λ _ _, True) ∧ live w1) as [H1 Hl1].
  { split; [|done]. apply advances_same; auto. intros c v Hw.
    by apply (walked_result (count 1 0 0 0 0 0 0 w)); [apply walked_skip|..]. }
  rewrite (proj1 (unchanging _ _)).
  destruct (lstat V 0 (path_join p n)) as [s|e] eqn:Es; [|by apply advances_incomplete].
  assert (∀ w' P, advances w1 w' P → (∀ c v, P c v → accounted p n c v) →
    advances w w' (accounted p n)) as Hgo.
  { intros w' P HP Ha. eapply advances_weaken; [by eapply advances_trans|]. simpl. naive_solver. }
  assert (∀ h so o, advances w1 (count 0 h so o 0 0 0 w1) (λ _ _, True)) as Hskip.
  { intros. apply advances_same; auto. intros c v. apply walked_skip. }
  case_decide as K1; [|case_decide as K2; [|case_decide as K3; [|case_decide as K4]]].
  - eapply Hgo; [apply Hskip|]. intros c v _ s' Hs' _. split; congruence.
  - by apply advances_incomplete.
  - eapply Hgo; [apply Hdesc; [|done]|].
    + eapply folder_in; eauto.
    + intros c v Hq s' Hs' _. split; [congruence|done].
  - eapply Hgo; [apply advances_add_file; auto|].
    + exists p, n. auto 10.
    + simpl. intros c v Hi s' Hs' _. split; [congruence|]. congruence.
  - eapply Hgo; [apply Hskip|]. intros c v _ s' Hs' _. split; congruence.
Qed.

Lemma advances_visit_all descend p entries w :
  descends descend → folder V root dev p → (∀ n, inl n ∈ entries → has_entry V p n) → live w →
  advances w (visit_all V descend p dev entries w)
    (λ c v, ∀ n, inl n ∈ entries → accounted p n c v).
Proof using unchanging kinds.
  intros Hdesc Hp. revert w. induction entries as [|entry entries IH]; intros w Hn Hl; simpl.
  { eapply advances_weaken; [by apply advances_same|]. intros c v _ n []%not_elem_of_nil. }
  destruct (within_budget V p w) as [continue w1] eqn:E.
  destruct (advances_budget _ _ _ _ Hl E) as [H1 Hcont]. pose proof H1 as [L1 _].
  destruct continue; [|apply advances_incomplete; by intros ?%Hcont].
  destruct entry as [n|e].
  - assert (advances w1 (visit V descend p dev (inl n) w1) (accounted p n)) as H2
      by (apply advances_visit; auto; apply Hn; set_solver).
    pose proof H2 as [L2 _].
    assert (∀ m, inl m ∈ entries → has_entry V p m) as Hn' by (intros m Hm; apply Hn; set_solver).
    pose proof (advances_trans _ _ _ _ _ H2 (IH _ Hn' L2) (accounted_grows p n)) as H3.
    eapply advances_weaken; [by eapply (advances_trans _ _ _ (λ _ _, True))|].
    simpl. intros c v (_ & Ha & Hall) m [[= ->]|Hm]%elem_of_cons; auto.
  - assert (¬ complete_ (visit V descend p dev (inr e) w1)) as Hi by done.
    assert (∀ m, inl m ∈ entries → has_entry V p m) as Hn' by (intros m Hm; apply Hn; set_solver).
    destruct (IH _ Hn' (λ C, False_rect _ (Hi C))) as [L3 H3]. split; [done|].
    intros C. by destruct (H3 C) as [C2 _].
Qed.

Lemma checked_stat t p s t' :
  checked_metadata V t p = (inl s, t') → ∃ q, lstat V 0 q = inl s.
Proof using unchanging kinds.
  unfold checked_metadata. destruct (negb (is_absolute p)); [done|].
  rewrite (proj1 (unchanging _ _)).
  destruct (lstat V 0 (str "/")) as [s0|] eqn:E0; [|done]. case_decide; [done|].
  assert (∃ q, lstat V 0 q = inl s0) as Hq by eauto. clear E0 H. revert Hq.
  generalize (S t) (str "/") s0. induction (names p) as [|n l IH]; simpl; intros t1 q1 s1 Hq.
  { intros [= <- _]. done. }
  case_decide; [done|]. rewrite (proj1 (unchanging _ _)).
  destruct (lstat V 0 (path_join q1 n)) eqn:E1; [|done]. case_decide; [done|].
  apply IH. eauto.
Qed.

Lemma advances_enter p w continue w' :
  live w → enter V p dev w = (continue, w') →
  advances w w' (λ _ _, True) ∧ (complete_ w' → continue = true).
Proof using unchanging kinds.
  intros Hl E. unfold enter in E.
  destruct (checked_metadata V (ticks w) p) as [[s|e] t] eqn:Ec;
    [|by injection E as <- <-; split; [apply advances_incomplete|]].
  case_decide as K1; [case_decide as K2|]; injection E as <- <-;
    (split; [|done]); try by apply advances_incomplete.
  apply advances_same; auto. intros c v []. split; simpl; auto; try (set_solver).
  intros i [->%elem_of_singleton|Hi]%elem_of_union; [right|auto].
  apply checked_stat in Ec as [q Hq]. exists q, s. tauto.
Qed.

Lemma advances_directory levels : descends (directory V levels).
Proof using unchanging kinds.
  induction levels as [|levels IH]; intros p w Hp Hl; simpl;
    destruct (within_budget V p w) as [continue w1] eqn:E1;
    destruct (advances_budget _ _ _ _ Hl E1) as [H1 Hc1]; pose proof H1 as [L1 _];
    (destruct continue; simpl; [|apply advances_incomplete; by intros ?%Hc1]).
  { by apply advances_incomplete. }
  destruct (enter V p dev w1) as [go w2] eqn:E2.
  destruct (advances_enter _ _ _ _ L1 E2) as [H2 Hc2]. pose proof H2 as [L2 _].
  destruct go; simpl; [|apply advances_incomplete; by intros ?%Hc2].
  rewrite (proj2 (unchanging _ _)).
  destruct (read_dir V 0 p) as [entries|e] eqn:Er; [|by apply advances_incomplete].
  set (w3 := at_tick _ w2).
  assert (∀ n, inl n ∈ entries → has_entry V p n) as Hn by (intros n Hin; by exists entries).
  destruct (advances_visit_all _ p entries w3 IH Hp Hn L2) as [L4 H4]. split; [done|].
  intros C. destruct (H4 C) as [C3 H4']. destruct H2 as [_ H2]. destruct (H2 C3) as [C1 H2'].
  destruct H1 as [_ H1]. destruct (H1 C1) as [C0 H1']. split; [done|].
  intros c v Hw. destruct (H1' c v Hw) as (c1 & v1 & W1 & Ic1 & Iv1 & D1 & _).
  destruct (H2' c1 v1 W1) as (c2 & v2 & W2 & Ic2 & Iv2 & D2 & _).
  destruct (H4' c2 v2) as (c4 & v4 & W4 & Ic4 & Iv4 & D4 & Hall); [by eapply walked_result|].
  assert (closed p c4 (p :: v4)) as Hclosed.
  { intros n s (es & Hes & Hin) Hs Hd. assert (es = entries) as -> by congruence.
    destruct (Hall n Hin s Hs Hd) as [Hf Hdir]. split; [auto|]. intros K. right. auto. }
  exists c4, (p :: v4). split_and!; [by destruct W4|set_solver|set_solver| |set_solver].
  intros d [->|Hd]%elem_of_cons; [by right|].
  assert (d ∈ v ∨ closed d c4 v4) as [|]; [|by left|right; eapply closed_mono; set_solver].
  apply D4 in Hd as [Hd|]; [|auto]. apply D2 in Hd as [Hd|Hd]; [|right; by eapply closed_mono].
  apply D1 in Hd as [Hd|Hd]; [auto|right]. eapply closed_mono; [done|set_solver..].
Qed.

End complete.

Lemma folder_visited V root dev c v :
  root ∈ v → (∀ d, d ∈ v → closed V dev d c v) → ∀ d, folder V root dev d → d ∈ v.
Proof.
  intros Hroot Hclosed d. induction 1 as [|d n s Hd IH Hn Hs Hk Hdev]; [done|].
  by destruct (Hclosed d IH n s Hn Hs Hdev) as [_ ?]; auto.
Qed.

(** C24. On a file system that does not change, a complete report of an existing directory counts
    every regular file that is reachable from it through real directories of its file system,
    each inode once whatever its number of names, and no other file: the totals are the sums
    over these files. *)
Theorem scan_counts V t p limit time r t' :
  static V → one_kind V → scan V t p limit time = (r, t') →
  exists_ r = Some true → complete r = true →
  ∃ s counted, (checked_metadata V t p).1 = inl s ∧ s_kind s = Folder ∧
    NoDup (inodes counted) ∧
    (∀ x, x ∈ counted → file_in V p (s_dev s) x.1 x.2) ∧
    (∀ q m, file_in V p (s_dev s) q m → inode m ∈ inodes counted) ∧
    file_logical_bytes r = total s_len counted ∧
    file_allocated_bytes r = total (λ s, s_blocks s * 512)%Z counted ∧
    files_ r = Z.of_nat (length counted).
Proof.
  intros Hst Hk Hscan Hex Hc. unfold scan in Hscan.
  destruct (checked_metadata V t p) as [[s|[]] t1]; [|by injection Hscan as <- _..].
  destruct (decide (s_kind s = Folder)) as [Hf|]; [|by injection Hscan as <- _].
  set (w := start_walk _ _ _ _ _ _ _) in *.
  destruct (advances_directory V Hst Hk p (s_dev s) (S DEPTH_LIMIT) p w) as [_ H];
    [constructor|done|].
  injection Hscan as <- _. destruct (H Hc) as [_ H'].
  destruct (H' [] []) as (c & v & W & _ & _ & D & Hp).
  { split; simpl; try done; [intros i []%not_elem_of_nil|constructor|intros x []%not_elem_of_nil]. }
  assert (∀ d, d ∈ v → closed V (s_dev s) d c v) as Hcl
    by (intros d [[]%not_elem_of_nil|]%D; done).
  exists s, c. destruct W. split_and!; auto.
  intros q m (d & n & Hd & Hn & -> & Hl & Hkind & Hdev).
  by apply (Hcl d (folder_visited _ _ _ _ _ Hp Hcl d Hd) n m Hn Hl Hdev).
Qed.

(** ** A small tree *)

Definition sample_stat (k : kind) (ino length : Z) : stat := Stat k 1 ino length 8 1 501 20.
Definition sample_lstat (p : path) : io stat :=
  if decide (p = str "/") then inl (sample_stat Folder 1 0)
  else if decide (p = str "/d") then inl (sample_stat Folder 2 0)
  else if decide (p = str "/d/a") then inl (sample_stat RegularFile 3 100)
  else if decide (p = str "/d/b") then inl (sample_stat RegularFile 3 100)
  else if decide (p = str "/d/l") then inl (sample_stat Link 4 1)
  else inr NotFound.
Definition sample_view : view := {|
  lstat := λ _, sample_lstat;
  read_dir := λ _ p, if decide (p = str "/d")
                     then inl [inl (str "a"); inl (str "b"); inl (str "l")] else inr NotFound;
  expired := λ _, false;
  free_space := λ _ _, inl 0%Z
|}.

Lemma sample_kind p s :
  lstat sample_view 0 p = inl s →
  s_kind s = if (s_ino s <=? 2)%Z then Folder else if (s_ino s =? 3)%Z then RegularFile else Link.
Proof.
  simpl. unfold sample_lstat. intros H.
  repeat (case_decide; [injection H as <-; reflexivity|]). discriminate H.
Qed.

Lemma scan_counts_witness :
  ∃ counted, NoDup (inodes counted) ∧
    file_logical_bytes (scan sample_view 0 (str "/d") ENTRY_LIMIT TIME_LIMIT).1 = total s_len counted ∧
    files_ (scan sample_view 0 (str "/d") ENTRY_LIMIT TIME_LIMIT).1 = 1%Z.
Proof.
  destruct (scan sample_view 0 (str "/d") ENTRY_LIMIT TIME_LIMIT) as [r t'] eqn:E.
  assert (one_kind sample_view) as Hk.
  { intros p q s s' Hp%sample_kind Hq%sample_kind Hi. injection Hi as _ Hi.
    rewrite Hp, Hq, Hi. reflexivity. }
  assert (exists_ r = Some true ∧ complete r = true ∧ files_ r = 1%Z) as (He & Hc & Hf).
  { apply (f_equal fst) in E. vm_compute in E. simpl in E. subst r. repeat split; reflexivity. }
  destruct (scan_counts sample_view 0 (str "/d") ENTRY_LIMIT TIME_LIMIT r t'
    (λ t p, conj eq_refl eq_refl) Hk E He Hc) as (s & counted & _ & _ & Hn & _ & _ & Hl & _).
  exists counted. split; [exact Hn|]. split; [exact Hl|exact Hf].
Defined.

Lemma scan_bounded_witness :
  valid_stats sample_view ∧ length (errors (scan sample_view 0 (str "/x") 10 TIME_LIMIT).1) ≤ ERROR_LIMIT.
Proof.
  assert (valid_stats sample_view) as Hv.
  { intros t p s Hs. unfold lstat, sample_view, sample_lstat in Hs.
    repeat (case_decide; [injection Hs as <-; simpl; lia|]). discriminate Hs. }
  split; [exact Hv|].
  destruct (scan_bounded sample_view 0 (str "/x") 10 TIME_LIMIT Hv ltac:(lia)) as (_ & H & _).
  exact H.
Defined.
