(* ===== verification/Value.v ===== *)
(** * JSON values

    [serde_json::Value] as far as the program looks into it. An object lists its
    members in the order of the keys, each key once, which is what the library's
    map gives; reading and writing JSON text are parameters of the modules that
    do it. A number keeps its text: the program never computes with one. *)

From S2P Require Import Prelude Text.

Inductive value :=
| Null
| Bool (b : bool)
| Number (text : bytes)
| String (s : bytes)
| Array (l : list value)
| Object (l : list (bytes * value)).

(** Induction with the hypothesis for the elements of arrays and objects. *)
Lemma value_ind' (P : value → Prop) :
  P Null → (∀ b, P (Bool b)) → (∀ n, P (Number n)) → (∀ s, P (String s)) →
  (∀ l, Forall P l → P (Array l)) → (∀ l, Forall (λ x, P x.2) l → P (Object l)) →
  ∀ v, P v.
Proof.
  intros Hn Hb Hm Hs Ha Ho. fix IH 1.
  intros [|b|n|s|l|l]; [exact Hn|apply Hb|apply Hm|apply Hs| |].
  - apply Ha. induction l; constructor; [apply IH|done].
  - apply Ho. induction l as [|[k v] l]; constructor; [apply IH|done].
Qed.

Fixpoint value_eqb (v w : value) : bool :=
  match v, w with
  | Null, Null => true
  | Bool b, Bool c => Bool.eqb b c
  | Number a, Number b | String a, String b => bool_decide (a = b)
  | Array l, Array k =>
      (fix eqs (l k : list value) := match l, k with
        | [], [] => true
        | v :: l, w :: k => value_eqb v w && eqs l k
        | _, _ => false
        end) l k
  | Object l, Object k =>
      (fix eqs (l k : list (bytes * value)) := match l, k with
        | [], [] => true
        | (a, v) :: l, (b, w) :: k => bool_decide (a = b) && value_eqb v w && eqs l k
        | _, _ => false
        end) l k
  | _, _ => false
  end.

Lemma value_eqb_eq v w : value_eqb v w = true ↔ v = w.
Proof.
  revert w. induction v as [|b|n|s|l IH|l IH] using value_ind'; intros [|b'|n'|s'|l'|l']; simpl;
    try (split; intros; congruence).
  - rewrite Bool.eqb_true_iff. split; congruence.
  - rewrite bool_decide_eq_true. split; congruence.
  - rewrite bool_decide_eq_true. split; congruence.
  - transitivity (l = l'); [|split; congruence]. revert l'.
    induction IH as [|v l Hv _ IHl]; intros [|w l']; try (split; intros; congruence).
    rewrite andb_true_iff, Hv, IHl. split; [intros [-> ->]|intros [= -> ->]]; done.
  - transitivity (l = l'); [|split; congruence]. revert l'.
    induction IH as [|[a v] l Hv _ IHl]; intros [|[b w] l']; try (split; intros; congruence).
    simpl in Hv. rewrite !andb_true_iff, Hv, IHl, bool_decide_eq_true.
    split; [intros [[-> ->] ->]|intros [= -> -> ->]]; done.
Qed.

#[export] Instance value_eq_dec : EqDecision value.
Proof.
  intros v w. destruct (value_eqb v w) eqn:E; [left|right].
  - by apply value_eqb_eq.
  - intros H%value_eqb_eq. congruence.
Defined.

(** ** Access *)

Fixpoint assoc {A : Type} (k : bytes) (l : list (bytes * A)) : option A :=
  match l with
  | [] => None
  | (a, v) :: l => if decide (a = k) then Some v else assoc k l
  end.
(** The order of keys. *)
Fixpoint before (a b : bytes) : bool :=
  match a, b with
  | _, [] => false
  | [], _ :: _ => true
  | x :: a, y :: b => (code x <? code y)%Z || (code x =? code y)%Z && before a b
  end.
Fixpoint assoc_set {A : Type} (k : bytes) (x : A) (l : list (bytes * A)) : list (bytes * A) :=
  match l with
  | [] => [(k, x)]
  | (a, v) :: l =>
      if decide (a = k) then (k, x) :: l
      else if before k a then (k, x) :: (a, v) :: l
      else (a, v) :: assoc_set k x l
  end.

(** [v.get(k)]. *)
Definition get (v : value) (k : string) : option value :=
  match v with Object l => assoc (str k) l | _ => None end.
(** [v[k]]. *)
Definition index (v : value) (k : string) : value := default Null (get v k).
(** [v[k] = x], on an object. *)
Definition set_index (v : value) (k : string) (x : value) : value :=
  match v with Object l => Object (assoc_set (str k) x l) | _ => v end.

(** [json!({ ... })]. *)
Definition object (l : list (string * value)) : value :=
  foldl (λ v x, set_index v x.1 x.2) (Object []) l.

Definition as_str (v : value) : option bytes := match v with String s => Some s | _ => None end.
Definition as_bool (v : value) : option bool := match v with Bool b => Some b | _ => None end.
Definition is_object (v : value) : bool := match v with Object _ => true | _ => false end.
Definition is_array (v : value) : bool := match v with Array _ => true | _ => false end.
(** [v.pointer("/a/b/...")] through objects. *)
Definition pointer (v : value) (l : list string) : option value :=
  foldl (λ v k, v ≫= λ v, get v k) (Some v) l.

Lemma assoc_set_same {A : Type} k (x : A) l : assoc k (assoc_set k x l) = Some x.
Proof.
  induction l as [|[a v] l IH]; simpl; [by rewrite decide_True|].
  case_decide as E; simpl; [by rewrite decide_True|].
  destruct (before k a); simpl; [by rewrite decide_True|by rewrite decide_False].
Qed.

Lemma assoc_set_other {A : Type} k j (x : A) l : j ≠ k → assoc j (assoc_set k x l) = assoc j l.
Proof.
  intros Hne. induction l as [|[a v] l IH]; simpl; [by rewrite decide_False|].
  case_decide as E; simpl; [subst; by rewrite !decide_False by done|].
  destruct (before k a); simpl; [by rewrite (decide_False (P := k = j)) by done|by rewrite IH].
Qed.

Lemma assoc_set_twice {A : Type} k (x y : A) l : assoc_set k x (assoc_set k y l) = assoc_set k x l.
Proof.
  induction l as [|[a v] l IH]; simpl; [by rewrite decide_True|].
  case_decide as E; simpl; [by rewrite decide_True|].
  destruct (before k a) eqn:Eb; simpl; [by rewrite decide_True|].
  rewrite decide_False, Eb by done. by rewrite IH.
Qed.

Lemma index_set_same v k x : is_object v = true → index (set_index v k x) k = x.
Proof. destruct v; [done..|]. intros _. unfold index. simpl. by rewrite assoc_set_same. Qed.

Lemma index_set_other v k j x : j ≠ k → index (set_index v k x) j = index v j.
Proof.
  intros Hne. destruct v; [done..|]. unfold index. simpl.
  rewrite assoc_set_other; [done|]. by intros ?%str_inj.
Qed.

Lemma set_index_twice v k x y : set_index (set_index v k y) k x = set_index v k x.
Proof. destruct v; simpl; try done. by rewrite assoc_set_twice. Qed.

Lemma is_object_set v k x : is_object (set_index v k x) = is_object v.
Proof. by destruct v. Qed.
