(* ===== verification/VmTemplate.v ===== *)
(** * The VM template (src/src/vm_template.rs)

    [render] builds the Lima configuration of a VM from its settings: a JSON
    document whose text is produced by [serde_json] (a parameter here). The shell
    scripts and units of the source are transcribed; those it includes from other
    files are the fields of [included]. In the transcribed texts [^] stands for a
    double quote. *)

From S2P Require Import Prelude Text Paths Config Value.

(** A transcribed text. *)
Definition text (s : string) : bytes :=
  map (λ c, if decide (c = "^"%char) then "034"%char else c) (str s).

Definition IMAGE_URL : bytes := str "https://cloud-images.ubuntu.com/minimal/releases/noble/release-20260905/ubuntu-24.04-minimal-cloudimg-arm64.img".
Definition IMAGE_MIRROR_URL : bytes := str "https://mirrors.nju.edu.cn/ubuntu-cloud-images/minimal/releases/noble/release-20260905/ubuntu-24.04-minimal-cloudimg-arm64.img".
Definition IMAGE_SHA256 : bytes := str "8b6e0e145ae2ce681d959b2b3aabcf724b027cbffff9ec8ba4d7dc789a3e6a98".
Definition DOCKER_VERSION : bytes := str "29.8.0".
Definition DOCKER_URL : bytes := str "https://download.docker.com/linux/static/stable/aarch64/docker-29.8.0.tgz".
Definition DOCKER_SHA256 : bytes := str "1462a696be6029bd478d7d60d7f3c31cdd15affd1178a4a278aaf4a1d1b7f8b5".
Definition UBUNTU_SNAPSHOT : bytes := str "20260906T000000Z".
Definition FIRECRACKER_VERSION : bytes := str "1.16.1".
Definition FIRECRACKER_URL : bytes := str "https://github.com/firecracker-microvm/firecracker/releases/download/v1.16.1/firecracker-v1.16.1-aarch64.tgz".
Definition FIRECRACKER_SHA256 : bytes := str "8d0e69f6d6f9a1724551f607f18504052c16c1828ee3d4d7b6e6c73380871e0e".
Definition SYSTEMD_LOGIND_COMPAT : bytes := text "#!/bin/sh
set -eu
dropin=/etc/systemd/system/systemd-logind.service.d/50-luhmen-session-tracking.conf
if [ ^$(dpkg-query -W -f='${Version}' systemd)^ = ^255.4-1ubuntu8.17^ ]; then
    install -d -m 0755 ^${dropin%/*}^
    cat > ^$dropin^ <<'SERVICE'
[Service]
SystemCallFilter=~pidfd_open
SERVICE
elif [ -f ^$dropin^ ]; then
    rm -f ^$dropin^
else
    exit 0
fi
systemctl daemon-reload
systemctl try-restart systemd-logind.service
".
Definition DEPENDENCIES : bytes := str "#!/bin/sh
set -eu
export DEBIAN_FRONTEND=noninteractive
# Pin the source URL itself: snapshot autodetection needs an existing Release
# index, which this minimal image does not contain on its first boot.
cat > /etc/apt/sources.list.d/ubuntu.sources <<'SOURCES'
Types: deb
URIs: https://snapshot.ubuntu.com/ubuntu/@SNAPSHOT@
Suites: noble noble-updates noble-security
Components: main universe
Architectures: arm64
Signed-By: /usr/share/keyrings/ubuntu-archive-keyring.gpg
Snapshot: no
SOURCES
rm -f /etc/apt/apt.conf.d/50-luhmen-snapshot
if ! command -v iptables >/dev/null 2>&1 || ! command -v nft >/dev/null 2>&1 || ! command -v rsync >/dev/null 2>&1 || ! command -v flock >/dev/null 2>&1@MICROVM_CHECK@; then
    apt-get update -o APT::Update::Error-Mode=any
    apt-get install -y --no-install-recommends iptables nftables rsync curl ca-certificates util-linux@MICROVM_PACKAGES@
fi
".
Definition INSTALL_FIRECRACKER : bytes := text "#!/bin/sh
set -eu
install_root=/opt/luhmen/firecracker/@VERSION@
install -d -m 0755 /opt/luhmen/firecracker
if [ ! -f ^$install_root/.complete^ ]; then
    if [ -e ^$install_root^ ]; then
        echo ^Incomplete Firecracker installation at $install_root; inspect this directory before retrying^ >&2
        exit 1
    fi
    stage=$(mktemp -d /opt/luhmen/firecracker/.install.XXXXXX)
    trap 'rm -rf ^$stage^' EXIT HUP INT TERM
    curl --fail --location --silent --show-error --proto '=https' --tlsv1.2 --connect-timeout 20 --max-time 600 --retry 3 '@URL@' -o ^$stage/firecracker.tgz^
    printf '%s  %s\n' '@SHA256@' ^$stage/firecracker.tgz^ | sha256sum --check --status
    tar -xzf ^$stage/firecracker.tgz^ -C ^$stage^
    release=^$stage/release-v@VERSION@-aarch64^
    test -x ^$release/firecracker-v@VERSION@-aarch64^
    test -x ^$release/jailer-v@VERSION@-aarch64^
    install -d -m 0755 ^$stage/firecracker^
    install -m 0755 ^$release/firecracker-v@VERSION@-aarch64^ ^$stage/firecracker/firecracker^
    install -m 0755 ^$release/jailer-v@VERSION@-aarch64^ ^$stage/firecracker/jailer^
    for notice in LICENSE NOTICE THIRD-PARTY; do
        install -m 0644 ^$release/$notice^ ^$stage/firecracker/$notice^
    done
    printf '%s\n' '@SHA256@' > ^$stage/firecracker/.complete^
    mv ^$stage/firecracker^ ^$install_root^
    rm -rf ^$stage^
    trap - EXIT HUP INT TERM
fi
ln -sfn ^$install_root/firecracker^ /usr/local/bin/firecracker
ln -sfn ^$install_root/jailer^ /usr/local/bin/jailer
systemctl daemon-reload
systemctl enable --now luhmen-microvmd.service
".
Definition MICROVMD_SERVICE : bytes := str "[Unit]
Description=luhmen Firecracker microVM manager
After=local-fs.target
ConditionPathExists=/usr/local/bin/firecracker
ConditionPathExists=/usr/local/bin/jailer
ConditionPathExists=/usr/bin/socat

[Service]
Type=simple
User=root
Group=root
RuntimeDirectory=luhmen
StateDirectory=luhmen
ExecStart=/usr/local/libexec/luhmen-microvmd-service
Restart=on-failure
RestartSec=2s
Delegate=yes
UMask=0077

[Install]
WantedBy=multi-user.target
".
Definition DOCKER_SOCKET : bytes := str "[Unit]
Description=Docker Engine API socket

[Socket]
ListenStream=/var/run/docker.sock
SocketMode=0600
SocketUser={{.User}}
RemoveOnStop=true
ExecStartPre=/usr/local/libexec/luhmen-docker-config-signature prepare socket
ExecStartPost=/usr/local/libexec/luhmen-docker-config-signature commit socket
ExecStopPost=/usr/local/libexec/luhmen-docker-config-signature clear socket

[Install]
WantedBy=sockets.target
".
Definition DOCKER_SERVICE : bytes := str "[Unit]
Description=Docker Engine
Requires=docker.socket
After=network-online.target docker.socket
Wants=network-online.target

[Service]
Type=notify
Environment=PATH=/usr/local/bin:/usr/local/sbin:/usr/sbin:/usr/bin:/sbin:/bin
EnvironmentFile=-/etc/environment
ExecStartPre=/usr/local/libexec/luhmen-docker-config-signature prepare service
ExecStart=/usr/local/bin/dockerd --host=fd:// --config-file=/etc/docker/daemon.json
ExecStartPost=/usr/local/libexec/luhmen-docker-config-signature commit service
ExecStopPost=/usr/local/libexec/luhmen-docker-config-signature clear service
ExecReload=/bin/kill -s HUP $MAINPID
Restart=on-failure
RestartSec=2s
TimeoutStartSec=120s
TimeoutStopSec=120s
LimitNOFILE=infinity
TasksMax=infinity
Delegate=yes
KillMode=process
OOMScoreAdjust=-500

[Install]
WantedBy=multi-user.target
".
Definition INSTALL_DOCKER : bytes := text "#!/bin/sh
set -eu
shutdown_binary=/usr/local/libexec/luhmen-docker-shutdown
shutdown_encoded=^$shutdown_binary.b64^
shutdown_stage=$(mktemp /usr/local/libexec/.luhmen-docker-shutdown.XXXXXX)
trap 'rm -f ^$shutdown_stage^' EXIT HUP INT TERM
base64 --decode ^$shutdown_encoded^ > ^$shutdown_stage^
chmod 0755 ^$shutdown_stage^
mv ^$shutdown_stage^ ^$shutdown_binary^
trap - EXIT HUP INT TERM
install_root=/opt/luhmen/docker/@VERSION@
install -d -m 0755 /opt/luhmen/docker
for abandoned in /opt/luhmen/docker/.install.*; do
    if [ -d ^$abandoned^ ]; then
        rm -rf ^$abandoned^
    fi
done
if [ ! -f ^$install_root/.complete^ ]; then
    if [ -e ^$install_root^ ]; then
        echo ^Incomplete Docker installation at $install_root; inspect this directory before retrying^ >&2
        exit 1
    fi
    stage=$(mktemp -d /opt/luhmen/docker/.install.XXXXXX)
    trap 'rm -rf ^$stage^' EXIT HUP INT TERM
    curl --fail --location --silent --show-error --proto '=https' --tlsv1.2 --connect-timeout 20 --max-time 600 --retry 3 '@URL@' -o ^$stage/docker.tgz^
    printf '%s  %s\n' '@SHA256@' ^$stage/docker.tgz^ | sha256sum --check --status
    tar -xzf ^$stage/docker.tgz^ -C ^$stage^
    for binary in docker dockerd containerd containerd-shim-runc-v2 ctr runc docker-init docker-proxy; do
        test -x ^$stage/docker/$binary^
    done
    printf '%s\n' '@SHA256@' > ^$stage/docker/.complete^
    mv ^$stage/docker^ ^$install_root^
    rm -rf ^$stage^
    trap - EXIT HUP INT TERM
fi
for binary in docker dockerd containerd containerd-shim-runc-v2 ctr runc docker-init docker-proxy; do
    ln -sfn ^$install_root/$binary^ ^/usr/local/bin/$binary^
done
systemctl daemon-reload
systemctl enable docker.socket docker.service
# The unit hooks record what this service instance actually loaded, including
# on a warm boot before Lima rewrites its data files.
helper=/usr/local/libexec/luhmen-docker-config-signature
socket_signature=$(^$helper^ signature socket)
service_signature=$(^$helper^ signature service)
if [ ^$(cat /run/luhmen-docker/socket.active 2>/dev/null || true)^ != ^$socket_signature^ ]; then
    dockerd --validate --config-file=/etc/docker/daemon.json
    # Stop both in one transaction: Docker closes its inherited descriptor
    # before systemd replaces the listener, and traffic cannot reactivate it.
    systemctl stop docker.service docker.socket
    systemctl start docker.socket docker.service
elif [ ^$(cat /run/luhmen-docker/service.active 2>/dev/null || true)^ != ^$service_signature^ ]; then
    dockerd --validate --config-file=/etc/docker/daemon.json
    systemctl restart docker.service
else
    systemctl start docker.socket docker.service
fi
".

(** The files the source includes: the microVM manager and its launcher, Docker's configuration
    signature, and the encoded shutdown helper. *)
Record included := {
  MICROVMD_LAUNCHER : bytes;
  MICROVM_HELPER : bytes;
  DOCKER_CONFIG_SIGNATURE : bytes;
  DOCKER_SHUTDOWN_BASE64 : bytes
}.

(** [str::replace]: every occurrence, from the left; [skip] counts the bytes left of one. *)
Fixpoint replace_go (pattern new : bytes) (skip : nat) (s : bytes) : bytes :=
  match s with
  | [] => []
  | c :: rest =>
      match skip with
      | S skip => replace_go pattern new skip rest
      | O => if starts_with pattern s then new ++ replace_go pattern new (length pattern - 1) rest
             else c :: replace_go pattern new 0 rest
      end
  end.
Definition replace (pattern : string) (new s : bytes) : bytes := replace_go (str pattern) new 0 s.

(** ** The document *)

(** [json!] of a text and of a number. *)
Definition literal (s : string) : value := String (text s).
Definition number (n : Z) : value := Number (decimal (Z.to_N n)).

Definition mount_value (m : Mount) : result value :=
  _ ← ensure (utf8_valid (mount_path m)) "mount path must be UTF-8";
  Ok (object [("location", String (mount_path m)); ("mountPoint", String (mount_path m));
              ("writable", Bool (writable m))]).

Fixpoint mount_values (l : list Mount) : result (list value) :=
  match l with
  | [] => Ok []
  | m :: l => v ← mount_value m; vs ← mount_values l; Ok (v :: vs)
  end.

Section render.
Context (I : included).

Definition dependencies (nested : bool) : bytes :=
  replace "@MICROVM_PACKAGES@" (if nested then str " socat" else [])
    (replace "@MICROVM_CHECK@" (if nested then str " || ! command -v socat >/dev/null 2>&1" else [])
      (replace "@SNAPSHOT@" UBUNTU_SNAPSHOT DEPENDENCIES)).
Definition install : bytes :=
  replace "@SHA256@" DOCKER_SHA256 (replace "@URL@" DOCKER_URL
    (replace "@VERSION@" DOCKER_VERSION INSTALL_DOCKER)).
Definition install_firecracker : bytes :=
  replace "@SHA256@" FIRECRACKER_SHA256 (replace "@URL@" FIRECRACKER_URL
    (replace "@VERSION@" FIRECRACKER_VERSION INSTALL_FIRECRACKER)).

Definition data_file (p : string) (content : bytes) (mode : string) : value :=
  object [("mode", literal "data"); ("path", literal p); ("content", String content);
          ("owner", literal "root:root"); ("permissions", literal mode)].
Definition script (content : bytes) : value :=
  object [("mode", literal "system"); ("script", String content)].

Definition daemon_json : bytes :=
  text "{^data-root^:^/var/lib/docker^,^log-driver^:^local^,^live-restore^:true,^features^:{^containerd-snapshotter^:true}}
".

Definition port_forwards (nested : bool) : list value :=
  [ object [("guestSocket", literal "/var/run/docker.sock");
            ("hostSocket", literal "{{.Dir}}/sock/docker.sock")];
    object [("guestIP", literal "127.0.0.1"); ("guestPortRange", Array [number 1; number 65535]);
            ("hostIP", literal "127.0.0.1"); ("hostPortRange", Array [number 1; number 65535]);
            ("proto", literal "any")] ] ++
  if nested then
    [ object [("guestSocket", literal "/run/luhmen/microvmd.sock");
              ("hostSocket", literal "{{.Dir}}/sock/microvmd.sock")] ]
  else [].

Definition provision (nested : bool) : list value :=
  [ object [("mode", literal "boot"); ("script", String SYSTEMD_LOGIND_COMPAT)];
    object [("mode", literal "dependency"); ("skipDefaultDependencyResolution", Bool false);
            ("script", String (dependencies nested))];
    data_file "/etc/docker/daemon.json" daemon_json "0600";
    data_file "/usr/local/libexec/luhmen-docker-config-signature" (DOCKER_CONFIG_SIGNATURE I) "0755";
    data_file "/usr/local/libexec/luhmen-docker-shutdown.b64" (DOCKER_SHUTDOWN_BASE64 I) "0600";
    data_file "/etc/systemd/system/docker.socket" DOCKER_SOCKET "0644";
    data_file "/etc/systemd/system/docker.service" DOCKER_SERVICE "0644";
    script install ] ++
  if nested then
    [ data_file "/usr/local/libexec/luhmen-microvmd" (MICROVM_HELPER I) "0755";
      data_file "/usr/local/libexec/luhmen-microvmd-service" (MICROVMD_LAUNCHER I) "0755";
      data_file "/etc/systemd/system/luhmen-microvmd.service" MICROVMD_SERVICE "0644";
      script install_firecracker ]
  else [].

Definition probe : bytes :=
  text "#!/bin/sh
set -eu
response=$(curl --fail --silent --show-error --max-time 5 --unix-socket /var/run/docker.sock http://localhost/_ping)
test ^$response^ = OK
".

Definition image (url : bytes) : value :=
  object [("location", String url); ("arch", literal "aarch64");
          ("digest", String (str "sha256:" ++ IMAGE_SHA256))].
Definition gib (n : Z) : value := String (decimal (Z.to_N n) ++ str "GiB").
Definition off (keys : list string) : value := object (map (λ k, (k, Bool false)) keys).

(** The document [render] serializes. *)
Definition document (c : Config) (mounts : list value) : value :=
  object
    [ ("minimumLimaVersion", String (str LIMA_VERSION));
      ("vmType", literal "vz"); ("arch", literal "aarch64"); ("os", literal "Linux");
      ("nestedVirtualization", Bool (nested_virtualization c));
      ("images", Array [image IMAGE_URL; image IMAGE_MIRROR_URL]);
      ("cpus", number (cpus c)); ("memory", gib (memory_gib c)); ("disk", gib (disk_gib c));
      ("mountType", literal "virtiofs"); ("mountInotify", Bool true); ("mounts", Array mounts);
      ("containerd", off ["system"; "user"]); ("upgradePackages", Bool false);
      ("ssh", off ["loadDotSSHPubKeys"; "forwardAgent"; "overVsock"]);
      ("vmOpts", object [("vz", object [("rosetta", off ["enabled"; "binfmt"])])]);
      ("hostResolver", object [("enabled", Bool true); ("ipv6", Bool false);
         ("hosts", object [("host.docker.internal", literal "host.lima.internal");
                           ("gateway.docker.internal", literal "host.lima.internal")])]);
      ("propagateProxyEnv", Bool true);
      ("portForwards", Array (port_forwards (nested_virtualization c)));
      ("provision", Array (provision (nested_virtualization c)));
      ("probes", Array [object [("mode", literal "readiness");
         ("description", literal "Docker Engine API is ready"); ("script", String probe);
         ("hint", literal "Inspect guest service logs with: luhmen shell sudo journalctl -u docker.service --no-pager")]]) ].

Definition template (c : Config) : result value :=
  mounts ← mount_values (mounts c); Ok (document c mounts).

(** [render], with [serde_json::to_string_pretty]. *)
Definition render (to_string_pretty : value → result bytes) (c : Config) : result bytes :=
  v ← template c; with_context "serialize VM configuration" (to_string_pretty v).

End render.

(** ** Properties *)

(** The fields of the document that come from the settings. *)
Lemma document_fields I c ms :
  index (document I c ms) "cpus" = number (cpus c) ∧
  index (document I c ms) "memory" = gib (memory_gib c) ∧
  index (document I c ms) "disk" = gib (disk_gib c) ∧
  index (document I c ms) "mounts" = Array ms ∧
  index (document I c ms) "nestedVirtualization" = Bool (nested_virtualization c) ∧
  index (document I c ms) "provision" = Array (provision I (nested_virtualization c)).
Proof. split_and!; reflexivity. Qed.

#[local] Opaque document.

Lemma mount_values_inj l k vs : mount_values l = Ok vs → mount_values k = Ok vs → l = k.
Proof.
  revert k vs. induction l as [|m l IH]; intros [|m' k] vs Hl Hk; simpl in Hl, Hk; try done.
  - result_inv. congruence.
  - result_inv. congruence.
  - apply bind_Ok in Hl as (v & Hv & Hl), Hk as (v' & Hv' & Hk).
    apply bind_Ok in Hl as (ws & Hws & [= <-]), Hk as (ws' & Hws' & [= -> ->]).
    f_equal; [|by eapply IH].
    apply ensure_bind_Ok in Hv as [_ [= <-]], Hv' as [_ [= Hp Hw]].
    destruct m as [p w], m' as [p' w']. simpl in *. vm_compute in Hp. vm_compute in Hw. congruence.
Qed.

(** The template determines the settings: two valid settings whose templates agree on the
    processors, memory, disk, mounts and nested virtualization are equal. These are the fields
    [Runtime.update] compares before it touches a template. *)
Theorem template_settings I c1 c2 d1 d2 :
  validate_schema c1 = Ok () → validate_schema c2 = Ok () →
  template I c1 = Ok d1 → template I c2 = Ok d2 →
  Forall (λ f, index d1 f = index d2 f) ["cpus"; "memory"; "disk"; "mounts"; "nestedVirtualization"] →
  c1 = c2.
Proof.
  intros V1 V2 T1 T2 Hf. unfold template in T1, T2.
  apply bind_Ok in T1 as (m1 & M1 & [= <-]), T2 as (m2 & M2 & [= <-]).
  destruct (document_fields I c1 m1) as (A1 & B1 & C1 & D1 & E1 & _).
  destruct (document_fields I c2 m2) as (A2 & B2 & C2 & D2 & E2 & _).
  assert (∀ c, validate_schema c = Ok () → schema_version c = 1%Z ∧ (0 <= cpus c)%Z ∧
    (0 <= memory_gib c)%Z ∧ (0 <= disk_gib c)%Z) as Hs.
  { intros c H. unfold validate_schema in H. rewrite !ensure_bind_Ok, !andb_true_iff, !Z.leb_le in H.
    destruct H as (Hv%bool_decide_eq_true & ? & ? & ? & _). lia. }
  apply Hs in V1, V2.
  rewrite !Forall_cons in Hf. destruct Hf as (H1 & H2 & H3 & H4 & H5 & _).
  rewrite A1, A2 in H1. rewrite B1, B2 in H2. rewrite C1, C2 in H3. rewrite D1, D2 in H4.
  rewrite E1, E2 in H5.
  assert (∀ a b, (0 <= a)%Z → (0 <= b)%Z → decimal (Z.to_N a) = decimal (Z.to_N b) → a = b) as Hd.
  { intros a b Ha Hb ?%decimal_inj. lia. }
  injection H1 as H1. injection H2 as H2. injection H3 as H3. injection H4 as ->. injection H5 as H5.
  apply app_inv_tail in H2, H3. apply Hd in H1, H2, H3; try lia.
  pose proof (mount_values_inj _ _ _ M1 M2). destruct c1, c2. simpl in *. f_equal; try congruence; lia.
Qed.

(** No placeholder is left in the scripts of a template, with or without nested
    virtualization. *)
Theorem scripts_filled nested :
  forallb (λ s, negb (existsb (λ p, contains (str p) s)
                  ["@VERSION@"; "@URL@"; "@SHA256@"; "@SNAPSHOT@"; "@MICROVM_CHECK@"; "@MICROVM_PACKAGES@"]))
    [dependencies nested; install; install_firecracker; SYSTEMD_LOGIND_COMPAT; MICROVMD_SERVICE;
     DOCKER_SOCKET; DOCKER_SERVICE] = true.
Proof. destruct nested; vm_compute; reflexivity. Qed.

Definition small_vm : Config := {|
  schema_version := 1; cpus := 2; memory_gib := 4; disk_gib := 20;
  mounts := [{| mount_path := str "/src"; writable := true |}]; nested_virtualization := false |}.

Definition no_files : included :=
  {| MICROVMD_LAUNCHER := []; MICROVM_HELPER := []; DOCKER_CONFIG_SIGNATURE := [];
     DOCKER_SHUTDOWN_BASE64 := [] |}.

Lemma template_settings_witness :
  ∃ d, template no_files small_vm = Ok d ∧
    ∀ c, validate_schema c = Ok () → template no_files c = Ok d → c = small_vm.
Proof.
  destruct (template no_files small_vm) as [d|e] eqn:Hd; [|discriminate Hd].
  exists d. split; [reflexivity|]. intros c Hv Hc.
  apply (template_settings no_files c small_vm d d); [exact Hv|vm_compute; reflexivity|exact Hc|exact Hd|].
  repeat constructor.
Defined.
