(* ===== verification/Startup.v ===== *)
(** * Startup diagnostics (src/src/startup.rs)

    [Trace] records the stages of a start and saves the record after each change.
    A failing save must not change what the start does. The clock gives
    milliseconds at every tick; [serde_json] is a parameter. *)

From S2P Require Import Prelude Text Fs Paths Config ConfigSpec.

Inductive Outcome := Running | Complete | Failed | Skipped.
#[export] Instance Outcome_eq_dec : EqDecision Outcome.
Proof. solve_decision. Defined.

Record Stage := { stage_name : string; stage_outcome : Outcome; stage_elapsed_ms : Z }.

Record Report := {
  schema : Z;
  operation : string;
  started_unix_ms : Z;
  outcome_ : Outcome;
  elapsed_ms : Z;
  stages : list Stage
}.

Record Trace := { trace_path : path; started : Z; report : Report }.

Section startup.
Context (E : environment) (P : process).
(** The monotonic clock and the time since 1970, in milliseconds; [serde_json::to_vec_pretty] and
    [serde_json::from_slice] of a report. *)
Context (clock unix_ms : nat → Z) (encode : Report → result bytes) (decode : bytes → result Report).

Definition observe {A : Type} (o : nat → A) : M A := λ w, (Ret (o (tick w)), w).

(** [as_millis().try_into().unwrap_or(u64::MAX)]. *)
Definition saturate (n : Z) : Z := if (n <=? u64_max)%Z then n else u64_max.
Definition millis (since : Z) : M Z := observe (λ t, saturate (clock t - since)).

Definition checkpoint (t : Trace) : M unit :=
  saved ← attempt (data ← lift (encode (report t)); atomic_write E P (trace_path t) data);
  mret ().

Definition with_report (t : Trace) (r : Report) : Trace :=
  {| trace_path := trace_path t; started := started t; report := r |}.

(** [self.report.stages.push(...)]. *)
Definition push (name : string) (o : Outcome) (t : Trace) : Trace :=
  let r := report t in
  with_report t
    {| schema := schema r; operation := operation r; started_unix_ms := started_unix_ms r;
       outcome_ := outcome_ r; elapsed_ms := elapsed_ms r;
       stages := stages r ++ [{| stage_name := name; stage_outcome := o; stage_elapsed_ms := 0 |}] |}.

Definition new (state : path) (name : string) : M Trace :=
  begin ← observe clock;
  unix ← observe unix_ms;
  let t := {| trace_path := path_join state (str "last-start.json"); started := begin;
              report := {| schema := 1; operation := name; started_unix_ms := saturate unix;
                           outcome_ := Running; elapsed_ms := 0; stages := [] |} |} in
  _ ← checkpoint t; mret t.

(** [stages.last_mut()] updated. *)
Fixpoint update_last (f : Stage → Stage) (l : list Stage) : list Stage :=
  match l with
  | [] => []
  | [s] => [f s]
  | s :: l => s :: update_last f l
  end.

(** [stage]: the trace afterwards, and the result of the operation. *)
Definition stage {A : Type} (t : Trace) (name : string) (op : M A) : M (Trace * result A) :=
  let t := push name Running t in
  _ ← checkpoint t;
  begin ← observe clock;
  r ← attempt op;
  spent ← millis begin;
  all ← millis (started t);
  let rep := report t in
  let t := with_report t
    {| schema := schema rep; operation := operation rep; started_unix_ms := started_unix_ms rep;
       outcome_ := if is_ok r then outcome_ rep else Failed;
       elapsed_ms := all;
       stages := update_last (λ s, {| stage_name := stage_name s;
                                      stage_outcome := if is_ok r then Complete else Failed;
                                      stage_elapsed_ms := spent |}) (stages rep) |} in
  _ ← checkpoint t;
  mret (t, r).

Definition skip (t : Trace) (name : string) : M Trace :=
  let t := push name Skipped t in
  _ ← checkpoint t; mret t.

Definition complete (t : Trace) : M Trace :=
  all ← millis (started t);
  let r := report t in
  let t := with_report t
    {| schema := schema r; operation := operation r; started_unix_ms := started_unix_ms r;
       outcome_ := Complete; elapsed_ms := all; stages := stages r |} in
  _ ← checkpoint t; mret t.

Definition read (state : path) : M (option Report) :=
  let p := path_join state (str "last-start.json") in
  found ← lookup_node E p;
  match found with
  | None => mret None
  | Some (File _ _) =>
      data ← query E (λ s, ok_or (data_at s p) "cannot read startup diagnostics");
      _ ← guard (len (take (Z.to_nat 65537) data) <=? 65536)%Z "startup diagnostics exceed 64 KiB";
      r ← lift (with_context "invalid startup diagnostics" (decode (take (Z.to_nat 65537) data)));
      _ ← guard (bool_decide (schema r = 1%Z)) "unsupported startup diagnostics schema";
      mret (Some r)
  | Some _ => throw "startup diagnostics must be a regular file"
  end.

End startup.

(** ** Properties *)

(** A record in progress, or complete: no stage has failed or is open. *)
Definition finished (s : Stage) : Prop := stage_outcome s = Complete ∨ stage_outcome s = Skipped.
Definition in_progress (r : Report) : Prop := outcome_ r = Running ∧ Forall finished (stages r).
(** A record of a start that failed at its last stage. *)
Definition failed_last (r : Report) : Prop :=
  outcome_ r = Failed ∧ ∃ l s, stages r = l ++ [s] ∧ stage_outcome s = Failed ∧ Forall finished l.

Section properties.
Context (E : environment) (P : process).
Context (clock unix_ms : nat → Z) (encode : Report → result bytes) (decode : bytes → result Report).

Abbreviation stage_ := (stage E P clock encode).

Lemma update_last_app f l s : update_last f (l ++ [s]) = l ++ [f s].
Proof.
  induction l as [|x l IH]; [done|]. simpl. rewrite IH. by destruct l.
Qed.

Lemma checkpoint_Ret t w : ∃ o w', checkpoint E P encode t w = (o, w') ∧ (o = Ret () ∨ o = Halt).
Proof.
  unfold checkpoint. set (m := lift _ ≫= _). unfold mbind, M_bind, attempt.
  destruct (m w) as [[] w']; eauto 10.
Qed.

(** A stage has the result of its operation: a failing save of the diagnostics changes
    nothing, so it cannot come between stopping and starting the VM. The record then shows
    the stage as complete, or the start as failed at this stage. *)
Theorem stage_transparent {A : Type} t name (op : M A) w :
  match stage_ t name op w with
  | (Ret (t', r), w') =>
      (∃ w1 w2, attempt op w1 = (Ret r, w2)) ∧
      (in_progress (report t) → if is_ok r then in_progress (report t') else failed_last (report t'))
  | (Throw _, _) => False
  | (Halt, _) => True
  end.
Proof.
  unfold stage, millis. unfold observe, mbind, M_bind.
  set (t1 := push name Running t).
  destruct (checkpoint_Ret t1 w) as (o & w1 & -> & [-> | ->]); [|done].
  destruct (attempt op w1) as [[r|e|] w2] eqn:Er;
    [|by unfold attempt in Er; destruct (op w1) as [[] ?]|done].
  cbv beta iota zeta.
  match goal with |- context [checkpoint _ _ _ ?x w2] => set (t2 := x) end.
  destruct (checkpoint_Ret t2 w2) as (o & w3 & -> & [-> | ->]); [|done].
  split; [eauto|]. intros [Ho Hf]. unfold t2. simpl. rewrite update_last_app.
  destruct (is_ok r) eqn:Eok; simpl.
  - split; [done|]. apply Forall_app. split; [done|]. constructor; [by left|constructor].
  - split; [done|]. by eexists _, _.
Qed.

(** What a start saves can be read back: without faults, [read] after [checkpoint] returns
    the report. *)
Theorem checkpoint_read state t s data :
  calm E → (∀ r d, encode r = Ok d → decode d = Ok r) →
  trace_path t = path_join state (str "last-start.json") →
  parent_of (trace_path t) = Some state → schema (report t) = 1%Z →
  encode (report t) = Ok data → (len data <= 65536)%Z →
  s !! temporary_of P (trace_path t) = None → temporary_of P (trace_path t) ≠ trace_path t →
  in_directory s (temporary_of P (trace_path t)) = true → in_directory s (trace_path t) = true →
  (∀ m, s !! trace_path t ≠ Some (Directory m)) →
  returns s (_ ← checkpoint E P encode t; read E decode state) (Some (report t))
    (<[trace_path t := private P data]> s).
Proof.
  intros Hcalm Hrt Hpath Hdir Hschema Henc Hlen Hfree Hne Hin Hin' Hfile.
  eapply returns_bind.
  { unfold checkpoint. eapply returns_bind with (a := Ok ()); [|apply returns_ret].
    apply returns_attempt. eapply returns_bind; [by apply returns_lift|].
    by eapply atomic_write_returns. }
  unfold read. rewrite <-Hpath.
  assert (take (Z.to_nat 65537) data = data) as Htake
    by (apply take_ge; unfold len in Hlen; lia).
  eapply returns_bind; [unfold lookup_node; by apply returns_query|].
  rewrite lookup_insert_eq. simpl.
  eapply returns_bind; [apply returns_query; [done|]; unfold data_at; by rewrite lookup_insert_eq|].
  rewrite Htake.
  eapply returns_bind; [by apply returns_guard, Z.leb_le|].
  eapply returns_bind; [apply returns_lift; by rewrite (Hrt _ _ Henc)|].
  eapply returns_bind; [by apply returns_guard, bool_decide_eq_true_2|]. apply returns_ret.
Qed.
End properties.

(** ** A concrete record *)

#[local] Instance Stage_eq_dec : EqDecision Stage.
Proof. solve_decision. Defined.
#[local] Instance Report_eq_dec : EqDecision Report.
Proof. solve_decision. Defined.

Definition sample_report : Report :=
  {| schema := 1; operation := "start"; started_unix_ms := 0; outcome_ := Running; elapsed_ms := 0;
     stages := [] |}.
Definition sample_trace : Trace :=
  {| trace_path := str "/s/last-start.json"; started := 0; report := sample_report |}.
(** A codec that knows one report. *)
Definition sample_encode (r : Report) : result bytes :=
  if decide (r = sample_report) then Ok (str "{}") else Err "unknown report".
Definition sample_decode (d : bytes) : result Report := Ok sample_report.

Lemma checkpoint_read_witness :
  returns roots (_ ← checkpoint quiet_environment sample_process sample_encode sample_trace;
             read quiet_environment sample_decode (str "/s"))
    (Some sample_report)
    (<[trace_path sample_trace := private sample_process (str "{}")]> roots).
Proof.
  apply (checkpoint_read quiet_environment sample_process sample_encode sample_decode
    (str "/s") sample_trace roots (str "{}")).
  - intros i. split; reflexivity.
  - intros r d. unfold sample_encode. case_decide; [subst; reflexivity|discriminate].
  - reflexivity.
  - reflexivity.
  - reflexivity.
  - reflexivity.
  - vm_compute. discriminate.
  - reflexivity.
  - vm_compute. discriminate.
  - reflexivity.
  - reflexivity.
  - intros m. vm_compute. discriminate.
Defined.
