(* ===== verification/Runtime.v ===== *)
(** * The VM's life cycle (src/src/runtime.rs)

    [create], [update], [start], [stop], [restart], [inspect] and [doctor] run commands
    (Lima, Docker, the host's tools) and edit files under the state directory. A
    [machine] is the environment they run in: what commands print, what the host
    reports and how long Docker takes are oracles of the tick. Commands change
    files only through the environment's [interfere]; the commands started are
    recorded in the world. [serde_json] and [fs2] are parameters. *)

From S2P Require Import Prelude Text Fs Paths Config Value VmTemplate.
From S2P Require Startup Storage.

Definition CONTEXT_DESCRIPTION : bytes := str "luhmen managed Docker Engine (schema 1)".

Record Command := {
  program : bytes;
  arguments : list bytes;
  set_env : list (bytes * bytes);
  unset_env : list bytes
}.

(** What [wait_for_engine] sees: a ping and its answer, or the cancellation. The list ends when
    the 120 seconds are over. *)
Inductive engine_event := Pinged (answered : bool) | CancelRequested.

Record codec := {
  parse_config : bytes → result Config;
  print_config : Config → result bytes;
  parse_value : bytes → result value;
  print_value : value → result bytes;
  (** The entries of a stream of values, and the array [docker context inspect] prints. *)
  parse_stream : bytes → list (result value);
  parse_values : bytes → result (list value);
  print_report : Startup.Report → result bytes;
  parse_report : bytes → result Startup.Report
}.

Record machine := Machine {
  os :> environment;
  me : process;
  state : path;
  host_paths : host;
  texts : included;
  serde : codec;
  (** [LUHMEN_LIMACTL] and [LUHMEN_DOCKER]. *)
  limactl : option bytes;
  docker : option bytes;
  (** Whether this build is for macOS on Apple silicon. *)
  supported : bool;
  (** [runner.run(command, ...)?.success(...)]: the output of a successful command. *)
  answer : nat → Command → result bytes;
  parallelism : nat → result Z;
  available : nat → path → result Z;
  ping : nat → result unit;
  engine_events : nat → list engine_event;
  clock : nat → Z;
  unix_ms : nat → Z;
  (** The random part of a temporary name. *)
  fresh : nat → bytes
}.

Record Inspection := {
  vm_state : bytes;
  engine_ready : bool;
  context_ready_ : bool;
  config_ : option Config;
  vm_ : option value;
  inspect_errors : list string;
  last_start : option Startup.Report
}.

Section runtime.
Context (R : machine).

Definition observe {A : Type} (o : nat → result A) : M A := λ w, query R (λ _, o (tick w)) w.

Definition under (p : string) : path := path_join (state R) (str p).

(** ** Commands *)

Definition command_of (p : bytes) (args : list bytes) (env : list (bytes * bytes))
    (unset : list bytes) : Command :=
  {| program := p; arguments := args; set_env := env; unset_env := unset |}.

Definition socket : path := under "lima/luhmen/sock/docker.sock".
Definition microvm_socket : path := under "lima/luhmen/sock/microvmd.sock".
Definition endpoint : bytes := str "unix://" ++ socket.

Definition lima (args : list bytes) : Command :=
  command_of (default (str "limactl") (limactl R)) args
    [(str "LIMA_HOME", under "lima"); (str "LIMA_SSH_PORT_FORWARDER", str "false")]
    [str "LIMA_INSTANCE"].
Definition docker_variables : list bytes :=
  map str ["DOCKER_HOST"; "DOCKER_CONTEXT"; "DOCKER_TLS_VERIFY"; "DOCKER_CERT_PATH";
           "BUILDX_BUILDER"; "BUILDKIT_HOST"].
Definition docker_command (args : list bytes) : Command :=
  command_of (default (str "docker") (docker R)) args [] docker_variables.
Definition docker_workload_command (args : list bytes) : Command :=
  let c := docker_command args in
  command_of (program c) (arguments c)
    [(str "BUILDX_CONFIG", under "buildx"); (str "BUILDX_BUILDER", str NAME)] (unset_env c).

(** The command is recorded, then runs. *)
Definition starting (c : Command) : M unit :=
  λ w, (Ret (), World (tick w) (fs w) (ran w ++ [program c :: arguments c])).
Definition success (c : Command) : M bytes :=
  _ ← starting c; observe (λ t, answer R t c).
Definition tool (p : string) (args : list string) : M bytes :=
  success (command_of (str p) (map str args) [] []).

(** ** Checks *)

Definition check_directory (p : path) : M unit :=
  found ← lookup_node R p;
  match found with
  | None | Some (Directory _) => mret ()
  | Some _ => throw "refusing an unowned or symlinked runtime directory"
  end.
Definition check_socket (p : path) : M unit :=
  found ← attempt (lookup_node R p);
  match found with
  | Ok (Some (Symlink _)) => throw "socket cannot be a symlink"
  | _ => mret ()
  end.
Definition check_state_paths : M unit :=
  _ ← check_directory (under "buildx");
  _ ← check_directory (under "lima");
  _ ← check_directory (under "lima/luhmen");
  _ ← check_directory (under "lima/luhmen/sock");
  _ ← check_socket socket;
  check_socket microvm_socket.

(** [trim_start_matches('v')]. *)
Fixpoint trim_v (s : bytes) : bytes :=
  match s with c :: r => if decide (c = "v"%char) then trim_v r else s | [] => [] end.
Definition check_lima : M unit :=
  _ ← check_state_paths;
  output ← success (lima [str "--version"]);
  let version := trim_v (default [] (last (split_whitespace output))) in
  guard (bool_decide (version = str LIMA_VERSION)) "luhmen requires Lima 2.2.0".

Definition macos_major : M Z :=
  version ← tool "sw_vers" ["-productVersion"];
  lift (ok_or (head (split "."%char (trim version)) ≫= parse_uint u32_max) "invalid macOS version").
Definition check_host : M unit :=
  _ ← guard (supported R) "VM operations require an Apple Silicon Mac running macOS 14 or later";
  major ← macos_major;
  guard (14 <=? major)%Z "macOS 14 or later is required".

Fixpoint find_map {A B : Type} (f : A → option B) (l : list A) : option B :=
  match l with
  | [] => None
  | x :: l => match f x with Some y => Some y | None => find_map f l end
  end.
Fixpoint take_digits (s : bytes) : bytes :=
  match s with c :: r => if is_ascii_digit c then c :: take_digits r else [] | [] => [] end.
Definition check_nested_host : M unit :=
  major ← macos_major;
  _ ← guard (15 <=? major)%Z "nested Firecracker support requires macOS 15 or later";
  output ← tool "system_profiler" ["SPHardwareDataType"];
  chip ← lift (ok_or (find_map (λ l, strip_prefix (str "Chip: ") (trim l)) (lines output))
                 "could not determine the Apple chip model");
  generation ← lift (ok_or (strip_prefix (str "Apple M") chip ≫= λ v, parse_uint u32_max (take_digits v))
                       "could not determine the Apple chip generation");
  guard (3 <=? generation)%Z "nested Firecracker support requires an Apple M3 or later Mac".

Definition check_resources (c : Config) : M unit :=
  processors ← observe (parallelism R);
  _ ← guard (cpus c <=? processors)%Z "VM CPU count exceeds the host CPU count";
  memory ← tool "sysctl" ["-n"; "hw.memsize"];
  memory ← lift (ok_or (parse_uint u64_max (trim memory)) "invalid digit found in string");
  guard ((memory_gib c + 2) * 1024 * 1024 * 1024 <=? memory)%Z
    "VM memory must leave at least 2 GiB of physical RAM for macOS".

Definition lock : M unit :=
  _ ← call R no_effect (λ s, match s !! under "operation.lock" with
        | None => (Ok (), <[under "operation.lock" := File [] (Meta (user (me R)) (group (me R)) 384)]> s)
        | Some _ => (Ok (), s)
        end);
  query R (λ _, Ok ()).

Definition fs_read (p : path) (message : string) : M bytes :=
  query R (λ s, ok_or (data_at s p) message).

Definition config : M Config :=
  data ← fs_read (under "config.json") "configuration is missing; run `luhmen create`";
  c ← lift (parse_config (serde R) data);
  _ ← lift (validate_schema c);
  mret c.

Definition summary_keys : list string :=
  ["name"; "dir"; "status"; "vmType"; "arch"; "cpus"; "memory"; "disk"; "hostname"; "limaVersion";
   "sshLocalPort"; "hostAgentPID"; "driverPID"; "errors"].
Definition summary (v : value) : value :=
  object (omap (λ k, (λ x, (k, x)) <$> get v k) summary_keys).

Definition vm : M (option value) :=
  present ← exists_ R (under "lima/luhmen");
  if negb present then mret None else
  output ← success (lima [str "list"; str NAME; str "--format=json"]);
  match parse_stream (serde R) output with
  | [] => mret None
  | first :: rest =>
      v ← lift first;
      _ ← guard (bool_decide (rest = [])) "Lima returned more than one instance";
      _ ← guard (bool_decide (get v "name" ≫= as_str = Some (str NAME)))
            "Lima returned an unexpected instance";
      dir ← lift (ok_or (get v "dir" ≫= as_str) "Lima instance has no directory");
      _ ← guard (same_path dir (under "lima/luhmen"))
            "Lima instance directory does not match luhmen state";
      mret (Some (summary v))
  end.
Definition status (v : value) : option bytes := get v "status" ≫= as_str.

Definition shell_command (args : list bytes) : M Command :=
  _ ← check_lima;
  found ← vm;
  v ← lift (ok_or found "luhmen VM does not exist");
  _ ← guard (bool_decide (status v = Some (str "Running"))) "luhmen VM is not running";
  mret (lima ([str "shell"; str NAME; str "--"] ++ args)).

(** ** Docker's context *)

Definition context_exists : M bool :=
  output ← success (docker_command (map str ["context"; "ls"; "--format"; "{{.Name}}"]));
  mret (existsb (λ n, bool_decide (n = str NAME)) (lines output)).

Definition context_ready : M bool :=
  found ← context_exists;
  if negb found then mret false else
  output ← success (docker_command (map str ["context"; "inspect"; NAME]));
  contexts ← lift (parse_values (serde R) output);
  match contexts with
  | [c] =>
      _ ← guard (bool_decide (pointer c ["Endpoints"; "docker"; "Host"] ≫= as_str = Some endpoint)
                 && bool_decide (pointer c ["Metadata"; "Description"] ≫= as_str
                                 = Some CONTEXT_DESCRIPTION))
            "Docker context 'luhmen' already exists and is not owned by this state directory";
      mret true
  | _ => throw "Docker returned an unexpected context count"
  end.

Definition ensure_context : M unit :=
  ready ← context_ready;
  if ready : bool then mret () else
  _ ← success (docker_command
        (map str ["context"; "create"; NAME; "--description"] ++ [CONTEXT_DESCRIPTION; str "--docker";
         str "host=" ++ endpoint]));
  ready ← context_ready;
  guard ready "Docker context was not created".

(** ** Saved templates *)

Definition template_limit : Z := 1048576.

Definition read_vm_template (p : path) : M value :=
  found ← lookup_node R p;
  match found with
  | None => throw "read saved VM template"
  | Some (File _ _) =>
      data ← fs_read p "read saved VM template";
      let data := take (Z.to_nat (template_limit + 1)) data in
      _ ← guard (len data <=? template_limit)%Z "VM template exceeds 1 MiB";
      document ← lift (with_context "VM template is not the saved luhmen JSON format"
                         (parse_value (serde R) data));
      _ ← guard (is_object document && is_array (index document "provision"))
            "VM template is not the saved luhmen JSON format";
      mret document
  | Some _ => throw "VM template must be a regular file"
  end.

Definition rendered (c : Config) : result bytes := render (texts R) (print_value (serde R)) c.

(** ** [inspect] *)

Definition inspect : M Inspection :=
  present ← exists_ R (state R);
  '(config, vm, status_, errors) ←
    (if present : bool then
       _ ← ensure_owned R (me R) (state R) false;
       _ ← check_state_paths;
       saved ← exists_ R (under "config.json");
       c ← (if saved : bool then attempt (c ← config; mret (Some c)) else mret (Ok None));
       let errors := match c with Err e => ["configuration: " +:+ e] | Ok _ => [] end in
       created ← exists_ R (under "lima/luhmen");
       if created : bool then
         v ← attempt (_ ← check_lima; vm);
         let errors := errors ++ match v with Err e => ["VM inspection: " +:+ e] | Ok _ => [] end in
         let v := match v with Ok v => v | Err _ => None end in
         mret (match c with Ok c => c | Err _ => None end, v,
               default (str "Unknown") (v ≫= status), errors)
       else mret (match c with Ok c => c | Err _ => None end, None, str "NotCreated", errors)
     else mret (None, None, str "NotCreated", []));
  answered ← attempt (observe (ping R));
  let errors := errors ++
    match answered with
    | Err e => if decide (status_ = str "Running") then ["Docker Engine: " +:+ e] else []
    | Ok _ => []
    end in
  context ← attempt context_ready;
  let errors := errors ++ match context with Err e => ["Docker context: " +:+ e] | Ok _ => [] end in
  present ← exists_ R (state R);
  report ← (if present : bool then attempt (Startup.read R (parse_report (serde R)) (state R))
            else mret (Ok None));
  let errors := errors ++ match report with Err e => ["startup diagnostics: " +:+ e] | Ok _ => [] end in
  mret {| vm_state := status_;
          engine_ready := match answered with Ok _ => true | Err _ => false end;
          context_ready_ := match context with Ok b => b | Err _ => false end;
          config_ := config; vm_ := vm; inspect_errors := errors;
          last_start := match report with Ok r => r | Err _ => None end |}.

(** ** [create] *)

Definition gigabytes (n : Z) : Z := n * 1024 * 1024 * 1024.

Definition create (c : Config) : M Inspection :=
  _ ← check_host;
  _ ← check_lima;
  _ ← lift (validate (host_paths R) c (state R));
  _ ← (if nested_virtualization c then check_nested_host else mret ());
  _ ← check_resources c;
  _ ← ensure_owned R (me R) (state R) true;
  _ ← lock;
  _ ← context_ready;
  saved ← exists_ R (under "config.json");
  _ ← (if saved : bool then
         current ← config;
         guard (bool_decide (current = c))
           "configuration differs from the created VM; creation settings are immutable"
       else
         created ← exists_ R (under "lima/luhmen");
         _ ← guard (negb created) "VM exists without a luhmen configuration; refusing to adopt it";
         data ← lift (print_config (serde R) c);
         atomic_write R (me R) (under "config.json") data);
  found ← vm;
  _ ← match found with
      | Some _ => mret ()
      | None =>
          space ← observe (λ t, available R t (state R));
          _ ← guard (gigabytes 15 <=? space)%Z
                "at least 15 GiB of free host storage is required to create a VM";
          _ ← create_dir_all R (me R) (under "lima");
          template ← lift (rendered c);
          _ ← atomic_write R (me R) (under "vm.yaml") template;
          _ ← success (lima [str "create"; str "--name=luhmen"; str "--tty=false"; under "vm.yaml"]);
          mret ()
      end;
  _ ← ensure_context;
  inspect.

(** ** [update] *)

Record ProvisionUpdate := { updated : bool }.

Definition require_stopped_for_update : M unit :=
  found ← vm;
  v ← lift (ok_or found "luhmen VM does not exist");
  guard (bool_decide (status v = Some (str "Stopped")))
    "VM must be stopped before updating provisioning; run `luhmen stop` first".

Definition baseline_path : path := under "vm.yaml".
Definition actual_path : path := path_join (under "lima/luhmen") (str "lima.yaml").

(** The candidate: the saved template with the provisioning of this version. *)
Definition candidate_of (baseline current : value) : value :=
  set_index baseline "provision" (index current "provision").

(** The re-check before publishing: [&&] stops at the first difference. *)
Definition unchanged_since (c : Config) (baseline actual : value) : M bool :=
  actual' ← read_vm_template actual_path;
  if negb (bool_decide (actual' = actual)) then mret false else
  baseline' ← read_vm_template baseline_path;
  if negb (bool_decide (baseline' = baseline)) then mret false else
  c' ← config;
  mret (bool_decide (c' = c)).

(** From staging the candidate to publishing it: the actual template first. The staged file is
    removed when it goes out of scope; [tempfile] would try another name where [fresh] gives one
    that is taken. *)
Definition publish (c : Config) (baseline actual candidate : value) : M unit :=
  data ← lift (print_value (serde R) candidate);
  name ← observe (λ t, Ok (fresh R t));
  let staged := path_join (under "lima/luhmen") (str "luhmen-update-" ++ name ++ str ".yaml") in
  created ← create_new R staged (Meta (user (me R)) (group (me R)) 384);
  _ ← guard created "file exists";
  result ← attempt
    (_ ← write_all R staged data;
     _ ← sync_all R staged;
     _ ← success (lima [str "validate"; staged]);
     _ ← check_state_paths;
     same ← unchanged_since c baseline actual;
     _ ← guard same "VM template changed during validation; templates were preserved";
     _ ← require_stopped_for_update;
     _ ← (if decide (actual ≠ candidate) then atomic_write R (me R) actual_path data else mret ());
     if decide (baseline ≠ candidate) then atomic_write R (me R) baseline_path data else mret ());
  _ ← attempt (remove_file R staged);
  lift result.

Definition compared_fields : list string := ["cpus"; "memory"; "disk"; "mounts"; "arch"; "vmType"].

Definition update : M ProvisionUpdate :=
  _ ← ensure_owned R (me R) (state R) false;
  _ ← lock;
  _ ← check_lima;
  _ ← require_stopped_for_update;
  c ← config;
  baseline ← read_vm_template baseline_path;
  actual ← read_vm_template actual_path;
  current ← lift (text ← rendered c; parse_value (serde R) text);
  _ ← guard (forallb (λ f, bool_decide (index baseline f = index current f)) compared_fields)
        "saved VM template differs from the creation settings; templates were preserved";
  _ ← guard (Bool.eqb (default false (as_bool (index baseline "nestedVirtualization")))
                      (nested_virtualization c))
        "saved VM template nested virtualization differs from the creation settings; templates were preserved";
  let candidate := candidate_of baseline current in
  _ ← guard (bool_decide (actual = baseline) || bool_decide (actual = candidate))
        "VM template differs from the saved luhmen template; refusing to replace user edits";
  let changed := bool_decide (actual ≠ candidate) || bool_decide (baseline ≠ candidate) in
  _ ← (if changed : bool then publish c baseline actual candidate else mret ());
  mret {| updated := changed |}.

(** ** [start], [stop] and [restart] *)

Definition start_preflight (restart : bool) : M bool :=
  _ ← check_lima;
  c ← config;
  _ ← lift (validate (host_paths R) c (state R));
  _ ← check_resources c;
  _ ← ensure_context;
  found ← vm;
  v ← lift (ok_or found "VM is missing; run `luhmen create` with the saved configuration");
  running ← (if decide (status v = Some (str "Running")) then mret true
             else if decide (status v = Some (str "Stopped")) then mret false
             else throw "VM state is not Running or Stopped; use `luhmen stop --force` to recover");
  _ ← (if negb running || restart then
         space ← observe (λ t, available R t (state R));
         guard (gigabytes 2 <=? space)%Z
           "at least 2 GiB of free host storage is required to start or restart the VM"
       else mret ());
  mret running.

(** The [select!] of [wait_for_engine]. *)
Fixpoint engine_wait (events : list engine_event) : result unit :=
  match events with
  | [] => Err "Docker Engine did not become ready within 120 seconds; VM is preserved"
  | CancelRequested :: _ =>
      Err "readiness cancelled; the VM may still be running; run `luhmen inspect`"
  | Pinged true :: _ => Ok ()
  | Pinged false :: events => engine_wait events
  end.
Definition wait_for_engine : M unit := observe (λ t, engine_wait (engine_events R t)).

Definition shutdown_arguments : list bytes :=
  map str ["shell"; NAME; "--"; "sudo"; "/bin/sh"; "-c";
    "trap '' HUP INT TERM; exec /usr/bin/flock --nonblock /run/luhmen-docker-shutdown.lock /usr/local/libexec/luhmen-docker-shutdown"].
Definition stop_arguments (force : bool) : list bytes :=
  [str "stop"] ++ (if force then [str "--force"] else []) ++ [str NAME].

Definition stop_locked (force : bool) : M unit :=
  _ ← check_lima;
  found ← vm;
  match found with
  | None => mret ()
  | Some v =>
      let s := default [] (status v) in
      if decide (s = str "Stopped") then mret () else
      _ ← guard (bool_decide (s = str "Running") || force) "graceful stop is unavailable";
      _ ← (if negb force then _ ← success (lima shutdown_arguments); mret () else mret ());
      _ ← success (lima (stop_arguments force));
      found ← vm;
      v ← lift (ok_or found "VM disappeared while stopping");
      guard (bool_decide (status v = Some (str "Stopped"))) "Lima did not report a stopped VM"
  end.

Definition start_arguments : list bytes := map str ["start"; "--tty=false"; "--timeout=10m"; NAME].

(** A stage whose error ends the start: [trace.stage(...)?]. *)
Definition stage {A : Type} (t : Startup.Trace) (name : string) (op : M A) : M (Startup.Trace * A) :=
  '(t, r) ← Startup.stage R (me R) (clock R) (print_report (serde R)) t name op;
  a ← lift r;
  mret (t, a).

Definition start_locked (restart : bool) : M unit :=
  trace ← Startup.new R (me R) (clock R) (unix_ms R) (print_report (serde R)) (state R)
            (if restart then "restart" else "start");
  '(trace, running) ← stage trace "preflight" (start_preflight restart);
  '(trace, _) ← (if restart && running then stage trace "lima_stop" (stop_locked false)
                 else mret (trace, ()));
  trace ← (if negb running || restart then
             '(trace, _) ← stage trace "lima_start" (_ ← success (lima start_arguments); mret ());
             mret trace
           else Startup.skip R (me R) (print_report (serde R)) trace "lima_start");
  '(trace, _) ← stage trace "engine_socket_ready" wait_for_engine;
  _ ← Startup.complete R (me R) (clock R) (print_report (serde R)) trace;
  mret ().

Definition start : M Inspection :=
  _ ← check_host;
  _ ← ensure_owned R (me R) (state R) false;
  _ ← lock;
  _ ← start_locked false;
  inspect.

Definition stop (force : bool) : M Inspection :=
  _ ← check_host;
  _ ← ensure_owned R (me R) (state R) false;
  _ ← lock;
  _ ← stop_locked force;
  inspect.

Definition restart : M Inspection :=
  _ ← check_host;
  _ ← ensure_owned R (me R) (state R) false;
  _ ← lock;
  _ ← start_locked true;
  inspect.

(** [microvm_request], with the exchange of the client. *)
Definition microvm_request (exchange : bytes → M value) (request : bytes) : M value :=
  c ← config;
  _ ← guard (nested_virtualization c) "nested virtualization is disabled";
  _ ← check_lima;
  found ← vm;
  v ← lift (ok_or found "luhmen VM does not exist");
  _ ← guard (bool_decide (status v = Some (str "Running"))) "luhmen VM is not running";
  _ ← check_state_paths;
  exchange request.

(** ** [storage] and [doctor] *)

(** [storage::inspect] looks at the host's files through a view of its own. *)
Definition storage (V : Storage.view) (home : option path) : M Storage.Report :=
  _ ← ensure_owned R (me R) (state R) false;
  _ ← check_state_paths;
  mret (Storage.inspect V (state R) home).

(** [ancestors().find(|p| p.exists())]. *)
Fixpoint find_existing (l : list path) : M (option path) :=
  match l with
  | [] => mret None
  | p :: l => present ← exists_ R p; if present : bool then mret (Some p) else find_existing l
  end.

(** [r.err().map(|error| format!("{error:#}"))] and [r.as_ref().ok().map(|value| value.trim())]. *)
Definition error_value {A : Type} (r : result A) : value :=
  match r with Ok _ => Null | Err e => String (str e) end.
Definition trimmed_value (r : result bytes) : value :=
  match r with Ok s => String (trim s) | Err _ => Null end.

(** The [json!] of the report. It panics where the state path is not UTF-8; that is not modelled. *)
Definition doctor_report (host nested lima : result unit) (docker compose buildx : result bytes)
    (free_bytes : Z) : value :=
  object
    [("schema_version", Number (str "1"));
     ("supported_host", Bool (is_ok host)); ("host_error", error_value host);
     ("nested_host_ready", Bool (is_ok nested)); ("nested_host_error", error_value nested);
     ("lima_version", String (str LIMA_VERSION));
     ("lima_ready", Bool (is_ok lima)); ("lima_error", error_value lima);
     ("docker", trimmed_value docker); ("docker_error", error_value docker);
     ("compose", trimmed_value compose); ("compose_error", error_value compose);
     ("buildx", trimmed_value buildx); ("buildx_error", error_value buildx);
     ("free_bytes", Number (decimal (Z.to_N free_bytes)));
     ("state_directory", String (state R));
     ("endpoint", String endpoint)].

Definition doctor : M value :=
  lima ← attempt check_lima;
  host ← attempt check_host;
  nested ← (if is_ok host then attempt check_nested_host
            else mret (Err "nested virtualization requires a supported Apple Silicon host"));
  docker ← attempt (success (docker_command [str "--version"]));
  compose ← attempt (success (docker_command (map str ["compose"; "version"; "--short"])));
  buildx ← attempt (success (docker_command (map str ["buildx"; "version"])));
  found ← find_existing (ancestors (state R));
  ancestor ← lift (ok_or found "state path has no existing ancestor");
  free_bytes ← observe (λ t, available R t ancestor);
  mret (doctor_report host nested lima docker compose buildx free_bytes).

End runtime.
