(* ===== verification/RuntimeSpec.v ===== *)
(** * What the life cycle guarantees

    [update] never replaces a template the user has edited, can be interrupted at
    any point, and finishes an interrupted update when it is run again. [create]
    never changes the settings of a VM that exists. *)

From S2P Require Import Prelude Text Fs Paths Config ConfigSpec Value VmTemplate Runtime.
From S2P Require Startup.

(** ** Programs that change no file *)

Section keeps.
Context (R : machine) (P : files → Prop) (kept : stable R P).
#[local] Hint Resolve kept : keeps.

Lemma keeps_observed {X : Type} (o : nat → result X) : keeps P (Runtime.observe R o).
Proof using kept. intros w Hw. by apply (keeps_query R P (λ _, o (tick w)) kept). Qed.
Lemma keeps_starting c : keeps P (starting c).
Proof using. by intros w Hw. Qed.
#[local] Hint Resolve keeps_observed keeps_starting : keeps.
Lemma keeps_success c : keeps P (success R c).
Proof using kept. unfold success. keeps. Qed.
Lemma keeps_lookup p : keeps P (lookup_node R p).
Proof using kept. unfold lookup_node. keeps. Qed.
Lemma keeps_fs_read p e : keeps P (fs_read R p e).
Proof using kept. unfold fs_read. keeps. Qed.
#[local] Hint Resolve keeps_success keeps_lookup keeps_fs_read : keeps.
Lemma keeps_tool p l : keeps P (tool R p l).
Proof using kept. unfold tool. keeps. Qed.
Lemma keeps_check_state_paths : keeps P (check_state_paths R).
Proof using kept. unfold check_state_paths, check_directory, check_socket. keeps. Qed.
#[local] Hint Resolve keeps_tool keeps_check_state_paths : keeps.
Lemma keeps_check_host : keeps P (check_host R).
Proof using kept. unfold check_host, macos_major. keeps. Qed.
Lemma keeps_check_nested_host : keeps P (check_nested_host R).
Proof using kept. unfold check_nested_host, macos_major. keeps. Qed.
Lemma keeps_check_resources c : keeps P (check_resources R c).
Proof using kept. unfold check_resources. keeps. Qed.
Lemma keeps_check_lima : keeps P (check_lima R).
Proof using kept. unfold check_lima. keeps. Qed.
Lemma keeps_present p : keeps P (exists_ R p).
Proof using kept. unfold exists_. keeps. Qed.
#[local] Hint Resolve keeps_present : keeps.
Lemma keeps_vm : keeps P (vm R).
Proof using kept. unfold vm. keeps. Qed.
#[local] Hint Resolve keeps_check_lima keeps_vm : keeps.
Lemma keeps_config : keeps P (config R).
Proof using kept. unfold config. keeps. Qed.
#[local] Hint Resolve keeps_config : keeps.
Lemma keeps_context_ready : keeps P (context_ready R).
Proof using kept. unfold context_ready, context_exists. keeps. Qed.
#[local] Hint Resolve keeps_context_ready : keeps.
Lemma keeps_ensure_context : keeps P (ensure_context R).
Proof using kept. unfold ensure_context. keeps. Qed.
Lemma keeps_require_stopped : keeps P (require_stopped_for_update R).
Proof using kept. unfold require_stopped_for_update. keeps. Qed.
Lemma keeps_read_template p : keeps P (read_vm_template R p).
Proof using kept. unfold read_vm_template. keeps. Qed.
#[local] Hint Resolve keeps_read_template : keeps.
Lemma keeps_unchanged c v w : keeps P (unchanged_since R c v w).
Proof using kept. unfold unchanged_since. keeps. Qed.
Lemma keeps_owned p : keeps P (ensure_owned R (me R) p false).
Proof using kept.
  unfold ensure_owned. cbv zeta. apply keeps_bind; [keeps|intros found].
  destruct found as [[[]|]|]; try (by keeps). apply keeps_bind; [keeps|intros marker].
  destruct marker as [[]|]; try (by keeps).
  all: apply keeps_bind; [keeps|by intros empty w Hw].
Qed.
#[local] Hint Resolve keeps_owned : keeps.
Lemma keeps_inspect : keeps P (inspect R).
Proof using kept. unfold inspect, Startup.read. keeps. Qed.
Lemma keeps_storage V h : keeps P (storage R V h).
Proof using kept. unfold storage. keeps. Qed.
Lemma keeps_find_existing l : keeps P (find_existing R l).
Proof using kept. induction l; simpl; keeps. Qed.
#[local] Hint Resolve keeps_check_host keeps_check_nested_host keeps_find_existing : keeps.
Lemma keeps_doctor : keeps P (doctor R).
Proof using kept. unfold doctor. keeps. Qed.
Lemma keeps_shell_command l : keeps P (shell_command R l).
Proof using kept. unfold shell_command. keeps. Qed.
Lemma keeps_microvm_request (exchange : bytes → M value) r :
  (∀ b, keeps P (exchange b)) → keeps P (microvm_request R exchange r).
Proof using kept. intros Hx. unfold microvm_request. keeps. Qed.
End keeps.
#[export] Hint Resolve keeps_observed keeps_starting keeps_success keeps_lookup keeps_fs_read
  keeps_tool keeps_check_state_paths keeps_check_host keeps_check_nested_host keeps_check_resources
  keeps_check_lima keeps_present keeps_vm keeps_config keeps_context_ready keeps_ensure_context
  keeps_require_stopped keeps_read_template keeps_unchanged keeps_owned keeps_inspect
  keeps_storage keeps_doctor keeps_shell_command : keeps.

(** The settings are those of the saved file. *)
Lemma config_reads (R : machine) (P : files → Prop) d saved :
  stable R P → (∀ s, P s → data_at s (under R "config.json") = Some d) →
  parse_config (serde R) d = Ok saved → triple P (config R) (λ c s, c = saved ∧ P s) P P.
Proof.
  intros Hst Hd Hparse. unfold config. eapply triple_bind with (R := λ x s, x = d ∧ P s).
  { apply triple_query; [done| |done..]. intros x s Hx Hs. rewrite (Hd s Hs) in Hx. by injection Hx as ->. }
  intros x. apply triple_pure. intros ->. rewrite Hparse. simpl.
  eapply triple_bind with (R := λ c s, c = saved ∧ P s); [by apply triple_ret|].
  intros c. apply triple_pure. intros ->.
  eapply triple_bind; [apply keeps_step; [apply keeps_lift|done..]|intros ?]. by apply triple_ret.
Qed.

Section update.
Context (R : machine) (undisturbed : alone R).

Abbreviation A := (actual_path R).
Abbreviation B := (baseline_path R).
Definition staged (t : nat) : path :=
  path_join (under R "lima/luhmen") (str "luhmen-update-" ++ fresh R t ++ str ".yaml").

(** The names the update uses are different files. *)
Record layout : Prop := {
  l_templates : A ≠ B;
  l_actual : (∃ dir, parent_of A = Some dir) ∧ temporary_of (me R) A ≠ A ∧ temporary_of (me R) A ≠ B;
  l_baseline : (∃ dir, parent_of B = Some dir) ∧ temporary_of (me R) B ≠ B ∧ temporary_of (me R) B ≠ A;
  l_lock : under R "operation.lock" ≠ A ∧ under R "operation.lock" ≠ B ∧
    under R "operation.lock" ≠ under R "config.json";
  l_staged : ∀ t, staged t ≠ A ∧ staged t ≠ B
}.
Context (places : layout).

Lemma stable_all (P : files → Prop) : stable R P.
Proof using undisturbed. intros t s. by rewrite undisturbed. Qed.
Hint Resolve stable_all : keeps.

(** ** Reading and publishing templates *)

Definition contents (p : path) (d : bytes) (s : files) : Prop := ∃ m, s !! p = Some (File d m).

Definition reads_as (d : bytes) (v : value) : Prop := parse_value (serde R) d = Ok v.

Lemma read_template_value (P : files → Prop) p d :
  (∀ s, P s → contents p d s) →
  triple P (read_vm_template R p)
    (λ v s, (reads_as d v ∧ is_object v = true ∧ (len d <= template_limit)%Z) ∧ P s) P P.
Proof using undisturbed places.
  intros Hp. unfold read_vm_template.
  eapply triple_bind; [apply keeps_step; [apply keeps_lookup, stable_all|done..]|intros found].
  destruct found as [[]|]; try (by apply triple_throw).
  eapply triple_bind with (R := λ text s, text = d ∧ P s).
  { apply triple_query; [apply stable_all| |done..]. intros text s Ht Hs.
    destruct (Hp s Hs) as [m' Hm]. unfold data_at in Ht. rewrite Hm in Ht. by injection Ht as ->. }
  intros text. apply triple_pure. intros ->. cbv zeta.
  eapply triple_bind with (R := λ _ s, (len (take (Z.to_nat (template_limit + 1)) d) <= template_limit)%Z ∧ P s).
  { apply triple_guard; [|done]. intros s Hl%Z.leb_le. done. }
  intros ?. apply triple_pure. intros Hl.
  assert (take (Z.to_nat (template_limit + 1)) d = d) as Htake.
  { apply take_ge. unfold len in Hl. rewrite length_take in Hl. unfold template_limit in *. lia. }
  rewrite Htake in Hl |- *.
  eapply triple_bind with (R := λ v s, reads_as d v ∧ P s).
  { apply triple_lift; [|done]. intros v s Hv Hs. split; [|done].
    unfold reads_as. destruct (parse_value (serde R) d); simpl in Hv; congruence. }
  intros v. apply triple_pure. intros Hv.
  eapply triple_bind with (R := λ _ s, is_object v = true ∧ P s).
  { apply triple_guard; [|done]. by intros s [? _]%andb_true_iff. }
  intros ?. apply triple_pure. intros Ho. by apply triple_ret.
Qed.

(** Replacing one template leaves the other as it is. *)
Lemma replace_template p q n m data :
  (∃ dir, parent_of p = Some dir) → temporary_of (me R) p ≠ p → q ≠ p → temporary_of (me R) p ≠ q →
  triple (λ s, s !! p = Some n ∧ s !! q = Some m) (atomic_write R (me R) p data)
    (λ _ s, s !! p = Some (private (me R) data) ∧ s !! q = Some m)
    (λ s, (s !! p = Some n ∨ s !! p = Some (private (me R) data)) ∧ s !! q = Some m)
    (λ s, (s !! p = Some n ∨ s !! p = Some (private (me R) data)) ∧ s !! q = Some m).
Proof using undisturbed places.
  intros Hdir Htmp Hq Hq'. eapply triple_post.
  - apply triple_and; [apply (atomic_write_atomic R (me R) p Hdir Htmp)
      |apply (atomic_write_frame R (me R) q m (stable_all _) p data)]; auto.
    intros t s r _. by rewrite undisturbed.
  - done.
  - intros s [Hs ?]. split; [|done]. unfold target_in in Hs. set_solver.
  - intros s [Hs ?]. split; [|done]. unfold target_in in Hs. set_solver.
Qed.

(** ** Every state of an update *)

(** The two templates hold these nodes. *)
Definition templates (a b : node) (s : files) : Prop := s !! A = Some a ∧ s !! B = Some b.

Context (a b : node).

(** What an update of the templates [a] and [b] can leave behind once it publishes [data]:
    nothing, the actual template (if it differs from the candidate), or then the saved one too. *)
Definition in_update (first : bool) (data : bytes) (s : files) : Prop :=
  let new := private (me R) data in
  let a' := if first then new else a in
  templates a b s ∨ templates a' b s ∨ templates a' new s.

Lemma triple_publish_templates (first second : bool) data :
  triple (templates a b)
    (_ ← (if first then atomic_write R (me R) A data else mret ());
     if second then atomic_write R (me R) B data else mret ())
    (λ _, templates (if first then private (me R) data else a) (if second then private (me R) data else b))
    (in_update first data) (in_update first data).
Proof using undisturbed places.
  destruct places as [Hab (Hda & Ha & Hab') (Hdb & Hb & Hba') _ _].
  eapply triple_bind with (R := λ _, templates (if first then private (me R) data else a) b).
  - destruct first; [|by apply triple_ret].
    eapply triple_post; [apply (replace_template A B a b); auto|done|..];
      intros s [[?|?] ?]; unfold in_update, templates; auto.
  - intros ?. destruct second; [|by apply triple_ret].
    eapply triple_pre with (P := λ s, s !! B = Some b ∧
      s !! A = Some (if first then private (me R) data else a)); [|intros s [? ?]; done].
    eapply triple_post; [apply (replace_template B A b); auto|by intros ? s []|..];
      intros s [[?|?] ?]; unfold in_update, templates; destruct first; auto.
Qed.

(** A step of [publish] before the templates are replaced. *)
Lemma keeps_create_staged t : keeps (templates a b) (create_new R (staged t) (Meta (user (me R)) (group (me R)) 384)).
Proof using undisturbed places.
  destruct places as [_ _ _ _ Hst]. destruct (Hst t) as [H1 H2].
  apply triple_call; [apply stable_all| |done..]. intros s [Ha Hb].
  destruct (s !! staged t); [done|]. destruct (in_directory _ _); [|done]. split; by rewrite lookup_insert_ne.
Qed.
Lemma keeps_write_staged t data : keeps (templates a b) (write_all R (staged t) data).
Proof using undisturbed places.
  destruct places as [_ _ _ _ Hst]. destruct (Hst t) as [H1 H2].
  assert (∀ (f : bytes → meta → unit * node) s, templates a b s → templates a b (on_file (staged t) f s).2) as Hf.
  { intros f s [Ha Hb]. unfold on_file. destruct (s !! staged t) as [[]|]; try done.
    destruct (f _ _). split; simpl; by rewrite lookup_insert_ne. }
  apply triple_call; [apply stable_all| |by auto..].
  intros s Hs. specialize (Hf (λ d m, ((), File (d ++ data) m)) s Hs). by destruct (on_file _ _ s) as [[] ?].
Qed.
Lemma keeps_remove_staged t (P : files → Prop) :
  (∀ s, P s → P (delete (staged t) s)) → keeps P (remove_file R (staged t)).
Proof using undisturbed places.
  intros HP. apply triple_call; [apply stable_all| |done..]. intros s Hs.
  destruct (s !! staged t) as [[]|]; auto.
Qed.

Lemma in_update_delete t first data s :
  in_update first data s → in_update first data (delete (staged t) s).
Proof using undisturbed places.
  destruct places as [_ _ _ _ Hst]. destruct (Hst t) as [H1 H2].
  unfold in_update, templates. by rewrite !lookup_delete_ne.
Qed.

Lemma triple_publish_cond (φ ψ : Prop) {Dφ : Decision φ} {Dψ : Decision ψ} data :
  triple (templates a b)
    (_ ← (if decide φ then atomic_write R (me R) A data else mret ());
     if decide ψ then atomic_write R (me R) B data else mret ())
    (λ _, templates (if bool_decide φ then private (me R) data else a)
            (if bool_decide ψ then private (me R) data else b))
    (in_update (bool_decide φ) data) (in_update (bool_decide φ) data).
Proof using undisturbed places.
  pose proof (triple_publish_templates (bool_decide φ) (bool_decide ψ) data) as Hp.
  unfold bool_decide, decide in *. destruct Dφ, Dψ; exact Hp.
Qed.

Lemma triple_publish c baseline actual candidate :
  triple (templates a b) (publish R c baseline actual candidate)
    (λ _ s, ∃ data, print_value (serde R) candidate = Ok data ∧
       templates (if bool_decide (actual ≠ candidate) then private (me R) data else a)
                 (if bool_decide (baseline ≠ candidate) then private (me R) data else b) s)
    (λ s, templates a b s ∨ ∃ data, print_value (serde R) candidate = Ok data ∧
       in_update (bool_decide (actual ≠ candidate)) data s)
    (λ s, templates a b s ∨ ∃ data, print_value (serde R) candidate = Ok data ∧
       in_update (bool_decide (actual ≠ candidate)) data s).
Proof using undisturbed places.
  unfold publish. eapply triple_bind with (R := λ data s,
    print_value (serde R) candidate = Ok data ∧ templates a b s); [apply triple_lift; auto|].
  intros data. apply triple_pure. intros Hdata.
  set (first := bool_decide (actual ≠ candidate)).
  set (X := λ s, templates a b s ∨ ∃ data, print_value (serde R) candidate = Ok data ∧ in_update first data s).
  assert (∀ s, in_update first data s → X s) as HX by (intros s Hs; right; eauto).
  assert (∀ s, templates a b s → X s) as HX' by (intros s Hs; by left).
  eapply triple_bind with (R := λ name s, (∃ t, name = fresh R t) ∧ templates a b s).
  { intros w Hw. pose proof (keeps_observed R (templates a b) (stable_all _) (λ t, Ok (fresh R t)) w Hw) as H.
    unfold Runtime.observe, query, call in *. destruct (fate_at R (tick w)); simpl in *; eauto. }
  intros name. apply triple_pure. intros [t ->]. cbv zeta. fold (staged t).
  eapply triple_bind; [apply keeps_step; [apply keeps_create_staged|done..]|intros created].
  eapply triple_bind; [apply keeps_step; [apply keeps_guard|done..]|intros ?].
  set (Q := templates (if bool_decide (actual ≠ candidate) then private (me R) data else a)
                      (if bool_decide (baseline ≠ candidate) then private (me R) data else b)).
  assert (∀ s, Q s → in_update first data s) as HQ.
  { intros s. unfold Q, in_update, first. destruct (bool_decide (baseline ≠ candidate)); auto. }
  eapply triple_bind with (R := λ r s, match r with Ok _ => Q s | Err _ => in_update first data s end).
  - apply triple_attempt.
    eapply triple_post with (Q := λ _, Q) (X := in_update first data) (H := in_update first data); [|by auto..].
    assert (∀ s, templates a b s → in_update first data s) as HI by (intros s; unfold in_update; auto).
    eapply triple_bind; [apply keeps_step; [apply keeps_write_staged|done..]|intros ?].
    eapply triple_bind; [apply keeps_step; [apply keeps_query, stable_all|done..]|intros ?].
    eapply triple_bind; [apply keeps_step; [apply keeps_success, stable_all|done..]|intros ?].
    eapply triple_bind; [apply keeps_step; [apply keeps_check_state_paths, stable_all|done..]|intros ?].
    eapply triple_bind; [apply keeps_step; [apply keeps_unchanged, stable_all|done..]|intros ?].
    eapply triple_bind; [apply keeps_step; [apply keeps_guard|done..]|intros ?].
    eapply triple_bind; [apply keeps_step; [apply keeps_require_stopped, stable_all|done..]|intros ?].
    exact (triple_publish_cond _ _ data).
  - intros r. eapply triple_bind with (R := λ _ s, match r with Ok _ => Q s | Err _ => in_update first data s end).
    + apply keeps_step; [|destruct r; auto..]. apply keeps_attempt, keeps_remove_staged.
      destruct places as [_ _ _ _ Hst]. destruct (Hst t) as [H1 H2].
      intros s. destruct r; [|apply in_update_delete].
      unfold Q, templates. by rewrite !lookup_delete_ne.
    + intros ?. destruct r; [apply triple_ret; eauto|apply triple_throw; auto].
Qed.
End update.

(** ** The update *)

Lemma unchanged (v w : value) : bool_decide (v ≠ w) = false → v = w.
Proof. intros E. apply dec_stable. intros N. by rewrite bool_decide_eq_true_2 in E. Qed.

Section update_safe.
Context (R : machine) (undisturbed : alone R) (places : layout R).
(** What [serde_json] prints it reads back. *)
Context (faithful : ∀ v d, print_value (serde R) v = Ok d → parse_value (serde R) d = Ok v).
(** The two template files and the settings file, and the template of this version for the settings. *)
Context (da : bytes) (ma : meta) (db : bytes) (mb : meta) (dc : bytes) (mc : meta).
Context (saved : Config) (readable : parse_config (serde R) dc = Ok saved).

Abbreviation P := (templates R (File da ma) (File db mb)).
Abbreviation with_settings := (λ s : files, P s ∧ s !! under R "config.json" = Some (File dc mc)).
Definition rendering (current : value) : Prop :=
  ∃ text, rendered R saved = Ok text ∧ parse_value (serde R) text = Ok current.

(** A template file that holds this document. *)
Definition holds_template (p : path) (v : value) (s : files) : Prop :=
  ∃ d m, s !! p = Some (File d m) ∧ reads_as R d v.

(** What the files held at the start, and that the actual template was the saved one or already the
    candidate. Each file reads as one document at most. *)
Definition unedited (actual baseline current : value) : Prop :=
  reads_as R da actual ∧ reads_as R db baseline ∧ rendering current ∧
  (actual = baseline ∨ actual = candidate_of baseline current).
(** The actual template is a document that is neither. *)
Definition edited : Prop :=
  ∃ actual baseline current, reads_as R da actual ∧ reads_as R db baseline ∧ rendering current ∧
    actual ≠ baseline ∧ actual ≠ candidate_of baseline current.

(** The templates [update] agrees to replace: the actual one is the saved one, or already the
    candidate. *)
Definition accepted (current : value) (s : files) : Prop :=
  ∃ actual baseline, holds_template (actual_path R) actual s ∧
    holds_template (baseline_path R) baseline s ∧
    (actual = baseline ∨ actual = candidate_of baseline current).

(** The state after an interrupted update: nothing has changed; or the templates were accepted,
    the candidate has replaced them in order as far as it went, and they are accepted still. *)
Definition interrupted (s : files) : Prop :=
  P s ∨ ∃ actual baseline current data,
    let candidate := candidate_of baseline current in
    unedited actual baseline current ∧
    print_value (serde R) candidate = Ok data ∧
    in_update R (File da ma) (File db mb) (bool_decide (actual ≠ candidate)) data s ∧
    accepted current s.

Lemma in_update_accepted actual baseline current data s :
  let candidate := candidate_of baseline current in
  reads_as R da actual → reads_as R db baseline → (actual = baseline ∨ actual = candidate) →
  print_value (serde R) candidate = Ok data →
  in_update R (File da ma) (File db mb) (bool_decide (actual ≠ candidate)) data s →
  accepted current s.
Proof using faithful.
  intros candidate Ha Hb Hact Hd%faithful Hs.
  assert (candidate_of candidate current = candidate) as Htwice by apply set_index_twice.
  unfold in_update, templates in Hs. unfold accepted, holds_template.
  destruct (bool_decide (actual ≠ candidate)) eqn:E;
    [|apply unchanged in E; rewrite E in *];
    destruct Hs as [[H1 H2]|[[H1 H2]|[H1 H2]]]; do 2 eexists;
    (split; [by do 2 eexists|split; [by do 2 eexists|auto]]).
Qed.

Lemma keeps_lock : keeps with_settings (lock R).
Proof using undisturbed places.
  unfold lock. apply keeps_bind; [|intros ?; by apply keeps_query, stable_all].
  destruct places as [_ _ _ (H1 & H2 & H3) _]. apply triple_call; [by apply stable_all| |done..].
  intros s [[Ha Hb] Hc]. destruct (s !! under R "operation.lock"); [done|].
  repeat split; by rewrite lookup_insert_ne.
Qed.

Lemma unedited_not_edited actual baseline current : unedited actual baseline current → ¬ edited.
Proof using.
  intros (Ha & Hb & (t & Ht & Hc) & Hact) (a' & b' & c' & Ha' & Hb' & (t' & Ht' & Hc') & H1 & H2).
  unfold reads_as in *. assert (a' = actual) as -> by congruence. assert (b' = baseline) as -> by congruence.
  assert (t' = t) as -> by congruence. assert (c' = current) as -> by congruence. by destruct Hact.
Qed.

(** The last part of [update]. *)
Lemma triple_replace actual baseline current :
  unedited actual baseline current →
  let candidate := candidate_of baseline current in
  let changed := bool_decide (actual ≠ candidate) || bool_decide (baseline ≠ candidate) in
  triple P
    (_ ← (if changed : bool then publish R saved baseline actual candidate else mret ());
     mret {| updated := changed |})
    (λ r s, ∃ actual baseline current, unedited actual baseline current ∧
       holds_template (actual_path R) (candidate_of baseline current) s ∧
       holds_template (baseline_path R) (candidate_of baseline current) s ∧
       (updated r = false → P s))
    interrupted interrupted.
Proof using undisturbed places faithful.
  intros Hun candidate changed. pose proof Hun as (Ha & Hb & Hcur & Hact).
  unfold changed. destruct (bool_decide (actual ≠ candidate) || bool_decide (baseline ≠ candidate)) eqn:Echanged.
  - eapply triple_bind; [eapply triple_post; [by apply triple_publish|done|..]|].
    1,2: intros s [Hs|(data & Hd & Hs)]; [by left|right]; exists actual, baseline, current, data;
      split_and!; eauto using in_update_accepted.
    intros ?. apply triple_ret. intros s (data & Hd%faithful & Hs).
    exists actual, baseline, current. split; [done|]. fold candidate. unfold holds_template. destruct Hs as [H1 H2].
    split_and!; [|..|done].
    + destruct (bool_decide (actual ≠ candidate)) eqn:E; [by eexists _, _|].
      apply unchanged in E. exists da, ma. by rewrite <- E.
    + destruct (bool_decide (baseline ≠ candidate)) eqn:E; [by eexists _, _|].
      apply unchanged in E. exists db, mb. by rewrite <- E.
  - apply orb_false_iff in Echanged as [E1 E2].
    assert (actual = candidate) as E3 by (by apply unchanged).
    assert (baseline = candidate) as E4 by (by apply unchanged).
    eapply triple_bind with (R := λ _, P); [by apply triple_ret|].
    intros ?. apply triple_ret. intros s [H1 H2]. exists actual, baseline, current. fold candidate.
    split_and!; [done|exists da, ma; by rewrite <- E3|exists db, mb; by rewrite <- E4|done].
Qed.

Lemma triple_update :
  triple with_settings (update R)
    (λ r s, ∃ actual baseline current, unedited actual baseline current ∧
       holds_template (actual_path R) (candidate_of baseline current) s ∧
       holds_template (baseline_path R) (candidate_of baseline current) s ∧
       (updated r = false → P s))
    interrupted interrupted.
Proof using undisturbed places faithful readable.
  unfold update. assert (∀ s, P s → interrupted s) as HI by (intros s Hs; by left).
  assert (∀ s, with_settings s → interrupted s) as HI' by (intros s []; auto).
  do 4 (eapply triple_bind; [apply keeps_step;
    [first [apply keeps_lock | auto using stable_all with keeps]|done..]|intros ?]).
  eapply triple_bind; [eapply triple_post; [apply (config_reads R with_settings dc saved); auto using stable_all|done..]|].
  { intros s [_ Hs]. unfold data_at. by rewrite Hs. }
  intros c. apply triple_pure. intros ->. eapply triple_pre with (P := P); [|by intros s []].
  eapply triple_bind; [eapply triple_post;
    [apply (read_template_value R undisturbed places P _ db)|done..]|intros baseline].
  { intros s [_ Hs]. by exists mb. }
  apply triple_pure. intros (Hb & Hob & _).
  eapply triple_bind; [eapply triple_post;
    [apply (read_template_value R undisturbed places P _ da)|done..]|intros actual].
  { intros s [Hs _]. by exists ma. }
  apply triple_pure. intros (Ha & Hoa & _).
  eapply triple_bind with (R := λ current s, rendering current ∧ P s).
  { apply triple_lift; [|done]. intros current s (text & ? & ?)%bind_Ok Hs. split; [by exists text|done]. }
  intros current. apply triple_pure. intros Hcur.
  eapply triple_bind; [apply keeps_step; [apply keeps_guard|done..]|intros ?].
  eapply triple_bind; [apply keeps_step; [apply keeps_guard|done..]|intros ?]. cbv zeta.
  eapply triple_bind with (R := λ _ s, unedited actual baseline current ∧ P s).
  { apply triple_guard; [|done]. intros s H Hs. split; [|done]. split_and!; [done..|].
    by rewrite orb_true_iff, !bool_decide_eq_true in H. }
  intros ?. apply triple_pure. intros Hun. by apply triple_replace.
Qed.

(** C2. Whichever call fails and wherever the process dies, [update] leaves the templates as they
    were, or replaced in its order by the candidate: the saved template with the provisioning that
    this version renders for the saved settings. It replaces them only if the actual template was
    the saved one or already the candidate, and what an interrupted update leaves is accepted again,
    so running it once more is not refused. After success both hold the candidate. A template the
    user has edited is refused, and both stay as they were. *)
Theorem update_safe :
  triple with_settings (update R)
    (λ r s, ∃ actual baseline current, unedited actual baseline current ∧
       holds_template (actual_path R) (candidate_of baseline current) s ∧
       holds_template (baseline_path R) (candidate_of baseline current) s ∧
       (updated r = false → P s))
    interrupted interrupted ∧
  (edited → triple with_settings (update R) (λ _ _, False) P P).
Proof using undisturbed places faithful readable.
  split; [exact triple_update|]. intros He. eapply triple_post; [exact triple_update|..].
  - intros r s (a & b & c & Hun & _). by eapply unedited_not_edited.
  - intros s [|(a & b & c & data & Hun & _)]; [done|]. by destruct (unedited_not_edited _ _ _ Hun).
  - intros s [|(a & b & c & data & Hun & _)]; [done|]. by destruct (unedited_not_edited _ _ _ Hun).
Qed.
End update_safe.

(** ** Creation *)

Section create.
Context (R : machine).

Abbreviation K := (under R "config.json").
Abbreviation owner := (path_join (state R) (str "owner")).
Abbreviation template_path := (under R "vm.yaml").

(** The settings file is none of the other files [create] writes. *)
Definition settings_apart : Prop :=
  Forall (λ p, K ≠ p) [state R; owner; temporary_of (me R) owner; under R "operation.lock";
                       template_path; temporary_of (me R) template_path].
Context (apart : settings_apart).

(** The settings the VM was created with, which other processes and Lima leave alone. *)
Context (saved : Config) (d : bytes) (m : meta).
Context (readable : parse_config (serde R) d = Ok saved).
Abbreviation kept_settings := (λ s : files, s !! K = Some (File d m)).
Context (left_alone : stable R kept_settings).
(** [exists] takes a failing call for an absent file. *)
Context (faultless : no_faults R).

Lemma config_saved : triple kept_settings (config R) (λ c s, c = saved ∧ kept_settings s) kept_settings kept_settings.
Proof using readable left_alone.
  apply (config_reads _ _ d); [done| |done]. intros s Hs. unfold data_at. by rewrite Hs.
Qed.

Lemma keeps_settings_lock : keeps kept_settings (lock R).
Proof using apart left_alone.
  unfold lock. apply keeps_bind; [|intros ?; by apply keeps_query].
  unfold settings_apart in apart. rewrite !Forall_cons in apart. destruct apart as (_ & _ & _ & H & _).
  apply keeps_entry; [done| |done]. intros s Hs. case_match; simpl; [done|].
  by rewrite lookup_insert_ne.
Qed.

Lemma settings_exist : triple kept_settings (exists_ R K) (λ b s, b = true ∧ kept_settings s) kept_settings kept_settings.
Proof using left_alone faultless.
  unfold exists_. eapply triple_bind with
    (R := λ found s, found = Ok (Some (File d m)) ∧ kept_settings s); [|intros found; apply triple_pure; by intros ->; apply triple_ret].
  apply triple_attempt. intros w Hw. unfold lookup_node, query, call.
  apply (left_alone (tick w)) in Hw. pose proof (faultless (tick w)) as Hf.
  destruct (fate_at R (tick w)); simpl; [by rewrite Hw|by destruct (Hf e)|done].
Qed.

(** C27. Creation settings are immutable: whatever [create] is asked for and however it ends, the
    settings of an existing VM are as they were; and it succeeds only for the same settings. No
    call of the file system fails here; commands may, and the process may die. *)
Theorem create_immutable c :
  triple kept_settings (create R c) (λ _ s, c = saved ∧ kept_settings s) kept_settings kept_settings.
Proof using apart readable left_alone faultless.
  pose proof apart as Hapart. unfold settings_apart in Hapart. rewrite !Forall_cons in Hapart.
  destruct Hapart as (H1 & H2 & H3 & H4 & H5 & H6 & _).
  unfold create.
  eapply triple_bind; [apply keeps_step; [by apply keeps_check_host|done..]|intros ?].
  eapply triple_bind; [apply keeps_step; [by apply keeps_check_lima|done..]|intros ?].
  eapply triple_bind; [apply keeps_step; [apply keeps_lift|done..]|intros ?].
  eapply triple_bind; [apply keeps_step; [|done..]|intros ?].
  { case_match; [by apply keeps_check_nested_host|apply keeps_ret]. }
  eapply triple_bind; [apply keeps_step; [by apply keeps_check_resources|done..]|intros ?].
  eapply triple_bind; [apply keeps_step; [by apply ensure_owned_frame|done..]|intros ?].
  eapply triple_bind; [apply keeps_step; [apply keeps_settings_lock|done..]|intros ?].
  eapply triple_bind; [apply keeps_step; [by apply keeps_context_ready|done..]|intros ?].
  eapply triple_bind; [apply settings_exist|intros b]. apply triple_pure. intros ->.
  eapply triple_bind with (R := λ _ s, c = saved ∧ kept_settings s).
  { eapply triple_bind; [apply config_saved|intros current]. apply triple_pure. intros ->.
    apply triple_guard; [|done]. intros s H%bool_decide_eq_true Hs. done. }
  intros ?. apply triple_pure. intros ->.
  eapply triple_post with (Q := λ _, kept_settings) (X := kept_settings) (H := kept_settings);
    [|by intros; split|done..].
  apply keeps_bind; [by apply keeps_vm|intros found]. apply keeps_bind.
  - destruct found; [apply keeps_ret|]. apply keeps_bind; [by apply keeps_observed|intros ?].
    apply keeps_bind; [apply keeps_guard|intros ?].
    apply keeps_bind; [by apply create_dir_all_frame|intros ?].
    apply keeps_bind; [apply keeps_lift|intros ?].
    apply keeps_bind; [by apply atomic_write_frame|intros ?].
    apply keeps_bind; [by apply keeps_success|intros ?]. apply keeps_ret.
  - intros ?. apply keeps_bind; [by apply keeps_ensure_context|intros ?]. by apply keeps_inspect.
Qed.
End create.

(** ** A machine with a stopped VM *)

Definition sample_current : value :=
  match template no_files small_vm with Ok v => v | Err _ => Null end.
(** The template an earlier version saved: the same VM with no provisioning. *)
Definition sample_saved : value := set_index sample_current "provision" (Array []).
Definition sample_listing (s : string) : value :=
  object [("name", String (str "luhmen")); ("status", String (str s));
          ("dir", String (str "/h/lima/luhmen"))].

Definition sample_context : value :=
  object [("Endpoints", object [("docker", object [("Host", String (str "unix:///h/lima/luhmen/sock/docker.sock"))])]);
          ("Metadata", object [("Description", String CONTEXT_DESCRIPTION)])].

Definition sample_codec (vm_status : string) : codec := {|
  parse_config := λ _, Ok small_vm;
  print_config := λ _, Ok (str "settings");
  parse_value := λ d, if decide (d = str "saved") then Ok sample_saved
                      else if decide (d = str "current") then Ok sample_current
                      else if decide (d = str "other") then Ok (set_index sample_current "provision" (Array [Null]))
                      else Err "expected value";
  print_value := λ v, if decide (v = sample_saved) then Ok (str "saved")
                      else if decide (v = sample_current) then Ok (str "current")
                      else Err "not printed";
  parse_stream := λ _, [Ok (sample_listing vm_status)];
  parse_values := λ _, Ok [sample_context];
  print_report := λ _, Ok (str "report");
  parse_report := λ _, Err "no report"
|}.

Definition sample_machine (vm_status : string) (commands : nat → Command → result bytes) : machine :=
  Machine quiet_environment sample_process (str "/h") plain_host no_files (sample_codec vm_status)
    None None true commands (λ _, Ok 8%Z) (λ _ _, Ok (gigabytes 100)) (λ _, Ok ()) (λ _, [Pinged true])
    (λ _, 0%Z) (λ _, 0%Z) (λ _, str "7f").
Definition ordinary_commands (t : nat) (c : Command) : result bytes :=
  if decide (str "--version" ∈ arguments c) then Ok (str "limactl version 2.2.0")
  else if decide (str "-productVersion" ∈ arguments c) then Ok (str "15.6.1")
  else if decide (str "hw.memsize" ∈ arguments c) then Ok (str "68719476736")
  else if decide (str "ls" ∈ arguments c) then Ok (str "luhmen")
  else Ok [].

Definition sample_state (actual saved : string) : files :=
  let mine d := File (str d) (Meta 501 20 384) in
  <[str "/h" := Directory (Meta 501 20 448)]> (<[str "/h/owner" := File OWNER (Meta 501 20 384)]>
  (<[str "/h/config.json" := mine "settings"]> (<[str "/h/vm.yaml" := mine saved]>
  (<[str "/h/lima" := Directory (Meta 501 20 493)]> (<[str "/h/lima/luhmen" := Directory (Meta 501 20 493)]>
  (<[str "/h/lima/luhmen/lima.yaml" := mine actual]> ∅)))))).

Lemma sample_faithful s v d :
  print_value (sample_codec s) v = Ok d → parse_value (sample_codec s) d = Ok v.
Proof.
  simpl. case_decide as H1; [intros [= <-]; subst; by rewrite decide_True|].
  case_decide as H2; [intros [= <-]; subst|done].
  rewrite decide_False, decide_True by done. done.
Defined.

Lemma sample_layout s commands : layout (sample_machine s commands).
Proof.
  split; [| | | |intros t]; repeat split;
    first [eexists; vm_compute; reflexivity | apply (bool_decide_unpack _); vm_compute; reflexivity].
Defined.

(** A template an earlier version saved is replaced by the one with today's provisioning; a template
    that is neither is refused. *)
Lemma update_safe_witness :
  let R := sample_machine "Stopped" ordinary_commands in
  match update R (World 0 (sample_state "saved" "saved") []) with
  | (Ret r, w) => updated r = true ∧ ∃ actual baseline current,
      unedited R (str "saved") (str "saved") small_vm actual baseline current ∧
      holds_template R (actual_path R) (candidate_of baseline current) (fs w) ∧
      holds_template R (baseline_path R) (candidate_of baseline current) (fs w)
  | _ => False
  end ∧
  match update R (World 0 (sample_state "other" "saved") []) with
  | (Throw _, w) => templates R (File (str "other") (Meta 501 20 384)) (File (str "saved") (Meta 501 20 384)) (fs w)
  | _ => False
  end.
Proof.
  intros R.
  pose proof (λ da db, update_safe R (proj2 quiet_faultless) (sample_layout _ _) (sample_faithful _)
    da (Meta 501 20 384) db (Meta 501 20 384) (str "settings") (Meta 501 20 384) small_vm eq_refl) as H.
  split.
  - pose proof (proj1 (H (str "saved") (str "saved")) (World 0 (sample_state "saved" "saved") [])
      ltac:(split; [split|]; vm_compute; reflexivity)) as H1.
    destruct (update R _) as [o w] eqn:E.
    assert (o = Ret {| updated := true |}) as ->.
    { apply (f_equal fst) in E. vm_compute in E. symmetry. exact E. }
    destruct H1 as (a & v & c & ? & ? & ? & _). split; [reflexivity|]. exists a, v, c. auto.
  - assert (edited R (str "other") (str "saved") small_vm) as He.
    { exists (set_index sample_current "provision" (Array [Null])), sample_saved, sample_current.
      split_and!; [vm_compute; reflexivity..| | |].
      - exists (str "current"). split; vm_compute; reflexivity.
      - apply (bool_decide_unpack _). vm_compute. reflexivity.
      - apply (bool_decide_unpack _). vm_compute. reflexivity. }
    pose proof (proj2 (H (str "other") (str "saved")) He (World 0 (sample_state "other" "saved") [])
      ltac:(split; [split|]; vm_compute; reflexivity)) as H1.
    destruct (update R _) as [o w] eqn:E.
    destruct o as [r|e|]; [|exact H1|]; apply (f_equal fst) in E; vm_compute in E; discriminate E.
Defined.

Lemma create_immutable_witness :
  let R := sample_machine "Stopped" ordinary_commands in
  let K := under R "config.json" in
  match create R small_vm (World 0 (sample_state "saved" "saved") []) with
  | (Ret _, w) => fs w !! K = Some (File (str "settings") (Meta 501 20 384))
  | _ => False
  end.
Proof.
  intros R K.
  assert (settings_apart R) as Hapart.
  { repeat constructor; apply (bool_decide_unpack _); vm_compute; reflexivity. }
  pose proof (create_immutable R Hapart small_vm (str "settings") (Meta 501 20 384) eq_refl
    (λ t s H, H) (proj1 quiet_faultless) small_vm (World 0 (sample_state "saved" "saved") [])
    ltac:(vm_compute; reflexivity)) as H.
  destruct (create R _ _) as [o w] eqn:E.
  destruct o as [i| |]; [|apply (f_equal fst) in E; vm_compute in E; discriminate E..].
  exact (proj2 H).
Defined.
