(* ===== verification/RuntimeOrder.v ===== *)
(** * The order of commands

    Which commands a life-cycle operation starts, in which order, and what their
    answers were: a graceful stop asks for power-off only after Docker has
    stopped, and the VM is started only when it was reported stopped. *)

From S2P Require Import Prelude Text Fs Paths Config ConfigSpec Value VmTemplate Runtime RuntimeSpec.
From S2P Require Startup.

(** ** Programs and the commands they start *)

(** From its first to its last tick, [m] starts the commands [l] and ends with the outcome [o]. *)
Definition spec (A : Type) : Type := nat → nat → outcome A → list (list bytes) → Prop.
Definition does {A : Type} (m : M A) (Φ : spec A) : Prop := ∀ w,
  ∃ l, ran (m w).2 = ran w ++ l ∧ tick w <= tick (m w).2 ∧ Φ (tick w) (tick (m w).2) (m w).1 l.
Definition quiet {A : Type} (m : M A) : Prop := does m (λ _ _ _ l, l = []).

(** The failure of a step is that of the whole. *)
Definition fails_as {A B : Type} (o : outcome A) (o' : outcome B) : Prop :=
  match o, o' with
  | Throw e, Throw e' => e = e'
  | Halt, Halt => True
  | _, _ => False
  end.

Lemma does_weaken {A : Type} (m : M A) (Φ Ψ : spec A) :
  does m Φ → (∀ t0 t1 o l, t0 <= t1 → Φ t0 t1 o l → Ψ t0 t1 o l) → does m Ψ.
Proof. intros Hm HΦ w. destruct (Hm w) as (l & ? & ? & ?). exists l. auto. Qed.

Section rules.
Context {A B : Type}.

Lemma does_ret (a : A) (Φ : spec A) : (∀ t, Φ t t (Ret a) []) → does (mret a) Φ.
Proof. intros H w. exists []. simpl. rewrite app_nil_r. auto. Qed.
Lemma does_throw e (Φ : spec A) : (∀ t, Φ t t (Throw e) []) → does (throw e) Φ.
Proof. intros H w. exists []. simpl. rewrite app_nil_r. auto. Qed.

Lemma does_bind (m : M A) (f : A → M B) (Φ : spec A) (Ψ : spec B) :
  does m Φ →
  (∀ a t0 t1 l1, t0 <= t1 → Φ t0 t1 (Ret a) l1 →
     does (f a) (λ u0 u1 o l2, t1 = u0 → Ψ t0 u1 o (l1 ++ l2))) →
  (∀ t0 t1 o o' l, t0 <= t1 → Φ t0 t1 o l → fails_as o o' → Ψ t0 t1 o' l) →
  does (m ≫= f) Ψ.
Proof.
  intros Hm Hf Hfail w. destruct (Hm w) as (l1 & E1 & Ht & H1).
  unfold mbind, M_bind. destruct (m w) as [[a|e|] w1]; simpl in *.
  - destruct (Hf a _ _ _ Ht H1 w1) as (l2 & E2 & Ht' & H2).
    exists (l1 ++ l2). rewrite E2, E1, app_assoc. split_and!; [done|lia|auto].
  - exists l1. split_and!; [done..|]. by eapply Hfail.
  - exists l1. split_and!; [done..|]. by eapply Hfail.
Qed.

Lemma does_ret_bind (a : A) (f : A → M B) (Ψ : spec B) : does (f a) Ψ → does (mret a ≫= f) Ψ.
Proof. done. Qed.
Lemma does_throw_bind e (f : A → M B) (Ψ : spec B) : does (throw e) Ψ → does (throw e ≫= f) Ψ.
Proof. done. Qed.

Lemma quiet_bind (m : M A) (f : A → M B) : quiet m → (∀ a, quiet (f a)) → quiet (m ≫= f).
Proof.
  intros Hm Hf. eapply does_bind; [exact Hm| |by intros].
  intros a t0 t1 l1 _ ->. eapply does_weaken; [apply Hf|]. by intros.
Qed.

(** A quiet step. *)
Lemma does_after (m : M A) (f : A → M B) (Ψ : spec B) :
  quiet m → (∀ a, does (f a) (λ u0 u1 o l, ∀ t0, t0 <= u0 → Ψ t0 u1 o l)) →
  (∀ t0 t1 o' (_ : match o' with Ret _ => False | _ => True end), Ψ t0 t1 o' []) →
  does (m ≫= f) Ψ.
Proof.
  intros Hm Hf Hfail. eapply does_bind; [exact Hm| |].
  - intros a t0 t1 l1 Ht ->. eapply does_weaken; [apply Hf|]. simpl. intros u0 u1 o l ? H ->. auto.
  - intros t0 t1 o o' l _ -> Ho. apply Hfail. by destruct o, o'.
Qed.

Lemma quiet_attempt (m : M A) : quiet m → quiet (attempt m).
Proof. intros Hm w. destruct (Hm w) as (l & H). exists l. unfold attempt. by destruct (m w) as [[] ?]. Qed.

Lemma does_attempt (m : M A) (Φ : spec A) (Ψ : spec (result A)) :
  does m Φ →
  (∀ t0 t1 a l, t0 <= t1 → Φ t0 t1 (Ret a) l → Ψ t0 t1 (Ret (Ok a)) l) →
  (∀ t0 t1 e l, t0 <= t1 → Φ t0 t1 (Throw e) l → Ψ t0 t1 (Ret (Err e)) l) →
  (∀ t0 t1 l, t0 <= t1 → Φ t0 t1 Halt l → Ψ t0 t1 Halt l) →
  does (attempt m) Ψ.
Proof.
  intros Hm H1 H2 H3 w. destruct (Hm w) as (l & ? & ? & ?). exists l. unfold attempt.
  destruct (m w) as [[] ?]; simpl in *; auto.
Qed.
End rules.

Lemma quiet_ret {A : Type} (a : A) : quiet (mret a).
Proof. by apply does_ret. Qed.
Lemma quiet_throw {A : Type} e : quiet (@throw A e).
Proof. by apply does_throw. Qed.
Lemma quiet_lift {A : Type} (r : result A) : quiet (lift r).
Proof. destruct r; [apply quiet_ret|apply quiet_throw]. Qed.
Lemma quiet_guard b e : quiet (guard b e).
Proof. destruct b; [apply quiet_ret|apply quiet_throw]. Qed.
Lemma quiet_call {A : Type} E partial (f : files → result A * files) : quiet (call E partial f).
Proof.
  intros w. exists []. unfold call. rewrite app_nil_r.
  destruct (fate_at E (tick w)); [destruct (f _) as [[] ?]|..]; simpl; split_and!; auto; lia.
Qed.
Lemma quiet_query {A : Type} E (f : files → result A) : quiet (query E f).
Proof. apply quiet_call. Qed.
Lemma quiet_clock {A : Type} (o : nat → A) : quiet (Startup.observe o).
Proof. intros w. exists []. simpl. rewrite app_nil_r. auto. Qed.
Lemma quiet_observe {A : Type} R (o : nat → result A) : quiet (Runtime.observe R o).
Proof.
  intros w. destruct (quiet_query R (λ _ : files, o (tick w)) w) as (l & H). by exists l.
Qed.

Create HintDb quiet.
#[export] Hint Resolve quiet_ret quiet_throw quiet_lift quiet_guard quiet_call quiet_query quiet_clock
  quiet_observe : quiet.
Ltac quiet := repeat first
  [ match goal with |- quiet (_ ≫= _) => apply quiet_bind; [|intros ?] end
  | match goal with |- quiet (attempt _) => apply quiet_attempt end
  | match goal with |- quiet (match ?x with _ => _ end) => destruct x end
  | solve [auto with quiet] ].

(** ** The commands of the life cycle *)

Section commands.
Context (R : machine).

Definition line (c : Command) : list bytes := program c :: arguments c.
Definition version_line : list bytes := line (lima R [str "--version"]).
Definition list_command : Command := lima R [str "list"; str NAME; str "--format=json"].
Definition list_line : list bytes := line list_command.
Definition shutdown_line : list bytes := line (lima R shutdown_arguments).
Definition stop_line (force : bool) : list bytes := line (lima R (stop_arguments force)).
Definition start_line : list bytes := line (lima R start_arguments).

(** A command of the operation succeeded, with this output. *)
Definition answered (t0 t1 : nat) (c : Command) (out : bytes) : Prop :=
  ∃ t, t0 <= t < t1 ∧ answer R t c = Ok out.
(** Lima listed the VM, with this status. *)
Definition reported (t0 t1 : nat) (s : string) : Prop :=
  ∃ out x, answered t0 t1 list_command out ∧ parse_stream (serde R) out = [Ok x] ∧
    status (summary x) = Some (str s).
(** Lima listed no VM. *)
Definition not_listed (t0 t1 : nat) : Prop :=
  ∃ out, answered t0 t1 list_command out ∧ parse_stream (serde R) out = [].

Lemma answered_mono t0 t1 u0 u1 c out : u0 <= t0 → t1 <= u1 → answered t0 t1 c out → answered u0 u1 c out.
Proof. intros ?? (t & ? & ?). exists t. split; [lia|done]. Qed.
Lemma reported_mono t0 t1 u0 u1 s : u0 <= t0 → t1 <= u1 → reported t0 t1 s → reported u0 u1 s.
Proof. intros ?? (out & x & Ha & H). exists out, x. split; [by eapply answered_mono|done]. Qed.
Lemma not_listed_mono t0 t1 u0 u1 : u0 <= t0 → t1 <= u1 → not_listed t0 t1 → not_listed u0 u1.
Proof. intros ?? (out & Ha & H). exists out. split; [by eapply answered_mono|done]. Qed.

Lemma does_success c :
  does (success R c) (λ t0 t1 o l, l = [line c] ∧ ∀ out, o = Ret out → answered t0 t1 c out).
Proof.
  intros w. exists [line c]. unfold success, starting, Runtime.observe, query, call.
  unfold mbind, M_bind. simpl. destruct (fate_at R (tick w)); [destruct (answer R (tick w) c) eqn:E|..];
    simpl; (split; [done|split; [lia|split; [done|]]]); try done.
  intros out [= ->]. exists (tick w). split; [lia|done].
Qed.

(** The lines are told apart by what follows the program. *)
Definition verb (l : list bytes) : option bytes := head (tail l).
Definition harmless (l : list (list bytes)) : Prop :=
  Forall (λ x, verb x ≠ Some (str "stop") ∧ verb x ≠ Some (str "start")) l.

Lemma quiet_check_state_paths : quiet (check_state_paths R).
Proof. unfold check_state_paths, check_directory, check_socket, lookup_node. quiet. Qed.

Lemma does_check_lima :
  does (check_lima R) (λ _ _ o l, (l = [] ∨ l = [version_line]) ∧ (o = Ret () → l = [version_line])).
Proof.
  unfold check_lima. apply does_after; [apply quiet_check_state_paths|intros ?|].
  - eapply does_bind; [apply does_success| |].
    + intros out t0 t1 l _ [-> _]. eapply does_weaken; [apply quiet_guard|].
      intros u0 u1 o l' _ -> *. by split; [right|].
    + intros t0 t1 o o' l _ [-> _] H *. split; [by right|done].
  - intros t0 t1 [] H; [done|by split; [left|]..].
Qed.

Definition vm_spec : spec (option value) := λ t0 t1 o l,
  (l = [] ∨ l = [list_line]) ∧
  ∀ r, o = Ret r → match r with
    | None => l = [] ∨ l = [list_line] ∧ not_listed t0 t1
    | Some v => l = [list_line] ∧ ∀ s, status v = Some (str s) → reported t0 t1 s
    end.

Lemma does_vm : does (vm R) vm_spec.
Proof.
  unfold vm. apply does_after.
  { unfold exists_, lookup_node. quiet. }
  - intros present. destruct present; simpl.
    2: { apply does_ret. intros t t0 _. split; [by left|]. intros r [= <-]. by left. }
    eapply does_bind; [apply does_success| |].
    + intros out t0 t1 l Ht [-> Hout]. specialize (Hout out eq_refl).
      destruct (parse_stream (serde R) out) as [|x rest] eqn:Eparse.
      { apply does_ret. intros t -> u0 Hu. split; [by right|]. intros r [= <-]. right. split; [done|].
        exists out. split; [eapply answered_mono; [| |done]; lia|done]. }
      apply (does_weaken _ (λ u0 u1 o l, l = [] ∧ ∀ v, o = Ret v → ∃ x, parse_stream (serde R) out = [Ok x] ∧ v = Some (summary x))).
      * intros w. set (m := lift x ≫= _). assert (quiet m) as Hq by (unfold m; quiet).
        destruct (Hq w) as (l & ? & ? & ->). exists []. split_and!; [done..|].
        intros v Hv. destruct (m w) as [o w'] eqn:Em. simpl in Hv. subst o.
        unfold m in Em. apply bind_Ret in Em as (v1 & w1 & [-> ->]%lift_Ret & Em).
        apply bind_Ret in Em as (? & w2 & [E1%bool_decide_eq_true ->]%guard_Ret & Em).
        apply bind_Ret in Em as (? & w3 & [_ ->]%guard_Ret & Em).
        apply bind_Ret in Em as (? & w4 & [_ ->]%lift_Ret & Em).
        apply bind_Ret in Em as (? & w5 & [_ ->]%guard_Ret & Em).
        injection Em as <- _. exists v1. by rewrite Eparse, E1.
      * intros u0 u1 o l Hu [-> Hr] -> v0 Hv. split; [by right|].
        intros r ->. destruct (Hr r eq_refl) as (y & Hy & ->). split; [done|].
        intros s Hs. exists out, y. split; [eapply answered_mono; [| |done]; lia|done].
    + intros t0 t1 o o' l _ [-> _] H t2 _. split; [by right|]. intros r ->. by destruct o.
  - intros t0 t1 o' H. split; [by left|]. intros r ->. done.
Qed.

(** ** Stopping *)

Definition stop_script (force : bool) : list (list bytes) :=
  [version_line; list_line] ++ (if force then [] else [shutdown_line]) ++ [stop_line force; list_line].

(** What a stop has done by the end of a step: the commands so far are the script's, power-off
    only after Docker's shutdown has succeeded, and at the end the VM is down. *)
Definition stop_spec (force : bool) : spec unit := λ t0 t1 o l,
  l `prefix_of` stop_script force ∧
  (stop_line force ∈ l → force = true ∨ ∃ out, answered t0 t1 (lima R shutdown_arguments) out) ∧
  (o = Ret () → reported t0 t1 "Stopped" ∨ not_listed t0 t1 ∨ l = [version_line]).

Lemma not_stop_line force : stop_line force ≠ version_line ∧ stop_line force ≠ list_line ∧
  stop_line force ≠ shutdown_line.
Proof. split_and!; destruct force; unfold stop_line, version_line, list_line, shutdown_line, line;
  simpl; intros [=]. Qed.

(** Before the power-off. *)
Lemma stop_spec_early force t0 t1 o l :
  l = [] ∨ l = [version_line] ∨ l = [version_line; list_line] ∨
    l = [version_line; list_line; shutdown_line] ∧ force = false →
  (o = Ret () → reported t0 t1 "Stopped" ∨ not_listed t0 t1 ∨ l = [version_line]) →
  stop_spec force t0 t1 o l.
Proof.
  intros Hl Ho. destruct (not_stop_line force) as (H1 & H2 & H3). unfold stop_spec. split_and!; [| |done].
  - destruct Hl as [->|[->|[->|[-> ->]]]]; by eexists.
  - intros Hin. exfalso. destruct Hl as [->|[->|[->|[-> _]]]];
      rewrite ?elem_of_cons, ?elem_of_nil in Hin; intuition.
Qed.

(** After the power-off: what preceded it is complete. *)
Lemma stop_spec_late force t0 b0 b1 t1 o l :
  t0 <= b0 <= b1 → b1 <= t1 →
  (force = true ∨ ∃ out, answered b0 b1 (lima R shutdown_arguments) out) →
  l = [stop_line force] ∨ l = [stop_line force; list_line] →
  (o = Ret () → reported t0 t1 "Stopped") →
  stop_spec force t0 t1 o ([version_line; list_line] ++ (if force then [] else [shutdown_line]) ++ l).
Proof.
  intros [H1 H2] H3 Hshut Hl Ho. unfold stop_spec, stop_script. split_and!; [| |by auto].
  - do 2 apply prefix_cons. apply prefix_app. destruct Hl as [->| ->]; [by exists [list_line]|done].
  - intros _. destruct Hshut as [|[out Hout]]; [by left|right]. exists out.
    eapply answered_mono; [| |exact Hout]; lia.
Qed.

(** From the power-off on. *)
Lemma does_power_off force t0 :
  does (_ ← success R (lima R (stop_arguments force));
        found ← vm R;
        v ← lift (ok_or found "VM disappeared while stopping");
        guard (bool_decide (status v = Some (str "Stopped"))) "Lima did not report a stopped VM")
    (λ u0 u1 o l, (l = [stop_line force] ∨ l = [stop_line force; list_line]) ∧
       (t0 <= u0 → o = Ret () → reported t0 u1 "Stopped")).
Proof.
  eapply does_bind; [apply does_success| |].
  - intros out a0 a1 l Ha [-> _]. eapply does_bind; [apply does_vm| |].
    + intros found b0 b1 l Hb [Hl Hf]. specialize (Hf found eq_refl).
      assert ([stop_line force] ++ l = [stop_line force] ∨
              [stop_line force] ++ l = [stop_line force; list_line]) as Hline
        by (destruct Hl as [->| ->]; [left|right]; done).
      destruct found as [v|]; simpl.
      * destruct Hf as [-> Hs]. unfold mbind, M_bind, guard. simpl.
        case_bool_decide as Hstop; [apply does_ret|apply does_throw]; intros t <- <-; (split; [by right|]); [|done].
        intros H0 _. eapply reported_mono; [| |by apply Hs]; lia.
      * apply (does_throw (A := unit)). intros t <- <-. split; [by rewrite app_nil_r|done].
    + intros b0 b1 o o' l Hb [Hl _] Hfail <-. split; [destruct Hl as [->| ->]; [by left|by right]|].
      intros _ ->. by destruct o.
  - intros a0 a1 o o' l Ha [-> _] Hfail. split; [by left|]. intros _ ->. by destruct o.
Qed.

(** C3. A stop runs its commands in the order of its script and stops at the first that fails.
    Without [--force], power-off is requested only after the guest has reported that Docker
    stopped. When it succeeds, Lima has reported the VM stopped, or there is none. *)
Theorem stop_order force : does (stop_locked R force) (stop_spec force).
Proof.
  unfold stop_locked. eapply does_bind; [apply does_check_lima| |].
  2: { intros t0 t1 o o' l _ [Hl _] Hfail. apply stop_spec_early; [tauto|]. intros ->. by destruct o. }
  intros [] t0 t1 l1 Ht1 [_ Hl1]. rewrite (Hl1 eq_refl). clear Hl1.
  eapply does_bind; [apply does_vm| |].
  2: { intros u0 u1 o o' l _ [Hl _] Hfail <-. apply stop_spec_early; [|intros ->; by destruct o].
       destruct Hl as [->| ->]; auto. }
  intros found u0 u1 l2 Hu [_ Hfound]. specialize (Hfound found eq_refl). destruct found as [v|].
  2: { apply does_ret. intros t <- <-. apply stop_spec_early.
       - destruct Hfound as [->|[-> _]]; auto.
       - intros _. destruct Hfound as [->|[-> Hn]]; [auto|].
         right. left. eapply not_listed_mono; [| |exact Hn]; lia. }
  destruct Hfound as [-> Hs]. cbv zeta. case_decide as Estopped.
  { apply does_ret. intros t <- <-. apply stop_spec_early; [auto|]. intros _. left.
    eapply reported_mono; [| |apply Hs; destruct (status v); [by f_equal|discriminate Estopped]]; lia. }
  eapply does_bind; [apply quiet_guard| |].
  2: { intros a0 a1 o o' l _ -> Hfail <- <-. apply stop_spec_early; [auto|]. intros ->. by destruct o. }
  intros [] a0 a1 l Ha ->. simpl.
  eapply does_bind with (Φ := λ b0 b1 o l, (l = [] ∧ force = true) ∨ (l = [shutdown_line] ∧ force = false ∧
    (o = Ret () → ∃ out, answered b0 b1 (lima R shutdown_arguments) out))).
  - destruct force; simpl; [apply does_ret; auto|].
    eapply does_bind; [apply does_success| |].
    + intros out b0 b1 l Hb [-> Hout]. apply does_ret. intros t <-. right. split_and!; eauto.
    + intros b0 b1 o o' l _ [-> _] Hfail. right. split_and!; [done..|]. intros ->. by destruct o.
  - intros [] b0 b1 l Hb Hl. eapply does_weaken; [apply (does_power_off force t0)|].
    intros c0 c1 o l' Hc Hl' <- <- <- <-.
    pose proof (stop_spec_late force t0 a1 b1 c1 o l' ltac:(lia) ltac:(lia)) as Hlast.
    destruct Hl' as [Hl' Ho]. specialize (Ho ltac:(lia)).
    destruct Hl as [[-> E]|[-> [E Hshut]]]; rewrite E in *; by apply Hlast; auto.
  - intros b0 b1 o o' l Hb Hl Hfail <- <- <-. apply stop_spec_early; [|intros ->; by destruct o].
    destruct Hl as [[-> _]|[-> [E _]]]; [auto|]. right. right. right. done.
Qed.

(** ** Starting *)

Lemma quiet_checkpoint t : quiet (Startup.checkpoint R (me R) (print_report (serde R)) t).
Proof.
  unfold Startup.checkpoint, atomic_write, create_new, write_all, sync_all, rename, sync_directory, remove_file.
  cbv zeta. quiet.
Qed.
Hint Resolve quiet_checkpoint : quiet.
Lemma quiet_new s n : quiet (Startup.new R (me R) (clock R) (unix_ms R) (print_report (serde R)) s n).
Proof. unfold Startup.new. quiet. Qed.
Lemma quiet_skip t n : quiet (Startup.skip R (me R) (print_report (serde R)) t n).
Proof. unfold Startup.skip. cbv zeta. quiet. Qed.
Lemma quiet_complete t : quiet (Startup.complete R (me R) (clock R) (print_report (serde R)) t).
Proof. unfold Startup.complete, Startup.millis. cbv zeta. quiet. Qed.

(** A stage does what its operation does, unless the process dies before it. *)
Definition stage_spec {A : Type} (Φ : spec A) : spec (Startup.Trace * A) := λ t0 t1 o l,
  (l = [] ∧ ∀ x, o ≠ Ret x) ∨
  ∃ u0 u1 o', t0 <= u0 <= u1 ∧ u1 <= t1 ∧ Φ u0 u1 o' l ∧ ∀ t a, o = Ret (t, a) → o' = Ret a.

Lemma does_stage {A : Type} t name (op : M A) Φ : does op Φ → does (stage R t name op) (stage_spec Φ).
Proof.
  intros Hop. unfold stage, Startup.stage. cbv zeta.
  eapply does_bind with (Φ := λ t0 t1 o l, (l = [] ∧ ∀ x, o ≠ Ret x) ∨
    ∃ u0 u1 o', t0 <= u0 <= u1 ∧ u1 <= t1 ∧ Φ u0 u1 o' l ∧
      ∀ t r, o = Ret (t, r) → match r with Ok a => o' = Ret a | Err e => o' = Throw e end).
  - apply does_after; [apply quiet_checkpoint|intros ?|by left; split; [|intros ? ->]].
    apply does_after; [apply quiet_clock|intros ?|by left; split; [|intros ? ->]].
    eapply does_bind with (Φ := λ t0 t1 o l, ∃ o', Φ t0 t1 o' l ∧
      ∀ r, o = Ret r → match r with Ok a => o' = Ret a | Err e => o' = Throw e end).
    + eapply does_attempt; [exact Hop|..]; intros; eexists; (split; [eassumption|by intros ? [=]; subst]).
    + intros r t0 t1 l Ht (o' & HΦ & Ho'). specialize (Ho' r eq_refl).
      eapply does_weaken with (Φ := λ _ _ o l, l = [] ∧ ∀ t r', o = Ret (t, r') → r' = r).
      * eapply does_after; [apply quiet_clock|intros ?|by split; [|intros ?? ->]].
        eapply does_after; [apply quiet_clock|intros ?|by split; [|intros ?? ->]].
        eapply does_after; [apply quiet_checkpoint|intros ?|by split; [|intros ?? ->]].
        apply does_ret. intros. split; [done|]. by intros ?? [= _ <-].
      * intros u0 u1 o l' Hu [-> Hr] <- v0 Hv w0 Hw. right. exists t0, t1, o'. rewrite app_nil_r.
        split_and!; [lia..|done|]. intros t' r' ->. by rewrite (Hr t' r' eq_refl).
    + intros t0 t1 o o' l Ht (o'' & HΦ & Ho'') Hfail v0 Hv w0 Hw. right. exists t0, t1, o''.
      split_and!; [lia..|done|]. intros t' r' ->. by destruct o.
  - intros [t' r] t0 t1 l Ht [[_ H]|(u0 & u1 & o' & H1 & H2 & H3 & H4)]; [by destruct (H (t', r))|].
    specialize (H4 t' r eq_refl). destruct r as [a|e]; simpl.
    + apply does_ret. intros t2 <-. right. rewrite app_nil_r. exists u0, u1, o'. split_and!; [lia..|done|].
      by intros ?? [= <- <-].
    + apply does_throw. intros t2 <-. right. rewrite app_nil_r. exists u0, u1, o'.
      by split_and!; [lia..|done|].
  - intros t0 t1 o o' l Ht [[-> _]|(u0 & u1 & o2 & H1 & H2 & H3 & _)] Hfail.
    + left. split; [done|]. intros x ->. by destruct o.
    + right. exists u0, u1, o2. split_and!; [lia..|done|]. intros ?? ->. by destruct o.
Qed.

(** Programs that neither stop nor start the VM. *)
Definition gentle {A : Type} (m : M A) : Prop := does m (λ _ _ _ l, harmless l).

Lemma gentle_quiet {A : Type} (m : M A) : quiet m → gentle m.
Proof. intros Hm. eapply does_weaken; [exact Hm|]. intros ???? _ ->. constructor. Qed.
Lemma gentle_bind {A B : Type} (m : M A) (f : A → M B) : gentle m → (∀ a, gentle (f a)) → gentle (m ≫= f).
Proof.
  intros Hm Hf. eapply does_bind; [exact Hm| |by intros].
  intros a t0 t1 l1 _ H1. eapply does_weaken; [apply Hf|]. intros u0 u1 o l _ H2 _.
  by apply Forall_app.
Qed.
Lemma gentle_success c :
  verb (line c) ≠ Some (str "stop") → verb (line c) ≠ Some (str "start") → gentle (success R c).
Proof. intros H1 H2. eapply does_weaken; [apply does_success|]. intros ???? _ [-> _]. by repeat constructor. Qed.
Lemma gentle_match {B : Type} (b : bool) (m m' : M B) : gentle m → gentle m' → gentle (if b then m else m').
Proof. by destruct b. Qed.

Ltac gentle := repeat first
  [ match goal with |- gentle (_ ≫= _) => apply gentle_bind; [|intros ?] end
  | match goal with |- gentle (success _ _) => apply gentle_success; [done..] end
  | match goal with |- gentle (match ?x with _ => _ end) => destruct x end
  | solve [apply gentle_quiet; quiet] ].

Lemma gentle_check_lima : gentle (check_lima R).
Proof.
  unfold check_lima. gentle. apply gentle_quiet, quiet_check_state_paths.
Qed.
Lemma quiet_config : quiet (config R).
Proof. unfold config, fs_read. quiet. Qed.
Lemma gentle_check_resources c : gentle (check_resources R c).
Proof. unfold check_resources, tool. gentle. Qed.
Lemma gentle_context_ready : gentle (context_ready R).
Proof. unfold context_ready, context_exists. gentle. Qed.
Lemma gentle_ensure_context : gentle (ensure_context R).
Proof.
  unfold ensure_context. apply gentle_bind; [apply gentle_context_ready|intros []]; gentle.
  apply gentle_context_ready.
Qed.

(** What the preflight of a start establishes. *)
Definition preflight_spec : spec bool := λ t0 t1 o l,
  harmless l ∧ ∀ running, o = Ret running → reported t0 t1 (if running then "Running" else "Stopped").

Lemma does_gentle_after {A B : Type} (m : M A) (f : A → M B) (Φ : nat → nat → outcome B → Prop) :
  gentle m → (∀ t0 u0 t1 o, t0 <= u0 → Φ u0 t1 o → Φ t0 t1 o) →
  (∀ t0 t1 o', match o' with Ret _ => False | _ => True end → Φ t0 t1 o') →
  (∀ a, does (f a) (λ t0 t1 o l, harmless l ∧ Φ t0 t1 o)) →
  does (m ≫= f) (λ t0 t1 o l, harmless l ∧ Φ t0 t1 o).
Proof.
  intros Hm Hmono Hfail Hf. eapply does_bind; [exact Hm| |].
  - intros a t0 t1 l1 Ht H1. eapply does_weaken; [apply Hf|]. intros u0 u1 o l _ [H2 H3] <-.
    split; [by apply Forall_app|]. by eapply Hmono.
  - intros t0 t1 o o' l _ H Ho. split; [done|]. apply Hfail. by destruct o, o'.
Qed.

Lemma harmless_list : harmless [list_line].
Proof. by repeat constructor. Qed.

Lemma does_preflight restart : does (start_preflight R restart) preflight_spec.
Proof.
  unfold start_preflight, preflight_spec.
  do 5 (apply does_gentle_after;
    [first [apply gentle_check_lima|apply gentle_quiet, quiet_config|apply gentle_check_resources
           |apply gentle_ensure_context|gentle]
    |intros t0 u0 t1 o Ht H r Hr; eapply reported_mono; [| |by apply H]; lia
    |by intros t0 t1 o Ho r ->|intros ?]).
  eapply does_bind; [apply does_vm| |].
  2: { intros t0 t1 o o' l _ [Hl _] Ho. split; [|by intros r ->; destruct o].
       destruct Hl as [->| ->]; [constructor|apply harmless_list]. }
  intros found t0 t1 l Ht [_ Hfound]. specialize (Hfound found eq_refl).
  destruct found as [v|]; simpl.
  2: { apply (does_throw (A := bool)). intros t <-. split; [|done]. rewrite app_nil_r.
       destruct Hfound as [->|[-> _]]; [constructor|apply harmless_list]. }
  destruct Hfound as [-> Hs].
  eapply does_weaken with (Φ := λ _ _ o l, l = [] ∧
    ∀ running, o = Ret running → status v = Some (if running : bool then str "Running" else str "Stopped")).
  2: { intros u0 u1 o l Hu [-> Ho] <-. split; [apply harmless_list|]. intros r ->.
       specialize (Ho r eq_refl). eapply reported_mono; [| |apply Hs; by destruct r]; lia. }
  apply does_ret_bind.
  case_decide as E1; [|case_decide as E2]; [apply does_ret_bind..|apply does_throw_bind].
  - apply does_after; [quiet|intros ?; apply does_ret|intros ??? H].
    + intros t t2 _. split; [done|]. by intros r [= <-].
    + split; [done|]. by intros r ->.
  - apply does_after; [quiet|intros ?; apply does_ret|intros ??? H].
    + intros t t2 _. split; [done|]. by intros r [= <-].
    + split; [done|]. by intros r ->.
  - apply does_throw. intros t. split; [done|]. by intros r.
Qed.

(** A stop that went this far within the window. *)
Definition stopped_by (t0 t1 : nat) (r : outcome unit) (l : list (list bytes)) : Prop :=
  ∃ u0 u1, t0 <= u0 <= u1 ∧ u1 <= t1 ∧ stop_spec false u0 u1 r l.
Definition engine_answered : Prop := ∃ t, engine_wait (engine_events R t) = Ok ().

(** What a start or restart has done: some commands that leave the VM as it is, then those of a
    graceful stop, if it restarts a running VM, then the start command, if the VM was reported
    stopped or that stop succeeded. *)
Definition start_spec (restart : bool) : spec unit := λ t0 t1 o l,
  ∃ before stops starts, l = before ++ stops ++ starts ∧ harmless before ∧
    (stops = [] ∨ restart = true ∧ reported t0 t1 "Running" ∧ ∃ r, stopped_by t0 t1 r stops) ∧
    (starts = [] ∨ starts = [start_line] ∧
       (reported t0 t1 "Stopped" ∨ stopped_by t0 t1 (Ret ()) stops)) ∧
    (o = Ret () → engine_answered ∧
       (starts = [start_line] ∨ restart = false ∧ reported t0 t1 "Running")).

Lemma stopped_by_mono t0 t1 u0 u1 r l : u0 <= t0 → t1 <= u1 → stopped_by t0 t1 r l → stopped_by u0 u1 r l.
Proof. intros ?? (v0 & v1 & ? & ? & H). exists v0, v1. split_and!; [lia..|done]. Qed.

Lemma does_engine t :
  does ('(trace, _) ← stage R t "engine_socket_ready" (wait_for_engine R);
        _ ← Startup.complete R (me R) (clock R) (print_report (serde R)) trace; mret ())
    (λ _ _ o l, l = [] ∧ (o = Ret () → engine_answered)).
Proof.
  eapply does_bind; [apply (does_stage _ _ _ (λ _ _ o l, l = [] ∧ (o = Ret () → engine_answered)))|..].
  - intros w. unfold wait_for_engine. destruct (quiet_observe R (λ t, engine_wait (engine_events R t)) w)
      as (l & H1 & H2 & ->). exists []. split_and!; [done..|]. intros Ho.
    unfold Runtime.observe, query, call in Ho. destruct (fate_at R (tick w)); [|done..].
    destruct (engine_wait (engine_events R (tick w))) as [[]|] eqn:E; [by exists (tick w)|done].
  - intros [t' []] t0 t1 l _ [[_ H]|(u0 & u1 & o' & _ & _ & [-> He] & Ho')]; [by destruct (H (t', ()))|].
    eapply does_weaken with (Φ := λ _ _ _ l, l = []).
    + apply quiet_bind; [apply quiet_complete|intros ?; apply quiet_ret].
    + intros ?? o l _ -> _. split; [done|]. intros _. apply He. by eapply Ho'.
  - intros t0 t1 o o' l _ Hl Hfail. split; [by destruct Hl as [[-> _]|(? & ? & ? & _ & _ & [-> _] & _)]|].
    intros ->. by destruct o.
Qed.

(** The start command and what follows it. *)
Lemma does_begin (b : bool) trace :
  does (trace ← (if b then
          '(trace, _) ← stage R trace "lima_start" (_ ← success R (lima R start_arguments); mret ());
          mret trace
        else Startup.skip R (me R) (print_report (serde R)) trace "lima_start");
        '(trace, _) ← stage R trace "engine_socket_ready" (wait_for_engine R);
        _ ← Startup.complete R (me R) (clock R) (print_report (serde R)) trace; mret ())
    (λ _ _ o l, (l = [] ∨ b = true ∧ l = [start_line]) ∧
       (o = Ret () → engine_answered ∧ (b = true → l = [start_line]))).
Proof.
  eapply does_bind with (Φ := λ _ _ o l, (l = [] ∨ b = true ∧ l = [start_line]) ∧
    ∀ t, o = Ret t → b = true → l = [start_line]).
  - destruct b; [|eapply does_weaken; [apply quiet_skip|]].
    2: { intros ???? _ ->. split; [by left|done]. }
    eapply does_bind; [apply (does_stage _ _ _ (λ _ _ _ l, l = [start_line]))|..].
    + eapply does_bind; [apply does_success| |by intros ????? _ [-> _]].
      intros out t0 t1 l _ [-> _]. by apply does_ret.
    + intros [t' []] t0 t1 l _ [[_ H]|(u0 & u1 & o' & _ & _ & -> & Ho')]; [by destruct (H (t', ()))|].
      apply does_ret. intros t _. split; [by right|done].
    + intros t0 t1 o o' l _ [[-> _]|(u0 & u1 & o2 & _ & _ & -> & _)] Hfail; (split; [auto|]);
        intros t ->; by destruct o.
  - intros t t0 t1 l _ [Hl Hb]. eapply does_weaken; [apply does_engine|].
    intros u0 u1 o l' _ [-> He] _. rewrite app_nil_r. split; [done|]. intros Ho. split; eauto.
  - intros t0 t1 o o' l _ [Hl _] Hfail. split; [done|]. intros ->. by destruct o.
Qed.

(** C22. A start or restart starts the VM only if Lima reported it stopped or, for a restart, a
    graceful stop has just succeeded, with Docker shut down before the power-off; it stops nothing
    but a running VM it was told to restart. When it succeeds, Docker's engine has answered, and the
    VM has been started unless it was running already. *)
Theorem start_order restart : does (start_locked R restart) (start_spec restart).
Proof.
  unfold start_locked. apply does_after.
  { apply quiet_new. }
  2: { intros t0 t1 o' H. exists [], [], []. split_and!; auto; [constructor|by intros ->]. }
  intros trace. eapply does_bind; [apply does_stage, does_preflight|..].
  2: { intros t0 t1 o o' l Ht Hl Hfail v0 Hv. exists l, [], []. rewrite !app_nil_r.
       split_and!; auto; [|by intros ->; destruct o].
       destruct Hl as [[-> _]|(? & ? & ? & _ & _ & [H _] & _)]; [constructor|done]. }
  intros [t' running] t0 t1 l1 Ht [[_ H]|(u0 & u1 & o1 & Hu & Hu1 & [Hl1 Hrun] & Ho1)];
    [by destruct (H (t', running))|].
  specialize (Hrun running (Ho1 _ _ eq_refl)). clear Ho1 o1.
  assert (∀ v0 v1, v0 <= t0 → t1 <= v1 → reported v0 v1 (if running then "Running" else "Stopped")) as Hrep
    by (intros; eapply reported_mono; [| |exact Hrun]; lia).
  eapply does_bind with (Φ := λ v0 v1 o l, l = [] ∧ (restart && running = false ∨ ∀ x, o ≠ Ret x) ∨
    restart = true ∧ running = true ∧ ∃ r, stopped_by v0 v1 r l ∧ ∀ x, o = Ret x → r = Ret ()).
  - destruct (restart && running) eqn:E; [|by apply does_ret; auto].
    apply andb_true_iff in E as [-> ->]. eapply does_weaken; [apply does_stage, stop_order|].
    intros v0 v1 o l Hv [[-> H]|(w0 & w1 & o' & H1 & H2 & H3 & H4)]; [by left; auto|right].
    split_and!; [done..|]. exists o'. split; [by exists w0, w1|]. intros [t2 []] ->. by eapply H4.
  - intros [t2 []] v0 v1 l2 Hv Hstop. eapply does_weaken; [apply does_begin|].
    intros w0 w1 o l3 Hw [Hl3 Ho] <- <- x0 Hx. exists l1, l2, l3. split_and!; [done..| | |].
    + destruct Hstop as [[-> _]|(-> & -> & r & Hr & _)]; [by left|right]. split_and!; [done|apply Hrep; lia|].
      exists r. eapply stopped_by_mono; [| |exact Hr]; lia.
    + destruct Hl3 as [->|[Hb ->]]; [by left|right]. split; [done|].
      destruct Hstop as [[-> [E|H]]|(-> & -> & r & Hr & Hret)]; [|by destruct (H (t2, ()))|].
      * left. destruct restart, running; try done; apply Hrep; lia.
      * right. rewrite (Hret _ eq_refl) in Hr. eapply stopped_by_mono; [| |exact Hr]; lia.
    + intros Hret. destruct (Ho Hret) as [He Hb]. split; [done|].
      destruct restart, running; try (left; by apply Hb). right. split; [done|apply Hrep; lia].
  - intros v0 v1 o o' l2 Hv Hstop Hfail <- x0 Hx. exists l1, l2, []. rewrite app_nil_r.
    split_and!; auto; [|by intros ->; destruct o].
    destruct Hstop as [[-> _]|(-> & -> & r & Hr & _)]; [by left|right]. split_and!; [done|apply Hrep; lia|].
    exists r. eapply stopped_by_mono; [| |exact Hr]; lia.
Qed.

End commands.
