(* ===== verification/Gateway.v ===== *)
(** * The HTTPS gateway's requests (src/src/gateway.rs)

    [forward] decides which application a request goes to and what it is sent;
    [collect_body] and [poll_frame] bound the two bodies. The library's header
    map is a type class with the laws its documentation gives; parsing of
    header values, names and authorities, and the application that answers, are
    parameters. A body is the list of what polling its source gives. *)

From S2P Require Import Prelude Text Fs Value.

Definition MAX_CONFIG_BYTES : Z := 64 * 1024.
Definition MAX_BODY_BYTES : Z := 8 * 1024 * 1024.
Definition MAX_CONNECTIONS : nat := 32.
Definition EXCHANGE_BUFFER_BYTES : Z := 2 * MAX_BODY_BYTES.
Definition BUFFER_BUDGET_BYTES : Z := 128 * 1024 * 1024.
Definition MAX_EXCHANGES : nat := Z.to_nat (BUFFER_BUDGET_BYTES / EXCHANGE_BUFFER_BYTES).

(** ** The configuration *)

(** [routes] lists the map in the order of its keys. *)
Record Config := { listen_port : Z; routes : list (bytes * Z) }.

Definition default_port : Z := 8443.

Definition valid_label (label : bytes) : bool :=
  negb (bool_decide (label = [])) && (len label <=? 63)%Z &&
  negb (starts_with (str "-") label) && negb (ends_with (str "-") label) &&
  forallb (λ b, is_ascii_lowercase b || is_ascii_digit b || bool_decide (b = "-"%char)) label.
Definition valid_hostname (host : bytes) : bool :=
  (len host <=? 253)%Z && ends_with (str ".localhost") host &&
  forallb valid_label (split "."%char host).

Definition validate (c : Config) : result unit :=
  _ ← ensure (1024 <=? listen_port c)%Z "gateway listen_port must be between 1024 and 65535";
  _ ← ensure (negb (bool_decide (routes c = [])) && (len (routes c) <=? 32)%Z)
        "configure between 1 and 32 gateway routes";
  for_each (λ '(host, port),
      _ ← ensure (valid_hostname host) "invalid route: use lowercase names such as app.localhost";
      ensure ((0 <? port)%Z && negb (port =? listen_port c)%Z)
        "route needs a nonzero upstream port different from listen_port")
    (routes c).

(** [Config::read]; [parse] is [serde_json::from_slice]. *)
Definition read (E : environment) (parse : bytes → result Config) (p : path) : M Config :=
  data ← query E (λ s, match data_at s p with
                       | Some d => Ok (take (Z.to_nat (MAX_CONFIG_BYTES + 1)) d)
                       | None => Err "open gateway configuration"
                       end);
  _ ← guard (len data <=? MAX_CONFIG_BYTES)%Z "gateway configuration exceeds 64 KiB";
  c ← lift (with_context "parse gateway JSON configuration" (parse data));
  _ ← lift (validate c);
  mret c.

(** ** Headers *)

(** [http::HeaderMap]. Names are in lower case. *)
Class HeaderMap (H : Type) := {
  no_headers : H;
  get_all : H → bytes → list bytes;
  remove : bytes → H → H;
  insert_header : bytes → bytes → H → H
}.
Class HeaderMapLaws (H : Type) `{HeaderMap H} := {
  get_all_empty k : get_all no_headers k = [];
  get_all_remove m n k : get_all (remove n m) k = if decide (k = n) then [] else get_all m k;
  get_all_insert m n v k : get_all (insert_header n v m) k = if decide (k = n) then [v] else get_all m k
}.
Arguments insert_header : simpl never.

Record Authority := { host_of : bytes; has_port : bool; port_u16 : option Z }.

(** What the libraries make of text. *)
Record parsers := {
  (** [HeaderValue::to_str]. *)
  to_str : bytes → option bytes;
  (** [HeaderName::from_bytes]. *)
  header_name : bytes → option bytes;
  (** [str::parse::<Authority>]. *)
  authority : bytes → option Authority
}.

Section headers.
Context {H : Type} {headers : HeaderMap H} (W : parsers).

Definition contains_key (m : H) (n : bytes) : bool := negb (bool_decide (get_all m n = [])).

Definition request_host (m : H) (listen_port : Z) : option bytes :=
  match get_all m (str "host") with
  | [value] =>
      value ← to_str W value;
      if existsb (λ c, bool_decide (c = "@"%char)) value then None else
      a ← authority W value;
      if has_port a && negb (bool_decide (port_u16 a = Some listen_port)) then None else
      let host := to_ascii_lowercase (host_of a) in
      if valid_hostname host then Some host else None
  | _ => None
  end.

Definition hop_headers : list bytes :=
  map str ["connection"; "keep-alive"; "proxy-authenticate"; "proxy-authorization";
           "proxy-connection"; "te"; "trailer"; "transfer-encoding"; "upgrade"].
(** The names the [Connection] headers list. *)
Definition named_headers (m : H) : list bytes :=
  omap (λ name, header_name W (trim name))
    (mjoin (map (split ","%char) (omap (to_str W) (get_all m (str "connection"))))).
Definition strip_hop_headers (m : H) : H :=
  foldl (λ m n, remove n m) (foldl (λ m n, remove n m) m (named_headers m)) hop_headers.

End headers.

(** ** Bodies *)

Inductive frame := Data (b : bytes) | Trailers.
Inductive poll (A : Type) := Pending | Ready (a : A).
Arguments Pending {A}.
Arguments Ready {A} a.

(** One buffer, or what each poll of a stream gives; at its end it gives [Ready None]. *)
Inductive BodySource :=
| Buffered (rest : option bytes)
| Streaming (rest : list (poll (result frame))).

Record GatewayBody := { source : BodySource; remaining : Z; deadline : option Z }.

Definition buffered (b : bytes) : GatewayBody :=
  {| source := Buffered (Some b); remaining := MAX_BODY_BYTES; deadline := None |}.
Definition streaming (body : list (poll (result frame))) (until : Z) : GatewayBody :=
  {| source := Streaming body; remaining := MAX_BODY_BYTES; deadline := Some until |}.

(** The data frame the loop stops at. *)
Definition deliver (b : GatewayBody) (src : BodySource) (data : bytes)
    : poll (option (result bytes)) * GatewayBody :=
  if (remaining b <? len data)%Z
  then (Ready (Some (Err "body exceeds 8 MiB")),
        {| source := src; remaining := remaining b; deadline := deadline b |})
  else (Ready (Some (Ok data)),
        {| source := src; remaining := remaining b - len data; deadline := deadline b |}).

Definition with_source (b : GatewayBody) (src : BodySource) : GatewayBody :=
  {| source := src; remaining := remaining b; deadline := deadline b |}.

(** The loop over a stream: trailers are skipped. *)
Fixpoint poll_stream (b : GatewayBody) (rest : list (poll (result frame)))
    : poll (option (result bytes)) * GatewayBody :=
  match rest with
  | [] => (Ready None, with_source b (Streaming []))
  | Pending :: rest => (Pending, with_source b (Streaming rest))
  | Ready (Err e) :: rest => (Ready (Some (Err e)), with_source b (Streaming rest))
  | Ready (Ok (Data data)) :: rest => deliver b (Streaming rest) data
  | Ready (Ok Trailers) :: rest => poll_stream b rest
  end.

(** tokio's timer may be [late]: it is ready that long after the deadline, and from then on. *)
Definition poll_frame (late now : Z) (b : GatewayBody) : poll (option (result bytes)) * GatewayBody :=
  if match deadline b with Some d => (d + late <=? now)%Z | None => false end
  then (Ready (Some (Err "gateway exchange exceeded 30 seconds")), b)
  else match source b with
       | Buffered (Some data) => deliver b (Buffered None) data
       | Buffered None => (Ready None, b)
       | Streaming rest => poll_stream b rest
       end.

(** [collect_body] and the capacity of its buffer. [allocate] says whether [try_reserve_exact]
    finds the memory; the buffer then has the capacity asked for. *)
Definition grown (capacity required : Z) : Z :=
  Z.min (Z.max (Z.max (capacity * 2) 4096) required) MAX_BODY_BYTES.
Fixpoint collect_go (allocate : Z → bool) (body : list (result frame)) (data : bytes) (capacity : Z)
    : result (bytes * Z) :=
  match body with
  | [] => Ok (data, capacity)
  | Err e :: _ => Err ("read body frame: " +:+ e)
  | Ok Trailers :: body => collect_go allocate body data capacity
  | Ok (Data chunk) :: body =>
      _ ← ensure (len chunk <=? MAX_BODY_BYTES - len data)%Z "body exceeds 8 MiB";
      let required := (len data + len chunk)%Z in
      if (capacity <? required)%Z then
        let capacity := grown capacity required in
        _ ← ensure (allocate capacity) "allocate body buffer";
        collect_go allocate body (data ++ chunk) capacity
      else collect_go allocate body (data ++ chunk) capacity
  end.
Definition collect_body (allocate : Z → bool) (body : list (result frame)) : result bytes :=
  fst <$> collect_go allocate body [] 0.

(** ** Requests *)

Record Request (H : Type) := {
  method : bytes;
  scheme : option bytes;
  uri_authority : option bytes;
  uri_path : bytes;
  path_and_query : option bytes;
  request_headers : H;
  request_body : list (result frame)
}.
Arguments method {H} _.
Arguments scheme {H} _.
Arguments uri_authority {H} _.
Arguments uri_path {H} _.
Arguments path_and_query {H} _.
Arguments request_headers {H} _.
Arguments request_body {H} _.

(** What an application is sent, and what it answers; [size_upper] bounds its body. *)
Record Upstream (H : Type) := {
  up_method : bytes; up_uri : bytes; up_headers : H; up_body : GatewayBody
}.
Arguments up_method {H} _.
Arguments up_uri {H} _.
Arguments up_headers {H} _.
Arguments up_body {H} _.
Record Answer (H : Type) := {
  status : Z; answer_headers : H; answer_body : list (poll (result frame)); size_upper : option Z
}.
Arguments status {H} _.
Arguments answer_headers {H} _.
Arguments answer_body {H} _.
Arguments size_upper {H} _.

Record HttpResponse (H : Type) := { code_ : Z; headers_ : H; body_ : GatewayBody }.
Arguments code_ {H} _.
Arguments headers_ {H} _.
Arguments body_ {H} _.

Section requests.
Context {H : Type} {headers : HeaderMap H} (W : parsers) (allocate : Z → bool).

(** The message is sent with a newline. *)
Definition response (status : Z) (message : bytes) : HttpResponse H :=
  {| code_ := status;
     headers_ := insert_header (str "connection") (str "close")
                   (insert_header (str "content-type") (str "text/plain; charset=utf-8") no_headers);
     body_ := buffered (message ++ [newline]) |}.

Definition exchange (upstream : Upstream H → result (Answer H)) (q : Upstream H) (is_head : bool)
    (until : Z) : result (HttpResponse H) :=
  a ← with_context "read upstream response" (upstream q);
  _ ← ensure (negb (status a =? 101)%Z) "upstream protocol upgrades are not supported";
  _ ← ensure (is_head || (status a =? 304)%Z ||
              match size_upper a with None => true | Some n => (n <=? MAX_BODY_BYTES)%Z end)
        "upstream body exceeds 8 MiB";
  Ok {| code_ := status a; headers_ := strip_hop_headers W (answer_headers a);
        body_ := streaming (answer_body a) until |}.

(** The headers an application is sent. *)
Definition forwarded_headers (listen_port : Z) (m : H) : H :=
  let host_header := default [] (head (get_all m (str "host"))) in
  let m := strip_hop_headers W m in
  let m := remove (str "content-length") m in
  let m := remove (str "forwarded") m in
  let m := insert_header (str "host") host_header m in
  let m := insert_header (str "x-forwarded-host") host_header m in
  let m := insert_header (str "x-forwarded-proto") (str "https") m in
  let m := insert_header (str "x-forwarded-for") (str "127.0.0.1") m in
  insert_header (str "x-forwarded-port") (decimal (Z.to_N listen_port)) m.

Definition upstream_uri (port : Z) (r : Request H) : bytes :=
  str "http://127.0.0.1:" ++ decimal (Z.to_N port) ++ default (str "/") (path_and_query r).

Definition forward (upstream : Upstream H → result (Answer H)) (r : Request H) (sni : bytes)
    (c : Config) (until : Z) : HttpResponse H :=
  if bool_decide (method r = str "CONNECT") || contains_key (request_headers r) (str "upgrade")
  then response 501 (str "CONNECT and protocol upgrades are not supported")
  else if negb (bool_decide (scheme r = None)) || negb (bool_decide (uri_authority r = None))
          || negb (starts_with (str "/") (uri_path r))
  then response 400 (str "use an origin-form request target")
  else match request_host W (request_headers r) (listen_port c) with
  | None => response 400 (str "provide one valid Host header with the gateway port")
  | Some host =>
      match assoc host (routes c) ≫= λ port, if decide (host = sni) then Some port else None with
      | None => response 421 (str "Host must match the configured TLS server name")
      | Some port =>
          match collect_body allocate (request_body r) with
          | Err _ => response 413 (str "request body failed or exceeds 8 MiB")
          | Ok body =>
              let q := {| up_method := method r; up_uri := upstream_uri port r;
                          up_headers := forwarded_headers (listen_port c) (request_headers r);
                          up_body := buffered body |} in
              match exchange upstream q (bool_decide (method r = str "HEAD")) until with
              | Ok answer => answer
              | Err _ => response 502 (str "upstream unavailable or response exceeds 8 MiB")
              end
          end
      end
  end.

End requests.
