(* ===== verification/GatewaySpec.v ===== *)
(** * What the gateway guarantees

    A request reaches an application only through its own TLS name, without the
    headers that would let a client speak for the gateway; both bodies are
    bounded, and so is the memory they take. *)

From S2P Require Import Prelude Text Fs Value Gateway.

(** ** Host names *)

Lemma split_nonempty c s : split c s ≠ [].
Proof. induction s as [|x s IH]; simpl; [done|]. case_decide; [done|]. by destruct (split c s). Qed.

Lemma join_split c s : join [c] (split c s) = s.
Proof.
  induction s as [|x s IH]; simpl; [done|]. case_decide as E.
  - subst. pose proof (split_nonempty c s). destruct (split c s); [done|].
    simpl in IH. simpl. by rewrite IH.
  - pose proof (split_nonempty c s). destruct (split c s) as [|w [|v l]]; [done|..]; simpl in *; by rewrite IH.
Qed.

Lemma split_free c s : c ∉ s → split c s = [s].
Proof.
  induction s as [|x s IH]; simpl; [done|]. intros [H1 H2]%not_elem_of_cons.
  rewrite decide_False by done. by rewrite IH.
Qed.

Lemma split_app c s t : split c (s ++ c :: t) = split c s ++ split c t.
Proof.
  induction s as [|x s IH]; simpl; [by rewrite decide_True|]. case_decide; [by rewrite IH|].
  rewrite IH. pose proof (split_nonempty c s). by destruct (split c s).
Qed.

Lemma split_join c l : l ≠ [] → Forall (λ s, c ∉ s) l → split c (join [c] l) = l.
Proof.
  induction l as [|s l IH]; [done|]. intros _ [Hs Hl]%Forall_cons. destruct l as [|t l].
  - by apply split_free.
  - change (join [c] (s :: t :: l)) with (s ++ c :: join [c] (t :: l)).
    rewrite split_app, split_free, IH by done. done.
Qed.

Lemma join_snoc sep l x : l ≠ [] → join sep (l ++ [x]) = join sep l ++ sep ++ x.
Proof.
  induction l as [|y l IH]; [done|]. intros _. destruct l as [|z l]; [done|].
  change (join sep ((y :: z :: l) ++ [x])) with (y ++ sep ++ join sep ((z :: l) ++ [x])).
  rewrite IH by done. change (join sep (y :: z :: l)) with (y ++ sep ++ join sep (z :: l)).
  by rewrite !app_assoc.
Qed.

(** A label of a DNS name, in lower case. *)
Definition label_ok (l : bytes) : Prop :=
  (1 <= len l <= 63)%Z ∧ head l ≠ Some "-"%char ∧ last l ≠ Some "-"%char ∧
  Forall (λ c, is_ascii_lowercase c = true ∨ is_ascii_digit c = true ∨ c = "-"%char) l.

Lemma starts_with_head c l : starts_with [c] l = true ↔ head l = Some c.
Proof.
  rewrite starts_with_spec. destruct l as [|x l]; simpl; [split; [by intros []|done]|].
  split; [by intros [r [= ->]]|intros [= ->]; by exists l].
Qed.
Lemma ends_with_last c l : ends_with [c] l = true ↔ last l = Some c.
Proof.
  unfold ends_with. rewrite bool_decide_eq_true, last_Some. unfold is_Some.
  by setoid_rewrite strip_suffix_Some.
Qed.

Lemma valid_label_spec l : valid_label l = true ↔ label_ok l.
Proof.
  unfold valid_label, label_ok. rewrite !andb_true_iff, !negb_true_iff, forallb_Forall.
  change (str "-") with ["-"%char]. rewrite <-!not_true_iff_false, starts_with_head, ends_with_last.
  rewrite bool_decide_eq_true, Z.leb_le.
  assert (∀ c, is_ascii_lowercase c || is_ascii_digit c || bool_decide (c = "-"%char) = true ↔
    is_ascii_lowercase c = true ∨ is_ascii_digit c = true ∨ c = "-"%char) as Hc
    by (intros c; rewrite !orb_true_iff, bool_decide_eq_true; tauto).
  setoid_rewrite Hc.
  assert (l ≠ [] ↔ (1 <= len l)%Z) as Hne; [|tauto].
  destruct l; autorewrite with len; split; try done. intros _. pose proof (len_nonneg l). lia.
Qed.

Lemma label_ok_dotless l : label_ok l → "."%char ∉ l.
Proof.
  intros (_ & _ & _ & Hl) Hin. rewrite Forall_forall in Hl. specialize (Hl _ Hin).
  vm_compute in Hl. by destruct Hl as [?|[?|?]].
Qed.

(** A route name is accepted exactly if it is one or more DNS labels in lower case before
    [.localhost], within the limits of DNS; so no route can name a host outside [.localhost]. *)
Theorem valid_hostname_spec h :
  valid_hostname h = true ↔
  (len h <= 253)%Z ∧ ∃ labels, labels ≠ [] ∧ Forall label_ok labels ∧
    h = join (str ".") (labels ++ [str "localhost"]).
Proof.
  unfold valid_hostname. rewrite !andb_true_iff, Z.leb_le, forallb_Forall.
  setoid_rewrite valid_label_spec. change (str ".") with ["."%char].
  assert (ends_with (str ".localhost") h = true ↔ ∃ r, h = r ++ "."%char :: str "localhost") as ->.
  { unfold ends_with. rewrite bool_decide_eq_true. unfold is_Some. by setoid_rewrite strip_suffix_Some. }
  split.
  - intros [[Hlen [r ->]] Hl]. split; [done|]. rewrite split_app in Hl.
    apply Forall_app in Hl as [Hl _]. exists (split "."%char r).
    pose proof (split_nonempty "."%char r). split_and!; [done..|].
    by rewrite join_snoc, join_split by done.
  - intros [Hlen (l & Hne & Hl & ->)]. rewrite join_snoc in Hlen |- * by done.
    split_and!; [done|by exists (join ["."%char] l)|].
    change (["."%char] ++ str "localhost") with ("."%char :: str "localhost").
    rewrite split_app, split_join by (eauto using Forall_impl, label_ok_dotless).
    apply Forall_app. split; [done|]. repeat constructor; vm_compute; naive_solver.
Qed.

(** ** Bodies *)

Definition frame_data (f : frame) : bytes := match f with Data b => b | Trailers => [] end.
Definition payload (body : list (result frame)) : bytes :=
  mjoin (map (λ r, match r with Ok f => frame_data f | Err _ => [] end) body).
Definition no_error (body : list (result frame)) : Prop := Forall (λ r, is_ok r = true) body.

Lemma grown_bounds capacity required :
  (capacity < required <= MAX_BODY_BYTES)%Z → (0 <= capacity)%Z →
  (required <= grown capacity required <= MAX_BODY_BYTES)%Z.
Proof. unfold grown. lia. Qed.

Lemma collect_go_spec allocate body data capacity b :
  (∀ n, (n <= MAX_BODY_BYTES)%Z → allocate n = true) →
  (len data <= capacity <= MAX_BODY_BYTES)%Z →
  (∃ n, collect_go allocate body data capacity = Ok (b, n)) ↔
  no_error body ∧ data ++ payload body = b ∧ (len b <= MAX_BODY_BYTES)%Z.
Proof.
  intros Hall. revert data capacity. unfold no_error, payload.
  induction body as [|[f|e] body IH]; intros data capacity Hcap; simpl.
  - rewrite app_nil_r. split.
    + intros [n [= <- <-]]. split_and!; [constructor|done|lia].
    + intros (_ & <- & _). by exists capacity.
  - rewrite Forall_cons. destruct f as [chunk|]; simpl; [|rewrite IH by done; tauto].
    setoid_rewrite ensure_bind_Ok. setoid_rewrite Z.leb_le. pose proof (len_nonneg data) as Hd.
    destruct (Z.leb_spec (len chunk) (MAX_BODY_BYTES - len data)) as [Hfit|Hover].
    + rewrite app_assoc. transitivity (∃ n,
        (if (capacity <? len data + len chunk)%Z
         then collect_go allocate body (data ++ chunk) (grown capacity (len data + len chunk))
         else collect_go allocate body (data ++ chunk) capacity) = Ok (b, n)).
      { split; intros [n Hn]; exists n; destruct (capacity <? len data + len chunk)%Z eqn:Ec;
          [rewrite ensure_bind_Ok in Hn; tauto|tauto| |tauto].
        split; [lia|]. rewrite ensure_bind_Ok. split; [|done]. apply Hall.
        apply grown_bounds; lia. }
      destruct (Z.ltb_spec capacity (len data + len chunk)); rewrite IH; try tauto.
      * autorewrite with len. pose proof (grown_bounds capacity (len data + len chunk)). lia.
      * autorewrite with len. lia.
    + split; [intros (n & ? & _); lia|]. intros (_ & <- & Hl). autorewrite with len in Hl.
      pose proof (len_nonneg (payload body)) as Hp. unfold payload in Hp. lia.
  - split; [by intros []|]. rewrite Forall_cons. by intros [[? _] _].
Qed.

(** C35. An upload is collected exactly if all its frames arrive and its data are at most 8 MiB;
    what is collected are the data, without the trailers. The buffer is never asked to hold more
    than 8 MiB: the allocator may refuse anything larger. *)
Theorem collect_body_spec allocate body b :
  (∀ n, (n <= MAX_BODY_BYTES)%Z → allocate n = true) →
  collect_body allocate body = Ok b ↔
  no_error body ∧ payload body = b ∧ (len b <= MAX_BODY_BYTES)%Z.
Proof.
  intros Hall. pose proof (collect_go_spec allocate body [] 0 b Hall ltac:(by vm_compute)) as H.
  simpl in H. rewrite <-H. unfold collect_body.
  destruct (collect_go allocate body [] 0) as [[b' n]|e]; simpl; [|naive_solver].
  split; [intros [= ->]; by exists n|by intros [? [= -> _]]].
Qed.

(** Polls of a body at these times, and what they gave. Nothing is polled after the end or an
    error. *)
Fixpoint poll_all (late : Z) (times : list Z) (b : GatewayBody) : list (poll (option (result bytes))) :=
  match times with
  | [] => []
  | now :: times =>
      let '(r, b) := poll_frame late now b in
      match r with
      | Ready None | Ready (Some (Err _)) => [r]
      | _ => r :: poll_all late times b
      end
  end.
(** What the client was sent. *)
Definition sent (r : poll (option (result bytes))) : bytes :=
  match r with Ready (Some (Ok d)) => d | _ => [] end.
Definition delivered (l : list (poll (option (result bytes)))) : bytes := mjoin (map sent l).
(** The data a source still has. *)
Definition streamed (rest : list (poll (result frame))) : bytes :=
  mjoin (map (λ r, match r with Ready (Ok f) => frame_data f | _ => [] end) rest).
Definition source_data (s : BodySource) : bytes :=
  match s with Buffered rest => default [] rest | Streaming rest => streamed rest end.

(** One poll: what it sends is the next data of the source, and is taken off the allowance. *)
Definition poll_ok (b : GatewayBody) (r : poll (option (result bytes))) (b' : GatewayBody) : Prop :=
  (len (sent r) <= remaining b)%Z ∧
  match r with
  | Ready (Some (Err _)) => True
  | Ready None => source_data (source b) = []
  | _ => source_data (source b) = sent r ++ source_data (source b') ∧
         remaining b' = (remaining b - len (sent r))%Z ∧ deadline b' = deadline b
  end.

Lemma poll_ok_deliver b src data r b' :
  (0 <= remaining b)%Z → deliver b src data = (r, b') → source_data (source b) = data ++ source_data src →
  poll_ok b r b'.
Proof.
  unfold deliver, poll_ok. intros Hb. destruct (Z.ltb_spec (remaining b) (len data));
    intros [= <- <-] Hs; simpl; split_and!; done.
Qed.

Lemma poll_stream_ok b rest r b' :
  (0 <= remaining b)%Z → source_data (source b) = streamed rest → poll_stream b rest = (r, b') →
  poll_ok b r b'.
Proof.
  intros Hb. induction rest as [|[|[[data|]|e]] rest IH]; simpl; intros Hs Hr.
  - by injection Hr as <- <-.
  - injection Hr as <- <-. unfold poll_ok. simpl. rewrite Z.sub_0_r. by split_and!.
  - by eapply poll_ok_deliver.
  - by apply IH.
  - by injection Hr as <- <-.
Qed.

Lemma poll_frame_ok late now b r b' :
  (0 <= remaining b)%Z → poll_frame late now b = (r, b') → poll_ok b r b'.
Proof.
  intros Hb. unfold poll_frame. destruct (match deadline b with Some d => _ | None => _ end).
  { by intros [= <- <-]. }
  destruct (source b) as [[data|]|rest] eqn:Es.
  - intros Hr. eapply poll_ok_deliver; [done..|]. rewrite Es. simpl. by rewrite app_nil_r.
  - intros [= <- <-]. unfold poll_ok. by rewrite Es.
  - apply poll_stream_ok; [done|]. by rewrite Es.
Qed.

Lemma poll_all_ok late times b :
  (0 <= remaining b)%Z →
  (len (delivered (poll_all late times b)) <= remaining b)%Z ∧
  ∃ rest, source_data (source b) = delivered (poll_all late times b) ++ rest ∧
    (Ready None ∈ poll_all late times b → rest = []).
Proof.
  revert b. induction times as [|now times IH]; intros b Hb; simpl.
  { split; [done|]. eexists. split; [done|]. by intros []%not_elem_of_nil. }
  destruct (poll_frame late now b) as [r b'] eqn:Er. apply poll_frame_ok in Er as [Hl Hr]; [|done].
  assert (match r with Ready None | Ready (Some (Err _)) => True | _ =>
    (len (delivered (r :: poll_all late times b')) <= remaining b)%Z ∧
    ∃ rest, source_data (source b) = delivered (r :: poll_all late times b') ++ rest ∧
      (Ready None ∈ r :: poll_all late times b' → rest = []) end) as Hgo.
  { assert (∀ r', r = r' → (match r' with Ready None | Ready (Some (Err _)) => False | _ => True end) →
      (len (delivered (r :: poll_all late times b')) <= remaining b)%Z ∧
      ∃ rest, source_data (source b) = delivered (r :: poll_all late times b') ++ rest ∧
        (Ready None ∈ r :: poll_all late times b' → rest = [])) as Hgo.
    2: { destruct r as [|[[]|]]; try done; by eapply Hgo. }
    intros r' -> Hr'. assert (source_data (source b) = sent r' ++ source_data (source b') ∧
      remaining b' = (remaining b - len (sent r'))%Z) as [Hs Hrem]
      by (destruct r' as [|[[]|]]; try done; tauto).
    destruct (IH b' ltac:(lia)) as (Hlen & rest & Hrest & Hend).
    change (delivered (r' :: poll_all late times b')) with (sent r' ++ delivered (poll_all late times b')).
    autorewrite with len. split; [lia|]. exists rest. rewrite Hs, Hrest, app_assoc. split; [done|].
    intros [<-|Hin]%elem_of_cons; [done|auto]. }
  destruct r as [|[[data|e]|]]; [exact Hgo|exact Hgo|..]; (split; [done|]).
  - eexists. split; [done|]. by intros [[=]|[]%not_elem_of_nil]%elem_of_cons.
  - exists []. by rewrite Hr.
Qed.

Lemma poll_all_expires until late times b :
  deadline b = Some until → (0 <= remaining b)%Z →
  ∀ i now r, times !! i = Some now → (until + late <= now)%Z → poll_all late times b !! i = Some r →
    ∃ e, r = Ready (Some (Err e)).
Proof.
  revert b. induction times as [|t times IH]; intros b Hd Hb i now r Hi Hnow Hr; [done|].
  simpl in Hr. destruct (poll_frame late t b) as [r0 b'] eqn:Ep. destruct i as [|i]; simpl in Hi.
  - injection Hi as ->. unfold poll_frame in Ep. rewrite Hd in Ep.
    replace (until + late <=? now)%Z with true in Ep by (symmetry; by apply Z.leb_le).
    injection Ep as <- <-. simpl in Hr. injection Hr as <-. by eexists.
  - apply poll_frame_ok in Ep as [Hl Hok]; [|done].
    destruct r0 as [|[[data|e]|]]; [| |done..]; destruct Hok as (_ & Hrem & Hd');
      (eapply (IH b'); [by rewrite Hd'|lia|done..]).
Qed.

(** C34. Whatever the application sends, a response body delivers to the client at most 8 MiB of it,
    in order and without trailers; it ends normally only after all of it, and every poll after the
    exchange's deadline fails, once the runtime's timer has noticed it. *)
Theorem stream_bounded late times src until :
  let out := poll_all late times (streaming src until) in
  (len (delivered out) <= MAX_BODY_BYTES)%Z ∧
  (∃ rest, streamed src = delivered out ++ rest ∧ (Ready None ∈ out → rest = [])) ∧
  ∀ i now r, times !! i = Some now → (until + late <= now)%Z → out !! i = Some r →
    ∃ e, r = Ready (Some (Err e)).
Proof.
  intros out. destruct (poll_all_ok late times (streaming src until) ltac:(by vm_compute)) as [H1 H2].
  split_and!; [done|done|]. unfold out. clear.
  apply poll_all_expires; [done|by vm_compute].
Qed.

(** ** Headers *)

Section headers.
Context {H : Type} {operations : HeaderMap H} {laws : HeaderMapLaws H} (W : parsers).
Implicit Types (m : H).

Lemma get_all_removed l m k :
  get_all (foldl (λ m n, remove n m) m l) k = if decide (k ∈ l) then [] else get_all m k.
Proof using laws.
  revert m. induction l as [|n l IH]; intros m; simpl; [done|].
  rewrite IH, get_all_remove. pose proof (elem_of_cons l k n).
  destruct (decide (k ∈ l)), (decide (k = n)), (decide (k ∈ n :: l)); tauto.
Qed.

Lemma get_all_stripped m k :
  get_all (strip_hop_headers W m) k =
  if decide (k ∈ hop_headers ∨ k ∈ named_headers W m) then [] else get_all m k.
Proof using laws.
  unfold strip_hop_headers. rewrite !get_all_removed.
  destruct (decide (k ∈ hop_headers)), (decide (k ∈ named_headers W m));
    destruct (decide _) as [?|?]; tauto.
Qed.

(** The headers only the gateway sets, and those it takes away. *)
Definition set_headers : list bytes :=
  map str ["host"; "x-forwarded-host"; "x-forwarded-proto"; "x-forwarded-for"; "x-forwarded-port"].
Definition dropped_headers : list bytes := hop_headers ++ map str ["content-length"; "forwarded"].

Lemma dropped_not_set k : k ∈ dropped_headers → k ∉ set_headers.
Proof.
  assert (Forall (λ k, k ∉ set_headers) dropped_headers) as Hf
    by (apply (bool_decide_unpack _); vm_compute; reflexivity).
  rewrite Forall_forall in Hf. apply Hf.
Qed.

(** The headers of a request as the application sees them. *)
Definition vouched (listen_port : Z) (host : bytes) (m m' : H) : Prop :=
  get_all m' (str "host") = [host] ∧ get_all m' (str "x-forwarded-host") = [host] ∧
  get_all m' (str "x-forwarded-proto") = [str "https"] ∧
  get_all m' (str "x-forwarded-for") = [str "127.0.0.1"] ∧
  get_all m' (str "x-forwarded-port") = [decimal (Z.to_N listen_port)] ∧
  ∀ k, k ∉ set_headers →
    get_all m' k = if decide (k ∈ dropped_headers ∨ k ∈ named_headers W m) then [] else get_all m k.

Lemma forwarded_headers_vouched port m host :
  get_all m (str "host") = [host] → vouched port host m (forwarded_headers W port m).
Proof using laws.
  intros Hh. unfold vouched, forwarded_headers. rewrite Hh. simpl.
  do 5 (split; [by rewrite !get_all_insert|]). intros k Hk.
  unfold set_headers in Hk. simpl in Hk. rewrite !not_elem_of_cons in Hk.
  destruct Hk as (H1 & H2 & H3 & H4 & H5 & _).
  rewrite !get_all_insert, !decide_False by done.
  rewrite !get_all_remove, get_all_stripped.
  assert (k ∈ dropped_headers ↔ k ∈ hop_headers ∨ k = str "content-length" ∨ k = str "forwarded") as Hd.
  { unfold dropped_headers. rewrite elem_of_app. change (map str ["content-length"; "forwarded"])
      with [str "content-length"; str "forwarded"]. rewrite !elem_of_cons, elem_of_nil. tauto. }
  repeat case_decide; tauto.
Qed.

Lemma request_host_one m port h : request_host W m port = Some h →
  valid_hostname h = true ∧ ∃ v, get_all m (str "host") = [v].
Proof using.
  unfold request_host. destruct (get_all m (str "host")) as [|v [|? ?]]; [done| |done].
  intros Hr. apply bind_Some in Hr as (x & _ & Hr). case_match; [done|].
  apply bind_Some in Hr as (a & _ & Hr). case_match; [done|]. cbv zeta in Hr. case_match; [|done].
  injection Hr as <-. eauto.
Qed.
End headers.

(** ** Forwarding *)

Lemma assoc_Some {A : Type} k (l : list (bytes * A)) v : assoc k l = Some v → (k, v) ∈ l.
Proof.
  induction l as [|[a x] l IH]; simpl; [done|]. case_decide as E.
  - intros [= ->]. subst. left.
  - intros Hl. right. auto.
Qed.

Lemma valid_port c host port :
  validate c = Ok () → assoc host (routes c) = Some port → port ≠ listen_port c.
Proof.
  unfold validate. rewrite !ensure_bind_Ok, for_each_Ok, Forall_forall.
  intros (_ & _ & Hr) Ha%assoc_Some. specialize (Hr _ Ha). simpl in Hr.
  apply ensure_bind_Ok in Hr as [_ Hr%ensure_Ok]. apply andb_true_iff in Hr as [_ Hr].
  apply negb_true_iff, Z.eqb_neq in Hr. done.
Qed.

Section forwarding.
Context {H : Type} {operations : HeaderMap H} {laws : HeaderMapLaws H} (W : parsers) (allocate : Z → bool).
Implicit Types (r : Request H).

(** The request an application is sent for [r]. *)
Definition upstream_request (c : Config) r (port : Z) (body : bytes) : Upstream H :=
  {| up_method := method r; up_uri := upstream_uri port r;
     up_headers := forwarded_headers W (listen_port c) (request_headers r);
     up_body := buffered body |}.

#[local] Ltac refused := left; do 2 eexists; split; [|intros; reflexivity]; lia.

(** C5. Whatever applications there are, a request is refused, or it is sent to one of them: the
    one whose route is both the TLS name and the [Host] of the request, on this machine, at a port
    that is not the gateway's own. That application sees the gateway's own [X-Forwarded] headers,
    none of the hop-by-hop ones nor those [Connection] names, every other header as it came, and
    the data of the request's body, 8 MiB at most. *)
Theorem forward_isolated r sni c until :
  validate c = Ok () →
  (∃ status text, (400 <= status)%Z ∧ ∀ upstream, forward W allocate upstream r sni c until = response status text) ∨
  ∃ port host body, assoc sni (routes c) = Some port ∧ valid_hostname sni = true ∧
    port ≠ listen_port c ∧
    request_host W (request_headers r) (listen_port c) = Some sni ∧
    vouched W (listen_port c) host (request_headers r) (up_headers (upstream_request c r port body)) ∧
    get_all (request_headers r) (str "host") = [host] ∧
    collect_body allocate (request_body r) = Ok body ∧
    starts_with (str "http://127.0.0.1:" ++ decimal (Z.to_N port)) (upstream_uri port r) = true ∧
    ∀ upstream, forward W allocate upstream r sni c until =
      match exchange W upstream (upstream_request c r port body) (bool_decide (method r = str "HEAD")) until with
      | Ok a => a
      | Err _ => response 502 (str "upstream unavailable or response exceeds 8 MiB")
      end.
Proof using laws.
  intros Hc. unfold forward. destruct (bool_decide (method r = str "CONNECT") || _); [refused|].
  destruct (negb _ || _ || _); [refused|].
  destruct (request_host W (request_headers r) (listen_port c)) as [host|] eqn:Eh; [|refused].
  destruct (assoc host (routes c)) as [port|] eqn:Ea; simpl; [|refused].
  destruct (decide (host = sni)) as [->|]; [|refused].
  destruct (collect_body allocate (request_body r)) as [body|e] eqn:Eb; [right|refused].
  pose proof (request_host_one W _ _ _ Eh) as [Hv [value Hvalue]].
  exists port, value, body. split_and!; try done.
  - by eapply valid_port.
  - by apply forwarded_headers_vouched.
  - unfold upstream_uri. rewrite app_assoc. apply starts_with_app.
Qed.
End forwarding.

(** ** Concrete inputs *)

(** A header map as the list of its entries. *)
Fixpoint values (m : list (bytes * bytes)) (k : bytes) : list bytes :=
  match m with [] => [] | (n, v) :: m => if decide (k = n) then v :: values m k else values m k end.
Fixpoint without (n : bytes) (m : list (bytes * bytes)) : list (bytes * bytes) :=
  match m with [] => [] | (a, v) :: m => if decide (a = n) then without n m else (a, v) :: without n m end.
#[local] Instance entries : HeaderMap (list (bytes * bytes)) := {
  no_headers := [];
  get_all := values;
  remove := without;
  insert_header n v m := without n m ++ [(n, v)]
}.

Lemma values_without n m k : values (without n m) k = if decide (k = n) then [] else values m k.
Proof.
  induction m as [|[a v] m IH]; simpl; [by case_decide|].
  destruct (decide (a = n)) as [->|]; simpl; rewrite IH; repeat case_decide; congruence.
Qed.
Lemma values_app m m' k : values (m ++ m') k = values m k ++ values m' k.
Proof. induction m as [|[a v] m IH]; simpl; [done|]. rewrite IH. by case_decide. Qed.

#[local] Instance entries_laws : HeaderMapLaws (list (bytes * bytes)).
Proof.
  split.
  - done.
  - intros m n k. apply values_without.
  - intros m n v k. unfold insert_header. simpl. rewrite values_app, values_without. simpl.
    case_decide; [done|]. by rewrite app_nil_r.
Defined.

Definition sample_parsers : parsers := {|
  to_str := Some; header_name := Some;
  authority := λ s, match split ":"%char s with
                    | [h; p] => Some {| host_of := h; has_port := true; port_u16 := parse_uint u16_max p |}
                    | _ => Some {| host_of := s; has_port := false; port_u16 := None |}
                    end |}.
Definition sample_routes : Config := {| listen_port := 8443; routes := [(str "app.localhost", 3000%Z)] |}.
(** A client that claims to be another address and names one more header to drop. *)
Definition sample_request : Request (list (bytes * bytes)) := {|
  method := str "POST"; scheme := None; uri_authority := None; uri_path := str "/x";
  path_and_query := Some (str "/x?y=1");
  request_headers := [(str "host", str "APP.localhost:8443"); (str "x-forwarded-for", str "10.0.0.1");
                      (str "connection", str "close, x-trace"); (str "x-trace", str "1");
                      (str "accept", str "*/*")];
  request_body := [Ok (Data (str "ab")); Ok Trailers; Ok (Data (str "c"))] |}.
Definition sample_answer (q : Upstream (list (bytes * bytes))) : result (Answer (list (bytes * bytes))) :=
  Ok {| status := 200; answer_headers := [(str "up", up_uri q)];
        answer_body := [Ready (Ok (Data (str "ok")))]; size_upper := Some 2%Z |}.
Definition roomy (n : Z) : bool := (n <=? MAX_BODY_BYTES)%Z.

Lemma forward_isolated_witness :
  validate sample_routes = Ok () ∧
  let q := upstream_request sample_parsers sample_routes sample_request 3000 (str "abc") in
  get_all (up_headers q) (str "x-forwarded-for") = [str "127.0.0.1"] ∧
  get_all (up_headers q) (str "x-trace") = [] ∧
  code_ (forward sample_parsers roomy sample_answer sample_request (str "app.localhost") sample_routes 0) = 200%Z.
Proof.
  split; [vm_compute; reflexivity|]. intros q.
  destruct (forward_isolated sample_parsers roomy sample_request (str "app.localhost") sample_routes 0
    ltac:(vm_compute; reflexivity)) as [(status & text & Hle & Hf)|(port & host & body & Ha & _ & _ & _ & Hv & _ & Hb & _)].
  - exfalso. specialize (Hf sample_answer). apply (f_equal code_) in Hf. vm_compute in Hf. subst. vm_compute in Hle. by apply Hle.
  - assert (port = 3000%Z) as -> by (vm_compute in Ha; congruence).
    assert (body = str "abc") as -> by (vm_compute in Hb; unfold str; simpl; congruence).
    destruct Hv as (_ & _ & _ & H & _). split; [exact H|]. split; vm_compute; reflexivity.
Defined.

Lemma collect_body_spec_witness :
  collect_body roomy (request_body sample_request) = Ok (str "abc") ∧ payload (request_body sample_request) = str "abc".
Proof.
  assert (collect_body roomy (request_body sample_request) = Ok (str "abc")) as H by (vm_compute; reflexivity).
  split; [exact H|].
  exact (proj1 (proj2 (proj1 (collect_body_spec roomy (request_body sample_request) (str "abc")
    (λ n Hn, proj2 (Z.leb_le n MAX_BODY_BYTES) Hn)) H))).
Defined.
