(* ===== verification/GatewayServe.v ===== *)
(** * The gateway's connections and exchanges (src/src/gateway.rs)

    [serve], [serve_connection] and [handle] run as tasks that interleave. A
    state holds the two semaphores, the connections and the exchanges; a step is
    one thing a task does. A reservation of an exchange is shared by its holders
    and given back when the last is dropped. The sizes of the upload buffers are
    in the state, so that the memory budget of the source is a property of it. *)

From S2P Require Import Prelude Text Fs Value Gateway GatewaySpec.
From stdpp Require Import relations fin_maps.
From Stdlib Require Import Sorted.

(** Milliseconds. *)
Definition EXCHANGE_TIMEOUT : Z := 30000.
Definition HANDSHAKE_TIMEOUT : Z := 5000.

(** ** One exchange *)

(** What keeps a reservation: the handler, the upload given to the client, the response body. *)
Record Holders := { by_handler : bool; by_upload : bool; by_response : bool }.
Definition held (h : Holders) : bool := by_handler h || by_upload h || by_response h.

(** The upload so far: its length, the capacity of its buffer, and the capacity of the new buffer
    while the old one is still there. *)
Record Exchange := {
  on_connection : nat;
  holders : Holders;
  collecting : bool;
  length_ : Z;
  capacity : Z;
  growing : option Z
}.

Definition memory (x : Exchange) : Z := (capacity x + default 0%Z (growing x))%Z.

Definition with_upload (x : Exchange) (len cap : Z) (grow : option Z) : Exchange :=
  {| on_connection := on_connection x; holders := holders x; collecting := collecting x;
     length_ := len; capacity := cap; growing := grow |}.
Definition with_holders (x : Exchange) (h : Holders) (collect : bool) : Exchange :=
  {| on_connection := on_connection x; holders := h; collecting := collect;
     length_ := length_ x; capacity := capacity x; growing := growing x |}.

(** ** The gateway *)

Record State := {
  accepting : bool;
  permits : nat;
  connections : gset nat;
  buffers : nat;
  exchanges : gmap nat Exchange
}.

Definition initial : State :=
  {| accepting := true; permits := MAX_CONNECTIONS; connections := ∅;
     buffers := MAX_EXCHANGES; exchanges := ∅ |}.

Definition with_exchanges (s : State) (b : nat) (m : gmap nat Exchange) : State :=
  {| accepting := accepting s; permits := permits s; connections := connections s;
     buffers := b; exchanges := m |}.
Definition with_connections (s : State) (n : nat) (c : gset nat) : State :=
  {| accepting := accepting s; permits := n; connections := c;
     buffers := buffers s; exchanges := exchanges s |}.

(** A holder is dropped; with the last one the exchange's buffer and its reservation. *)
Definition drop_holder (s : State) (e : nat) (x : Exchange) (h : Holders) : State :=
  if held h
  then with_exchanges s (buffers s) (<[e := with_holders x h false]> (exchanges s))
  else with_exchanges s (S (buffers s)) (delete e (exchanges s)).

Inductive step : State → State → Prop :=
(** [listener.accept] and [permits.try_acquire_owned]: without a permit the stream is dropped. *)
| Accepted s c :
    accepting s = true → c ∉ connections s → 0 < permits s →
    step s (with_connections s (pred (permits s)) ({[c]} ∪ connections s))
| Refused s : accepting s = true → permits s = 0 → step s s
(** The task of a connection ends, whatever the reason, once its handler is gone. *)
| Closed s c :
    c ∈ connections s →
    map_Forall (λ _ x, on_connection x = c → by_handler (holders x) = false) (exchanges s) →
    step s (with_connections s (S (permits s)) (connections s ∖ {[c]}))
(** [shutdown.cancelled]. *)
| Shut s : step s {| accepting := false; permits := permits s; connections := connections s;
                     buffers := buffers s; exchanges := exchanges s |}
(** [handle]: without a reservation the answer is 503. *)
| Began s c e :
    c ∈ connections s → exchanges s !! e = None → 0 < buffers s →
    step s (with_exchanges s (pred (buffers s))
      (<[e := {| on_connection := c; holders := {| by_handler := true; by_upload := false; by_response := false |};
                 collecting := true; length_ := 0; capacity := 0; growing := None |}]> (exchanges s)))
| Busy s c : c ∈ connections s → buffers s = 0 → step s s
(** A data frame of the upload that fits the buffer. *)
| Filled s e x n :
    exchanges s !! e = Some x → collecting x = true → growing x = None →
    (0 <= n)%Z → (n <= MAX_BODY_BYTES - length_ x)%Z → (length_ x + n <= capacity x)%Z →
    step s (with_exchanges s (buffers s)
      (<[e := with_upload x (length_ x + n) (capacity x) None]> (exchanges s)))
(** One that does not: the new buffer, and then the old one is freed. *)
| Reserved s e x n :
    exchanges s !! e = Some x → collecting x = true → growing x = None →
    (0 <= n)%Z → (n <= MAX_BODY_BYTES - length_ x)%Z → (capacity x < length_ x + n)%Z →
    step s (with_exchanges s (buffers s)
      (<[e := with_upload x (length_ x + n) (capacity x) (Some (grown (capacity x) (length_ x + n)))]>
         (exchanges s)))
| Moved s e x cap :
    exchanges s !! e = Some x → growing x = Some cap →
    step s (with_exchanges s (buffers s) (<[e := with_upload x (length_ x) cap None]> (exchanges s)))
(** The upload is complete and the upstream client owns it. *)
| Sent s e x :
    exchanges s !! e = Some x → collecting x = true → growing x = None →
    step s (with_exchanges s (buffers s)
      (<[e := with_holders x {| by_handler := by_handler (holders x); by_upload := true;
                                by_response := by_response (holders x) |} false]> (exchanges s)))
(** The handler returns the application's response, and drops its own reservation. *)
| Responded s e x :
    exchanges s !! e = Some x → collecting x = false → by_handler (holders x) = true →
    step s (with_exchanges s (buffers s)
      (<[e := with_holders x {| by_handler := false; by_upload := by_upload (holders x);
                                by_response := true |} false]> (exchanges s)))
(** The handler ends otherwise: a refusal, the timeout, or its connection is cancelled. *)
| HandlerGone s e x :
    exchanges s !! e = Some x → by_handler (holders x) = true →
    step s (drop_holder s e x {| by_handler := false; by_upload := by_upload (holders x);
                                 by_response := by_response (holders x) |})
| UploadGone s e x :
    exchanges s !! e = Some x → by_upload (holders x) = true →
    step s (drop_holder s e x {| by_handler := by_handler (holders x); by_upload := false;
                                 by_response := by_response (holders x) |})
| ResponseGone s e x :
    exchanges s !! e = Some x → by_response (holders x) = true →
    step s (drop_holder s e x {| by_handler := by_handler (holders x); by_upload := by_upload (holders x);
                                 by_response := false |}).

Definition reachable (s : State) : Prop := rtc step initial s.

(** The memory of all uploads. *)
Definition total_memory (s : State) : Z :=
  map_fold (λ _ x n, (memory x + n)%Z) 0%Z (exchanges s).

(** ** Invariants *)

Definition exchange_ok (x : Exchange) : Prop :=
  held (holders x) = true ∧ (0 <= length_ x)%Z ∧ (0 <= capacity x <= MAX_BODY_BYTES)%Z ∧
  (length_ x <= default (capacity x) (growing x) <= MAX_BODY_BYTES)%Z ∧
  (collecting x = true → by_handler (holders x) = true).

Record consistent (s : State) : Prop := {
  c_permits : permits s + size (connections s) = MAX_CONNECTIONS;
  c_buffers : buffers s + size (exchanges s) = MAX_EXCHANGES;
  c_exchanges : map_Forall (λ _, exchange_ok) (exchanges s)
}.

Lemma consistent_initial : consistent initial.
Proof. split; [done|done|apply map_Forall_empty]. Qed.

(** An exchange replaced by another that is in order. *)
Lemma consistent_update s e x x' :
  consistent s → exchanges s !! e = Some x → (exchange_ok x → exchange_ok x') →
  consistent (with_exchanges s (buffers s) (<[e := x']> (exchanges s))).
Proof.
  intros [Hp Hb Hx] He Hok. split; simpl; [done| |].
  - rewrite map_size_insert_Some; [done|by eexists].
  - apply map_Forall_insert_2; [|done]. apply Hok. by eapply Hx.
Qed.

Lemma consistent_drop s e x h :
  consistent s → exchanges s !! e = Some x → consistent (drop_holder s e x h).
Proof.
  intros Hs He. unfold drop_holder. destruct (held h) eqn:Eh.
  - eapply consistent_update; [done..|]. unfold exchange_ok, with_holders. simpl. naive_solver.
  - destruct Hs as [Hp Hb Hx]. split; simpl; [done| |].
    + rewrite map_size_delete_Some by (by eexists).
      assert (size (exchanges s) ≠ 0) by (rewrite map_size_ne_0_lookup; by exists e; eexists). lia.
    + by apply map_Forall_delete.
Qed.

Lemma consistent_accept s c :
  consistent s → c ∉ connections s → 0 < permits s →
  consistent (with_connections s (pred (permits s)) ({[c]} ∪ connections s)).
Proof.
  intros [Hp Hb Hx] Hc H0. split; simpl; [|done|done].
  rewrite size_union, size_singleton by set_solver. lia.
Qed.

Lemma consistent_close s c :
  consistent s → c ∈ connections s →
  consistent (with_connections s (S (permits s)) (connections s ∖ {[c]})).
Proof.
  intros [Hp Hb Hx] Hc. split; simpl; [|done|done].
  rewrite size_difference, size_singleton by set_solver.
  assert (size (connections s) ≠ 0) by (rewrite size_non_empty_iff; set_solver). lia.
Qed.

Lemma consistent_begin s e x :
  consistent s → exchanges s !! e = None → 0 < buffers s → exchange_ok x →
  consistent (with_exchanges s (pred (buffers s)) (<[e := x]> (exchanges s))).
Proof.
  intros [Hp Hb Hx] He H0 Hok. split; simpl; [done| |by apply map_Forall_insert_2].
  rewrite map_size_insert_None by done. lia.
Qed.

Lemma step_consistent s s' : step s s' → consistent s → consistent s'.
Proof.
  intros Hstep Hs. destruct Hstep; auto using consistent_accept, consistent_close, consistent_drop.
  1: by destruct Hs.
  1: { apply consistent_begin; [done..|]. unfold exchange_ok, MAX_BODY_BYTES. simpl. split_and!; done || lia. }
  all: eapply consistent_update; [done..|]; unfold exchange_ok, with_upload, with_holders, held; simpl;
    intros (H1' & H2' & H3' & H4' & H5').
  - rewrite H1 in H4'. simpl in H4'. split_and!; done || lia.
  - rewrite H1 in H4'. simpl in H4'.
    pose proof (grown_bounds (capacity x) (length_ x + n)). split_and!; done || lia.
  - rewrite H0 in H4'. simpl in H4'. split_and!; done || lia.
  - rewrite H1 in H4' |- *. simpl in H4' |- *. rewrite orb_true_r. split_and!; done || lia.
  - rewrite orb_true_r. split_and!; done || lia.
Qed.

Lemma reachable_consistent s : reachable s → consistent s.
Proof.
  intros Hs. apply (rtc_ind_r (R := step) consistent initial); [apply consistent_initial| |done].
  intros s1 s2 _ H12 H1. by eapply step_consistent.
Qed.

Lemma total_memory_bound (m : gmap nat Exchange) k :
  map_Forall (λ _ x, (memory x <= k)%Z) m →
  (map_fold (λ _ x n, (memory x + n)%Z) 0%Z m <= k * Z.of_nat (size m))%Z.
Proof.
  induction m as [|i x m Hi IH] using map_ind; intros Hm.
  { rewrite map_fold_empty, map_size_empty. lia. }
  apply map_Forall_insert in Hm as [Hx Hm]; [|done].
  rewrite map_fold_insert_L by (done || (intros; lia)). rewrite map_size_insert_None by done.
  specialize (IH Hm). lia.
Qed.

(** C7. However connections, requests, their bodies and their ends interleave: at most 32
    connections and 8 exchanges are open, every permit is free or held by an open connection and
    every reservation free or held by an exchange that something still needs, and the buffers of all
    uploads, including those being replaced, take at most the budget of 128 MiB. *)
Theorem gateway_bounded s :
  reachable s →
  permits s + size (connections s) = 32 ∧ buffers s + size (exchanges s) = 8 ∧
  map_Forall (λ _ x, held (holders x) = true) (exchanges s) ∧
  (total_memory s <= BUFFER_BUDGET_BYTES)%Z.
Proof.
  intros [Hp Hb Hx]%reachable_consistent. split_and!; [done|done| |].
  - eapply map_Forall_impl; [exact Hx|]. by intros e x (? & _).
  - unfold total_memory. pose proof (total_memory_bound (exchanges s) EXCHANGE_BUFFER_BYTES) as Ht.
    assert (Z.of_nat (size (exchanges s)) <= 8)%Z.
    { change MAX_EXCHANGES with 8 in Hb. lia. }
    unfold EXCHANGE_BUFFER_BYTES, BUFFER_BUDGET_BYTES, MAX_BODY_BYTES in *.
    etransitivity; [apply Ht|lia]. eapply map_Forall_impl; [exact Hx|].
    intros e x (_ & _ & Hc & Hl & _). unfold memory, MAX_BODY_BYTES in *.
    destruct (growing x); simpl in *; lia.
Qed.

Lemma gateway_bounded_witness : ∃ s,
  reachable s ∧ buffers s = 7 ∧ total_memory s = 4096%Z ∧ (total_memory s <= BUFFER_BUDGET_BYTES)%Z.
Proof.
  assert (∃ s, reachable s ∧ buffers s = 7 ∧ total_memory s = 4096%Z) as (s & Hs & Hb & Ht).
  { eexists. split.
    - eapply rtc_l; [eapply (Accepted initial 1); [reflexivity|vm_compute; intros H; inversion H|vm_compute; lia]|].
      eapply rtc_l; [eapply (Began _ 1 5);
        [apply (bool_decide_unpack _); vm_compute; reflexivity|reflexivity|vm_compute; lia]|].
      eapply rtc_l; [eapply (Reserved _ 5 _ 10); [reflexivity|reflexivity|reflexivity|vm_compute; congruence..]|].
      apply rtc_refl.
    - split; reflexivity. }
  exists s. split; [exact Hs|]. split; [exact Hb|]. split; [exact Ht|].
  exact (proj2 (proj2 (proj2 (gateway_bounded s Hs)))).
Defined.

(** ** Time *)

Section handling.
Context {H : Type} {headers : HeaderMap H}.

(** [handle] at the time [now]: [forward] is given the deadline of the exchange and may not be done
    by then. The answer, and the deadline the connection gets. *)
Definition handle (buffers : nat) (now : Z) (forward : Z → option (HttpResponse H))
    : HttpResponse H * option Z :=
  match buffers with
  | 0 => (response 503 (str "gateway request capacity is busy; retry when requests complete"), None)
  | S _ =>
      let until := (now + EXCHANGE_TIMEOUT)%Z in
      (default (response 504 (str "gateway exchange exceeded 30 seconds")) (forward until),
       Some (until + HANDSHAKE_TIMEOUT)%Z)
  end.

(** A request that reaches [handle]: when, how many reservations are free then, and what becomes of
    its exchange. *)
Record arrival := { at_ : Z; free_ : nat; forwarding : Z → option (HttpResponse H) }.

(** What [handle] sends to the connection's deadline, and when. *)
Definition updates_of (requests : list arrival) : list (Z * Z) :=
  omap (λ r, (λ d, (at_ r, d)) <$> (handle (free_ r) (at_ r) (forwarding r)).2) requests.
End handling.

(** [connection_deadline]: the updates that arrive, with their times; when it returns. *)
Fixpoint connection_deadline (deadline : Z) (updates : list (Z * Z)) : Z :=
  match updates with
  | [] => deadline
  | (at_, next) :: updates =>
      if (deadline <=? at_)%Z then deadline else connection_deadline next updates
  end.

Section deadlines.
Context {H : Type} {headers : HeaderMap H}.
Implicit Types (requests : list (arrival (H := H))).

Lemma updates_of_cons r requests :
  updates_of (r :: requests) =
  match free_ r with
  | 0 => updates_of requests
  | S _ => (at_ r, at_ r + EXCHANGE_TIMEOUT + HANDSHAKE_TIMEOUT)%Z :: updates_of requests
  end.
Proof. unfold updates_of. simpl. by destruct (free_ r). Qed.

Lemma connection_deadline_later d requests b :
  Forall (λ r, (b <= at_ r + EXCHANGE_TIMEOUT + HANDSHAKE_TIMEOUT)%Z) requests → (b <= d)%Z →
  (b <= connection_deadline d (updates_of requests))%Z.
Proof.
  intros Hb. revert d. induction Hb as [|r requests Hr Hb IH]; intros d Hd; [done|].
  rewrite updates_of_cons. destruct (free_ r); [by apply IH|]. simpl. case_match; [done|]. by apply IH.
Qed.

Definition earlier (r r' : arrival (H := H)) : Prop := (at_ r <= at_ r')%Z.

(** C39. A request that gets a reservation before the connection's deadline moves it: [handle] gives
    the application 30 seconds, and the connection stays for those and 5 more to deliver the
    response, whatever other requests it handles. A request without a reservation is answered at once
    with 503 and moves nothing. *)
Theorem connection_outlives_requests accepted requests r :
  StronglySorted earlier requests → r ∈ requests →
  let until := connection_deadline (accepted + EXCHANGE_TIMEOUT) (updates_of requests) in
  match free_ r with
  | 0 => ∃ answer, handle (free_ r) (at_ r) (forwarding r) = (answer, None) ∧ code_ answer = 503%Z
  | S _ => (at_ r < until)%Z → (at_ r + EXCHANGE_TIMEOUT + HANDSHAKE_TIMEOUT <= until)%Z
  end.
Proof.
  simpl. destruct (free_ r) as [|n] eqn:Ef; [intros _ _; by eexists|].
  generalize (accepted + EXCHANGE_TIMEOUT)%Z as d.
  induction requests as [|r0 requests IH]; intros d Hs Hin Ht; [by apply not_elem_of_nil in Hin|].
  inversion_clear Hs as [|? ? Hs' Hle]. rewrite Forall_forall in Hle. rewrite updates_of_cons in *.
  apply elem_of_cons in Hin as [<-|Hin].
  - rewrite Ef in *. simpl in *. destruct (Z.leb_spec d (at_ r)); [lia|].
    apply connection_deadline_later; [|lia]. apply Forall_forall. intros r' Hr'.
    specialize (Hle _ Hr'). unfold earlier in Hle. lia.
  - destruct (free_ r0); [by apply IH|]. simpl in *.
    destruct (Z.leb_spec d (at_ r0)); [|by apply IH]. specialize (Hle _ Hin). unfold earlier in Hle. lia.
Qed.
End deadlines.

(** Headers that are thrown away. *)
#[local] Instance discarded : HeaderMap unit :=
  {| no_headers := (); get_all _ _ := []; Gateway.remove _ _ := (); insert_header _ _ _ := () |}.

Definition sample_arrival (t : Z) (n : nat) : arrival (H := unit) := {| at_ := t; free_ := n; forwarding _ := None |}.

Lemma connection_outlives_requests_witness :
  let requests := [sample_arrival 10000 8; sample_arrival 40000 1; sample_arrival 50000 0; sample_arrival 74999 2;
                   sample_arrival 200000 8] in
  let until := connection_deadline (0 + EXCHANGE_TIMEOUT) (updates_of requests) in
  until = 109999%Z ∧ (40000 + EXCHANGE_TIMEOUT + HANDSHAKE_TIMEOUT <= until)%Z.
Proof.
  intros requests. split; [reflexivity|].
  apply (connection_outlives_requests 0 requests (sample_arrival 40000 1)).
  - repeat constructor; vm_compute; discriminate.
  - right. left.
  - vm_compute. reflexivity.
Defined.
