(* ===== verification/Trees.v ===== *)
(** * Directory trees as sets of names

    Making a directory and removing one with what is below it, and lemmas on what
    is at or below a name and on moving it. *)

From S2P Require Import Prelude Text Fs Paths.

(** ** Operations *)

(** [q] is [p] or below it: what follows [p]. *)
Definition below (p q : path) : option bytes :=
  match strip_prefix p q with
  | Some r => if bool_decide (r = []) || starts_with (str "/") r then Some r else None
  | None => None
  end.
Definition names_below (p : path) (s : files) : list path :=
  filter (λ q, is_Some (below p q)) (map fst (map_to_list s)).

(** [fs::rename] of a directory: the tree under [from] becomes the tree under [to], which must be
    free or an empty directory. *)
Definition new_name (from to q : path) : path :=
  match below from q with Some r => to ++ r | None => q end.
Definition move_tree (from to : path) (s : files) : files :=
  list_to_map (map (λ x, (new_name from to x.1, x.2))
    (filter (λ x, below to x.1 = None) (map_to_list s))).
Definition rename_directory (E : environment) (from to : path) : M unit :=
  call E no_effect (λ s,
    match s !! from, s !! to with
    | Some (Directory _), None =>
        if in_directory s to then (Ok (), move_tree from to s) else (Err "no such file", s)
    | Some (Directory _), Some (Directory _) =>
        if decide (names_below to s = [to]) then (Ok (), move_tree from to s)
        else (Err "directory not empty", s)
    | Some _, _ => (Err "not a directory", s)
    | None, _ => (Err "no such file", s)
    end).

Definition remove_all (l : list path) (s : files) : files := foldr delete s l.
(** [TempDir]'s drop: what a failing or interrupted removal has removed is some of the tree. *)
Definition remove_dir_all (E : environment) (p : path) : M unit :=
  call E (λ n s, remove_all (take n (names_below p s)) s) (λ s, (Ok (), remove_all (names_below p s) s)).

Definition create_dir (E : environment) (p : path) (m : meta) : M unit :=
  call E no_effect (λ s, match s !! p with
                         | Some _ => (Err "file exists", s)
                         | None => if in_directory s p then (Ok (), <[p := Directory m]> s) else (Err "no such file", s)
                         end).

(** ** Lemmas *)

Lemma below_Some p q r : below p q = Some r ↔ q = p ++ r ∧ (r = [] ∨ head r = Some "/"%char).
Proof.
  unfold below. destruct (strip_prefix p q) as [r'|] eqn:E.
  - apply strip_prefix_Some in E as ->.
    assert (starts_with (str "/") r' = true ↔ head r' = Some "/"%char) as Hh.
    { rewrite starts_with_spec. change (str "/") with ["/"%char].
      destruct r' as [|c r']; simpl; [split; [by intros []|done]|].
      split; [by intros [x [= ->]]|intros [= ->]; by exists r']. }
    destruct (bool_decide (r' = []) || _) eqn:Eb.
    + apply orb_true_iff in Eb. rewrite bool_decide_eq_true, Hh in Eb.
      split; [by intros [= ->]|]. by intros [?%app_inv_head _]; subst.
    + split; [done|]. intros [?%app_inv_head Hr]; subst.
      rewrite <-not_true_iff_false, orb_true_iff, bool_decide_eq_true, Hh in Eb. tauto.
  - split; [done|]. intros [-> _]. pose proof (proj2 (strip_prefix_Some p (p ++ r) r) eq_refl). congruence.
Qed.

Lemma below_self p : below p p = Some [].
Proof. apply below_Some. rewrite app_nil_r. auto. Qed.

Lemma below_app p r : (r = [] ∨ head r = Some "/"%char) → below p (p ++ r) = Some r.
Proof. intros Hr. by apply below_Some. Qed.

(** Of two trees that hold their common part, one is in the other. *)
Lemma below_disjoint p p' q :
  below p p' = None → below p' p = None → is_Some (below p q) → below p' q = None.
Proof.
  intros H1 H2 [r [-> Hr]%below_Some]. destruct (below p' (p ++ r)) as [r'|] eqn:E; [|done].
  apply below_Some in E as [E Hr']. exfalso. apply app_eq_app in E as (l & [[-> ->]|[-> ->]]).
  - assert (below p' (p' ++ l) = Some l) as H; [|congruence]. apply below_app.
    destruct l as [|c l]; [by left|]. right. destruct Hr' as [Hr'|Hr']; [done|exact Hr'].
  - assert (below p (p ++ l) = Some l) as H; [|congruence]. apply below_app.
    destruct l as [|c l]; [by left|]. right. destruct Hr as [Hr|Hr]; [done|exact Hr].
Qed.

Lemma move_tree_lookup from to s r :
  below from to = None → below to from = None → (r = [] ∨ head r = Some "/"%char) →
  move_tree from to s !! (to ++ r) = s !! (from ++ r).
Proof.
  intros H1 H2 Hr. unfold move_tree. set (l := filter _ _).
  assert (∀ x, x ∈ l ↔ below to x.1 = None ∧ s !! x.1 = Some x.2) as Hl.
  { intros [q n]. unfold l. rewrite list_elem_of_filter, elem_of_map_to_list. done. }
  assert (NoDup (map (λ x, (new_name from to x.1, x.2)) l).*1) as Hnd.
  { rewrite <-list_fmap_compose. apply NoDup_fmap_2_strong.
    - intros [q n] [q' n'] [Hq Hs]%Hl [Hq' Hs']%Hl. simpl in *. unfold new_name.
      destruct (below from q) as [x|] eqn:Ex, (below from q') as [x'|] eqn:Ex'.
      + apply below_Some in Ex as [-> _], Ex' as [-> _]. intros ->%app_inv_head. congruence.
      + apply below_Some in Ex as [-> Hx]. intros <-. by rewrite below_app in Hq'.
      + apply below_Some in Ex' as [-> Hx]. intros ->. by rewrite below_app in Hq.
      + intros ->. congruence.
    - apply NoDup_filter, NoDup_map_to_list. }
  apply option_eq. intros n. rewrite <-elem_of_list_to_map by done.
  rewrite list_elem_of_fmap. split.
  - intros ([q n'] & [= Hq ->] & [Hto Hs]%Hl). simpl in *. unfold new_name in Hq.
    destruct (below from q) as [x|] eqn:Ex.
    + apply below_Some in Ex as [-> _]. apply app_inv_head in Hq as ->. done.
    + subst q. by rewrite below_app in Hto.
  - intros Hs. exists (from ++ r, n). split.
    + unfold new_name. simpl. by rewrite below_app.
    + apply Hl. split; [|done]. simpl. apply (below_disjoint from to); [done..|]. rewrite below_app; eauto.
Qed.

Lemma remove_all_lookup l s q : q ∉ l → remove_all l s !! q = s !! q.
Proof.
  induction l as [|x l IH]; [done|]. intros [H1 H2]%not_elem_of_cons. simpl.
  rewrite lookup_delete_ne by done. by apply IH.
Qed.

Lemma names_below_below p s q : q ∈ names_below p s → is_Some (below p q).
Proof. unfold names_below. by intros [? _]%list_elem_of_filter. Qed.
