(* ===== verification/GatewayCa.v ===== *)
(** * The gateway's certificate authority (src/src/gateway.rs)

    [init] creates the authority's key and certificate in a staging directory
    and publishes both by renaming it; [load_ca] checks what is there; [run]
    prepares the certificates the gateway serves with. Making keys, signing
    certificates and reading PEM are parameters. *)

From S2P Require Import Prelude Text Fs Paths Config ConfigSpec Trees Gateway.

(** ** The authority *)

Section authority.
Context (E : environment) (P : process).
(** The name of a temporary directory; a new key and its certificate, in PEM; whether a key and a
    certificate belong together and can issue. *)
Context (fresh : nat → bytes) (generate : nat → result (bytes * bytes)) (identity : bytes → bytes → result unit).

Definition observe {A : Type} (o : nat → result A) : M A := λ w, query E (λ _, o (tick w)) w.

Definition write_private (p : path) (data : bytes) : M unit :=
  created ← create_new E p (Meta (user P) (group P) 384);
  _ ← guard created "file exists";
  _ ← write_all E p data;
  sync_all E p.

(** [try_exists]: unlike [exists], it reports a failing call. *)
Definition try_exists (p : path) : M bool :=
  found ← lookup_node E p;
  mret match found with Some n => present n | None => false end.

Definition check_ca_file (ca_dir : path) (name : string) : M unit :=
  found ← lookup_node E (path_join ca_dir (str name));
  match found with
  | Some (File d m) =>
      _ ← guard (len d <=? MAX_CONFIG_BYTES)%Z "CA file exceeds 64 KiB";
      if String.eqb name "key.pem"
      then guard (bool_decide (Z.land (perm m) 63 = 0%Z)) "CA private key permissions must be 0600"
      else mret ()
  | Some _ => throw "CA file must be a regular file"
  | None => throw "no such file"
  end.
Definition read_text (p : path) : M bytes :=
  query E (λ s, match data_at s p with
                | Some d => if utf8_valid d then Ok d else Err "stream did not contain valid UTF-8"
                | None => Err "no such file"
                end).
Definition load_ca (ca_dir : path) : M (bytes * bytes) :=
  found ← lookup_node E ca_dir;
  match found with
  | Some (Directory m) =>
      _ ← guard (bool_decide (Z.land (perm m) 63 = 0%Z)) "CA directory permissions must be 0700";
      _ ← check_ca_file ca_dir "key.pem";
      _ ← check_ca_file ca_dir "ca.pem";
      key ← read_text (path_join ca_dir (str "key.pem"));
      pem ← read_text (path_join ca_dir (str "ca.pem"));
      _ ← lift (identity key pem);
      mret (key, pem)
  | Some _ => throw "CA directory must be a real directory"
  | None => throw "no such file"
  end.

(** From the staging directory to the publication. The directory is removed in the end, whatever
    happened; after the rename there is nothing left to remove. *)
Definition publish (state_dir ca_dir : path) : M unit :=
  name ← observe (λ t, Ok (fresh t));
  let staging := path_join state_dir (str ".gateway-ca-" ++ name) in
  _ ← create_dir E staging (Meta (user P) (group P) 448);
  result ← attempt
    (_ ← set_permissions E staging 448;
     '(key, cert) ← observe generate;
     _ ← write_private (path_join staging (str "key.pem")) key;
     _ ← write_private (path_join staging (str "ca.pem")) cert;
     renamed ← attempt (rename_directory E staging ca_dir);
     _ ← match renamed with
         | Ok _ => mret ()
         | Err e => present ← try_exists ca_dir; guard present e
         end;
     sync_directory E state_dir);
  _ ← attempt (remove_dir_all E staging);
  lift result.

Definition init (state_dir : path) : M path :=
  _ ← create_dir_all E P state_dir;
  let ca_dir := path_join state_dir (str "gateway-ca") in
  present ← try_exists ca_dir;
  _ ← (if present : bool then mret () else publish state_dir ca_dir);
  _ ← load_ca ca_dir;
  mret (path_join ca_dir (str "ca.pem")).

(** ** Starting the gateway *)

(** A certificate for a host, signed with the authority; [serde_json::from_slice]; whether the lock
    of the state directory is free. *)
Context {certificate : Type} (issue : nat → bytes → bytes → bytes → result certificate).
Context (parse : bytes → result Config) (try_lock : nat → result unit).

Fixpoint issue_all (key pem : bytes) (hosts : list bytes) : M (list (bytes * certificate)) :=
  match hosts with
  | [] => mret []
  | h :: hosts =>
      c ← observe (λ t, issue t key pem h);
      l ← issue_all key pem hosts;
      mret ((h, c) :: l)
  end.

(** The certificates of the resolver, by server name. *)
Definition tls_config (state_dir : path) (routes : list (bytes * Z)) : M (list (bytes * certificate)) :=
  _ ← init state_dir;
  '(key, pem) ← load_ca (path_join state_dir (str "gateway-ca"));
  issue_all key pem (map fst routes).

(** [run] up to [serve]. *)
Definition run (state_dir config_path : path) : M (Config * list (bytes * certificate)) :=
  c ← read E parse config_path;
  tls ← tls_config state_dir (routes c);
  let lock_path := path_join state_dir (str "gateway.lock") in
  found ← attempt (lookup_node E lock_path);
  _ ← guard match found with Ok (Some (File _ _)) | Ok None | Err _ => true | Ok (Some _) => false end
        "gateway lock must be a regular file";
  _ ← call E no_effect (λ s, match s !! lock_path with
        | None => (Ok (), <[lock_path := File [] (Meta (user P) (group P) 384)]> s)
        | Some (Directory _) => (Err "is a directory", s)
        | Some _ => (Ok (), s)
        end);
  _ ← observe try_lock;
  mret (c, tls).

End authority.
