(* ===== verification/GatewayCaSpec.v ===== *)
(** * What publishing the authority guarantees

    Whatever fails and whoever else initializes, the authority is absent or
    complete, and a complete one is never replaced. *)

From S2P Require Import Prelude Text Fs Paths Config ConfigSpec Trees Gateway GatewayCa.

(** ** The states of an initialization *)

Section init.
Context (E : environment) (P : process).
Context (fresh : nat → bytes) (generate : nat → result (bytes * bytes)) (identity : bytes → bytes → result unit).
Context (state_dir : path).

Abbreviation ca := (path_join state_dir (str "gateway-ca")).
Definition staging (t : nat) : path := path_join state_dir (str ".gateway-ca-" ++ fresh t).
Abbreviation key_in d := (path_join d (str "key.pem")).
Abbreviation cert_in d := (path_join d (str "ca.pem")).

(** Nothing is there; or a private directory with a private key and its certificate. [paired] says
    that one was generated with the other. *)
Context (paired : bytes → bytes → Prop).
Definition absent (s : files) : Prop := ∀ q, is_Some (below ca q) → s !! q = None.
Definition private_dir (n : node) : Prop := ∃ m, n = Directory m ∧ Z.land (perm m) 63 = 0%Z.
Definition private_file (d : bytes) (n : node) : Prop := ∃ m, n = File d m ∧ Z.land (perm m) 63 = 0%Z.
Definition has (s : files) (x : path * (node → Prop)) : Prop := ∃ n, s !! x.1 = Some n ∧ x.2 n.
Definition holds_identity (k c : bytes) (s : files) : Prop :=
  Forall (has s) [(ca, private_dir); (key_in ca, private_file k); (cert_in ca, private_file c)].
Definition published (s : files) : Prop := ∃ k c, paired k c ∧ holds_identity k c s.
(** What another process, or this one after an interruption, can find. *)
Definition sound (s : files) : Prop := absent s ∨ published s.

(** Generated keys and certificates belong together; other processes initialize the authority the
    same way, and leave this one's staging directory alone. *)
Context (generated : ∀ t k c, generate t = Ok (k, c) → paired k c).
Context (others_sound : stable E sound) (others_keep : ∀ k c, stable E (holds_identity k c)).
Context (others_staging : ∀ t u s q, is_Some (below (staging u) q) → interfere E t s !! q = s !! q).
(** The names are apart. *)
Record apart : Prop := {
  a_staging : ∀ t, below ca (staging t) = None ∧ below (staging t) ca = None;
  a_children : ∀ d, d = ca ∨ (∃ t, d = staging t) →
    key_in d = d ++ str "/key.pem" ∧ cert_in d = d ++ str "/ca.pem";
  a_lock : below ca (path_join state_dir (str "gateway.lock")) = None;
  a_state : Forall (λ q, below ca q = None) (ancestors state_dir)
}.
Context (names_apart : apart).

(** What an initialization relies on while it runs, [I], and what it ends with, [J]. *)
Record contract (I J : files → Prop) : Prop := {
  c_stable : stable E I;
  c_stable_end : stable E J;
  c_same : ∀ s s', (∀ q, is_Some (below ca q) → s' !! q = s !! q) → I s → I s';
  c_same_end : ∀ s s', (∀ q, is_Some (below ca q) → s' !! q = s !! q) → J s → J s';
  c_into : ∀ s, J s → I s;
  c_present : ∀ s, I s → s !! ca ≠ None → J s;
  c_complete : ∀ s, J s → ∃ k c, holds_identity k c s;
  c_done : ∀ s s' k c, I s → s !! ca = None → paired k c → holds_identity k c s' → J s'
}.

Lemma outside_ca u q : is_Some (below (staging u) q) → below ca q = None.
Proof using names_apart.
  destruct names_apart as [Hs _ _ _]. destruct (Hs u) as [H1 H2]. by apply below_disjoint.
Qed.

Lemma has_same (s s' : files) x : s' !! x.1 = s !! x.1 → has s x → has s' x.
Proof. unfold has. by intros ->. Qed.

Lemma has_from (s s' : files) p p' (N : node → Prop) : s' !! p' = s !! p → has s (p, N) → has s' (p', N).
Proof. unfold has. simpl. by intros ->. Qed.

Lemma holds_identity_same k c (s s' : files) :
  (∀ q, is_Some (below ca q) → s' !! q = s !! q) → holds_identity k c s → holds_identity k c s'.
Proof using names_apart.
  destruct names_apart as [_ Hc _ _]. destruct (Hc ca (or_introl eq_refl)) as [Hk Hp].
  intros Hsame. unfold holds_identity. rewrite !Forall_cons, Hk, Hp. intros (H1 & H2 & H3 & _).
  split_and!; [| | |constructor]; (eapply has_same; [apply Hsame; simpl|done]).
  - rewrite below_self. eauto.
  - rewrite below_app; [eauto|by right].
  - rewrite below_app; [eauto|by right].
Qed.

Lemma sound_same (s s' : files) : (∀ q, is_Some (below ca q) → s' !! q = s !! q) → sound s → sound s'.
Proof using names_apart.
  intros Hsame [Ha|(k & c & Hp & Hh)]; [left|right].
  - intros q Hq. rewrite Hsame by done. by apply Ha.
  - exists k, c. split; [done|]. by eapply holds_identity_same.
Qed.

Lemma published_same (s s' : files) :
  (∀ q, is_Some (below ca q) → s' !! q = s !! q) → published s → published s'.
Proof using names_apart.
  intros Hsame (k & c & Hp & Hh). exists k, c. split; [done|]. by eapply holds_identity_same.
Qed.

(** An absent or complete authority ends as a complete one. *)
Lemma contract_sound : contract sound published.
Proof using names_apart others_keep others_sound.
  split; [done| |exact sound_same|exact published_same|by right| | |].
  - intros t s (k & c & Hp & Hh). exists k, c. split; [done|]. by apply others_keep.
  - intros s [Ha|?] Hs; [|done]. destruct Hs. apply Ha. rewrite below_self. eauto.
  - intros s (k & c & _ & Hh). eauto.
  - intros s s' k c _ _ Hp Hh. by exists k, c.
Qed.

(** A complete one stays. *)
Lemma contract_kept k c : contract (holds_identity k c) (holds_identity k c).
Proof using names_apart others_keep.
  split; [done..|exact (holds_identity_same k c)|exact (holds_identity_same k c)|done|done|eauto|].
  intros s s' k' c' [(n & Hn & _) _]%Forall_cons Hs. simpl in *. congruence.
Qed.

Section contract.
Context (I J : files → Prop) (Hc : contract I J).

(** While the staging directory [staging u] is filled it holds these entries. *)
Definition staged (u : nat) (l : list (path * (node → Prop))) (s : files) : Prop :=
  I s ∧ Forall (has s) l.
Definition within (u : nat) (l : list (path * (node → Prop))) : Prop :=
  Forall (λ x, is_Some (below (staging u) x.1)) l.

Lemma staged_stable u l : within u l → stable E (staged u l).
Proof using others_staging Hc.
  intros Hl t s [Hs Hh]. split; [by apply (c_stable _ _ Hc)|].
  unfold within in Hl. rewrite Forall_forall in *. intros x Hx. eapply has_same; [|by apply Hh].
  eapply others_staging. by apply Hl.
Qed.

(** A change at one name of the staging directory. *)
Lemma staged_insert u l p n (N : node → Prop) s :
  is_Some (below (staging u) p) → p ∉ map fst l → N n → staged u l s →
  staged u ((p, N) :: l) (<[p := n]> s).
Proof using names_apart Hc.
  intros Hp Hn HN [Hs Hl]. split.
  - apply (c_same _ _ Hc s); [|done]. intros q Hq. rewrite lookup_insert_ne; [done|].
    intros ->. apply outside_ca in Hp. by destruct Hq; congruence.
  - constructor; [exists n; by rewrite lookup_insert_eq|]. rewrite Forall_forall in *.
    intros x Hx. eapply has_same; [|by apply Hl]. rewrite lookup_insert_ne; [done|].
    intros ->. apply Hn. by apply list_elem_of_fmap_2.
Qed.

Lemma staged_invariant u l s : staged u l s → I s.
Proof. by intros [? _]. Qed.
Lemma staged_tail u x l s : staged u (x :: l) s → staged u l s.
Proof. intros [? [_ ?]%Forall_cons]. by split. Qed.

Lemma observe_spec {A : Type} (K : files → Prop) (o : nat → result A) (X H : files → Prop) :
  stable E K → (∀ s, K s → X s) → (∀ s, K s → H s) →
  triple K (observe E o) (λ a s, (∃ t, o t = Ok a) ∧ K s) X H.
Proof using.
  intros HK HX HH w Hw. pose proof (triple_query E K (λ _, o (tick w)) (λ a s, (∃ t, o t = Ok a) ∧ K s) X H) as Hq.
  apply Hq; eauto.
Qed.

(** Appending to the file written last. *)
Lemma staged_append u l p (d e : bytes) s :
  is_Some (below (staging u) p) → p ∉ map fst l → staged u ((p, private_file d) :: l) s →
  ∃ n, on_file p (λ d m, ((), File (d ++ e) m)) s = (Ok (), <[p := n]> s) ∧
    staged u ((p, private_file (d ++ e)) :: l) (<[p := n]> s).
Proof using names_apart Hc.
  intros Hp Hn Hs. pose proof Hs as [_ [(n & Hnode & m & -> & Hm) _]%Forall_cons]. simpl in Hnode.
  unfold on_file. rewrite Hnode. eexists. split; [done|].
  apply staged_tail in Hs. apply staged_insert; try done. by exists m.
Qed.

Lemma write_private_spec u l p (data : bytes) :
  within u l → is_Some (below (staging u) p) → p ∉ map fst l →
  triple (staged u l) (write_private E P p data) (λ _, staged u ((p, private_file data) :: l)) I I.
Proof using names_apart others_staging Hc.
  intros Hl Hp Hn. assert (∀ d, within u ((p, private_file d) :: l)) as Hx by (intros d; by constructor).
  eapply triple_bind with (R := λ b, if b : bool then staged u ((p, private_file []) :: l) else I).
  { apply triple_call; [by apply staged_stable| |eauto using staged_invariant..].
    intros s Hs. destruct (s !! p) eqn:Ep; [by eapply staged_invariant|].
    destruct (in_directory _ _); [|by eapply staged_invariant].
    apply staged_insert; try done. by exists (Meta (user P) (group P) 384). }
  intros a. eapply triple_bind with (R := λ _, staged u ((p, private_file []) :: l)).
  { apply triple_guard; [by intros s ->|]. destruct a; eauto using staged_invariant. }
  intros ?.
  eapply triple_bind with (R := λ _, staged u ((p, private_file data) :: l)).
  - apply triple_call; [by apply staged_stable| | |]; [intros s Hs|intros k s Hs..].
    + by destruct (staged_append u l p [] data s) as (n & -> & ?).
    + destruct (staged_append u l p [] (take k data) s) as (n & -> & ?); [done..|].
      by eapply staged_invariant.
    + destruct (staged_append u l p [] (take k data) s) as (n & -> & ?); [done..|].
      by eapply staged_invariant.
  - intros ?. apply triple_query; [by apply staged_stable|done|eauto using staged_invariant..].
Qed.

(** What the rename moves. *)
Abbreviation entries u k c :=
  [(cert_in (staging u), private_file c); (key_in (staging u), private_file k); (staging u, private_dir)].

Lemma rename_spec u k c :
  paired k c →
  triple (staged u (entries u k c)) (attempt (rename_directory E (staging u) ca))
    (λ r s, I s ∧ (r = Ok () → J s)) I I.
Proof using names_apart others_staging Hc.
  intros Hp. destruct names_apart as [Ha Hchild _ _].
  destruct (Ha u) as [H1 H2]. destruct (Hchild (staging u)) as [Hk Hcert]; [eauto|].
  destruct (Hchild ca) as [Hk' Hcert']; [auto|].
  apply triple_attempt, triple_call.
  - apply staged_stable. unfold within. rewrite !Forall_cons, Hk, Hcert. simpl.
    split_and!; [| | |constructor].
    + rewrite below_app; [eauto|by right].
    + rewrite below_app; [eauto|by right].
    + rewrite below_self. eauto.
  - intros s [Hs Hl]. rewrite !Forall_cons, Hk, Hcert in Hl. destruct Hl as (Hc3 & Hc2 & Hc1 & _).
    pose proof Hc1 as (n & Hn & m & -> & Hm). simpl in Hn. rewrite Hn.
    destruct (s !! ca) as [[d m'|m'| |]|] eqn:Eca; try (intros ?; split; [done|by intros [=]]).
    + rewrite decide_False; [intros ?; split; [done|by intros [=]]|]. intros Ht.
      assert (s !! ca ≠ None) as Hca by congruence.
      destruct (c_complete _ _ Hc s (c_present _ _ Hc s Hs Hca)) as (k' & c' & Hi).
      unfold holds_identity in Hi. rewrite !Forall_cons, Hk' in Hi.
      destruct Hi as (_ & (n' & Hn' & _) & _). simpl in Hn'.
      assert (ca ++ str "/key.pem" ∈ names_below ca s) as Hin.
      { unfold names_below. apply list_elem_of_filter. split; [rewrite below_app; [eauto|by right]|].
        apply list_elem_of_fmap. exists (ca ++ str "/key.pem", n'). split; [done|].
        by apply elem_of_map_to_list. }
      rewrite Ht in Hin. apply list_elem_of_singleton in Hin.
      rewrite <-(app_nil_r ca) in Hin at 2. by apply app_inv_head in Hin.
    + destruct (in_directory _ _); [|intros ?; split; [done|by intros [=]]].
      assert (J (move_tree (staging u) ca s)) as HJ; [|split; [by apply (c_into _ _ Hc)|done]].
      apply (c_done _ _ Hc s _ k c); try done. unfold holds_identity. rewrite !Forall_cons, Hk', Hcert'.
      split_and!; [| | |constructor]; (eapply has_from; [|done]); simpl.
      * pose proof (move_tree_lookup (staging u) ca s [] H2 H1 (or_introl eq_refl)) as Hm0.
        by rewrite !app_nil_r in Hm0.
      * apply move_tree_lookup; [done..|by right].
      * apply move_tree_lookup; [done..|by right].
  - intros ? s [Hs _] ?. split; [done|by intros [=]].
  - by intros ? s [Hs ?].
Qed.

(** Removing the staging directory, wholly or in part, touches nothing else. *)
Lemma remove_spec (K : files → Prop) u :
  stable E K → (∀ s s', (∀ q, is_Some (below ca q) → s' !! q = s !! q) → K s → K s') →
  keeps K (remove_dir_all E (staging u)).
Proof using names_apart.
  intros HK Hsame.
  assert (∀ l s, l ⊆ names_below (staging u) s → K s → K (remove_all l s)) as Hl.
  { intros l s Hl. apply Hsame. intros q Hq. apply remove_all_lookup. intros Hin.
    apply Hl, names_below_below, outside_ca in Hin. destruct Hq; congruence. }
  apply triple_call; [done| | |].
  - intros s Hs. by apply Hl.
  - intros n s Hs. apply Hl; [|done]. intros x Hx. by eapply elem_of_take in Hx as (? & ?%list_elem_of_lookup_2 & _).
  - intros n s Hs. apply Hl; [|done]. intros x Hx. by eapply elem_of_take in Hx as (? & ?%list_elem_of_lookup_2 & _).
Qed.

Lemma try_exists_spec : triple I (try_exists E ca) (λ b s, I s ∧ (b = true → J s)) I I.
Proof using Hc.
  eapply triple_bind with (R := λ found s, I s ∧ (found ≠ None → J s)).
  - apply triple_query; [apply (c_stable _ _ Hc)| |done|done].
    intros found s [= <-] Hs. split; [done|]. by apply (c_present _ _ Hc).
  - intros found. apply triple_ret. intros s [Hs Hj]. split; [done|].
    destruct found as [[]|]; intros; try done; by apply Hj.
Qed.

(** The staging directory is filled and renamed. *)
Lemma fill_spec u :
  triple (staged u [(staging u, private_dir)])
    (_ ← set_permissions E (staging u) 448;
     '(key, cert) ← observe E generate;
     _ ← write_private E P (key_in (staging u)) key;
     _ ← write_private E P (cert_in (staging u)) cert;
     renamed ← attempt (rename_directory E (staging u) ca);
     _ ← match renamed with
         | Ok _ => mret ()
         | Err e => present ← try_exists E ca; guard present e
         end;
     sync_directory E state_dir)
    (λ _, J) I I.
Proof using names_apart others_staging Hc generated.
  clear identity. destruct names_apart as [_ Hchild _ _]. destruct (Hchild (staging u)) as [Hk Hcert]; [eauto|].
  assert (is_Some (below (staging u) (key_in (staging u)))) as Bk by (rewrite Hk, below_app; [eauto|by right]).
  assert (is_Some (below (staging u) (cert_in (staging u)))) as Bc by (rewrite Hcert, below_app; [eauto|by right]).
  assert (is_Some (below (staging u) (staging u))) as Bs by (rewrite below_self; eauto).
  assert (∀ r, r ≠ [] → staging u ++ r ≠ staging u) as Hne.
  { intros r Hr Hn. rewrite <-(app_nil_r (staging u)) in Hn at 2. by apply app_inv_head in Hn. }
  eapply triple_bind with (R := λ _, staged u [(staging u, private_dir)]).
  { apply triple_call; [by apply staged_stable; repeat constructor| |eauto using staged_invariant..].
    intros s Hs. pose proof Hs as [_ [(n & Hn & m & -> & Hm) _]%Forall_cons]. simpl in Hn. rewrite Hn.
    apply staged_tail in Hs. apply staged_insert; [done|by apply not_elem_of_nil| |done]. by eexists. }
  intros ?. eapply triple_bind; [apply observe_spec; [by apply staged_stable; repeat constructor|eauto using staged_invariant..]|].
  intros [k c]. apply triple_pure. intros [t Hp%generated].
  eapply triple_bind; [apply write_private_spec; [by repeat constructor|done|]|intros ?].
  { simpl. rewrite list_elem_of_singleton, Hk. by apply Hne. }
  eapply triple_bind; [apply write_private_spec; [by repeat constructor|done|]|intros ?].
  { simpl. rewrite Hk, Hcert, not_elem_of_cons, list_elem_of_singleton. split; [|by apply Hne].
    by intros ?%app_inv_head. }
  eapply triple_bind; [by apply rename_spec|]. intros renamed.
  eapply triple_bind with (R := λ _, J).
  - destruct renamed as [[]|e]; [apply triple_ret; naive_solver|].
    eapply triple_bind; [eapply triple_pre; [apply try_exists_spec|by intros s [? ?]]|].
    intros present. apply triple_guard; naive_solver.
  - intros ?. apply triple_query; [apply (c_stable_end _ _ Hc)|done|by apply (c_into _ _ Hc)..].
Qed.

Lemma publish_spec : triple I (publish E P fresh generate state_dir ca) (λ _, J) I I.
Proof using names_apart others_staging Hc generated.
  clear identity. unfold publish. eapply triple_bind; [apply observe_spec; [apply (c_stable _ _ Hc)|done..]|].
  intros name. apply triple_pure. intros [u [= <-]]. fold (staging u). cbv zeta.
  assert (is_Some (below (staging u) (staging u))) as Bs by (rewrite below_self; eauto).
  eapply triple_bind with (R := λ _, staged u [(staging u, private_dir)]).
  { apply triple_call; [apply (c_stable _ _ Hc)| |done..].
    intros s Hs. destruct (s !! staging u) eqn:En; [done|].
    destruct (in_directory _ _); [|done].
    apply staged_insert; [done|by apply not_elem_of_nil|by eexists|by split]. }
  intros ?. eapply triple_bind with (R := λ r s, match r with Ok _ => J s | Err _ => I s end).
  { apply triple_attempt. eapply triple_post; [apply fill_spec|done..]. }
  intros r. eapply triple_bind with (R := λ _ s, match r with Ok _ => J s | Err _ => I s end).
  - destruct r as [[]|e].
    + eapply triple_post; [apply keeps_attempt, remove_spec|done|by apply (c_into _ _ Hc)..];
        [apply (c_stable_end _ _ Hc)|apply (c_same_end _ _ Hc)].
    + apply keeps_attempt, remove_spec; [apply (c_stable _ _ Hc)|apply (c_same _ _ Hc)].
  - intros ?. destruct r as [[]|e]; [by apply triple_ret|by apply triple_throw].
Qed.

Lemma init_spec : triple I (init E P fresh generate identity state_dir) (λ _, J) I I.
Proof using names_apart others_staging Hc generated identity.
  unfold init. eapply triple_bind with (R := λ _, I).
  { assert (∀ n s, I s → I (create_dirs P (drop n (ancestors state_dir)) s)) as Hdirs.
    { intros n s. apply (c_same _ _ Hc). intros q Hq. apply create_dirs_entry.
      destruct names_apart as [_ _ _ Hs]. rewrite Forall_forall in Hs.
      intros [i Hi]%list_elem_of_lookup. rewrite lookup_drop in Hi. apply list_elem_of_lookup_2, Hs in Hi.
      destruct Hq; congruence. }
    apply triple_call; [apply (c_stable _ _ Hc)| |auto..].
    intros s Hs. destruct (forallb _ _); [|done]. apply (Hdirs 0 s Hs). }
  intros ?. cbv zeta. eapply triple_bind; [apply try_exists_spec|]. intros present.
  eapply triple_bind with (R := λ _, J).
  { destruct present; [apply triple_ret; naive_solver|].
    eapply triple_pre; [apply publish_spec|by intros s [? ?]]. }
  intros ?. apply (triple_post _ _ (λ _, J) _ J _ J); [|done|apply (c_into _ _ Hc)..].
  pose proof (c_stable_end _ _ Hc) as Hst. match goal with |- triple ?K ?m _ _ _ => change (keeps K m) end.
  unfold load_ca, check_ca_file, read_text, lookup_node. keeps.
Qed.
End contract.

(** C8. However [init] fares, and whoever else initializes meanwhile, the authority is either absent
    or a complete private key and certificate that belong together; when [init] succeeds it is
    complete; and a complete authority that was there stays the same. *)
Theorem init_publishes :
  triple sound (init E P fresh generate identity state_dir) (λ _, published) sound sound ∧
  ∀ k c, keeps (holds_identity k c) (init E P fresh generate identity state_dir).
Proof using names_apart others_staging others_sound others_keep generated identity.
  split; [exact (init_spec _ _ contract_sound)|].
  intros k c. exact (init_spec _ _ (contract_kept k c)).
Qed.

(** ** Starting the gateway *)

Context {certificate : Type} (issue : nat → bytes → bytes → bytes → result certificate).
Context (parse : bytes → result Config) (try_lock : nat → result unit).

Lemma holds_identity_read k c s :
  holds_identity k c s →
  (∃ m, s !! key_in ca = Some (File k m)) ∧ (∃ m, s !! cert_in ca = Some (File c m)).
Proof using.
  unfold holds_identity. rewrite !Forall_cons.
  intros (_ & (n & Hn & m & -> & _) & (n' & Hn' & m' & -> & _) & _). eauto.
Qed.

(** What [load_ca] returns is the identity there is. *)
Lemma load_ca_spec k c :
  triple (holds_identity k c) (load_ca E identity ca)
    (λ r s, r = (k, c) ∧ identity k c = Ok () ∧ holds_identity k c s) (holds_identity k c) (holds_identity k c).
Proof using others_keep.
  pose proof (others_keep k c) as Hst.
  assert (∀ name, keeps (holds_identity k c) (check_ca_file E ca name)) as Hcheck.
  { intros name. unfold check_ca_file, lookup_node. keeps. }
  eapply triple_bind; [by apply keeps_query|]. intros [[| | |]|]; try (by apply triple_throw).
  eapply triple_bind; [apply keeps_guard|]. intros ?.
  eapply triple_bind; [apply Hcheck|]. intros ?. eapply triple_bind; [apply Hcheck|]. intros ?.
  eapply triple_bind with (R := λ r s, r = k ∧ holds_identity k c s).
  { apply triple_query; [done| |done..]. intros d s Hd Hs.
    destruct (holds_identity_read _ _ _ Hs) as [[m' Hk] _]. unfold data_at in Hd. rewrite Hk in Hd. simpl in Hd.
    destruct (utf8_valid k); by simplify_eq. }
  intros key. apply triple_pure. intros ->.
  eapply triple_bind with (R := λ r s, r = c ∧ holds_identity k c s).
  { apply triple_query; [done| |done..]. intros d s Hd Hs.
    destruct (holds_identity_read _ _ _ Hs) as [_ [m' Hk]]. unfold data_at in Hd. rewrite Hk in Hd. simpl in Hd.
    destruct (utf8_valid c); by simplify_eq. }
  intros pem. apply triple_pure. intros ->.
  eapply triple_bind with (R := λ _ s, identity k c = Ok () ∧ holds_identity k c s).
  { apply triple_lift; [by intros []|done]. }
  intros ?. by apply triple_ret.
Qed.

(** One certificate for each name, issued with this identity. *)
Definition issued (k c : bytes) (hosts : list bytes) (tls : list (bytes * certificate)) : Prop :=
  Forall2 (λ h x, x.1 = h ∧ ∃ t, issue t k c h = Ok x.2) hosts tls.

Lemma issue_all_spec (K : files → Prop) k c hosts :
  stable E K → triple K (issue_all E issue k c hosts) (λ r s, issued k c hosts r ∧ K s) K K.
Proof using.
  intros HK. induction hosts as [|h hosts IH]; simpl.
  { apply triple_ret. intros s Hs. split; [by constructor|done]. }
  eapply triple_bind; [by apply observe_spec|]. intros x. apply triple_pure. intros Hx.
  eapply triple_bind; [apply IH|]. intros l. apply triple_pure. intros Hl.
  apply triple_ret. intros s Hs. split; [by constructor|done].
Qed.

Lemma read_spec (K : files → Prop) p :
  stable E K → triple K (read E parse p) (λ c s, validate c = Ok () ∧ K s) K K.
Proof using.
  intros HK. eapply triple_bind; [by apply keeps_query|]. intros data.
  eapply triple_bind; [apply keeps_guard|]. intros ?.
  eapply triple_bind; [apply keeps_lift|]. intros x.
  eapply triple_bind with (R := λ _ s, validate x = Ok () ∧ K s); [apply triple_lift; [by intros []|done]|].
  intros ?. by apply triple_ret.
Qed.

(** What the gateway starts with: a valid configuration, and for each of its routes a certificate
    issued with the published identity. *)
Definition ready (r : Config * list (bytes * certificate)) (s : files) : Prop :=
  validate r.1 = Ok () ∧
  ∃ x, paired x.1 x.2 ∧ identity x.1 x.2 = Ok () ∧ issued x.1 x.2 (map fst (routes r.1)) r.2 ∧
    holds_identity x.1 x.2 s.

Lemma ready_same r (s s' : files) :
  (∀ q, is_Some (below ca q) → s' !! q = s !! q) → ready r s → ready r s'.
Proof using names_apart.
  intros Hs (Hv & x & Hp & Hi & Ht & Hx). split; [done|]. exists x. split_and!; try done.
  by eapply holds_identity_same.
Qed.
Lemma ready_stable r : stable E (ready r).
Proof using others_keep.
  intros t s (Hv & x & Hp & Hi & Ht & Hx). split; [done|]. exists x. split_and!; try done.
  by apply others_keep.
Qed.
Lemma ready_sound r s : ready r s → sound s.
Proof using. intros (_ & [k c] & Hp & _ & _ & Hx). right. by exists k, c. Qed.

Lemma tls_config_spec c :
  validate c = Ok () →
  triple sound (tls_config E P fresh generate identity issue state_dir (routes c))
    (λ tls, ready (c, tls)) sound sound.
Proof using names_apart others_staging others_sound others_keep generated identity.
  intros Hv. eapply triple_bind; [apply (init_spec _ _ contract_sound)|]. intros ?.
  eapply triple_bind with (R := λ r s, (paired r.1 r.2 ∧ identity r.1 r.2 = Ok ()) ∧ holds_identity r.1 r.2 s).
  { apply (triple_pre (λ s, ∃ x, paired x.1 x.2 ∧ holds_identity x.1 x.2 s)); [|intros s (k & c' & ?); by exists (k, c')].
    apply triple_exists. intros [k c']. apply triple_pure. intros Hp. simpl.
    eapply triple_post; [apply (load_ca_spec k c')| | |].
    - by intros ? s (-> & Hi & Hs).
    - intros s Hs. right. by exists k, c'.
    - intros s Hs. right. by exists k, c'. }
  intros [k c']. apply triple_pure. intros [Hp Hi]. simpl in *.
  eapply triple_post; [apply (issue_all_spec (holds_identity k c')), others_keep| | |].
  - intros tls s [Ht Hs]. split; [done|]. by exists (k, c').
  - intros s Hs. right. by exists k, c'.
  - intros s Hs. right. by exists k, c'.
Qed.

(** C26. When the gateway starts serving, its configuration is valid and it holds, for exactly the
    configured names, certificates issued with the published authority, whose key and certificate
    belong together; when it does not start, the authority is still absent or complete. *)
Theorem gateway_ready config_path :
  triple sound
    (GatewayCa.run E P fresh generate identity issue parse try_lock state_dir config_path)
    ready sound sound.
Proof using names_apart others_staging others_sound others_keep generated identity.
  eapply triple_bind; [by apply read_spec|]. intros c. apply triple_pure. intros Hv.
  eapply triple_bind; [by apply tls_config_spec|]. intros tls. cbv zeta.
  pose proof (ready_stable (c, tls)) as Hst. pose proof (ready_sound (c, tls)) as Hs.
  assert (∀ A (m : M A), keeps (ready (c, tls)) m → triple (ready (c, tls)) m (λ _, ready (c, tls)) sound sound) as Hk.
  { intros A m Hm. by apply keeps_step. }
  eapply triple_bind; [apply Hk, keeps_attempt; by apply keeps_query|]. intros found.
  eapply triple_bind; [apply Hk, keeps_guard|]. intros ?.
  eapply triple_bind with (R := λ _, ready (c, tls)).
  { apply triple_call; [done| |done..]. intros s Hr. destruct (s !! path_join _ _) as [[]|]; eauto.
    eapply ready_same; [|done]. intros q Hq. rewrite lookup_insert_ne; [done|]. intros <-.
    rewrite (a_lock names_apart) in Hq. by destruct Hq. }
  intros ?. eapply triple_bind; [by apply observe_spec|]. intros ?. apply triple_ret. by intros s [_ ?].
Qed.
End init.

(** ** Concrete inputs *)

Definition sample_pair (k c : bytes) : Prop := k = str "K" ∧ c = str "C".
Definition sample_generate (t : nat) : result (bytes * bytes) := Ok (str "K", str "C").
Lemma sample_generated t k c : sample_generate t = Ok (k, c) → sample_pair k c.
Proof. intros [= <- <-]. split; reflexivity. Qed.

Lemma sample_apart : apart (λ _, str "x1") (str "/s").
Proof.
  split.
  - intros t. split; vm_compute; reflexivity.
  - intros d [->|[t ->]]; split; vm_compute; reflexivity.
  - vm_compute. reflexivity.
  - apply (bool_decide_unpack _). vm_compute. reflexivity.
Qed.

(** Initializing in an empty directory publishes the generated pair. *)
Lemma init_publishes_witness :
  match init quiet_environment sample_process (λ _, str "x1") sample_generate (λ _ _, Ok ())
          (str "/s") (World 0 ∅ []) with
  | (Ret p, w) => p = str "/s/gateway-ca/ca.pem" ∧ published (str "/s") sample_pair (fs w)
  | _ => False
  end.
Proof.
  pose proof (init_publishes quiet_environment sample_process (λ _, str "x1")
    sample_generate (λ _ _, Ok ()) (str "/s") sample_pair
    sample_generated (λ t s Hs, Hs) (λ k c t s Hs, Hs) (λ t u s q Hq, eq_refl) sample_apart) as [H _].
  specialize (H (World 0 ∅ []) (or_introl (λ q _, lookup_empty q))).
  destruct (init _ _ _ _ _ _ _) as [o w] eqn:Ei.
  assert (o = Ret (str "/s/gateway-ca/ca.pem")) as ->.
  { apply (f_equal fst) in Ei. vm_compute in Ei. symmetry. exact Ei. }
  split; [reflexivity|exact H].
Defined.

Definition sample_gateway : Config :=
  {| listen_port := 8443; routes := [(str "app.localhost", 3000%Z)] |}.

(** A gateway with one route, started in a directory without an authority. *)
Lemma gateway_ready_witness :
  match GatewayCa.run quiet_environment sample_process (λ _, str "x1") sample_generate (λ _ _, Ok ())
          (λ _ k c h, Ok (k ++ c ++ h)) (λ _, Ok sample_gateway) (λ _, Ok ()) (str "/s") (str "/g.json")
          (World 0 (<[str "/g.json" := File (str "{}") (Meta 501 20 420)]> ∅) []) with
  | (Ret (c, tls), w) => tls = [(str "app.localhost", str "KCapp.localhost")] ∧ published (str "/s") sample_pair (fs w)
  | _ => False
  end.
Proof.
  pose proof (gateway_ready quiet_environment sample_process (λ _, str "x1")
    sample_generate (λ _ _, Ok ()) (str "/s") sample_pair
    sample_generated (λ t s Hs, Hs) (λ k c t s Hs, Hs) (λ t u s q Hq, eq_refl) sample_apart
    (λ _ k c h, Ok (k ++ c ++ h)) (λ _, Ok sample_gateway) (λ _, Ok ()) (str "/g.json")
    (World 0 (<[str "/g.json" := File (str "{}") (Meta 501 20 420)]> ∅) [])) as H.
  match type of H with ?A → _ => assert A as Hpre end.
  { left. intros q [r [-> _]%below_Some]. simpl fs. rewrite lookup_insert_ne; [reflexivity|]. vm_compute. discriminate. }
  specialize (H Hpre). clear Hpre.
  destruct (GatewayCa.run _ _ _ _ _ _ _ _ _ _ _) as [o w] eqn:Ei.
  assert (o = Ret (sample_gateway, [(str "app.localhost", str "KCapp.localhost")])) as ->.
  { apply (f_equal fst) in Ei. vm_compute in Ei. symmetry. exact Ei. }
  split; [reflexivity|]. destruct H as (_ & [k c] & Hp & _ & _ & Hx). exists k, c. split; [exact Hp|exact Hx].
Defined.
