(* ===== verification/Process.v ===== *)
(** * Running commands (src/src/process.rs)

    [capture] reads a child's two pipes until both are closed and the child has
    exited, within a limit of output, a deadline and the cancellation of the
    operation; on failure [terminate_group] signals the child's process group. A
    run is given what each turn of a loop sees, and lists what it does to the
    child. *)

From S2P Require Import Prelude Text.

Definition MAX_OUTPUT : Z := 4 * 1024 * 1024.

(** What is done to the child. [TryWait (Ok (Some status))] reaps it. *)
Inductive action :=
| TryWait (r : result (option Z))
| SignalGroup (kill : bool)
| KillLeader.

(** The arm of [select!] that a turn takes. A read gives at most a chunk; an empty one is the end of
    the pipe. *)
Inductive event :=
| Cancelled
| TimedOut
| Exits (notified : bool)
| Stdout (r : result bytes)
| Stderr (r : result bytes).

(** One turn of the loop: what [try_wait] would give, and the arm that is ready. *)
Record turn := { waited : result (option Z); ready : event }.

Record Output := { status : Z; stdout : bytes; stderr : bytes }.

(** The state of [capture]. *)
Record pipes := { output : bytes; errors : bytes; output_closed : bool; errors_closed : bool }.

(** A read: the chunk is appended, unless the limit is exceeded. *)
Definition read_pipe (p : pipes) (from_stdout : bool) (r : result bytes) : result pipes :=
  chunk ← with_context (if from_stdout then "read dependency stdout" else "read dependency stderr") r;
  let closed := bool_decide (chunk = []) in
  _ ← ensure (len (output p) + len (errors p) + len chunk <=? MAX_OUTPUT)%Z
        "dependency command exceeded 4 MiB output limit";
  Ok (if from_stdout
      then {| output := output p ++ chunk; errors := errors p; output_closed := closed;
              errors_closed := errors_closed p |}
      else {| output := output p; errors := errors p ++ chunk; output_closed := output_closed p;
              errors_closed := closed |}).

Definition handle_event (p : pipes) (e : event) : result pipes :=
  match e with
  | Cancelled => Err "operation cancelled"
  | TimedOut => Err "dependency command timed out"
  | Exits notified => _ ← ensure notified "child exit notifications ended"; Ok p
  | Stdout r => if output_closed p then Ok p else read_pipe p true r
  | Stderr r => if errors_closed p then Ok p else read_pipe p false r
  end.

(** The loop. [None]: it is still running after these turns. An arm whose pipe is closed is
    disabled, so such a turn changes nothing. *)
Fixpoint capture_loop (turns : list turn) (p : pipes) : list action * option (result Output) :=
  match turns with
  | [] => ([], None)
  | t :: turns =>
      let continue :=
        match handle_event p (ready t) with
        | Err e => ([], Some (Err e))
        | Ok p => capture_loop turns p
        end in
      if output_closed p && errors_closed p then
        let '(rest, r) :=
          match waited t with
          | Err e => ([], Some (Err e))
          | Ok (Some status) =>
              ([], Some (Ok {| status := status; stdout := output p; stderr := errors p |}))
          | Ok None => continue
          end in
        (TryWait (waited t) :: rest, r)
      else continue
  end.
Definition capture (turns : list turn) : list action * option (result Output) :=
  capture_loop turns {| output := []; errors := []; output_closed := false; errors_closed := false |}.

(** The loop of [terminate_group] that reaps the leader: what [try_wait] gives and whether an exit
    is notified in each turn. It ends with the two seconds. *)
Fixpoint reap (turns : list (result (option Z) * bool)) : list action * result unit :=
  match turns with
  | [] => ([], Err "cancelled dependency did not exit within the cleanup deadline")
  | (w, notified) :: turns =>
      let '(rest, r) :=
        match w with
        | Err e => ([], Err e)
        | Ok (Some _) => ([], Ok ())
        | Ok None => if notified then reap turns else ([], Err "child exit notifications ended")
        end in
      (TryWait w :: rest, r)
  end.

(** The group's identifier is negative; the separator keeps [kill] from reading it as an option. *)
Definition signal_command (pid : N) (kill : bool) : list bytes :=
  [str "/bin/kill"; if kill then str "-KILL" else str "-TERM"; str "--"; str "-" ++ decimal pid].
(** The status of that command, [None] if it takes more than a second. *)
Definition signal_group (ran : option (result Z)) : result unit :=
  status ← ok_or ran "process-group signal command timed out";
  status ← status;
  ensure (status =? 0)%Z "process-group signal failed".

(** What [terminate_group] meets: the outcome of the KILL signal, and the turns of its loop. *)
Record cleanup := { kill_ran : option (result Z); reaping : list (result (option Z) * bool) }.
Definition killed (c : cleanup) : result unit := signal_group (kill_ran c).

Definition terminate_group (c : cleanup) : list action * result unit :=
  let '(waits, reaped) := reap (reaping c) in
  ([SignalGroup false; SignalGroup true] ++ (if is_ok (killed c) then [] else [KillLeader]) ++ waits,
   _ ← reaped; with_context "could not confirm dependency process-group termination" (killed c)).

(** [spawned]: the notifications of exits are registered and the child is started. *)
Definition run_async (spawned : result unit) (turns : list turn) (c : cleanup)
    : list action * option (result Output) :=
  match spawned with
  | Err e => ([], Some (Err e))
  | Ok _ =>
  let '(actions, captured) := capture turns in
  match captured with
  | None => (actions, None)
  | Some (Ok o) =>
      (actions, Some (
        _ ← ensure (utf8_valid (stdout o)) "dependency stdout is not UTF-8";
        _ ← ensure (utf8_valid (stderr o)) "dependency stderr is not UTF-8";
        Ok o))
  | Some (Err e) =>
      let '(more, cleaned) := terminate_group c in
      (actions ++ more,
       Some (with_context "dependency command failed; VM state may have changed; run `luhmen inspect` before retrying"
         (Err match cleaned with
              | Ok _ => e
              | Err f => "dependency cleanup also failed: " +:+ f +:+ ": " +:+ e
              end)))
  end
  end.

Definition run (is_cancelled : bool) (spawned : result unit) (turns : list turn) (c : cleanup)
    : list action * option (result Output) :=
  if is_cancelled then ([], Some (Err "operation cancelled")) else run_async spawned turns c.

(** [Output::success]. *)
Definition success (o : Output) (operation : string) : result bytes :=
  _ ← ensure (status o =? 0)%Z (operation +:+ " failed"); Ok (stdout o).

(** ** The engine's ping (src/src/engine.rs)

    The answer of the socket, [None] if the two seconds end first. *)
Definition crlf : bytes := ["013"; "010"]%char.
Fixpoint split_once_at (p s : bytes) : option (bytes * bytes) :=
  match strip_prefix p s with
  | Some rest => Some ([], rest)
  | None => match s with
            | [] => None
            | c :: s => '(l, r) ← split_once_at p s; Some (c :: l, r)
            end
  end.
Definition ping_response (received : bytes) : result unit :=
  let received := take (Z.to_nat 8193) received in
  _ ← ensure (len received <=? 8192)%Z "oversized Engine ping response";
  _ ← ensure (utf8_valid received) "invalid utf-8 sequence";
  '(head, body) ← ok_or (split_once_at (crlf ++ crlf) received) "invalid Engine ping response";
  _ ← ensure (starts_with (str "HTTP/1.0 200 ") head || starts_with (str "HTTP/1.1 200 ") head)
        "Engine ping returned a non-200 response";
  ensure (bool_decide (trim body = str "OK")) "Engine ping did not return OK".
Definition ping_async (answer : option (result bytes)) : result unit :=
  match answer with
  | None => Err "Docker Engine ping exceeded two seconds"
  | Some r => received ← r; ping_response received
  end.

(** ** Properties *)

Definition reaps (a : action) : bool := match a with TryWait (Ok (Some _)) => true | _ => false end.
Definition waits (a : action) : bool := match a with TryWait _ => true | _ => false end.

(** Only the last action may reap. *)
Definition reaped_last (l : list action) : Prop := ∀ l1 a l2, l = l1 ++ a :: l2 → reaps a = true → l2 = [].

Lemma reaped_last_cons a l : reaps a = false → reaped_last l → reaped_last (a :: l).
Proof.
  intros Ha Hl l1 b l2 E Hb. destruct l1 as [|x l1]; simpl in E; injection E as <- E; [congruence|eauto].
Qed.
Lemma reaped_last_one a : reaped_last [a].
Proof. intros [|x [|y l1]] b l2 [= ?]; subst; done. Qed.
Lemma reaped_last_app l k : Forall (λ a, reaps a = false) l → reaped_last k → reaped_last (l ++ k).
Proof. intros Hl Hk. induction Hl; simpl; [done|]. by apply reaped_last_cons. Qed.
Lemma reaped_last_nil : reaped_last [].
Proof. by intros [|x l1] a l2. Qed.

Lemma capture_loop_actions turns p acts r :
  capture_loop turns p = (acts, r) →
  Forall (λ a, waits a = true) acts ∧
  match r with
  | Some (Ok o) => ∃ l, acts = l ++ [TryWait (Ok (Some (status o)))] ∧ Forall (λ a, reaps a = false) l
  | _ => Forall (λ a, reaps a = false) acts
  end.
Proof.
  revert p acts r. induction turns as [|t turns IH]; intros p acts r; simpl; [by intros [= <- <-]|].
  assert (∀ acts r, (match handle_event p (ready t) with
    | Err e => ([], Some (Err e)) | Ok p => capture_loop turns p end) = (acts, r) →
    Forall (λ a, waits a = true) acts ∧
    match r with
    | Some (Ok o) => ∃ l, acts = l ++ [TryWait (Ok (Some (status o)))] ∧ Forall (λ a, reaps a = false) l
    | _ => Forall (λ a, reaps a = false) acts
    end) as Hcontinue.
  { intros acts' r'. destruct (handle_event p (ready t)); [by apply IH|by intros [= <- <-]]. }
  destruct (output_closed p && errors_closed p); [|by apply Hcontinue].
  destruct (waited t) as [[s|]|e].
  - intros [= <- <-]. split; [by repeat constructor|]. by exists [].
  - destruct (match handle_event p (ready t) with Err _ => _ | Ok _ => _ end) as [rest r'] eqn:E.
    intros [= <- <-]. destruct (Hcontinue _ _ eq_refl) as [H1 H2]. split; [by constructor|].
    destruct r' as [[o|e]|]; [|by constructor..].
    destruct H2 as (l & -> & Hl). exists (TryWait (Ok None) :: l). split; [done|by constructor].
  - intros [= <- <-]. split; by repeat constructor.
Qed.

Lemma reap_actions turns : reaped_last (reap turns).1.
Proof.
  induction turns as [|[w n] turns IH]; simpl; [apply reaped_last_nil|].
  destruct w as [[s|]|e]; simpl; [apply reaped_last_one| |apply reaped_last_one].
  destruct n; [|apply reaped_last_one]. destruct (reap turns) as [rest r]. by apply reaped_last_cons.
Qed.

(** C10. No signal can reach another process: in every run, reaping the child is the last thing done
    to it, so its group still exists whenever it is signalled. A run that succeeds has reaped the
    child and not signalled it; a run that fails before that has sent the group TERM and then KILL. *)
Theorem run_reaps_last cancelled spawned turns c :
  let '(acts, r) := run cancelled spawned turns c in
  reaped_last acts ∧
  match r with
  | Some (Ok o) => last acts = Some (TryWait (Ok (Some (status o)))) ∧ Forall (λ a, waits a = true) acts
  | Some (Err _) =>
      ((cancelled = true ∨ is_ok spawned = false) ∧ acts = []) ∨ (∃ s, last acts = Some (TryWait (Ok (Some s)))) ∨
      ∃ before after, acts = before ++ [SignalGroup false; SignalGroup true] ++ after
  | None => Forall (λ a, waits a = true) acts
  end.
Proof.
  unfold run. destruct cancelled; [split; [apply reaped_last_nil|auto]|].
  unfold run_async. destruct spawned as [[]|e0]; simpl; [|split; [apply reaped_last_nil|auto]].
  unfold capture. destruct (capture_loop _ _) as [acts captured] eqn:E.
  apply capture_loop_actions in E as [Hw Hr]. destruct captured as [[o|e]|].
  - destruct Hr as (l & -> & Hl). split; [by apply reaped_last_app, reaped_last_one|].
    destruct (utf8_valid (stdout o)); simpl; [destruct (utf8_valid (stderr o)); simpl|].
    + by rewrite last_snoc.
    + right. left. exists (status o). by rewrite last_snoc.
    + right. left. exists (status o). by rewrite last_snoc.
  - unfold terminate_group. pose proof (reap_actions (reaping c)) as Hreap.
    destruct (reap (reaping c)) as [ws reaped]. simpl in Hreap. split.
    + apply reaped_last_app; [done|]. simpl. do 2 (apply reaped_last_cons; [done|]).
      by destruct (is_ok (killed c)); [|apply reaped_last_cons].
    + simpl. destruct reaped; simpl; right; right; by do 2 eexists.
  - split; [|done]. rewrite <-(app_nil_r acts). by apply reaped_last_app, reaped_last_nil.
Qed.
