(* ===== verification/Cli.v ===== *)
(** * The command line (src/src/main.rs)

    [execute] after clap has parsed the arguments: what each command does with
    the runtime, and what is to be printed or executed in the end. The [--json]
    flags, which choose the layout of what is printed, are Main.v's. The microVM
    commands build one line of the manager's protocol. *)

From S2P Require Import Prelude Text Fs Paths Config Value VmTemplate Runtime RuntimeSpec.
From S2P Require Microvm DockerArgs Storage Gateway GatewayCa.

Inductive MicrovmAction :=
| Capabilities
| MicrovmCreate (id kernel rootfs : bytes) (vcpus memory_mib : Z)
| MicrovmStart (id : bytes)
| MicrovmStop (id : bytes) (force : bool)
| MicrovmInspect (id : option bytes).

Inductive Action :=
| Create (cpus memory disk : Z) (mount : list bytes) (nested_virtualization dry_run : bool)
| Start
| Update
| Inspect
| Stop (force : bool)
| Restart
| Doctor
| Storage
| ConfigShow
| Docker (args : list bytes)
| Shell (args : list bytes)
| Daemon (file : path)
| Cert
| Microvm (command : MicrovmAction).

(** What a command ends in: a report, a text on the standard output, the program that replaces this
    process, or the gateway's [serve]. After the report of [Diagnoses v ready] the command still
    fails unless the dependencies are ready. *)
Inductive ending (certificate : Type) :=
| Reports (i : Inspection)
| Updates (r : ProvisionUpdate)
| Diagnoses (v : value) (ready : bool)
| Prints (text : bytes)
| Shows (v : value)
| Becomes (c : Command)
| Serves (c : Gateway.Config) (tls : list (bytes * certificate)).
Arguments Reports {certificate}.
Arguments Updates {certificate}.
Arguments Diagnoses {certificate}.
Arguments Prints {certificate}.
Arguments Shows {certificate}.
Arguments Becomes {certificate}.
Arguments Serves {certificate}.

(** The [ensure!] after the doctor's report. *)
Definition is_string (v : value) : bool := match v with String _ => true | _ => false end.
Definition dependencies_ready (report : value) : bool :=
  bool_decide (index report "supported_host" = Bool true) && bool_decide (index report "lima_ready" = Bool true)
  && is_string (index report "docker") && is_string (index report "compose") && is_string (index report "buildx").

(** The request of a microVM command. [parent] reads the settings of the VM. *)
Definition microvm_line (parent : M Config) (command : MicrovmAction) : M bytes :=
  match command with
  | Capabilities => mret (str "capabilities")
  | MicrovmCreate id kernel rootfs vcpus memory_mib =>
      _ ← lift (Microvm.validate_id id);
      _ ← lift (Microvm.validate_guest_path kernel);
      _ ← lift (Microvm.validate_guest_path rootfs);
      parent ← parent;
      _ ← guard ((1 <=? vcpus) && (vcpus <=? 16))%Z "microVM vcpus must be between 1 and 16";
      _ ← guard ((128 <=? memory_mib) && (memory_mib <=? 16384))%Z
            "microVM memory must be between 128 and 16384 MiB";
      _ ← guard (vcpus <=? cpus parent)%Z "microVM vcpus cannot exceed the parent VM CPU count";
      _ ← guard (memory_mib + 512 <=? memory_gib parent * 1024)%Z
            "microVM memory must leave at least 512 MiB for the parent VM";
      mret (str "create id=" ++ id ++ str " kernel=" ++ kernel ++ str " rootfs=" ++ rootfs
            ++ str " vcpus=" ++ decimal (Z.to_N vcpus)
            ++ str " memory_mib=" ++ decimal (Z.to_N memory_mib))
  | MicrovmStart id => _ ← lift (Microvm.validate_id id); mret (str "start id=" ++ id)
  | MicrovmStop id force =>
      _ ← lift (Microvm.validate_id id);
      mret (str "stop id=" ++ id ++ str " force=" ++ (if force then str "1" else str "0"))
  | MicrovmInspect (Some id) => _ ← lift (Microvm.validate_id id); mret (str "inspect id=" ++ id)
  | MicrovmInspect None => mret (str "inspect")
  end.

(** What the commands use besides the machine: the microVM manager's socket and the decoder of its
    answers, the pretty printer of settings, the storage report as a JSON value, and what the
    gateway's libraries do. *)
Record libraries (certificate : Type) := {
  transport : nat → Z → bytes → result (list Microvm.read_event);
  decode : bytes → result (@Microvm.Response value);
  to_string_pretty : Config → result bytes;
  storage_view : Storage.view;
  user_home : option path;
  storage_value : Storage.Report → result value;
  generate : nat → result (bytes * bytes);
  identity : bytes → bytes → result unit;
  issue : nat → bytes → bytes → bytes → result certificate;
  parse_gateway : bytes → result Gateway.Config;
  try_lock : nat → result unit
}.
Arguments transport {certificate}.
Arguments decode {certificate}.
Arguments to_string_pretty {certificate}.
Arguments storage_view {certificate}.
Arguments user_home {certificate}.
Arguments storage_value {certificate}.
Arguments generate {certificate}.
Arguments identity {certificate}.
Arguments issue {certificate}.
Arguments parse_gateway {certificate}.
Arguments try_lock {certificate}.

Section execute.
Context (R : machine) {certificate : Type} (L : libraries certificate).

Fixpoint parse_mounts (l : list bytes) : result (list Mount) :=
  match l with
  | [] => Ok []
  | v :: l => m ← Mount_parse (host_paths R) v; ms ← parse_mounts l; Ok (m :: ms)
  end.

(** [client.request]. *)
Definition client_request (request : bytes) : M value :=
  Runtime.observe R (λ t, Microvm.request Null (decode L) (transport L t) request).

Definition execute (a : Action) : M (ending certificate) :=
  match a with
  | Create cpus memory disk mount nested dry_run =>
      mounts ← lift (parse_mounts mount);
      let c := {| schema_version := 1; cpus := cpus; memory_gib := memory; disk_gib := disk;
                  mounts := mounts; nested_virtualization := nested |} in
      if dry_run : bool then
        _ ← lift (validate (host_paths R) c (state R));
        text ← lift (rendered R c);
        mret (Prints text)
      else i ← create R c; mret (Reports i)
  | Start => i ← start R; mret (Reports i)
  | Update => r ← update R; mret (Updates r)
  | Inspect => i ← inspect R; mret (Reports i)
  | Stop force => i ← stop R force; mret (Reports i)
  | Restart => i ← restart R; mret (Reports i)
  | Doctor => v ← doctor R; mret (Diagnoses v (dependencies_ready v))
  | Storage =>
      r ← storage R (storage_view L) (user_home L);
      v ← lift (storage_value L r);
      mret (Shows v)
  | ConfigShow =>
      _ ← ensure_owned R (me R) (state R) false;
      c ← config R;
      text ← lift (to_string_pretty L c);
      mret (Prints text)
  | Docker args =>
      _ ← lift (DockerArgs.validate args);
      _ ← ensure_owned R (me R) (state R) false;
      _ ← check_state_paths R;
      ready ← context_ready R;
      _ ← guard ready "luhmen context is missing; run `luhmen start`";
      mret (Becomes (docker_workload_command R ([str "--context"; str "luhmen"] ++ args)))
  | Shell args =>
      _ ← ensure_owned R (me R) (state R) false;
      c ← shell_command R args;
      mret (Becomes c)
  | Daemon file =>
      _ ← ensure_owned R (me R) (state R) true;
      '(c, tls) ← GatewayCa.run R (me R) (fresh R) (generate L) (identity L) (issue L) (parse_gateway L)
                      (try_lock L) (state R) file;
      mret (Serves c tls)
  | Cert =>
      _ ← ensure_owned R (me R) (state R) true;
      pem ← GatewayCa.init R (me R) (fresh R) (generate L) (identity L) (state R);
      mret (Prints pem)
  | Microvm command =>
      _ ← ensure_owned R (me R) (state R) false;
      request ← microvm_line (config R) command;
      v ← microvm_request R client_request request;
      mret (Shows v)
  end.

End execute.

(** ** The requests *)

(** The words of a request: its action and fields. *)
Definition words_of (command : MicrovmAction) : bytes * list (bytes * bytes) :=
  match command with
  | Capabilities => (str "capabilities", [])
  | MicrovmCreate id kernel rootfs vcpus memory_mib =>
      (str "create", [(str "id", id); (str "kernel", kernel); (str "rootfs", rootfs);
                      (str "vcpus", decimal (Z.to_N vcpus)); (str "memory_mib", decimal (Z.to_N memory_mib))])
  | MicrovmStart id => (str "start", [(str "id", id)])
  | MicrovmStop id force => (str "stop", [(str "id", id); (str "force", if force then str "1" else str "0")])
  | MicrovmInspect (Some id) => (str "inspect", [(str "id", id)])
  | MicrovmInspect None => (str "inspect", [])
  end.
Definition request_words (command : MicrovmAction) : list bytes :=
  (words_of command).1 :: map Microvm.field_token (words_of command).2.

(** The paths of the command leave room for [kernel=] and [rootfs=] in a word. *)
Definition paths_fit (command : MicrovmAction) : Prop :=
  match command with
  | MicrovmCreate _ kernel rootfs _ _ => (len kernel <= 1017)%Z ∧ (len rootfs <= 1017)%Z
  | _ => True
  end.

Lemma microvm_line_words parent command w line w' :
  microvm_line parent command w = (Ret line, w') → line = join (str " ") (request_words command).
Proof.
  destruct command as [|id k r v m|id|id f|[id|]]; simpl; intros H.
  - by injection H as <- _.
  - apply bind_Ret in H as (? & ? & _ & H). apply bind_Ret in H as (? & ? & _ & H).
    apply bind_Ret in H as (? & ? & _ & H). apply bind_Ret in H as (? & ? & _ & H).
    apply bind_Ret in H as (? & ? & _ & H). apply bind_Ret in H as (? & ? & _ & H).
    apply bind_Ret in H as (? & ? & _ & H). apply bind_Ret in H as (? & ? & _ & H).
    injection H as <- _. unfold request_words, Microvm.field_token. simpl.
    unfold str. simpl. rewrite <-?app_assoc. simpl. done.
  - apply bind_Ret in H as (? & ? & _ & H). injection H as <- _. done.
  - apply bind_Ret in H as (? & ? & _ & H). injection H as <- _.
    unfold request_words, Microvm.field_token. simpl. unfold str. simpl. by rewrite <-?app_assoc.
  - apply bind_Ret in H as (? & ? & _ & H). injection H as <- _. done.
  - by injection H as <- _.
Qed.

(** What the command line has checked. *)
Definition checked (command : MicrovmAction) : Prop :=
  match command with
  | Capabilities | MicrovmInspect None => True
  | MicrovmCreate id kernel rootfs vcpus memory_mib =>
      Microvm.validate_id id = Ok () ∧ Microvm.validate_guest_path kernel = Ok () ∧
      Microvm.validate_guest_path rootfs = Ok () ∧ (1 <= vcpus <= 16)%Z ∧ (128 <= memory_mib <= 16384)%Z
  | MicrovmStart id | MicrovmStop id _ | MicrovmInspect (Some id) => Microvm.validate_id id = Ok ()
  end.

Lemma microvm_line_checked parent command w line w' :
  microvm_line parent command w = (Ret line, w') → checked command.
Proof.
  destruct command as [|id k r v m|id|id f|[id|]]; simpl; intros H; try done.
  - apply bind_Ret in H as ([] & ? & [H1 _]%lift_Ret & H). apply bind_Ret in H as ([] & ? & [H2 _]%lift_Ret & H).
    apply bind_Ret in H as ([] & ? & [H3 _]%lift_Ret & H). apply bind_Ret in H as (? & ? & _ & H).
    apply bind_Ret in H as (? & ? & [H4 _]%guard_Ret & H). apply bind_Ret in H as (? & ? & [H5 _]%guard_Ret & H).
    apply andb_true_iff in H4 as [H4 H4'], H5 as [H5 H5']. rewrite !Z.leb_le in *. by split_and!.
  - apply bind_Ret in H as ([] & ? & [H1 _]%lift_Ret & H). done.
  - apply bind_Ret in H as ([] & ? & [H1 _]%lift_Ret & H). done.
  - apply bind_Ret in H as ([] & ? & [H1 _]%lift_Ret & H). done.
Qed.

Lemma request_byte_graphic c : Microvm.request_byte c = true → is_graphic c = true.
Proof. destruct c as [[] [] [] [] [] [] [] []]; vm_compute; done. Qed.
Lemma request_byte_unrefused c : Microvm.request_byte c = true → c ∉ Microvm.refused_characters.
Proof.
  intros H. apply (bool_decide_eq_false (c ∈ Microvm.refused_characters)). revert H.
  destruct c as [[] [] [] [] [] [] [] []]; vm_compute; done.
Qed.

Abbreviation plain := (Forall (λ c, Microvm.request_byte c = true)).

Lemma valid_id id : Microvm.validate_id id = Ok () → id ≠ [] ∧ (len id <= 64)%Z ∧ plain id.
Proof.
  unfold Microvm.validate_id. rewrite ensure_Ok, !andb_true_iff, negb_true_iff, bool_decide_eq_false, Z.leb_le,
    forallb_Forall. intros ((((H1 & H2) & _) & _) & H3). split_and!; [done..|].
  eapply Forall_impl; [exact H3|]. intros c. destruct c as [[] [] [] [] [] [] [] []]; vm_compute; done.
Qed.
Lemma valid_path p : Microvm.validate_guest_path p = Ok () → p ≠ [] ∧ (len p <= 1024)%Z ∧ plain p.
Proof.
  unfold Microvm.validate_guest_path. rewrite ensure_Ok, !andb_true_iff, Z.leb_le, forallb_Forall.
  intros (((H1 & _) & H2) & H3). split_and!; [|done..]. by intros ->.
Qed.

(** The sizes a request can name are short numbers. *)
Lemma valid_decimal z : (0 <= z <= 16384)%Z →
  let d := decimal (Z.to_N z) in d ≠ [] ∧ (len d <= 16)%Z ∧ plain d.
Proof.
  intros Hz d. split_and!; [apply decimal_nonempty| |].
  - apply (decimal_length 16); [lia|]. change (2 ^ Z.of_nat 17)%Z with 131072%Z. lia.
  - eapply Forall_impl; [apply decimal_is_digits|]. intros c.
    destruct c as [[] [] [] [] [] [] [] []]; vm_compute; done.
Qed.

Lemma plain_token k v : plain k → plain v → plain (Microvm.field_token (k, v)).
Proof. intros Hk Hv. apply Forall_app. split; [done|]. by constructor. Qed.

(** One field within the limits of the protocol. *)
Lemma field_within allowed k v :
  str k ∈ map str allowed → ("="%char ∉ str k) → plain (str k) → v ≠ [] → plain v →
  (len (str k) + 1 + len v <= 1024)%Z →
  (str k = str "id" → Microvm.validate_id v = Ok ()) →
  (str k ∈ [str "kernel"; str "rootfs"] → Microvm.validate_guest_path v = Ok ()) →
  Microvm.field_ok allowed (str k, v).
Proof.
  intros H1 H2 H3 H4 H5 H6 H7 H8. split_and!; try done; [|by apply plain_token].
  unfold Microvm.field_token. simpl. autorewrite with len. lia.
Qed.

Lemma id_field allowed id : "id" ∈ allowed → Microvm.validate_id id = Ok () →
  Microvm.field_ok allowed (str "id", id).
Proof.
  intros Hin H. destruct (valid_id id H) as (H1 & H2 & H3).
  apply field_within; try done; [by apply list_elem_of_fmap_2|..].
  - by apply (bool_decide_unpack _); vm_compute.
  - by repeat constructor.
  - change (len (str "id")) with 2%Z. lia.
  - intros Hk. by apply (bool_decide_pack _) in Hk.
Qed.

Lemma path_field allowed k p : k ∈ ["kernel"; "rootfs"] → k ∈ allowed →
  Microvm.validate_guest_path p = Ok () → (len p <= 1017)%Z → Microvm.field_ok allowed (str k, p).
Proof.
  intros Hk Hin H Hlen. destruct (valid_path p H) as (H1 & H2 & H3).
  assert (k = "kernel" ∨ k = "rootfs") as Hk' by (rewrite !elem_of_cons, elem_of_nil in Hk; tauto).
  apply field_within; try done; [by apply list_elem_of_fmap_2|..].
  - destruct Hk' as [-> | ->]; by apply (bool_decide_unpack _); vm_compute.
  - destruct Hk' as [-> | ->]; by repeat constructor.
  - assert (len (str k) = 6%Z) as -> by (by destruct Hk' as [-> | ->]). lia.
  - intros Hid. destruct Hk' as [-> | ->]; by apply str_inj in Hid.
Qed.

Lemma other_field allowed k v : k ∈ ["vcpus"; "memory_mib"; "force"] → k ∈ allowed →
  v ≠ [] → plain v → (len v <= 16)%Z → Microvm.field_ok allowed (str k, v).
Proof.
  intros Hk Hin H1 H2 H3.
  assert (k = "vcpus" ∨ k = "memory_mib" ∨ k = "force") as Hk'
    by (rewrite !elem_of_cons, elem_of_nil in Hk; tauto).
  apply field_within; try done; [by apply list_elem_of_fmap_2|..].
  - destruct Hk' as [->|[->| ->]]; by apply (bool_decide_unpack _); vm_compute.
  - destruct Hk' as [->|[->| ->]]; by repeat constructor.
  - assert (len (str k) <= 10)%Z by (by destruct Hk' as [->|[->| ->]]; vm_compute). lia.
  - intros Hid. destruct Hk' as [->|[->| ->]]; by apply str_inj in Hid.
  - rewrite !elem_of_cons, elem_of_nil.
    intros [Hid|[Hid|[]]]; destruct Hk' as [->|[->| ->]]; by apply str_inj in Hid.
Qed.

Lemma number_field allowed k z : k ∈ ["vcpus"; "memory_mib"; "force"] → k ∈ allowed →
  (0 <= z <= 16384)%Z → Microvm.field_ok allowed (str k, decimal (Z.to_N z)).
Proof. intros Hk Hin (? & ? & ?)%valid_decimal. by apply other_field. Qed.

(** The words of a command name each field once, and all the action requires. *)
Lemma command_keys command :
  NoDup (map fst (words_of command).2) ∧
  ∀ k, k ∈ Microvm.required_fields (words_of command).1 → str k ∈ map fst (words_of command).2.
Proof.
  assert (NoDup (map fst (words_of command).2) ∧
    Forall (λ k, str k ∈ map fst (words_of command).2) (Microvm.required_fields (words_of command).1)) as [H1 H2].
  { destruct command as [|id k r v m|id|id f|[id|]]; split;
      apply (bool_decide_unpack _); vm_compute; reflexivity. }
  split; [done|]. by rewrite Forall_forall in H2.
Qed.

(** Every field of a checked command is one the manager's protocol accepts. *)
Lemma command_fields command :
  checked command → paths_fit command →
  ∃ allowed, Microvm.allowed_fields (words_of command).1 = Ok allowed ∧
    Forall (Microvm.field_ok allowed) (words_of command).2.
Proof.
  assert (∀ (k : string) (l : list string), bool_decide (k ∈ l) = true → k ∈ l) as Hin
    by (intros k l; apply bool_decide_eq_true_1).
  destruct command as [|id k r v m|id|id f|[id|]]; cbn [checked words_of fst snd paths_fit]; intros Hc Hp;
    (eexists; split; [vm_compute; reflexivity|]); rewrite ?Forall_cons, ?Forall_nil; split_and?; try done.
  1,6,7,9: by apply id_field; [apply Hin|tauto].
  1,2: by apply path_field; [apply Hin..|tauto|tauto].
  1,2: by apply number_field; [apply Hin..|lia].
  destruct f; apply other_field; try done; try (by apply Hin); by repeat constructor.
Qed.

Lemma join_len sep (l : list bytes) :
  (len (join sep l) <= foldr (λ t n, len t + len sep + n) 0 l)%Z.
Proof.
  induction l as [|t l IH]; [done|]. pose proof (len_nonneg sep). simpl. destruct l as [|u l].
  - simpl in *. lia.
  - autorewrite with len. lia.
Qed.

Lemma token_len k v : len (Microvm.field_token (k, v)) = (len k + 1 + len v)%Z.
Proof. unfold Microvm.field_token. simpl. autorewrite with len. lia. Qed.

(** A request is short enough whatever the paths are. *)
Lemma request_len command : checked command → (len (join (str " ") (request_words command)) <= 4096)%Z.
Proof.
  intros Hc. etransitivity; [apply join_len|]. unfold request_words.
  destruct command as [|id k r v m|id|id f|[id|]]; cbn [words_of fst snd map foldr checked] in *;
    rewrite ?token_len; change (len (str " ")) with 1%Z.
  - done.
  - destruct Hc as (H1 & H2 & H3 & H4 & H5). apply valid_id in H1 as (_ & H1 & _).
    apply valid_path in H2 as (_ & H2 & _), H3 as (_ & H3 & _).
    destruct (valid_decimal v) as (_ & H6 & _); [lia|]. destruct (valid_decimal m) as (_ & H7 & _); [lia|].
    change (len (str "create")) with 6%Z. change (len (str "id")) with 2%Z. change (len (str "kernel")) with 6%Z.
    change (len (str "rootfs")) with 6%Z. change (len (str "vcpus")) with 5%Z. change (len (str "memory_mib")) with 10%Z.
    lia.
  - apply valid_id in Hc as (_ & Hc & _). change (len (str "start")) with 5%Z. change (len (str "id")) with 2%Z. lia.
  - apply valid_id in Hc as (_ & Hc & _). change (len (str "stop")) with 4%Z. change (len (str "id")) with 2%Z.
    change (len (str "force")) with 5%Z. assert (len (if f then str "1" else str "0") = 1%Z) as -> by (by destruct f). lia.
  - apply valid_id in Hc as (_ & Hc & _). change (len (str "inspect")) with 7%Z. change (len (str "id")) with 2%Z. lia.
  - done.
Qed.

Lemma words_plain command :
  checked command → paths_fit command → Forall (λ t, t ≠ [] ∧ plain t) (request_words command).
Proof.
  intros Hc Hp. destruct (command_fields command Hc Hp) as (allowed & Ha & Hf). unfold request_words. constructor.
  - destruct command as [| | | |[]]; split; try done; by repeat constructor.
  - rewrite Forall_fmap. eapply Forall_impl; [exact Hf|]. intros [k v] (_ & _ & _ & _ & Hb & _).
    split; [by destruct k|done].
Qed.

Lemma plain_join (l : list bytes) c :
  Forall (λ t, t ≠ [] ∧ plain t) l → c ∈ join (str " ") l → c = " "%char ∨ Microvm.request_byte c = true.
Proof.
  intros Hl. induction Hl as [|t l [_ Ht] _ IH]; [by intros []%not_elem_of_nil|].
  rewrite Forall_forall in Ht. destruct l as [|u l]; [by intros Hc; right; apply Ht|].
  change (join (str " ") (t :: u :: l)) with (t ++ " "%char :: join (str " ") (u :: l)).
  rewrite elem_of_app, elem_of_cons. intros [Hc|[->|Hc]]; auto.
Qed.

(** What the microVM commands send is a request the client accepts, and the manager's words are
    the action and the fields of the command: nothing in an identifier or a path can add a field or
    another request. The paths must leave room for their field names in a word of 1024 bytes, which
    [validate_guest_path] alone does not ensure. *)
Theorem microvm_line_valid parent command w line w' :
  microvm_line parent command w = (Ret line, w') → paths_fit command →
  Microvm.validate_request line = Ok () ∧ split_whitespace line = request_words command.
Proof.
  intros Hline Hp. pose proof (microvm_line_checked _ _ _ _ _ Hline) as Hc.
  apply microvm_line_words in Hline as ->. pose proof (words_plain command Hc Hp) as Hw.
  assert (split_whitespace (join (str " ") (request_words command)) = request_words command) as Hs.
  { apply split_whitespace_join. eapply Forall_impl; [exact Hw|]. intros t [? Ht]. split; [done|].
    eapply Forall_impl; [exact Ht|]. apply request_byte_graphic. }
  split; [|done]. apply Microvm.validate_request_spec. split_and!.
  - intros E. rewrite E in Hs. by vm_compute in Hs.
  - by apply request_len.
  - intros c Hc1 Hc2. apply (plain_join _ _ Hw) in Hc2 as [->|Hc2].
    + by apply (bool_decide_pack (" "%char ∈ Microvm.refused_characters)) in Hc1.
    + by eapply request_byte_unrefused.
  - destruct (command_fields command Hc Hp) as (allowed & Ha & Hf), (command_keys command).
    by exists (words_of command).1, allowed, (words_of command).2.
Qed.

(** A path the command line accepts but whose word the client refuses. *)
Definition long_path : bytes := str "/" ++ replicate 1019 "a"%char.
Lemma long_path_refused :
  is_ok (Microvm.validate_guest_path long_path) &&
  negb (is_ok (Microvm.validate_request (join (str " ")
    (request_words (MicrovmCreate (str "demo") long_path (str "/r") 1 512))))) = true.
Proof. vm_compute. reflexivity. Qed.

Definition sample_create : MicrovmAction := MicrovmCreate (str "demo") (str "/k") (str "/r") 2 512.
Definition sample_parent : Config := {|
  schema_version := 1; cpus := 4; memory_gib := 8; disk_gib := 30; mounts := []; nested_virtualization := true |}.

Lemma microvm_line_valid_witness :
  ∃ line, microvm_line (mret sample_parent) sample_create (World 0 ∅ []) = (Ret line, World 0 ∅ []) ∧
    Microvm.validate_request line = Ok () ∧
    split_whitespace line = map str ["create"; "id=demo"; "kernel=/k"; "rootfs=/r"; "vcpus=2"; "memory_mib=512"].
Proof.
  destruct (microvm_line (mret sample_parent) sample_create (World 0 ∅ [])) as [[line| |] w] eqn:E;
    [|apply (f_equal fst) in E; vm_compute in E; discriminate E..].
  exists line. destruct (microvm_line_valid _ _ _ _ _ E ltac:(split; vm_compute; discriminate)) as [H1 H2].
  split; [|split; [exact H1|exact H2]]. f_equal. apply (f_equal snd) in E. vm_compute in E. symmetry. exact E.
Defined.

(** ** Docker *)

Section docker.
Context (R : machine).

Lemma success_Ret c w out w' : success R c w = (Ret out, w') → ∃ t, answer R t c = Ok out.
Proof.
  unfold success. intros H. apply bind_Ret in H as (? & w1 & _ & H).
  unfold Runtime.observe, query, call in H. destruct (fate_at R (tick w1)); [|done..].
  exists (tick w1). by destruct (answer R (tick w1) c); [injection H as -> _|].
Qed.

(** Docker has this VM's context. *)
Definition context_is_ours : Prop :=
  ∃ t out c, answer R t (docker_command R (map str ["context"; "inspect"; NAME])) = Ok out ∧
    parse_values (serde R) out = Ok [c] ∧
    pointer c ["Endpoints"; "docker"; "Host"] ≫= as_str = Some (endpoint R) ∧
    pointer c ["Metadata"; "Description"] ≫= as_str = Some CONTEXT_DESCRIPTION.

Lemma context_ready_Ret w w' : context_ready R w = (Ret true, w') → context_is_ours.
Proof.
  unfold context_ready. intros H. apply bind_Ret in H as ([] & w1 & _ & H); [|done]. simpl in H.
  apply bind_Ret in H as (out & w2 & [t Ht]%success_Ret & H).
  apply bind_Ret in H as (l & w3 & [Hl ->]%lift_Ret & H).
  destruct l as [|c [|]]; try done.
  apply bind_Ret in H as (? & w4 & [Hg ->]%guard_Ret & _).
  apply andb_true_iff in Hg as [H1%bool_decide_eq_true H2%bool_decide_eq_true]. by exists t, out, c.
Qed.

(** C31. [luhmen docker] becomes Docker with exactly the accepted arguments after the selection of the
    luhmen context, just found to lead to this VM's socket, and with none of the variables that
    select another one; the builder is the VM's. *)
Theorem docker_targets_vm {certificate : Type} (L : libraries certificate) args w c w' :
  execute R L (Docker args) w = (Ret (Becomes c), w') →
  DockerArgs.validate args = Ok () ∧ context_is_ours ∧
  arguments c = [str "--context"; str "luhmen"] ++ args ∧
  program c = default (str "docker") (docker R) ∧
  Forall (λ v, v ∈ unset_env c)
    (map str ["DOCKER_HOST"; "DOCKER_CONTEXT"; "DOCKER_TLS_VERIFY"; "DOCKER_CERT_PATH"; "BUILDKIT_HOST"]) ∧
  assoc (str "BUILDX_BUILDER") (set_env c) = Some (str "luhmen") ∧
  assoc (str "BUILDX_CONFIG") (set_env c) = Some (under R "buildx").
Proof.
  simpl. intros H. apply bind_Ret in H as ([] & w1 & [Hv ->]%lift_Ret & H).
  apply bind_Ret in H as (? & w2 & _ & H). apply bind_Ret in H as (? & w3 & _ & H).
  apply bind_Ret in H as (ready & w4 & Hr & H). apply bind_Ret in H as (? & w5 & [-> ->]%guard_Ret & H).
  apply context_ready_Ret in Hr. injection H as <- <-. split_and!; try done.
  repeat constructor; apply (bool_decide_unpack _); vm_compute; reflexivity.
Qed.
End docker.

(** Libraries for the examples. *)
Definition sample_libraries : libraries bytes := {|
  transport _ _ b := Ok (map Microvm.Byte b);
  decode b := Ok {| Microvm.version := 1; Microvm.ok := true; Microvm.data := Some (String b); Microvm.error := None |};
  to_string_pretty _ := Ok (str "{}");
  storage_view := {| Storage.lstat := λ _ _, inr Storage.NotFound; Storage.read_dir := λ _ _, inr Storage.NotFound;
                     Storage.expired := λ _, false; Storage.free_space := λ _ _, inl 0%Z |};
  user_home := None;
  storage_value _ := Ok Null;
  generate _ := Ok (str "K", str "C");
  identity _ _ := Ok ();
  issue _ k c h := Ok h;
  parse_gateway _ := Ok {| Gateway.listen_port := 8443; Gateway.routes := [(str "app.localhost", 3000%Z)] |};
  try_lock _ := Ok () |}.

Lemma docker_targets_vm_witness :
  let R := sample_machine "Running" ordinary_commands in
  ∃ c w', execute R sample_libraries (Docker [str "ps"]) (World 0 (sample_state "saved" "saved") [])
            = (Ret (Becomes c), w') ∧
    arguments c = map str ["--context"; "luhmen"; "ps"].
Proof.
  intros R. destruct (execute R _ _ _) as [[[| | | | |c|]| |] w'] eqn:E;
    try (apply (f_equal fst) in E; vm_compute in E; discriminate E).
  exists c, w'. split; [reflexivity|].
  exact (proj1 (proj2 (proj2 (docker_targets_vm R sample_libraries _ _ _ _ E)))).
Defined.

(** ** Commands that only look *)

Definition read_only (a : Action) : bool :=
  match a with
  | Create _ _ _ _ _ dry_run => dry_run
  | Inspect | Doctor | Storage | ConfigShow | Docker _ | Shell _ | Microvm _ => true
  | Start | Update | Stop _ | Restart | Daemon _ | Cert => false
  end.

Lemma keeps_microvm_line (P : files → Prop) parent command :
  keeps P parent → keeps P (microvm_line parent command).
Proof. intros Hp. destruct command as [| | | |[]]; simpl; keeps. Qed.

(** The doctor is satisfied when the host, Lima and the three Docker tools are. *)
Lemma doctor_verdict R host nested lima docker compose buildx free :
  dependencies_ready (doctor_report R host nested lima docker compose buildx free) =
  is_ok host && is_ok lima && is_ok docker && is_ok compose && is_ok buildx.
Proof.
  unfold doctor_report, endpoint, socket, under. generalize (decimal (Z.to_N free)), (state R). intros d p.
  destruct host, nested, lima, docker, compose, buildx; vm_compute; reflexivity.
Qed.

(** C32. Inspection, diagnosis, accounting, the dry run and everything [docker], [shell] and
    [microvm] do before handing over change no file of their own: what other processes preserve
    stays, whether the command returns, fails or is interrupted. *)
Theorem read_only_commands (R : machine) {certificate : Type} (L : libraries certificate) a (P : files → Prop) :
  stable R P → read_only a = true → keeps P (execute R L a).
Proof.
  intros Hst Ha.
  assert (∀ r, keeps P (microvm_request R (client_request R L) r)) as Hm.
  { intros r. apply (keeps_microvm_request R P Hst). intros b. unfold client_request. auto with keeps. }
  pose proof (keeps_microvm_line P (config R)) as Hl.
  destruct a; try discriminate Ha; simpl in *; subst; keeps.
Qed.

Lemma read_only_commands_witness :
  let R := sample_machine "Running" ordinary_commands in
  let s := sample_state "saved" "saved" in
  match execute R sample_libraries Inspect (World 0 s []) with
  | (Ret (Reports i), w) => vm_state i = str "Running" ∧ fs w = s
  | _ => False
  end.
Proof.
  intros R s.
  pose proof (read_only_commands R sample_libraries Inspect (λ s', s' = s) ltac:(intros t s' Hs; exact Hs)
    eq_refl (World 0 s []) eq_refl) as H.
  destruct (execute R _ _ _) as [o w] eqn:E.
  destruct o as [[i| | | | | |]| |]; try (apply (f_equal fst) in E; vm_compute in E; discriminate E).
  split; [|exact H]. apply (f_equal fst) in E. vm_compute in E. injection E as <-. reflexivity.
Defined.

(** ** The microVM commands, from the arguments to the manager's answer *)

(** The microVM leaves its parent half a GiB and has no more processors than it. *)
Definition fits (parent : Config) (command : MicrovmAction) : Prop :=
  match command with
  | MicrovmCreate _ _ _ vcpus memory_mib =>
      (vcpus <= cpus parent)%Z ∧ (memory_mib + 512 <= memory_gib parent * 1024)%Z
  | _ => True
  end.

Lemma microvm_line_fits (R : machine) command w line w' :
  microvm_line (config R) command w = (Ret line, w') →
  ∃ parent, fits parent command ∧
    match command with MicrovmCreate _ _ _ _ _ => ∃ w1 w2, config R w1 = (Ret parent, w2) | _ => True end.
Proof.
  intros H. destruct command as [|id k r v m|id|id f|id];
    try (by exists {| schema_version := 1; cpus := 0; memory_gib := 0; disk_gib := 0; mounts := [];
                      nested_virtualization := false |}).
  simpl in H. apply bind_Ret in H as (? & ? & _ & H). apply bind_Ret in H as (? & ? & _ & H).
  apply bind_Ret in H as (? & ? & _ & H). apply bind_Ret in H as (parent & ? & Hc & H).
  apply bind_Ret in H as (? & ? & _ & H). apply bind_Ret in H as (? & ? & _ & H).
  apply bind_Ret in H as (? & ? & [H1 _]%guard_Ret & H). apply bind_Ret in H as (? & ? & [H2 _]%guard_Ret & H).
  apply Z.leb_le in H1, H2. exists parent. split; [done|]. eauto.
Qed.

Lemma microvm_request_Ret (R : machine) (exchange : bytes → M value) r w v w' :
  microvm_request R exchange r w = (Ret v, w') →
  (∃ c w1 w2, config R w1 = (Ret c, w2) ∧ nested_virtualization c = true) ∧
  (∃ u w1 w2, vm R w1 = (Ret (Some u), w2) ∧ status u = Some (str "Running")) ∧
  ∃ w1, exchange r w1 = (Ret v, w').
Proof.
  unfold microvm_request. intros H. apply bind_Ret in H as (c & ? & Hc & H).
  apply bind_Ret in H as (? & ? & [Hn ->]%guard_Ret & H). apply bind_Ret in H as (? & ? & _ & H).
  apply bind_Ret in H as (found & ? & Hvm & H). apply bind_Ret in H as (u & ? & [Hu ->]%lift_Ret & H).
  apply bind_Ret in H as (? & ? & [Hs%bool_decide_eq_true_1 ->]%guard_Ret & H).
  apply bind_Ret in H as (? & ? & _ & H).
  destruct found as [u'|]; [injection Hu as ->|discriminate Hu]. split_and!; eauto 10.
Qed.

(** C25. What a microVM command prints is the manager's answer to exactly one request, built from
    checked arguments and accepted by the client; the settings allow nested virtualization, the VM
    was running, and a microVM that is created fits its parent. *)
Theorem microvm_answer (R : machine) {certificate : Type} (L : libraries certificate) command w v w' :
  execute R L (Microvm command) w = (Ret (Shows v), w') →
  checked command ∧
  (∃ parent, fits parent command ∧
    match command with MicrovmCreate _ _ _ _ _ => ∃ w1 w2, config R w1 = (Ret parent, w2) | _ => True end) ∧
  (∃ c w1 w2, config R w1 = (Ret c, w2) ∧ nested_virtualization c = true) ∧
  (∃ u w1 w2, vm R w1 = (Ret (Some u), w2) ∧ status u = Some (str "Running")) ∧
  ∃ t, Microvm.request Null (decode L) (transport L t) (join (str " ") (request_words command)) = Ok v.
Proof.
  simpl. intros H. apply bind_Ret in H as (? & ? & _ & H). apply bind_Ret in H as (line & ? & Hl & H).
  apply bind_Ret in H as (v' & ? & Hv & H). injection H as -> ->.
  apply microvm_request_Ret in Hv as (Hc & Hvm & wx & Hx). split; [by eapply microvm_line_checked|].
  split; [by eapply microvm_line_fits|]. split; [exact Hc|]. split; [exact Hvm|].
  apply microvm_line_words in Hl as ->. exists (tick wx). revert Hx.
  unfold client_request, Runtime.observe, query, call. destruct (fate_at _ _); [|done..].
  by destruct (Microvm.request _ _ _ _) as [answer|e]; intros [= -> _].
Qed.

(** The machine of the examples, with nested virtualization. *)
Definition nested_vm : Config := {|
  schema_version := 1; cpus := 4; memory_gib := 4; disk_gib := 30; mounts := []; nested_virtualization := true |}.
Definition nested_machine : machine :=
  let R := sample_machine "Running" ordinary_commands in
  let C := serde R in
  {| os := os R; me := me R; state := state R; host_paths := host_paths R; texts := texts R;
     serde := {| parse_config := λ _, Ok nested_vm; print_config := print_config C;
                 parse_value := parse_value C; print_value := print_value C;
                 parse_stream := parse_stream C; parse_values := parse_values C;
                 print_report := print_report C; parse_report := parse_report C |};
     limactl := limactl R; docker := docker R; supported := supported R; answer := answer R;
     parallelism := parallelism R; available := available R; ping := ping R;
     engine_events := engine_events R; clock := clock R; unix_ms := unix_ms R; fresh := fresh R |}.

Lemma microvm_answer_witness :
  let R := nested_machine in
  ∃ v w', execute R sample_libraries (Microvm (MicrovmStart (str "demo")))
            (World 0 (sample_state "saved" "saved") []) = (Ret (Shows v), w') ∧
    ∃ t, Microvm.request Null (decode sample_libraries) (transport sample_libraries t) (str "start id=demo") = Ok v.
Proof.
  intros R. destruct (execute R _ _ _) as [[[| | | |v| |]| |] w'] eqn:E;
    try (apply (f_equal fst) in E; vm_compute in E; discriminate E).
  exists v, w'. split; [reflexivity|].
  exact (proj2 (proj2 (proj2 (proj2 (microvm_answer R sample_libraries _ _ _ _ E))))).
Defined.
