(* ===== verification/Base64.v ===== *)
(** * The guest helper's encoding (src/build.rs)

    The build compiles the guest shutdown helper and embeds it as base64 text,
    which the template's install script decodes in the guest. [encode_base64] is
    the encoder; compiling is left out. The decoder of RFC 4648, skipping line
    feeds as [base64 --decode] does, is the reference it is proved against. *)

From S2P Require Import Prelude Text.

Definition TABLE : bytes := str "ABCDEFGHIJKLMNOPQRSTUVWXYZabcdefghijklmnopqrstuvwxyz0123456789+/".

(** [slice.chunks(n)]: pieces of [n] elements, and what is left. *)
Fixpoint chunks_go (fuel : nat) (n : nat) (s : bytes) : list bytes :=
  match fuel, s with
  | _, [] | O, _ => []
  | S fuel, _ => take n s :: chunks_go fuel n (drop n s)
  end.
Definition chunks (n : nat) (s : bytes) : list bytes := chunks_go (length s) n s.

(** [TABLE[index] as char]. *)
Definition symbol (index : Z) : ascii := default "="%char (TABLE !! Z.to_nat index).

(** The four characters of one chunk of bytes. *)
Definition encode_chunk (chunk : bytes) : bytes :=
  let byte i := code (default "000"%char (chunk !! i)) in
  let value := Z.lor (Z.lor (Z.shiftl (byte 0) 16) (Z.shiftl (byte 1) 8)) (byte 2) in
  [symbol (Z.land (Z.shiftr value 18) 63);
   symbol (Z.land (Z.shiftr value 12) 63);
   if decide (1 < length chunk) then symbol (Z.land (Z.shiftr value 6) 63) else "="%char;
   if decide (2 < length chunk) then symbol (Z.land value 63) else "="%char].

Definition encode_base64 (data : bytes) : bytes :=
  let output := mjoin (map encode_chunk (chunks 3 data)) in
  join [newline] (chunks 76 output) ++ [newline].

(** ** The reference decoder *)

Fixpoint position (c : ascii) (l : bytes) : option Z :=
  match l with
  | [] => None
  | x :: l => if decide (x = c) then Some 0%Z else Z.succ <$> position c l
  end.
Definition sextet (c : ascii) : option Z := position c TABLE.
Definition byte_of (z : Z) : ascii := ascii_of_N (Z.to_N (z mod 256)).

(** Groups of four symbols; the last may end in one or two [=]. *)
Fixpoint decode_groups (s : bytes) : option bytes :=
  match s with
  | [] => Some []
  | a :: b :: c :: d :: s =>
      a ← sextet a; b ← sextet b;
      let first := byte_of (a * 4 + b / 16) in
      if decide (c = "="%char)
      then if decide (d = "="%char ∧ s = []) then Some [first] else None
      else
        c ← sextet c;
        let second := byte_of (b * 16 + c / 4) in
        if decide (d = "="%char)
        then if decide (s = []) then Some [first; second] else None
        else
          d ← sextet d; rest ← decode_groups s;
          Some (first :: second :: byte_of (c * 64 + d) :: rest)
  | _ => None
  end.
Definition decode_base64 (s : bytes) : option bytes :=
  decode_groups (filter (λ c, c ≠ newline) s).

(** ** Chunks *)

Lemma chunks_go_join fuel n s : 0 < n → length s <= fuel → mjoin (chunks_go fuel n s) = s.
Proof.
  intros Hn. revert s. induction fuel as [|fuel IH]; intros [|c s] Hl; try done; simpl in Hl; [lia|].
  cbn [chunks_go]. change (mjoin (?x :: ?l)) with (x ++ mjoin l).
  rewrite IH; [apply take_drop|]. rewrite length_drop. simpl. lia.
Qed.
Lemma chunks_join n s : 0 < n → mjoin (chunks n s) = s.
Proof. intros Hn. by apply chunks_go_join. Qed.

Lemma chunks_length n s : Forall (λ c, length c <= n) (chunks n s).
Proof.
  unfold chunks. generalize (length s) as fuel. intros fuel. revert s.
  induction fuel as [|fuel IH]; intros [|c s]; simpl; constructor; [|done].
  rewrite length_take. lia.
Qed.

Lemma chunks_go_enough fuel n s : 0 < n → length s <= fuel → chunks_go fuel n s = chunks n s.
Proof.
  intros Hn. unfold chunks. remember (length s) as k eqn:Hk. revert fuel s Hk.
  induction k as [k IH] using lt_wf_ind. intros fuel s Hk Hf. subst k.
  destruct s as [|c s]; [by destruct fuel|]. destruct fuel as [|fuel]; simpl in Hf; [lia|]. simpl. f_equal.
  assert (length (drop n (c :: s)) <= length s) as Hd by (rewrite length_drop; simpl; lia).
  rewrite (IH (length (drop n (c :: s)))) by (simpl in *; lia || done).
  symmetry. apply (IH (length (drop n (c :: s)))); simpl in *; lia || done.
Qed.

Lemma chunks_three a b c s : chunks 3 (a :: b :: c :: s) = [a; b; c] :: chunks 3 s.
Proof.
  change (chunks 3 (a :: b :: c :: s)) with ([a; b; c] :: chunks_go (S (S (length s))) 3 s).
  f_equal. apply chunks_go_enough; lia.
Qed.

(** ** Bits *)

Lemma lor_shiftl x y n : (0 <= n)%Z → (0 <= y < 2 ^ n)%Z → Z.lor (Z.shiftl x n) y = (x * 2 ^ n + y)%Z.
Proof.
  intros Hn Hy. assert (Z.land (Z.shiftl x n) y = 0)%Z as Hland.
  { apply Z.bits_inj'. intros i Hi. rewrite Z.land_spec, Z.bits_0, Z.shiftl_spec by done.
    destruct (Z.ltb_spec i n); [by rewrite Z.testbit_neg_r by lia|].
    rewrite <-(Z.mod_small y (2 ^ n)), Z.mod_pow2_bits_high by lia. by rewrite andb_false_r. }
  rewrite <-Z.lxor_lor, <-Z.add_nocarry_lxor by done. by rewrite Z.shiftl_mul_pow2.
Qed.

Lemma code_bounds c : (0 <= code c < 256)%Z.
Proof. unfold code. pose proof (N_ascii_bounded c). lia. Qed.
Lemma byte_of_code c : byte_of (code c) = c.
Proof.
  unfold byte_of. rewrite Z.mod_small by apply code_bounds. unfold code. by rewrite N2Z.id, ascii_N_embedding.
Qed.

Lemma sextet_symbol : forallb (λ i, bool_decide (sextet (symbol (Z.of_nat i)) = Some (Z.of_nat i))
  && negb (bool_decide (symbol (Z.of_nat i) = "="%char)) && negb (bool_decide (symbol (Z.of_nat i) = newline)))
  (seq 0 64) = true.
Proof. vm_compute. reflexivity. Qed.

(** A symbol of the alphabet is its index. *)
Lemma symbol_spec i : (0 <= i < 64)%Z →
  sextet (symbol i) = Some i ∧ symbol i ≠ "="%char ∧ symbol i ≠ newline.
Proof.
  intros Hi. pose proof sextet_symbol as H. rewrite forallb_Forall, Forall_forall in H.
  specialize (H (Z.to_nat i)). rewrite elem_of_seq, Z2Nat.id, !andb_true_iff, !negb_true_iff,
    bool_decide_eq_true, !bool_decide_eq_false in H by lia. destruct H as [[? ?] ?]; [lia|done].
Qed.

(** The indices of a chunk's symbols, and the bytes back from them. *)
Lemma chunk_value a b c :
  let value := Z.lor (Z.lor (Z.shiftl (code a) 16) (Z.shiftl (code b) 8)) (code c) in
  value = (code a * 65536 + code b * 256 + code c)%Z.
Proof.
  intros value. unfold value. pose proof (code_bounds a). pose proof (code_bounds b). pose proof (code_bounds c).
  replace (Z.shiftl (code a) 16) with (Z.shiftl (Z.shiftl (code a) 8) 8) by (by rewrite Z.shiftl_shiftl).
  rewrite <-Z.shiftl_lor, lor_shiftl by (simpl; lia). rewrite lor_shiftl by (simpl; lia).
  change (2 ^ 8)%Z with 256%Z. lia.
Qed.

Lemma chunk_indices v n : (0 <= n)%Z → Z.land (Z.shiftr v n) 63 = (v / 2 ^ n mod 64)%Z.
Proof. intros Hn. rewrite Z.shiftr_div_pow2 by done. change 63%Z with (Z.ones 6). by rewrite Z.land_ones. Qed.

Lemma chunk_bytes x y z : (0 <= x < 256)%Z → (0 <= y < 256)%Z → (0 <= z < 256)%Z →
  let v := (x * 65536 + y * 256 + z)%Z in
  let a := (v / 2 ^ 18 mod 64)%Z in let b := (v / 2 ^ 12 mod 64)%Z in
  let c := (v / 2 ^ 6 mod 64)%Z in let d := (v mod 64)%Z in
  (a * 4 + b / 16 = x)%Z ∧ ((b * 16 + c / 4) mod 256 = y)%Z ∧ ((c * 64 + d) mod 256 = z)%Z.
Proof.
  intros Hx Hy Hz v a b c d. unfold a, b, c, d, v.
  change (2 ^ 18)%Z with 262144%Z. change (2 ^ 12)%Z with 4096%Z. change (2 ^ 6)%Z with 64%Z.
  clear a b c d v. Z.to_euclidean_division_equations. lia.
Qed.

(** The four symbols of a full chunk. *)
Lemma encode_chunk_symbols chunk x y z :
  code (default "000"%char (chunk !! 0)) = x → code (default "000"%char (chunk !! 1)) = y →
  code (default "000"%char (chunk !! 2)) = z →
  ∃ a b c d, (0 <= a < 64)%Z ∧ (0 <= b < 64)%Z ∧ (0 <= c < 64)%Z ∧ (0 <= d < 64)%Z ∧
    encode_chunk chunk = [symbol a; symbol b; if decide (1 < length chunk) then symbol c else "="%char;
                          if decide (2 < length chunk) then symbol d else "="%char] ∧
    (a * 4 + b / 16 = x)%Z ∧ ((b * 16 + c / 4) mod 256 = y)%Z ∧ ((c * 64 + d) mod 256 = z)%Z.
Proof.
  intros Hx Hy Hz. set (v := (x * 65536 + y * 256 + z)%Z).
  exists (v / 2 ^ 18 mod 64)%Z, (v / 2 ^ 12 mod 64)%Z, (v / 2 ^ 6 mod 64)%Z, (v mod 64)%Z.
  do 4 (split; [apply Z.mod_pos_bound; lia|]). split.
  - unfold encode_chunk. rewrite chunk_value, Hx, Hy, Hz. fold v.
    rewrite !chunk_indices by lia. change (Z.land v 63) with (Z.land v (Z.ones 6)). by rewrite Z.land_ones.
  - apply chunk_bytes; subst; apply code_bounds.
Qed.

Lemma encode_chunk_plain chunk : newline ∉ encode_chunk chunk.
Proof.
  destruct (encode_chunk_symbols chunk _ _ _ eq_refl eq_refl eq_refl)
    as (a & b & c & d & Ha & Hb & Hc & Hd & -> & _).
  apply symbol_spec in Ha as (_ & _ & Ha), Hb as (_ & _ & Hb), Hc as (_ & _ & Hc), Hd as (_ & _ & Hd).
  rewrite !elem_of_cons, elem_of_nil. repeat case_decide; naive_solver.
Qed.

Lemma byte_of_code' x c : (x mod 256 = code c)%Z → byte_of x = c.
Proof. unfold byte_of. intros ->. rewrite <-(byte_of_code c) at 2. unfold byte_of. by rewrite Z.mod_small by apply code_bounds. Qed.

Lemma decode_groups_encode s : decode_groups (mjoin (map encode_chunk (chunks 3 s))) = Some s.
Proof.
  remember (length s) as n eqn:Hn. revert s Hn. induction n as [n IH] using lt_wf_ind. intros s ->.
  assert (∀ x c, (x = code c)%Z → byte_of x = c) as Hfirst by (intros x c ->; apply byte_of_code).
  destruct s as [|x [|y [|z s]]]; [done|..].
  - change (mjoin (map encode_chunk (chunks 3 [x]))) with (encode_chunk [x] ++ []).
    destruct (encode_chunk_symbols [x] _ _ _ eq_refl eq_refl eq_refl)
      as (a & b & c & d & Ha & Hb & _ & _ & -> & Hx & _). simpl in *.
    apply symbol_spec in Ha as (-> & _), Hb as (-> & _). simpl. by rewrite (Hfirst _ _ Hx).
  - change (mjoin (map encode_chunk (chunks 3 [x; y]))) with (encode_chunk [x; y] ++ []).
    destruct (encode_chunk_symbols [x; y] _ _ _ eq_refl eq_refl eq_refl)
      as (a & b & c & d & Ha & Hb & Hc & _ & -> & Hx & Hy & _). simpl in *.
    apply symbol_spec in Ha as (-> & _), Hb as (-> & _), Hc as (Hc & Hc' & _). simpl.
    rewrite decide_False, Hc by done. simpl. by rewrite (Hfirst _ _ Hx), (byte_of_code' _ _ Hy).
  - rewrite chunks_three. cbn [map]. change (mjoin (?u :: ?l)) with (u ++ mjoin l).
    destruct (encode_chunk_symbols [x; y; z] _ _ _ eq_refl eq_refl eq_refl)
      as (a & b & c & d & Ha & Hb & Hc & Hd & -> & Hx & Hy & Hz). simpl in *.
    apply symbol_spec in Ha as (-> & _), Hb as (-> & _), Hc as (Hc & Hc' & _), Hd as (Hd & Hd' & _). simpl.
    rewrite decide_False, Hc by done. simpl. rewrite decide_False, Hd by done. simpl.
    rewrite (IH (length s)) by (lia || done). simpl.
    by rewrite (Hfirst _ _ Hx), (byte_of_code' _ _ Hy), (byte_of_code' _ _ Hz).
Qed.

Lemma filter_free (s : bytes) : newline ∉ s → filter (λ c, c ≠ newline) s = s.
Proof.
  induction s as [|c s IH]; [done|]. intros [H1 H2]%not_elem_of_cons.
  rewrite filter_cons_True by done. by rewrite IH.
Qed.

Lemma filter_lines (l : list bytes) : Forall (λ s, newline ∉ s) l →
  filter (λ c, c ≠ newline) (join [newline] l ++ [newline]) = mjoin l.
Proof.
  intros Hl. induction Hl as [|s l Hs Hl IH]; [done|]. rewrite filter_app in *.
  rewrite (filter_cons_False _ newline) in * by tauto. rewrite filter_nil, app_nil_r in *.
  change (mjoin (s :: l)) with (s ++ mjoin l). rewrite <-IH. destruct l as [|t l].
  - by rewrite app_nil_r, filter_free.
  - change (join [newline] (s :: t :: l)) with (s ++ [newline] ++ join [newline] (t :: l)).
    rewrite !filter_app, (filter_cons_False _ newline), filter_nil by tauto. by rewrite filter_free.
Qed.

Lemma encoded_plain data : Forall (λ s, newline ∉ s) (chunks 76 (mjoin (map encode_chunk (chunks 3 data)))).
Proof.
  assert (newline ∉ mjoin (map encode_chunk (chunks 3 data))) as Hplain.
  { induction (chunks 3 data) as [|c l IH]; [by intros []%not_elem_of_nil|].
    change (mjoin (map encode_chunk (c :: l))) with (encode_chunk c ++ mjoin (map encode_chunk l)).
    intros [Hc|Hc]%elem_of_app; [by apply encode_chunk_plain in Hc|done]. }
  rewrite <-(chunks_join 76 (mjoin _)) in Hplain by lia. apply Forall_forall. intros s Hs Hn.
  apply Hplain. apply list_elem_of_join. by exists s.
Qed.

Lemma base64_decodes data : decode_base64 (encode_base64 data) = Some data.
Proof.
  unfold decode_base64, encode_base64. cbv zeta. rewrite filter_lines, chunks_join by (apply encoded_plain || lia).
  apply decode_groups_encode.
Qed.

(** The guest decodes what the build has encoded: [base64 --decode] gives back the helper's
    bytes. The text has no line of more than 76 characters. *)
Theorem base64_roundtrip data :
  decode_base64 (encode_base64 data) = Some data ∧
  ∃ l, encode_base64 data = join [newline] l ++ [newline] ∧ Forall (λ s, length s <= 76 ∧ newline ∉ s) l.
Proof.
  split; [apply base64_decodes|]. exists (chunks 76 (mjoin (map encode_chunk (chunks 3 data)))). split; [done|].
  pose proof (encoded_plain data) as Hl. pose proof (chunks_length 76 (mjoin (map encode_chunk (chunks 3 data)))) as Hlen.
  rewrite Forall_forall in *. auto.
Qed.
