(* ===== verification/Distribution.v ===== *)
(** * Release tooling (src/src/devtool/distribution.rs)

    The checks a release passes (no machine-specific path in the sources or the
    binary, license texts from inside their packages, no generated files in the
    package) and the archives it is made of, as functions of directory trees; the
    programs that use them are Release.v's. [tar] and [gzip] are parameters. *)

From S2P Require Import Prelude Text Fs Paths Config.

(** ** Machine-specific paths *)

(** [line.match_indices(p)]: what follows each match; matches do not overlap. *)
Fixpoint match_rests_go (p : bytes) (skip : nat) (s : bytes) : list bytes :=
  match s with
  | [] => []
  | c :: r =>
      match skip with
      | S k => match_rests_go p k r
      | O => match strip_prefix p s with
             | Some rest => rest :: match_rests_go p (pred (length p)) r
             | None => match_rests_go p 0 r
             end
      end
  end.
Definition match_rests (p s : bytes) : list bytes := match_rests_go p 0 s.

Definition user_byte (c : ascii) : bool := is_ascii_alphanumeric c || one_of "_.-" c.
Fixpoint take_while (f : ascii → bool) (s : bytes) : bytes :=
  match s with c :: r => if f c then c :: take_while f r else [] | [] => [] end.

Definition home_prefixes : list bytes := [str "/Users/"; str "/home/"].
(** A user's name after the prefix, up to the end or a slash. *)
Definition names_user (rest : bytes) : bool :=
  let length_ := length (take_while user_byte rest) in
  (0 <? length_)%nat && match rest !! length_ with None => true | Some c => bool_decide (c = "/"%char) end.
Definition machine_home_path (line : bytes) : bool :=
  existsb (λ p, existsb names_user (match_rests p line)) home_prefixes.

Section source.
(** The bytes of a listed name that is a regular file and not a link. *)
Context (read : bytes → option bytes).

(** The names Git prints, each ended by a NUL. *)
Definition listed (output : bytes) : list bytes := filter (λ n, n ≠ []) (split "000"%char output).

(** A file that cannot be read as text is passed over. *)
Definition flagged (name : bytes) : bool :=
  match read name with
  | Some content => utf8_valid content && existsb machine_home_path (lines content)
  | None => false
  end.
Definition check_source (output : bytes) : result unit :=
  _ ← for_each (λ n, ensure (utf8_valid n) "invalid utf-8 sequence") (listed output);
  ensure (forallb (λ n, negb (flagged n)) (listed output)) "machine-specific home path".
End source.

(** ** The binary *)

Definition rust_flags (mappings : list (path * path)) : bytes :=
  join ["031"%char] (map (λ m, str "--remap-path-prefix=" ++ m.1 ++ str "=" ++ m.2) mappings).

(** [contents.windows(n).any(...)] panics for an empty path. *)
Definition check_binary (mappings : list (path * path)) (contents : bytes) : result unit :=
  for_each (λ m,
    _ ← ensure (negb (bool_decide (m.1 = []))) "window size must be non-zero";
    ensure (negb (contains m.1 contents)) "binary contains an unremapped local source path") mappings.

(** ** Directory trees *)

Inductive tree :=
| RegularFile (data : bytes) (mode : Z)
| Subdirectory (l : list (bytes * tree))
| Unreadable (e : string)
| Link
| OtherFile.

(** The names that lead to a file below the directory walked. *)
Abbreviation relative := (list bytes).

(** [walk_files]: the non-empty regular files, in the order of [read_dir]; links are not
    followed. [here] is the directory walked. *)
Fixpoint walk_files (here : relative) (t : tree) : result (list relative) :=
  match t with
  | Subdirectory l =>
      (fix walk_all (l : list (bytes * tree)) : result (list relative) :=
        match l with
        | [] => Ok []
        | (name, t) :: l =>
            found ← match t with
                    | Subdirectory _ | Unreadable _ => walk_files (here ++ [name]) t
                    | RegularFile data _ => Ok (if bool_decide (data = []) then [] else [here ++ [name]])
                    | Link | OtherFile => Ok []
                    end;
            more ← walk_all l;
            Ok (found ++ more)
        end) l
  | Unreadable e => Err e
  | _ => Err "not a directory"
  end.

(** ** Orders *)

(** [Path::cmp]: by components, which are compared by their bytes. *)
Fixpoint bytes_le (a b : bytes) : bool :=
  match a, b with
  | [], _ => true
  | _ :: _, [] => false
  | x :: a, y :: b => (code x <? code y)%Z || (code x =? code y)%Z && bytes_le a b
  end.
Fixpoint names_le (a b : relative) : bool :=
  match a, b with
  | [], _ => true
  | _ :: _, [] => false
  | x :: a, y :: b => if bool_decide (x = y) then names_le a b else bytes_le x y
  end.

(** A stable sort. *)
Fixpoint insert_by {A : Type} (le : A → A → bool) (x : A) (l : list A) : list A :=
  match l with
  | [] => [x]
  | y :: l => if le x y then x :: y :: l else y :: insert_by le x l
  end.
Definition sort_by {A : Type} (le : A → A → bool) (l : list A) : list A := foldr (insert_by le) [] l.

(** The elements of a [BTreeSet<PathBuf>]: of equal paths the one inserted first. *)
Fixpoint dedup (l : list path) : list path :=
  match l with
  | p :: l => p :: filter (λ q, same_path p q = false) (dedup l)
  | [] => []
  end.
Definition path_set (l : list path) : list path := sort_by (λ p q, names_le (names p) (names q)) (dedup l).

(** ** License texts *)

Record Package := {
  id : bytes;
  package_name : bytes;
  version : bytes;
  manifest_path : path;
  license : option bytes;
  repository : option bytes;
  license_file : option path
}.

(** A name that is not UTF-8 is compared by its bytes: what replaces a broken sequence is not ASCII
    either. *)
Definition license_name (name : bytes) : bool :=
  let name := to_ascii_lowercase name in
  existsb (λ prefix, bool_decide (name = str prefix) ||
                     match strip_prefix (str prefix) name with
                     | Some (c :: _) => one_of ".-_" c
                     | _ => false
                     end)
    ["license"; "licence"; "copying"; "copyright"; "notice"; "unlicense"].

Section licenses.
(** The host's paths, the tree of a directory, and the size of a regular file, links followed. *)
Context (H : host) (tree_of : path → tree) (file_size : path → option Z).

Definition license_files (package : Package) (root : path) : result (list path) :=
  root ← canonicalize H root;
  declared ← match license_file package with
             | Some declared =>
                 candidate ← canonicalize H (path_join root declared);
                 _ ← ensure (path_starts_with candidate root) "license path escapes package";
                 Ok match file_size candidate with
                    | Some n => if (0 <? n)%Z then [candidate] else []
                    | None => []
                    end
             | None => Ok []
             end;
  candidates ← walk_files [] (tree_of root);
  Ok (path_set (declared ++ map (λ r, path_join root (path_of false r))
                 (filter (λ r, license_name (default [] (last r)) = true) candidates))).

Definition package_directory (p : Package) : bytes := package_name p ++ str "-" ++ version p.

(** The license texts of one package, and the directory they are in: its own, or the one supplied
    with the repository. *)
Definition select_licenses (supplements : path) (p : Package) : result (path * list path) :=
  package_root ← ok_or (parent_of (manifest_path p)) "package manifest has no parent";
  files ← license_files p package_root;
  let supplement := path_join supplements (package_directory p) in
  if bool_decide (files = []) && is_dir H supplement then
    files ← license_files p supplement;
    let notes := path_join supplement (str "SOURCE") in
    Ok (supplement, files ++ if bool_decide (is_Some (file_size notes)) then [notes] else [])
  else Ok (package_root, files).

Fixpoint select_all (supplements : path) (l : list Package) : result (list (Package * path * list path)) :=
  match l with
  | [] => Ok []
  | p :: l =>
      '(root, files) ← select_licenses supplements p;
      more ← select_all supplements l;
      Ok ((p, root, files) :: more)
  end.

(** What is copied where, below the output. [output_exists] is what [output.exists()] says; the
    copying itself is in Release. *)
Fixpoint copies (directory : bytes) (root : path) (files : list path) : result (list (path * path)) :=
  match files with
  | [] => Ok []
  | source :: files =>
      relative ← ok_or (path_strip_prefix source root) "prefix not found";
      more ← copies directory root files;
      Ok ((source, path_join directory relative) :: more)
  end.
Fixpoint copy_all (l : list (Package * path * list path)) : result (list (Package * list (path * path))) :=
  match l with
  | [] => Ok []
  | (p, root, files) :: l =>
      copied ← copies (package_directory p) root files;
      more ← copy_all l;
      Ok ((p, copied) :: more)
  end.

Definition package_le (p q : Package) : bool :=
  if bool_decide (package_name p = package_name q) then bytes_le (version p) (version q)
  else bytes_le (package_name p) (package_name q).
Definition third_party (workspace_members : list bytes) (packages : list Package) : list Package :=
  sort_by package_le (filter (λ p, id p ∉ workspace_members) packages).

Definition select_checked (output_exists : bool) (supplements : path) (workspace_members : list bytes)
    (packages : list Package) : result (list (Package * path * list path)) :=
  _ ← ensure (negb output_exists) "output must not already exist";
  selections ← select_all supplements (third_party workspace_members packages);
  _ ← ensure (forallb (λ x, negb (bool_decide (x.2 = []))) selections) "no license text found";
  Ok selections.
Definition collect_licenses (output_exists : bool) (supplements : path) (workspace_members : list bytes)
    (packages : list Package) : result (list (Package * list (path * path))) :=
  selections ← select_checked output_exists supplements workspace_members packages;
  copy_all selections.

End licenses.

(** ** Packages and archives *)

(** The names of the entries, as [tar] reads them. *)
Definition generated (name : path) : bool :=
  existsb (λ n, bool_decide (n = str "dist") || bool_decide (n = str "target"))
    (names name).
Definition check_cargo_package (entries : result (list path)) : result nat :=
  names ← entries;
  _ ← ensure (forallb (λ n, negb (generated n)) names) "generated files";
  _ ← ensure (negb (bool_decide (names = []))) "empty Cargo archive";
  Ok (length names).

Record entry := {
  entry_path : path;
  entry_data : bytes;
  entry_mode : Z;
  entry_mtime : Z;
  entry_uid : Z;
  entry_gid : Z;
  entry_user : bytes;
  entry_group : bytes
}.

Definition append (root : bytes) (name : relative) (source : tree) (epoch : Z) : result entry :=
  match source with
  | RegularFile contents mode =>
      Ok {| entry_path := path_join root (path_of false name); entry_data := contents;
            entry_mode := if bool_decide (Z.land mode 73 = 0%Z) then 420 else 493;
            entry_mtime := epoch; entry_uid := 0; entry_gid := 0;
            entry_user := str "root"; entry_group := str "root" |}
  | _ => Err "release input must be a regular file"
  end.
Fixpoint append_all (root : bytes) (files : list (relative * tree)) (epoch : Z) : result (list entry) :=
  match files with
  | [] => Ok []
  | (name, source) :: files =>
      e ← append root name source epoch;
      more ← append_all root files epoch;
      Ok (e :: more)
  end.

(** [pack] is [tar] and [gzip] with the given time. *)
Definition archive (pack : Z → list entry → result bytes) (root : bytes) (files : list (relative * tree))
    (epoch : Z) : result bytes :=
  _ ← ensure (epoch <=? u32_max)%Z "SOURCE_DATE_EPOCH exceeds gzip range";
  entries ← append_all root (sort_by (λ x y, names_le x.1 y.1) files) epoch;
  pack epoch entries.
