(* ===== verification/DistributionSpec.v ===== *)
(** * What the release tooling guarantees

    The checks find exactly what they look for, every dependency's license text
    comes along, and an archive depends on the files alone and not on the order
    in which they are found. *)

From stdpp Require Import sorting.
From S2P Require Import Prelude Text Fs Paths Config ConfigSpec Distribution.

(** ** Machine-specific paths *)

Lemma take_while_all f s : Forall (λ c, f c = true) (take_while f s).
Proof. induction s as [|c s IH]; simpl; [done|]. destruct (f c) eqn:E; by constructor. Qed.

Lemma take_while_app f name after :
  Forall (λ c, f c = true) name → (after = [] ∨ ∃ c r, after = c :: r ∧ f c = false) →
  take_while f (name ++ after) = name.
Proof.
  intros Hn Ha. induction Hn as [|c name Hc Hn IH]; simpl; [|by rewrite Hc, IH].
  destruct Ha as [->|(c & r & -> & Hc)]; [done|]. simpl. by rewrite Hc.
Qed.

Lemma take_while_split f s : ∃ r, s = take_while f s ++ r ∧ r = drop (length (take_while f s)) s.
Proof.
  induction s as [|c s (r & E & Hr)]; simpl; [by exists []|].
  destruct (f c); [|by exists (c :: s)]. exists r. simpl. rewrite <-E. done.
Qed.

(** A home directory right here. *)
Definition home_here (rest : bytes) : Prop :=
  ∃ name after, rest = name ++ after ∧ name ≠ [] ∧ Forall (λ c, user_byte c = true) name ∧
    (after = [] ∨ head after = Some "/"%char).

Lemma names_user_spec rest : names_user rest = true ↔ home_here rest.
Proof.
  unfold names_user. rewrite andb_true_iff, Nat.ltb_lt. split.
  - intros [Hl Hc]. destruct (take_while_split user_byte rest) as (r & E & Hr).
    exists (take_while user_byte rest), r. split; [done|]. split; [by destruct (take_while user_byte rest); simpl in Hl; [lia|]|].
    split; [apply take_while_all|]. rewrite Hr. clear E Hr.
    destruct (rest !! length (take_while user_byte rest)) as [c|] eqn:El.
    + right. apply bool_decide_eq_true_1 in Hc as ->. by rewrite (drop_S _ _ _ El).
    + left. apply lookup_ge_None in El. by apply drop_ge.
  - intros (name & after & -> & Hne & Hn & Ha).
    rewrite (take_while_app _ name after Hn); [split; [by destruct name; simpl; [|lia]|]|].
    + rewrite lookup_app_r, Nat.sub_diag by lia.
      destruct after as [|c after]; [done|]. destruct Ha as [|[= ->]]; [done|]. by apply bool_decide_eq_true.
    + destruct after as [|c after]; [by left|]. destruct Ha as [|[= ->]]; [done|]. right. eauto.
Qed.

(** Matches are found, and nothing else is. *)
Lemma match_rests_sound p skip s rest : rest ∈ match_rests_go p skip s → ∃ before, s = before ++ p ++ rest.
Proof.
  revert skip. induction s as [|c s IH]; intros skip; simpl; [by intros ?%not_elem_of_nil|].
  assert (∀ k, rest ∈ match_rests_go p k s → ∃ before, c :: s = before ++ p ++ rest) as Hs.
  { intros k (b & ->)%IH. by exists (c :: b). }
  destruct skip as [|k]; [|by apply Hs].
  destruct (strip_prefix p (c :: s)) as [r|] eqn:E; [|by apply Hs].
  intros [->|Hr]%elem_of_cons; [|by eapply Hs]. exists []. by apply strip_prefix_Some in E.
Qed.

Lemma match_rests_skip p k s :
  k <= length s → match_rests_go p k s = match_rests_go p 0 (drop k s).
Proof.
  revert k. induction s as [|c s IH]; intros [|k] Hk; simpl in *; try done. apply IH. lia.
Qed.

(** Unless two occurrences overlap, every one is found; where they do, the first is good. *)
Lemma match_rests_complete p before rest s :
  p ≠ [] →
  (∀ b rest rest', b ≠ [] → length b < length p → b ++ p ++ rest = p ++ rest' → names_user rest' = true) →
  s = before ++ p ++ rest → names_user rest = true → existsb names_user (match_rests_go p 0 s) = true.
Proof.
  intros Hp Hoverlap. remember (length s) as n eqn:Hn. revert s before Hn.
  induction n as [n IH] using lt_wf_ind. intros s before -> Hs Hu.
  destruct s as [|c s].
  { by destruct before, p. }
  simpl. destruct (strip_prefix p (c :: s)) as [r|] eqn:E.
  - apply strip_prefix_Some in E. simpl. destruct (names_user r) eqn:Er; [done|]. simpl.
    destruct (decide (before = [])) as [->|Hb].
    { simpl in Hs. assert (r = rest) by (eapply app_inv_head; by rewrite <-E). congruence. }
    destruct (decide (length before < length p)) as [Hl|Hl].
    { assert (names_user r = true); [|congruence]. apply (Hoverlap before rest); [done..|]. by rewrite <-Hs, E. }
    assert (∃ b, before = p ++ b) as [b ->].
    { rewrite E in Hs. apply app_eq_inv in Hs as [(k & Hk & _)|(k & Hk & _)].
      - assert (length k = 0) as Hk0 by (apply (f_equal length) in Hk; rewrite length_app in Hk; lia).
        apply nil_length_inv in Hk0 as ->. exists []. rewrite !app_nil_r in *. done.
      - eauto. }
    rewrite <-app_assoc in Hs. rewrite E in Hs. apply app_inv_head in Hs.
    rewrite match_rests_skip.
    + assert (drop (pred (length p)) s = r) as ->.
      { destruct p as [|x p]; [done|]. injection E as _ ->. simpl. by rewrite drop_app_length. }
      apply (IH (length r)) with (before := b); [|done..].
      apply (f_equal length) in E. rewrite length_app in E. destruct p; simpl in *; [done|lia].
    + apply (f_equal length) in E. rewrite length_app in E. simpl in E. lia.
  - destruct before as [|x before].
    { simpl in Hs. rewrite Hs in E. pose proof (proj2 (strip_prefix_Some p (p ++ rest) rest) eq_refl). congruence. }
    injection Hs as -> Hs. by apply (IH (length s)) with (before := before); [simpl; lia|..].
Qed.

Lemma home_prefix_overlap p b rest rest' :
  p ∈ home_prefixes → b ≠ [] → length b < length p → b ++ p ++ rest = p ++ rest' → names_user rest' = true.
Proof.
  intros Hp Hb Hl E. apply elem_of_cons in Hp as [->|Hp%list_elem_of_singleton]; [|subst p].
  - do 7 (destruct b as [|? b]; [first [by destruct Hb | discriminate E | simpl in E; injection E; intros; subst; reflexivity]|]).
    simpl in Hl. lia.
  - do 6 (destruct b as [|? b]; [first [by destruct Hb | discriminate E | simpl in E; injection E; intros; subst; reflexivity]|]).
    simpl in Hl. lia.
Qed.

(** A home directory: one of the prefixes, a user's name, and the end of the line or a slash. *)
Definition home_path (line : bytes) : Prop :=
  ∃ before p rest, p ∈ home_prefixes ∧ line = before ++ p ++ rest ∧ home_here rest.

Lemma machine_home_path_spec line : machine_home_path line = true ↔ home_path line.
Proof.
  unfold machine_home_path. rewrite existsb_exists. setoid_rewrite <-list_elem_of_In. split.
  - intros (p & Hp & (rest & Hr%list_elem_of_In & Hu)%existsb_exists).
    apply match_rests_sound in Hr as [before E]. exists before, p, rest. by rewrite <-names_user_spec.
  - intros (before & p & rest & Hp & E & Hu%names_user_spec). exists p. split; [done|].
    eapply match_rests_complete; [| |exact E|exact Hu].
    + apply elem_of_cons in Hp as [-> | ->%list_elem_of_singleton]; done.
    + intros b r r' Hb Hl Hbr. by eapply home_prefix_overlap.
Qed.

(** The source check passes exactly when every listed name is text and no listed regular file
    that is text has a line with a home directory: one of the two prefixes followed by a user's
    name and the end of the line or a slash, wherever in the line. *)
Theorem check_source_spec read output :
  check_source read output = Ok () ↔
  ∀ n, n ∈ listed output → utf8_valid n = true ∧
    ∀ content line, read n = Some content → utf8_valid content = true → line ∈ lines content → ¬ home_path line.
Proof.
  unfold check_source. rewrite unit_bind_Ok, for_each_Ok, ensure_Ok, forallb_Forall, !Forall_forall.
  setoid_rewrite ensure_Ok.
  assert (∀ n, negb (flagged read n) = true ↔ ∀ content line,
    read n = Some content → utf8_valid content = true → line ∈ lines content → ¬ home_path line) as Hf.
  { intros n. rewrite negb_true_iff. unfold flagged. split.
    - intros Hn content line Hr Hu Hl Hh%machine_home_path_spec. rewrite Hr, Hu in Hn. simpl in Hn.
      rewrite <-not_true_iff_false, existsb_exists in Hn. apply Hn. exists line. by rewrite <-list_elem_of_In.
    - intros Hn. destruct (read n) as [content|]; [|done]. rewrite <-not_true_iff_false, andb_true_iff, existsb_exists.
      intros [Hu (line & Hl%list_elem_of_In & Hh%machine_home_path_spec)]. by apply (Hn content line). }
  split.
  - intros [Hu Hn] n Hl. split; [by apply Hu|]. by apply Hf, Hn.
  - intros Hn. split; [intros n Hl; by apply Hn|]. intros n Hl. by apply Hf, Hn.
Qed.

(** ** The binary *)

Lemma contains_spec p s : contains p s = true ↔ ∃ before after, s = before ++ p ++ after.
Proof.
  induction s as [|c s IH]; simpl.
  - rewrite orb_false_r, starts_with_spec. split; [intros [r ->]; by exists [], r|].
    intros (b & r & E). destruct b; [|done]. by exists r.
  - rewrite orb_true_iff, starts_with_spec, IH. split.
    + intros [[r ->]|(b & r & ->)]; [by exists [], r|by exists (c :: b), r].
    + intros (b & r & E). destruct b as [|x b]; [left; by exists r|]. right. injection E as -> E. by exists b, r.
Qed.

(** A binary passes exactly when it contains none of the build's source paths: every one was
    remapped. *)
Theorem check_binary_spec mappings contents :
  check_binary mappings contents = Ok () ↔
  ∀ m, m ∈ mappings → m.1 ≠ [] ∧ ¬ ∃ before after, contents = before ++ m.1 ++ after.
Proof.
  unfold check_binary. rewrite for_each_Ok, Forall_forall. setoid_rewrite ensure_bind_Ok.
  setoid_rewrite ensure_Ok. setoid_rewrite negb_true_iff. setoid_rewrite bool_decide_eq_false.
  setoid_rewrite <-contains_spec. setoid_rewrite not_true_iff_false. done.
Qed.

(** ** Sorting *)

Lemma code_inj a b : code a = code b → a = b.
Proof.
  unfold code. intros H%(inj Z.of_N). rewrite <-(ascii_N_embedding a), <-(ascii_N_embedding b). by rewrite H.
Qed.

Lemma bytes_le_total a b : bytes_le a b = true ∨ bytes_le b a = true.
Proof.
  revert b. induction a as [|x a IH]; intros [|y b]; simpl; auto.
  rewrite !orb_true_iff, !andb_true_iff, !Z.ltb_lt, !Z.eqb_eq.
  destruct (Z.lt_trichotomy (code x) (code y)) as [?|[E|?]]; [auto| |auto]. destruct (IH b); auto.
Qed.
Lemma bytes_le_trans a b c : bytes_le a b = true → bytes_le b c = true → bytes_le a c = true.
Proof.
  revert b c. induction a as [|x a IH]; intros [|y b] [|z c]; simpl; try done.
  rewrite !orb_true_iff, !andb_true_iff, !Z.ltb_lt, !Z.eqb_eq. intros [?|[? H1]] [?|[? H2]]; try lia.
  right. split; [lia|]. by apply (IH b).
Qed.
Lemma bytes_le_antisymm a b : bytes_le a b = true → bytes_le b a = true → a = b.
Proof.
  revert b. induction a as [|x a IH]; intros [|y b]; simpl; try done.
  rewrite !orb_true_iff, !andb_true_iff, !Z.ltb_lt, !Z.eqb_eq. intros [?|[E H1]] [?|[E' H2]]; try lia.
  apply code_inj in E as ->. by rewrite (IH b).
Qed.

Lemma names_le_total a b : names_le a b = true ∨ names_le b a = true.
Proof.
  revert b. induction a as [|x a IH]; intros [|y b]; simpl; auto.
  destruct (decide (x = y)) as [->|Hn].
  - rewrite !bool_decide_true by done. apply IH.
  - rewrite !bool_decide_false by done. apply bytes_le_total.
Qed.
Lemma names_le_antisymm a b : names_le a b = true → names_le b a = true → a = b.
Proof.
  revert b. induction a as [|x a IH]; intros [|y b]; simpl; try done.
  destruct (decide (x = y)) as [->|Hn].
  - rewrite !bool_decide_true by done. intros H1 H2. by rewrite (IH b).
  - rewrite !bool_decide_false by done. intros H1 H2. by destruct Hn; apply bytes_le_antisymm.
Qed.
Lemma names_le_trans a b c : names_le a b = true → names_le b c = true → names_le a c = true.
Proof.
  revert b c. induction a as [|x a IH]; intros [|y b] [|z c]; simpl; try done.
  destruct (decide (x = y)) as [->|Hxy], (decide (y = z)) as [->|Hyz];
    repeat first [rewrite bool_decide_true by done | rewrite bool_decide_false by done]; try done.
  - apply IH.
  - destruct (decide (x = z)) as [->|Hxz].
    + intros H1 H2. destruct Hxy. by apply bytes_le_antisymm.
    + rewrite bool_decide_false by done. apply bytes_le_trans.
Qed.

Section sort.
Context {A : Type} (le : A → A → bool).

Lemma insert_by_Permutation x l : insert_by le x l ≡ₚ x :: l.
Proof using.
  induction l as [|y l IH]; simpl; [done|]. destruct (le x y); [done|].
  rewrite IH. apply Permutation_swap.
Qed.
Lemma sort_by_Permutation l : sort_by le l ≡ₚ l.
Proof using. induction l as [|x l IH]; simpl; [done|]. by rewrite insert_by_Permutation, IH. Qed.

Context (total : ∀ x y, le x y = true ∨ le y x = true).
Context (transitive : ∀ x y z, le x y = true → le y z = true → le x z = true).

Lemma insert_by_sorted x l :
  StronglySorted (λ x y, le x y = true) l → StronglySorted (λ x y, le x y = true) (insert_by le x l).
Proof using total transitive.
  induction 1 as [|y l Hl IH Hy]; simpl; [by repeat constructor|].
  destruct (le x y) eqn:E.
  - constructor; [by constructor|]. constructor; [done|]. eapply Forall_impl; [exact Hy|]. eauto.
  - constructor; [done|]. rewrite insert_by_Permutation. constructor; [|done].
    destruct (total x y); congruence.
Qed.
Lemma sort_by_sorted l : StronglySorted (λ x y, le x y = true) (sort_by le l).
Proof using total transitive. induction l; simpl; [constructor|]. by apply insert_by_sorted. Qed.

(** Sorting forgets the order, where no two elements are equivalent. *)
Lemma sort_by_unique l k :
  l ≡ₚ k → (∀ x y, x ∈ l → y ∈ l → le x y = true → le y x = true → x = y) → sort_by le l = sort_by le k.
Proof using total transitive.
  intros Hp Hu. apply (StronglySorted_unique_strong (λ x y, le x y = true));
    [|apply sort_by_sorted..|by rewrite !sort_by_Permutation].
  intros x y Hx Hy. rewrite sort_by_Permutation in Hx. rewrite sort_by_Permutation, <-Hp in Hy. by apply Hu.
Qed.
End sort.

(** ** Archives *)

(** Two files of one name are one. *)
Lemma same_key {T U : Type} (l : list (T * U)) x y : NoDup (l.*1) → x ∈ l → y ∈ l → x.1 = y.1 → x = y.
Proof.
  intros Hn [i Hi]%list_elem_of_lookup [j Hj]%list_elem_of_lookup E.
  assert (i = j) as ->; [|congruence].
  apply (NoDup_lookup (l.*1) i j x.1); [done|by rewrite list_lookup_fmap, Hi|by rewrite list_lookup_fmap, Hj, E].
Qed.

(** The normalized header of a file. *)
Definition normalized (root : bytes) (epoch : Z) (x : relative * tree) (e : entry) : Prop :=
  ∃ data mode, x.2 = RegularFile data mode ∧
    e = {| entry_path := path_join root (path_of false x.1); entry_data := data;
           entry_mode := if bool_decide (Z.land mode 73 = 0%Z) then 420 else 493;
           entry_mtime := epoch; entry_uid := 0; entry_gid := 0;
           entry_user := str "root"; entry_group := str "root" |}.

Lemma append_all_spec root files epoch es :
  append_all root files epoch = Ok es ↔ Forall2 (normalized root epoch) files es.
Proof.
  revert es. induction files as [|[name source] files IH]; intros es; simpl.
  - split; [intros [= <-]; constructor|by intros ->%Forall2_nil_inv_l].
  - rewrite bind_Ok. setoid_rewrite bind_Ok. setoid_rewrite IH. split.
    + intros (e & He & more & Hm & [= <-]). constructor; [|done].
      destruct source as [data mode| | | |]; try discriminate He. injection He as <-. by exists data, mode.
    + intros H. inversion H as [|? e ? more Hx Hm]; subst.
      destruct Hx as (data & mode & [= ->] & ->). eexists. split; [done|]. by exists more.
Qed.

(** C40. The archive of a set of files does not depend on the order in which they are listed; it has
    one normalized entry for each of them, which must be a regular file. *)
Theorem archive_reproducible pack root files files' epoch :
  files ≡ₚ files' → NoDup (files.*1) →
  archive pack root files epoch = archive pack root files' epoch ∧
  ∀ out, archive pack root files epoch = Ok out →
    ∃ order es, order ≡ₚ files ∧ Forall2 (normalized root epoch) order es ∧ pack epoch es = Ok out.
Proof.
  intros Hp Hn. split.
  - unfold archive. rewrite (sort_by_unique (λ x y, names_le x.1 y.1) (λ x y, names_le_total x.1 y.1)
      (λ x y z, names_le_trans x.1 y.1 z.1) files files' Hp); [done|].
    intros x y Hx Hy H1 H2. apply (same_key files); [done..|]. by apply names_le_antisymm.
  - intros out. unfold archive. rewrite ensure_bind_Ok, bind_Ok. intros (_ & es & Hes%append_all_spec & Hout).
    eexists _, es. split; [apply sort_by_Permutation|]. by split.
Qed.

(** ** License texts *)

Section licenses.
Context (H : host) (tree_of : path → tree) (file_size : path → option Z).

Lemma select_all_spec supplements l r :
  select_all H tree_of file_size supplements l = Ok r ↔
  Forall2 (λ p x, ∃ root files, x = (p, root, files) ∧
    select_licenses H tree_of file_size supplements p = Ok (root, files)) l r.
Proof using.
  revert r. induction l as [|p l IH]; intros r; simpl.
  - split; [intros [= <-]; constructor|by intros ->%Forall2_nil_inv_l].
  - rewrite bind_Ok. split.
    + intros ([root files] & Hs & H1). apply bind_Ok in H1 as (more & Hm & [= <-]).
      constructor; [by exists root, files|by apply IH].
    + intros HF. inversion HF as [|? x ? more (root & files & -> & Hs) Hm]; subst.
      exists (root, files). split; [done|]. apply bind_Ok. exists more. split; [by apply IH|done].
Qed.

(** A license text that is copied from inside [root] to inside [directory]. *)
Definition copied_inside (root : path) (directory : bytes) (x : path * path) : Prop :=
  path_starts_with x.1 root = true ∧ ∃ relative, path_strip_prefix x.1 root = Some relative ∧
    x.2 = path_join directory relative.

Lemma copies_spec directory root files r :
  copies directory root files = Ok r → r.*1 = files ∧ Forall (copied_inside root directory) r.
Proof using.
  revert r. induction files as [|f files IH]; intros r; simpl; [by intros [= <-]|].
  rewrite bind_Ok. intros (relative & Hr & H1). apply bind_Ok in H1 as (more & Hm & [= <-]).
  apply IH in Hm as [<- Hm]. split; [done|]. constructor; [|done].
  destruct (path_strip_prefix f root) as [q|] eqn:E; [|discriminate Hr]. injection Hr as ->.
  split; [|by exists relative]. unfold path_strip_prefix in E. by destruct (path_starts_with f root) eqn:Es.
Qed.

Lemma copy_all_spec l r :
  copy_all l = Ok r →
  Forall2 (λ x y, y.1 = x.1.1 ∧ y.2.*1 = x.2 ∧ Forall (copied_inside x.1.2 (package_directory x.1.1)) y.2) l r.
Proof using.
  revert r. induction l as [|[[p root] files] l IH]; intros r; simpl; [by intros [= <-]; constructor|].
  rewrite bind_Ok. intros (copied & Hc & H1). apply bind_Ok in H1 as (more & Hm & [= <-]).
  apply copies_spec in Hc as [Hc1 Hc2]. constructor; [done|by apply IH].
Qed.

(** Where the texts of a package come from. *)
Definition license_root (supplements : path) (p : Package) (root : path) : Prop :=
  parent_of (manifest_path p) = Some root ∨ root = path_join supplements (package_directory p).

Lemma select_root supplements p root files :
  select_licenses H tree_of file_size supplements p = Ok (root, files) → license_root supplements p root.
Proof using.
  unfold select_licenses. rewrite bind_Ok. intros (package_root & Hr & Hs).
  apply bind_Ok in Hs as (own & _ & Hs). destruct (parent_of (manifest_path p)) eqn:E; [|discriminate Hr].
  injection Hr as ->. destruct (bool_decide (own = []) && _).
  - apply bind_Ok in Hs as (found & _ & [= <- _]). by right.
  - injection Hs as <- _. by left.
Qed.

(** When the license texts are collected, every dependency from outside the workspace has at
    least one, each found inside the package's own directory or the one supplied for it, and copied
    into the directory of its name and version. *)
Theorem licenses_complete exists_ supplements members packages r :
  collect_licenses H tree_of file_size exists_ supplements members packages = Ok r →
  map fst r ≡ₚ filter (λ p, id p ∉ members) packages ∧
  ∀ p copied, (p, copied) ∈ r → copied ≠ [] ∧
    ∃ root, license_root supplements p root ∧ Forall (copied_inside root (package_directory p)) copied.
Proof using.
  unfold collect_licenses, select_checked. rewrite bind_Ok. intros (sel & Hsel & Hr%copy_all_spec).
  apply unit_bind_Ok in Hsel as [_ Hsel]. apply bind_Ok in Hsel as (sel' & Hsel%select_all_spec & H1).
  apply ensure_bind_Ok in H1 as [Hne [= ->]]. rewrite forallb_Forall, Forall_forall in Hne. split.
  - transitivity (third_party members packages); [apply reflexive_eq|apply sort_by_Permutation].
    revert sel Hsel r Hr Hne. generalize (third_party members packages).
    induction 1 as [|p x l sel (root & files & -> & Hs) Hsel IH]; intros r Hr Hne; inversion Hr as [|? y ? r' (H1 & _) Hr']; subst; [done|].
    simpl in *. rewrite H1. f_equal. apply IH; [done|]. intros z Hz. apply Hne. by right.
  - intros p copied [i Hi]%list_elem_of_lookup.
    destruct (Forall2_lookup_r _ _ _ _ _ Hr Hi) as ([[p' root] files] & Hi' & Hp & Hf & Hc). simpl in *. subst p'.
    destruct (Forall2_lookup_r _ _ _ _ _ Hsel Hi') as (q & _ & root' & files' & [= <- <- <-] & Hs).
    split; [|exists root; split; [by eapply select_root|done]].
    specialize (Hne _ (list_elem_of_lookup_2 _ _ _ Hi')). simpl in Hne. rewrite negb_true_iff, bool_decide_eq_false in Hne.
    intros ->. by apply Hne.
Qed.
End licenses.

(** ** Concrete inputs *)

Definition sample_files : list (relative * tree) :=
  [([str "data"], RegularFile (str "payload") 420);
   ([str "bin"; str "luhmen"], RegularFile (str "#!/bin/sh") 493)].
Definition sample_pack (epoch : Z) (es : list entry) : result bytes := Ok (join (str ",") (map entry_path es)).

Lemma archive_reproducible_witness :
  archive sample_pack (str "luhmen-test") sample_files 1000000000 = Ok (str "luhmen-test/bin/luhmen,luhmen-test/data") ∧
  archive sample_pack (str "luhmen-test") sample_files 1000000000 =
  archive sample_pack (str "luhmen-test") (rev sample_files) 1000000000.
Proof.
  split; [vm_compute; reflexivity|].
  apply (archive_reproducible sample_pack (str "luhmen-test") sample_files (rev sample_files) 1000000000).
  - apply Permutation_rev.
  - apply (bool_decide_unpack _). vm_compute. reflexivity.
Defined.

(** The source's test vectors. *)
Example home_path_detection_is_bounded :
  map machine_home_path [str "path=/Users/alice/project"; str "path=/home/alice/project";
                         str "https://example.test/homepage"; str "/Users/$USER/project"]
  = [true; true; false; false].
Proof. vm_compute. reflexivity. Qed.
Example cargo_archive_rejects_generated_directories :
  is_ok (check_cargo_package (Ok [str "example-1.0.0/target/output"])) = false.
Proof. vm_compute. reflexivity. Qed.

(** One dependency with a license text, and one whose text comes with the repository. *)
Definition sample_host : host :=
  {| canonicalize := Ok; exists_at := λ p, negb (bool_decide (p = str "/out")); is_dir := λ _, true; is_link := λ _, false |}.
Definition sample_tree (p : path) : tree :=
  if decide (p = str "/deps/a") then
    Subdirectory [(str "src", Subdirectory [(str "lib.rs", RegularFile (str "fn") 420)]);
                  (str "LICENSE-MIT", RegularFile (str "MIT") 420)]
  else if decide (p = str "/repo/licenses/b-2.0") then Subdirectory [(str "copying", RegularFile (str "GPL") 420)]
  else Subdirectory [].
Definition sample_packages : list Package :=
  [{| id := str "b"; package_name := str "b"; version := str "2.0"; manifest_path := str "/deps/b/Cargo.toml"; license := None; repository := None; license_file := None |};
   {| id := str "luhmen"; package_name := str "luhmen"; version := str "1.0"; manifest_path := str "/repo/Cargo.toml"; license := None; repository := None; license_file := None |};
   {| id := str "a"; package_name := str "a"; version := str "1.0"; manifest_path := str "/deps/a/Cargo.toml"; license := Some (str "MIT"); repository := None; license_file := None |}].

Lemma licenses_complete_witness :
  match collect_licenses sample_host sample_tree (λ _, None) false (str "/repo/licenses") [str "luhmen"] sample_packages with
  | Ok r => map (map snd) (map snd r) = [[str "a-1.0/LICENSE-MIT"]; [str "b-2.0/copying"]] ∧
      map fst r ≡ₚ filter (λ p, id p ∉ [str "luhmen"]) sample_packages
  | Err _ => False
  end.
Proof.
  destruct (collect_licenses _ _ _ _ _ _ _) as [r|e] eqn:E.
  - split; [vm_compute in E; injection E as <-; vm_compute; reflexivity|].
    exact (proj1 (licenses_complete _ _ _ _ _ _ _ _ E)).
  - vm_compute in E. discriminate E.
Defined.
