(* ===== verification/Release.v ===== *)
(** * Making a release (src/src/devtool/distribution.rs, src/src/bin/luhmen-devtool.rs)

    [build_release], [collect_licenses] and [release] as programs over files
    (Fs.v). The commands they run (Git, Cargo, rustc, uname, xcrun) are oracles:
    what they print and what they do to the files. [serde_json], [tar] with
    [gzip], SHA-256 and the order in which a directory is read are parameters. *)

From S2P Require Import Prelude Text Fs Paths Config Trees Value Distribution.

Definition RELEASE_TARGET : string := "aarch64-apple-darwin".

Record Invocation := {
  program : bytes;
  arguments : list bytes;
  directory : option path;
  set_env : list (bytes * bytes);
  unset_env : list bytes
}.
Record Output := { succeeded : bool; printed : bytes }.

Record tools := Tools {
  os :> environment;
  me : process;
  (** [CARGO_MANIFEST_DIR]. *)
  repo : path;
  (** [HOME], [CARGO_HOME], [SOURCE_DATE_EPOCH], [CARGO_TARGET_DIR] and [std::env::temp_dir()]. *)
  HOME : option path;
  CARGO_HOME : option path;
  SOURCE_DATE_EPOCH : option bytes;
  CARGO_TARGET_DIR : option path;
  temp_dir : path;
  host_paths : host;
  (** The sources of the dependencies: directories, and sizes of regular files. *)
  sources : path → Distribution.tree;
  source_size : path → option Z;
  (** What a command prints, and what it does to the files. *)
  answer : nat → Invocation → files → result Output;
  effect : nat → Invocation → files → files;
  (** The order of a directory's entries. *)
  arrange : nat → list bytes → list bytes;
  parse_value : bytes → result value;
  parse_metadata : bytes → result (list bytes * list Package);
  print_pretty : value → result bytes;
  pack : Z → list entry → result bytes;
  unpack : bytes → result (list path);
  sha256_hex : bytes → bytes;
  (** The random part of a temporary name. *)
  fresh : nat → bytes
}.

(** ** Directories *)

(** The name of an entry of the directory [p]. *)
Definition child_name (p q : path) : option bytes :=
  match strip_prefix (path_join p []) q with
  | Some (c :: r) => if bool_decide ("/"%char ∈ c :: r) then None else Some (c :: r)
  | _ => None
  end.
Definition children (s : files) (p : path) : list bytes := omap (child_name p) (map fst (map_to_list s)).

Definition leaf (n : node) : Distribution.tree :=
  match n with
  | File d m => RegularFile d (perm m)
  | Directory _ => Subdirectory []
  | Symlink _ => Link
  | Special => OtherFile
  end.
(** What is at and below a name, down to [levels] directories. *)
Fixpoint snapshot (order : list bytes → list bytes) (levels : nat) (s : files) (p : path) : Distribution.tree :=
  match s !! p with
  | None => Unreadable "no such file"
  | Some (Directory _) =>
      match levels with
      | O => Unreadable "too many levels"
      | S levels =>
          Subdirectory (map (λ name, (name, snapshot order levels s (path_join p name))) (order (children s p)))
      end
  | Some n => leaf n
  end.
(** A name below another is longer. *)
Definition longest (s : files) : nat := foldr (λ q n, length q `max` n) 0 (map fst (map_to_list s)).
Definition tree_at (order : list bytes → list bytes) (s : files) (p : path) : Distribution.tree :=
  snapshot order (S (longest s)) s p.

(** [extension]: what follows the last dot of a name, unless that is its first byte. *)
Definition extension (name : bytes) : option bytes :=
  match last_dot [] None name with
  | Some (c :: stem) => Some (drop (S (length (c :: stem))) name)
  | _ => None
  end.

(** A regular file is created or replaced. *)
Definition place (p : path) (n : node) (s : files) : result unit * files :=
  match s !! p with
  | None | Some (File _ _) => if in_directory s p then (Ok (), <[p := n]> s) else (Err "no such file", s)
  | Some _ => (Err "not a regular file", s)
  end.

Fixpoint each {A : Type} (f : A → M unit) (l : list A) : M unit :=
  match l with [] => mret () | x :: l => _ ← f x; each f l end.

Section release.
Context (R : tools).

Definition lift_query {A : Type} (f : nat → files → result A) : M A := λ w, query R (f (tick w)) w.

(** ** Calls *)

Definition mode (s : files) (p : path) : meta :=
  match s !! p with Some (File _ m) => m | _ => Meta (user (me R)) (group (me R)) 420 end.
Definition write (p : path) (data : bytes) : M unit :=
  call R (λ n s, (place p (File (take n data) (mode s p)) s).2) (λ s, place p (File data (mode s p)) s).
Definition read_file (p : path) : M bytes :=
  query R (λ s, ok_or (data_at s p) "no such file").
(** [fs::copy]: the contents and the permission bits. *)
Definition copied (keep : bytes → bytes) (source destination : path) (s : files) : result unit * files :=
  match s !! source ≫= follow with
  | Some (File d m) =>
      let owner := mode s destination in place destination (File (keep d) (Meta (uid owner) (gid owner) (perm m))) s
  | _ => (Err "no such file", s)
  end.
Definition copy (source destination : path) : M unit :=
  call R (λ n s, (copied (take n) source destination s).2) (copied (λ d, d) source destination).
Abbreviation create_dir_all := (create_dir_all R (me R)).
Abbreviation exists_ := (exists_ R).

(** ** Commands *)

Definition invoke (p : string) (args : list bytes) (dir : option path) : Invocation :=
  {| program := str p; arguments := args; directory := dir; set_env := []; unset_env := [] |}.
Definition starting (c : Invocation) : M unit :=
  λ w, (Ret (), World (tick w) (fs w) (ran w ++ [program c :: arguments c])).
(** The command is recorded and runs; if it or this program is killed its effect may still be there. *)
Definition output (c : Invocation) : M Output := λ w,
  call R (λ _, effect R (tick w) c) (λ s, (answer R (tick w) c s, effect R (tick w) c s)) w.
Definition command_output (c : Invocation) : M bytes :=
  _ ← starting c;
  o ← output c;
  _ ← guard (succeeded o) "command failed";
  mret (printed o).
Definition text (c : Invocation) : M bytes :=
  out ← command_output c;
  _ ← guard (utf8_valid out) "invalid utf-8 sequence";
  mret (trim out).

Definition host_tuple : M bytes := text (invoke "rustc" (map str ["--print"; "host-tuple"]) None).

(** ** [build_release] *)

Definition build_environment (target_dir : path) (mappings : list (path * path)) : list (bytes * bytes) :=
  [(str "MACOSX_DEPLOYMENT_TARGET", str "14.0");
   (str "CARGO_TARGET_DIR", target_dir);
   (str "CARGO_INCREMENTAL", str "0");
   (str "CARGO_PROFILE_RELEASE_STRIP", str "symbols");
   (str "CARGO_PROFILE_RELEASE_DEBUG", str "0");
   (str "CARGO_ENCODED_RUSTFLAGS", rust_flags mappings)].
Definition cargo_build (repo : path) (target : bytes) (environment : list (bytes * bytes)) : Invocation :=
  {| program := str "cargo";
     arguments := map str ["build"; "--release"; "--locked"; "--package"; "luhmen"; "--target"] ++ [target];
     directory := Some repo; set_env := environment; unset_env := [str "RUSTFLAGS"] |}.
Definition mappings_of (home target_dir cargo_home sysroot repo : path) : list (path * path) :=
  [(home, str "/usr/local/home"); (target_dir, str "/tmp/luhmen-build"); (cargo_home, str "/usr/local/cargo");
   (sysroot, str "/usr/local/rust"); (repo, str "/usr/src/luhmen")].
Definition executable_of (target_dir : path) (target : bytes) : path :=
  path_join (path_join target_dir target) (str "release/luhmen").

(** The default of [selected_target] is computed even when it is not used. *)
Definition build_release (repo target_dir : path) (selected_target : option bytes)
    : M (path * list (bytes * bytes)) :=
  repo ← lift (canonicalize (host_paths R) repo);
  let target_dir := if is_absolute target_dir then target_dir else path_join repo target_dir in
  home ← lift (home ← ok_or (HOME R) "HOME is not set"; canonicalize (host_paths R) home);
  let cargo_home := default (path_join home (str ".cargo")) (CARGO_HOME R) in
  sysroot ← text (invoke "rustc" (map str ["--print"; "sysroot"]) None);
  host ← host_tuple;
  let target := default host selected_target in
  let mappings := mappings_of home target_dir cargo_home sysroot repo in
  let environment := build_environment target_dir mappings in
  _ ← command_output (cargo_build repo target environment);
  let executable := executable_of target_dir target in
  contents ← read_file executable;
  _ ← lift (check_binary mappings contents);
  mret (executable, environment).

(** ** [check_source] *)

Definition source_listing : Invocation :=
  invoke "git" (map str ["ls-files"; "--cached"; "--others"; "--exclude-standard"; "-z"]) (Some (repo R)).
Definition check_source : M unit :=
  out ← command_output source_listing;
  s ← query R (λ s, Ok s);
  lift (Distribution.check_source
          (λ name, match s !! path_join (repo R) name with Some (File d _) => Some d | _ => None end) out).

(** ** [collect_licenses] *)

Definition metadata_of (target : bytes) : Invocation :=
  invoke "cargo" (map str ["metadata"; "--locked"; "--format-version"; "1"; "--filter-platform"] ++ [target])
    (Some (repo R)).

(** The texts of one package, and their names in the index. *)
Fixpoint copy_licenses (destination : path) (directory : bytes) (root : path) (files : list path) : M (list bytes) :=
  match files with
  | [] => mret []
  | source :: files =>
      relative ← lift (ok_or (path_strip_prefix source root) "prefix not found");
      let to := path_join (path_join destination directory) relative in
      _ ← create_dir_all (default [] (parent_of to));
      _ ← copy source to;
      more ← copy_licenses destination directory root files;
      mret ((directory ++ str "/" ++ relative) :: more)
  end.
Definition optional (s : option bytes) : value := match s with Some s => String s | None => Null end.
Fixpoint copy_selections (destination : path) (l : list (Package * path * list path)) : M (list value) :=
  match l with
  | [] => mret []
  | (p, root, files) :: l =>
      copied ← copy_licenses destination (package_directory p) root files;
      more ← copy_selections destination l;
      mret (object [("name", String (package_name p)); ("version", String (version p));
                    ("license", optional (license p)); ("repository", optional (repository p));
                    ("files", Array (map String copied))] :: more)
  end.
Definition collect_licenses (destination : path) (target : option bytes) : M unit :=
  host ← host_tuple;
  out ← command_output (metadata_of (default host target));
  '(members, packages) ← lift (parse_metadata R out);
  present ← exists_ destination;
  selections ← lift (select_checked (host_paths R) (sources R) (source_size R) present
                       (path_join (repo R) (str "licenses")) members packages);
  _ ← create_dir_all destination;
  index ← copy_selections destination selections;
  printed ← lift (print_pretty R (Array index));
  write (path_join destination (str "index.json")) (printed ++ [newline]).

(** ** Archives *)

Definition source_tree (p : path) : M Distribution.tree :=
  query R (λ s, match s !! p with Some n => Ok (leaf n) | None => Err "no such file" end).
Fixpoint append_each (root : bytes) (files : list (relative * path)) (epoch : Z) : M (list entry) :=
  match files with
  | [] => mret []
  | (name, source) :: files =>
      t ← source_tree source;
      e ← lift (append root name t epoch);
      more ← append_each root files epoch;
      mret (e :: more)
  end.
Definition archive (destination : path) (root : bytes) (files : list (relative * path)) (epoch : Z) : M unit :=
  _ ← guard (epoch <=? u32_max)%Z "SOURCE_DATE_EPOCH exceeds gzip range";
  _ ← write destination [];
  entries ← append_each root (sort_by (λ x y, names_le x.1 y.1) files) epoch;
  data ← lift (pack R epoch entries);
  write destination data.

Definition tracked_files (repo : path) : M (list (relative * path)) :=
  out ← command_output (invoke "git" (map str ["ls-files"; "-z"]) (Some repo));
  _ ← lift (for_each (λ n, ensure (utf8_valid n) "invalid utf-8 sequence") (listed out));
  mret (map (λ n, (names n, path_join repo n)) (listed out)).
Definition files_under (root : path) : M (list (relative * path)) :=
  t ← lift_query (λ t s, Ok (tree_at (arrange R t) s root));
  found ← lift (walk_files [] t);
  mret (map (λ r, (r, path_join root (path_of false r))) found).
(** The directories that are walked come with their contents as a value. *)
Fixpoint copy_tree (source : Distribution.tree) (from destination : path) : M unit :=
  match source with
  | Subdirectory l =>
      _ ← create_dir_all destination;
      (fix copy_all (l : list (bytes * Distribution.tree)) : M unit :=
        match l with
        | [] => mret ()
        | (name, t) :: l =>
            let target := path_join destination name in
            _ ← match t with
                | Subdirectory _ | Unreadable _ => copy_tree t (path_join from name) target
                | _ => copy (path_join from name) target
                end;
            copy_all l
        end) l
  | Unreadable e => _ ← create_dir_all destination; throw e
  | _ => _ ← create_dir_all destination; throw "not a directory"
  end.

(** ** [release] *)

Definition version_of (metadata : value) : result bytes :=
  packages ← ok_or match index metadata "packages" with Array l => Some l | _ => None end
               "Cargo metadata has no packages array";
  ok_or (find (λ p, bool_decide (index p "name" = String (str "luhmen"))) packages ≫= λ p, as_str (index p "version"))
    "luhmen package missing from Cargo metadata".
Definition git (args : list string) : Invocation := invoke "git" (map str args) (Some (repo R)).
Definition epoch_of : M Z :=
  match (v ← SOURCE_DATE_EPOCH R; if utf8_valid v then Some v else None) with
  | Some v => lift (ok_or (parse_uint u64_max v) "invalid SOURCE_DATE_EPOCH")
  | None => t ← text (git ["show"; "-s"; "--format=%ct"; "HEAD"]);
            lift (ok_or (parse_uint u64_max t) "invalid digit found in string")
  end.

Definition checks (output : path) : M unit :=
  system ← text (invoke "uname" [str "-s"] None);
  _ ← guard (bool_decide (system = str "Darwin")) "binary releases must be built on macOS";
  machine ← text (invoke "uname" [str "-m"] None);
  _ ← guard (bool_decide (machine = str "arm64")) "binary releases must be built on an Apple Silicon Mac";
  status ← text (git ["status"; "--porcelain"; "--untracked-files=all"]);
  _ ← guard (bool_decide (status = [])) "release requires a clean, committed checkout";
  present ← exists_ output;
  guard (negb present) "release output must not already exist".

(** The directory that becomes the binary archive. *)
Definition add_binary (package executable : path) : M unit :=
  _ ← create_dir_all (path_join package (str "bin"));
  copy executable (path_join package (str "bin/luhmen")).
Definition add_texts (package : path) (environment : list (bytes * bytes)) (version : bytes) (epoch : Z) : M unit :=
  let notices := path_join package (str "share/licenses/luhmen") in
  _ ← create_dir_all notices;
  _ ← each (λ n, copy (path_join (repo R) (str n)) (path_join notices (str n))) ["LICENSE"; "NOTICE"; "THIRD_PARTY.md"];
  _ ← collect_licenses (path_join notices (str "dependencies")) (Some (str RELEASE_TARGET));
  _ ← each (λ n, copy (path_join (repo R) (str n)) (path_join package (str n)))
        ["README.md"; "CONTRIBUTING.md"; "SECURITY.md"; "LICENSE"; "NOTICE"; "THIRD_PARTY.md"];
  docs ← lift_query (λ t s, Ok (tree_at (arrange R t) s (path_join (repo R) (str "docs"))));
  _ ← copy_tree docs (path_join (repo R) (str "docs")) (path_join package (str "docs"));
  commit ← text (git ["rev-parse"; "HEAD"]);
  rustc ← text (invoke "rustc" [str "--version"] None);
  sdk ← text (invoke "xcrun" (map str ["--sdk"; "macosx"; "--show-sdk-version"]) None);
  let build_info := object
    [("version", String version); ("commit", String commit);
     ("source_date_epoch", Number (decimal (Z.to_N epoch))); ("target", String (str RELEASE_TARGET));
     ("rustc", String rustc); ("sdk_version", String sdk);
     ("macos_deployment_target", String (default [] (assoc (str "MACOSX_DEPLOYMENT_TARGET") environment)))] in
  printed ← lift (print_pretty R build_info);
  write (path_join package (str "build-info.json")) (printed ++ [newline]).
Definition assemble (package executable : path) (environment : list (bytes * bytes)) (version : bytes) (epoch : Z)
    : M unit :=
  _ ← add_binary package executable;
  add_texts package environment version epoch.

Definition binary_name (version : bytes) : bytes := str "luhmen-" ++ version ++ str "-" ++ str RELEASE_TARGET.
Definition source_name (version : bytes) : bytes := str "luhmen-" ++ version ++ str "-source".
Definition archive_name (name : bytes) : bytes := name ++ str ".tar.gz".

(** The archives of the output have one parent, so their paths are in the order of their names. *)
Fixpoint sums_of (output : path) (archives : list bytes) : M bytes :=
  match archives with
  | [] => mret []
  | name :: archives =>
      data ← read_file (path_join output name);
      more ← sums_of output archives;
      mret (sha256_hex R data ++ str "  " ++ name ++ [newline] ++ more)
  end.
Definition checksums (output : path) : M unit :=
  entries ← lift_query (λ t s, match s !! output with
                               | Some (Directory _) => Ok (arrange R t (children s output))
                               | _ => Err "not a directory"
                               end);
  let archives := sort_by bytes_le (filter (λ n, extension n = Some (str "gz")) entries) in
  sums ← sums_of output archives;
  write (path_join output (str "SHA256SUMS")) sums.

Definition publish (output package : path) (version : bytes) (epoch : Z) : M unit :=
  _ ← create_dir_all output;
  files ← files_under package;
  _ ← archive (path_join output (archive_name (binary_name version))) (binary_name version) files epoch;
  files ← tracked_files (repo R);
  _ ← archive (path_join output (archive_name (source_name version))) (source_name version) files epoch;
  checksums output.

(** Up to the temporary directory: the version, the time of the release, and that directory. *)
Definition prepare (output : path) : M (bytes * Z * path) :=
  _ ← checks output;
  out ← command_output (invoke "cargo" (map str ["metadata"; "--no-deps"; "--format-version"; "1"]) (Some (repo R)));
  metadata ← lift (parse_value R out);
  version ← lift (version_of metadata);
  epoch ← epoch_of;
  name ← lift_query (λ t _, Ok (fresh R t));
  let temporary := path_join (temp_dir R) (str ".tmp" ++ name) in
  _ ← create_dir R temporary (Meta (user (me R)) (group (me R)) 448);
  mret (version, epoch, temporary).

Definition build_and_publish (output temporary : path) (version : bytes) (epoch : Z) : M unit :=
  '(executable, environment) ← build_release (repo R) (path_join temporary (str "target")) (Some (str RELEASE_TARGET));
  let package := path_join temporary (str "package") in
  _ ← assemble package executable environment version epoch;
  publish output package version epoch.

Definition release (output : path) : M unit :=
  '(version, epoch, temporary) ← prepare output;
  result ← attempt (build_and_publish output temporary version epoch);
  (** [TempDir]'s drop. *)
  _ ← attempt (remove_dir_all R temporary);
  lift result.

(** ** The program of the developer's tools *)

Inductive Action :=
| BuildRelease (target : option bytes)
| CheckSource
| CollectLicenses (output : path) (target : option bytes)
| CheckCargoPackage (archives : list path)
| Release (output : path)
| VmSmoke
| VmPerf.

(** The suites of Harness are not programs over these files. *)
Definition main (smoke perf : M unit) (command : Action) : M unit :=
  match command with
  | BuildRelease target =>
      _ ← build_release (repo R) (default (path_join (repo R) (str "target")) (CARGO_TARGET_DIR R)) target;
      mret ()
  | CheckSource => check_source
  | CollectLicenses output target => collect_licenses output target
  | CheckCargoPackage archives =>
      each (λ p, data ← read_file p; _ ← lift (check_cargo_package (unpack R data)); mret ()) archives
  | Release output => release output
  | VmSmoke => smoke
  | VmPerf => perf
  end.
End release.
