(* ===== verification/ReleaseSpec.v ===== *)
(** * What a release leaves behind

    A release changes no file that was there, and is refused if its output is.
    One that succeeds has published the binary that was checked, the sources that
    are committed, and the checksums of both. *)

From stdpp Require Import sorting.
From S2P Require Import Prelude Text Fs Paths Config ConfigSpec Trees Value Distribution DistributionSpec Release.

(** ** Names *)

(** The names of a path. *)
Lemma split_plain c s x : x ∈ split c s → c ∉ x.
Proof.
  revert x. induction s as [|d s IH]; intros x; simpl.
  - intros ->%list_elem_of_singleton. apply not_elem_of_nil.
  - destruct (decide (d = c)) as [->|Hne].
    + intros [->|Hx]%elem_of_cons; [apply not_elem_of_nil|auto].
    + destruct (split c s) as [|y l] eqn:E.
      * intros ->%list_elem_of_singleton. intros ?%list_elem_of_singleton. congruence.
      * intros [->|Hx]%elem_of_cons.
        -- intros [?|Hy]%elem_of_cons; [congruence|]. by apply (IH y); [left|].
        -- apply IH. by right.
Qed.

Lemma split_front p x : split "/"%char (p ++ str "/" ++ x) = split "/"%char p ++ split "/"%char x.
Proof.
  induction p as [|c p IH]; [done|]. change (str "/") with ["/"%char] in *. simpl in *. rewrite IH.
  destruct (decide _); [done|]. destruct (split "/"%char p) eqn:E; [|done].
  by destruct p as [|d p]; simpl in E; [|destruct (decide _); [|destruct (split _ p)]].
Qed.

Lemma names_plain p : Forall plain (names p).
Proof.
  assert (Forall plain (filter (λ n, n ≠ []) (split "/"%char p))) as H.
  { apply Forall_forall. intros n [Hn Hi]%list_elem_of_filter. split; [done|by eapply split_plain]. }
  unfold names. assert (∀ l, Forall plain l → Forall plain (filter (λ n, n ≠ str ".") l)) as Hf 
    by (intros l Hl; rewrite Forall_forall in *; by intros n [_ Hn%Hl]%list_elem_of_filter).
  destruct (is_absolute p), (filter _ _) as [|n rest]; auto.
  apply Forall_cons in H as [? ?]. by apply Forall_cons; auto.
Qed.

Lemma names_prefix p x : p ≠ [] → is_prefix (names p) (names (p ++ str "/" ++ x)) = true.
Proof.
  intros Hp. apply is_prefix_spec. unfold names. destruct p as [|c p]; [done|]. clear Hp.
  rewrite <-app_comm_cons, !is_absolute_cons, app_comm_cons, split_front, filter_app.
  set (a := filter (λ n, n ≠ []) (split "/"%char (c :: p))). set (b := filter (λ n, n ≠ []) (split "/"%char x)).
  destruct (bool_decide _); [rewrite filter_app; eauto|].
  destruct a as [|n a]; simpl; [by eexists|]. rewrite filter_app. by eexists.
Qed.

Lemma names_slash p : p ≠ [] → names (p ++ str "/") = names p.
Proof.
  intros Hp. destruct p as [|c p]; [done|]. unfold names. rewrite <-app_comm_cons, !is_absolute_cons, app_comm_cons.
  rewrite <-(app_nil_r (str "/")), split_front, filter_app. simpl. by rewrite app_nil_r.
Qed.

(** [q] is [p] or in the directory [p]. *)
Definition under (p q : path) : Prop := path_starts_with q p = true.

Lemma is_prefix_trans a b c : is_prefix a b = true → is_prefix b c = true → is_prefix a c = true.
Proof. rewrite !is_prefix_spec. intros [r ->] [r' ->]. exists (r ++ r'). by rewrite app_assoc. Qed.
Lemma under_trans a b c : under a b → under b c → under a c.
Proof.
  unfold under, path_starts_with. rewrite !andb_true_iff, !bool_decide_eq_true. intros [-> H1] [-> H2].
  split; [done|]. by eapply is_prefix_trans.
Qed.
Lemma under_self p : under p p.
Proof. apply path_starts_with_refl. Qed.

Lemma under_slash p x : p ≠ [] → under p (p ++ str "/" ++ x).
Proof.
  intros Hp. unfold under, path_starts_with. rewrite names_prefix, andb_true_r by done. apply bool_decide_true.
  destruct p as [|c p]; [done|]. by rewrite <-app_comm_cons, !is_absolute_cons.
Qed.

Lemma under_join p q : p ≠ [] → is_absolute q = false → under p (path_join p q).
Proof.
  intros Hp Hq. unfold path_join. rewrite Hq, bool_decide_false, orb_false_l by done.
  destruct (ends_with _ p) eqn:He; [|by apply under_slash].
  apply bool_decide_eq_true in He as [r ->%strip_suffix_Some]. rewrite <-app_assoc.
  destruct r as [|c r].
  - change (path_starts_with ("/"%char :: q) ["/"%char] = true). unfold path_starts_with. by rewrite !is_absolute_cons.
  - eapply under_trans; [|by apply under_slash]. unfold under, path_starts_with. rewrite names_slash by done.
    rewrite <-app_comm_cons, !is_absolute_cons, bool_decide_true by done. apply is_prefix_spec. exists [].
    by rewrite app_nil_r.
Qed.

Lemma under_absolute p q : under p q → is_absolute q = is_absolute p.
Proof. unfold under, path_starts_with. by rewrite andb_true_iff, bool_decide_eq_true; intros [-> _]. Qed.

Lemma path_join_nonempty p q : p ≠ [] → path_join p q ≠ [].
Proof.
  intros Hp. unfold path_join. destruct (is_absolute q) eqn:E; [by destruct q|].
  destruct (_ || _); by destruct p.
Qed.

Lemma path_of_relative l : Forall plain l → is_absolute (path_of false l) = false.
Proof.
  intros Hl. unfold path_of. simpl. destruct Hl as [|n l Hn Hl]; [done|].
  pose proof (plain_relative n Hn) as Ha. destruct Hn as [Hne _]. destruct n as [|c n]; [done|].
  rewrite is_absolute_cons in Ha. destruct l; simpl; rewrite is_absolute_cons; done.
Qed.

Lemma split_plain_one n : "/"%char ∉ n → split "/"%char n = [n].
Proof.
  induction n as [|c n IH]; [done|]. intros [Hc Hn]%not_elem_of_cons. simpl. rewrite decide_False by done.
  by rewrite IH.
Qed.
Lemma split_names n l : Forall plain (n :: l) → split "/"%char (join (str "/") (n :: l)) = n :: l.
Proof.
  revert n. induction l as [|m l IH]; intros n [[_ Hn] Hl]%Forall_cons; [by apply split_plain_one|].
  change (join (str "/") (n :: m :: l)) with (n ++ str "/" ++ join (str "/") (m :: l)).
  by rewrite split_front, split_plain_one, IH.
Qed.

(** The names of a path, as [components] gives them. *)
Definition normal (absolute : bool) (l : list bytes) : Prop :=
  Forall plain l ∧ Forall (λ n, n ≠ str ".") (if absolute then l else tail l).

Lemma filter_all {A : Type} (Q : A → Prop) `{∀ x, Decision (Q x)} l : Forall Q l → filter Q l = l.
Proof. induction 1; [done|]. rewrite filter_cons_True by done. by f_equal. Qed.

Lemma names_normal p : normal (is_absolute p) (names p).
Proof.
  split; [apply names_plain|]. unfold names.
  assert (∀ l, Forall (λ n, n ≠ str ".") (filter (λ n, n ≠ str ".") l)) as Hf.
  { intros l. apply Forall_forall. by intros n [? _]%list_elem_of_filter. }
  destruct (is_absolute p); [apply Hf|]. destruct (filter _ (split _ p)); simpl; [done|apply Hf].
Qed.

Lemma names_path_of absolute l : normal absolute l → names (path_of absolute l) = l ∧ is_absolute (path_of absolute l) = absolute.
Proof.
  intros [Hp Hd].
  assert (is_absolute (path_of absolute l) = absolute) as Ha.
  { destruct absolute; [unfold path_of; change (str "/") with ["/"%char]; by rewrite <-app_comm_cons, is_absolute_cons|].
    by apply path_of_relative. }
  split; [|done]. unfold names. rewrite Ha. unfold path_of.
  assert (filter (λ n, n ≠ []) (split "/"%char (join (str "/") l)) = l) as Hs.
  { destruct l as [|n l]; [done|]. rewrite split_names by done. apply filter_all.
    eapply Forall_impl; [exact Hp|]. by intros ? [? _]. }
  destruct absolute.
  - change (str "/" ++ join (str "/") l) with ([] ++ str "/" ++ join (str "/") l).
    rewrite split_front, filter_app, Hs. simpl. by apply filter_all.
  - simpl ([] ++ _). rewrite Hs. destruct l as [|n l]; [done|]. f_equal. by apply filter_all.
Qed.

Lemma normal_prefix absolute l k : normal absolute (l ++ k) → normal absolute l.
Proof.
  intros [[Hp _]%Forall_app Hd]. split; [done|]. destruct absolute; [by apply Forall_app in Hd as [? _]|].
  destruct l as [|n l]; [done|]. by apply Forall_app in Hd as [? _].
Qed.

Lemma ancestors_go_prefix absolute l q : q ∈ ancestors_go absolute (rev l) → ∃ k r, l = k ++ r ∧ q = path_of absolute k.
Proof.
  induction l as [|n l IH] using rev_ind.
  - simpl. intros ->%list_elem_of_singleton. exists [], []. done.
  - rewrite rev_app_distr. simpl. rewrite rev_involutive.
    intros [->|(k & r & -> & ->)%IH]%elem_of_cons.
    + exists (l ++ [n]), []. by rewrite app_nil_r.
    + exists k, (r ++ [n]). by rewrite app_assoc.
Qed.

(** What [create_dir_all] makes leads to the directory. *)
Lemma ancestors_under p q : q ∈ ancestors p → under q p ∧ is_absolute q = is_absolute p.
Proof.
  intros (k & r & E & ->)%ancestors_go_prefix. pose proof (names_normal p) as Hn. rewrite E in Hn.
  destruct (names_path_of _ _ (normal_prefix _ _ _ Hn)) as [H1 H2]. split; [|done].
  unfold under, path_starts_with. rewrite H1, H2, E, andb_true_iff, bool_decide_eq_true. split; [done|].
  apply is_prefix_spec. eauto.
Qed.

Lemma ancestors_parent p q d : parent_of p = Some d → q ∈ ancestors d → q ∈ ancestors p.
Proof.
  unfold parent_of, ancestors. destruct (rev (names p)) as [|n r] eqn:E; [done|]. intros [= <-].
  assert (names p = rev r ++ [n]) as Hp by (rewrite <-(rev_involutive (names p)), E; done).
  pose proof (names_normal p) as Hn. rewrite Hp in Hn. apply normal_prefix in Hn.
  destruct (names_path_of _ _ Hn) as [-> ->]. rewrite rev_involutive. by right.
Qed.

(** ** Trees of directories *)

Lemma tree_ind' (P : Distribution.tree → Prop) :
  (∀ d m, P (RegularFile d m)) → (∀ l, Forall (λ x, P x.2) l → P (Subdirectory l)) → (∀ e, P (Unreadable e)) →
  P Link → P OtherFile → ∀ t, P t.
Proof.
  intros Hr Hs Hu Hl Ho. fix IH 1. intros [d m|l|e| |]; [apply Hr| |apply Hu|exact Hl|exact Ho].
  apply Hs. induction l as [|[n t] l IHl]; constructor; [apply IH|exact IHl].
Qed.

(** Every name in the tree is of one component. *)
Fixpoint proper (t : Distribution.tree) : Prop :=
  match t with
  | Subdirectory l =>
      (fix all (l : list (bytes * Distribution.tree)) : Prop :=
        match l with [] => True | (n, t) :: l => plain n ∧ proper t ∧ all l end) l
  | _ => True
  end.

Lemma child_plain p q n : child_name p q = Some n → plain n.
Proof.
  unfold child_name. destruct (strip_prefix _ q) as [[|c r]|]; [done| |done].
  destruct (decide ("/"%char ∈ c :: r)); [by rewrite bool_decide_true|].
  rewrite bool_decide_false by done. by intros [= <-].
Qed.
Lemma children_plain s p n : n ∈ children s p → plain n.
Proof. unfold children. intros (q & _ & H)%list_elem_of_omap. by eapply child_plain. Qed.

Lemma proper_snapshot order levels s p :
  (∀ l : list bytes, order l ≡ₚ l) → proper (snapshot order levels s p).
Proof.
  intros Ho. revert p. induction levels as [|levels IH]; intros p; simpl; (destruct (s !! p) as [[]|]; try done).
  assert (∀ n, n ∈ order (children s p) → plain n) as Hn by (intros n; rewrite Ho; apply children_plain).
  revert Hn. generalize (order (children s p)) as l. induction l as [|n l IHl]; simpl; intros Hn; [done|].
  split; [apply Hn; left|]. split; [apply IH|]. apply IHl. intros x Hx. apply Hn. by right.
Qed.

(** ** Names that keep what they have *)

(** What the names in [G] are known to have. *)
Definition fixed (G : path → option node → Prop) (s : files) : Prop := ∀ q x, G q x → s !! q = x.
Definition free (G : path → option node → Prop) (q : path) : Prop := ∀ x, ¬ G q x.
(** Nothing on the way to [p] is known to be absent. *)
Definition makeable (G : path → option node → Prop) (p : path) : Prop := ∀ q, q ∈ ancestors p → ¬ G q None.

Lemma fixed_insert G q n s : free G q → fixed G s → fixed G (<[q := n]> s).
Proof. intros Hq Hs p x Hp. rewrite lookup_insert_ne; [by apply Hs|]. intros ->. by apply (Hq x). Qed.
Lemma fixed_delete G q s : free G q → fixed G s → fixed G (delete q s).
Proof. intros Hq Hs p x Hp. rewrite lookup_delete_ne; [by apply Hs|]. intros ->. by apply (Hq x). Qed.

Lemma fixed_place G p n s : free G p → fixed G s → fixed G (place p n s).2.
Proof.
  intros Hp Hs. unfold place. destruct (s !! p) as [[]|]; simpl; try done; (destruct (in_directory s p); [|done]); by apply fixed_insert.
Qed.

Section frame.
Context (R : tools) (Halone : alone R) (scratch : path → Prop).
Context (effects : ∀ t c s q, effect R t c s !! q ≠ s !! q →
  scratch q ∨ ∃ d, (str "CARGO_TARGET_DIR", d) ∈ set_env c ∧ under d q).

Lemma alone_stable P : stable R P.
Proof using Halone. intros t s Hs. by rewrite Halone. Qed.

Lemma keeps_call {A : Type} P partial (f : files → result A * files) :
  (∀ s, P s → P (f s).2) → (∀ n s, P s → P (partial n s)) → keeps P (call R partial f).
Proof using Halone.
  intros Hf Hp. apply triple_call; [apply alone_stable| |auto..]. intros s Hs. specialize (Hf s Hs).
  by destruct (f s) as [[] ?].
Qed.

Lemma keeps_look {A : Type} P (f : nat → files → result A) : keeps P (lift_query R f).
Proof using Halone. intros w Hw. by apply (keeps_query R P (f (tick w)) (alone_stable P) w). Qed.
Lemma look_then {A B : Type} (P : files → Prop) (f : nat → files → result A) (k : A → M B) Q (X H : files → Prop) :
  (∀ s, P s → X s) → (∀ s, P s → H s) → (∀ a, (∃ t s, f t s = Ok a) → triple P (k a) Q X H) →
  triple P (lift_query R f ≫= k) Q X H.
Proof using Halone.
  intros HX HH Hk w Hw. unfold mbind, M_bind, lift_query, query, call. rewrite Halone.
  destruct (fate_at R (tick w)); [|by apply HX|by apply HH].
  destruct (f (tick w) (fs w)) as [a|e] eqn:E; [|by apply HX]. apply (Hk a); [eauto|done].
Qed.
Lemma keeps_look_bind {A B : Type} P (f : nat → files → result A) (k : A → M B) :
  (∀ a, (∃ t s, f t s = Ok a) → keeps P (k a)) → keeps P (lift_query R f ≫= k).
Proof using Halone. intros Hk. by apply look_then. Qed.
Lemma keeps_look_at P p : keeps P (exists_ R p).
Proof using Halone.
  intros w Hw. unfold exists_.
  match goal with |- context [(?m ≫= ?k) w] => assert (keeps P (m ≫= k)) as H; [|exact (H w Hw)] end.
  apply keeps_bind; [|intros a; apply keeps_ret]. apply keeps_attempt, keeps_query, alone_stable.
Qed.
Lemma keeps_read_file P p : keeps P (read_file R p).
Proof using Halone. unfold read_file. apply keeps_query, alone_stable. Qed.
Lemma keeps_recording P c : keeps P (starting c).
Proof using. by intros w Hw. Qed.
Lemma keeps_each {A : Type} P (f : A → M unit) l : (∀ x, x ∈ l → keeps P (f x)) → keeps P (each f l).
Proof using.
  induction l as [|x l IH]; intros Hf; simpl; [apply keeps_ret|].
  apply keeps_bind; [apply Hf; left|]. intros _. apply IH. intros y Hy. apply Hf. by right.
Qed.

Section names.
Context (G : path → option node → Prop) (Hscratch : ∀ q, scratch q → free G q).

Lemma keeps_write p data : free G p → keeps (fixed G) (write R p data).
Proof using Halone. intros Hp. apply keeps_call; intros; by apply fixed_place. Qed.

Lemma keeps_copy p q : free G q → keeps (fixed G) (copy R p q).
Proof using Halone.
  intros Hq. apply keeps_call; intros; unfold copied; (destruct (_ ≫= _) as [[]|]; [by apply fixed_place|done..]).
Qed.

Lemma fixed_make_dirs l s : (∀ q, q ∈ l → ¬ G q None) → fixed G s → fixed G (create_dirs (me R) l s).
Proof using.
  intros Hl Hs. induction l as [|q l IH]; simpl; [done|].
  assert (fixed G (create_dirs (me R) l s)) as Hm by (apply IH; intros ? ?; apply Hl; by right).
  fold (create_dirs (me R) l s). destruct (create_dirs (me R) l s !! q) eqn:E; [done|].
  intros p x Hp. rewrite lookup_insert_ne; [by apply Hm|]. intros ->. rewrite (Hm _ _ Hp) in E. subst x.
  by apply (Hl p); [left|].
Qed.

Lemma keeps_create_dir_all p : makeable G p → keeps (fixed G) (create_dir_all R (me R) p).
Proof using Halone.
  intros Hp. apply keeps_call.
  - intros s Hs. destruct (forallb _ _); [|done]. by apply fixed_make_dirs.
  - intros n s Hs. apply fixed_make_dirs; [|done]. intros q Hq. apply Hp. by eapply subseteq_drop.
Qed.

Lemma keeps_output c :
  (∀ d q, (str "CARGO_TARGET_DIR", d) ∈ set_env c → under d q → free G q) → keeps (fixed G) (output R c).
Proof using Halone Hscratch effects.
  intros Hc w Hw.
  assert (∀ s, fixed G s → fixed G (effect R (tick w) c s)) as He.
  { intros s Hs q x Hq. destruct (decide (effect R (tick w) c s !! q = s !! q)) as [->|Hne]; [by apply Hs|].
    apply effects in Hne as [Hq'|(d & Hd & Hq')]; [by destruct (Hscratch q Hq' x)|by destruct (Hc d q Hd Hq' x)]. }
  by apply (keeps_call (fixed G) (λ _, effect R (tick w) c) (λ s, (answer R (tick w) c s, effect R (tick w) c s))); auto.
Qed.

Lemma keeps_command_output c :
  (∀ d q, (str "CARGO_TARGET_DIR", d) ∈ set_env c → under d q → free G q) → keeps (fixed G) (command_output R c).
Proof using Halone Hscratch effects.
  intros Hc. apply keeps_bind; [apply keeps_recording|]. intros _. apply keeps_bind; [by apply keeps_output|].
  intros o. apply keeps_bind; [apply keeps_guard|]. intros _. apply keeps_ret.
Qed.
Lemma keeps_invoke p args d : keeps (fixed G) (command_output R (invoke p args d)).
Proof using Halone Hscratch effects. apply keeps_command_output. by intros ? ? ?%elem_of_nil. Qed.
Lemma keeps_text p args d : keeps (fixed G) (text R (invoke p args d)).
Proof using Halone Hscratch effects.
  apply keeps_bind; [apply keeps_invoke|]. intros out. apply keeps_bind; [apply keeps_guard|]. intros _. apply keeps_ret.
Qed.
End names.

(** Everything under [zone] may change. *)
Section zone.
Context (G : path → option node → Prop) (Hscratch : ∀ q, scratch q → free G q).
Context (zone : path) (Hzone : names zone ≠ []).
Context (Hfree : ∀ q, under zone q → free G q) (Hmake : ∀ p, under zone p → makeable G p).

Lemma under_names p : under zone p → names p ≠ [].
Proof using Hzone.
  unfold under, path_starts_with. rewrite andb_true_iff. intros [_ [r E]%is_prefix_spec] Hp. rewrite Hp in E.
  by destruct (names zone).
Qed.

Lemma zone_join d x : under zone d → is_absolute x = false → under zone (path_join d x).
Proof using Hzone.
  intros Hd Hx. eapply under_trans; [exact Hd|]. apply under_join; [|done]. intros ->. by apply under_names in Hd.
Qed.

Lemma zone_parent p : under zone p → makeable G (default [] (parent_of p)).
Proof using Hzone Hmake.
  intros Hp q Hq. apply (Hmake p Hp). destruct (parent_of p) as [d|] eqn:E; [by eapply ancestors_parent|].
  pose proof (under_names p Hp) as Hn. unfold parent_of in E. destruct (rev (names p)) eqn:Er; [|done].
  by apply (f_equal (@rev _)) in Er; rewrite rev_involutive in Er.
Qed.

Lemma keeps_lift_bind {A B : Type} P (r : result A) (f : A → M B) :
  (∀ a, r = Ok a → keeps P (f a)) → keeps P (lift r ≫= f).
Proof using. intros Hf. destruct r as [a|e]; [by apply (Hf a)|]. by intros w Hw. Qed.

Lemma keeps_copy_licenses destination dir root files :
  under zone destination → is_absolute dir = false → keeps (fixed G) (copy_licenses R destination dir root files).
Proof using Halone Hzone Hfree Hmake.
  intros Hd Ha. induction files as [|f files IH]; simpl; [apply keeps_ret|].
  apply keeps_lift_bind. intros relative Hr.
  assert (under zone (path_join (path_join destination dir) relative)) as Hto.
  { apply zone_join; [by apply zone_join|]. unfold path_strip_prefix in Hr.
    destruct (path_starts_with f root); [|done]. injection Hr as <-. apply path_of_relative, Forall_drop, names_plain. }
  apply keeps_bind; [by apply keeps_create_dir_all, zone_parent|]. intros _.
  apply keeps_bind; [by apply keeps_copy, Hfree|]. intros _. apply keeps_bind; [done|]. intros more. apply keeps_ret.
Qed.

Lemma keeps_copy_selections destination l :
  under zone destination → Forall (λ x, is_absolute (package_directory x.1.1) = false) l →
  keeps (fixed G) (copy_selections R destination l).
Proof using Halone Hzone Hfree Hmake.
  intros Hd Hl. induction Hl as [|[[p root] files] l Hp Hl IH]; simpl; [apply keeps_ret|].
  apply keeps_bind; [by apply keeps_copy_licenses|]. intros copied. apply keeps_bind; [done|]. intros more. apply keeps_ret.
Qed.

(** Cargo's names and versions have no slash. *)
Context (parsed : ∀ out members packages, parse_metadata R out = Ok (members, packages) →
  Forall (λ p, is_absolute (package_directory p) = false) packages).

Lemma keeps_collect_licenses destination target :
  under zone destination → keeps (fixed G) (collect_licenses R destination target).
Proof using Halone Hzone Hfree Hmake Hscratch effects parsed.
  intros Hd. apply keeps_bind; [by apply keeps_text|]. intros host.
  apply keeps_bind; [by apply keeps_invoke|]. intros out. apply keeps_lift_bind. intros [members packages] Hp%parsed.
  apply keeps_bind; [by apply keeps_look_at|]. intros present. apply keeps_lift_bind. intros selections Hs.
  apply keeps_bind; [by apply keeps_create_dir_all, Hmake|]. intros _.
  apply keeps_bind; [|intros index; apply keeps_lift_bind; intros printed _; by apply keeps_write, Hfree, zone_join].
  apply keeps_copy_selections; [done|]. unfold select_checked in Hs.
  apply ensure_bind_Ok in Hs as [_ Hs]. apply bind_Ok in Hs as (sel & Hsel & Hs). apply ensure_bind_Ok in Hs as [_ [= <-]].
  apply select_all_spec in Hsel. apply Forall_forall. intros x Hx.
  assert (x.1.1 ∈ third_party members packages) as Hin.
  { apply list_elem_of_lookup in Hx as [i Hx]. destruct (Forall2_lookup_r _ _ _ _ _ Hsel Hx) as (p & Hi & root & files & -> & _).
    simpl. by eapply list_elem_of_lookup_2. }
  unfold third_party in Hin. rewrite sort_by_Permutation in Hin. apply list_elem_of_filter in Hin as [_ Hin].
  rewrite Forall_forall in Hp. by apply Hp.
Qed.

Lemma keeps_copy_tree t from destination :
  proper t → under zone destination → keeps (fixed G) (copy_tree R t from destination).
Proof using Halone Hzone Hfree Hmake.
  revert from destination. induction t as [d m|l IH|e| |] using tree_ind'; intros from destination Ht Hd;
    (apply keeps_bind; [by apply keeps_create_dir_all, Hmake|]); intros _; try apply keeps_throw.
  simpl in Ht. induction IH as [|[n t] l Hn _ IHl]; simpl; [apply keeps_ret|].
  destruct Ht as (Hp & Ht & Hl). simpl in Hn.
  assert (under zone (path_join destination n)) as Hdn by by apply zone_join, plain_relative.
  apply keeps_bind; [|intros _; by apply IHl].
  destruct t; try (by apply keeps_copy, Hfree); exact (Hn (path_join from n) _ Ht Hdn).
Qed.
End zone.

(** ** Parts of the release *)

Definition open_zone (G : path → option node → Prop) (z : path) : Prop :=
  names z ≠ [] ∧ (∀ q, under z q → free G q) ∧ ∀ p, under z p → makeable G p.

Section parts.
Context (parsed : ∀ out members packages, parse_metadata R out = Ok (members, packages) →
  Forall (λ p, is_absolute (package_directory p) = false) packages).
Context (arranged : ∀ t l, arrange R t l ≡ₚ l).
Context (G : path → option node → Prop) (Hscratch : ∀ q, scratch q → free G q).

Definition notices_of (package : path) : path := path_join package (str "share/licenses/luhmen").
Definition docs_of (package : path) : path := path_join package (str "docs").

Lemma keeps_add_texts package environment version epoch :
  open_zone G (notices_of package) → open_zone G (docs_of package) →
  (∀ n, n ∈ ["README.md"; "CONTRIBUTING.md"; "SECURITY.md"; "LICENSE"; "NOTICE"; "THIRD_PARTY.md"; "build-info.json"] →
    free G (path_join package (str n))) →
  keeps (fixed G) (add_texts R package environment version epoch).
Proof using Halone Hscratch effects parsed arranged.
  intros (Hn & Hnf & Hnm) (Hd & Hdf & Hdm) Hl. unfold add_texts. cbv zeta. fold (notices_of package) (docs_of package).
  apply keeps_bind; [by apply keeps_create_dir_all, Hnm, under_self|]. intros _. apply keeps_bind.
  { apply keeps_each. intros n Hin. apply keeps_copy, Hnf. apply (zone_join _ Hn); [apply under_self|].
    by repeat (apply elem_of_cons in Hin as [->|Hin]; [done|]); apply elem_of_nil in Hin. }
  intros _. apply keeps_bind.
  { apply (keeps_collect_licenses G Hscratch _ Hn Hnf Hnm parsed). by apply (zone_join _ Hn); [apply under_self|]. }
  intros _. apply keeps_bind.
  { apply keeps_each. intros n Hin. apply keeps_copy, Hl. set_solver. }
  intros _. apply keeps_look_bind. intros docs (t & s & [= <-]). apply keeps_bind.
  { by apply (keeps_copy_tree G _ Hd Hdf Hdm); [apply proper_snapshot|apply under_self]. }
  intros _. do 3 (apply keeps_bind; [by apply keeps_text|]; intros ?).
  apply keeps_lift_bind. intros printed _. apply keeps_write, Hl. set_solver.
Qed.

(** Where the executable of the release is built. *)
Lemma keeps_build_release repo target_dir target :
  is_absolute target_dir = true → (∀ q, under target_dir q → free G q) →
  keeps (fixed G) (build_release R repo target_dir target).
Proof using Halone Hscratch effects.
  intros Ha Hf. unfold build_release. rewrite Ha. cbv zeta. do 2 (apply keeps_lift_bind; intros ? _).
  do 2 (apply keeps_bind; [by apply keeps_text|]; intros ?). apply keeps_bind.
  { apply keeps_command_output; [done|]. intros d q Hd Hq. simpl in Hd. unfold build_environment in Hd.
    repeat (apply elem_of_cons in Hd as [E|Hd]; [|]); [..|by apply elem_of_nil in Hd];
      try (injection E as E; discriminate E). injection E as ->. by apply Hf. }
  intros _. apply keeps_bind; [apply keeps_read_file|]. intros contents. apply keeps_lift_bind. intros _ _. apply keeps_ret.
Qed.

Lemma keeps_append_each P root files epoch : keeps P (append_each R root files epoch).
Proof using Halone.
  induction files as [|[n p] files IH]; simpl; [apply keeps_ret|].
  apply keeps_bind; [apply keeps_query, alone_stable|]. intros t. apply keeps_lift_bind. intros e _.
  apply keeps_bind; [done|]. intros more. apply keeps_ret.
Qed.
Lemma keeps_archive destination root files epoch : free G destination → keeps (fixed G) (archive R destination root files epoch).
Proof using Halone.
  intros Hd. apply keeps_bind; [apply keeps_guard|]. intros _. apply keeps_bind; [by apply keeps_write|]. intros _.
  apply keeps_bind; [apply keeps_append_each|]. intros entries. apply keeps_lift_bind. intros data _. by apply keeps_write.
Qed.

Lemma keeps_tracked_files repo : keeps (fixed G) (tracked_files R repo).
Proof using Halone Hscratch effects.
  apply keeps_bind; [by apply keeps_invoke|]. intros out. apply keeps_lift_bind. intros _ _. apply keeps_ret.
Qed.
Lemma keeps_files_under P root : keeps P (files_under R root).
Proof using Halone.
  apply keeps_bind; [apply keeps_look|]. intros t. apply keeps_lift_bind. intros found _. apply keeps_ret.
Qed.
Lemma keeps_sums_of P output l : keeps P (sums_of R output l).
Proof using Halone.
  induction l as [|n l IH]; simpl; [apply keeps_ret|].
  apply keeps_bind; [apply keeps_read_file|]. intros data. apply keeps_bind; [done|]. intros more. apply keeps_ret.
Qed.

Lemma keeps_publish output package version epoch :
  makeable G output → (∀ n, is_absolute n = false → n ≠ [] → free G (path_join output n)) →
  keeps (fixed G) (publish R output package version epoch).
Proof using Halone Hscratch effects.
  intros Hm Hf. assert (∀ x n, free G (path_join output (str "luhmen-" ++ x ++ n))) as Hl by by intros; apply Hf.
  apply keeps_bind; [by apply keeps_create_dir_all|]. intros _.
  apply keeps_bind; [apply keeps_files_under|]. intros files.
  apply keeps_bind; [by apply keeps_archive, Hf|]. intros _.
  apply keeps_bind; [apply keeps_tracked_files|]. intros tracked.
  apply keeps_bind; [by apply keeps_archive, Hf|]. intros _.
  apply keeps_bind; [apply keeps_look|]. intros entries.
  apply keeps_bind; [apply keeps_sums_of|]. intros sums. by apply keeps_write, Hf.
Qed.

Lemma keeps_add_binary package executable :
  free G (path_join package (str "bin/luhmen")) → makeable G (path_join package (str "bin")) →
  keeps (fixed G) (add_binary R package executable).
Proof using Halone.
  intros Hb Hm. apply keeps_bind; [by apply keeps_create_dir_all|]. intros _. by apply keeps_copy.
Qed.

Lemma keeps_checks output : keeps (fixed G) (checks R output).
Proof using Halone Hscratch effects.
  unfold checks. do 3 (apply keeps_bind; [by apply keeps_text|]; intros ?; apply keeps_bind; [apply keeps_guard|]; intros _).
  apply keeps_bind; [by apply keeps_look_at|]. intros present. apply keeps_guard.
Qed.
Lemma keeps_epoch_of : keeps (fixed G) (epoch_of R).
Proof using Halone Hscratch effects.
  unfold epoch_of. destruct (_ ≫= _); [apply keeps_lift|]. apply keeps_bind; [by apply keeps_text|]. intros t. apply keeps_lift.
Qed.
End parts.

(** ** A whole release *)

(** The tools do what they document. *)
Record lawful : Prop := {
  lawful_parsed out members packages : parse_metadata R out = Ok (members, packages) →
    Forall (λ p, is_absolute (package_directory p) = false) packages;
  lawful_arranged t l : arrange R t l ≡ₚ l
}.

Definition temporary (t : nat) : path := path_join (temp_dir R) (str ".tmp" ++ fresh R t).

(** Nothing is in a directory that is not there; the output, the temporary directory and the names
    that commands use for themselves are apart. *)
Definition whole (s0 : files) (p : path) : Prop :=
  (∀ m, s0 !! p ≠ Some (Directory m)) → ∀ q, under p q → q ≠ p → s0 !! q = None.
Record placed (s0 : files) (output : path) : Prop := {
  placed_output : names output ≠ [];
  placed_temp t : is_absolute (temporary t) = true ∧ names (temporary t) ≠ [];
  placed_whole : whole s0 output;
  placed_temporary t : whole s0 (temporary t);
  placed_apart t : path_starts_with output (temporary t) = false ∧ path_starts_with (temporary t) output = false;
  placed_scratch q : scratch q → path_starts_with q output = false ∧ ∀ t, path_starts_with q (temporary t) = false
}.

Section whole_release.
Context (laws : lawful) (s0 : files) (output : path) (Hplaced : placed s0 output).

Definition untouched (q : path) (x : option node) : Prop := ¬ scratch q ∧ x = s0 !! q.
(** Files that were there, and the absence of the output. *)
Definition before_publishing (q : path) (x : option node) : Prop :=
  untouched q x ∧ (is_Some x ∨ under output q).
Definition kept (q : path) (x : option node) : Prop := untouched q x ∧ is_Some x.

(** There is nothing at the output, or a link that leads nowhere. *)
Definition vacant : Prop := s0 !! output ≫= follow = None.

Lemma scratch_untouched (G : path → option node → Prop) q : (∀ x, G q x → untouched q x) → scratch q → free G q.
Proof using. intros HG Hq x [Hs _]%HG. done. Qed.

Lemma open_zone_sub (G : path → option node → Prop) z p : open_zone G z → under z p → open_zone G p.
Proof using.
  intros (Hn & Hf & Hm) Hp. split; [by eapply under_names|]. split; intros q Hq; [apply Hf|apply Hm]; by eapply under_trans.
Qed.

Lemma apart_contradiction t q : under output q → under (temporary t) q → False.
Proof using Hplaced.
  intros Ho Ht. destruct (placed_apart _ _ Hplaced t) as [H1 H2].
  destruct (path_starts_with_chain _ _ _ Ho Ht); congruence.
Qed.

Lemma temporary_vacant t q : s0 !! temporary t = None → under (temporary t) q → s0 !! q = None.
Proof using Hplaced.
  intros Ht Hq. destruct (decide (q = temporary t)) as [->|Hne]; [done|].
  apply (placed_temporary _ _ Hplaced t); [congruence|done..].
Qed.

Lemma zone_before_publishing t : s0 !! temporary t = None → open_zone before_publishing (temporary t).
Proof using Hplaced.
  intros Ht. split; [apply (placed_temp _ _ Hplaced)|]. split.
  - intros q Hq x [[_ ->] [[n Hx]|Ho]]; [|by eapply apart_contradiction]. rewrite (temporary_vacant t q Ht Hq) in Hx. done.
  - intros p Hp q Hq [_ [[? [=]]|Ho]]. apply ancestors_under in Hq as [Hq _].
    eapply apart_contradiction; [by eapply under_trans|exact Hp].
Qed.
Lemma zone_kept t : s0 !! temporary t = None → open_zone kept (temporary t).
Proof using Hplaced.
  intros Ht. split; [apply (placed_temp _ _ Hplaced)|]. split.
  - intros q Hq x [[_ ->] [n Hx]]. rewrite (temporary_vacant t q Ht Hq) in Hx. done.
  - by intros p Hp q Hq [_ [? [=]]].
Qed.

Lemma output_vacant q : vacant → under output q → q ≠ output → s0 !! q = None.
Proof using Hplaced. intros Hv Hq Hne. apply (placed_whole _ _ Hplaced); [|done..]. intros m Hm. unfold vacant in Hv. by rewrite Hm in Hv. Qed.

Lemma join_longer p n : p ≠ [] → n ≠ [] → path_join p n = p → is_absolute n = true.
Proof using.
  intros Hp Hn E. destruct (is_absolute n) eqn:Ha; [done|]. unfold path_join in E. rewrite Ha in E.
  apply (f_equal length) in E. destruct (_ || _); rewrite ?length_app in E; destruct n; simpl in E; [done|lia|done|lia].
Qed.
Lemma output_entry_free n : vacant → is_absolute n = false → n ≠ [] → free kept (path_join output n).
Proof using Hplaced.
  intros Hv Ha Hn x [[_ ->] [y Hy]]. pose proof (placed_output _ _ Hplaced) as Ho.
  assert (output ≠ []) as Hne by by intros ->.
  rewrite output_vacant in Hy; [done|done|by apply under_join|]. intros E. apply join_longer in E; [congruence|done..].
Qed.

(** Building keeps whatever is known of names outside the temporary directory. *)
Lemma keeps_build (G : path → option node → Prop) t target :
  (∀ q, scratch q → free G q) → open_zone G (temporary t) →
  keeps (fixed G) (build_release R (repo R) (path_join (temporary t) (str "target")) target).
Proof using Halone effects Hplaced.
  intros Hs (Hn & Hf & _). destruct (placed_temp _ _ Hplaced t) as [Ha _].
  assert (under (temporary t) (path_join (temporary t) (str "target"))) as Hu by (apply under_join; [by intros E; rewrite E in Hn|done]).
  apply keeps_build_release; [done|by rewrite (under_absolute _ _ Hu)|].
  intros q Hq. apply Hf. by eapply under_trans.
Qed.

Lemma keeps_assemble (G : path → option node → Prop) t executable environment version epoch :
  (∀ q, scratch q → free G q) → open_zone G (temporary t) →
  keeps (fixed G) (assemble R (path_join (temporary t) (str "package")) executable environment version epoch).
Proof using Halone effects laws.
  intros Hs Hz. pose proof Hz as (Hn & Hf & Hm).
  assert (∀ x, is_absolute (str x) = false → under (temporary t) (path_join (path_join (temporary t) (str "package")) (str x))) as Hj.
  { intros x Hx. apply (zone_join _ Hn); [apply (zone_join _ Hn); [apply under_self|done]|done]. }
  apply keeps_bind; [apply keeps_add_binary; [by apply Hf, Hj|by apply Hm, Hj]|]. intros _.
  destruct laws as [Hp Ho]. apply (keeps_add_texts Hp Ho G Hs).
  - eapply open_zone_sub; [exact Hz|]. by apply Hj.
  - eapply open_zone_sub; [exact Hz|]. by apply Hj.
  - intros n Hin. apply Hf, Hj. by repeat (apply elem_of_cons in Hin as [->|Hin]; [done|]); apply elem_of_nil in Hin.
Qed.

Lemma exists_spec (P : files → Prop) p :
  triple P (exists_ R p) (λ b s, (b = false → no_faults R → s !! p ≫= follow = None) ∧ P s) P P.
Proof using Halone.
  intros w Hw. unfold exists_, mbind, M_bind, attempt, lookup_node, query, call. rewrite Halone.
  destruct (fate_at R (tick w)) as [|e|] eqn:E; simpl; [|split; [by intros _ []%(λ H, H (tick w) e)|done]|done].
  unfold present. destruct (fs w !! p) as [n|]; simpl; [|done]. by destruct (follow n).
Qed.

Lemma keeps_then {A B : Type} P (m : M A) (k : A → M B) Q (X H : files → Prop) :
  keeps P m → (∀ s, P s → X s) → (∀ s, P s → H s) → (∀ a, triple P (k a) Q X H) → triple P (m ≫= k) Q X H.
Proof using. intros Hm HX HH Hk. eapply triple_bind; [by apply keeps_step|exact Hk]. Qed.
Lemma lift_then {A B : Type} P (r : result A) (k : A → M B) Q (X H : files → Prop) :
  (∀ s, P s → X s) → (∀ a, r = Ok a → triple P (k a) Q X H) → triple P (lift r ≫= k) Q X H.
Proof using. intros HX Hk. destruct r as [a|e]; [by apply (Hk a)|]. intros w Hw. by apply HX. Qed.

Lemma checks_spec :
  triple (fixed untouched) (checks R output) (λ _ s, (no_faults R → vacant) ∧ fixed untouched s) (fixed untouched) (fixed untouched).
Proof using Halone effects laws Hplaced.
  assert (∀ q, scratch q → free untouched q) as Hs by (intros q; by apply scratch_untouched).
  unfold checks. do 3 (apply keeps_then; [by apply keeps_text|done|done|]; intros ?; apply keeps_then; [apply keeps_guard|done|done|]; intros _).
  eapply triple_bind; [apply exists_spec|]. intros present.
  apply triple_guard; [|by intros s [_ Hf]]. intros s Hp%negb_true_iff [Hv Hf]. split; [|done].
  intros Hn. specialize (Hv Hp Hn). unfold vacant. rewrite <-(Hf output (s0 !! output)); [done|]. split; [|done].
  intros Hsc. apply (placed_scratch _ _ Hplaced) in Hsc as [Hsc _]. by rewrite path_starts_with_refl in Hsc.
Qed.

Lemma create_dir_spec (P : files → Prop) p m (Q : files → Prop) :
  (∀ s, P s → s !! p = None → Q (<[p := Directory m]> s)) →
  triple P (create_dir R p m) (λ _ s, Q s) P P.
Proof using Halone.
  intros HQ. apply triple_call; [by apply alone_stable| |done..]. intros s Hs. destruct (s !! p) eqn:E; [done|].
  destruct (in_directory _ _); [auto|done].
Qed.

(** What is known when the build begins: a new temporary directory with nothing in it. *)
Definition empty_below (p : path) (s : files) : Prop := ∀ q, under p q → q ≠ p → ¬ scratch q → s !! q = None.
Definition prepared (r : bytes * Z * path) : Prop :=
  (no_faults R → vacant) ∧ (∃ t, r.2 = temporary t ∧ s0 !! temporary t = None) ∧
  ∃ out v, parse_value R out = Ok v ∧ version_of v = Ok r.1.1.

Lemma prepare_spec :
  triple (fixed untouched) (prepare R output) (λ r s, prepared r ∧ empty_below r.2 s ∧ fixed before_publishing s)
    (fixed untouched) (fixed untouched).
Proof using Halone effects laws Hplaced.
  assert (∀ q, scratch q → free untouched q) as Hs by (intros q; by apply scratch_untouched).
  eapply triple_bind; [apply checks_spec|]. intros []. apply triple_pure. intros Hv.
  apply keeps_then; [by apply keeps_invoke|done|done|]. intros out.
  apply lift_then; [done|]. intros metadata Hm. apply lift_then; [done|]. intros version Hver.
  apply keeps_then; [by apply keeps_epoch_of|done|done|]. intros epoch.
  apply look_then; [done|done|]. intros name (t & s & E). injection E as <-. cbv zeta. fold (temporary t).
  eapply triple_bind.
  - apply (create_dir_spec _ _ _ (λ s, s0 !! temporary t = None ∧
      empty_below (temporary t) s ∧ fixed before_publishing s)). intros s' Hf Ht.
    assert (s0 !! temporary t = None) as H0.
    { rewrite <-Ht. symmetry. apply Hf. split; [|done]. intros Hsc.
      apply (placed_scratch _ _ Hplaced) in Hsc as [_ Hsc]. specialize (Hsc t). by rewrite path_starts_with_refl in Hsc. }
    split; [done|]. split.
    { intros q Hq Hne Hsc. rewrite lookup_insert_ne by done. rewrite (Hf q (s0 !! q)); [|done].
      by apply (temporary_vacant t). }
    apply fixed_insert; [by apply (zone_before_publishing t H0), under_self|].
    intros q x [Hu _]. by apply Hf.
  - intros []. apply triple_ret. intros s' (H0 & He & Hf). split; [|done]. split; [done|]. split; [by exists t|by exists out, metadata].
Qed.

(** Building changes nothing that is known, and neither does publishing what was there. *)
Lemma keeps_kept t version epoch :
  vacant → s0 !! temporary t = None → keeps (fixed kept) (build_and_publish R output (temporary t) version epoch).
Proof using Halone effects laws Hplaced.
  intros Hv Ht. assert (∀ q, scratch q → free kept q) as Hs by (intros q; apply scratch_untouched; by intros x [? _]).
  pose proof (zone_kept t Ht) as Hz. apply keeps_bind; [by apply (keeps_build kept t)|]. intros [executable environment].
  apply keeps_bind; [by apply keeps_assemble|]. intros _. apply keeps_publish; [done| |].
  - by intros q _ [_ [? [=]]].
  - intros n Ha Hn. by apply output_entry_free.
Qed.

Lemma fixed_weaken (G G' : path → option node → Prop) s : (∀ q x, G' q x → G q x) → fixed G s → fixed G' s.
Proof using. intros HG Hs q x Hq. by apply Hs, HG. Qed.

Lemma keeps_remove (G : path → option node → Prop) p : open_zone G p → keeps (fixed G) (remove_dir_all R p).
Proof using Halone.
  intros (Hn & Hf & _). assert (p ≠ []) as Hp by by intros ->.
  assert (∀ l s, (∀ q, q ∈ l → free G q) → fixed G s → fixed G (remove_all l s)) as Hl.
  { intros l s. induction l as [|q l IH]; intros Hq Hs; simpl; [done|].
    apply fixed_delete; [apply Hq; left|]. apply IH; [|done]. intros x Hx. apply Hq. by right. }
  assert (∀ s q, q ∈ names_below p s → free G q) as Hb.
  { intros s q [r [-> Hr]%below_Some]%names_below_below. apply Hf. destruct r as [|c r]; [by rewrite app_nil_r; apply under_self|].
    destruct Hr as [|[= ->]]; [done|]. by apply under_slash. }
  apply keeps_call; intros; apply Hl; try done; [by apply Hb|].
  intros q Hq. apply (Hb s). by eapply subseteq_take.
Qed.

(** C11. When nothing is at the output's path, a release never changes or removes a file that was there
    when it began, whatever call fails and wherever it is killed: what it writes is below its
    temporary directory or its output. When no call of the file system fails the same holds for an
    output that is there: the release is refused, and nothing but its temporary directory was
    written. A failing look at an output that is there is not covered: the source takes it as
    absent. *)
Theorem release_preserves :
  (vacant ∨ no_faults R → triple (λ s, s = s0) (release R output) (λ _, fixed kept) (fixed kept) (fixed kept)) ∧
  (no_faults R → ¬ vacant →
   triple (λ s, s = s0) (release R output) (λ _ _, False) (fixed untouched) (fixed untouched)).
Proof using Halone effects laws Hplaced.
  assert (∀ s, fixed untouched s → fixed kept s) as Hk by (intros s; apply fixed_weaken; by intros q x [? _]).
  assert (∀ s, s = s0 → fixed untouched s) as H0 by by intros s -> q x [_ ->].
  split; intros Hsure.
  - apply (triple_pre (fixed untouched)); [|done]. eapply triple_bind.
    + eapply triple_weaken; [apply prepare_spec|done|intros r s H; exact H|exact Hk|exact Hk].
    + intros [[version epoch] tmp]. apply triple_pure. intros [Hv [(t & E & Ht) _]]. simpl in E. subst tmp.
      assert (vacant) as Hvacant by tauto.
      apply (triple_pre (fixed kept)); [|intros s [_ Hs]; revert Hs; apply fixed_weaken; by intros q x [Hu Hx]; split; [|left]].
      apply keeps_bind; [by apply keeps_attempt, keeps_kept|]. intros result.
      apply keeps_bind; [by apply keeps_attempt, keeps_remove, zone_kept|]. intros _. apply keeps_lift.
  - intros Hv. apply (triple_pre (fixed untouched)); [|done]. eapply triple_bind; [apply prepare_spec|].
    intros r. apply triple_pure. intros [? _]. tauto.
Qed.
End whole_release.
End frame.
