(* ===== verification/ReleaseResult.v ===== *)
(** * What a release publishes

    When a release succeeds, its output holds the two archives and their
    checksums and nothing else: the binary archive has the executable that passed
    the check, the source archive the committed files. *)

From stdpp Require Import sorting.
From S2P Require Import Prelude Text Fs Paths Config ConfigSpec Trees Value Distribution DistributionSpec Release ReleaseSpec.

(** ** Directories *)

Lemma child_name_Some p q n : child_name p q = Some n ↔ q = path_join p [] ++ n ∧ plain n.
Proof.
  unfold child_name, plain. destruct (strip_prefix (path_join p []) q) as [r|] eqn:E.
  - apply strip_prefix_Some in E as ->. destruct r as [|c r].
    + split; [done|]. intros [E [Hn _]]. rewrite app_inv_head_iff in E. by subst.
    + destruct (decide ("/"%char ∈ c :: r)) as [Hi|Hi].
      * rewrite bool_decide_true by done. split; [done|]. intros [E%app_inv_head [_ Hs]]. by subst.
      * rewrite bool_decide_false by done. split; [by intros [= <-]|]. by intros [<-%app_inv_head _].
  - split; [done|]. intros [-> _]. pose proof (proj2 (strip_prefix_Some (path_join p []) _ n) eq_refl). congruence.
Qed.

Lemma join_child p n : open_end p → is_absolute n = false → path_join p n = path_join p [] ++ n.
Proof. intros Hp Hn. rewrite !join_relative by done. by rewrite app_nil_r, <-app_assoc. Qed.

Lemma child_of_join p n : open_end p → plain n → child_name p (path_join p n) = Some n.
Proof. intros Hp Hn. apply child_name_Some. split; [|done]. apply join_child; [done|by apply plain_relative]. Qed.

Lemma children_spec s p n : open_end p → n ∈ children s p ↔ plain n ∧ is_Some (s !! path_join p n).
Proof.
  intros Hp. unfold children. rewrite list_elem_of_omap. split.
  - intros (q & Hq & [-> Hn]%child_name_Some). split; [done|].
    rewrite join_child; [|done|by apply plain_relative].
    apply list_elem_of_fmap in Hq as ([q' x] & E & Hx%elem_of_map_to_list). simpl in E. rewrite E, Hx. eauto.
  - intros [Hn [x Hx]]. exists (path_join p n). split; [|by apply child_of_join].
    apply list_elem_of_fmap. exists (path_join p n, x). split; [done|by apply elem_of_map_to_list].
Qed.

Lemma NoDup_children s p : NoDup (children s p).
Proof.
  unfold children. generalize (NoDup_fst_map_to_list s).
  change (map fst (map_to_list s)) with ((map_to_list s).*1).
  generalize ((map_to_list s).*1) as l. induction l as [|q l IH]; intros Hl; [constructor|]. apply NoDup_cons in Hl as [Hq Hl]. simpl.
  destruct (child_name p q) as [n|] eqn:E; [|by apply IH]. constructor; [|by apply IH].
  intros (q' & Hq' & E')%list_elem_of_omap. apply child_name_Some in E as [-> _], E' as [-> _]. done.
Qed.

(** ** Names of archives *)

Lemma last_dot_app b found x e : "."%char ∉ e → last_dot b found (x ++ "."%char :: e) = Some (b ++ x).
Proof.
  intros He. revert b found. induction x as [|c x IH]; intros b found; simpl.
  - assert (∀ b', last_dot b' (Some b) e = Some b) as H.
    { induction e as [|d e IHe]; intros b'; simpl; [done|]. apply not_elem_of_cons in He as [Hd He].
      rewrite decide_False by congruence. by apply IHe. }
    rewrite app_nil_r. apply H.
  - rewrite IH. by rewrite <-app_assoc.
Qed.
Lemma extension_app c x e : "."%char ∉ e → extension ((c :: x) ++ "."%char :: e) = Some e.
Proof.
  intros He. unfold extension. rewrite last_dot_app by done. simpl. f_equal.
  clear He. induction x as [|d x IH]; [done|exact IH].
Qed.
Lemma archive_extension c x : extension (archive_name (c :: x)) = Some (str "gz").
Proof.
  unfold archive_name. change (str ".tar.gz") with (str ".tar" ++ "."%char :: str "gz").
  rewrite app_assoc. apply (extension_app c (x ++ str ".tar")).
  intros [?|[?|?%elem_of_nil]%elem_of_cons]%elem_of_cons; done.
Qed.

Lemma bytes_le_app p a b : bytes_le (p ++ a) (p ++ b) = bytes_le a b.
Proof. induction p as [|c p IH]; [done|]. simpl. by rewrite Z.ltb_irrefl, Z.eqb_refl, IH. Qed.

Lemma sort_by_map {A B : Type} (f : A → B) (le : A → A → bool) (le' : B → B → bool) l :
  (∀ x y, le' (f x) (f y) = le x y) → sort_by le' (map f l) = map f (sort_by le l).
Proof.
  intros Hf. assert (∀ x l, insert_by le' (f x) (map f l) = map f (insert_by le x l)) as Hi.
  { intros x k. induction k as [|y k IH]; simpl; [done|]. rewrite Hf. destruct (le x y); simpl; [done|by rewrite IH]. }
  induction l as [|x l IH]; simpl; [done|]. by rewrite IH, Hi.
Qed.

(** The two archives, in the order of the checksums. *)
Definition binary_archive (version : bytes) : bytes := archive_name (binary_name version).
Definition source_archive (version : bytes) : bytes := archive_name (source_name version).
Lemma archives_sorted version l :
  l ≡ₚ [binary_archive version; source_archive version] →
  sort_by bytes_le (filter (λ n, extension n = Some (str "gz")) l) = [binary_archive version; source_archive version].
Proof.
  intros Hl. assert (filter (λ n, extension n = Some (str "gz")) l ≡ₚ [binary_archive version; source_archive version]) as Hf.
  { rewrite Hl. rewrite filter_cons_True by apply archive_extension. by rewrite filter_cons_True by apply archive_extension. }
  rewrite (sort_by_unique bytes_le bytes_le_total bytes_le_trans _ _ Hf) by (intros x y _ _; apply bytes_le_antisymm).
  assert (bytes_le (binary_archive version) (source_archive version) = true) as Hle.
  { unfold binary_archive, source_archive, binary_name, source_name, archive_name.
    rewrite <-!app_assoc, !bytes_le_app. done. }
  unfold sort_by. cbn [foldr insert_by]. by rewrite Hle.
Qed.
Lemma archives_plain version : "/"%char ∉ version → plain (binary_archive version) ∧ plain (source_archive version).
Proof.
  intros Hv. unfold plain, binary_archive, source_archive, binary_name, source_name, archive_name.
  assert (∀ x, is_Some (find (λ c, bool_decide (c = "/"%char)) (str x)) ∨ "/"%char ∉ str x) as Hx.
  { intros x. destruct (decide ("/"%char ∈ str x)) as [Hi|]; [left|by right]. apply list_elem_of_In in Hi.
    destruct (find _ _) eqn:E; [eauto|]. by apply (find_none _ _ E) in Hi. }
  assert (∀ x, find (λ c, bool_decide (c = "/"%char)) (str x) = None → "/"%char ∉ str x) as Hn.
  { intros x Ex. destruct (Hx x) as [[? ?]|]; [congruence|done]. }
  split; (split; [done|]); rewrite !not_elem_of_app; repeat split; try done; apply Hn; reflexivity.
Qed.

(** ** Walking a directory *)

Lemma walk_entry here l found n t :
  walk_files here (Subdirectory l) = Ok found → (n, t) ∈ l →
  match t with
  | RegularFile d _ => d ≠ [] → here ++ [n] ∈ found
  | Subdirectory k => ∃ sub, walk_files (here ++ [n]) t = Ok sub ∧ sub ⊆ found
  | _ => True
  end.
Proof.
  revert found. induction l as [|[m u] l IH]; intros found; [by intros _ ?%elem_of_nil|].
  simpl. rewrite bind_Ok. intros (a & Ha & H1). apply bind_Ok in H1 as (b & Hb & [= <-]).
  intros [E|Hin]%elem_of_cons.
  - injection E as <- <-. destruct t as [d p|k|e| |]; try done.
    + intros Hd. rewrite bool_decide_false in Ha by done. injection Ha as <-. apply elem_of_app. left. left.
    + exists a. split; [exact Ha|]. by apply list_subseteq_app_l.
  - specialize (IH b Hb Hin). destruct t; try done.
    + intros Hd. apply elem_of_app. right. by apply IH.
    + destruct IH as (sub & Hs & Hsub). exists sub. split; [done|]. by apply list_subseteq_app_r.
Qed.

Lemma longest_bound s q x : s !! q = Some x → length q ≤ longest s.
Proof.
  intros Hq. unfold longest. assert (q ∈ map fst (map_to_list s)) as Hin.
  { apply list_elem_of_fmap. exists (q, x). split; [done|by apply elem_of_map_to_list]. }
  revert Hin. generalize (map fst (map_to_list s)). induction l as [|r l IH]; [by intros ?%elem_of_nil|].
  simpl. intros [->|Hin]%elem_of_cons; [lia|]. specialize (IH Hin). lia.
Qed.

(** A file one level down is found. *)
Lemma walk_nested order s p a b d m found :
  (∀ l : list bytes, order l ≡ₚ l) → open_end p → open_end (path_join p a) → plain a → plain b →
  (∃ x, s !! p = Some (Directory x)) → (∃ x, s !! path_join p a = Some (Directory x)) →
  s !! path_join (path_join p a) b = Some (File d m) → d ≠ [] →
  walk_files [] (tree_at order s p) = Ok found → [a; b] ∈ found.
Proof.
  intros Ho Hp Hpa Ha Hb [x Hx] [y Hy] Hf Hd. unfold tree_at.
  pose proof (longest_bound _ _ _ Hf) as Hl. assert (length (path_join (path_join p a) b) ≠ 0) as Hne.
  { rewrite join_relative by (done || by apply plain_relative). rewrite length_app. destruct Hpa as [Hpa _].
    by destruct (path_join p a). }
  destruct (longest s) as [|levels]; [lia|]. clear Hl Hne. simpl. rewrite Hx.
  intros Hw. eapply (walk_entry [] _ _ a) in Hw; [|apply list_elem_of_fmap; exists a; split; [done|];
    rewrite Ho; apply children_spec; [done|]; split; [done|by rewrite Hy]]. simpl in Hw. rewrite Hy in Hw.
  destruct Hw as (sub & Hw & Hsub). apply Hsub.
  assert (b ∈ order (children s (path_join p a))) as Hin by (rewrite Ho; apply children_spec; [done|]; split; [done|by rewrite Hf]).
  eapply (walk_entry [a] _ _ b) in Hw; [|apply list_elem_of_fmap; exists b; split; [done|exact Hin]].
  destruct levels; simpl in Hw; rewrite Hf in Hw; by apply Hw.
Qed.

(** ** Names in a directory *)

(** A path as [components] would write it. *)
Definition clean (p : path) : Prop := open_end p ∧ path_of (is_absolute p) (names p) = p ∧ names p ≠ [].
Definition entry_name (n : bytes) : Prop := plain n ∧ n ≠ str ".".

Lemma names_join p n : clean p → entry_name n → names (path_join p n) = names p ++ [n].
Proof.
  intros ([Hp He] & Hc & Hn) [Hpl Hd]. rewrite join_relative by (done || by apply plain_relative).
  unfold names in *. destruct p as [|c p]; [done|]. rewrite <-app_comm_cons, !is_absolute_cons in *.
  rewrite app_comm_cons, split_front, filter_app. rewrite (split_plain_one n) by apply Hpl.
  rewrite (filter_cons_True (λ n, n ≠ []) n []) by apply Hpl. cbn [filter list_filter].
  destruct (bool_decide _).
  - rewrite filter_app. f_equal. by rewrite filter_cons_True.
  - destruct (filter _ _) as [|x l]; [done|]. simpl. rewrite filter_app. do 2 f_equal. by rewrite filter_cons_True.
Qed.

Lemma clean_join p n : clean p → entry_name n → clean (path_join p n).
Proof.
  intros Hp Hn. pose proof (names_join p n Hp Hn) as E. destruct Hp as (Ho & Hc & Hne), Hn as [Hpl Hd].
  assert (is_absolute (path_join p n) = is_absolute p) as Ha.
  { apply under_absolute, under_join; [apply Ho|by apply plain_relative]. }
  split; [|split; [|by rewrite E; destruct (names p)]].
  - apply open_end_join; [by apply plain_relative|apply Hpl|by apply plain_open].
  - rewrite Ha, E, join_relative by (done || by apply plain_relative). 
    transitivity (path_of (is_absolute p) (names p) ++ str "/" ++ n); [|by rewrite Hc]. unfold path_of.
    rewrite <-app_assoc. f_equal. clear -Hne. induction (names p) as [|x l IH]; [done|]. destruct l as [|y l]; [done|].
    change (join (str "/") ((x :: y :: l) ++ [n])) with (x ++ str "/" ++ join (str "/") ((y :: l) ++ [n])).
    rewrite IH by done. change (join (str "/") (x :: y :: l)) with (x ++ str "/" ++ join (str "/") (y :: l)).
    by rewrite <-!app_assoc.
Qed.

Lemma ancestors_self p : clean p → p ∈ ancestors p.
Proof.
  intros (_ & Hc & _). assert (∀ a l, path_of a (rev l) ∈ ancestors_go a l) as H by (by intros a []; left).
  specialize (H (is_absolute p) (rev (names p))). rewrite rev_involutive, Hc in H. exact H.
Qed.
Lemma ancestors_join p n : clean p → entry_name n → p ∈ ancestors (path_join p n).
Proof.
  intros Hp Hn. unfold ancestors. rewrite names_join, rev_app_distr by done. simpl. right.
  rewrite (under_absolute p (path_join p n)); [by apply ancestors_self|].
  apply under_join; [apply Hp|apply plain_relative, Hn].
Qed.

Lemma join_two p a b : clean p → entry_name a → is_absolute b = false →
  path_join p (a ++ str "/" ++ b) = path_join (path_join p a) b.
Proof.
  intros Hp Ha Hb. pose proof (clean_join p a Hp Ha) as [Ho _]. destruct Hp as [Hp _], Ha as [Ha _].
  pose proof (plain_relative a Ha) as Hr. destruct Ha as [Hne _]. destruct a as [|c a]; [done|].
  rewrite is_absolute_cons in Hr. rewrite (join_relative (path_join _ _)) by done.
  rewrite (join_relative p (c :: a)) by (done || by rewrite is_absolute_cons).
  rewrite join_relative by (done || by rewrite <-app_comm_cons, is_absolute_cons). by rewrite <-!app_assoc.
Qed.

(** What is at or below one entry is not below another, nor the directory itself. *)
Lemma beside p a b q : clean p → entry_name a → entry_name b → a ≠ b →
  under (path_join p a) q → q ≠ p ∧ ¬ under (path_join p b) q.
Proof.
  unfold under, path_starts_with. intros Hp Ha Hb Hab. rewrite !andb_true_iff, !names_join by done.
  intros [_ [r Hr]%is_prefix_spec]. split.
  - intros ->. apply (f_equal length) in Hr. rewrite !length_app in Hr. simpl in Hr. lia.
  - intros [_ [r' Hr']%is_prefix_spec]. rewrite Hr, <-!app_assoc in Hr'. apply app_inv_head in Hr'. by injection Hr'.
Qed.

(** ** Triples for successful runs *)

Definition yields {A : Type} (P : files → Prop) (m : M A) (Q : A → files → Prop) : Prop :=
  triple P m Q (λ _, True) (λ _, True).

Lemma yields_bind {A B : Type} P (m : M A) (k : A → M B) K Q :
  yields P m K → (∀ a, yields (K a) (k a) Q) → yields P (m ≫= k) Q.
Proof. apply triple_bind. Qed.
Lemma yields_keeps {A B : Type} P (m : M A) (k : A → M B) Q :
  keeps P m → (∀ a, yields P (k a) Q) → yields P (m ≫= k) Q.
Proof. intros Hm. apply yields_bind. by apply keeps_step. Qed.
Lemma yields_lift {A B : Type} P (r : result A) (k : A → M B) Q :
  (∀ a, r = Ok a → yields P (k a) Q) → yields P (lift r ≫= k) Q.
Proof. by apply lift_then. Qed.
Lemma yields_weaken {A : Type} P P' (m : M A) Q Q' :
  yields P m Q → (∀ s, P' s → P s) → (∀ a s, Q a s → Q' a s) → yields P' m Q'.
Proof. intros Hm HP HQ. by eapply triple_weaken. Qed.
Lemma yields_ret {A : Type} (P : files → Prop) (a : A) (Q : A → files → Prop) : (∀ s, P s → Q a s) → yields P (mret a) Q.
Proof. apply triple_ret. Qed.
Lemma yields_pure {A : Type} (φ : Prop) P (m : M A) Q : (φ → yields P m Q) → yields (λ s, φ ∧ P s) m Q.
Proof. apply triple_pure. Qed.
Lemma yields_keeping {A : Type} P P' (m : M A) Q :
  yields P m Q → keeps P' m → yields (λ s, P s ∧ P' s) m (λ a s, Q a s ∧ P' s).
Proof. intros Hm Hk. eapply triple_weaken; [apply (triple_and _ _ _ _ _ _ _ _ _ Hm Hk)|done..|tauto|tauto]. Qed.

(** More is known of one more name. *)
Definition also (G : path → option node → Prop) (p : path) (x : option node) : path → option node → Prop :=
  λ q y, G q y ∨ (q = p ∧ y = x).
Lemma fixed_also G p x s : fixed (also G p x) s ↔ fixed G s ∧ s !! p = x.
Proof.
  split.
  - intros H. split; [intros q y Hq; apply H; by left|]. apply H. by right.
  - intros [H E] q y [Hq|[-> ->]]; [by apply H|done].
Qed.
Lemma free_also G p x q : free G q → q ≠ p → free (also G p x) q.
Proof. intros Hq Hne y [H|[-> _]]; [by apply (Hq y)|done]. Qed.
Lemma makeable_also G p q n : makeable G q → makeable (also G p (Some n)) q.
Proof. intros Hq r Hr [H|[_ [=]]]. by apply (Hq r). Qed.

Section result.
Context (R : tools) (Halone : alone R) (scratch : path → Prop).
Context (effects : ∀ t c s q, effect R t c s !! q ≠ s !! q →
  scratch q ∨ ∃ d, (str "CARGO_TARGET_DIR", d) ∈ set_env c ∧ under d q).
Context (laws : lawful R).

(** ** Calls *)

Lemma yields_call {A : Type} P partial (f : files → result A * files) Q :
  (∀ s a s', P s → f s = (Ok a, s') → Q a s') → yields P (call R partial f) Q.
Proof using Halone.
  intros HQ. apply triple_call; [by apply alone_stable| |done..]. intros s Hs.
  destruct (f s) as [[a|e] s'] eqn:E; [by eapply HQ|done].
Qed.

Lemma place_Ok p n s u s' : place p n s = (Ok u, s') → s' = <[p := n]> s.
Proof. unfold place. destruct (s !! p) as [[]|]; try done; destruct (in_directory s p); by intros [= <- <-]. Qed.

Lemma yields_read_file P p :
  yields P (read_file R p) (λ d s, data_at s p = Some d ∧ P s).
Proof using Halone.
  apply yields_call. intros s d s' Hs. destruct (data_at s p) eqn:E; [|done]. by intros [= <- <-].
Qed.
Lemma data_at_node s p d : data_at s p = Some d ↔ ∃ n m, s !! p = Some n ∧ follow n = Some (File d m).
Proof using.
  unfold data_at. destruct (s !! p) as [n|]; simpl; [|naive_solver].
  split; [|by intros (? & m & [= <-] & ->)]. destruct (follow n) as [[]|] eqn:E; try done. intros [= ->]. eauto.
Qed.
Lemma yields_write G p data :
  free G p → yields (fixed G) (write R p data) (λ _ s, ∃ m, fixed (also G p (Some (File data m))) s).
Proof using Halone.
  intros Hp. apply yields_call. intros s u s' Hs ->%place_Ok. eexists. apply fixed_also.
  split; [by apply fixed_insert|]. apply lookup_insert_eq.
Qed.
Lemma yields_copy G p q n d m :
  G p (Some n) → follow n = Some (File d m) → free G q → yields (fixed G) (copy R p q) (λ _ s, ∃ m, fixed (also G q (Some (File d m))) s).
Proof using Halone.
  intros Hp Hn Hq. apply yields_call. intros s u s' Hs. unfold copied. rewrite (Hs _ _ Hp). simpl. rewrite Hn.
  intros ->%place_Ok.
  eexists. apply fixed_also. split; [by apply fixed_insert|]. apply lookup_insert_eq.
Qed.

(** Nothing is at these names, or links that lead nowhere; and directories are. *)
Definition absent (l : list path) (s : files) : Prop := Forall (λ q, s !! q ≫= follow = None) l.
Definition made (l : list path) (s : files) : Prop := Forall (λ q, ∃ m, s !! q = Some (Directory m)) l.

Lemma yields_create_dir_all G p l :
  makeable G p → Forall (λ q, q ∈ ancestors p) l →
  yields (λ s, absent l s ∧ fixed G s) (create_dir_all R (me R) p) (λ _ s, made l s ∧ fixed G s).
Proof using Halone.
  intros Hp Hl. apply yields_call. intros s u s' [Ha Hs]. destruct (forallb _ _) eqn:E; [|done]. intros [= <- <-].
  rewrite forallb_Forall, Forall_forall in E. split; [|by apply fixed_make_dirs].
  unfold absent, made in *. rewrite !Forall_forall in *. intros q Hq. apply create_dirs_Directory; [by apply Hl|].
  specialize (E q (Hl q Hq)). specialize (Ha q Hq). unfold no_obstacle, is_directory in E.
  destruct (s !! q) as [n|]; [|done]. simpl in Ha. by rewrite Ha in E.
Qed.

Lemma yields_directory {B : Type} G q l (k : M B) Q :
  (∀ m, yields (λ s, made l s ∧ fixed (also G q (Some (Directory m))) s) k Q) →
  yields (λ s, made (q :: l) s ∧ fixed G s) k Q.
Proof using.
  intros Hk w [[[m Hm] Hd]%Forall_cons Hs]. apply (Hk m w). split; [done|]. by apply fixed_also.
Qed.

(** ** The executable *)

(** What a command prints and does, and that it succeeds. *)
Lemma yields_command G c :
  (∀ q, scratch q → free G q) →
  (∀ d q, (str "CARGO_TARGET_DIR", d) ∈ set_env c → under d q → free G q) →
  yields (fixed G) (command_output R c) (λ out s', (∃ t s o, fixed G s ∧ answer R t c s = Ok o ∧
    succeeded o = true ∧ out = printed o ∧ s' = effect R t c s) ∧ fixed G s').
Proof using Halone effects.
  intros Hs He. apply yields_keeps; [apply keeps_recording|]. intros _.
  eapply (yields_bind _ _ _ (λ o s', (∃ t s, fixed G s ∧ answer R t c s = Ok o ∧ s' = effect R t c s) ∧ fixed G s')).
  - intros w Hw. assert (keeps (fixed G) (output R c)) as Hk by (by apply (keeps_output R Halone scratch effects G Hs)).
    specialize (Hk w Hw). unfold output, call in *. destruct (fate_at R (tick w)); [|done..].
    rewrite Halone in *. destruct (answer R (tick w) c (fs w)) as [o|e] eqn:E; [|done]. split; [|done].
    by exists (tick w), (fs w).
  - intros o. eapply (yields_bind _ _ _ (λ _ s', succeeded o = true ∧
      (∃ t s, fixed G s ∧ answer R t c s = Ok o ∧ s' = effect R t c s) ∧ fixed G s')).
    { by apply triple_guard. }
    intros []. apply yields_ret. intros s' (Ho & (t & s & ? & ? & ?) & ?). split; [|done]. by exists t, s, o.
Qed.

(** [d] is the executable that Cargo has built for [target], from files in which [G] still held, when
    it ran with the environment of the release and succeeded; and none of the paths of the build is in
    it. *)
Definition built_by (G : path → option node → Prop) (target d : bytes) : Prop :=
  ∃ home repo_ cargo_home sysroot target_dir t s o,
    (home ← ok_or (HOME R) "HOME is not set"; canonicalize (host_paths R) home) = Ok home ∧
    canonicalize (host_paths R) (repo R) = Ok repo_ ∧
    cargo_home = default (path_join home (str ".cargo")) (CARGO_HOME R) ∧
    let mappings := mappings_of home target_dir cargo_home sysroot repo_ in
    let c := cargo_build repo_ target (build_environment target_dir mappings) in
    fixed G s ∧ answer R t c s = Ok o ∧ succeeded o = true ∧
    data_at (effect R t c s) (executable_of target_dir target) = Some d ∧
    check_binary mappings d = Ok ().

Lemma built_by_weaken (G G' : path → option node → Prop) target d :
  (∀ q x, G' q x → G q x) → built_by G target d → built_by G' target d.
Proof using.
  intros HG (h & r & c & y & td & t & s & o & H1 & H2 & H3 & H4 & H). exists h, r, c, y, td, t, s, o.
  split; [done|]. split; [done|]. split; [done|]. split; [|done]. by eapply fixed_weaken.
Qed.

Section known.
Context (G : path → option node → Prop) (Hscratch : ∀ q, scratch q → free G q).

Lemma yields_build_release target_dir target :
  is_absolute target_dir = true → (∀ q, under target_dir q → free G q) →
  yields (fixed G) (build_release R (repo R) target_dir (Some target))
    (λ r s, ∃ d n m, (built_by G target d ∧ r.1 = executable_of target_dir target ∧ follow n = Some (File d m)) ∧
       fixed (also G r.1 (Some n)) s).
Proof using Halone Hscratch effects.
  intros Ha Hf. unfold build_release. rewrite Ha. cbv zeta.
  apply yields_lift. intros repo_ Hr. apply yields_lift. intros home Hh.
  apply yields_keeps; [by eapply keeps_text|]. intros sysroot. apply yields_keeps; [by eapply keeps_text|]. intros host.
  eapply yields_bind; [apply (yields_command G); [done|]|].
  { intros d q Hd Hq. simpl in Hd. unfold build_environment in Hd.
    repeat (apply elem_of_cons in Hd as [E|Hd]; [|]); [..|by apply elem_of_nil in Hd];
      try (injection E as E; discriminate E). injection E as ->. by apply Hf. }
  intros out. eapply yields_bind; [apply yields_read_file|]. intros contents. apply yields_lift. intros [] Hc.
  apply yields_ret. intros s' (Hd & (t & s & o & Hs & Ho & Hok & _ & ->) & Hs').
  pose proof Hd as (n & m & Hn & Hm)%data_at_node. exists contents, n, m. split; [|by apply fixed_also].
  split_and!; [|done..].
  by exists home, repo_, (default (path_join home (str ".cargo")) (CARGO_HOME R)), sysroot, target_dir, t, s, o.
Qed.

(** The package with the executable in it. *)
Definition packaged (package : path) (d : bytes) (mp mb m : meta) : path → option node → Prop :=
  also (also (also G package (Some (Directory mp))) (path_join package (str "bin")) (Some (Directory mb)))
    (path_join package (str "bin/luhmen")) (Some (File d m)).

Lemma yields_add_binary package executable n d m0 :
  clean package → G executable (Some n) → follow n = Some (File d m0) →
  free G (path_join package (str "bin/luhmen")) → makeable G (path_join package (str "bin")) →
  yields (λ s, absent [package; path_join package (str "bin")] s ∧ fixed G s) (add_binary R package executable)
    (λ _ s, ∃ mp mb m, fixed (packaged package d mp mb m) s).
Proof using Halone.
  intros Hp Hx Hn Hf Hm. assert (entry_name (str "bin")) as Hb.
  { split; [split|]; apply (bool_decide_unpack _); reflexivity. }
  assert (path_join package (str "bin/luhmen") = path_join (path_join package (str "bin")) (str "luhmen")) as Hl.
  { by apply (join_two package (str "bin") (str "luhmen")). }
  assert (path_join package (str "bin/luhmen") ≠ path_join package (str "bin")) as Hne1.
  { rewrite Hl. intros E. by apply join_longer in E; [|apply (clean_join package (str "bin") Hp Hb)|]. }
  assert (path_join package (str "bin/luhmen") ≠ package) as Hne2.
  { intros E. apply join_longer in E; [done|apply Hp|done]. }
  eapply yields_bind; [apply yields_create_dir_all; [done|]|].
  { repeat constructor; [by apply ancestors_join|by apply ancestors_self, clean_join]. }
  intros []. do 2 (apply yields_directory; intros ?).
  match goal with |- yields (λ s, _ ∧ fixed ?K s) _ _ => set (G' := K) end.
  eapply yields_weaken; [apply (yields_copy G' executable (path_join package (str "bin/luhmen")) n d m0)| |].
  - left. by left.
  - done.
  - by apply free_also; [apply free_also|].
  - by intros s [_ Hs].
  - intros [] s [mf Hs]. by do 2 eexists; exists mf.
Qed.
End known.

Section texts.
Context (G : path → option node → Prop) (Hscratch : ∀ q, scratch q → free G q).
Context (package : path) (Hpackage : clean package) (Hzone : open_zone G package).
Context (d : bytes) (mp mb m : meta).

Lemma bin_entry : entry_name (str "bin").
Proof using. split; [split|]; apply (bool_decide_unpack _); reflexivity. Qed.
Lemma binary_path : path_join package (str "bin/luhmen") = path_join (path_join package (str "bin")) (str "luhmen").
Proof using Hpackage. apply (join_two package (str "bin") (str "luhmen")); [done|apply bin_entry|done]. Qed.

Lemma free_packaged a q :
  entry_name a → a ≠ str "bin" → under (path_join package a) q → free (packaged G package d mp mb m) q.
Proof using Hpackage Hzone.
  intros Ha Hne Hq. destruct (beside package a (str "bin") q Hpackage Ha bin_entry Hne Hq) as [H1 H2].
  assert (is_absolute a = false) as Hr by apply plain_relative, Ha.
  apply free_also; [apply free_also; [apply free_also; [|done]|]|].
  - apply Hzone. eapply under_trans; [apply (under_join package a)|exact Hq]; [apply Hpackage|done].
  - intros ->. apply H2, under_self.
  - intros ->. apply H2. rewrite binary_path. apply under_join; [apply (clean_join _ _ Hpackage bin_entry)|done].
Qed.

Lemma zone_packaged a z :
  entry_name a → a ≠ str "bin" → under (path_join package a) z → open_zone (packaged G package d mp mb m) z.
Proof using Hpackage Hzone.
  intros Ha Hne Hz. assert (under package z) as Hpz.
  { eapply under_trans; [apply (under_join package a)|exact Hz]; [apply Hpackage|apply plain_relative, Ha]. }
  destruct (open_zone_sub G package z Hzone Hpz) as (Hn & _ & Hm). split; [done|]. split.
  - intros q Hq. apply (free_packaged a); [done..|]. by eapply under_trans.
  - intros p Hp. by apply makeable_also, makeable_also, makeable_also, Hm.
Qed.

Context (Hoff : ∀ q, scratch q → ¬ under package q).
Lemma scratch_packaged q : scratch q → free (packaged G package d mp mb m) q.
Proof using Hscratch Hpackage Hoff.
  intros Hq. assert (∀ x, is_absolute x = false → q ≠ path_join package x) as Hx.
  { intros x Hr ->. apply (Hoff _ Hq), under_join; [apply Hpackage|done]. }
  apply free_also; [apply free_also; [apply free_also; [by apply Hscratch|]|by apply Hx]|by apply Hx].
  intros ->. apply (Hoff _ Hq), under_self.
Qed.

Lemma keeps_texts environment version epoch :
  keeps (fixed (packaged G package d mp mb m)) (add_texts R package environment version epoch).
Proof using Halone Hscratch effects laws Hpackage Hzone Hoff.
  assert (∀ x, bool_decide (str x ≠ []) = true → bool_decide ("/"%char ∉ str x) = true →
    bool_decide (str x ≠ str ".") = true → entry_name (str x)) as He.
  { intros x H1%bool_decide_eq_true H2%bool_decide_eq_true H3%bool_decide_eq_true. done. }
  destruct laws as [Hp Ho]. apply (keeps_add_texts R Halone scratch effects Hp Ho); [by apply scratch_packaged|..].
  - apply (zone_packaged (str "share")); [by apply He| |].
    + apply (bool_decide_unpack _). reflexivity.
    + assert (notices_of package = path_join (path_join package (str "share")) (str "licenses/luhmen")) as ->.
      { apply (join_two package (str "share") (str "licenses/luhmen")); [done|by apply He|done]. }
      apply under_join; [apply clean_join; [done|by apply He]|done].
  - apply (zone_packaged (str "docs")); [by apply He| |apply under_self]. apply (bool_decide_unpack _). reflexivity.
  - intros n Hn. apply (free_packaged (str n)); [..|apply under_self];
      (repeat (apply elem_of_cons in Hn as [->|Hn]; [first [by apply He|apply (bool_decide_unpack _); reflexivity]|]));
      by apply elem_of_nil in Hn.
Qed.
End texts.

(** ** Archives *)

Lemma yields_output G c :
  (∀ q, scratch q → free G q) → set_env c = [] →
  yields (fixed G) (command_output R c) (λ out s, (∃ t s' o, answer R t c s' = Ok o ∧ out = printed o) ∧ fixed G s).
Proof using Halone effects.
  intros Hs He. eapply yields_weaken; [apply (yields_command G c Hs)|done|].
  - rewrite He. by intros ? ? ?%elem_of_nil.
  - intros out s [(t & s' & o & _ & Ho & _ & -> & _) Hf]. split; [by exists t, s', o|done].
Qed.

(** An entry is made of its source as it is known. *)
Definition appended (G : path → option node → Prop) (root : bytes) (epoch : Z) (x : relative * path) (e : entry) : Prop :=
  ∃ t, append root x.1 t epoch = Ok e ∧ ∀ n, G x.2 (Some n) → t = leaf n.

Lemma yields_append_each G root files epoch :
  yields (fixed G) (append_each R root files epoch) (λ es s, Forall2 (appended G root epoch) files es ∧ fixed G s).
Proof using Halone.
  induction files as [|[n p] files IH]; simpl; [by apply yields_ret; intros s Hs; split; [constructor|]|].
  eapply (yields_bind _ _ _ (λ t s, (∀ n, G p (Some n) → t = leaf n) ∧ fixed G s)).
  - apply yields_call. intros s t s' Hs. destruct (s !! p) as [x|] eqn:E; [|done]. intros [= <- <-].
    split; [|done]. intros y Hy. rewrite (Hs _ _ Hy) in E. by injection E as ->.
  - intros t. apply yields_pure. intros Ht. apply yields_lift. intros e He.
    eapply yields_bind; [apply IH|]. intros es. apply yields_pure. intros Hes. apply yields_ret. intros s Hs.
    split; [|done]. constructor; [|done]. by exists t.
Qed.

Lemma appended_weaken (G G' : path → option node → Prop) root epoch files es :
  (∀ q n, G q (Some n) → G' q (Some n)) → Forall2 (appended G' root epoch) files es → Forall2 (appended G root epoch) files es.
Proof using.
  intros HG Hf. eapply Forall2_impl; [exact Hf|]. intros x e (t & Ht & Hn). exists t. split; [done|]. intros n Hx. by apply Hn, HG.
Qed.

(** ** The output *)

Section output.
Context (output : path) (Hclean : clean output) (G : path → option node → Prop).
Context (Hscratch : ∀ q, scratch q → free G q ∧ ¬ under output q).
Context (Hfree : ∀ q, under output q → q ≠ output → free G q) (Hmake : makeable G output).

(** Below the output there is nothing but [l]. *)
Definition holding (mo : meta) (l : gmap path node) : path → option node → Prop := λ q x,
  G q x ∨ (q = output ∧ x = Some (Directory mo)) ∨ (under output q ∧ q ≠ output ∧ x = l !! q).
Definition vacated : path → option node → Prop := λ q x, G q x ∨ (under output q ∧ q ≠ output ∧ x = None).

Lemma scratch_holding mo l q : scratch q → free (holding mo l) q.
Proof using Hscratch.
  intros Hq x [Hx|[[-> _]|[Hu _]]]; destruct (Hscratch _ Hq) as [Hf Hn]; [by apply (Hf x)|by apply Hn, under_self|done].
Qed.

Lemma yields_write_output mo l p data :
  under output p → p ≠ output →
  yields (fixed (holding mo l)) (write R p data) (λ _ s, ∃ m, fixed (holding mo (<[p := File data m]> l)) s).
Proof using Halone Hfree.
  intros Hu Hne. set (H := λ q x, holding mo l q x ∧ q ≠ p). eapply yields_weaken; [apply (yields_write H p data)| |].
  - by intros x [_ Hx].
  - intros s. apply fixed_weaken. by intros q x [? _].
  - intros [] s [m Hs]. exists m. apply fixed_also in Hs as [Hs Hp]. intros q x [Hx|[[-> ->]|(Hq & Hqo & ->)]].
    + apply Hs. split; [by left|]. intros ->. by apply (Hfree p Hu Hne x).
    + apply Hs. split; [by right; left|congruence].
    + destruct (decide (q = p)) as [->|Hqp]; [by rewrite lookup_insert_eq|]. rewrite lookup_insert_ne by done.
      apply Hs. split; [|done]. right. right. done.
Qed.

Lemma yields_archive mo l p root files epoch :
  under output p → p ≠ output →
  yields (fixed (holding mo l)) (archive R p root files epoch) (λ _ s, ∃ es data m,
    (epoch <= u32_max)%Z ∧ Forall2 (appended G root epoch) (sort_by (λ x y, names_le x.1 y.1) files) es ∧
    pack R epoch es = Ok data ∧ fixed (holding mo (<[p := File data m]> l)) s).
Proof using Halone Hfree.
  intros Hu Hne. unfold archive, guard. destruct (Z.leb_spec epoch u32_max); [|by intros w Hw].
  apply (yields_keeps _ (mret ())); [apply keeps_ret|]. intros _.
  eapply yields_bind; [by apply yields_write_output|]. intros []. apply triple_exists. intros m0.
  eapply yields_bind; [apply yields_append_each|]. intros es. apply yields_pure. intros Hes.
  apply yields_lift. intros data Hd. eapply yields_weaken; [by apply yields_write_output|done|].
  intros [] s [m Hs]. exists es, data, m. split; [done|]. split; [|split; [done|by rewrite insert_insert_eq in Hs]].
  eapply appended_weaken; [|exact Hes]. intros q n Hq. by left.
Qed.

(** One line of the checksums. *)
Definition sum_line (name data : bytes) : bytes := sha256_hex R data ++ str "  " ++ name ++ [newline].

Lemma yields_sums_of H l :
  (∀ n d, (n, d) ∈ l → ∃ m, H (path_join output n) (Some (File d m))) →
  yields (fixed H) (sums_of R output (l.*1)) (λ sums s, sums = concat (map (λ x, sum_line x.1 x.2) l) ∧ fixed H s).
Proof using Halone.
  induction l as [|[n d] l IH]; intros Hl; simpl; [by apply yields_ret|].
  eapply (yields_bind _ _ _ (λ d' s, d' = d ∧ fixed H s)).
  - eapply yields_weaken; [apply yields_read_file|done|]. intros d' s [(x & m & Hx & Hm)%data_at_node Hs]. split; [|done].
    destruct (Hl n d) as [m' Hm']; [left|]. rewrite (Hs _ _ Hm') in Hx. injection Hx as <-. by injection Hm.
  - intros d'. apply yields_pure. intros ->. eapply yields_bind; [apply IH; intros ? ? ?; apply Hl; by right|].
    intros sums. apply yields_pure. intros ->. apply yields_ret. intros s Hs. split; [|done].
    unfold sum_line. by rewrite <-!app_assoc.
Qed.

Lemma output_entry n : plain n → under output (path_join output n) ∧ path_join output n ≠ output.
Proof using Hclean.
  intros Hn. pose proof (plain_relative n Hn) as Ha. split; [apply under_join; [apply Hclean|done]|].
  intros E. apply join_longer in E; [congruence|apply Hclean|apply Hn].
Qed.
Lemma output_entry_inj n n' : plain n → plain n' → path_join output n = path_join output n' → n = n'.
Proof using Hclean.
  intros Hn Hn'. rewrite (join_child output n), (join_child output n') by (apply Hclean || by apply plain_relative).
  apply app_inv_head.
Qed.

Lemma holding_children mo a da ma b db mb s :
  plain a → plain b → a ≠ b →
  fixed (holding mo (<[path_join output b := File db mb]> {[path_join output a := File da ma]})) s →
  children s output ≡ₚ [a; b].
Proof using Hclean.
  intros Ha Hb Hab Hs. apply NoDup_Permutation; [apply NoDup_children| |].
  { repeat constructor; [|by apply not_elem_of_nil..]. by intros ?%list_elem_of_singleton. }
  intros n. rewrite children_spec by apply Hclean. split.
  - intros [Hn [x Hx]]. destruct (output_entry n Hn) as [Hu Hne].
    rewrite (Hs (path_join output n) _ (or_intror (or_intror (conj Hu (conj Hne eq_refl))))) in Hx.
    apply lookup_insert_Some in Hx as [[E _]|[_ H]]; [|apply lookup_singleton_Some in H as [E _]];
      (apply output_entry_inj in E; [|done..]); subst n; [right|]; left.
  - intros Hn. assert (plain n) as Hp by (by apply elem_of_cons in Hn as [->|Hn%list_elem_of_singleton]; [|subst n]).
    split; [done|]. destruct (output_entry n Hp) as [Hu Hne].
    rewrite (Hs (path_join output n) _ (or_intror (or_intror (conj Hu (conj Hne eq_refl))))).
    apply elem_of_cons in Hn as [->|Hn%list_elem_of_singleton]; [|subst n; by rewrite lookup_insert_eq; eauto].
    rewrite lookup_insert_ne; [by rewrite lookup_singleton_eq; eauto|]. intros E. by apply output_entry_inj in E.
Qed.

Definition archives_in (version db ds : bytes) (ma mb : meta) : gmap path node :=
  <[path_join output (source_archive version) := File ds mb]> {[path_join output (binary_archive version) := File db ma]}.
Definition sums_text (version db ds : bytes) : bytes :=
  sum_line (binary_archive version) db ++ sum_line (source_archive version) ds.

Lemma archives_differ version : binary_archive version ≠ source_archive version.
Proof using.
  unfold binary_archive, source_archive, binary_name, source_name, archive_name. rewrite <-!app_assoc.
  intros E%app_inv_head%app_inv_head. discriminate E.
Qed.

Lemma yields_checksums mo version db ds ma mb :
  "/"%char ∉ version →
  yields (fixed (holding mo (archives_in version db ds ma mb))) (checksums R output)
    (λ _ s, ∃ m, fixed (holding mo (<[path_join output (str "SHA256SUMS") := File (sums_text version db ds) m]>
                                      (archives_in version db ds ma mb))) s).
Proof using Halone Hfree Hclean laws.
  intros Hv. destruct (archives_plain version Hv) as [Hpa Hpb].
  eapply (yields_bind _ _ _ (λ entries s, entries ≡ₚ [binary_archive version; source_archive version] ∧
                                          fixed (holding mo (archives_in version db ds ma mb)) s)).
  - intros w Hw. unfold lift_query, query, call. rewrite Halone. destruct (fate_at R (tick w)); [|done..]. simpl.
    destruct (fs w !! output) as [[]|]; simpl; try done. split; [|done]. rewrite (lawful_arranged _ laws).
    eapply holding_children; [done|done|apply archives_differ|exact Hw].
  - intros entries. apply yields_pure. intros He. cbv zeta. rewrite (archives_sorted version entries He).
    eapply yields_bind; [apply (yields_sums_of _ [(binary_archive version, db); (source_archive version, ds)])|].
    + intros n d Hn. destruct (output_entry _ Hpa) as [Hua Hna], (output_entry _ Hpb) as [Hub Hnb].
      apply elem_of_cons in Hn as [E|E%list_elem_of_singleton]; injection E as -> ->; eexists; right; right.
      * split; [done|]. split; [done|]. unfold archives_in. rewrite lookup_insert_ne; [by rewrite lookup_singleton_eq|].
        intros E%output_entry_inj; [|done..]. by apply (archives_differ version).
      * split; [done|]. split; [done|]. unfold archives_in. by rewrite lookup_insert_eq.
    + intros sums. apply yields_pure. intros ->. simpl. rewrite app_nil_r.
      apply yields_write_output; apply output_entry; split; try done; apply (bool_decide_unpack _); reflexivity.
Qed.
End output.

(** ** Publishing *)

(** What is known of the files when the archives are made: all that were there, and the package. *)
Section publish.
Context (s0 : files) (output package : path) (Hclean : clean output) (Hpackage : clean package).
Context (K : path → option node → Prop).
Context (Hscratch : ∀ q, scratch q → free K q ∧ ¬ under output q).
Context (Hfree : ∀ q, under output q → q ≠ output → free K q) (Hmake : makeable K output).
Context (Hkept : ∀ q n, ¬ scratch q → s0 !! q = Some n → K q (Some n)).
Context (d : bytes) (mp mb m : meta) (nonempty : d ≠ []).
Context (Hpackaged : ∀ q x, packaged (λ _ _, False) package d mp mb m q x → K q x).
Context (committed : ∀ t s o, answer R t (git R ["ls-files"; "-z"]) s = Ok o →
  ∀ n, n ∈ listed (printed o) → ¬ scratch (path_join (repo R) n) ∧ is_Some (s0 !! path_join (repo R) n)).

(** The tracked file [n] as it was. *)
Definition before (n : bytes) : Distribution.tree :=
  match s0 !! path_join (repo R) n with Some n => leaf n | None => Unreadable "no such file" end.
Definition binary_contents (version : bytes) (epoch : Z) (built data : bytes) : Prop :=
  ∃ entries, pack R epoch entries = Ok data ∧
    ∃ e, e ∈ entries ∧ entry_path e = path_join (binary_name version) (str "bin/luhmen") ∧ entry_data e = built.
Definition source_contents (version : bytes) (epoch : Z) (data : bytes) : Prop :=
  ∃ t s o, answer R t (git R ["ls-files"; "-z"]) s = Ok o ∧
    Distribution.archive (pack R) (source_name version) (map (λ n, (names n, before n)) (listed (printed o))) epoch = Ok data.

Lemma ancestors_output q : q ∈ ancestors output → under output q → q = output.
Proof using Hclean.
  intros (k & r & E & ->)%ancestors_go_prefix Hu. pose proof (names_normal output) as Hn. rewrite E in Hn.
  destruct (names_path_of _ _ (normal_prefix _ _ _ Hn)) as [H1 _].
  unfold under, path_starts_with in Hu. rewrite H1, E, andb_true_iff in Hu. destruct Hu as [_ [r' Hr]%is_prefix_spec].
  assert (r = []) as ->.
  { apply (f_equal length) in Hr. rewrite !length_app in Hr. destruct r; [done|simpl in Hr; lia]. }
  rewrite app_nil_r in E. rewrite <-E. apply Hclean.
Qed.

Lemma yields_open_output {B : Type} (k : M B) Q :
  (∀ mo, yields (fixed (holding output K mo ∅)) k Q) →
  yields (λ s, absent [output] s ∧ fixed (vacated output K) s) (_ ← create_dir_all R (me R) output; k) Q.
Proof using Halone Hclean Hmake.
  intros Hk. eapply yields_bind.
  - apply yields_create_dir_all; [|repeat constructor; by apply ancestors_self].
    intros q Hq [Hx|(Hu & Hne & _)]; [by apply (Hmake q)|]. by apply Hne, ancestors_output.
  - intros []. apply yields_directory. intros mo.
    eapply yields_weaken; [apply (Hk mo)| |done]. intros s [_ Hs%fixed_also] q x Hx. destruct Hs as [Hs Ho].
    destruct Hx as [Hx|[[-> ->]|(Hu & Hne & ->)]]; [by apply Hs; left|done|].
    rewrite lookup_empty. apply Hs. by right.
Qed.

Lemma yields_files_under H :
  (∀ q x, K q x → H q x) →
  yields (fixed H) (files_under R package) (λ files s,
    ([str "bin"; str "luhmen"], path_join package (str "bin/luhmen")) ∈ files ∧ fixed H s).
Proof using Halone Hpackage Hpackaged laws nonempty.
  intros HK. eapply (yields_bind _ _ _ (λ t s, (∃ n, t = tree_at (arrange R n) s package) ∧ fixed H s)).
  - intros w Hw. unfold lift_query, query, call. rewrite Halone. destruct (fate_at R (tick w)); [|done..].
    split; [by eexists|done].
  - intros t w [[n ->] Hw]. destruct (walk_files [] _) as [found|e] eqn:E; [|done]. simpl. split; [|done].
    apply list_elem_of_fmap. exists [str "bin"; str "luhmen"]. split; [done|].
    pose proof (clean_join package (str "bin") Hpackage bin_entry) as Hb.
    assert (∀ q x, packaged (λ _ _, False) package d mp mb m q x → fs w !! q = x) as Hf by auto.
    eapply (walk_nested (arrange R n)); [apply (lawful_arranged _ laws)|apply Hpackage|apply Hb| | | | | |exact nonempty|exact E].
    + split; apply (bool_decide_unpack _); reflexivity.
    + split; apply (bool_decide_unpack _); reflexivity.
    + exists mp. apply Hf. left. left. by right.
    + exists mb. apply Hf. left. by right.
    + rewrite <-(binary_path package Hpackage). apply Hf. by right.
Qed.

Lemma yields_tracked H :
  (∀ q, scratch q → free H q) →
  yields (fixed H) (tracked_files R (repo R)) (λ files s,
    (∃ t s' o, answer R t (git R ["ls-files"; "-z"]) s' = Ok o ∧
       files = map (λ n, (names n, path_join (repo R) n)) (listed (printed o))) ∧ fixed H s).
Proof using Halone effects.
  intros Hs. eapply yields_bind; [by apply yields_output|]. intros out. apply yields_pure. intros (t & s' & o & Ho & ->).
  apply yields_lift. intros _ _. apply yields_ret. intros s Hf. split; [|done]. by exists t, s', o.
Qed.

Lemma appended_source version epoch o t s es data :
  answer R t (git R ["ls-files"; "-z"]) s = Ok o → (epoch <= u32_max)%Z →
  Forall2 (appended K (source_name version) epoch)
    (sort_by (λ x y, names_le x.1 y.1) (map (λ n, (names n, path_join (repo R) n)) (listed (printed o)))) es →
  pack R epoch es = Ok data → source_contents version epoch data.
Proof using committed Hkept.
  intros Ho He Hes Hd. exists t, s, o. split; [done|]. unfold Distribution.archive.
  apply ensure_bind_Ok. split; [by apply Z.leb_le|]. apply bind_Ok. exists es. split; [|done].
  rewrite (sort_by_map _ (λ x y, names_le (names x) (names y))) in Hes by done.
  rewrite (sort_by_map _ (λ x y, names_le (names x) (names y))) by done.
  assert (∀ n, n ∈ sort_by (λ x y, names_le (names x) (names y)) (listed (printed o)) → n ∈ listed (printed o)) as Hin.
  { intros n. by rewrite sort_by_Permutation. }
  clear Hd. revert es Hes Hin. generalize (sort_by (λ x y, names_le (names x) (names y)) (listed (printed o))) as l.
  induction l as [|n l IH]; intros es Hes Hin; inversion Hes as [|? e ? es' (x & Hx & Hn) Hes']; subst; simpl; [done|].
  assert (x = before n) as ->.
  { destruct (committed t s o Ho n) as [Hs [y Hy]]; [apply Hin; left|]. unfold before. rewrite Hy.
    apply Hn. by apply Hkept. }
  simpl in Hx. rewrite Hx. simpl. rewrite (IH es'); [done|done|]. intros z Hz. apply Hin. by right.
Qed.

Lemma appended_binary version epoch files es data :
  ([str "bin"; str "luhmen"], path_join package (str "bin/luhmen")) ∈ files →
  Forall2 (appended K (binary_name version) epoch) (sort_by (λ x y, names_le x.1 y.1) files) es →
  pack R epoch es = Ok data → binary_contents version epoch d data.
Proof using Hpackaged.
  intros Hin Hes Hd. exists es. split; [done|].
  rewrite <-(sort_by_Permutation (λ x y : relative * path, names_le x.1 y.1)) in Hin.
  apply list_elem_of_lookup in Hin as [i Hi].
  destruct (Forall2_lookup_l _ _ _ _ _ Hes Hi) as (e & He & t & Ht & Hn). exists e.
  split; [by eapply list_elem_of_lookup_2|]. simpl in *. rewrite (Hn (File d m)) in Ht by (apply Hpackaged; by right).
  by injection Ht as <-.
Qed.

(** What is in the output in the end. *)
Definition holds_exactly (l : gmap path node) (s : files) : Prop :=
  (∃ mo, s !! output = Some (Directory mo)) ∧ ∀ q, under output q → q ≠ output → s !! q = l !! q.
Definition published (version : bytes) (epoch : Z) (built : bytes) (s : files) : Prop :=
  ∃ db ds ma mb mc, binary_contents version epoch built db ∧ source_contents version epoch ds ∧
    holds_exactly (<[path_join output (str "SHA256SUMS") := File (sums_text version db ds) mc]>
                     (archives_in output version db ds ma mb)) s.

Lemma holding_exactly mo l s : fixed (holding output K mo l) s → holds_exactly l s.
Proof using.
  intros Hs. split; [exists mo; apply Hs; right; by left|]. intros q Hu Hne. apply Hs. right. by right.
Qed.

Lemma yields_publish version epoch :
  "/"%char ∉ version →
  yields (λ s, absent [output] s ∧ fixed (vacated output K) s) (publish R output package version epoch)
    (λ _ s, published version epoch d s).
Proof using Halone effects laws Hclean Hpackage Hscratch Hfree Hmake Hkept Hpackaged committed nonempty.
  intros Hv. destruct (archives_plain version Hv) as [Hpa Hpb].
  destruct (output_entry output Hclean _ Hpa) as [Hua Hna], (output_entry output Hclean _ Hpb) as [Hub Hnb].
  apply yields_open_output. intros mo.
  eapply yields_bind; [apply yields_files_under; intros q x Hx; by left|]. intros files. apply yields_pure. intros Hin.
  eapply yields_bind; [by apply yields_archive|]. intros []. do 3 (apply triple_exists; intros ?).
  apply yields_pure. intros _. apply yields_pure. intros Hes. apply yields_pure. intros Hpack.
  eapply yields_bind; [apply yields_tracked; intros q; by apply scratch_holding|]. intros tracked.
  apply yields_pure. intros (t & s' & o & Ho & ->).
  eapply yields_bind; [by apply yields_archive|]. intros []. do 3 (apply triple_exists; intros ?).
  apply yields_pure. intros He. apply yields_pure. intros Hes'. apply yields_pure. intros Hpack'.
  eapply yields_weaken; [by apply yields_checksums| |].
  - intros s Hs. unfold archives_in. exact Hs.
  - intros [] s [mc Hs%holding_exactly]. do 5 eexists. split; [by eapply appended_binary|].
    split; [by eapply appended_source|exact Hs].
Qed.
End publish.

(** ** The release *)

Section whole.
Context (s0 : files) (output : path) (Hplaced : placed R scratch s0 output).
(** The paths are written as [components] would write them; Git lists committed files, which are
    there; a version has no slash; the executable of a successful build is not empty. *)
Record regular : Prop := {
  regular_output : clean output;
  regular_temporary t : clean (temporary R t);
  regular_committed t s o : answer R t (git R ["ls-files"; "-z"]) s = Ok o →
    ∀ n, n ∈ listed (printed o) → ¬ scratch (path_join (repo R) n) ∧ is_Some (s0 !! path_join (repo R) n);
  regular_version out v version : parse_value R out = Ok v → version_of v = Ok version → "/"%char ∉ version;
  regular_built t s o repo_ target dir mappings :
    let c := cargo_build repo_ target (build_environment dir mappings) in
    answer R t c s = Ok o → succeeded o = true →
    data_at (effect R t c s) (executable_of dir target) ≠ Some []
}.
Context (Hregular : regular).

Lemma built_nonempty G target d : built_by G target d → d ≠ [].
Proof using Hregular.
  intros (h & r & c & y & td & t & s & o & _ & _ & _ & _ & Ho & Hok & Hd & _) ->.
  by apply (regular_built Hregular) in Ho.
Qed.

Abbreviation package_in t := (path_join (temporary R t) (str "package")).
Lemma package_entry : entry_name (str "package") ∧ entry_name (str "target").
Proof using. repeat split; apply (bool_decide_unpack _); reflexivity. Qed.

Lemma package_clean t : clean (package_in t) ∧ under (temporary R t) (package_in t).
Proof using Hregular.
  split; [by apply clean_join; [apply (regular_temporary Hregular)|apply package_entry]|].
  apply under_join; [apply (regular_temporary Hregular)|done].
Qed.
Lemma scratch_off t q : scratch q → ¬ under (package_in t) q.
Proof using Hplaced Hregular.
  intros [_ H]%(placed_scratch _ _ _ _ Hplaced) Hu. specialize (H t).
  assert (under (temporary R t) q) as Hq by (eapply under_trans; [apply package_clean|exact Hu]). unfold under in Hq. congruence.
Qed.

Section knowledge.
Context (t : nat) (d : bytes) (mp mb m : meta) (Hvacant : vacant s0 output).
Definition known : path → option node → Prop := packaged (kept scratch s0) (package_in t) d mp mb m.

Lemma known_scratch q : scratch q → free known q ∧ ¬ under output q.
Proof using Hplaced Hregular.
  intros Hq. split.
  - apply scratch_packaged; [|apply package_clean|intros; by apply scratch_off|done].
    intros q' Hq' x [[? _] _]. done.
  - intros Hu. destruct (placed_scratch _ _ _ _ Hplaced q Hq) as [H _]. unfold under in Hu. congruence.
Qed.
Lemma known_free q : under output q → q ≠ output → free known q.
Proof using Hplaced Hregular Hvacant.
  intros Hu Hne. assert (∀ p, under (package_in t) p → q ≠ p) as Hp.
  { intros p Hp ->. eapply (apart_contradiction R scratch s0 output Hplaced t); [exact Hu|].
    eapply under_trans; [apply package_clean|exact Hp]. }
  assert (package_in t ≠ []) as Hn by apply package_clean.
  apply free_also; [apply free_also; [apply free_also|]|]; [|by apply Hp, under_self|by apply Hp, under_join..].
  intros x [[_ ->] [n Hx]]. by rewrite (output_vacant R scratch s0 output Hplaced q Hvacant Hu Hne) in Hx.
Qed.
Lemma known_makeable : makeable known output.
Proof using. do 3 apply makeable_also. by intros q _ [_ [? [=]]]. Qed.
End knowledge.

(** The names of the package that the executable goes through. *)
Abbreviation package_dirs t := [package_in t; path_join (package_in t) (str "bin")].
Lemma package_dirs_below t q : q ∈ package_dirs t → under (temporary R t) q ∧ q ≠ temporary R t ∧
  ¬ under (path_join (temporary R t) (str "target")) q ∧ ¬ scratch q.
Proof using Hplaced Hregular.
  intros Hq. destruct (package_clean t) as [Hp Hu]. destruct package_entry as [Hep Het].
  assert (under (package_in t) q) as Hpq.
  { apply elem_of_cons in Hq as [Hq|Hq%list_elem_of_singleton]; subst q; [apply under_self|]. apply under_join; [apply Hp|done]. }
  split; [by eapply under_trans|].
  destruct (beside (temporary R t) (str "package") (str "target") q) as [H1 H2];
    [apply (regular_temporary Hregular)|done..|by apply (bool_decide_unpack _)|done|].
  split; [done|]. split; [done|]. intros Hs. by apply (scratch_off t q Hs).
Qed.

Lemma keeps_absent t l {A : Type} (m : M A) :
  (∀ G, (∀ q, scratch q → free G q) → (∀ q, under (path_join (temporary R t) (str "target")) q → free G q) → keeps (fixed G) m) →
  Forall (λ q, q ∈ package_dirs t) l →
  keeps (λ s, Forall (λ q, s !! q = None) l) m.
Proof using Hplaced Hregular.
  intros Hm Hl. set (G := λ (q : path) (x : option node), q ∈ l ∧ x = None).
  assert (∀ s, Forall (λ q, s !! q = None) l ↔ fixed G s) as HG.
  { intros s. rewrite Forall_forall. split; [by intros H q x [Hq ->]; apply H|by intros H q Hq; apply H]. }
  eapply triple_weaken; [apply (Hm G)| |intros ? s|intros s..]; try (by intros; apply HG).
  - intros q Hq x [Hin _]. rewrite Forall_forall in Hl. by destruct (package_dirs_below t q (Hl q Hin)) as (_ & _ & _ & ?).
  - intros q Hq x [Hin _]. rewrite Forall_forall in Hl. by destruct (package_dirs_below t q (Hl q Hin)) as (_ & _ & ? & _).
Qed.

Lemma yields_assembled t d n m0 version epoch environment :
  s0 !! temporary R t = None → follow n = Some (File d m0) →
  let exe := executable_of (path_join (temporary R t) (str "target")) (str RELEASE_TARGET) in
  yields (λ s, absent (package_dirs t) s ∧ fixed (also (before_publishing scratch s0 output) exe (Some n)) s)
    (assemble R (package_in t) exe environment version epoch)
    (λ _ s, ∃ mp mb m, fixed (packaged (before_publishing scratch s0 output) (package_in t) d mp mb m) s).
Proof using Halone effects laws Hplaced Hregular.
  intros Ht Hn exe. pose proof (zone_before_publishing R scratch s0 output Hplaced t Ht) as Hz.
  destruct (package_clean t) as [Hp Hu]. pose proof (open_zone_sub _ _ _ Hz Hu) as Hzp.
  assert (∀ q, scratch q → free (before_publishing scratch s0 output) q) as Hs.
  { intros q Hq x [[? _] _]. done. }
  assert (under (package_in t) (path_join (package_in t) (str "bin/luhmen"))) as Hbl by by apply under_join; [apply Hp|].
  assert (under (path_join (temporary R t) (str "target")) exe) as Hexe.
  { eapply under_trans; apply under_join; try done; apply path_join_nonempty; [|apply path_join_nonempty]; apply (regular_temporary Hregular). }
  eapply (yields_bind _ _ _ (λ _ s, ∃ mp mb m, fixed (packaged (before_publishing scratch s0 output) (package_in t) d mp mb m) s)).
  - eapply yields_weaken; [apply (yields_add_binary (also (before_publishing scratch s0 output) exe (Some n)) (package_in t) exe n d m0)| |].
    + done.
    + by right.
    + done.
    + apply free_also; [by apply Hzp|]. intros E.
      destruct (beside (temporary R t) (str "target") (str "package") exe) as [_ H];
        [apply (regular_temporary Hregular)|apply package_entry..|by apply (bool_decide_unpack _)|done|].
      apply H. by rewrite <-E.
    + by apply makeable_also, Hzp, under_join; [apply Hp|].
    + done.
    + intros [] s (mp & mb & m & H). exists mp, mb, m. eapply fixed_weaken; [|exact H].
      intros q x [[[Hx|Hx]|Hx]|Hx]; [by left; left; left; left|by left; left; right|by left; right|by right].
  - intros []. apply triple_exists. intros mp. apply triple_exists. intros mb. apply triple_exists. intros m.
    set (P := fixed (packaged (before_publishing scratch s0 output) (package_in t) d mp mb m)).
    assert (keeps P (add_texts R (package_in t) environment version epoch)) as Hk
      by (apply keeps_texts; [done..|intros q; by apply scratch_off]).
    apply (yields_weaken P P _ (λ _, P)); [by apply keeps_step|done|]. intros [] s H. by exists mp, mb, m.
Qed.

(** What is known of the output when the archives are made. *)
Lemma vacated_before t d mp mb m s :
  vacant s0 output → fixed (packaged (before_publishing scratch s0 output) (package_in t) d mp mb m) s →
  absent [output] s ∧ fixed (vacated output (known t d mp mb m)) s.
Proof using Hplaced Hregular.
  intros Hvac Hs. assert (∀ q, under output q → ¬ scratch q) as Hsc.
  { intros q Hq Hq'. destruct (placed_scratch _ _ _ _ Hplaced q Hq') as [H _]. unfold under in Hq. congruence. }
  split.
  - constructor; [|constructor]. rewrite (Hs output (s0 !! output)); [done|].
    left. left. left. split; [split; [by apply Hsc, under_self|done]|right; apply under_self].
  - intros q y [[[[Hy|Hy]|Hy]|Hy]|(Hq & Hne & ->)]; apply Hs;
      [left; left; left; by destruct Hy as [? ?]; split; [|left]|by left; left; right|by left; right|by right|].
    left. left. left. split; [split; [by apply Hsc|]|by right].
    by rewrite (output_vacant R scratch s0 output Hplaced q Hvac Hq Hne).
Qed.

(** What is published, and what was built for it while every file that was there was as it was. *)
Abbreviation built_from_source := (built_by (kept scratch s0) (str RELEASE_TARGET)).

Lemma yields_build t :
  s0 !! temporary R t = None →
  yields (λ s, empty_below scratch (temporary R t) s ∧ fixed (before_publishing scratch s0 output) s)
    (build_release R (repo R) (path_join (temporary R t) (str "target")) (Some (str RELEASE_TARGET)))
    (λ r s, ∃ d n m, (built_from_source d ∧
        r.1 = executable_of (path_join (temporary R t) (str "target")) (str RELEASE_TARGET) ∧ follow n = Some (File d m)) ∧
      absent (package_dirs t) s ∧ fixed (also (before_publishing scratch s0 output) r.1 (Some n)) s).
Proof using Halone effects laws Hplaced Hregular.
  intros Ht. pose proof (zone_before_publishing R scratch s0 output Hplaced t Ht) as Hz.
  destruct (placed_temp _ _ _ _ Hplaced t) as [Ha _].
  assert (under (temporary R t) (path_join (temporary R t) (str "target"))) as Hu
    by (apply under_join; [apply (regular_temporary Hregular)|done]).
  eapply yields_weaken.
  - apply yields_keeping.
    + apply (yields_build_release (before_publishing scratch s0 output)); [intros q Hq x [[? _] _]; done|by rewrite (under_absolute _ _ Hu)|].
      intros q Hq. apply Hz. by eapply under_trans.
    + apply (keeps_absent t (package_dirs t)); [|by apply Forall_forall].
      intros G Hs Hf. by eapply keeps_build_release; [..|rewrite (under_absolute _ _ Hu)|].
  - intros s [He Hs]. split; [done|]. apply Forall_forall. intros q Hq.
    destruct (package_dirs_below t q Hq) as (? & ? & _ & ?). by apply He.
  - intros [exe environment] s [(d & n & m & (Hb & He & Hn) & Hs) Habs]. exists d, n, m. split; [|split; [|done]].
    + split; [|done]. eapply built_by_weaken; [|exact Hb]. by intros q x [? ?]; split; [|left].
    + eapply Forall_impl; [exact Habs|]. by intros q ->.
Qed.

Lemma yields_build_and_publish t version epoch :
  "/"%char ∉ version → vacant s0 output → s0 !! temporary R t = None →
  yields (λ s, empty_below scratch (temporary R t) s ∧ fixed (before_publishing scratch s0 output) s)
    (build_and_publish R output (temporary R t) version epoch)
    (λ _ s, ∃ built, built_from_source built ∧ published s0 output version epoch built s).
Proof using Halone effects laws Hplaced Hregular.
  intros Hv Hvac Ht. eapply yields_bind; [by apply yields_build|].
  intros [exe environment]. apply triple_exists. intros d. apply triple_exists. intros n. apply triple_exists. intros m0.
  apply yields_pure. simpl. intros (Hd & -> & Hn). pose proof (built_nonempty _ _ _ Hd) as Hne.
  eapply yields_bind; [by apply (yields_assembled t d n m0)|]. intros [].
  apply triple_exists. intros mp. apply triple_exists. intros mb. apply triple_exists. intros m.
  apply (yields_weaken (λ s, absent [output] s ∧ fixed (vacated output (known t d mp mb m)) s) _ _
    (λ _ s, published s0 output version epoch d s));
    [|intros s; by apply (vacated_before t d mp mb m)|intros [] s Hs; exists d; split; [done|exact Hs]].
  apply yields_publish with (package := package_in t) (K := known t d mp mb m) (mp := mp) (mb := mb) (m := m);
    [apply (regular_output Hregular)|apply package_clean|by apply known_scratch|by apply known_free|apply known_makeable
    | |done| |apply (regular_committed Hregular)|done].
  - intros q n' Hs Hq. left. left. left. split; [split; [done|by rewrite Hq]|done].
  - intros q y [[[[]|Hy]|Hy]|Hy]; [by left; left; right|by left; right|by right].
Qed.

Lemma keeps_exactly l t : keeps (holds_exactly output l) (remove_dir_all R (temporary R t)).
Proof using Halone Hplaced Hregular.
  set (G := λ mo, holding output (λ _ _, False) mo l).
  assert (∀ mo, keeps (fixed (G mo)) (remove_dir_all R (temporary R t))) as Hk.
  { intros mo. apply (keeps_remove R Halone). split; [apply (regular_temporary Hregular)|]. split.
    - intros q Hq x [[]|[[-> _]|(Hu & _)]]; eapply (apart_contradiction R scratch s0 output Hplaced t); [apply under_self|done..].
    - intros p Hp q [Hq _]%ancestors_under [[]|[[_ [=]]|(Hu & _)]].
      eapply (apart_contradiction R scratch s0 output Hplaced t); [by eapply under_trans|done]. }
  assert (∀ s, holds_exactly output l s → ∃ mo, fixed (G mo) s) as Hin.
  { intros s [[mo Ho] Hl]. exists mo. intros q x [[]|[[-> ->]|(Hu & Hne & ->)]]; [done|by apply Hl]. }
  assert (∀ mo s, fixed (G mo) s → holds_exactly output l s) as Hout by (intros mo s; apply holding_exactly).
  eapply triple_weaken; [apply (triple_exists (λ mo, fixed (G mo)) _ (λ _, holds_exactly output l)
    (holds_exactly output l) (holds_exactly output l))|exact Hin|done..].
  intros mo. apply (triple_weaken (fixed (G mo)) (fixed (G mo)) _ (λ _, fixed (G mo)) _ (fixed (G mo)) _ (fixed (G mo)));
    [apply Hk|done|intros _ s; apply Hout|intros s; apply Hout|intros s; apply Hout].
Qed.

(** C14. What a release that succeeds has made. The output holds exactly the binary archive, the source
    archive and their checksums, one line each in order, of the bytes that are there. The executable in
    the binary archive is the one that Cargo built from the files that were there when the release
    began, in a build that succeeded, and it was found to have no path of the build in it. The source
    archive is made of the files Git lists, as they were when the release began. The release has
    refused an output that was there, unless the look at it failed. *)
Theorem release_publishes :
  vacant s0 output ∨ no_faults R →
  triple (λ s, s = s0) (release R output)
    (λ _ s, ∃ version epoch built, built_from_source built ∧ published s0 output version epoch built s)
    (λ _, True) (λ _, True).
Proof using Halone effects laws Hplaced Hregular.
  intros Hsure. apply (triple_pre (fixed (untouched scratch s0))); [|by intros s -> q x [_ ->]].
  eapply triple_bind; [eapply triple_post; [by apply prepare_spec|intros r s H; exact H|done|done]|].
  intros [[version epoch] tmp]. apply triple_pure. intros (Hvac0 & (t & E & Ht) & out & v & Hp & Hver). simpl in *. subst tmp.
  assert (vacant s0 output) as Hvac by tauto.
  assert ("/"%char ∉ version) as Hv by by eapply (regular_version Hregular).
  eapply (yields_bind _ _ _ (λ r s, match r with
    | Ok _ => ∃ built, built_from_source built ∧ published s0 output version epoch built s
    | Err _ => True end)).
  - apply triple_attempt. eapply triple_post; [by apply yields_build_and_publish|done|done|done].
  - intros [[]|e]; [|by intros w _; unfold mbind, M_bind; destruct (attempt _ w) as [[a|e'|] w']].
    apply triple_exists. intros built. apply triple_pure. intros Hb.
    do 5 (apply triple_exists; intros ?). apply triple_pure. intros H1. apply triple_pure. intros H2.
    apply yields_keeps; [by apply keeps_attempt, keeps_exactly|]. intros _. apply yields_ret. intros s Hs.
    exists version, epoch, built. split; [done|]. by do 5 eexists.
Qed.
End whole.
End result.

(** ** A release *)

Definition sample_effect (c : Invocation) (s : files) : files :=
  match assoc (str "CARGO_TARGET_DIR") (set_env c) with
  | Some (x :: d) => <[executable_of (x :: d) (str RELEASE_TARGET) := File (str "exe") (Meta 501 20 493)]> s
  | _ => s
  end.
(** Cargo builds for the one target. *)
Definition sample_success (c : Invocation) : bool :=
  match assoc (str "CARGO_TARGET_DIR") (set_env c) with
  | Some (_ :: _) => bool_decide (last (arguments c) = Some (str RELEASE_TARGET))
  | Some [] => false
  | None => true
  end.
Definition sample_print (c : Invocation) : bytes :=
  match c.(program), c.(arguments) with
  | p, a :: _ =>
      if decide (a = str "-s") then str "Darwin" ++ [newline]
      else if decide (a = str "-m") then str "arm64" ++ [newline]
      else if decide (a = str "status") then []
      else if decide (a = str "show") then str "1700000000" ++ [newline]
      else if decide (a = str "ls-files") then str "README.md" ++ ["000"%char] ++ str "LICENSE" ++ ["000"%char]
      else str "/v"
  | _, [] => str "/v"
  end.
Definition sample_dependency : Package :=
  {| id := str "dep"; package_name := str "dep"; version := str "2.0"; manifest_path := str "/d/Cargo.toml";
     license := Some (str "MIT"); repository := None; license_file := None |}.
Definition sample_tools : tools := {|
  os := quiet_environment; me := sample_process; repo := str "/r"; HOME := Some (str "/h"); CARGO_HOME := None;
  SOURCE_DATE_EPOCH := None; CARGO_TARGET_DIR := None; temp_dir := str "/t";
  host_paths := {| canonicalize := Ok; exists_at := λ _, true; is_dir := λ _, false; is_link := λ _, false |};
  sources _ := Subdirectory [(str "LICENSE", RegularFile (str "MIT") 420)]; source_size _ := None;
  answer _ c _ := Ok {| succeeded := sample_success c; printed := sample_print c |};
  effect _ := sample_effect; arrange _ l := l;
  parse_value _ := Ok (object [("packages", Array [object [("name", String (str "luhmen")); ("version", String (str "1.0"))]])]);
  parse_metadata _ := Ok ([], [sample_dependency]); print_pretty _ := Ok (str "{}");
  pack _ es := Ok (join (str ",") (map entry_path es)); unpack _ := Ok []; sha256_hex d := decimal (N.of_nat (length d));
  fresh _ := str "1"
|}.
Definition sample_dir : node := Directory (Meta 501 20 493).
Definition sample_file (d : string) : node := File (str d) (Meta 501 20 420).
Definition sample_disk : files := list_to_map
  ([(str "/", sample_dir); (str "/r", sample_dir); (str "/r/docs", sample_dir); (str "/t", sample_dir); (str "/d", sample_dir)] ++
   map (λ n, (str "/r/" ++ str n, sample_file n))
     ["README.md"; "CONTRIBUTING.md"; "SECURITY.md"; "LICENSE"; "NOTICE"; "THIRD_PARTY.md"; "docs/a.md"] ++
   [(str "/d/LICENSE", sample_file "MIT")]).
Definition sample_output : path := str "/o/dist".

Lemma sample_effects t c s q :
  effect sample_tools t c s !! q ≠ s !! q → False ∨ ∃ d, (str "CARGO_TARGET_DIR", d) ∈ set_env c ∧ under d q.
Proof.
  simpl. unfold sample_effect. destruct (assoc _ (set_env c)) as [[|x d]|] eqn:E; [done| |done].
  intros Hq. right. exists (x :: d). split.
  - revert E. generalize (set_env c). induction l as [|[a v] l IH]; simpl; [done|].
    destruct (decide _) as [->|]; [intros [= ->]; left|intros H; right; by apply IH].
  - destruct (decide (q = executable_of (x :: d) (str RELEASE_TARGET))) as [->|Hne]; [|by rewrite lookup_insert_ne in Hq].
    eapply under_trans; apply under_join; try done. by apply path_join_nonempty.
Qed.
Lemma sample_laws : lawful sample_tools.
Proof.
  split; [|done]. intros out members packages [= <- <-]. constructor; [|constructor].
  vm_compute. reflexivity.
Qed.

(** Nothing on the disk is under [p]. *)
Lemma sample_absent p q :
  forallb (λ x, negb (path_starts_with x.1 p)) (map_to_list sample_disk) = true → under p q → sample_disk !! q = None.
Proof.
  rewrite forallb_Forall, Forall_forall. intros Hp Hq. apply eq_None_not_Some. intros [n Hn].
  specialize (Hp (q, n) ltac:(by apply elem_of_map_to_list)). simpl in Hp. unfold under in Hq. by rewrite Hq in Hp.
Qed.
Lemma sample_placed : placed sample_tools (λ _, False) sample_disk sample_output.
Proof.
  split; [vm_compute; discriminate| |..|by intros q []].
  - intros t. split; [vm_compute; reflexivity|vm_compute; discriminate].
  - intros _ q Hq _. eapply sample_absent; [|exact Hq]. vm_compute. reflexivity.
  - intros t _ q Hq _. eapply sample_absent; [|exact Hq]. vm_compute. reflexivity.
  - intros t. split; vm_compute; reflexivity.
Qed.
Lemma sample_clean p : bool_decide (p ≠ []) && negb (ends_with (str "/") p) &&
  bool_decide (path_of (is_absolute p) (names p) = p) && bool_decide (names p ≠ []) = true → clean p.
Proof. rewrite !andb_true_iff, !bool_decide_eq_true, negb_true_iff. intros [[[? ?] ?] ?]. done. Qed.
Lemma sample_regular : regular sample_tools (λ _, False) sample_disk sample_output.
Proof.
  split.
  - apply sample_clean. vm_compute. reflexivity.
  - intros t. apply sample_clean. vm_compute. reflexivity.
  - intros t s o [= <-] n Hn. split; [by intros []|].
    assert (n ∈ [str "README.md"; str "LICENSE"]) as Hn'.
    { assert (listed (sample_print (git sample_tools ["ls-files"; "-z"])) = [str "README.md"; str "LICENSE"]) as E
        by (vm_compute; reflexivity). simpl in Hn. by rewrite E in Hn. }
    apply elem_of_cons in Hn' as [->|Hn']; [vm_compute; eauto|].
    apply list_elem_of_singleton in Hn' as ->. vm_compute. eauto.
  - intros out v version [= <-] [= <-]. apply (bool_decide_unpack _). vm_compute. reflexivity.
  - intros t s o repo_ target dir mappings c [= <-]. unfold sample_success. simpl.
    destruct dir as [|x d]; [done|]. intros Ht%bool_decide_eq_true. injection Ht as ->.
    unfold sample_effect. simpl. unfold data_at. rewrite lookup_insert_eq. by intros [=].
Qed.

Lemma release_publishes_witness :
  match release sample_tools sample_output (World 0 sample_disk []) with
  | (Ret _, w) =>
      fs w !! str "/o/dist/SHA256SUMS" =
        Some (File (str "745  luhmen-1.0-aarch64-apple-darwin.tar.gz" ++ [newline] ++ str "53  luhmen-1.0-source.tar.gz" ++ [newline])
                (Meta 501 20 420)) ∧
      ∃ version epoch built, built_by sample_tools (kept (λ _, False) sample_disk) (str RELEASE_TARGET) built ∧
        published sample_tools sample_disk sample_output version epoch built (fs w)
  | _ => False
  end.
Proof.
  pose proof (release_publishes sample_tools (proj2 quiet_faultless) (λ _, False) sample_effects sample_laws
    sample_disk sample_output sample_placed sample_regular (or_intror (proj1 quiet_faultless)) (World 0 sample_disk []) eq_refl) as H.
  destruct (release _ _ _) as [[u|e|] w] eqn:E.
  - split; [|exact H]. apply (f_equal (λ x, fs x.2 !! str "/o/dist/SHA256SUMS")) in E. vm_compute in E. symmetry. exact E.
  - apply (f_equal fst) in E. vm_compute in E. discriminate E.
  - apply (f_equal fst) in E. vm_compute in E. discriminate E.
Defined.

(** A release into a directory that is there is refused. *)
Lemma release_preserves_witness :
  let R := sample_tools in
  let disk := <[str "/o/dist" := sample_dir]> sample_disk in
  match release sample_tools (str "/o/dist") (World 0 disk []) with
  | (Throw e, w) => e = "release output must not already exist" ∧ fixed (untouched (λ _, False) disk) (fs w)
  | _ => False
  end.
Proof.
  intros R disk.
  assert (placed R (λ _, False) disk (str "/o/dist")) as Hplaced.
  { split; [vm_compute; discriminate| |..|by intros q []].
    - intros t. split; [vm_compute; reflexivity|vm_compute; discriminate].
    - intros H. destruct (H (Meta 501 20 493)). vm_compute. reflexivity.
    - intros t _ q Hq _. unfold disk. rewrite lookup_insert_ne; [|intros <-; vm_compute in Hq; discriminate Hq].
      eapply sample_absent; [|exact Hq]. vm_compute. reflexivity.
    - intros t. split; vm_compute; reflexivity. }
  assert (¬ vacant disk (str "/o/dist")) as Hv by (intros H; vm_compute in H; discriminate H).
  pose proof (proj2 (release_preserves R (proj2 quiet_faultless) (λ _, False) sample_effects sample_laws
    disk (str "/o/dist") Hplaced) (proj1 quiet_faultless) Hv (World 0 disk []) eq_refl) as H.
  destruct (release _ _ _) as [[u|e|] w] eqn:E.
  - destruct H.
  - split; [|exact H]. apply (f_equal fst) in E. vm_compute in E. injection E as <-. reflexivity.
  - apply (f_equal fst) in E. vm_compute in E. discriminate E.
Defined.
