(* ===== verification/Build.v ===== *)
(** * The build script (build.rs)

    It compiles the guest helper for Linux with the linker that comes with rustc
    and writes the encoded executable for the crate to include. What [expect] and
    [assert!] panic about is an error here. *)

From S2P Require Import Prelude Text Fs Paths Config ConfigSpec Trees Base64 Distribution Release ReleaseSpec ReleaseResult.

Section build.
Context (R : tools).
(** [OUT_DIR] and [RUSTC]. *)
Context (OUT_DIR : option path) (RUSTC : option bytes).

Definition command (p : bytes) (args : list bytes) : Invocation :=
  {| program := p; arguments := args; directory := None; set_env := []; unset_env := [] |}.

(** The status of [rustc --print] is not looked at. *)
Definition printed_by (rustc argument : bytes) : M bytes :=
  let c := command rustc [str "--print"; argument] in
  _ ← starting c;
  o ← output R c;
  _ ← guard (utf8_valid (printed o)) "UTF-8 rustc output";
  mret (trim (printed o)).
Definition rust_lld (rustc : bytes) : M path :=
  sysroot ← printed_by rustc (str "sysroot");
  host ← printed_by rustc (str "host-tuple");
  mret (path_join (path_join (path_join sysroot (str "lib/rustlib")) host) (str "bin/rust-lld")).

Definition compile_arguments (linker executable : path) : list bytes :=
  map str ["guest/docker-shutdown.rs"; "--edition=2024"; "--target=aarch64-unknown-linux-musl"; "-Cpanic=abort";
           "-Copt-level=s"; "-Cstrip=symbols"; "-Clink-self-contained=yes"]
  ++ [str "-Clinker=" ++ linker; str "-o"; executable].

Definition rustc_of : bytes :=
  match RUSTC with Some r => if utf8_valid r then r else str "rustc" | None => str "rustc" end.
Definition main : M unit :=
  out ← lift (ok_or OUT_DIR "OUT_DIR");
  let executable := path_join out (str "luhmen-docker-shutdown") in
  let rustc := rustc_of in
  linker ← rust_lld rustc;
  let compile := command rustc (compile_arguments linker executable) in
  _ ← starting compile;
  o ← output R compile;
  _ ← guard (succeeded o)
        "failed to compile the Linux guest helper; run `rustup target add aarch64-unknown-linux-musl`";
  helper ← read_file R executable;
  write R (path_join out (str "luhmen-docker-shutdown.b64")) (encode_base64 helper).

(** ** What is embedded *)

Context (Halone : alone R).

(** What the world is after a command, and after a call that looks or edits. *)
Lemma starting_Ret c w u w' : starting c w = (Ret u, w') → w' = World (tick w) (fs w) (ran w ++ [program c :: arguments c]).
Proof using. by intros [= <-]. Qed.
Lemma call_Ret {A : Type} partial (f : files → result A * files) w a w' :
  call R partial f w = (Ret a, w') → ∃ s', f (fs w) = (Ok a, s') ∧ w' = World (S (tick w)) s' (ran w).
Proof using Halone.
  unfold call. rewrite Halone. destruct (fate_at R (tick w)); [|done..].
  destruct (f (fs w)) as [[x|e] s']; [|done]. intros [= <- <-]. eauto.
Qed.
Lemma output_Ret c w o w' :
  output R c w = (Ret o, w') →
  answer R (tick w) c (fs w) = Ok o ∧ w' = World (S (tick w)) (effect R (tick w) c (fs w)) (ran w).
Proof using Halone. by intros (s' & [= Ho <-] & ->)%call_Ret. Qed.

(** A run of rustc has printed this, blanks aside. *)
Definition has_printed (argument x : bytes) : Prop :=
  ∃ t s o, answer R t (command rustc_of [str "--print"; argument]) s = Ok o ∧ x = trim (printed o).
Abbreviation asked argument := ([rustc_of; str "--print"; argument]).

Lemma printed_by_Ret argument w x w' :
  printed_by rustc_of argument w = (Ret x, w') → has_printed argument x ∧ ran w' = ran w ++ [asked argument].
Proof using Halone.
  intros ([] & w1 & ->%starting_Ret & H)%bind_Ret. apply bind_Ret in H as (o & w2 & [Ho ->]%output_Ret & H).
  apply bind_Ret in H as ([] & w3 & [_ ->]%guard_Ret & [= <- <-]). split; [|done]. by eexists _, _, o.
Qed.

(** C38. When the build succeeds it has asked rustc for its sysroot and its host and has compiled the
    guest helper with the linker found there, in this order and with nothing after; the compilation
    succeeded; and the files are as it left them but for the text the crate includes, which decodes to
    the executable that was compiled. *)
Theorem build_embeds out w w' :
  OUT_DIR = Some out → out ≠ [] → main w = (Ret (), w') →
  let executable := path_join out (str "luhmen-docker-shutdown") in
  let embedded := path_join out (str "luhmen-docker-shutdown.b64") in
  ∃ sysroot host t s o helper text m,
    let linker := path_join (path_join (path_join sysroot (str "lib/rustlib")) host) (str "bin/rust-lld") in
    let compile := command rustc_of (compile_arguments linker executable) in
    has_printed (str "sysroot") sysroot ∧ has_printed (str "host-tuple") host ∧
    ran w' = ran w ++ [asked (str "sysroot"); asked (str "host-tuple"); program compile :: arguments compile] ∧
    answer R t compile s = Ok o ∧ succeeded o = true ∧
    fs w' = <[embedded := File text m]> (effect R t compile s) ∧
    data_at (effect R t compile s) executable = Some helper ∧ decode_base64 text = Some helper ∧
    data_at (fs w') executable = Some helper.
Proof using Halone.
  intros Hdir Hout H executable embedded. unfold main in H. rewrite Hdir in H. simpl in H.
  apply bind_Ret in H as (out' & w0 & [= <- <-] & H).
  apply bind_Ret in H as (linker & w1 & Hl & H).
  apply bind_Ret in Hl as (sysroot & w2 & [Hsys R2]%printed_by_Ret & Hl).
  apply bind_Ret in Hl as (host & w3 & [Hhost R3]%printed_by_Ret & [= <- <-]).
  apply bind_Ret in H as ([] & w4 & ->%starting_Ret & H).
  apply bind_Ret in H as (o & w5 & [Ho ->]%output_Ret & H).
  apply bind_Ret in H as ([] & w6 & [Hok ->]%guard_Ret & H).
  apply bind_Ret in H as (helper & w7 & (s1 & Hh & ->)%call_Ret & H).
  injection Hh as Hh <-. simpl in *.
  apply call_Ret in H as (s2 & ->%place_Ok & ->). simpl in *.
  unfold ok_or in Hh. destruct (data_at _ _) as [x|] eqn:Ed; [|done]. injection Hh as ->.
  eexists sysroot, host, _, _, o, helper, _, _. split_and!; [done|done| |exact Ho|done|reflexivity|done| |].
  - by rewrite R3, R2, <-!app_assoc.
  - apply base64_decodes.
  - unfold data_at in *. rewrite lookup_insert_ne; [done|]. intros E. apply (f_equal length) in E.
    unfold executable, embedded, path_join in E. simpl in E.
    destruct (_ || _) in E; rewrite !length_app in E; discriminate E || (simpl in E; lia).
Qed.
End build.

(** ** A build *)

Definition compiler_effect (c : Invocation) (s : files) : files :=
  match last (arguments c) with
  | Some p => if decide (str "-o" ∈ arguments c) then <[p := File (str "ELF") (Meta 501 20 493)]> s else s
  | None => s
  end.
Definition compiler : tools := {|
  os := quiet_environment; me := sample_process; repo := str "/r"; HOME := None; CARGO_HOME := None;
  SOURCE_DATE_EPOCH := None; CARGO_TARGET_DIR := None; temp_dir := str "/t"; host_paths := plain_host;
  sources _ := Subdirectory []; source_size _ := None;
  answer _ _ _ := Ok {| succeeded := true; printed := str "/v" ++ [newline] |}; effect _ := compiler_effect;
  arrange _ l := l; parse_value _ := Err "none"; parse_metadata _ := Err "none"; print_pretty _ := Err "none";
  pack _ _ := Err "none"; unpack _ := Err "none"; sha256_hex d := d; fresh _ := str "1"
|}.

Lemma build_embeds_witness :
  match main compiler (Some (str "/out")) None (World 0 {[str "/out" := sample_dir]} []) with
  | (Ret _, w) =>
      fs w !! str "/out/luhmen-docker-shutdown.b64" = Some (File (str "RUxG" ++ [newline]) (Meta 501 20 420)) ∧
      data_at (fs w) (str "/out/luhmen-docker-shutdown") = Some (str "ELF") ∧ length (ran w) = 3
  | _ => False
  end.
Proof.
  set (w0 := World 0 {[str "/out" := sample_dir]} []).
  destruct (main compiler (Some (str "/out")) None w0) as [o w] eqn:E.
  assert (o = Ret ()) as -> by (apply (f_equal fst) in E; vm_compute in E; symmetry; exact E).
  destruct (build_embeds compiler (Some (str "/out")) None (proj2 quiet_faultless) (str "/out") w0 w eq_refl
    ltac:(vm_compute; discriminate) E) as (sysroot & host & t & s & out & helper & text & m & _ & _ & Hran & _ & _ & _ & Hh & _ & He).
  split; [apply (f_equal (λ x, fs x.2 !! str "/out/luhmen-docker-shutdown.b64")) in E; vm_compute in E; symmetry; exact E|].
  split; [|rewrite Hran; reflexivity].
  apply (f_equal (λ x, data_at (fs x.2) (str "/out/luhmen-docker-shutdown"))) in E. vm_compute in E. symmetry. exact E.
Defined.
