(* ===== verification/Harness.v ===== *)
(** * The integration harness (src/src/devtool/vm.rs)

    The smoke and performance suites drive Docker in a VM that may hold someone's
    work. A session records every command and what it answered, and every file
    that was written. Other steps of the suites (directories, sockets, the clock)
    are asked of the environment by name. What is printed is left out. *)

From S2P Require Import Prelude Text Paths Value.

Definition IMAGE : bytes :=
  str "busybox:1.37.0@sha256:f10e809bcf667d8e9f01d2baf82869049a495cd448cdfe1f4dee94078b960ae9".
Definition CONTEXT_DESCRIPTION : bytes := str "luhmen managed Docker Engine (schema 1)".
Definition SMOKE_LABEL : string := "io.luhmen.smoke.run".
Definition PERF_LABEL : string := "io.luhmen.perf.run".

Record Output := { success : bool; stdout : bytes; stderr : bytes }.
(** [std::process::Command]: the program and its arguments, [current_dir], and the environment. *)
Record Command := { line : list bytes; working_dir : option bytes; environment : list (bytes * bytes) }.
(** A command and its outcome: an error when it could not be run. *)
Record event := Event { issued : Command; outcome : result Output }.
(** What has been run and written, the oldest first, and [containers] of the performance suite. *)
Record session := Session { history : list event; containers : list bytes; written : list (bytes * bytes) }.

Definition T (A : Type) : Type := session → result A * session.
#[export] Instance T_ret : MRet T := λ A a s, (Ok a, s).
#[export] Instance T_bind : MBind T := λ A B f m s,
  match m s with (Ok a, s) => f a s | (Err e, s) => (Err e, s) end.
Definition lift {A : Type} (r : result A) : T A := λ s, (r, s).
Definition attempt {A : Type} (m : T A) : T (result A) := λ s, let '(r, s) := m s in (Ok r, s).

(** ** The environment of the commands *)

(** The variables that would send a command to another engine, builder or project. *)
Definition removed_variables : list bytes :=
  map str ["DOCKER_HOST"; "DOCKER_CONTEXT"; "DOCKER_TLS_VERIFY"; "DOCKER_CERT_PATH"; "BUILDX_BUILDER"; "BUILDKIT_HOST";
           "DOCKER_DEFAULT_PLATFORM"; "COMPOSE_PROJECT_NAME"; "COMPOSE_FILE"; "COMPOSE_PROFILES"; "COMPOSE_ENV_FILES"].
Definition clean_environment (c : Command) : Command :=
  {| line := line c; working_dir := working_dir c;
     environment := filter (λ x, x.1 ∉ removed_variables) (environment c) |}.
Definition args (l : list bytes) (c : Command) : Command :=
  {| line := line c ++ l; working_dir := working_dir c; environment := environment c |}.
Definition current_dir (d : bytes) (c : Command) : Command :=
  {| line := line c; working_dir := Some d; environment := environment c |}.

(** ** Names of a run *)

Definition hex_digit (n : N) : ascii := nth (N.to_nat n) (str "0123456789abcdef") "0"%char.
(** [{:x}] of a [u64], which has at most 16 digits. *)
Fixpoint hex_go (digits : nat) (n : N) (s : bytes) : bytes :=
  match digits with
  | O => s
  | S digits =>
      let s := hex_digit (n mod 16) :: s in
      if (n / 16 =? 0)%N then s else hex_go digits (n / 16) s
  end.
Definition hex (n : N) : bytes := hex_go 16 n [].
(** The first six bytes of a digest, the first one highest. *)
Definition leading (digest : bytes) : N :=
  foldl (λ n b, N.lor (N.shiftl n 8) (N_of_ascii b)) 0%N (take 6 digest).

(** [v[0]]. *)
Definition first (v : value) : value := match v with Array (x :: _) => x | _ => Null end.

Record Harness := {
  luhmen_ : bytes;
  docker_ : bytes;
  endpoint : bytes;
  fixture : bytes;
  run_id : bytes;
  label : string
}.

Definition owned_context (contexts : value) (endpoint : bytes) : bool :=
  match contexts with
  | Array [c] =>
      bool_decide (index c "Name" = String (str "luhmen"))
      && bool_decide (index (index (index c "Endpoints") "docker") "Host" = String endpoint)
      && bool_decide (index (index c "Metadata") "Description" = String CONTEXT_DESCRIPTION)
  | _ => false
  end.

(** The answer to the ping, and to a request of the fixture. *)
Definition crlf : bytes := ["013"; "010"]%char.
Definition ping_answered (response : bytes) : result unit :=
  ensure (starts_with (str "HTTP/1.1 200") response && ends_with (str "OK") response) "Engine API ping failed".
Fixpoint after_first (p s : bytes) : option bytes :=
  match strip_prefix p s with
  | Some rest => Some rest
  | None => match s with [] => None | _ :: s => after_first p s end
  end.
Fixpoint until_first (p s : bytes) : bytes :=
  match strip_prefix p s with
  | Some _ => []
  | None => match s with [] => [] | c :: s => c :: until_first p s end
  end.
(** [response.split(blank).nth(1).unwrap_or_default()]. *)
Definition http_body (response : bytes) : result bytes :=
  _ ← ensure (starts_with (str "HTTP/1.1 200") response) "HTTP fixture returned a non-200 response";
  Ok (default [] (until_first (crlf ++ crlf) <$> after_first (crlf ++ crlf) response)).

Section harness.
(** The environment the suite was started in; the outcome of a command after what has been run so
    far; [serde_json]; whether a file exists; the outcome of another step; how often a check is
    repeated before its deadline. *)
Context (inherited : list (bytes * bytes)).
Context (spawn : list event → Command → result Output) (parse : bytes → result value).
Context (look : list event → bytes → bool) (local : list event → bytes → result bytes).
Context (rounds : list event → nat).
Context (sha256 : bytes → bytes) (print_pretty : value → result bytes).

(** [Command::new]. *)
Definition new (program : bytes) : Command :=
  {| line := [program]; working_dir := None; environment := inherited |}.
Definition run (c : Command) (check : bool) : T Output := λ s,
  let r := spawn (history s) c in
  let s := Session (history s ++ [Event c r]) (containers s) (written s) in
  match r with
  | Ok o => if check && negb (success o) then (Err "command failed", s) else (Ok o, s)
  | Err e => (Err e, s)
  end.
Definition step (name : bytes) : T bytes := λ s, (local (history s) name, s).
Definition create_dir (p : bytes) : T unit := _ ← step (str "create_dir " ++ p); mret ().
Definition record (p data : bytes) : T unit :=
  λ s, (Ok (), Session (history s) (containers s) (written s ++ [(p, data)])).
Definition write (p data : bytes) : T unit := _ ← step (str "write " ++ p); record p data.
(** The clock gives the process and the time, with a dash between them. *)
Definition id (prefix : bytes) : T bytes :=
  seed ← step (str "now");
  mret (prefix ++ str "-" ++ hex (leading (sha256 (seed ++ str "-" ++ prefix)))).
(** A request to the address, and its answer. *)
Definition http_request (path : string) : bytes :=
  str "GET " ++ str path ++ str " HTTP/1.1" ++ crlf ++ str "Host: localhost" ++ crlf ++ str "Connection: close"
  ++ crlf ++ crlf.
Definition http_get (port : bytes) (path : string) : T bytes :=
  response ← step (str "127.0.0.1:" ++ port ++ str " " ++ http_request path);
  lift (http_body response).
Definition exists_ (p : bytes) : T bool := λ s, (Ok (look (history s) p), s).
Definition text (o : Output) : result bytes :=
  _ ← ensure (utf8_valid (stdout o)) "invalid utf-8 sequence"; Ok (trim (stdout o)).

Fixpoint eventually_go (n : nat) (check : T unit) (last : option string) : T unit :=
  match n with
  | O => lift (Err (default "readiness deadline expired" last))
  | S n => r ← attempt check;
           match r with Ok _ => mret () | Err e => eventually_go n check (Some e) end
  end.
Definition eventually (check : T unit) : T unit := λ s, eventually_go (rounds (history s)) check None s.

Section suite.
Context (h : Harness).

(** [Harness::command]. *)
Definition command (program : bytes) : Command := clean_environment (new program).
Definition verify_context : T unit :=
  o ← run (args (map str ["context"; "inspect"; "luhmen"]) (command (docker_ h))) true;
  contexts ← lift (parse (stdout o));
  lift (ensure (owned_context contexts (endpoint h))
          "Docker context ownership or endpoint changed; refusing operation").
Definition docker (arguments : list bytes) (check : bool) : T Output :=
  _ ← verify_context;
  let c := args arguments (args (map str ["--context"; "luhmen"]) (command (docker_ h))) in
  here ← exists_ (fixture h);
  run (if here : bool then current_dir (fixture h) c else c) check.
Definition docker_text (arguments : list bytes) : T bytes :=
  o ← docker arguments true; lift (text o).
Definition luhmen (arguments : list bytes) : T Output := run (args arguments (command (luhmen_ h))) true.
Definition guest (arguments : list bytes) : T bytes :=
  o ← luhmen (str "shell" :: arguments); lift (text o).

Definition container_label (label : string) (data : value) : value :=
  index (index (index (first data) "Config") "Labels") label.
Definition volume_label (label : string) (data : value) : value := index (index (first data) "Labels") label.

Fixpoint assert_owned (l : list bytes) : T unit :=
  match l with
  | [] => mret ()
  | container :: l =>
      o ← docker [str "inspect"; container] true;
      data ← lift (parse (stdout o));
      _ ← lift (ensure (bool_decide (container_label (label h) data = String (run_id h)))
                  "another workload appeared in luhmen; refusing a disruptive operation");
      assert_owned l
  end.
Definition listing : list bytes := map str ["ps"; "--all"; "--quiet"; "--no-trunc"].
Definition assert_owned_containers : T unit :=
  names ← docker_text listing;
  assert_owned (split_whitespace names).

(** ** Cleaning up *)

(** An object is removed when it is there and carries the label of this run. *)
Definition remove_owned (kind name : bytes) (label_of : value → value) (removal : list bytes)
    (refusal : string) : T unit :=
  found ← docker [kind; str "inspect"; name] false;
  if negb (success found) then mret () else
  o ← docker [kind; str "inspect"; name] true;
  data ← lift (parse (stdout o));
  _ ← lift (ensure (bool_decide (label_of data = String (run_id h))) refusal);
  _ ← docker removal true;
  mret ().

Definition remove_image (suffix : bytes) : T unit :=
  let image := run_id h ++ str "-" ++ suffix in
  remove_owned (str "image") image (container_label SMOKE_LABEL) [str "image"; str "rm"; image]
    "fixture image ownership changed; refusing removal".
Definition compose_file : bytes := path_join (fixture h) (str "compose.json").
Definition compose (arguments : list bytes) : list bytes :=
  [str "compose"; str "--project-name"; run_id h; str "--file"; compose_file] ++ arguments.
Fixpoint in_turn {A : Type} (f : A → T unit) (l : list A) : T unit :=
  match l with [] => mret () | x :: l => _ ← f x; in_turn f l end.

Definition smoke_cleanup : T unit :=
  present ← exists_ (fixture h);
  if negb present then mret () else
  _ ← verify_context;
  written ← exists_ compose_file;
  _ ← (if written : bool then _ ← docker (compose (map str ["down"; "--volumes"; "--timeout"; "20"])) true; mret ()
       else mret ());
  in_turn remove_image [str "app:smoke"; str "build:smoke"; str "proxy:smoke"].

Definition remove_container (name : bytes) : T unit :=
  remove_owned (str "container") name (container_label PERF_LABEL) [str "container"; str "rm"; str "--force"; name]
    "container ownership label changed".
Definition perf_cleanup (names : list bytes) (volume : bytes) : T unit :=
  _ ← in_turn remove_container (rev names);
  remove_owned (str "volume") volume (volume_label PERF_LABEL) [str "volume"; str "rm"; volume]
    "volume ownership label changed".

(** ** The smoke suite *)

Record SmokeArgs := { smoke_run : bool; recovery : bool; watchers : bool; slow_shutdown : bool }.

(** *** Its fixture *)

Definition texts (l : list string) : value := Array (map (λ s, String (str s)) l).
(** What marks the objects of this run. *)
Definition run_labels : value := object [(SMOKE_LABEL, String (run_id h))].
Definition data_volume : value :=
  object [("type", String (str "volume")); ("source", String (str "persistent")); ("target", String (str "/data"))].
Definition web_service (shared port : bytes) : value := object
  [("build", object [("context", String (str "."))]); ("image", String (run_id h ++ str "-app:smoke"));
   ("labels", run_labels); ("restart", String (str "unless-stopped"));
   ("ports", Array [String (str "127.0.0.1:" ++ port ++ str ":8080")]);
   ("cpus", Number (str "0.5")); ("mem_limit", String (str "128m")); ("pids_limit", Number (str "64"));
   ("volumes", Array [object [("type", String (str "bind")); ("source", String shared); ("target", String (str "/shared"))];
                      data_volume]);
   ("healthcheck", object [("test", texts ["CMD"; "wget"; "-q"; "-O"; "/dev/null"; "http://127.0.0.1:8080"]);
                           ("interval", String (str "2s")); ("timeout", String (str "2s")); ("retries", Number (str "20"))])].
Definition shutdown_script (token : bytes) : bytes :=
  str "trap 'if ! test -f /data/shutdown-proof; then sleep 32; fi; printf " ++ token
  ++ str " > /data/shutdown-proof; sync; exit 0' TERM; while :; do sleep 1; done".
Definition shutdown_service (token : bytes) : value := object
  [("image", String IMAGE); ("labels", run_labels); ("restart", String (str "unless-stopped"));
   ("stop_grace_period", String (str "40s")); ("network_mode", String (str "none")); ("volumes", Array [data_volume]);
   ("command", Array [String (str "sh"); String (str "-c"); String (shutdown_script token)])].
Definition compose_value (shared port token : bytes) (slow : bool) : value := object
  [("services", object (("web", web_service shared port) ::
                        (if slow then [("shutdown-proof", shutdown_service token)] else [])));
   ("volumes", object [("persistent", object [("labels", run_labels)])]);
   ("networks", object [("default", object [("labels", run_labels)])])].
Definition quoted (s : string) : bytes := "034"%char :: str s ++ ["034"%char].
Definition file_of (l : list bytes) : bytes := concat (map (λ x, x ++ ["010"%char]) l).
Definition label_line : bytes := str "LABEL " ++ str SMOKE_LABEL ++ str "=" ++ run_id h.
Definition dockerfile : bytes := file_of
  [str "FROM " ++ IMAGE; label_line; str "COPY index.html /www/index.html";
   str "RUN test -s /www/index.html && printf built > /built";
   str "CMD [" ++ join (str ",") (map quoted ["httpd"; "-f"; "-p"; "8080"; "-h"; "/www"]) ++ str "]"].

Definition create_fixture (args : SmokeArgs) : T (bytes * bytes) :=
  _ ← create_dir (fixture h);
  _ ← step (str "set_permissions 700 " ++ fixture h);
  let shared := path_join (fixture h) (str "shared") in
  _ ← create_dir shared;
  token ← id (str "token");
  _ ← write (path_join shared (str "host.txt")) token;
  _ ← write (path_join (fixture h) (str "index.html")) token;
  _ ← write (path_join (fixture h) (str "Dockerfile")) dockerfile;
  _ ← write (path_join (fixture h) (str ".dockerignore")) (file_of (map str ["*"; "!Dockerfile"; "!index.html"]));
  port ← step (str "free port");
  data ← lift (print_pretty (compose_value shared port token (slow_shutdown args)));
  _ ← write compose_file data;
  mret (token, port).

(** *** Its checks *)

Definition expect (b : bool) (e : string) : T unit := lift (ensure b e).
(** A request of the fixture's page. *)
Definition served (port expected : bytes) (e : string) : T unit :=
  body ← http_get port "/";
  expect (bool_decide (body = expected)) e.
Definition engine_ping : T unit :=
  path ← lift (ok_or (strip_prefix (str "unix://") (endpoint h)) "Docker endpoint is not a Unix socket");
  response ← step (path ++ str " " ++ http_request "/_ping");
  lift (ping_answered response).
Definition shell_text (container : bytes) (file : string) : T bytes :=
  docker_text [str "exec"; container; str "cat"; str file].
Definition main_pid : list bytes :=
  map str ["sudo"; "systemctl"; "show"; "docker.service"; "--property=MainPID"; "--value"].

Definition build_twice : T unit :=
  let build := [str "buildx"; str "build"; str "--builder"; str "luhmen"; str "--load"; str "--progress";
                str "plain"; str "--tag"; run_id h ++ str "-build:smoke"; str "."] in
  _ ← docker build true;
  o ← docker build true;
  expect (contains (str "CACHED") (stdout o) || contains (str "CACHED") (stderr o))
    "Buildx did not report a cached build step".
(** The file on the host that is watched from the guest, and the events it reports. The outcome of the
    command is what it comes to after the second write. *)
Definition watch : T bytes :=
  _ ← guest (map str ["sudo"; "apt-get"; "update"; "-o"; "APT::Update::Error-Mode=any"]);
  _ ← guest (map str ["sudo"; "apt-get"; "install"; "-y"; "--no-install-recommends"; "inotify-tools"]);
  let watched := path_join (path_join (fixture h) (str "shared")) (str "watcher.txt") in
  _ ← write watched (str "before");
  o ← run (args (map str ["shell"; "timeout"; "8"; "inotifywait"; "--monitor"; "--format"; "%e|%w%f"; "--event";
                          "modify,attrib"] ++ [watched]) (command (luhmen_ h))) false;
  _ ← write watched (str "after");
  lift (_ ← ensure (utf8_valid (stdout o)) "invalid utf-8 sequence"; Ok (stdout o)).
Definition recover : T unit :=
  before ← guest main_pid;
  _ ← guest (map str ["sudo"; "systemctl"; "kill"; "--kill-whom=main"; "--signal=SIGKILL"; "docker.service"]);
  eventually
    (current ← guest main_pid;
     _ ← expect (negb (bool_decide (current = before)) && (1 <? default 0 (parse_uint u32_max current))%Z)
           "waiting for Docker recovery";
     engine_ping).

(** The suite before the restart: the fixture's token and container. *)
Definition exercise (state : value) (args : SmokeArgs) : T (bytes * bytes * bytes) :=
  own ← luhmen [str "--version"];
  _ ← lift (text own);
  _ ← docker_text (map str ["version"; "--format"; "{{json .}}"]);
  _ ← docker_text (map str ["compose"; "version"; "--short"]);
  _ ← docker_text (map str ["buildx"; "version"]);
  '(token, port) ← create_fixture args;
  _ ← engine_ping;
  info ← docker_text (map str ["info"; "--format"; "{{json .}}"]);
  info ← lift (parse info);
  _ ← expect (bool_decide (index info "NCPU" = index (index state "config") "cpus"))
        "guest CPU count differs from configuration";
  _ ← docker (compose (map str ["up"; "--build"; "--detach"; "--wait"; "--wait-timeout"; "90"])) true;
  container ← docker_text (compose (map str ["ps"; "--quiet"; "web"]));
  _ ← eventually (served port token "wrong fixture response");
  seen ← shell_text container "/shared/host.txt";
  _ ← expect (bool_decide (seen = token)) "container could not read the host mount";
  let print_to file := [str "exec"; container; str "sh"; str "-c";
                        str "printf %s " ++ quoted "$1" ++ str " > " ++ str file; str "sh"; token] in
  _ ← docker (print_to "/shared/guest.txt") true;
  from_guest ← step (str "read " ++ path_join (path_join (fixture h) (str "shared")) (str "guest.txt"));
  _ ← expect (bool_decide (from_guest = token)) "host could not read the container write";
  _ ← docker (print_to "/data/probe") true;
  _ ← docker [str "exec"; container; str "nslookup"; str "host.docker.internal"] true;
  _ ← docker [str "exec"; container; str "nslookup"; str "web."] true;
  buildx ← docker_text (map str ["buildx"; "inspect"; "luhmen"]);
  _ ← expect (forallb (λ s, contains (str s) buildx) ["Driver:"; "docker"; "Endpoint:"; "luhmen"])
        "unexpected Buildx builder";
  _ ← build_twice;
  mret (token, port, container).

Definition smoke_inner (state : value) (args : SmokeArgs) : T unit :=
  '(token, port, container) ← exercise state args;
  _ ← (if watchers args then _ ← watch; mret () else mret ());
  _ ← assert_owned_containers;
  _ ← luhmen (map str ["restart"; "--json"]);
  _ ← eventually engine_ping;
  _ ← eventually (served port token "wrong response after restart");
  probe ← shell_text container "/data/probe";
  _ ← expect (bool_decide (probe = token)) "volume data changed across restart";
  _ ← (if slow_shutdown args then
         proof ← shell_text container "/data/shutdown-proof";
         _ ← expect (bool_decide (proof = token)) "container did not complete graceful shutdown";
         live ← docker_text (map str ["info"; "--format"; "{{.LiveRestoreEnabled}}"]);
         expect (bool_decide (live = str "true")) "live restore was not restored"
       else mret ());
  if recovery args then recover else mret ().

(** ** The performance suite *)

Record PerfArgs := { perf_run : bool; pull : bool; iterations : nat; files : Z; blob_mib : Z }.

Definition push (name : bytes) : T unit :=
  λ s, (Ok (), Session (history s) (containers s ++ [name]) (written s)).
Definition number (n : nat) : bytes := decimal (N.of_nat n).
Definition labelled : bytes := str PERF_LABEL ++ str "=" ++ run_id h.

Definition start_once (iteration : nat) (wrapper : bool) : T unit :=
  let name := run_id h ++ str "-start-" ++ (if wrapper then str "wrapper" else str "direct")
              ++ str "-" ++ number iteration in
  _ ← push name;
  let arguments := [str "run"; str "--name"; name; str "--label"; labelled; str "--platform=linux/arm64";
                    str "--rm"; str "--network=none"; IMAGE; str "true"] in
  if wrapper : bool then _ ← luhmen (str "docker" :: arguments); mret ()
  else _ ← docker arguments true; mret ().

(** The scripts of a workload; the last argument is the size it works with. *)
Definition workload (name script size : bytes) : T unit :=
  _ ← docker [str "exec"; name; str "sh"; str "-ec"; script; str "workload"; size] true; mret ().
Definition workload_scripts : list bytes :=
  [str "find /work/src -type f -exec stat -c %s {} + | sha256sum";
   str "find /work/src -type f -exec cat {} + | sha256sum";
   str "dd if=/dev/zero of=/work/blob bs=1048576 count=" ++ ["034"%char] ++ str "$1" ++ ["034"%char] ++ str " conv=fsync";
   str "tar -czf /work/package.tar.gz -C /work/src .; sha256sum /work/package.tar.gz"].
Definition seed_script : bytes :=
  str "mkdir -p /work/src; dd if=/dev/zero of=/work/seed bs=4096 count=1 2>/dev/null; i=0; while [ "
  ++ ["034"%char] ++ str "$i" ++ ["034"%char] ++ str " -lt " ++ ["034"%char] ++ str "$1" ++ ["034"%char]
  ++ str " ]; do cp /work/seed /work/src/f$i; i=$((i+1)); done".
Definition placement (args : PerfArgs) (x : string * bytes) : T unit :=
  let name := run_id h ++ str "-" ++ str x.1 in
  _ ← push name;
  _ ← docker [str "run"; str "--name"; name; str "--label"; labelled; str "--platform=linux/arm64";
              str "--detach"; str "--network=none"; str "--mount"; x.2; IMAGE; str "sleep"; str "900"] true;
  _ ← docker [str "exec"; name; str "sh"; str "-ec"; seed_script; str "seed"; decimal (Z.to_N (files args))] true;
  in_turn (λ _, in_turn (λ script, workload name script (decimal (Z.to_N (blob_mib args)))) workload_scripts)
    (seq 0 (S (iterations args))).

(** A page that is served in a container, and a new connection for each request of it. *)
Definition measure_http (args : PerfArgs) : T unit :=
  port ← step (str "free port");
  let name := run_id h ++ str "-http" in
  _ ← push name;
  _ ← docker [str "run"; str "--name"; name; str "--label"; labelled; str "--platform=linux/arm64";
              str "--detach"; str "--publish"; str "127.0.0.1:" ++ port ++ str ":8080"; IMAGE; str "sh"; str "-ec";
              str "mkdir /www; printf %s " ++ run_id h ++ str " > /www/index.html; exec httpd -f -p 8080 -h /www"] true;
  _ ← eventually (served port (run_id h) "wrong HTTP response");
  in_turn (λ _, _ ← http_get port "/"; mret ()) (seq 1 (iterations args * 5)).

Definition perf_inner (args : PerfArgs) (volume : bytes) : T unit :=
  image ← docker [str "image"; str "inspect"; IMAGE] false;
  _ ← (if success image then mret () else
         _ ← expect (pull args) "pinned BusyBox image is missing; pass --pull to download it";
         _ ← docker [str "pull"; str "--platform=linux/arm64"; IMAGE] true; mret ());
  _ ← create_dir (fixture h);
  own ← luhmen [str "--version"];
  _ ← lift (text own);
  _ ← step (str "read executable");
  _ ← guest [str "cat"; str "/proc/meminfo"];
  _ ← guest [str "cat"; str "/proc/meminfo"];
  _ ← in_turn (λ i, in_turn (start_once i) [Nat.even i; negb (Nat.even i)]) (seq 0 (S (iterations args)));
  _ ← docker [str "volume"; str "create"; str "--label"; labelled; volume] true;
  _ ← in_turn (placement args)
        [("bind", str "type=bind,source=" ++ fixture h ++ str ",target=/work");
         ("volume", str "type=volume,source=" ++ volume ++ str ",target=/work")];
  measure_http args.

End suite.

(** ** Before and after *)

(** Where the fixture may be: [root] is canonical, [canonicalize] may fail. *)
Definition mounted (canonicalize : bytes → option bytes) (root : bytes) (state : value) : bool :=
  match index (index state "config") "mounts" with
  | Array mounts =>
      existsb (λ m, bool_decide (index m "writable" = Bool true) &&
                    match as_str (index m "path") ≫= canonicalize with
                    | Some p => path_starts_with root p
                    | None => false
                    end) mounts
  | _ => false
  end.
Definition healthy (state : value) : bool :=
  bool_decide (index state "schema_version" = Number (str "1"))
  && bool_decide (index state "name" = String (str "luhmen"))
  && bool_decide (index state "context" = String (str "luhmen"))
  && bool_decide (index state "state" = String (str "Running"))
  && bool_decide (index state "context_ready" = Bool true)
  && bool_decide (index state "engine_ready" = Bool true).
Definition identified (vm : value) (directory endpoint : bytes) : bool :=
  bool_decide (index vm "name" = String (str "luhmen"))
  && bool_decide (index vm "vmType" = String (str "vz"))
  && bool_decide (index vm "arch" = String (str "aarch64"))
  && bool_decide (endpoint = str "unix://" ++ directory ++ str "/sock/docker.sock").

(** [is_directory] says whether the fixture root is one. *)
Context (canonicalize : bytes → option bytes) (is_directory : bool).
(** [LUHMEN_DOCKER], and the arguments of the suite. *)
Context (docker_program luhmen_program fixture_root : bytes).

Definition preflight (label : string) (prefix : bytes) : T (Harness * value) :=
  _ ← lift (ensure is_directory "--fixture-root must be an existing directory");
  o ← run (args (map str ["inspect"; "--json"]) (clean_environment (new luhmen_program))) true;
  state ← lift (parse (stdout o));
  _ ← lift (ensure (healthy state) "start a healthy, owned luhmen VM first");
  endpoint ← lift (ok_or (as_str (index state "endpoint")) "inspection has no endpoint");
  vm_directory ← lift (ok_or (as_str (index (index state "vm") "dir")) "inspection has no VM directory");
  _ ← lift (ensure (identified (index state "vm") vm_directory endpoint)
              "VM identity and Unix socket endpoint do not agree");
  root ← lift (ok_or (canonicalize fixture_root) "no such file");
  _ ← lift (ensure (mounted canonicalize root state)
              "--fixture-root must be inside a configured writable mount");
  id ← id prefix;
  let h := {| luhmen_ := luhmen_program; docker_ := docker_program; endpoint := endpoint;
              fixture := path_join root id; run_id := id; label := label |} in
  existing ← docker_text h (map str ["ps"; "--all"; "--quiet"]);
  _ ← lift (ensure (bool_decide (existing = [])) "remove existing containers before continuing");
  mret (h, state).

(** Whatever the suite comes to, what it made is removed. *)
Definition smoke (args : SmokeArgs) : T unit :=
  _ ← lift (ensure (smoke_run args) "No actions taken");
  '(h, state) ← preflight SMOKE_LABEL (str "luhmen-check");
  result ← attempt (smoke_inner h state args);
  cleanup ← attempt (smoke_cleanup h);
  _ ← lift cleanup;
  lift result.
Definition perf (args : PerfArgs) : T unit :=
  _ ← lift (ensure (perf_run args) "No actions taken");
  '(h, _) ← preflight PERF_LABEL (str "luhmen-perf");
  let volume := run_id h ++ str "-data" in
  result ← attempt (perf_inner h args volume);
  cleanup ← (λ s, attempt (perf_cleanup h (containers s) volume) s);
  lift (_ ← result; cleanup).

End harness.
