(* ===== verification/HarnessSpec.v ===== *)
(** * What the integration harness may do

    The suites run where someone may be working. Every command they give is one of
    a few kinds: it looks, or it makes, enters or removes what belongs to the run,
    or it restarts the VM when every container there is the run's own. *)

From S2P Require Import Prelude Text Paths Value Harness.

Create HintDb harness.

(** An element of a literal list. *)
Ltac member := solve [cbn [map]; repeat first [apply list_elem_of_here | apply list_elem_of_further]].

Section vouching.
Context (inherited : list (bytes * bytes)) (look : list event → bytes → bool).
Context (parse : bytes → result value) (h : Harness).

(** ** The commands of a run *)

(** The variables that would send a command to another engine, builder or project. *)
Definition redirecting : list bytes :=
  map str ["DOCKER_HOST"; "DOCKER_CONTEXT"; "DOCKER_TLS_VERIFY"; "DOCKER_CERT_PATH"; "BUILDX_BUILDER"; "BUILDKIT_HOST";
           "DOCKER_DEFAULT_PLATFORM"; "COMPOSE_PROJECT_NAME"; "COMPOSE_FILE"; "COMPOSE_PROFILES"; "COMPOSE_ENV_FILES"].

Definition inspecting_context : list bytes := docker_ h :: map str ["context"; "inspect"; "luhmen"].
Definition in_context (arguments : list bytes) : list bytes :=
  docker_ h :: str "--context" :: str "luhmen" :: arguments.

(** Names and labels of this run. *)
Definition ours (x : bytes) : Prop := ∃ suffix, x = run_id h ++ "-"%char :: suffix.
Definition own_label : bytes := str (label h) ++ str "=" ++ run_id h.

(** Docker commands that change nothing. *)
Inductive reading : list bytes → Prop :=
| Versions l : l ∈ [[str "version"; str "--format"; str "{{json .}}"]; map str ["compose"; "version"; "--short"];
                    map str ["buildx"; "version"]; map str ["buildx"; "inspect"; "luhmen"]] → reading l
| Info f : reading [str "info"; str "--format"; f]
| Listing l : reading (str "ps" :: l)
| Inspects x : reading [str "inspect"; x]
| InspectsObject kind x : kind ∈ map str ["image"; "container"; "volume"] → reading [kind; str "inspect"; x].

(** The options of a container: no network or one port of the loopback address, and no mount but the
    fixture or a volume of the run. *)
Inductive options : list bytes → Prop :=
| NoOption : options []
| Flag o l : o ∈ map str ["--rm"; "--detach"; "--network=none"] → options l → options (o :: l)
| BindsFixture l : options l →
    options (str "--mount" :: (str "type=bind,source=" ++ fixture h ++ str ",target=/work") :: l)
| MountsVolume v l : ours v → options l →
    options (str "--mount" :: (str "type=volume,source=" ++ v ++ str ",target=/work") :: l)
| Publishes port l : options l → options (str "--publish" :: (str "127.0.0.1:" ++ port ++ str ":8080") :: l).
(** A container of the pinned image with a name and the label of the run. *)
Inductive container_run : list bytes → Prop :=
| Runs name l script : ours name → options l →
    container_run ([str "run"; str "--name"; name; str "--label"; own_label; str "--platform=linux/arm64"]
                   ++ l ++ IMAGE :: script).

(** What is done to the Compose project of the run, with the file of its fixture. *)
Definition project (verb : list bytes) : list bytes :=
  [str "compose"; str "--project-name"; run_id h; str "--file"; path_join (fixture h) (str "compose.json")] ++ verb.
Definition listing_web : list bytes := project (map str ["ps"; "--quiet"; "web"]).
Definition project_verbs : list (list bytes) :=
  [map str ["up"; "--build"; "--detach"; "--wait"; "--wait-timeout"; "90"]; map str ["ps"; "--quiet"; "web"];
   map str ["down"; "--volumes"; "--timeout"; "20"]].

(** *** What has been seen before *)

(** The context was just found to be luhmen's. *)
Definition verified (e : event) : Prop :=
  line (issued e) = inspecting_context ∧
  ∃ o v, outcome e = Ok o ∧ parse (stdout o) = Ok v ∧ owned_context v (endpoint h) = true.
(** An object was inspected and carried the label of this run. *)
Definition inspected (inspection : list bytes) (label_of : string → value → value) (l : list event) : Prop :=
  ∃ e o v, e ∈ l ∧ line (issued e) = in_context inspection ∧ outcome e = Ok o ∧ parse (stdout o) = Ok v ∧
    label_of (label h) v = String (run_id h).
(** It has a name of the run, or Docker gave it as the container of the run's project. *)
Definition own_container (l : list event) (c : bytes) : Prop :=
  ours c ∨ ∃ e o, e ∈ l ∧ line (issued e) = in_context listing_web ∧ outcome e = Ok o ∧ c = trim (stdout o).
(** All containers were listed, each carried the label of the run, and nothing but looking has
    happened since. *)
Definition looks (e : event) : Prop :=
  line (issued e) = inspecting_context ∨ ∃ a, line (issued e) = in_context a ∧ reading a.
Definition all_ours (l : list event) : Prop :=
  ∃ l0 e o k, l = l0 ++ e :: k ∧ line (issued e) = in_context listing ∧ outcome e = Ok o ∧
    Forall (λ x, inspected [str "inspect"; x] container_label k) (split_whitespace (trim (stdout o))) ∧
    Forall looks k.
(** So it was at some point of the run. *)
Definition cleared (l : list event) : Prop := ∃ l0 k, l = l0 ++ k ∧ all_ours l0.

(** *** What a command needs *)

Inductive docker_allowed (before : list event) : list bytes → Prop :=
| Reads a : reading a → docker_allowed before a
| RunsOwn a : container_run a → docker_allowed before a
| CreatesVolume v : ours v → docker_allowed before [str "volume"; str "create"; str "--label"; own_label; v]
| Builds tag : ours tag →
    docker_allowed before (map str ["buildx"; "build"; "--builder"; "luhmen"; "--load"; "--progress"; "plain"; "--tag"]
                           ++ [tag; str "."])
| Pulls : docker_allowed before [str "pull"; str "--platform=linux/arm64"; IMAGE]
| Composes verb : verb ∈ project_verbs → docker_allowed before (project verb)
| Executes c l : own_container before c → docker_allowed before (str "exec" :: c :: l)
| RemovesImage x : inspected [str "image"; str "inspect"; x] container_label before →
    docker_allowed before [str "image"; str "rm"; x]
| RemovesContainer x : inspected [str "container"; str "inspect"; x] container_label before →
    docker_allowed before [str "container"; str "rm"; str "--force"; x]
| RemovesVolume x : inspected [str "volume"; str "inspect"; x] volume_label before →
    docker_allowed before [str "volume"; str "rm"; x].

Definition watched_file : bytes := path_join (path_join (fixture h) (str "shared")) (str "watcher.txt").
(** What is run in the guest: looks, the package and the command that watch a file of the fixture. *)
Definition guest_commands : list (list bytes) :=
  [map str ["cat"; "/proc/meminfo"];
   map str ["sudo"; "systemctl"; "show"; "docker.service"; "--property=MainPID"; "--value"];
   map str ["sudo"; "apt-get"; "update"; "-o"; "APT::Update::Error-Mode=any"];
   map str ["sudo"; "apt-get"; "install"; "-y"; "--no-install-recommends"; "inotify-tools"];
   map str ["timeout"; "8"; "inotifywait"; "--monitor"; "--format"; "%e|%w%f"; "--event"; "modify,attrib"] ++ [watched_file]].
Definition killing : list bytes :=
  map str ["sudo"; "systemctl"; "kill"; "--kill-whom=main"; "--signal=SIGKILL"; "docker.service"].

(** [luhmen docker] verifies the context itself ([docker_targets_vm] in [Cli]). *)
Inductive luhmen_allowed (before : list event) : list bytes → Prop :=
| ShowsVersion : luhmen_allowed before [str "--version"]
| InspectsVm : luhmen_allowed before (map str ["inspect"; "--json"])
| RunsThrough a : container_run a → luhmen_allowed before (str "docker" :: a)
| InGuest a : a ∈ guest_commands → luhmen_allowed before (str "shell" :: a)
| KillsDocker : cleared before → luhmen_allowed before (str "shell" :: killing)
| Restarts : all_ours before → luhmen_allowed before (map str ["restart"; "--json"]).

(** A command after [before]. One of Docker follows the verification of the context directly, and runs
    in the directory of the fixture if that is there. *)
Inductive allowed (before : list event) : list bytes → option bytes → Prop :=
| Verifies : allowed before inspecting_context None
| Docker a : docker_allowed before a → (∃ l e, before = l ++ [e] ∧ verified e) →
    allowed before (in_context a) (if look before (fixture h) then Some (fixture h) else None)
| Luhmen a : luhmen_allowed before a → allowed before (luhmen_ h :: a) None.
Definition vouched (before : list event) (c : Command) : Prop :=
  allowed before (line c) (working_dir c) ∧
  ∀ x, x ∈ environment c ↔ x ∈ inherited ∧ x.1 ∉ redirecting.
Definition safe (l : list event) : Prop :=
  ∀ before e after, l = before ++ e :: after → vouched before (issued e).

Lemma safe_snoc l e : safe l → vouched l (issued e) → safe (l ++ [e]).
Proof using.
  intros Hl He before x after E. apply app_eq_inv in E as [(k & -> & E)|(k & -> & E)].
  - destruct k as [|y k]; simpl in E.
    + injection E as <- _. rewrite app_nil_r in He. done.
    + injection E as <- E. by eapply (Hl before).
  - destruct k as [|y k]; simpl in E; [injection E as <- _; by rewrite app_nil_r|].
    injection E as _ E. by destruct k.
Qed.

Lemma inspected_app i label_of l k : inspected i label_of l → inspected i label_of (l ++ k).
Proof using. intros (e & o & v & He & ?). exists e, o, v. split; [by apply elem_of_app; left|done]. Qed.
Lemma docker_allowed_app l k a : docker_allowed l a → docker_allowed (l ++ k) a.
Proof using.
  intros []; try (by constructor); try (by constructor; apply inspected_app).
  apply Executes. destruct H as [H|(e & o & He & H)]; [by left|right]. exists e, o. split; [by apply elem_of_app; left|done].
Qed.
End vouching.

(** ** Programs that keep to it *)

Section safety.
Context (inherited : list (bytes * bytes)) (look : list event → bytes → bool).
Context (spawn : list event → Command → result Output) (parse : bytes → result value).
Context (h : Harness).

Abbreviation safe := (safe inherited look parse h).
Abbreviation vouched := (vouched inherited look parse h).
Abbreviation docker := (docker inherited spawn parse look h).
Abbreviation docker_text := (docker_text inherited spawn parse look h).
Abbreviation luhmen := (luhmen inherited spawn h).
Abbreviation run := (run spawn).
Abbreviation command := (command inherited).
Abbreviation docker_allowed := (docker_allowed parse h).

(** From a session that is safe and in which [P] has come about, a program leaves one that is safe,
    with [Q] of its result. Nothing is taken back. *)
Definition lasting (P : list event → Prop) : Prop := ∀ l k, P l → P (l ++ k).
Definition guarded {A : Type} (P : list event → Prop) (m : T A) (Q : A → list event → Prop) : Prop :=
  ∀ s, P (history s) → safe (history s) →
    let '(r, s') := m s in
    safe (history s') ∧ (∃ k, history s' = history s ++ k) ∧ match r with Ok a => Q a (history s') | Err _ => True end.
Abbreviation harmless P m := (guarded P m (λ _ _, True)).

Lemma guarded_still {A : Type} P (m : T A) (Q : A → list event → Prop) :
  (∀ s, history (m s).2 = history s ∧ ∀ a, (m s).1 = Ok a → P (history s) → Q a (history s)) → guarded P m Q.
Proof using.
  intros Hm s HP Hs. destruct (Hm s) as [Hh HQ]. destruct (m s) as [r s']. simpl in *. rewrite Hh.
  split; [done|]. split; [exists []; by rewrite app_nil_r|]. destruct r; [by apply HQ|done].
Qed.
Lemma guarded_ret {A : Type} P (a : A) (Q : A → list event → Prop) : (∀ l, P l → Q a l) → guarded P (mret a) Q.
Proof using. intros HQ. apply guarded_still. intros s. split; [done|]. intros ? [= <-]. apply HQ. Qed.
Lemma guarded_lift {A : Type} P (r : result A) : guarded P (lift r) (λ a _, r = Ok a).
Proof using. by apply guarded_still. Qed.
Lemma guarded_weaken {A : Type} P P' (m : T A) (Q Q' : A → list event → Prop) :
  guarded P m Q → (∀ l, P' l → P l) → (∀ a l, Q a l → Q' a l) → guarded P' m Q'.
Proof using.
  intros Hm HP HQ s Hs Hsafe. specialize (Hm s (HP _ Hs) Hsafe). destruct (m s) as [[a|e] s'];
    destruct Hm as (? & ? & ?); split_and!; auto.
Qed.
Lemma guarded_seq {A B : Type} P (m : T A) (f : A → T B) K Q :
  guarded P m K → (∀ a, guarded (K a) (f a) Q) → guarded P (m ≫= f) Q.
Proof using.
  intros Hm Hf s Hs Hsafe. specialize (Hm s Hs Hsafe). unfold mbind, T_bind.
  destruct (m s) as [[a|e] s1]; destruct Hm as (Hsafe1 & (k & Hk) & HK); [|by eauto].
  specialize (Hf a s1 HK Hsafe1). destruct (f a s1) as [r s2]. destruct Hf as (Hsafe2 & (k2 & Hk2) & HQ).
  split; [done|]. split; [|done]. exists (k ++ k2). by rewrite Hk2, Hk, app_assoc.
Qed.
(** What has come about stays known. *)
Lemma guarded_frame {A : Type} P (m : T A) Q :
  lasting P → guarded P m Q → guarded P m (λ a l, P l ∧ Q a l).
Proof using.
  intros HP Hm s Hs Hsafe. specialize (Hm s Hs Hsafe). destruct (m s) as [[a|e] s1];
    destruct Hm as (Hsafe1 & (k & Hk) & HQ); split_and!; eauto. rewrite Hk. by apply HP.
Qed.
Lemma guarded_bind {A B : Type} P (m : T A) (f : A → T B) K Q :
  lasting P → guarded P m K → (∀ a, guarded (λ l, P l ∧ K a l) (f a) Q) → guarded P (m ≫= f) Q.
Proof using. intros HP Hm. apply guarded_seq. by apply guarded_frame. Qed.
Lemma guarded_then {A B : Type} P (m : T A) (f : A → T B) K Q :
  lasting P → guarded P m K → (∀ a, guarded P (f a) Q) → guarded P (m ≫= f) Q.
Proof using.
  intros HP Hm Hf. eapply guarded_bind; [done..|]. intros a. eapply guarded_weaken; [apply Hf|by intros ? []|done].
Qed.
Lemma lasting_and P Q : lasting P → lasting Q → lasting (λ l, P l ∧ Q l).
Proof using. intros HP HQ l k [? ?]. split; [by apply HP|by apply HQ]. Qed.
Lemma guarded_attempt {A : Type} P (m : T A) Q : guarded P m Q → harmless P (attempt m).
Proof using.
  intros Hm s HP Hs. specialize (Hm s HP Hs). unfold attempt. destruct (m s) as [r s']. destruct Hm as (? & ? & ?). done.
Qed.
Lemma guarded_in_turn {A : Type} P (f : A → T unit) l :
  lasting P → (∀ x, x ∈ l → harmless P (f x)) → harmless P (in_turn f l).
Proof using.
  intros HP Hf. induction l as [|x l IH]; simpl; [by apply guarded_ret|].
  eapply guarded_then; [done|apply Hf; left|]. intros _. apply IH. intros y Hy. apply Hf. by right.
Qed.

(** ** Commands *)

Lemma run_history c check s : ∃ r, history (run c check s).2 = history s ++ [Event c r] ∧
  (∀ o, (run c check s).1 = Ok o → r = Ok o).
Proof using.
  unfold Harness.run. exists (spawn (history s) c). destruct (spawn (history s) c) as [o|e]; simpl.
  - destruct (check && negb (success o)); simpl; split; [done|by intros ?|done|done].
  - split; [done|by intros ?].
Qed.

Lemma guarded_run P c check :
  (∀ l, P l → vouched l c) →
  guarded P (run c check) (λ o l, ∃ l0, P l0 ∧ l = l0 ++ [Event c (Ok o)]).
Proof using.
  intros Hc s HP Hs. destruct (run_history c check s) as (r & E & Hr).
  destruct (run c check s) as [r' s']. simpl in *. rewrite E. split; [by apply safe_snoc; [|apply Hc]|].
  split; [by eexists|]. destruct r' as [o|e]; [|done]. rewrite (Hr o eq_refl). by exists (history s).
Qed.

Lemma cleaned p l x : x ∈ environment (args l (command p)) ↔ x ∈ inherited ∧ x.1 ∉ redirecting.
Proof using. simpl. rewrite list_elem_of_filter. change removed_variables with redirecting. by split; intros []. Qed.

Abbreviation just_verified := (λ l, ∃ l0 e, l = l0 ++ [e] ∧ verified parse h e).

Lemma guarded_verify P :
  guarded P (verify_context inherited spawn parse h) (λ _ l, ∃ l0 e, l = l0 ++ [e] ∧ P l0 ∧ verified parse h e).
Proof using.
  intros s Hs Hsafe. unfold verify_context, mbind, T_bind.
  pose proof (guarded_run P (args (map str ["context"; "inspect"; "luhmen"]) (command (docker_ h))) true) as Hrun.
  specialize (Hrun (λ l _, conj (Verifies look parse h l) (cleaned _ _)) s Hs Hsafe).
  destruct (run _ true s) as [[o|e] s1]; destruct Hrun as (Hs1 & Hk & Ho); [|done].
  unfold lift. destruct Ho as (l0 & HPl & E). destruct (parse (stdout o)) as [v|e] eqn:Ep; [|done].
  destruct (owned_context v (endpoint h)) eqn:Eo; simpl; [|done].
  split; [done|]. split; [done|]. exists l0. eexists. split; [exact E|]. split; [done|]. split; [done|]. by exists o, v.
Qed.

Lemma guarded_docker P arguments check :
  (∀ l, P l → docker_allowed l arguments) →
  guarded P (docker arguments check) (λ o l, ∃ l0 v e, l = l0 ++ [v; e] ∧ P l0 ∧ verified parse h v ∧
    line (issued e) = in_context h arguments ∧ outcome e = Ok o).
Proof using.
  intros Ha. unfold Harness.docker.
  eapply guarded_seq; [by apply guarded_verify|]. intros []. cbv zeta.
  intros s HV Hs. unfold mbind, T_bind, exists_.
  set (c := args arguments (args (map str ["--context"; "luhmen"]) (command (docker_ h)))).
  set (c' := if look (history s) (fixture h) then current_dir (fixture h) c else c).
  assert (vouched (history s) c') as Hc.
  { destruct HV as (l0 & e & E & Hl0 & He). split.
    - pose proof (Docker look parse h (history s) arguments) as HD.
      assert (docker_allowed (history s) arguments) as Hal by (rewrite E; by apply docker_allowed_app, Ha).
      specialize (HD Hal (ex_intro _ l0 (ex_intro _ e (conj E He)))). unfold c'.
      destruct (look (history s) (fixture h)); exact HD.
    - intros x. unfold c', c. destruct (look (history s) (fixture h)); apply (cleaned (docker_ h) arguments). }
  pose proof (guarded_run (λ l, l = history s) c' check) as Hrun.
  specialize (Hrun (λ l E, eq_ind_r (λ l, vouched l c') Hc E) s eq_refl Hs).
  destruct (run c' check s) as [[o|e] s1]; destruct Hrun as (Hs1 & Hk & Ho); split_and!; try done.
  destruct Ho as (? & -> & Ho). destruct HV as (l0 & v & E & Hl0 & Hv). exists l0, v. eexists.
  split; [rewrite Ho, E, <-app_assoc; reflexivity|]. split_and!; try done.
  unfold c', c. by destruct (look (history s) (fixture h)).
Qed.

Lemma guarded_docker_text P arguments :
  (∀ l, P l → docker_allowed l arguments) →
  guarded P (docker_text arguments) (λ x l, ∃ l0 v e o, l = l0 ++ [v; e] ∧ P l0 ∧ verified parse h v ∧
    line (issued e) = in_context h arguments ∧ outcome e = Ok o ∧ x = trim (stdout o)).
Proof using.
  intros Ha. unfold Harness.docker_text. eapply guarded_seq; [by apply guarded_docker|]. intros o.
  unfold text. apply guarded_still. intros s. split; [done|]. simpl. intros x Hx (l0 & v & e & H & H').
  destruct (utf8_valid (stdout o)); [|done]. injection Hx as <-. exists l0, v, e, o. by destruct H' as (? & ? & ? & ?).
Qed.

Lemma guarded_luhmen_command P arguments check :
  (∀ l, P l → luhmen_allowed parse h l arguments) → harmless P (run (args arguments (command (luhmen_ h))) check).
Proof using.
  intros Ha. eapply guarded_weaken; [apply (guarded_run P)|done|done].
  intros l Hl. split; [|apply cleaned]. by apply Luhmen, Ha.
Qed.
Lemma guarded_luhmen P arguments : (∀ l, P l → luhmen_allowed parse h l arguments) → harmless P (luhmen arguments).
Proof using. apply guarded_luhmen_command. Qed.
Lemma guarded_guest P arguments :
  (∀ l, P l → luhmen_allowed parse h l (str "shell" :: arguments)) → harmless P (guest inherited spawn h arguments).
Proof using.
  intros Ha. eapply guarded_seq; [by apply guarded_luhmen|]. intros o.
  eapply guarded_weaken; [apply (guarded_lift (λ _, True))|done|done].
Qed.

(** Docker has answered [o] to this. *)
Definition seen (a : list bytes) (o : Output) (l : list event) : Prop :=
  ∃ e, e ∈ l ∧ line (issued e) = in_context h a ∧ outcome e = Ok o.
Lemma lasting_seen a o : lasting (seen a o).
Proof using. intros l k (e & He & ?). exists e. split; [by apply elem_of_app; left|done]. Qed.
Lemma guarded_docker_seen P a check :
  (∀ l, P l → docker_allowed l a) → guarded P (docker a check) (λ o, seen a o).
Proof using.
  intros Ha. eapply guarded_weaken; [by apply guarded_docker|done|].
  intros o l (l0 & v & e & -> & _ & _ & He). exists e. split; [apply elem_of_app; right; right; left|done].
Qed.
Lemma guarded_docker_harmless P a check : (∀ l, P l → docker_allowed l a) → harmless P (docker a check).
Proof using. intros Ha. eapply guarded_weaken; [by apply guarded_docker_seen|done|done]. Qed.
Lemma guarded_docker_text_harmless P a : (∀ l, P l → docker_allowed l a) → harmless P (docker_text a).
Proof using. intros Ha. eapply guarded_weaken; [by apply guarded_docker_text|done|done]. Qed.

(** Removing after an inspection. *)
Lemma guarded_remove_owned P kind name label_of label_ removal refusal :
  lasting P → label h = label_ → kind ∈ map str ["image"; "container"; "volume"] →
  (∀ l, inspected parse h [kind; str "inspect"; name] label_of l → docker_allowed l removal) →
  harmless P (remove_owned inherited spawn parse look h kind name (label_of label_) removal refusal).
Proof using.
  intros HP <- Hkind Hr.
  assert (∀ l, docker_allowed l [kind; str "inspect"; name]) as Hi by (intros l; by apply Reads, InspectsObject).
  eapply guarded_then; [done|by apply guarded_docker_harmless|]. intros found.
  destruct (negb (success found)); [by apply guarded_ret|].
  eapply guarded_seq; [by apply guarded_docker_seen|]. intros o.
  eapply guarded_bind; [apply lasting_seen|apply guarded_lift|]. intros v.
  eapply guarded_seq; [apply (guarded_still _ _ (λ _ l, inspected parse h [kind; str "inspect"; name] label_of l))|].
  - intros s. split; [done|]. simpl. intros [] He [(e & Hin & Hl & Ho) Hp].
    destruct (bool_decide _) eqn:Eb; [|done]. apply bool_decide_eq_true_1 in Eb. by exists e, o, v.
  - intros []. eapply guarded_seq; [by apply guarded_docker_harmless|]. intros ?. by apply guarded_ret.
Qed.

(** ** Restarting *)

(** Nothing but looks, and these containers have shown the label. *)
Definition assured (base : list event) (names : list bytes) (l : list event) : Prop :=
  ∃ k, l = base ++ k ∧ Forall (looks h) k ∧ Forall (λ x, inspected parse h [str "inspect"; x] container_label k) names.

Lemma guarded_assert_owned base names :
  guarded (λ l, l = base) (assert_owned inherited spawn parse look h names) (λ _, assured base names).
Proof using.
  revert base. induction names as [|x names IH]; intros base; simpl.
  { apply guarded_ret. intros l ->. exists []. by rewrite app_nil_r. }
  eapply guarded_seq; [apply guarded_docker; intros l _; apply Reads, Inspects|]. intros o.
  eapply guarded_seq; [apply (guarded_still _ _ (λ v l, parse (stdout o) = Ok v ∧
    ∃ v e, l = base ++ [v; e] ∧ verified parse h v ∧ line (issued e) = in_context h [str "inspect"; x] ∧ outcome e = Ok o))|].
  { intros s. split; [done|]. simpl. intros v Hv (l0 & v' & e & -> & -> & H). split; [done|]. by exists v', e. }
  intros data.
  set (known := λ l, ∃ k, l = base ++ k ∧ Forall (looks h) k ∧ inspected parse h [str "inspect"; x] container_label k).
  eapply guarded_seq; [apply (guarded_still _ _ (λ _, known))|].
  { intros s. split; [done|]. simpl. intros [] He (Hv & v & e & Hl & Hver & Hline & Ho).
    destruct (bool_decide _) eqn:Eb; [|done]. apply bool_decide_eq_true_1 in Eb. exists [v; e]. split; [done|]. split.
    - constructor; [by left; apply Hver|]. apply list.Forall_singleton. right. eexists. split; [exact Hline|]. apply Inspects.
    - exists e, o, data. split; [right; left|done]. }
  intros [] s (k & Hl & Hk & Hi) Hs. pose proof (IH (history s) s eq_refl Hs) as H.
  destruct (assert_owned _ _ _ _ _ names s) as [[[]|e] s']; [|done]. destruct H as (Hs' & Hex & k' & Hl' & Hk' & Hn).
  split; [done|]. split; [done|]. exists (k ++ k'). rewrite Hl', Hl, app_assoc. split; [done|].
  split; [by apply Forall_app|]. constructor; [by apply inspected_app|].
  eapply Forall_impl; [exact Hn|]. intros y (e & o' & v & Hin & H). exists e, o', v. split; [by apply elem_of_app; right|done].
Qed.

Lemma guarded_assert P :
  guarded P (assert_owned_containers inherited spawn parse look h) (λ _, all_ours parse h).
Proof using.
  unfold assert_owned_containers.
  eapply guarded_seq; [apply guarded_docker_text; intros l _; apply Reads; apply Listing|]. intros names s Hn Hs.
  destruct Hn as (l0 & v & e & o & Hl & _ & _ & He & Ho & ->).
  pose proof (guarded_assert_owned (history s) (split_whitespace (trim (stdout o))) s eq_refl Hs) as H.
  destruct (assert_owned _ _ _ _ _ _ s) as [[[]|err] s']; [|by destruct H as (? & ? & ?)].
  destruct H as (Hs' & Hex & k & Hk & Hlooks & Hall). split; [done|]. split; [done|].
  exists (l0 ++ [v]), e, o, k. rewrite Hk, Hl. split; [by rewrite <-!app_assoc|]. done.
Qed.

Lemma lasting_cleared : lasting (cleared parse h).
Proof using. intros l k (l0 & k0 & -> & H). exists l0, (k0 ++ k). by rewrite app_assoc. Qed.

(** After the restart the run is known to have been alone. *)
Lemma guarded_restart {A : Type} P (k : T A) Q :
  lasting P → guarded (λ l, P l ∧ cleared parse h l) k Q →
  guarded P (_ ← assert_owned_containers inherited spawn parse look h; _ ← luhmen (map str ["restart"; "--json"]); k) Q.
Proof using.
  intros HP Hk. eapply guarded_bind; [done|apply guarded_assert|]. intros [].
  apply (guarded_seq _ _ _ (λ _ l, P l ∧ cleared parse h l)); [|by intros ?].
  intros s [HPs Ha] Hs. assert (cleared parse h (history s)) as Hc by (exists (history s), []; by rewrite app_nil_r).
  pose proof (guarded_luhmen (λ l, l = history s) (map str ["restart"; "--json"])) as H.
  specialize (H (λ l E, eq_ind_r (λ l, luhmen_allowed parse h l _) (Restarts parse h _ Ha) E) s eq_refl Hs).
  destruct (luhmen _ s) as [[o|e] s']; destruct H as (Hs' & (x & Hx) & _); split_and!; eauto.
  - rewrite Hx. by apply HP.
  - rewrite Hx. by apply lasting_cleared.
Qed.

(** ** The steps of a suite *)

Context (local : list event → bytes → result bytes) (rounds : list event → nat).
Context (sha256 : bytes → bytes) (print_pretty : value → result bytes).

Lemma lasting_True : lasting (λ _, True).
Proof using. by intros ?. Qed.
Lemma lasting_own c : lasting (λ l, own_container h l c).
Proof using.
  intros l k [H|(e & o & He & H)]; [by left|right]. exists e, o. split; [by apply elem_of_app; left|done].
Qed.
Lemma guarded_next {A B : Type} P (m : T A) (f : A → T B) Q :
  lasting P → harmless P m → (∀ a, guarded P (f a) Q) → guarded P (m ≫= f) Q.
Proof using. apply guarded_then. Qed.

Lemma harmless_ret {A : Type} P (a : A) : harmless P (mret a).
Proof using. by apply guarded_ret. Qed.
Lemma harmless_lift {A : Type} P (r : result A) : harmless P (lift r).
Proof using. by apply guarded_still. Qed.
Lemma harmless_step P n : harmless P (step local n).
Proof using. by apply guarded_still. Qed.
Lemma harmless_exists P p : harmless P (exists_ look p).
Proof using. by apply guarded_still. Qed.
Lemma harmless_push P n : harmless P (push n).
Proof using. by apply guarded_still. Qed.
Lemma harmless_expect P b e : harmless P (expect b e).
Proof using. apply harmless_lift. Qed.
Lemma harmless_create_dir P p : harmless P (create_dir local p).
Proof using. apply guarded_still. intros s. unfold create_dir, step, mbind, T_bind. by destruct (local _ _). Qed.
Lemma harmless_write P p d : harmless P (write local p d).
Proof using. apply guarded_still. intros s. unfold write, step, mbind, T_bind. by destruct (local _ _). Qed.
Lemma harmless_id P p : harmless P (id local sha256 p).
Proof using. apply guarded_still. intros s. unfold id, step, mbind, T_bind. by destruct (local _ _). Qed.
Lemma harmless_http_get P port p : harmless P (http_get local port p).
Proof using.
  apply guarded_still. intros s. unfold http_get, step, mbind, T_bind. destruct (local _ _); [|done].
  unfold lift. by destruct (http_body _).
Qed.
Lemma harmless_verify P : harmless P (verify_context inherited spawn parse h).
Proof using. eapply guarded_weaken; [apply (guarded_verify P)|done|done]. Qed.
Lemma guarded_eventually P check : lasting P → harmless P check → harmless P (eventually rounds check).
Proof using.
  intros HP Hc. assert (∀ n last, harmless P (eventually_go n check last)) as Hgo.
  { induction n as [|n IH]; intros last; simpl; [apply harmless_lift|].
    eapply guarded_next; [done|by eapply guarded_attempt|]. intros [[]|e]; [apply harmless_ret|apply IH]. }
  intros s. apply Hgo.
Qed.

#[local] Hint Resolve harmless_ret harmless_lift harmless_step harmless_exists harmless_push harmless_expect
  harmless_create_dir harmless_write harmless_id harmless_http_get harmless_verify : harness.
#[local] Hint Resolve lasting_True lasting_own lasting_cleared lasting_and : harness.

(** Looks, and what needs nothing but the names of the run. *)
Ltac allow := intros ? ?; first
  [ apply Reads; first [apply Info | apply Listing | apply Inspects | apply InspectsObject; member | apply Versions; member]
  | apply Composes; member
  | apply Pulls
  | apply Builds; eexists; reflexivity
  | apply CreatesVolume; eexists; reflexivity
  | apply Executes; solve [destruct_and?; assumption]
  | apply ShowsVersion | apply InspectsVm
  | apply InGuest; member
  | apply KillsDocker; solve [destruct_and?; assumption] ].
#[local] Hint Extern 1 (guarded _ (Harness.docker _ _ _ _ _ _ _) _) => apply guarded_docker_harmless; allow : harness.
#[local] Hint Extern 1 (guarded _ (Harness.docker_text _ _ _ _ _ _) _) => apply guarded_docker_text_harmless; allow : harness.
#[local] Hint Extern 1 (guarded _ (Harness.luhmen _ _ _ _) _) => apply guarded_luhmen; allow : harness.
#[local] Hint Extern 1 (guarded _ (guest _ _ _ _) _) => apply guarded_guest; allow : harness.

Ltac harness := repeat first
  [ match goal with |- guarded _ (_ ≫= _) _ => apply guarded_next; [solve [auto with harness]| |intros ?] end
  | match goal with |- guarded _ (in_turn _ _) _ => apply guarded_in_turn; [solve [auto with harness]|intros ? ?] end
  | match goal with |- guarded _ (eventually _ _) _ => apply guarded_eventually; [solve [auto with harness]|] end
  | match goal with |- guarded _ (match ?x with _ => _ end) _ => destruct x end
  | solve [auto with harness] ].

(** *** The performance suite *)

Lemma own_name suffix : ours h (run_id h ++ "-"%char :: suffix).
Proof using. by exists suffix. Qed.

Lemma guarded_perf_cleanup P names volume :
  lasting P → label h = PERF_LABEL → harmless P (perf_cleanup inherited spawn parse look h names volume).
Proof using.
  intros HP Hl. unfold perf_cleanup.
  apply guarded_next; [done|apply guarded_in_turn; [done|]; intros name _|intros ?]; apply guarded_remove_owned;
    try done; try member; intros l Hi; by constructor.
Qed.

Section perf.
Context (Hlabel : label h = PERF_LABEL).

Lemma labelled_own : labelled h = own_label h.
Proof using Hlabel. unfold own_label. by rewrite Hlabel. Qed.
Lemma perf_run_own name options_ script :
  ours h name → options h options_ →
  container_run h ([str "run"; str "--name"; name; str "--label"; labelled h; str "--platform=linux/arm64"]
                   ++ options_ ++ IMAGE :: script).
Proof using Hlabel. intros Hn Ho. rewrite labelled_own. by constructor. Qed.
Lemma isolated : options h [str "--rm"; str "--network=none"].
Proof using. do 2 (constructor; [member|]). constructor. Qed.

Lemma guarded_start_once P iteration wrapper :
  lasting P → harmless P (start_once inherited spawn parse look h iteration wrapper).
Proof using Hlabel.
  intros HP. unfold start_once. apply guarded_next; [done|auto with harness|intros _].
  pose proof (perf_run_own (run_id h ++ str "-start-" ++ (if wrapper then str "wrapper" else str "direct")
    ++ str "-" ++ number iteration) [str "--rm"; str "--network=none"] [str "true"] (own_name _)
    isolated) as Hrun.
  destruct wrapper; (apply guarded_next; [done| |intros _; auto with harness]).
  - apply guarded_luhmen. intros l _. by apply RunsThrough.
  - apply guarded_docker_harmless. intros l _. by apply RunsOwn.
Qed.

Lemma guarded_workload P name script size :
  lasting P → ours h name → harmless P (workload inherited spawn parse look h name script size).
Proof using.
  intros HP Hn. apply guarded_next; [done| |intros _; auto with harness].
  apply guarded_docker_harmless. intros l _. apply Executes. by left.
Qed.
Lemma guarded_placement P args place mount :
  lasting P → options h [str "--mount"; mount] →
  harmless P (placement inherited spawn parse look h args (place, mount)).
Proof using Hlabel.
  intros HP Hm. unfold placement. cbn [fst snd].
  apply guarded_next; [done|auto with harness|intros _].
  apply guarded_next; [done| |intros _].
  { apply guarded_docker_harmless. intros l _. apply RunsOwn.
    apply (perf_run_own _ [str "--detach"; str "--network=none"; str "--mount"; mount] (map str ["sleep"; "900"]));
      [apply own_name|]. do 2 (constructor; [member|]). done. }
  apply guarded_next; [done| |intros _].
  { apply guarded_docker_harmless. intros l _. apply Executes. left. apply own_name. }
  do 2 (apply guarded_in_turn; [done|intros ? _]). apply guarded_workload; [done|apply own_name].
Qed.
Lemma guarded_measure_http P args :
  lasting P → harmless P (measure_http inherited spawn parse look local rounds h args).
Proof using Hlabel.
  intros HP. unfold measure_http, served.
  apply guarded_next; [done|auto with harness|intros port]. cbv zeta.
  apply guarded_next; [done|auto with harness|intros _].
  apply guarded_next; [done| |intros _; harness].
  apply guarded_docker_harmless. intros l _. apply RunsOwn.
  apply (perf_run_own _ [str "--detach"; str "--publish"; str "127.0.0.1:" ++ port ++ str ":8080"]); [apply own_name|].
  constructor; [member|]. apply Publishes. constructor.
Qed.

Lemma guarded_perf_inner P args :
  lasting P →
  harmless P (perf_inner inherited spawn parse look local rounds h args (run_id h ++ str "-data")).
Proof using Hlabel.
  intros HP. unfold perf_inner. harness.
  - by apply guarded_start_once.
  - apply guarded_docker_harmless. intros l _. rewrite labelled_own. apply CreatesVolume, own_name.
  - match goal with H : _ ∈ _ |- _ => apply elem_of_cons in H as [->|[->|[]%not_elem_of_nil]%elem_of_cons] end;
      apply guarded_placement; try done.
    + by apply BindsFixture; constructor.
    + apply MountsVolume; [apply own_name|constructor].
  - by apply guarded_measure_http.
Qed.
End perf.

(** *** The smoke suite *)

Lemma guarded_smoke_cleanup P :
  lasting P → label h = SMOKE_LABEL → harmless P (smoke_cleanup inherited spawn parse look h).
Proof using.
  intros HP Hl. unfold smoke_cleanup. harness.
  unfold remove_image. apply guarded_remove_owned; [done|done|member|]. intros l Hi. by constructor.
Qed.

Lemma guarded_create_fixture P args :
  lasting P → harmless P (create_fixture local sha256 print_pretty h args).
Proof using. intros HP. unfold create_fixture. cbv zeta. harness. Qed.
Lemma guarded_engine_ping P : lasting P → harmless P (engine_ping local h).
Proof using. intros HP. unfold engine_ping. harness. Qed.
Lemma guarded_served P port expected e : lasting P → harmless P (served local port expected e).
Proof using. intros HP. unfold served. harness. Qed.
Lemma guarded_build_twice P : lasting P → harmless P (build_twice inherited spawn parse look h).
Proof using. intros HP. unfold build_twice. cbv zeta. harness. Qed.
Lemma guarded_watch P : lasting P → harmless P (watch inherited spawn local h).
Proof using.
  intros HP. unfold watch. cbv zeta. harness.
  apply (guarded_luhmen_command P (str "shell" :: _)). intros l _. apply InGuest. member.
Qed.
#[local] Hint Resolve guarded_create_fixture guarded_engine_ping guarded_served guarded_build_twice guarded_watch : harness.

Lemma guarded_exercise state args :
  guarded (λ _, True) (exercise inherited spawn parse look local rounds sha256 print_pretty h state args)
    (λ '(_, _, container) l, own_container h l container).
Proof using.
  unfold exercise, shell_text. cbv zeta.
  do 6 (apply guarded_next; [done|solve [harness]|intros ?]).
  match goal with x : bytes * bytes |- _ => destruct x as [token port] end.
  do 5 (apply guarded_next; [done|solve [harness]|intros ?]).
  eapply (guarded_seq _ _ _ (λ c l, own_container h l c)).
  { eapply guarded_weaken; [apply (guarded_docker_text (λ _, True))|done|]; [allow|].
    intros c k (l0 & v & e & o & -> & _ & _ & He & Ho & ->). right. exists e, o. split; [|done].
    apply elem_of_app. right. apply list_elem_of_further, list_elem_of_here. }
  intros container. harness. by apply guarded_ret.
Qed.

Lemma guarded_recover P :
  lasting P → (∀ l, P l → cleared parse h l) → harmless P (recover inherited spawn local rounds h).
Proof using.
  intros HP Hc. unfold recover, main_pid. harness. apply guarded_guest. intros l Hl. by apply KillsDocker, Hc.
Qed.

Lemma guarded_smoke_inner state args :
  harmless (λ _, True) (smoke_inner inherited spawn parse look local rounds sha256 print_pretty h state args).
Proof using.
  unfold smoke_inner. eapply guarded_seq; [apply guarded_exercise|]. intros [[token port] container].
  apply guarded_next; [apply lasting_own|solve [harness]|intros _].
  apply guarded_restart; [apply lasting_own|]. unfold shell_text. harness.
  apply guarded_recover; [auto with harness|by intros l []].
Qed.
End safety.

(** ** From the preparation to the cleaning up *)

(** What is issued satisfies [R]. *)
Definition only {A : Type} (R : Command → Prop) (m : T A) : Prop :=
  ∀ s, Forall (λ e, R (issued e)) (history s) → Forall (λ e, R (issued e)) (history (m s).2).
Lemma only_bind {A B : Type} R (m : T A) (f : A → T B) : only R m → (∀ a, only R (f a)) → only R (m ≫= f).
Proof.
  intros Hm Hf s Hs. specialize (Hm s Hs). unfold mbind, T_bind. destruct (m s) as [[a|e] s1]; [by apply Hf|done].
Qed.
Lemma only_still {A : Type} R (m : T A) : (∀ s, history (m s).2 = history s) → only R m.
Proof. intros Hm s. by rewrite Hm. Qed.
Lemma only_run spawn (R : Command → Prop) c check : R c → only R (run spawn c check).
Proof.
  intros Hc s Hs. destruct (run_history spawn c check s) as (r & -> & _). apply Forall_app. split; [done|].
  by apply list.Forall_singleton.
Qed.

Section preparation.
Context (inherited : list (bytes * bytes)) (look : list event → bytes → bool).
Context (spawn : list event → Command → result Output) (parse : bytes → result value).
Context (canonicalize : bytes → option bytes) (is_directory : bool).
Context (local : list event → bytes → result bytes) (sha256 : bytes → bytes).
Context (docker_program luhmen_program fixture_root : bytes).
Abbreviation preflight := (preflight inherited spawn parse look local sha256 canonicalize is_directory
  docker_program luhmen_program fixture_root).
Abbreviation safe := (safe inherited look parse).

(** The preparation looks at the VM, at the context and at the containers. *)
Definition preparing : list (list bytes) :=
  [luhmen_program :: map str ["inspect"; "--json"];
   docker_program :: map str ["context"; "inspect"; "luhmen"];
   docker_program :: map str ["--context"; "luhmen"; "ps"; "--all"; "--quiet"]].

Definition prepares (c : Command) : Prop :=
  line c ∈ preparing ∧ ∀ x, x ∈ environment c ↔ x ∈ inherited ∧ x.1 ∉ redirecting.

Lemma preflight_only label prefix : only prepares (preflight label prefix).
Proof using.
  assert (∀ p l, line (args l (command inherited p)) ∈ preparing → prepares (args l (command inherited p))) as Hc
    by (intros p l Hl; split; [done|apply cleaned]).
  unfold Harness.preflight, Harness.docker_text, Harness.docker, verify_context.
  repeat first [ apply only_bind; [|intros ?] | by apply only_still ]; try (apply only_run, Hc; cbn; member).
  case_match; apply only_run; [split; [cbn; member|apply (cleaned inherited)]|apply Hc; cbn; member].
Qed.

Lemma safe_nil h : safe h [].
Proof using. by intros [|x l] e k. Qed.

(** A prepared harness has a session that is safe for it. *)
Lemma preflight_safe label_ prefix h state s' :
  preflight label_ prefix (Session [] [] []) = (Ok (h, state), s') → label h = label_ ∧ safe h (history s').
Proof using.
  unfold Harness.preflight, mbind, T_bind, lift.
  destruct (ensure is_directory _) as [[]|]; [|done].
  destruct (run_history spawn (args (map str ["inspect"; "--json"]) (clean_environment (new inherited luhmen_program))) true
    (Session [] [] [])) as (r & Hh & _).
  destruct (run spawn _ true (Session [] [] [])) as [[o|e] s1]; [|done]. simpl in Hh.
  destruct (parse (stdout o)) as [v|e]; [|done]. destruct (ensure (healthy v) _) as [[]|]; [|done].
  destruct (ok_or _ _) as [ep|]; [|done]. destruct (ok_or _ _) as [dir|]; [|done].
  destruct (ensure (identified _ _ _) _) as [[]|]; [|done].
  destruct (ok_or (canonicalize fixture_root) _) as [root|]; [|done].
  destruct (ensure (mounted _ _ _) _) as [[]|]; [|done].
  destruct (id local sha256 prefix s1) as [[name|e] s1'] eqn:Eid; [|done].
  assert (history s1' = history s1) as Hid.
  { unfold id, step, mbind, T_bind in Eid. by destruct (local _ _); injection Eid as _ <-. }
  match goal with |- context [docker_text _ spawn parse look ?x ?l s1'] => set (h0 := x); set (ps := l) end.
  assert (safe h0 (history s1')) as Hs1.
  { rewrite Hid, Hh. apply (safe_snoc inherited look parse h0 []); [apply safe_nil|]. split; [|apply (cleaned inherited)].
    apply (Luhmen look parse h0 []). apply InspectsVm. }
  pose proof (guarded_docker_text inherited look spawn parse h0 (λ _, True) ps
    (λ l _, Reads parse h0 l ps (Listing _)) s1' I Hs1) as Hk.
  destruct (docker_text inherited spawn parse look h0 ps s1') as [[existing|e] s2]; [|done]. destruct Hk as [Hk _].
  destruct (ensure _ _) as [[]|]; [|done]. by intros [= <- _ <-].
Qed.

Context (rounds : list event → nat) (print_pretty : value → result bytes).
Definition outcome_safe (r : result (Harness * value)) (l : list event) : Prop :=
  match r with
  | Ok (h, _) => safe h l
  | Err _ => Forall (λ e, prepares (issued e)) l
  end.

Lemma smoke_safe args :
  outcome_safe (preflight SMOKE_LABEL (str "luhmen-check") (Session [] [] [])).1
    (history (smoke inherited spawn parse look local rounds sha256 print_pretty canonicalize is_directory
                docker_program luhmen_program fixture_root args (Session [] [] [])).2).
Proof using.
  unfold smoke, mbind, T_bind, lift.
  pose proof (preflight_only SMOKE_LABEL (str "luhmen-check") (Session [] [] [])) as Ho.
  pose proof (preflight_safe SMOKE_LABEL (str "luhmen-check")) as Hp.
  destruct (preflight _ _ _) as [[[h state]|e] s]; unfold outcome_safe; simpl.
  - destruct (Hp h state s eq_refl) as [Hl Hs].
    destruct (ensure (smoke_run args) _) as [[]|]; simpl; [|apply safe_nil].
    pose proof (guarded_smoke_inner inherited look spawn parse h local rounds sha256 print_pretty state args s I Hs) as H1.
    unfold attempt. destruct (smoke_inner _ _ _ _ _ _ _ _ _ _ _ s) as [r s1], H1 as [H1 _].
    pose proof (guarded_smoke_cleanup inherited look spawn parse h _ lasting_True Hl s1 I H1) as H2.
    destruct (smoke_cleanup _ _ _ _ _ s1) as [[c|e] s2]; apply H2.
  - destruct (ensure (smoke_run args) _) as [[]|]; simpl; [by apply Ho|constructor].
Qed.

Lemma perf_safe args :
  outcome_safe (preflight PERF_LABEL (str "luhmen-perf") (Session [] [] [])).1
    (history (perf inherited spawn parse look local rounds sha256 canonicalize is_directory
                docker_program luhmen_program fixture_root args (Session [] [] [])).2).
Proof using.
  unfold perf, mbind, T_bind, lift.
  pose proof (preflight_only PERF_LABEL (str "luhmen-perf") (Session [] [] [])) as Ho.
  pose proof (preflight_safe PERF_LABEL (str "luhmen-perf")) as Hp.
  destruct (preflight _ _ _) as [[[h state]|e] s]; unfold outcome_safe; simpl.
  - destruct (Hp h state s eq_refl) as [Hl Hs].
    destruct (ensure (perf_run args) _) as [[]|]; simpl; [|apply safe_nil].
    pose proof (guarded_perf_inner inherited look spawn parse h local rounds Hl _ args lasting_True s I Hs) as H1.
    unfold attempt. destruct (perf_inner _ _ _ _ _ _ _ _ _ s) as [r s1], H1 as [H1 _].
    pose proof (guarded_perf_cleanup inherited look spawn parse h _ (containers s1) (run_id h ++ str "-data")
      lasting_True Hl s1 I H1) as H2.
    destruct (perf_cleanup _ _ _ _ _ _ _ s1) as [c s2]. apply H2.
  - destruct (ensure (perf_run args) _) as [[]|]; simpl; [by apply Ho|constructor].
Qed.

(** C9. What the two suites may do, whatever the answers are and whatever fails. When the preparation
    fails, nothing was run but looks at the VM, the context and the containers. Otherwise every
    command, from the preparation to the cleaning up, is one of those that [allowed] lists. A command
    of Docker directly follows a verification that the context is luhmen's, and it looks; or it runs,
    creates, builds or composes under a name and the label of the run; or it enters a container with
    such a name or the one that Docker named as the project's; or it takes down the run's own Compose
    project; or it removes an object whose label an inspection has shown to be the run's. A command of
    luhmen looks, runs such a container, looks or watches in the guest, or restarts the VM after all
    containers were listed, each showed the label and nothing else happened since; only after such a
    restart is Docker killed in the guest. All have the suite's own environment without the variables
    that would send them to another engine or project. *)
Theorem suites_safe smoke_args perf_args label prefix suite :
  (label, prefix, suite) ∈
    [(SMOKE_LABEL, str "luhmen-check",
      smoke inherited spawn parse look local rounds sha256 print_pretty canonicalize is_directory
        docker_program luhmen_program fixture_root smoke_args);
     (PERF_LABEL, str "luhmen-perf",
      perf inherited spawn parse look local rounds sha256 canonicalize is_directory
        docker_program luhmen_program fixture_root perf_args)] →
  outcome_safe (preflight label prefix (Session [] [] [])).1 (history (suite (Session [] [] [])).2).
Proof using.
  intros [E|[E|[]%not_elem_of_nil]%elem_of_cons]%elem_of_cons; injection E as -> -> ->; [apply smoke_safe|apply perf_safe].
Qed.
End preparation.

(** ** The names of a run *)

Definition hex_character (c : ascii) : Prop := c ∈ str "0123456789abcdef".
Lemma hex_digit_character n : hex_character (hex_digit (n mod 16)).
Proof.
  apply list_elem_of_In, nth_In. change (length _) with 16. pose proof (N.mod_lt n 16). lia.
Qed.
Lemma hex_go_word k n s :
  Forall hex_character s → Forall hex_character (hex_go k n s) ∧ length (hex_go k n s) <= k + length s ∧
  (s ≠ [] ∨ k ≠ 0 → hex_go k n s ≠ []).
Proof.
  revert n s. induction k as [|k IH]; intros n s Hs; simpl.
  { split; [done|]. split; [lia|]. by intros [?|?]. }
  assert (Forall hex_character (hex_digit (n mod 16) :: s)) as Hs' by (constructor; [apply hex_digit_character|done]).
  destruct (n / 16 =? 0)%N; [split; [done|]; split; [simpl; lia|done]|].
  destruct (IH (n / 16)%N _ Hs') as (H1 & H2 & H3). split; [done|]. split; [simpl in H2; lia|]. intros _. apply H3. by left.
Qed.
(** The name of a run is its prefix and a short word of lower-case hexadecimal digits, so it can stand
    in a Dockerfile, a Compose project and a label. *)
Lemma id_word local sha256 prefix s x s' :
  id local sha256 prefix s = (Ok x, s') →
  ∃ d, x = prefix ++ str "-" ++ d ∧ d ≠ [] ∧ length d <= 16 ∧ Forall hex_character d.
Proof.
  unfold id, step, mbind, T_bind. destruct (local _ _) as [seed|e]; [|done]. intros [= <- _].
  eexists. split; [done|]. unfold hex.
  destruct (hex_go_word 16 (leading (sha256 (seed ++ str "-" ++ prefix))) []) as (H1 & H2 & H3); [constructor|].
  split; [apply H3; by right|]. split; [exact H2|exact H1].
Qed.

(** ** The fixture *)

Section fixture.
Context (h : Harness).

(** The services and volumes of a Compose file, and their members. *)
Definition members (v : value) : list value := match v with Object l => map snd l | _ => [] end.
Definition elements (v : value) : list value := match v with Array l => l | _ => [] end.
Definition bind_sources (service : value) : list value :=
  map (λ v, index v "source")
    (filter (λ v, index v "type" = String (str "bind")) (elements (index service "volumes"))).
(** It belongs to this run, and offers nothing but a port of the loopback address and reads nothing of
    the host but [shared]. *)
Definition contained (shared port : bytes) (service : value) : Prop :=
  index service "labels" = object [(SMOKE_LABEL, String (run_id h))] ∧
  (∀ p, p ∈ elements (index service "ports") → p = String (str "127.0.0.1:" ++ port ++ str ":8080")) ∧
  (∀ b, b ∈ bind_sources service → b = String shared).

Lemma compose_contained shared port token slow :
  let v := compose_value h shared port token slow in
  Forall (contained shared port) (members (index v "services")) ∧
  Forall (λ x, index x "labels" = object [(SMOKE_LABEL, String (run_id h))])
    (members (index v "services") ++ members (index v "volumes") ++ members (index v "networks")).
Proof using.
  assert (∀ (P : value → Prop) x y, P x → P y → Forall P [x; y]) as two by (intros; by repeat constructor).
  destruct slow; (split; [|repeat constructor; vm_compute; reflexivity]).
  - apply two; (split; [vm_compute; reflexivity|split]); intros b; cbn; set_solver.
  - apply list.Forall_singleton. split; [vm_compute; reflexivity|split]; intros b; cbn; set_solver.
Qed.

Context (local : list event → bytes → result bytes) (sha256 : bytes → bytes) (print_pretty : value → result bytes).

Lemma file_of_second a b l : file_of (a :: b :: l) = a ++ newline :: b ++ newline :: file_of l.
Proof using. unfold file_of. simpl. by rewrite <-!app_assoc. Qed.
Lemma shared_join : path_join (path_join (fixture h) (str "shared")) (str "host.txt") = path_join (fixture h) (str "shared/host.txt").
Proof using. by rewrite path_join_join. Qed.
(** A step succeeded, and a file was written. *)
Lemma run_bind {A B : Type} (m : T A) (f : A → T B) s b s' :
  (m ≫= f) s = (Ok b, s') → ∃ a s1, m s = (Ok a, s1) ∧ f a s1 = (Ok b, s').
Proof using. unfold mbind, T_bind. destruct (m s) as [[a|e] s1]; [|done]. eauto. Qed.
Lemma step_Ok {A : Type} n (f : bytes → T A) s b s' :
  (step local n ≫= f) s = (Ok b, s') → ∃ a, f a s = (Ok b, s').
Proof using. intros (a & s1 & E & H)%run_bind. injection E as E <-. eauto. Qed.
Lemma write_Ok {A : Type} p d (f : unit → T A) s b s' :
  (write local p d ≫= f) s = (Ok b, s') → f tt (Session (history s) (containers s) (written s ++ [(p, d)])) = (Ok b, s').
Proof using. intros ([] & s1 & E & H)%run_bind. apply step_Ok in E as (? & E). by injection E as <-. Qed.
Lemma create_dir_Ok {A : Type} p (f : unit → T A) s b s' : (create_dir local p ≫= f) s = (Ok b, s') → f tt s = (Ok b, s').
Proof using. intros ([] & s1 & E & H)%run_bind. apply step_Ok in E as (? & E). by injection E as <-. Qed.
Lemma id_Ok {A : Type} p (f : bytes → T A) s b s' : (id local sha256 p ≫= f) s = (Ok b, s') → ∃ a, f a s = (Ok b, s').
Proof using. intros (a & s1 & E & H)%run_bind. apply step_Ok in E as (? & E). injection E as <- <-. eauto. Qed.

(** C30. The fixture of the smoke suite keeps to itself: no command is run for it, all its files are
    below its own directory, and its Compose file, in which every service, volume and network carries
    this run's label, shares only a directory of the fixture with the containers and publishes only
    one port of the loopback address; the images that are built from it carry the label too. So what
    the suite makes is what its cleaning up may remove. *)
Theorem fixture_contained args s token port s' :
  create_fixture local sha256 print_pretty h args s = (Ok (token, port), s') →
  history s' = history s ∧
  ∃ files v text,
    written s' = written s ++ files ∧ Forall (λ x, ∃ q, x.1 = path_join (fixture h) q ∧ is_absolute q = false) files ∧
    (compose_file h, text) ∈ files ∧ print_pretty v = Ok text ∧
    Forall (contained (path_join (fixture h) (str "shared")) port) (members (index v "services")) ∧
    Forall (λ x, index x "labels" = object [(SMOKE_LABEL, String (run_id h))])
      (members (index v "services") ++ members (index v "volumes") ++ members (index v "networks")) ∧
    (path_join (fixture h) (str "Dockerfile"), dockerfile h) ∈ files ∧ ∃ b a, dockerfile h = b ++ newline :: label_line h ++ newline :: a.
Proof using.
  unfold create_fixture. intros H. apply create_dir_Ok, step_Ok in H as (? & H). apply create_dir_Ok, id_Ok in H as (t & H).
  do 4 apply write_Ok in H. apply step_Ok in H as (q & H). apply run_bind in H as (text & s1 & E & H).
  injection E as E <-. apply write_Ok in H. injection H as <- <- <-. simpl. split; [done|].
  destruct (compose_contained (path_join (fixture h) (str "shared")) q t (slow_shutdown args)) as [Hc Hl].
  eexists _, (compose_value h _ q t (slow_shutdown args)), text. rewrite <-!app_assoc. split; [reflexivity|]. split.
  { assert (∀ x d, is_absolute (str x) = false → ∃ q, (path_join (fixture h) (str x), d : bytes).1 = path_join (fixture h) q
      ∧ is_absolute q = false) as Hx by eauto.
    rewrite shared_join. repeat constructor; by apply Hx. }
  split; [set_solver|]. split; [|split; [done|split; [done|split; [set_solver|]]]].
  - destruct (print_pretty _) as [d|e] eqn:Ed in E; [|done]. injection E as ->. exact Ed.
  - exists (str "FROM " ++ IMAGE). eexists. unfold dockerfile. rewrite file_of_second. reflexivity.
Qed.
End fixture.

(** ** A concrete run *)

Definition sample_endpoint : bytes := str "unix:///vm/sock/docker.sock".
Definition sample_parse (d : bytes) : result value :=
  if decide (d = str "state") then Ok (object
    [("schema_version", Number (str "1")); ("name", String (str "luhmen")); ("context", String (str "luhmen"));
     ("state", String (str "Running")); ("context_ready", Bool true); ("engine_ready", Bool true);
     ("endpoint", String sample_endpoint);
     ("vm", object [("name", String (str "luhmen")); ("vmType", String (str "vz")); ("arch", String (str "aarch64"));
                    ("dir", String (str "/vm"))]);
     ("config", object [("mounts", Array [object [("writable", Bool true); ("path", String (str "/src"))]])])])
  else if decide (d = str "context") then Ok (Array [object
    [("Name", String (str "luhmen"));
     ("Endpoints", object [("docker", object [("Host", String sample_endpoint)])]);
     ("Metadata", object [("Description", String CONTEXT_DESCRIPTION)])]])
  else if decide (d = str "volume") then Ok (Array [object [("Labels", object [(PERF_LABEL, String (str "luhmen-perf-1"))])]])
  else Err "expected value".
(** No fixture image, so the suite stops early and cleans up; the volume is there. *)
Definition sample_spawn (l : list event) (c : Command) : result Output :=
  let ok d := Ok {| success := true; stdout := str d; stderr := [] |} in
  if decide (line c = map str ["luhmen"; "inspect"; "--json"]) then ok "state"
  else if decide (line c = map str ["docker"; "context"; "inspect"; "luhmen"]) then ok "context"
  else if decide (str "volume" ∈ line c) then ok "volume"
  else if decide (str "inspect" ∈ line c) then Ok {| success := false; stdout := []; stderr := [] |}
  else Ok {| success := true; stdout := []; stderr := [] |}.
Definition sample_environment : list (bytes * bytes) := [(str "DOCKER_HOST", str "tcp://10.0.0.1:2375"); (str "HOME", str "/Users/a")].
Definition sample_sha256 (d : bytes) : bytes := ["001"%char].
Definition sample_preflight : string → bytes → T (Harness * value) :=
  preflight sample_environment sample_spawn sample_parse (λ _ _, false) (λ _ _, Ok []) sample_sha256 Some true
    (str "docker") (str "luhmen") (str "/src/work").
Definition sample_perf_suite : T unit :=
  perf sample_environment sample_spawn sample_parse (λ _ _, false) (λ _ _, Ok []) (λ _, 1) sample_sha256 Some true
    (str "docker") (str "luhmen") (str "/src/work")
    {| perf_run := true; pull := false; iterations := 1; files := 16; blob_mib := 1 |}.

Lemma suites_safe_witness :
  (match (sample_preflight PERF_LABEL (str "luhmen-perf") (Session [] [] [])).1 with Ok _ => true | Err _ => false end) = true ∧
  line ∘ issued <$> last (history (sample_perf_suite (Session [] [] [])).2) =
    Some (map str ["docker"; "--context"; "luhmen"; "volume"; "rm"; "luhmen-perf-1-data"]) ∧
  environment ∘ issued <$> last (history (sample_perf_suite (Session [] [] [])).2) = Some [(str "HOME", str "/Users/a")] ∧
  outcome_safe sample_environment (λ _ _, false) sample_parse (str "docker") (str "luhmen")
    (sample_preflight PERF_LABEL (str "luhmen-perf") (Session [] [] [])).1
    (history (sample_perf_suite (Session [] [] [])).2).
Proof.
  split; [vm_compute; reflexivity|]. split; [vm_compute; reflexivity|]. split; [vm_compute; reflexivity|].
  apply (suites_safe sample_environment (λ _ _, false) sample_spawn sample_parse Some true (λ _ _, Ok []) sample_sha256
    (str "docker") (str "luhmen") (str "/src/work") (λ _, 1) (λ _, Err "none")
    {| smoke_run := true; recovery := false; watchers := false; slow_shutdown := false |}
    {| perf_run := true; pull := false; iterations := 1; files := 16; blob_mib := 1 |}).
  apply list_elem_of_further, list_elem_of_here.
Defined.

Definition sample_harness : Harness :=
  {| luhmen_ := str "luhmen"; docker_ := str "docker"; endpoint := sample_endpoint; fixture := str "/src/luhmen-check-1";
     run_id := str "luhmen-check-1"; label := SMOKE_LABEL |}.
Definition sample_smoke : SmokeArgs := {| smoke_run := true; recovery := false; watchers := false; slow_shutdown := true |}.
Definition sample_fixture : result (bytes * bytes) * session :=
  create_fixture (λ _ _, Ok (str "4321")) sample_sha256 (λ _, Ok (str "{}")) sample_harness sample_smoke (Session [] [] []).

Lemma fixture_contained_witness :
  sample_fixture.1 = Ok (str "token-1", str "4321") ∧
  map fst (written sample_fixture.2) =
    map (λ n, str "/src/luhmen-check-1/" ++ str n) ["shared/host.txt"; "index.html"; "Dockerfile"; ".dockerignore"; "compose.json"] ∧
  history sample_fixture.2 = [].
Proof.
  split; [vm_compute; reflexivity|]. split; [vm_compute; reflexivity|].
  refine (proj1 (fixture_contained sample_harness (λ _ _, Ok (str "4321")) sample_sha256 (λ _, Ok (str "{}")) sample_smoke
    (Session [] [] []) (str "token-1") (str "4321") sample_fixture.2 _)).
  vm_compute. reflexivity.
Defined.
