(* ===== verification/GatewayLife.v ===== *)
(** * The life of a connection and of the gateway (src/src/gateway.rs)

    [serve_connection] and [serve] with their time limits: the TLS handshake, the
    connection's deadline, the drain after a shutdown. Times are milliseconds;
    the runtime's timers fire when they are due, so an event later than a timer
    finds it fired, and at the same time either may win. *)

From S2P Require Import Prelude Text Fs Value Gateway GatewayServe.
From stdpp Require Import fin_maps.
From Stdlib Require Import Sorted.

(** ** One connection *)

Inductive phase :=
(** [timeout(HANDSHAKE_TIMEOUT, acceptor.accept(stream))]. *)
| Handshaking (until : Z)
(** The [select!] of [serve_connection], under the server name of the handshake. *)
| Serving (sni : bytes) (deadline : Z)
(** After [graceful_shutdown], no longer under the deadline. *)
| Draining (sni : bytes)
(** [timeout(HANDSHAKE_TIMEOUT, transport.shutdown())]. *)
| Closing (until : Z)
| Closed.

#[export] Instance phase_eq_dec : EqDecision phase.
Proof. solve_decision. Defined.

Inductive event :=
(** The handshake ends, with the server name if the client sent one. *)
| Handshake (r : result (option bytes))
(** hyper calls [handle]; whether an exchange could be reserved. *)
| Request (reserved : bool)
(** [poll_without_shutdown] returns. *)
| Finished (r : result unit)
| Cancelled
| TransportShut
(** Nothing but the time. *)
| Elapsed.
#[export] Instance event_eq_dec : EqDecision event.
Proof. solve_decision. Defined.

Definition timer (p : phase) : option Z :=
  match p with Handshaking t | Serving _ t | Closing t => Some t | Draining _ | Closed => None end.
(** Every timer of a connection ends it. *)
Definition fire (now : Z) (strictly : bool) (p : phase) : phase :=
  match timer p with
  | Some t => if (t <? now)%Z || negb strictly && (t =? now)%Z then Closed else p
  | None => p
  end.

Definition apply_event (now : Z) (p : phase) (e : event) : phase :=
  match p, e with
  | Handshaking _, Handshake (Ok (Some sni)) => Serving sni (now + EXCHANGE_TIMEOUT)
  | Handshaking _, Handshake _ => Closed
  | Serving sni _, Request true => Serving sni (now + EXCHANGE_TIMEOUT + HANDSHAKE_TIMEOUT)
  | Serving sni _, Cancelled => Draining sni
  | (Serving _ _ | Draining _), Finished (Ok _) => Closing (now + HANDSHAKE_TIMEOUT)
  | (Serving _ _ | Draining _), Finished (Err _) => Closed
  | Closing _, TransportShut => Closed
  | _, Elapsed => fire now false p
  | _, _ => p
  end.
Definition on (now : Z) (p : phase) (e : event) : phase := apply_event now (fire now true p) e.

Definition accepted (now : Z) : phase := Handshaking (now + HANDSHAKE_TIMEOUT).
Definition life (p : phase) (l : list (Z * event)) : phase := foldl (λ p x, on x.1 p x.2) p l.

(** ** The gateway *)

Inductive mode := Accepting | Stopping (until : Z) | Stopped (r : result unit).
Record server := Server { mode_ : mode; shutdown : bool; open : gmap nat phase }.

Inductive action :=
(** [Cancellation::cancel]; [serve] sees it. *)
| Shutdown
| Notice
(** [listener.accept]. *)
| Incoming (c : nat)
| AcceptFails (e : string)
| Connection (c : nat) (e : event)
(** [join_next] has no task left. *)
| Joined
| Tick.

Definition live (p : phase) : option phase := if decide (p = Closed) then None else Some p.
Definition start : server := Server Accepting false ∅.

Definition DRAIN_TIMEOUT : Z := 5000.

Definition perform (now : Z) (s : server) (a : action) : server :=
  match a, mode_ s with
  | Shutdown, _ => Server (mode_ s) true (open s)
  | Notice, Accepting =>
      if shutdown s then Server (Stopping (now + DRAIN_TIMEOUT)) true (open s) else s
  | Incoming c, Accepting =>
      (** [biased]: a shutdown is seen first; without a permit the stream is dropped. *)
      if negb (shutdown s) && bool_decide (open s !! c = None) && (size (open s) <? MAX_CONNECTIONS)
      then Server Accepting false (<[c := accepted now]> (open s)) else s
  | AcceptFails e, Accepting =>
      (** Dropping the [JoinSet] aborts its tasks. *)
      if shutdown s then s
      else Server (Stopped (with_context "accept gateway connection" (Err e))) false ∅
  | Connection c e, (Accepting | Stopping _) =>
      if bool_decide (e = Cancelled) && negb (shutdown s) then s
      else Server (mode_ s) (shutdown s) (partial_alter (λ p, p ≫= λ p, live (on now p e)) c (open s))
  | Joined, Stopping _ =>
      if decide (open s = ∅) then Server (Stopped (Ok ())) (shutdown s) ∅ else s
  | Tick, Accepting =>
      Server Accepting (shutdown s) (omap (λ p, live (fire now false p)) (open s))
  | Tick, Stopping until =>
      (** [abort_all], and the aborted tasks are joined. *)
      if (until <=? now)%Z then Server (Stopped (Ok ())) (shutdown s) ∅
      else Server (Stopping until) (shutdown s) (omap (λ p, live (fire now false p)) (open s))
  | _, _ => s
  end.
Definition serve (s : server) (l : list (Z * action)) : server := foldl (λ s x, perform x.1 s x.2) s l.

(** ** The end of a connection *)

Lemma fire_cases now strictly p :
  (fire now strictly p = p ∧ ∀ t, timer p = Some t → (now <= t)%Z) ∨ fire now strictly p = Closed.
Proof.
  unfold fire. destruct (timer p) as [t|]; [|by left].
  destruct (Z.ltb_spec t now); simpl; [by right|].
  destruct (negb strictly && (t =? now)%Z); [by right|]. left. split; [done|]. by intros ? [= <-].
Qed.

Lemma on_closed now e : on now Closed e = Closed.
Proof. by destruct e. Qed.
Lemma life_closed l : life Closed l = Closed.
Proof. induction l as [|[t e] l IH]; simpl; [done|]. by rewrite on_closed. Qed.

(** What a connection that is not cancelled waits for, if it was accepted at [t0] and its last
    request is no later than [tr]. *)
Definition timely (t0 tr : Z) (p : phase) : Prop :=
  match p with
  | Handshaking t => t = (t0 + HANDSHAKE_TIMEOUT)%Z
  | Serving _ t => (t <= tr + EXCHANGE_TIMEOUT + HANDSHAKE_TIMEOUT)%Z
  | Draining _ => False
  | Closing t => (t <= tr + EXCHANGE_TIMEOUT + 2 * HANDSHAKE_TIMEOUT)%Z
  | Closed => True
  end.

Lemma timely_on t0 tr now p e :
  (t0 <= tr)%Z → e ≠ Cancelled → (∀ b, e = Request b → (now <= tr)%Z) → timely t0 tr p →
  timely t0 tr (on now p e).
Proof.
  unfold timely, on, HANDSHAKE_TIMEOUT, EXCHANGE_TIMEOUT. intros H0 Hc Hr Hp.
  destruct (fire_cases now true p) as [[-> Ht]| ->]; [|by destruct e].
  destruct p as [t|sni t|sni|t|], e as [[[sni'|]|]|[]|[]| | |]; simpl in *; try done;
    try specialize (Ht _ eq_refl); try specialize (Hr _ eq_refl); unfold HANDSHAKE_TIMEOUT, EXCHANGE_TIMEOUT in *; try lia;
    unfold fire; simpl; destruct (_ || _); done.
Qed.

(** C15. No connection stays open: one that was accepted at [t0] and begins its last request by [tr]
    is closed 40 seconds later, whatever its client does or leaves undone in the handshake, between
    requests, while it reads a response or at the end. *)
Theorem connection_ends t0 tr now l :
  (t0 <= tr)%Z → (tr + 40000 <= now)%Z →
  Forall (λ x, x.2 ≠ Cancelled ∧ ∀ b, x.2 = Request b → (x.1 <= tr)%Z) l →
  life (accepted t0) (l ++ [(now, Elapsed)]) = Closed.
Proof.
  intros H0 Hnow Hl. unfold life. rewrite foldl_app. simpl. fold (life (accepted t0) l).
  assert (timely t0 tr (life (accepted t0) l)) as Hp.
  { assert (timely t0 tr (accepted t0)) as Ha by done. revert Ha. generalize (accepted t0).
    induction Hl as [|[t e] l [Hc Hr] Hl IH]; intros p Hp; simpl; [done|]. by apply IH, timely_on. }
  destruct (fire_cases now true (life (accepted t0) l)) as [[E Ht]|E]; unfold on; rewrite E; [|done].
  unfold timely, HANDSHAKE_TIMEOUT, EXCHANGE_TIMEOUT in Hp.
  destruct (life (accepted t0) l) as [t|sni t|sni|t|]; simpl in *; try done; unfold fire; simpl;
    specialize (Ht _ eq_refl); (destruct (Z.ltb_spec t now); [done|]); simpl;
    (destruct (Z.eqb_spec t now); [done|lia]).
Qed.

Lemma connection_ends_witness :
  let l := [(100, Handshake (Ok (Some (str "a.localhost")))); (200, Request true); (9000, Request true)]%Z in
  life (accepted 0) l = Serving (str "a.localhost") 44000 ∧ life (accepted 0) (l ++ [(49000, Elapsed)%Z]) = Closed.
Proof.
  split; [vm_compute; reflexivity|]. apply (connection_ends 0 9000 49000); [lia|lia|].
  repeat constructor; simpl; try discriminate; intros b [=]; lia.
Defined.

(** ** The end of the gateway *)

Lemma perform_stopped now s a r : mode_ s = Stopped r → mode_ (perform now s a) = Stopped r ∧ open (perform now s a) = open s.
Proof. intros E. destruct a; simpl; rewrite ?E; done. Qed.

Lemma serve_stopped l s r : mode_ s = Stopped r → mode_ (serve s l) = Stopped r ∧ open (serve s l) = open s.
Proof.
  revert s. induction l as [|[t a] l IH]; intros s E; simpl; [done|].
  destruct (perform_stopped t s a r E) as [E' <-]. by apply IH.
Qed.

(** What a connection sees of what happens to the gateway. *)
Definition own (c : nat) (x : Z * action) : list (Z * event) :=
  match x with
  | (t, Connection d e) => if decide (d = c) then [(t, e)] else []
  | (t, Tick) => [(t, Elapsed)]
  | _ => []
  end.

(** The phase of a connection; one that is not open is closed. *)
Definition phase_of (s : server) (c : nat) : phase := default Closed (open s !! c).

Lemma live_default p : default Closed (live p) = p.
Proof. unfold live. by destruct (decide (p = Closed)) as [->|]. Qed.

Lemma fire_twice now p : fire now false (fire now true p) = fire now false p.
Proof.
  destruct (fire_cases now true p) as [[-> _]|E]; [done|]. rewrite E. unfold fire in *. destruct (timer p) as [t|] eqn:Et; [|by subst p].
  destruct (t <? now)%Z; simpl in *; [done|]. subst p. discriminate Et.
Qed.
Lemma on_Elapsed now p : on now p Elapsed = fire now false p.
Proof.
  unfold on. rewrite <-fire_twice. unfold apply_event. by destruct (fire now true p).
Qed.

Lemma tick_phase now (m : gmap nat phase) c :
  default Closed (omap (λ p, live (fire now false p)) m !! c) = on now (default Closed (m !! c)) Elapsed.
Proof.
  rewrite lookup_omap, on_Elapsed. destruct (m !! c) as [p|]; simpl; [apply live_default|done].
Qed.

Lemma relay_phase now (m : gmap nat phase) c d e :
  default Closed (partial_alter (λ p, p ≫= λ p, live (on now p e)) d m !! c) =
  life (default Closed (m !! c)) (own c (now, Connection d e)).
Proof.
  simpl. destruct (decide (d = c)) as [->|Hne]; [|by rewrite lookup_partial_alter_ne].
  rewrite lookup_partial_alter_eq. destruct (m !! c) as [p|]; simpl; [apply live_default|by rewrite on_closed].
Qed.

(** After the shutdown a connection goes through its own events only, until the gateway stops. *)
Lemma phase_perform now s a c :
  shutdown s = true → (∀ r, mode_ (perform now s a) ≠ Stopped r) →
  shutdown (perform now s a) = true ∧ phase_of (perform now s a) c = life (phase_of s c) (own c (now, a)).
Proof.
  intros Hs Hm. unfold phase_of. destruct (mode_ s) as [|until|r] eqn:Em.
  - destruct a; simpl in *; rewrite ?Em, ?Hs in *; simpl in *; try done.
    + rewrite andb_false_r in *. split; [done|]. apply relay_phase.
    + split; [done|]. apply tick_phase.
  - destruct a; simpl in *; rewrite ?Em, ?Hs in *; simpl in *; try done.
    + rewrite andb_false_r in *. split; [done|]. apply relay_phase.
    + destruct (decide (open s = ∅)); [by destruct (Hm (Ok ()))|done].
    + destruct (until <=? now)%Z; [by destruct (Hm (Ok ()))|]. split; [done|]. apply tick_phase.
  - destruct (perform_stopped now s a r Em) as [E _]. by destruct (Hm r).
Qed.

Lemma shutdown_stays now s a : shutdown s = true → shutdown (perform now s a) = true.
Proof.
  intros Hs. destruct a; simpl; [done|..]; destruct (mode_ s); rewrite ?Hs; simpl; try done.
  - rewrite andb_false_r. done.
  - rewrite andb_false_r. done.
  - by destruct (decide _).
  - by destruct (_ <=? _)%Z.
Qed.

(** The drain ends five seconds after the shutdown was noticed, and a stopped gateway has no
    connection. *)
Definition settled (t : Z) (s : server) : Prop :=
  match mode_ s with
  | Accepting => True
  | Stopping until => (until <= t + DRAIN_TIMEOUT)%Z
  | Stopped _ => open s = ∅
  end.

Lemma settled_perform t now s a : (now <= t)%Z → settled t s → settled t (perform now s a).
Proof.
  unfold settled. intros Hn Hs.
  destruct a; simpl; destruct (mode_ s) eqn:Em; simpl; rewrite ?Em; try done.
  - destruct (shutdown s); simpl; rewrite ?Em; [lia|done].
  - destruct (_ && _); simpl; by rewrite ?Em.
  - destruct (shutdown s); simpl; by rewrite ?Em.
  - destruct (_ && _); simpl; by rewrite ?Em.
  - destruct (_ && _); simpl; by rewrite ?Em.
  - destruct (decide _); simpl; by rewrite ?Em.
  - by destruct (_ <=? _)%Z.
Qed.

Lemma settled_serve t l s : Forall (λ x, (x.1 <= t)%Z) l → settled t s → settled t (serve s l).
Proof.
  intros Hl. revert s. induction Hl as [|[now a] l Hn Hl IH]; intros s Hs; simpl; [done|].
  by apply IH, settled_perform.
Qed.

Lemma serve_cons s t a l : serve s ((t, a) :: l) = serve (perform t s a) l.
Proof. done. Qed.
Lemma serve_app s l k : serve s (l ++ k) = serve (serve s l) k.
Proof. apply foldl_app. Qed.

(** A drain goes on until it is over. *)
Definition ending (until : Z) (s : server) : Prop :=
  mode_ s = Stopping until ∨ ∃ r, mode_ s = Stopped r ∧ open s = ∅.

Lemma ending_perform until now s a : ending until s → ending until (perform now s a).
Proof.
  unfold ending. intros [E|(r & E & Ho)].
  - destruct a; simpl; rewrite ?E; simpl; try by left.
    + destruct (_ && _); simpl; by left.
    + destruct (decide _); simpl; [right|by left]. by eexists.
    + destruct (_ <=? _)%Z; simpl; [right|by left]. by eexists.
  - destruct (perform_stopped now s a r E) as [-> ->]. right. eauto.
Qed.

Lemma ending_serve until l s : ending until s → ending until (serve s l).
Proof. revert s. induction l as [|[t a] l IH]; intros s Hs; simpl; [done|]. by apply IH, ending_perform. Qed.

Lemma ending_notice t s : shutdown s = true → settled t s → ∃ until, (until <= t + DRAIN_TIMEOUT)%Z ∧ ending until (perform t s Notice).
Proof.
  unfold settled, ending. intros Hs Ht. simpl. destruct (mode_ s) as [|until|r] eqn:Em; rewrite ?Hs; simpl.
  - eexists. by split; [|by left].
  - exists until. rewrite Em. by split; [|by left].
  - exists (t + DRAIN_TIMEOUT)%Z. split; [lia|]. rewrite Em. right. eauto.
Qed.

Lemma ending_tick until now s : ending until s → (until <= now)%Z →
  ∃ r, mode_ (perform now s Tick) = Stopped r ∧ open (perform now s Tick) = ∅.
Proof.
  intros [E|(r & E & Ho)] Hn.
  - simpl. rewrite E. apply Z.leb_le in Hn as ->. by eexists.
  - destruct (perform_stopped now s Tick r E) as [-> ->]. eauto.
Qed.

Lemma phase_serve l s c :
  shutdown s = true → (∀ r, mode_ (serve s l) ≠ Stopped r) →
  phase_of (serve s l) c = life (phase_of s c) (l ≫= own c).
Proof.
  revert s. induction l as [|[t a] l IH]; intros s Hs Hm; simpl; [done|].
  assert (∀ r, mode_ (perform t s a) ≠ Stopped r) as Ha.
  { intros r E. destruct (serve_stopped l _ r E) as [E' _]. by apply (Hm r). }
  destruct (phase_perform t s a c Hs Ha) as [Hs' Hp]. simpl in Hm. rewrite IH by done.
  rewrite Hp. unfold life. by rewrite foldl_app.
Qed.

(** C13. A shutdown ends the gateway within five seconds of being noticed: it has stopped, and no task
    of a connection outlives it. Until then no connection is accepted, and each of those that were
    open goes on with its own exchanges and time limits. *)
Theorem gateway_stops before between after t t' :
  let s := serve start before in
  shutdown s = true → Forall (λ x, (x.1 <= t)%Z) before → (t + 5000 <= t')%Z →
  (let s' := serve s ((t, Notice) :: between ++ (t', Tick) :: after) in
   ∃ r, mode_ s' = Stopped r ∧ open s' = ∅) ∧
  (∀ l c, (∀ r, mode_ (serve s l) ≠ Stopped r) →
     phase_of (serve s l) c = life (phase_of s c) (l ≫= own c)).
Proof.
  intros s Hs Hb Ht. split; [|intros l c; by apply phase_serve].
  assert (settled t s) as Hset by by apply settled_serve.
  destruct (ending_notice t _ Hs Hset) as (until & Hu & He). unfold DRAIN_TIMEOUT in Hu.
  cbv zeta. rewrite serve_cons, serve_app, serve_cons.
  apply (ending_serve _ between) in He. destruct (ending_tick until t' _ He ltac:(lia)) as (r & Hm & Ho).
  destruct (serve_stopped after _ r Hm) as [Hm' Ho']. exists r. split; [done|by rewrite Ho'].
Qed.

Lemma gateway_stops_witness :
  let before := [(0, Incoming 1); (10, Connection 1 (Handshake (Ok (Some (str "a.localhost"))))); (20, Incoming 2);
                 (100, Shutdown)]%Z in
  let between := [(100, Incoming 3); (110, Connection 1 Cancelled); (4000, Connection 1 (Finished (Ok ())))]%Z in
  map_to_list (open (serve (serve start before) ((100, Notice)%Z :: between))) = [(2, Handshaking 5020%Z); (1, Closing 9000%Z)] ∧
  ∃ r, mode_ (serve (serve start before) ((100, Notice)%Z :: between ++ [(5100, Tick)%Z])) = Stopped r ∧
       open (serve (serve start before) ((100, Notice)%Z :: between ++ [(5100, Tick)%Z])) = ∅.
Proof.
  split; [vm_compute; reflexivity|].
  apply (gateway_stops
    [(0, Incoming 1); (10, Connection 1 (Handshake (Ok (Some (str "a.localhost"))))); (20, Incoming 2); (100, Shutdown)]%Z
    [(100, Incoming 3); (110, Connection 1 Cancelled); (4000, Connection 1 (Finished (Ok ())))]%Z [] 100 5100).
  - vm_compute. reflexivity.
  - repeat constructor; simpl; lia.
  - lia.
Defined.
