(* ===== verification/Cancel.v ===== *)
(** * Cancellation (src/src/cancel.rs)

    A flag that is set once and wakes whoever waits for it, on top of
    [tokio::sync::watch], which is the class [Watch] here. Threads that set the
    flag interleave with waiters at the points where a waiter can be suspended. *)

From S2P Require Import Prelude.

(** ** The watch channel

    A sender with the channel it owns, and receivers that remember what they have seen.
    [changed] is [None] while it would wait. *)
Class Watch (Sender Receiver : Type) := {
  watch_new : bool → Sender;
  send_replace : bool → Sender → Sender;
  borrow : Sender → bool;
  subscribe : Sender → Receiver;
  borrow_and_update : Sender → Receiver → bool * Receiver;
  changed : Sender → Receiver → option (result Receiver);
  (** The receiver belongs to the channel of this sender. *)
  attached : Sender → Receiver → Prop
}.

(** What tokio documents, for a channel whose sender is alive. *)
Class WatchLaws (S R : Type) `{Watch S R} := {
  borrow_new v : borrow (watch_new v) = v;
  borrow_replace v c : borrow (send_replace v c) = v;
  attached_subscribe c : attached c (subscribe c);
  attached_replace v c r : attached c r → attached (send_replace v c) r;
  attached_update c r : attached c r → attached c (borrow_and_update c r).2;
  attached_changed c r r' : attached c r → changed c r = Some (Ok r') → attached c r';
  borrow_update c r : attached c r → (borrow_and_update c r).1 = borrow c;
  (** A receiver that has not seen the last value does not wait, and the wait never fails. *)
  changed_replace v c r : attached c r → ∃ r', changed (send_replace v c) r = Some (Ok r');
  changed_alive c r e : attached c r → changed c r ≠ Some (Err e)
}.

(** ** [Cancellation] *)

Section cancellation.
Context {Sender Receiver : Type} `{Watch Sender Receiver}.

Definition new : Sender := watch_new false.
Definition cancel (c : Sender) : Sender := send_replace true c.
Definition is_cancelled (c : Sender) : bool := borrow c.

(** A call of [cancelled]: before its first turn, about to look, waiting for a change, returned. *)
Inductive waiter :=
| Entered
| Looking (r : Receiver)
| Waiting (r : Receiver)
| Returned.

(** One turn of it. A waiter that would wait stays where it is. *)
Definition cancelled (c : Sender) (w : waiter) : waiter :=
  match w with
  | Entered => Looking (subscribe c)
  | Looking r => let '(value, r) := borrow_and_update c r in if value then Returned else Waiting r
  | Waiting r => match changed c r with
                 | Some (Ok r) => Looking r
                 | Some (Err _) => Returned
                 | None => Waiting r
                 end
  | Returned => Returned
  end.

(** The clones of one [Cancellation], and the calls of [cancelled] on them. *)
Record state := State { channel : Sender; waiters : gmap nat waiter }.

Inductive action :=
| Cancel
| Call (i : nat)
| Poll (i : nat)
| Drop (i : nat).

Definition perform (a : action) (s : state) : state :=
  match a with
  | Cancel => State (cancel (channel s)) (waiters s)
  | Call i => match waiters s !! i with
              | Some _ => s
              | None => State (channel s) (<[i := Entered]> (waiters s))
              end
  | Poll i => match waiters s !! i with
              | Some w => State (channel s) (<[i := cancelled (channel s) w]> (waiters s))
              | None => s
              end
  | Drop i => State (channel s) (delete i (waiters s))
  end.
Definition perform_all (l : list action) (s : state) : state := foldl (λ s a, perform a s) s l.
Definition initial : state := State new ∅.

(** ** Invariants *)

Context {laws : WatchLaws Sender Receiver}.

Definition sound_waiter (c : Sender) (w : waiter) : Prop :=
  match w with
  | Entered => True
  | Looking r => attached c r
  | Waiting r => attached c r ∧ (is_cancelled c = true → ∃ r', changed c r = Some (Ok r'))
  | Returned => is_cancelled c = true
  end.
Definition sound (s : state) : Prop := map_Forall (λ _ w, sound_waiter (channel s) w) (waiters s).

Lemma sound_cancel c w : sound_waiter c w → sound_waiter (cancel c) w.
Proof using laws.
  destruct w as [|r|r|]; simpl; [done|by apply attached_replace| |intros _; apply borrow_replace].
  intros [Hr _]. split; [by apply attached_replace|]. intros _. by apply changed_replace.
Qed.

Lemma sound_turn c w : sound_waiter c w → sound_waiter c (cancelled c w).
Proof using laws.
  destruct w as [|r|r|]; simpl; [intros _; apply attached_subscribe| | |done].
  - intros Hr. pose proof (attached_update c r Hr) as Hr'. pose proof (borrow_update c r Hr) as Hb.
    destruct (borrow_and_update c r) as [[] r']; simpl in *; [done|].
    split; [done|]. unfold is_cancelled. by rewrite <-Hb.
  - intros [Hr Hc]. destruct (changed c r) as [[r'|e]|] eqn:E; simpl.
    + by eapply attached_changed.
    + by destruct (changed_alive c r e Hr).
    + split; [done|]. intros Hcan. destruct (Hc Hcan) as [? [=]].
Qed.

Lemma sound_perform a s : sound s → sound (perform a s).
Proof using laws.
  intros Hs. unfold sound in *. destruct a as [|i|i|i]; simpl.
  - intros j w Hj. by apply sound_cancel, (Hs j).
  - destruct (waiters s !! i) eqn:E; [done|]. by apply map_Forall_insert_2.
  - destruct (waiters s !! i) eqn:E; [|done]. simpl. apply map_Forall_insert_2; [|done].
    by apply sound_turn, (Hs i).
  - by apply map_Forall_delete.
Qed.

Lemma sound_reached l : sound (perform_all l initial).
Proof using laws.
  unfold perform_all. generalize (map_Forall_empty (λ _, sound_waiter new) : sound initial). generalize initial.
  induction l as [|a l IH]; intros s Hs; simpl; [done|]. by apply IH, sound_perform.
Qed.

Lemma cancelled_stays a s : is_cancelled (channel s) = true → is_cancelled (channel (perform a s)) = true.
Proof using laws.
  destruct a; simpl; [intros _; apply borrow_replace|..|done]; by destruct (waiters s !! i).
Qed.

(** The turns a waiter still needs once the flag is set. *)
Definition turns (w : waiter) : nat :=
  match w with Entered => 2 | Looking _ => 1 | Waiting _ => 2 | Returned => 0 end.

Lemma turn_progress c w :
  sound_waiter c w → is_cancelled c = true → turns (cancelled c w) <= pred (turns w).
Proof using laws.
  destruct w as [|r|r|]; simpl; intros Hw Hc; [lia| | |lia].
  - pose proof (borrow_update c r Hw) as Hb. unfold is_cancelled in Hc.
    destruct (borrow_and_update c r) as [value r']; simpl in Hb. rewrite Hb, Hc. simpl. lia.
  - destruct Hw as [_ Hw]. destruct (Hw Hc) as [r' ->]. simpl. lia.
Qed.

Fixpoint polls (i : nat) (l : list action) : nat :=
  match l with
  | [] => 0
  | a :: l => match a with Poll j => if decide (j = i) then 1 else 0 | _ => 0 end + polls i l
  end.
Definition drops (i : nat) (a : action) : Prop := match a with Drop j => j = i | _ => False end.

(** Every action leaves a waiter it does not drop, no further from its return. *)
Lemma waiter_progress a s i w :
  sound s → is_cancelled (channel s) = true → waiters s !! i = Some w → ¬ drops i a →
  ∃ w', waiters (perform a s) !! i = Some w' ∧ turns w' <= turns w - polls i [a].
Proof using laws.
  intros Hs Hc Hi Hd. destruct a as [|j|j|j]; simpl in *.
  - exists w. split; [done|lia].
  - destruct (waiters s !! j) eqn:E; [exists w; split; [done|lia]|]. simpl.
    exists w. rewrite lookup_insert_ne by congruence. split; [done|lia].
  - destruct (decide (j = i)) as [->|Hne].
    + rewrite Hi. simpl. eexists. rewrite lookup_insert_eq. split; [done|].
      pose proof (turn_progress (channel s) w (Hs _ _ Hi) Hc). lia.
    + exists w. destruct (waiters s !! j); simpl; [rewrite lookup_insert_ne by done|]; (split; [done|lia]).
  - exists w. rewrite lookup_delete_ne by done. split; [done|lia].
Qed.

(** C12. Cancellation is permanent and no wake-up is lost. Whatever threads and waiters did before, once
    the flag is set it stays set, and every call of [cancelled], early or late, returns within two of
    its own turns in any interleaving with others; and none returns unless the flag is set. *)
Theorem cancellation_wakes before after i :
  let s := perform_all before initial in
  let s' := perform_all after s in
  (waiters s !! i = Some Returned → is_cancelled (channel s) = true) ∧
  (is_cancelled (channel s) = true →
   is_cancelled (channel s') = true ∧
   (is_Some (waiters s !! i) → Forall (λ a, ¬ drops i a) after → 2 <= polls i after →
    waiters s' !! i = Some Returned)).
Proof using laws.
  simpl. pose proof (sound_reached before) as Hs. generalize dependent (perform_all before initial). intros s Hs.
  split; [intros Hi; exact (Hs _ _ Hi)|]. intros Hc. split.
  { clear Hs. revert s Hc. induction after as [|a l IH]; intros s Hc; simpl; [done|]. by apply IH, cancelled_stays. }
  intros [w Hi] Hd Hp. assert (turns w <= polls i after) as Ht by (destruct w; simpl; lia). clear Hp.
  revert s w Hs Hc Hi Ht. induction Hd as [|a l Ha Hd IH]; intros s w Hs Hc Hi Ht; simpl.
  - rewrite Hi. destruct w; simpl in Ht; [..|done]; simpl in Ht; lia.
  - destruct (waiter_progress a s i w Hs Hc Hi Ha) as (w' & Hi' & Ht').
    apply (IH (perform a s) w'); [by apply sound_perform|by apply cancelled_stays|done|].
    simpl in Ht, Ht'. lia.
Qed.
End cancellation.

(** ** A channel *)

(** The value with the number of times it was replaced; a receiver has seen one of these numbers. *)
#[export] Instance versions : Watch (bool * nat) nat := {|
  watch_new v := (v, 0);
  send_replace v c := (v, S c.2);
  borrow c := c.1;
  subscribe c := c.2;
  borrow_and_update c _ := (c.1, c.2);
  changed c r := if decide (r = c.2) then None else Some (Ok c.2);
  attached c r := r <= c.2
|}.
#[export] Instance versions_laws : WatchLaws (bool * nat) nat.
Proof.
  split; simpl; try done; try lia.
  - intros c r r'. destruct (decide _); [done|]. intros _ [= <-]. done.
  - intros v c r Hr. rewrite decide_False by lia. eauto.
  - intros c r e _. by destruct (decide _).
Qed.

(** The source's test: a waiter from before the cancellation and one from after. *)
Example cancellation_reaches_existing_and_late_waiters :
  let s := perform_all [Call 0; Poll 0; Poll 0; Poll 0; Cancel; Poll 0; Poll 0; Call 1; Poll 1; Poll 1] initial in
  (waiters (perform_all [Call 0; Poll 0; Poll 0; Poll 0] initial) !! 0,
   waiters s !! 0, waiters s !! 1, is_cancelled (channel s))
  = (Some (Waiting 0), Some Returned, Some Returned, true).
Proof. vm_compute. reflexivity. Qed.

Lemma cancellation_wakes_witness :
  let s := perform_all [Call 0; Poll 0; Poll 0; Poll 0; Cancel] initial in
  waiters s !! 0 = Some (Waiting 0) ∧
  waiters (perform_all [Poll 0; Call 1; Cancel; Poll 1; Poll 0] s) !! 0 = Some Returned.
Proof.
  split; [vm_compute; reflexivity|].
  apply (cancellation_wakes [Call 0; Poll 0; Poll 0; Poll 0; Cancel] [Poll 0; Call 1; Cancel; Poll 1; Poll 0] 0).
  - vm_compute. reflexivity.
  - vm_compute. eauto.
  - repeat constructor; simpl; lia.
  - vm_compute. lia.
Defined.
