(* ===== verification/Main.v ===== *)
(** * The program (src/src/main.rs)

    What a command shows and the status it ends with: [report] and the other
    layouts, [print_microvm_value], and [main] with the thread that turns a signal
    into the cancellation. [execute] is Cli.v's; how serde writes a report and how
    a JSON value is displayed are parameters, as are the outcome of replacing the
    process and that of the gateway. *)

From S2P Require Import Prelude Text Fs Paths Config Value Runtime RuntimeSpec Cancel.
From S2P Require Gateway Cli.

(** What was written to the two streams; the second one by lines. *)
Record console := Console { stdout : bytes; stderr : list bytes }.
Definition silent : console := Console [] [].
Definition println (t : bytes) : bytes := t ++ [newline].

Record layouts := {
  inspection_json : Inspection → result bytes;
  update_json : ProvisionUpdate → result bytes;
  value_json : value → result bytes;
  compact : value → bytes
}.

(** The thread of the signals: whether its handlers could be installed, and what woke it by now. *)
Inductive wake := CtrlC (r : result unit) | Terminate.
Record signals := { installed : result unit; woken : option wake }.

(** How the process ended: with a status, as another program, or killed. *)
Inductive finished := Exited (code : Z) (shown : console) | Replaced (c : Command) | Killed.

Section main.
Context (R : machine) {certificate : Type} (L : Cli.libraries certificate) (D : layouts).
Context (exec : Command → option string) (serve : Gateway.Config → list (bytes * certificate) → result unit).

(** [println!] of a text that may not come about. *)
Definition print (t : result bytes) : console * result unit :=
  match t with Ok t => (Console (println t) [], Ok ()) | Err e => (silent, Err e) end.
Definition print_members (l : list (bytes * value)) : bytes :=
  concat (map (λ x, println (x.1 ++ str ": " ++ compact D x.2)) l).
Definition print_object (v : value) (e : string) : console * result unit :=
  match v with Object l => (Console (print_members l) [], Ok ()) | _ => (silent, Err e) end.

Definition report (i : Inspection) (json : bool) : console * result unit :=
  if json then print (inspection_json D i) else
  (Console
    (println (str "luhmen: " ++ vm_state i)
     ++ println (str "Docker Engine: " ++ if engine_ready i then str "ready" else str "unavailable")
     ++ println (str "Context: " ++ if context_ready_ i then str "luhmen" else str "not created")
     ++ println (str "Endpoint: " ++ endpoint R))
    (map (λ e, str "luhmen: " ++ str e) (inspect_errors i)), Ok ()).
Definition report_update (r : ProvisionUpdate) (json : bool) : console * result unit :=
  if json then print (update_json D r)
  else print (Ok (str (if updated r then "VM provisioning updated. Run `luhmen start` to apply it."
                       else "VM provisioning is current."))).
Definition report_doctor (v : value) (ready json : bool) : console * result unit :=
  let '(shown, r) := if json then print (value_json D v) else print_object v "invalid doctor report" in
  (shown, _ ← r; ensure ready "dependencies are not ready; see doctor report").
Definition report_storage (v : value) (json : bool) : console * result unit :=
  if json then print (value_json D v) else print_object v "invalid storage report".
Definition print_microvm_value (v : value) (json : bool) : console * result unit :=
  match json, v with
  | false, Object l => (Console (print_members l) [], Ok ())
  | _, _ => print (value_json D v)
  end.

(** What follows [execute]; [json] is the command's flag, false if it has none. *)
Definition finish (a : Cli.Action) (json : bool) (e : Cli.ending certificate) : console * result unit :=
  match e with
  | Cli.Reports i => report i json
  | Cli.Updates r => report_update r json
  | Cli.Diagnoses v ready => report_doctor v ready json
  | Cli.Prints t => print (Ok t)
  | Cli.Shows v => match a with Cli.Storage => report_storage v json | _ => print_microvm_value v json end
  | Cli.Becomes c =>
      (silent, match exec c with
               | Some e => Err (match a with
                                | Cli.Docker _ => "could not execute Docker CLI"
                                | _ => "could not execute guest command"
                                end +:+ ": " +:+ e)
               | None => Ok ()
               end)
  | Cli.Serves c tls => (silent, serve c tls)
  end.

Context {Sender Receiver : Type} `{Watch Sender Receiver}.

(** The cancellation as the thread left it, and its complaint. *)
Definition signal_thread (s : signals) (c : Sender) : Sender * list bytes :=
  match (_ ← installed s; match woken s with Some (CtrlC r) => _ ← r; Ok true | Some Terminate => Ok true | None => Ok false end) with
  | Ok true => (cancel c, [])
  | Ok false => (c, [])
  | Err e => (c, [str "luhmen signal handler: " ++ str e])
  end.

Definition exit_with (cancelled : bool) (shown : console) (r : result unit) : finished :=
  match r with
  | Ok _ => Exited 0 shown
  | Err e => Exited (if cancelled then 130 else 1) (Console (stdout shown) (stderr shown ++ [str "luhmen: " ++ str e]))
  end.

(** [signals] is what happened by the end of the command; the thread's complaint may come anywhere
    in the second stream. *)
Definition main (s : signals) (a : Cli.Action) (json : bool) (w : world) : finished * list bytes * world :=
  let '(c, complaints) := signal_thread s (new : Sender) in
  let '(o, w) := Cli.execute R L a w in
  (match o with
   | Halt => Killed
   | Throw e => exit_with (is_cancelled c) silent (Err e)
   | Ret e =>
       let '(shown, r) := finish a json e in
       match e, r with
       | Cli.Becomes command, Ok _ => Replaced command
       | _, _ => exit_with (is_cancelled c) shown r
       end
   end, complaints, w).

(** ** The status *)

Context {laws : WatchLaws Sender Receiver}.

Definition signalled (s : signals) : Prop :=
  installed s = Ok () ∧ (woken s = Some Terminate ∨ woken s = Some (CtrlC (Ok ()))).

Lemma signal_thread_cancels s : is_cancelled (signal_thread s (new : Sender)).1 = true ↔ signalled s.
Proof using laws.
  unfold signal_thread, signalled, is_cancelled, cancel, new. pose proof (borrow_new false) as Hn.
  pose proof (borrow_replace true (watch_new false)) as Hr.
  clear laws. destruct s as [[[]|e] [[[[]|f]|]|]]; simpl; rewrite ?Hn, ?Hr; intuition congruence.
Qed.

(** The text of a command with [--json], without its last byte. *)
Definition json_text (e : Cli.ending certificate) : option (result bytes) :=
  match e with
  | Cli.Reports i => Some (inspection_json D i)
  | Cli.Updates r => Some (update_json D r)
  | Cli.Diagnoses v _ | Cli.Shows v => Some (value_json D v)
  | Cli.Prints _ | Cli.Becomes _ | Cli.Serves _ _ => None
  end.

Lemma finish_json a e t :
  json_text e = Some t →
  finish a true e = (match t with Ok t => Console (println t) [] | Err _ => silent end,
                     _ ← t; match e with
                            | Cli.Diagnoses _ ready => ensure ready "dependencies are not ready; see doctor report"
                            | _ => Ok ()
                            end).
Proof using.
  destruct e as [i|r|v ready|x|v|c|c tls]; simpl; intros [= <-]; unfold print_microvm_value, report_doctor, print.
  - unfold report, print. by destruct (inspection_json D i).
  - unfold report_update, print. by destruct (update_json D r).
  - by destruct (value_json D v).
  - destruct a; unfold report_storage, print; by destruct (value_json D v).
Qed.

Lemma exit_with_spec b shown r code shown' :
  exit_with b shown r = Exited code shown' →
  (r = Ok () ∧ code = 0%Z ∧ shown' = shown) ∨
  (∃ e, r = Err e ∧ code = (if b then 130 else 1)%Z ∧ stdout shown' = stdout shown ∧
     last (stderr shown') = Some (str "luhmen: " ++ str e)).
Proof using.
  destruct r as [[]|e]; intros [= <- <-]; [by left|right]. exists e. simpl. by rewrite last_snoc.
Qed.
Lemma main_exited s a json w code shown complaints w' :
  main s a json w = (Exited code shown, complaints, w') →
  ∃ shown0 r, exit_with (is_cancelled (signal_thread s (new : Sender)).1) shown0 r = Exited code shown ∧
    ((∃ e, (Cli.execute R L a w).1 = Throw e ∧ r = Err e ∧ shown0 = silent) ∨
     (∃ x, (Cli.execute R L a w).1 = Ret x ∧ finish a json x = (shown0, r))).
Proof using.
  unfold main. destruct (signal_thread s new) as [c k]. destruct (Cli.execute R L a w) as [[x|e|] w1]; simpl.
  - destruct (finish a json x) as [shown0 r] eqn:Ef. intros E. exists shown0, r. split; [|right; eauto].
    injection E as E _ _. destruct x, r; first [exact E|discriminate E].
  - intros E%(f_equal (λ x, x.1.1)). exists silent, (Err e). split; [exact E|left; eauto].
  - by intros [=].
Qed.

(** C29. The status tells how a command ended: 0 exactly if it succeeded, whatever was signalled;
    otherwise its error is the last line for the second stream and the status is 130 if a signal
    was taken and 1 if not. With [--json] the first stream is empty or one document and its line
    end, and a success leaves the second one to the thread of the signals. *)
Theorem exit_status s a json w code shown complaints w' :
  main s a json w = (Exited code shown, complaints, w') →
  (code = 0%Z ↔ ∃ e, (Cli.execute R L a w).1 = Ret e ∧ finish a json e = (shown, Ok ())) ∧
  (code ≠ 0%Z → ∃ e, last (stderr shown) = Some (str "luhmen: " ++ str e) ∧
     ((Cli.execute R L a w).1 = Throw e ∨ ∃ x, (Cli.execute R L a w).1 = Ret x ∧ (finish a json x).2 = Err e)) ∧
  (code ≠ 0%Z → (code = 130%Z ∧ signalled s) ∨ (code = 1%Z ∧ ¬ signalled s)) ∧
  (json = true → ∀ x t, (Cli.execute R L a w).1 = Ret x → json_text x = Some t →
     (stdout shown = [] ∨ ∃ d, t = Ok d ∧ stdout shown = println d) ∧ (code = 0%Z → stderr shown = [])).
Proof using laws.
  pose proof (signal_thread_cancels s) as Hc. intros (shown0 & r & Ex%exit_with_spec & Hx)%main_exited.
  assert (code ≠ 0%Z → (code = 130%Z ∧ signalled s) ∨ (code = 1%Z ∧ ¬ signalled s)) as Hcode.
  { destruct Ex as [(_ & -> & _)|(e & _ & -> & _)]; [done|intros _].
    destruct (is_cancelled _); [left|right]; (split; [done|]); [by apply Hc|]. intros Hs. by apply Hc in Hs. }
  assert (code = (if is_cancelled (signal_thread s (new : Sender)).1 then 130 else 1)%Z → code ≠ 0%Z) as H0.
  { intros ->. by destruct (is_cancelled _). }
  destruct Hx as [(e & E & -> & ->)|(x & E & Ef)]; rewrite E.
  - destruct Ex as [(? & _)|(e' & [= <-] & Hb & _ & Hl)]; [done|]. specialize (H0 Hb).
    split; [split; [done|intros (x & ? & _); done]|]. split; [eauto|]. split; [done|]. done.
  - split.
    { split.
      - intros ->. destruct Ex as [(-> & _ & ->)|(e & _ & Hb & _)]; [eauto|]. by destruct (H0 Hb).
      - intros (y & [= <-] & Hy). rewrite Ef in Hy. injection Hy as <- ->.
        by destruct Ex as [(_ & -> & _)|(e & ? & _)]. }
    split; [|split; [done|]].
    { intros Hne. destruct Ex as [(_ & ? & _)|(e & -> & _ & _ & Hl)]; [done|]. exists e. split; [done|]. right.
      exists x. by rewrite Ef. }
    intros -> y t [= <-] Ht. rewrite (finish_json a x t Ht) in Ef. injection Ef as <- <-.
    destruct Ex as [(Hr & -> & ->)|(e & Hr & Hb & -> & _)].
    + destruct t as [d|]; [|done]. simpl. eauto.
    + specialize (H0 Hb). split; [|done]. destruct t as [d|]; simpl; eauto.
Qed.
End main.

(** ** Inspections *)

Definition sample_layouts : layouts := {|
  inspection_json i := Ok (str "{state:" ++ vm_state i ++ str "}"); update_json _ := Err "none";
  value_json _ := Err "none"; compact _ := []
|}.
Definition sample_main : signals → Cli.Action → bool → finished * list bytes * world := λ s a json,
  main (sample_machine "Running" ordinary_commands) Cli.sample_libraries sample_layouts (λ _, None) (λ _ _, Ok ())
    (Sender := bool * nat) s a json (World 0 (sample_state "saved" "saved") []).

(** An interrupted command that fails. *)
Example interrupted :
  (sample_main {| installed := Ok (); woken := Some (CtrlC (Ok ())) |} (Cli.Docker [str "ps"; str "--host=tcp://a"]) false).1.1
  = Exited 130 (Console [] [str "luhmen: Docker endpoint or configuration overrides are not allowed in the luhmen wrapper"]).
Proof. vm_compute. reflexivity. Qed.

Lemma exit_status_witness :
  match sample_main {| installed := Ok (); woken := Some Terminate |} Cli.Inspect true with
  | (Exited code shown, _, _) =>
      shown = Console (println (str "{state:Running}")) [] ∧ code = 0%Z ∧
      (code ≠ 0%Z → ∃ e, last (stderr shown) = Some (str "luhmen: " ++ str e))
  | _ => False
  end.
Proof.
  destruct (sample_main _ _ _) as [[[code shown|c|] k] w'] eqn:E;
    try (apply (f_equal (λ x, x.1.1)) in E; vm_compute in E; discriminate E).
  assert (code = 0%Z ∧ shown = Console (println (str "{state:Running}")) []) as [-> ->].
  { apply (f_equal (λ x, x.1.1)) in E. vm_compute in E. injection E as <- <-. split; reflexivity. }
  split; [reflexivity|]. split; [reflexivity|]. intros Hne.
  destruct (proj1 (proj2 (exit_status _ _ _ _ _ _ _ _ _ _ _ _ _ E)) Hne) as (e & He & _). eauto.
Defined.
